(* ===== verification/_CoqProject ===== *)
-Q . S2P
Prelude.v
Interface.v
Codec.v
Float.v
SystemProgram.v
VoteState.v
Message.v
MessageProcessor.v
ShortVec.v
Budget.v
Token.v
Exchange.v
Storage.v
Config.v
AccountsIndex.v
EpochSchedule.v
StakingUtils.v
ForkSelection.v
BankForks.v
LeaderSchedule.v
Entry.v
Recorder.v
BlockStore.v
BlockStoreProofs.v
BlockStoreChain.v
BlockStoreReads.v
BlockStoreErasure.v
Gossip.v
GossipProofs.v
DataPlane.v
Cluster.v
ClusterProofs.v
Repair.v
RepairProofs.v
BlockhashQueue.v
StatusCache.v
Stake.v
AppendVec.v
AccountsDB.v
Accounts.v
Bank.v
BankProofs.v
BankStore.v
Replay.v
ReplayProofs.v
ReplayChain.v
ReplayDemo.v
ReplayStage.v
ReplayStageProofs.v
ReplayStageDemo.v
