(* ===== verification/Prelude.v ===== *)
(** * A verification development of the morgan ledger

    morgan is a Rust ledger of the Solana family: validators vote on forks of
    banks, a bank runs transactions with native programs over accounts, and a
    hash chain orders what a leader records.  This library translates the
    parts of src/ that decide what the ledger contains into Rocq functions and
    proves what makes them correct.

    ** The program and the files

    Shared.  [Prelude]: machine integers with their wrap-around, results with
    panics, a state monad, list and sum lemmas.  [Interface]: accounts,
    instructions, errors and bincode as a class (interface/src/account.rs,
    account_utils.rs, instruction.rs, transaction.rs).  [Codec]: concrete
    codecs that satisfy the class, used to instantiate theorems.  [Float]:
    binary64.  [ShortVec]: the variable-length vectors of the wire
    (interface/src/short_vec.rs).

    Messages.  [Message]: compiling instructions to messages, signing and
    checking references (interface/src/message.rs, transaction.rs).
    [MessageProcessor]: dispatch to programs and the checks around every
    instruction (runtime/src/message_processor.rs, native_loader.rs); the
    programs are arbitrary functions there.

    Programs (controllers/*_api and runtime/src/system_instruction_processor.rs),
    each with its states, instruction builders and processor: [SystemProgram],
    [VoteState] (the vote tower), [Stake] (with the cache of runtime/src/stakes.rs),
    [Budget], [Token], [Exchange], [Storage], [Config].

    Bank (runtime/src).  [AccountsIndex], [AppendVec] and [AccountsDB] store
    accounts by fork; [Accounts] loads and locks them for transactions;
    [BlockhashQueue], [StatusCache] and [EpochSchedule] are the bank's clocks
    and caches; [Bank] composes them into the whole processing of a batch,
    ticks, freezing, child banks and squashing.  [Bank] is written against the
    interface [AccountStore]; [BankProofs] proves its theorems against the laws
    of that interface, and [BankStore] discharges the laws with [AccountsDB].

    Consensus and ledger (core/src).  [StakingUtils] (stakingUtils.rs),
    [ForkSelection] (forkSelection.rs, the lock tower), [BankForks]
    (treasuryForks.rs), [LeaderSchedule] (leaderArrange*.rs), [Entry]
    (waterClock.rs, entryInfo.rs, blobs of packet.rs), [Recorder]
    (waterClockRecorder.rs).  A bank is, for these files, the record of what
    the code reads of it.  [BlockStore] (blockBufferPool.rs and its meta.rs,
    blob headers of packet.rs, erasure sets of expunge.rs) keeps the blobs of
    the slots: inserting with chaining and recovery, reading, roots; its columns
    are maps.  [BlockStoreProofs] has the invariant of insertion,
    [BlockStoreChain] the forest of slots and the termination of its traversal,
    [BlockStoreReads] what is read back, [BlockStoreErasure] recovery and the
    generator of coding blobs.

    Replay (core/src/blockBufferPoolProcessor.rs).  [Replay] executes the
    entries of a slot on a bank, in groups that do not share accounts, and
    replays a whole ledger from the genesis block; it composes [Bank], [Entry],
    [BlockStore], [BankForks] and [LeaderSchedule].  [ReplayProofs] has the
    theorem on groups, [ReplayChain] those on the whole ledger, [ReplayDemo] a
    ledger with two forks to which they are applied.  [ReplayStage]
    (repeatStage.rs) is a turn of the loop of a validator over the same parts:
    new banks, replaying slots as they arrive, voting with the lock tower,
    moving the root in all components, leading; [ReplayStageProofs] and
    [ReplayStageDemo] have its theorems.

    Network (core/src, without its sockets).  [Gossip]: Bloom filters
    (runtime/src/bloom.rs), contact information, the values that nodes exchange
    and their table (connectionInfo.rs, propagationValue.rs,
    connectionInfoTable.rs), and the push and pull overlays (pushToGossip.rs,
    pullFromGossip.rs, gossip.rs); [GossipProofs] has its theorems.
    [DataPlane]: the layers through which blobs are retransmitted
    (clusterMessage.rs, retransmitStage.rs).  [Cluster]: the state of a node and
    the handlers of the messages it receives (clusterMessage.rs), with
    [ClusterProofs].  [Repair]: the search for missing blobs and the repairmen
    (fixMissingSpotService.rs, ClusterFixMessageListener.rs), with
    [RepairProofs].  A handler is a function from the state and the message to
    the new state and the replies; it calls [Gossip] for the table and
    [BlockStore] for the blobs.

    In every file the Modules with the names of the code hold the
    definitions, those named [.._proofs] the theorems, and those named [.._demo]
    concrete instances.

    ** What the theorems show

    Votes: the tower invariant, [process_vote] on every branch, instructions of
    the vote program, a vote account always fits its state.  Lock tower: a
    validator that respects its lockouts votes on one fork, and the check
    answers this on the forks of the bank; stakes seen by the fork choice and
    the supermajority root are the sums they should be.  Messages: compilation
    keeps the meaning; whatever the programs do, difs are conserved and foreign
    accounts protected.  Programs: conservation of difs and tokens, budget
    payments on every branch, storage rewards claimed once; and the flaws that
    the models show, as theorems.  Accounts: the index returns the latest
    visible write, the database with its files refines the index, files read
    back what was appended, storing ends exactly when accounts fit.  Bank: a
    batch conserves the difs and changes exactly the accounts it should, and a
    committed transaction is never processed again.  Time: epochs partition the
    slots, the blockhash window and the status cache are exact, the next leader
    slot is the least one.  Ledger: what the clock produces verifies and nothing
    else does, the recorder sends one verifiable stream, entries survive
    blobs and the block store.  Block store: insertion ends and leaves metadata
    that describes the blobs, missing blobs are found and recovered from their
    erasure set; a slot that is its own parent makes insertion panic.  Network:
    tables that saw the same values agree; only signed values enter a table; a
    pull brings what is newer and a prune is respected; a blob of the leader
    reaches every node; repairs ask for exactly what is missing, what is answered
    is always one of the missing blobs, and the repairmen of a slot cover it.
    Replay: groups of entries give what executing them one after the other
    gives; a ledger that is replayed is one verified proof of history per fork,
    with all the forks after the last root, and the replay ends.  Replay stage:
    all votes lie on one fork whatever the ledger and the other threads do, the
    bank that is voted for is the heaviest of exactly those that pass every
    filter, replaying in parts is replaying at once unless a part fails; and a
    block that fails in part is voted for all the same.

    ** Conventions, bounds and fuel

    A [u64] is a [Z] with [wrap64] written out where the code computes; keys and
    hashes are [Z] (their 32 bytes), signatures are byte lists.  A panic is the
    result [Panic].  Hash maps are [gmap]s; where the code depends on their
    order, the order is an argument.  Code outside src/ is a parameter: bincode
    ([Bincode] with [BincodeLaws]), SHA-256, Ed25519, the random generators,
    dynamic libraries, memory maps; its laws are named hypotheses, and every
    theorem that has them is applied at concrete instances.

    Loops that are not structural take fuel and return [None] without it.
    [AccountsDB.store] needs one round per file it opens; its theorem says when
    any fuel is enough.  [Entry]: [length + 2] rounds for the search and
    [length + 1] for the cutting, which is proved enough.  [LeaderSchedule]:
    one round per scheduled epoch and one more.  [Recorder]: two rounds.
    [BlockStore]: consecutive blobs need one round per stored blob and one more,
    which is the fuel the definitions use; the traversal of the children takes
    fuel, and for every ledger some fuel is proved enough.
    [ReplayStage]: fuel bounds the search for the next leader slot and the way
    to the old root.  [Replay]: two rounds for an entry; one per slot of the ledger for the whole,
    which is proved enough.  [ShortVec]: three bytes hold a [u16].  [DataPlane]: one round per node.
    [Cluster]: an orphan request makes one round per answer, twelve are enough.
    [Repair]: the search through a fork visits the tree below the root, for
    which some fuel is proved enough; the search through a range needs one round
    per slot with metadata and one per request.

    ** Not modelled

    A call is atomic: the groups of [Replay] execute their entries in an order
    that is an argument, one after the other.  Threads, locks between threads, sockets, files and metrics; the services of
    core/src that only move data between them (the transaction pipeline and
    RPC), command line programs, benchmarks and installers.  The BPF loader
    runs an external virtual machine.  Of the block store, opening
    and removing files and the key-value back ends.  The key-value store
    (kvstore/) contains code that could be modelled and is not translated yet. *)

From stdpp Require Export prelude gmap list strings.
From Stdlib Require Export ZArith Lia.

Open Scope Z_scope.

(** ** Machine integers

    A Rust [u64], [u32], [u8] or [usize] is a [Z]; the wrap-around of the
    release profile is written out. *)

Notation two64 := 18446744073709551616 (only parsing).
Notation two32 := 4294967296 (only parsing).
Notation two16 := 65536 (only parsing).
Notation two8 := 256 (only parsing).

Definition u64_max : Z := 18446744073709551615.
Definition u32_max : Z := 4294967295.
Definition u16_max : Z := 65535.

Definition is_u64 (z : Z) : Prop := 0 ≤ z < two64.
Definition is_u32 (z : Z) : Prop := 0 ≤ z < two32.
Definition is_u16 (z : Z) : Prop := 0 ≤ z < two16.
Definition is_u8 (z : Z) : Prop := 0 ≤ z < two8.

Global Instance is_u64_dec z : Decision (is_u64 z).
Proof. unfold is_u64. apply _. Defined.
Global Instance is_u32_dec z : Decision (is_u32 z).
Proof. unfold is_u32. apply _. Defined.
Global Instance is_u8_dec z : Decision (is_u8 z).
Proof. unfold is_u8. apply _. Defined.

Definition wrap64 (z : Z) : Z := z mod two64.
Definition u64_add (a b : Z) : Z := wrap64 (a + b).
Definition u64_sub (a b : Z) : Z := wrap64 (a - b).
Definition u64_mul (a b : Z) : Z := wrap64 (a * b).
Definition u64_saturating_sub (a b : Z) : Z := Z.max 0 (a - b).
Definition wrap8 (z : Z) : Z := z mod two8.
Definition u8_sub (a b : Z) : Z := wrap8 (a - b).

(** [iter().sum::<u64>()] of the release profile. *)
Fixpoint u64_sum (l : list Z) : Z :=
  match l with
  | [] => 0
  | x :: l' => u64_add x (u64_sum l')
  end.

(** The same sum in unbounded integers. *)
Fixpoint Zsum (l : list Z) : Z :=
  match l with
  | [] => 0
  | x :: l' => x + Zsum l'
  end.

(** ** Results

    [Ok] and [Err] are Rust's [Result]; [Panic] is an unwinding panic (a failed
    [assert!], [unwrap] or index). *)

Inductive res (E A : Type) : Type :=
| Ok (a : A)
| Err (e : E)
| Panic.
Global Arguments Ok {_ _} _.
Global Arguments Err {_ _} _.
Global Arguments Panic {_ _}.

Global Instance res_ret {E} : MRet (res E) := λ A a, Ok a.
Global Instance res_bind {E} : MBind (res E) := λ A B f m,
  match m with
  | Ok a => f a
  | Err e => Err e
  | Panic => Panic
  end.

Definition map_err {E F A} (f : E → F) (r : res E A) : res F A :=
  match r with
  | Ok a => Ok a
  | Err e => Err (f e)
  | Panic => Panic
  end.

Definition is_ok {E A} (r : res E A) : bool :=
  match r with Ok _ => true | _ => false end.
Definition is_err {E A} (r : res E A) : bool :=
  match r with Err _ => true | _ => false end.

(** [Option::unwrap] and [Result::ok]. *)
Definition unwrap {E A} (o : option A) : res E A :=
  match o with Some a => Ok a | None => Panic end.
Definition ok_or {E A} (o : option A) (e : E) : res E A :=
  match o with Some a => Ok a | None => Err e end.

(** Functions that take [&mut] state and may fail: the state is returned in
    every case, so what was written before an error stays written. *)
Definition M (S E A : Type) : Type := S → res E A * S.

Global Instance M_ret {S E} : MRet (M S E) := λ A a s, (Ok a, s).
Global Instance M_bind {S E} : MBind (M S E) := λ A B f m s,
  match m s with
  | (Ok a, s') => f a s'
  | (Err e, s') => (Err e, s')
  | (Panic, s') => (Panic, s')
  end.

Definition throw {S E A} (e : E) : M S E A := λ s, (Err e, s).
Definition panic {S E A} : M S E A := λ s, (Panic, s).
Definition getM {S E} : M S E S := λ s, (Ok s, s).
Definition putM {S E} (s : S) : M S E unit := λ _, (Ok tt, s).
Definition liftM {S E A} (r : res E A) : M S E A := λ s, (r, s).

Lemma bind_ok {S E A B} (m : M S E A) (f : A → M S E B) s b s' :
  (m ≫= f) s = (Ok b, s') → ∃ a s1, m s = (Ok a, s1) ∧ f a s1 = (Ok b, s').
Proof. unfold mbind, M_bind. destruct (m s) as [[a| |] s1]; [eauto|done..]. Qed.

Lemma bind_eval {S E A B} (m : M S E A) (k : A → M S E B) s a s1 :
  m s = (Ok a, s1) → (m ≫= k) s = k a s1.
Proof. unfold mbind, M_bind. by intros ->. Qed.

Lemma res_bind_ok {E A B} (m : res E A) (f : A → res E B) b :
  (m ≫= f) = Ok b → ∃ a, m = Ok a ∧ f a = Ok b.
Proof. unfold mbind, res_bind. destruct m; [eauto|done..]. Qed.

Lemma unwrap_ok {E A} (o : option A) (a : A) : unwrap (E:=E) o = Ok a → o = Some a.
Proof. destruct o; cbn; congruence. Qed.

(** ** Automation *)

Create HintDb morgan discriminated.

(** Case analysis on every [match] and [if] of the context and the goal. *)
Ltac destruct_matches :=
  repeat (case_match; simplify_eq/=; try done).

Ltac unfold_monad :=
  unfold mbind, mret, M_bind, M_ret, res_bind, res_ret, throw, panic, getM, putM, liftM in *.

(** Linear goals over wrapped arithmetic. *)
Ltac wrap_lia :=
  unfold u64_add, u64_sub, wrap64, is_u64 in *; Z.div_mod_to_equations; lia.

(** Wrapped arithmetic that stays in range is exact. *)
Lemma wrap64_small z : is_u64 z → wrap64 z = z.
Proof. unfold wrap64, is_u64. intros. by apply Z.mod_small. Qed.

Lemma wrap64_range z : is_u64 (wrap64 z).
Proof. unfold wrap64, is_u64. by apply Z.mod_pos_bound. Qed.

Lemma u64_add_exact a b : 0 ≤ a → 0 ≤ b → a + b < two64 → u64_add a b = a + b.
Proof. intros. apply wrap64_small. unfold is_u64. lia. Qed.

Lemma u64_sub_exact a b : b ≤ a → is_u64 a → 0 ≤ b → u64_sub a b = a - b.
Proof. intros. apply wrap64_small. unfold is_u64 in *. lia. Qed.

Lemma wrap64_idemp z : wrap64 (wrap64 z) = wrap64 z.
Proof. unfold wrap64. by rewrite Zmod_mod. Qed.

Lemma wrap64_add_l a b : wrap64 (wrap64 a + b) = wrap64 (a + b).
Proof. unfold wrap64. by rewrite Zplus_mod_idemp_l. Qed.

Lemma wrap64_add_r a b : wrap64 (a + wrap64 b) = wrap64 (a + b).
Proof. unfold wrap64. by rewrite Zplus_mod_idemp_r. Qed.

Lemma wrap64_eq a b : wrap64 a = wrap64 b ↔ ∃ q, a = b + q * two64.
Proof.
  unfold wrap64. split.
  - intros H. exists (a / two64 - b / two64).
    pose proof (Z.div_mod a two64 ltac:(lia)). pose proof (Z.div_mod b two64 ltac:(lia)). lia.
  - intros [q ->]. by rewrite Z.mod_add.
Qed.

Lemma u64_sum_wrap l : u64_sum l = wrap64 (Zsum l).
Proof.
  induction l as [|x l IH]; [done|]. simpl. unfold u64_add. by rewrite IH, wrap64_add_r.
Qed.

Lemma Zsum_app l k : Zsum (l ++ k) = Zsum l + Zsum k.
Proof. induction l; simpl in *; lia. Qed.

Lemma Zsum_perm l k : l ≡ₚ k → Zsum l = Zsum k.
Proof. induction 1; simpl in *; lia. Qed.

Lemma Zsum_nonneg l : Forall (λ z, 0 ≤ z) l → 0 ≤ Zsum l.
Proof. induction 1; simpl in *; lia. Qed.

#[export] Hint Resolve wrap64_range : morgan.
#[export] Hint Rewrite wrap64_idemp wrap64_add_l wrap64_add_r : morgan.

(** ** Lists *)

Lemma NoDup_fmap_filter {A B} (f : A → B) (P : A → Prop) `{∀ x, Decision (P x)} l :
  NoDup (f <$> l) → NoDup (f <$> filter P l).
Proof.
  intros Hl. eapply sublist_NoDup; [exact Hl|]. apply fmap_sublist, sublist_filter.
Qed.

Lemma Forall2_impl_elem {A B} (P Q : A → B → Prop) l k :
  Forall2 P l k → (∀ x y, x ∈ l → P x y → Q x y) → Forall2 Q l k.
Proof. induction 1; intros HPQ; constructor; set_solver. Qed.

Lemma mjoin_cons {A} (l : list A) ls : mjoin (l :: ls) = l ++ mjoin ls.
Proof. done. Qed.

Lemma NoDup_mjoin {A} (ls : list (list A)) :
  (∀ l, l ∈ ls → NoDup l) →
  (∀ i j li lj x, ls !! i = Some li → ls !! j = Some lj → x ∈ li → x ∈ lj → i = j) →
  NoDup (mjoin ls).
Proof.
  induction ls as [|l ls IH]; intros Hnd Hdisj; simpl; [constructor|]. apply NoDup_app. split_and!.
  - apply Hnd. set_solver.
  - intros x Hx (k & Hxk & Hk)%list_elem_of_join. apply list_elem_of_lookup in Hk as [j Hj].
    specialize (Hdisj 0%nat (S j) l k x eq_refl Hj Hx Hxk). done.
  - apply IH; [set_solver|]. intros i j li lj x Hi Hj Hxi Hxj.
    specialize (Hdisj (S i) (S j) li lj x Hi Hj Hxi Hxj). lia.
Qed.

(** The sum of a function that changes only on some of the elements. *)
Lemma Zsum_change {A} `{EqDecision A} (f g : A → Z) ks sub :
  NoDup ks → NoDup sub → sub ⊆ ks → (∀ k, k ∉ sub → g k = f k) →
  Zsum (g <$> ks) = Zsum (f <$> ks) + Zsum ((λ k, g k - f k) <$> sub).
Proof.
  intros Hks Hsub Hin Hout.
  assert (ks ≡ₚ sub ++ filter (.∉ sub) ks) as Hp.
  { apply NoDup_Permutation; [done| |].
    - apply NoDup_app. split_and!; [done| |by apply NoDup_filter].
      intros x Hx [? _]%list_elem_of_filter. done.
    - intros x. rewrite elem_of_app, list_elem_of_filter. split; [|set_solver].
      intros Hx. destruct (decide (x ∈ sub)); auto. }
  assert (∀ h : A → Z, Zsum (h <$> ks) = Zsum (h <$> sub) + Zsum (h <$> filter (.∉ sub) ks)) as Hsum.
  { intros h. rewrite (Zsum_perm _ (h <$> (sub ++ filter (.∉ sub) ks))) by (by apply fmap_Permutation).
    by rewrite fmap_app, Zsum_app. }
  rewrite !Hsum. assert (g <$> filter (.∉ sub) ks = f <$> filter (.∉ sub) ks) as ->.
  { apply list_fmap_ext. intros i x Hx. apply Hout.
    by apply list_elem_of_lookup_2, list_elem_of_filter in Hx as [? _]. }
  assert (∀ l, Zsum ((λ k, g k - f k) <$> l) = Zsum (g <$> l) - Zsum (f <$> l)) as ->; [|lia].
  intros l. induction l as [|x l IH]; [done|]. rewrite !fmap_cons. cbn [Zsum]. lia.
Qed.
