(* ===== verification/Interface.v ===== *)
(** * The on-chain data model (interface/src)

    Accounts, keys, instruction errors, the [State] trait over an account's
    data, instructions and their builders.  The bincode crate is not part of
    the repository: it enters as the classes [Bincode] and [BincodeLaws]. *)

From S2P Require Import Prelude.

(** ** Keys and hashes

    [Pubkey] and [Hash] are 32-byte arrays; they are represented by the 256-bit
    big-endian value of their bytes, which keeps their equality and order. *)

Notation Pubkey := Z (only parsing).
Notation Hash := Z (only parsing).
Notation Signature := (list Z) (only parsing).

Definition be_bytes (l : list Z) : Z := foldl (λ a b, a * 256 + b) 0 l.

Definition is_key (z : Z) : Prop := 0 ≤ z < 256 ^ 32.

Definition Pubkey_default : Pubkey := 0.
Definition Hash_default : Hash := 0.

Module system_program.
Definition id : Pubkey :=
  be_bytes [0; 0; 0; 0; 0; 0; 0; 0; 0; 0; 0; 0; 0; 0; 0; 0; 0; 0; 0; 0; 0; 0; 0; 0; 0; 0; 0; 0;
            0; 0; 0; 0].
Definition check_id (program_id : Pubkey) : bool := program_id =? id.
End system_program.
Global Arguments system_program.id : simpl never.

Module native_loader.
Definition id : Pubkey :=
  be_bytes [5; 135; 132; 191; 20; 139; 164; 40; 47; 176; 18; 87; 72; 136; 169; 241; 83; 160; 125;
            173; 247; 101; 192; 69; 92; 154; 151; 3; 128; 0; 0; 0].
Definition check_id (program_id : Pubkey) : bool := program_id =? id.
End native_loader.
Global Arguments native_loader.id : simpl never.

Module vote_program.
Definition id : Pubkey :=
  be_bytes [7; 97; 72; 29; 53; 116; 116; 187; 124; 77; 118; 36; 235; 211; 189; 179; 216; 53; 94;
            115; 209; 16; 67; 252; 13; 163; 83; 128; 0; 0; 0; 0].
Definition check_id (program_id : Pubkey) : bool := program_id =? id.
End vote_program.
Global Arguments vote_program.id : simpl never.

Module stake_program.
Definition id : Pubkey :=
  be_bytes [6; 161; 216; 23; 145; 55; 84; 42; 152; 52; 55; 189; 254; 42; 122; 178; 85; 127; 83;
            92; 138; 120; 114; 43; 104; 164; 157; 192; 0; 0; 0; 0].
Definition check_id (program_id : Pubkey) : bool := program_id =? id.
End stake_program.
Global Arguments stake_program.id : simpl never.

Module syscall.
Definition id : Pubkey :=
  be_bytes [6; 167; 211; 138; 69; 216; 137; 185; 198; 189; 33; 204; 111; 12; 217; 220; 229; 201;
            34; 52; 253; 202; 87; 144; 232; 16; 195; 192; 0; 0; 0; 0].
Definition check_id (i : Pubkey) : bool := i =? id.
End syscall.
Global Arguments syscall.id : simpl never.

(** ** Errors (instruction.rs, system_instruction.rs, transaction.rs) *)

Inductive InstructionError :=
| GenericError
| InvalidArgument
| InvalidInstructionData
| InvalidAccountData
| AccountDataTooSmall
| IncorrectProgramId
| MissingRequiredSignature
| AccountAlreadyInitialized
| UninitializedAccount
| UnbalancedInstruction
| ModifiedProgramId
| ExternalAccountDifSpend
| ExternalAccountDataModified
| DuplicateAccountIndex
| CustomError (code : Z).

Global Instance InstructionError_eq_dec : EqDecision InstructionError.
Proof. solve_decision. Defined.

Inductive SystemError :=
| AccountAlreadyInUse
| ResultWithNegativeDifs
| SourceNotSystemAccount
| ResultWithNegativeReputations.

(** [e as u32] *)
Definition SystemError_as_u32 (e : SystemError) : Z :=
  match e with
  | AccountAlreadyInUse => 0
  | ResultWithNegativeDifs => 1
  | SourceNotSystemAccount => 2
  | ResultWithNegativeReputations => 3
  end.

Definition new_result_with_negative_difs : InstructionError :=
  CustomError (SystemError_as_u32 ResultWithNegativeDifs).

Inductive TransactionError :=
| AccountInUse
| AccountLoadedTwice
| AccountNotFound
| ProgramAccountNotFound
| InsufficientFundsForFee
| InvalidAccountForFee
| DuplicateSignature
| BlockhashNotFound
| TxInstructionError (index : Z) (e : InstructionError)
| CallChainTooDeep
| MissingSignatureForFee
| InvalidAccountIndex.

Global Instance TransactionError_eq_dec : EqDecision TransactionError.
Proof. solve_decision. Defined.

(** ** Accounts (account.rs) *)

Record Account := mkAccount {
  difs : Z;
  reputations : Z;
  data : list Z;
  owner : Pubkey;
  executable : bool
}.

Global Instance Account_eq_dec : EqDecision Account.
Proof. solve_decision. Defined.

Definition Account_default : Account := mkAccount 0 0 [] Pubkey_default false.

Definition Account_new (difs reputations : Z) (space : Z) (owner : Pubkey) : Account :=
  mkAccount difs reputations (replicate (Z.to_nat space) 0) owner false.

Definition with_difs (v : Z) (a : Account) : Account :=
  mkAccount v a.(reputations) a.(data) a.(owner) a.(executable).
Definition with_reputations (v : Z) (a : Account) : Account :=
  mkAccount a.(difs) v a.(data) a.(owner) a.(executable).
Definition with_data (v : list Z) (a : Account) : Account :=
  mkAccount a.(difs) a.(reputations) v a.(owner) a.(executable).
Definition with_owner (v : Pubkey) (a : Account) : Account :=
  mkAccount a.(difs) a.(reputations) a.(data) v a.(executable).
Definition with_executable (v : bool) (a : Account) : Account :=
  mkAccount a.(difs) a.(reputations) a.(data) a.(owner) v.

Record KeyedAccount := mkKeyedAccount {
  is_signer : bool;
  key : Pubkey;
  account : Account
}.

Definition signer_key (k : KeyedAccount) : option Pubkey :=
  if k.(is_signer) then Some k.(key) else None.

Definition unsigned_key (k : KeyedAccount) : Pubkey := k.(key).

Definition KeyedAccount_new (key : Pubkey) (is_signer : bool) (account : Account) : KeyedAccount :=
  mkKeyedAccount is_signer key account.

Definition with_account (a : Account) (k : KeyedAccount) : KeyedAccount :=
  mkKeyedAccount k.(is_signer) k.(key) a.

Definition create_keyed_accounts (accounts : list (Pubkey * Account)) : list KeyedAccount :=
  (λ '(k, a), mkKeyedAccount false k a) <$> accounts.

(** ** The bincode crate

    [bincode::serialize], [bincode::deserialize] and [bincode::serialize_into]
    on a byte slice.  [in_range] says which values of the model are values of
    the Rust type (every integer within its width). *)

Inductive BincodeError := SizeLimit | OtherBincodeError.

Class Ranged (A : Type) := in_range : A → Prop.

Class Bincode (A : Type) := {
  serialize : A → list Z;
  deserialize : list Z → option A;
  serialize_into : A → list Z → option BincodeError * list Z
}.

(** What the code relies on: decoding the encoding of a value gives the value
    back and ignores trailing bytes; what is decoded is a value of the Rust
    type; writing into a slice that is long enough
    replaces its first bytes; writing into a shorter slice fails. *)
Class BincodeLaws (A : Type) `{Ranged A, Bincode A} := {
  deserialize_serialize : ∀ (a : A) rest,
    in_range a → deserialize (serialize a ++ rest) = Some a;
  deserialize_in_range : ∀ l (a : A), deserialize l = Some a → in_range a;
  serialize_into_fits : ∀ (a : A) buf,
    (length (serialize a) ≤ length buf)%nat →
    serialize_into a buf = (None, serialize a ++ drop (length (serialize a)) buf);
  serialize_into_short : ∀ (a : A) buf,
    (length buf < length (serialize a))%nat →
    ∃ e buf', serialize_into a buf = (Some e, buf') ∧ length buf' = length buf
}.

(** [bincode::serialized_size(&x).unwrap() as usize] *)
Definition serialized_size {A} `{Bincode A} (a : A) : Z := Z.of_nat (length (serialize a)).

(** [bincode::serialize_into(BufWriter::new(out), ..)]: an encoding that fits
    the 8 KiB buffer is only written to [out] when the writer is dropped, and a
    drop ignores that [out] was too short.  What happens to a longer encoding
    depends on the pieces in which bincode writes it: it is a parameter. *)
Definition buffered_write {E} (long_write : list Z → list Z → res E unit * list Z)
    (bytes out : list Z) : res E unit * list Z :=
  if Z.of_nat (length bytes) <=? 8192
  then (Ok tt, take (length out) bytes ++ drop (length bytes) out)
  else long_write bytes out.

(** ** The [State] trait (account_utils.rs) *)

Section State.
Context {T : Type} `{Bincode T}.

Definition state (a : Account) : res InstructionError T :=
  match deserialize a.(data) with
  | Some t => Ok t
  | None => Err InvalidAccountData
  end.

Definition set_state (t : T) (a : Account) : res InstructionError unit * Account :=
  match serialize_into t a.(data) with
  | (None, buf) => (Ok tt, with_data buf a)
  | (Some SizeLimit, buf) => (Err AccountDataTooSmall, with_data buf a)
  | (Some OtherBincodeError, buf) => (Err GenericError, with_data buf a)
  end.

Definition keyed_state (k : KeyedAccount) : res InstructionError T := state k.(account).

Definition keyed_set_state (t : T) (k : KeyedAccount) : res InstructionError unit * KeyedAccount :=
  let '(r, a) := set_state t k.(account) in (r, with_account a k).
End State.

(** ** Instructions (instruction.rs) *)

Record AccountMeta := mkAccountMeta {
  am_pubkey : Pubkey;
  am_is_signer : bool;
  am_is_debitable : bool
}.

Definition AccountMeta_new (pubkey : Pubkey) (is_signer : bool) : AccountMeta :=
  mkAccountMeta pubkey is_signer true.
Definition AccountMeta_new_credit_only (pubkey : Pubkey) (is_signer : bool) : AccountMeta :=
  mkAccountMeta pubkey is_signer false.

Record Instruction := mkInstruction {
  ix_program_id : Pubkey;
  ix_accounts : list AccountMeta;
  ix_data : list Z
}.

Definition Instruction_new {T} `{Bincode T} (program_id : Pubkey) (data : T)
    (accounts : list AccountMeta) : Instruction :=
  mkInstruction program_id accounts (serialize data).

Record CompiledInstruction := mkCompiledInstruction {
  program_ids_index : Z;
  ci_accounts : list Z;
  ci_data : list Z
}.

Global Instance CompiledInstruction_eq_dec : EqDecision CompiledInstruction.
Proof. solve_decision. Defined.

(** [&program_ids[self.program_ids_index as usize]] *)
Definition program_id {E} (ci : CompiledInstruction) (program_ids : list Pubkey) : res E Pubkey :=
  unwrap (program_ids !! Z.to_nat ci.(program_ids_index)).

(** ** Lemmas on account state *)

Section StateLemmas.
Context {T : Type} `{BincodeLaws T}.

Lemma set_state_ok t a :
  (length (serialize t) ≤ length a.(data))%nat →
  set_state t a =
    (Ok tt, with_data (serialize t ++ drop (length (serialize t)) a.(data)) a).
Proof. intros Hl. unfold set_state. by rewrite serialize_into_fits. Qed.

Lemma set_state_short t a :
  (length a.(data) < length (serialize t))%nat →
  ∃ e a', set_state t a = (Err e, a') ∧ length a'.(data) = length a.(data).
Proof.
  intros Hl. destruct (serialize_into_short t (data a) Hl) as (e & buf & He & Hb).
  unfold set_state. rewrite He. destruct e; eauto.
Qed.

(** A state that was written is the state that is read back. *)
Lemma state_set_state t a a' :
  in_range t → set_state t a = (Ok tt, a') → state a' = Ok t.
Proof.
  intros Hr Hs. destruct (decide (length (serialize t) ≤ length a.(data))%nat) as [Hl|Hl].
  - rewrite set_state_ok in Hs by done. injection Hs as <-.
    unfold state. cbn. by rewrite deserialize_serialize.
  - destruct (set_state_short t a) as (e & a'' & He & _); [lia|]. congruence.
Qed.

Lemma state_in_range a t : state a = Ok t → in_range t.
Proof.
  unfold state. destruct (deserialize (data a)) eqn:Hd; [|done]. intros [= <-].
  by eapply deserialize_in_range.
Qed.

(** Writing the state touches the data only, and keeps its length. *)
Lemma set_state_frame t a r a' :
  set_state t a = (r, a') →
  difs a' = difs a ∧ reputations a' = reputations a ∧ owner a' = owner a ∧
  executable a' = executable a ∧ length (data a') = length (data a).
Proof.
  intros Hs. destruct (decide (length (serialize t) ≤ length a.(data))%nat) as [Hl|Hl].
  - rewrite set_state_ok in Hs by done. injection Hs as <- <-. cbn.
    rewrite length_app, length_drop. repeat split; lia.
  - destruct (set_state_short t a) as (e & a'' & He & Hlen); [lia|].
    rewrite Hs in He. injection He as -> ->.
    unfold set_state in Hs. destruct (serialize_into t (data a)) as [[[]|] buf];
      simplify_eq/=; done.
Qed.
End StateLemmas.

Lemma keyed_set_state_signer {T} `{Bincode T} (t : T) k r k' :
  keyed_set_state t k = (r, k') →
  is_signer k' = is_signer k ∧ key k' = key k ∧ set_state t (account k) = (r, account k').
Proof.
  unfold keyed_set_state. destruct (set_state t (account k)) as [r0 a0].
  intros [= <- <-]. done.
Qed.

Section KeyedStateLemmas.
Context {T : Type} `{!Ranged T, !Bincode T, !BincodeLaws T}.

(** Writing a state into an account that has room for it. *)
Lemma keyed_set_state_fits (st : T) k :
  in_range st → (length (serialize st) ≤ length k.(account).(data))%nat →
  ∃ k', keyed_set_state st k = (Ok tt, k') ∧ keyed_state k' = Ok st ∧
    is_signer k' = is_signer k ∧ key k' = key k ∧
    difs (account k') = difs (account k) ∧ owner (account k') = owner (account k) ∧
    length (data (account k')) = length (data (account k)).
Proof.
  intros Hr Hl. destruct (keyed_set_state st k) as [r k'] eqn:Hs.
  apply keyed_set_state_signer in Hs as Hs'. destruct Hs' as (Hsig & Hkey & Hset).
  pose proof Hset as Hset'. rewrite set_state_ok in Hset by done. simplify_eq.
  apply set_state_frame in Hset' as Hf. apply state_set_state in Hset'; [|done].
  exists k'. naive_solver.
Qed.
End KeyedStateLemmas.
