(* ===== verification/Codec.v ===== *)
(** * A concrete inhabitant of the [Bincode] interface

    Prefix codecs in the fixed-width little-endian style that bincode's
    documentation describes.  The models do not depend on this file: it only
    shows that the hypotheses of [BincodeLaws] can hold, and the witnesses
    evaluate with it. *)

From S2P Require Import Prelude Interface.

Record codec (A : Type) := mkCodec {
  valid : A → Prop;
  enc : A → list Z;
  dec : list Z → option (A * list Z);
  dec_enc : ∀ a rest, valid a → dec (enc a ++ rest) = Some (a, rest);
  dec_valid : ∀ l a rest, dec l = Some (a, rest) → valid a
}.
Arguments mkCodec {_} _ _ _ _ _.
Arguments valid {_} _ _.
Arguments enc {_} _ _.
Arguments dec {_} _ _.
Arguments dec_enc {_} _ _ _ _.
Arguments dec_valid {_} _ _ _ _ _.

(** ** Little-endian integers *)

Fixpoint le_enc (n : nat) (z : Z) : list Z :=
  match n with
  | O => []
  | S n' => z mod 256 :: le_enc n' (z / 256)
  end.

(** The bytes of a key or a hash, which is their big-endian value *)
Definition be_enc (n : nat) (z : Z) : list Z := rev (le_enc n z).

Lemma length_le_enc n : ∀ z, length (le_enc n z) = n.
Proof. induction n as [|n IH]; intros z; cbn; [done|]. by rewrite IH. Qed.

Fixpoint le_dec (n : nat) (l : list Z) : option (Z * list Z) :=
  match n, l with
  | O, _ => Some (0, l)
  | S _, [] => None
  | S n', b :: l' =>
      if (0 <=? b) && (b <? 256) then
        '(hi, r) ← le_dec n' l';
        Some (b + 256 * hi, r)
      else None
  end.

Lemma le_dec_enc n : ∀ z rest, 0 ≤ z < 256 ^ Z.of_nat n →
  le_dec n (le_enc n z ++ rest) = Some (z, rest).
Proof.
  induction n as [|n IH]; intros z rest Hz; cbn [le_enc le_dec app].
  - cbn in Hz. repeat f_equal. lia.
  - rewrite Nat2Z.inj_succ, Z.pow_succ_r in Hz by lia.
    pose proof (Z.mod_pos_bound z 256).
    replace ((0 <=? z mod 256) && (z mod 256 <? 256)) with true by lia.
    rewrite IH; cbn.
    + repeat f_equal. pose proof (Z.div_mod z 256). lia.
    + split; [apply Z.div_pos; lia|]. apply Z.div_lt_upper_bound; lia.
Qed.

Lemma le_dec_valid n : ∀ l z rest, le_dec n l = Some (z, rest) → 0 ≤ z < 256 ^ Z.of_nat n.
Proof.
  induction n as [|n IH]; intros [|b l] z rest; cbn [le_dec]; try done.
  - intros [= <- <-]. cbn. lia.
  - intros [= <- <-]. cbn. lia.
  - destruct ((0 <=? b) && (b <? 256)) eqn:Hb; [|done].
    destruct (le_dec n l) as [[hi r]|] eqn:Hd; [|done]. cbn. intros [= <- <-].
    apply IH in Hd. rewrite Nat2Z.inj_succ, Z.pow_succ_r by lia. lia.
Qed.

Definition int_codec (n : nat) : codec Z :=
  mkCodec _ (le_enc n) (le_dec n) (le_dec_enc n) (le_dec_valid n).

Definition u8_codec := int_codec 1.
Definition u32_codec := int_codec 4.
Definition u64_codec := int_codec 8.
Definition key_codec := int_codec 32.

(** ** Combinators *)

Program Definition pair_codec {A B} (ca : codec A) (cb : codec B) : codec (A * B) :=
  mkCodec (λ p, ca.(valid) p.1 ∧ cb.(valid) p.2)
    (λ p, ca.(enc) p.1 ++ cb.(enc) p.2)
    (λ l, '(a, r) ← ca.(dec) l; '(b, r') ← cb.(dec) r; Some ((a, b), r')) _ _.
Next Obligation.
  intros A B ca cb [a b] rest [Ha Hb]. cbn in *.
  rewrite <- app_assoc, dec_enc by done. cbn. by rewrite dec_enc.
Qed.
Next Obligation.
  intros A B ca cb l [a b] rest. cbn.
  destruct (dec ca l) as [[a' r]|] eqn:Ha; [|done]. cbn.
  destruct (dec cb r) as [[b' r']|] eqn:Hb; [|done]. cbn. intros [= <- <- <-].
  eauto using dec_valid.
Qed.

(** A type that embeds in another one. *)
Program Definition map_codec {A B} (c : codec B) (f : A → B) (g : B → option A)
    (Hgf : ∀ a, g (f a) = Some a) (Hfg : ∀ b a, g b = Some a → f a = b) : codec A :=
  mkCodec (λ a, c.(valid) (f a)) (λ a, c.(enc) (f a))
    (λ l, '(b, r) ← c.(dec) l; a ← g b; Some (a, r)) _ _.
Next Obligation.
  intros A B c f g Hgf Hfg a rest Ha. cbn beta in *. rewrite dec_enc by done. cbn.
  by rewrite Hgf.
Qed.
Next Obligation.
  intros A B c f g Hgf Hfg l a rest. cbn.
  destruct (dec c l) as [[b r]|] eqn:Hb; [|done]. cbn.
  destruct (g b) as [a'|] eqn:Hg; [|done]. cbn. intros [= <- <-].
  rewrite (Hfg b a') by done. eauto using dec_valid.
Qed.

Fixpoint list_dec {A} (c : codec A) (n : nat) (l : list Z) : option (list A * list Z) :=
  match n with
  | O => Some ([], l)
  | S n' =>
      '(a, r) ← c.(dec) l;
      '(xs, r') ← list_dec c n' r;
      Some (a :: xs, r')
  end.

Lemma list_dec_enc {A} (c : codec A) xs : ∀ rest, Forall c.(valid) xs →
  list_dec c (length xs) (mjoin (c.(enc) <$> xs) ++ rest) = Some (xs, rest).
Proof.
  induction xs as [|x xs IH]; intros rest Hv; [done|].
  apply Forall_cons in Hv as [Hx Hv]. cbn.
  rewrite <- app_assoc, dec_enc by done. cbn. by rewrite IH.
Qed.

Lemma list_dec_valid {A} (c : codec A) n : ∀ l xs rest,
  list_dec c n l = Some (xs, rest) → Forall c.(valid) xs ∧ length xs = n.
Proof.
  induction n as [|n IH]; intros l xs rest; cbn.
  - intros [= <- <-]. auto.
  - destruct (dec c l) as [[a r]|] eqn:Ha; [|done]. cbn.
    destruct (list_dec c n r) as [[ys r']|] eqn:Hy; [|done]. cbn. intros [= <- <-].
    apply IH in Hy as [? ?]. split; [|cbn; lia].
    constructor; eauto using dec_valid.
Qed.

Program Definition list_codec {A} (c : codec A) : codec (list A) :=
  mkCodec (λ xs, Forall c.(valid) xs ∧ is_u64 (Z.of_nat (length xs)))
    (λ xs, u64_codec.(enc) (Z.of_nat (length xs)) ++ mjoin (c.(enc) <$> xs))
    (λ l, '(n, r) ← u64_codec.(dec) l; list_dec c (Z.to_nat n) r) _ _.
Next Obligation.
  intros A c xs rest [Hv Hn]. cbn beta. rewrite <- app_assoc, dec_enc by done. cbn.
  rewrite Nat2Z.id. by apply list_dec_enc.
Qed.
Next Obligation.
  intros A c l xs rest. cbn beta.
  destruct (dec u64_codec l) as [[n r]|] eqn:Hn; [|done]. cbn.
  intros [Hv Hl]%list_dec_valid. apply dec_valid in Hn. cbn in Hn.
  split; [done|]. unfold is_u64. lia.
Qed.

Definition option_enc {A} (c : codec A) (o : option A) : list Z :=
  match o with Some a => 1 :: c.(enc) a | None => [0] end.
Definition option_dec {A} (c : codec A) (l : list Z) : option (option A * list Z) :=
  match l with
  | 0 :: r => Some (None, r)
  | 1 :: r => '(a, r') ← c.(dec) r; Some (Some a, r')
  | _ => None
  end.
Lemma option_dec_enc {A} (c : codec A) o rest :
  from_option c.(valid) True o → option_dec c (option_enc c o ++ rest) = Some (o, rest).
Proof. destruct o as [a|]; intros Hv; [|done]. cbn. by rewrite dec_enc. Qed.
Lemma option_dec_valid {A} (c : codec A) l o rest :
  option_dec c l = Some (o, rest) → from_option c.(valid) True o.
Proof.
  unfold option_dec. intros Hd. repeat (case_match; try done); simplify_eq; try done.
  destruct (dec c _) as [[a r]|] eqn:Ha; [|done]. cbn in *. simplify_eq.
  cbn. eauto using dec_valid.
Qed.
Definition option_codec {A} (c : codec A) : codec (option A) :=
  mkCodec _ (option_enc c) (option_dec c) (option_dec_enc c) (option_dec_valid c).

Definition sum_enc {A B} (ca : codec A) (cb : codec B) (s : A + B) : list Z :=
  match s with inl a => 0 :: ca.(enc) a | inr b => 1 :: cb.(enc) b end.
Definition sum_dec {A B} (ca : codec A) (cb : codec B) (l : list Z) : option ((A + B) * list Z) :=
  match l with
  | 0 :: r => '(a, r') ← ca.(dec) r; Some (inl a, r')
  | 1 :: r => '(b, r') ← cb.(dec) r; Some (inr b, r')
  | _ => None
  end.
Definition sum_valid {A B} (ca : codec A) (cb : codec B) (s : A + B) : Prop :=
  match s with inl a => ca.(valid) a | inr b => cb.(valid) b end.
Lemma sum_dec_enc {A B} (ca : codec A) (cb : codec B) s rest :
  sum_valid ca cb s → sum_dec ca cb (sum_enc ca cb s ++ rest) = Some (s, rest).
Proof. destruct s as [a|b]; intros Hv; cbn in *; by rewrite dec_enc. Qed.
Lemma sum_dec_valid {A B} (ca : codec A) (cb : codec B) l s rest :
  sum_dec ca cb l = Some (s, rest) → sum_valid ca cb s.
Proof.
  unfold sum_dec. intros Hd. repeat (case_match; try done); simplify_eq.
  - destruct (dec ca _) as [[a r]|] eqn:Ha; [|done]. cbn in *. simplify_eq.
    cbn. eauto using dec_valid.
  - destruct (dec cb _) as [[a r]|] eqn:Ha; [|done]. cbn in *. simplify_eq.
    cbn. eauto using dec_valid.
Qed.
Definition sum_codec {A B} (ca : codec A) (cb : codec B) : codec (A + B) :=
  mkCodec (sum_valid ca cb) (sum_enc ca cb) (sum_dec ca cb) (sum_dec_enc ca cb)
    (sum_dec_valid ca cb).

(** The values of a type that pass a test. *)
Program Definition filter_codec {A} (c : codec A) (P : A → bool) : codec A :=
  mkCodec (λ a, c.(valid) a ∧ P a = true) c.(enc)
    (λ l, '(a, r) ← c.(dec) l; if P a then Some (a, r) else None) _ _.
Next Obligation.
  intros A c P a rest [Hv HP]. cbn beta. rewrite dec_enc by done. cbn. by rewrite HP.
Qed.
Next Obligation.
  intros A c P l a rest. cbn beta. destruct (dec c l) as [[a' r]|] eqn:Hd; [|done]. cbn.
  destruct (P a') eqn:HP; [|done]. intros [= <- <-]. eauto using dec_valid.
Qed.

(** ** The instances *)

Section instances.
Context {A : Type} (c : codec A).

Definition codec_bincode : Bincode A := {|
  serialize := c.(enc);
  deserialize l := fst <$> c.(dec) l;
  serialize_into a buf :=
    if decide (length (c.(enc) a) ≤ length buf)%nat
    then (None, c.(enc) a ++ drop (length (c.(enc) a)) buf)
    else (Some OtherBincodeError, take (length buf) (c.(enc) a))
|}.

Lemma codec_laws `{R : Ranged A} :
  (∀ a, in_range a ↔ c.(valid) a) → @BincodeLaws A R codec_bincode.
Proof.
  intros Hv. split; cbn.
  - intros a rest Ha. rewrite dec_enc by (by apply Hv). done.
  - intros l a. destruct (dec c l) as [[a' r]|] eqn:Ha; [|done]. intros [= <-].
    apply Hv. eauto using dec_valid.
  - intros a buf Hl. by rewrite decide_True.
  - intros a buf Hl. rewrite decide_False by lia. eexists _, _. split; [done|].
    rewrite length_take. lia.
Qed.
End instances.
