(* ===== verification/Float.v ===== *)
(** The [f64] arithmetic that the reward computations use: IEEE 754
    binary64 with rounding to nearest even, as the Standard Library's
    executable specification [SpecFloat] defines it. *)
From Stdlib Require Import Floats.SpecFloat.
From S2P Require Import Prelude.

Notation f64 := spec_float.

Definition f64_prec : Z := 53.
Definition f64_emax : Z := 1024.

(** The cast of an unsigned integer, [as f64] or [f64::from]. *)
Definition f64_of_Z (z : Z) : f64 := binary_normalize f64_prec f64_emax z 0 false.

Definition f64_mul : f64 → f64 → f64 := SFmul f64_prec f64_emax.
Definition f64_div : f64 → f64 → f64 := SFdiv f64_prec f64_emax.
Definition f64_sub : f64 → f64 → f64 := SFsub f64_prec f64_emax.
Definition f64_ltb : f64 → f64 → bool := SFltb.
Definition f64_zero : f64 := S754_zero false.

(** The cast [as u64]: truncation, saturating at the ends of the range, and
    0 for a NaN. *)
Definition f64_as_u64 (x : f64) : Z :=
  match x with
  | S754_finite false m e => Z.min u64_max (Z.shiftl (Zpos m) e)
  | S754_infinity false => u64_max
  | _ => 0
  end.

Lemma f64_as_u64_range x : is_u64 (f64_as_u64 x).
Proof.
  unfold is_u64, f64_as_u64, u64_max. destruct x as [| [] | |[] m e]; try lia.
  pose proof (proj2 (Z.shiftl_nonneg (Zpos m) e)). lia.
Qed.
