(* ===== verification/SystemProgram.v ===== *)
(** * The system program

    interface/src/system_instruction.rs (the instructions and their builders)
    and runtime/src/system_instruction_processor.rs (the native processor):
    account creation, assignment and the transfer of difs and reputations. *)

From S2P Require Import Prelude Interface Codec.

Module system_instruction.

Inductive SystemInstruction :=
| CreateAccount (difs reputations space : Z) (program_id : Pubkey)
| Assign (program_id : Pubkey)
| Transfer (difs : Z)
| CreateAccountWithReputation (reputations space : Z) (program_id : Pubkey)
| TransferReputations (reputations : Z).

Section Builders.
Context `{Bincode SystemInstruction}.

Definition create_account (from_pubkey to_pubkey : Pubkey) (difs space : Z) (program_id : Pubkey)
    : Instruction :=
  let account_metas := [AccountMeta_new from_pubkey true; AccountMeta_new to_pubkey false] in
  let reputations := 0 in
  Instruction_new system_program.id (CreateAccount difs reputations space program_id)
    account_metas.

Definition create_account_with_reputation (from_pubkey to_pubkey : Pubkey)
    (reputations space : Z) (program_id : Pubkey) : Instruction :=
  let account_metas := [AccountMeta_new from_pubkey true; AccountMeta_new to_pubkey false] in
  Instruction_new system_program.id (CreateAccountWithReputation reputations space program_id)
    account_metas.

Definition create_user_account (from_pubkey to_pubkey : Pubkey) (difs : Z) : Instruction :=
  create_account from_pubkey to_pubkey difs 0 system_program.id.

Definition create_user_account_with_reputation (from_pubkey to_pubkey : Pubkey)
    (reputations : Z) : Instruction :=
  create_account_with_reputation from_pubkey to_pubkey reputations 0 system_program.id.

Definition assign (from_pubkey program_id : Pubkey) : Instruction :=
  Instruction_new system_program.id (Assign program_id) [AccountMeta_new from_pubkey true].

Definition transfer (from_pubkey to_pubkey : Pubkey) (difs : Z) : Instruction :=
  Instruction_new system_program.id (Transfer difs)
    [AccountMeta_new from_pubkey true; AccountMeta_new to_pubkey false].

Definition transfer_reputations (from_pubkey to_pubkey : Pubkey) (reputations : Z) : Instruction :=
  Instruction_new system_program.id (TransferReputations reputations)
    [AccountMeta_new from_pubkey true; AccountMeta_new to_pubkey false].

Definition transfer_many (from_pubkey : Pubkey) (to_difs : list (Pubkey * Z)) : list Instruction :=
  (λ '(to_pubkey, difs), transfer from_pubkey to_pubkey difs) <$> to_difs.
End Builders.

(** A codec for the witnesses. *)
Definition SystemInstruction_codec : codec SystemInstruction.
Proof.
  refine (map_codec
    (sum_codec (pair_codec u64_codec (pair_codec u64_codec (pair_codec u64_codec key_codec)))
      (sum_codec key_codec (sum_codec u64_codec
        (sum_codec (pair_codec u64_codec (pair_codec u64_codec key_codec)) u64_codec))))
    (λ ix, match ix with
           | CreateAccount d r s p => inl (d, (r, (s, p)))
           | Assign p => inr (inl p)
           | Transfer d => inr (inr (inl d))
           | CreateAccountWithReputation r s p => inr (inr (inr (inl (r, (s, p)))))
           | TransferReputations r => inr (inr (inr (inr r)))
           end)
    (λ b, match b with
          | inl (d, (r, (s, p))) => Some (CreateAccount d r s p)
          | inr (inl p) => Some (Assign p)
          | inr (inr (inl d)) => Some (Transfer d)
          | inr (inr (inr (inl (r, (s, p))))) => Some (CreateAccountWithReputation r s p)
          | inr (inr (inr (inr r))) => Some (TransferReputations r)
          end) _ _).
  - by intros [].
  - by intros [(?&?&?&?)|[?|[?|[(?&?&?)|?]]]] ? [= <-].
Defined.
End system_instruction.

Module system_instruction_processor.
Import system_instruction.

Definition FROM_ACCOUNT_INDEX : nat := 0.
Definition TO_ACCOUNT_INDEX : nat := 1.

(** [keyed_accounts[i]] *)
Definition account_at {E} (i : nat) : M (list KeyedAccount) E KeyedAccount :=
  λ ks, (unwrap (ks !! i), ks).

(** Assignment to the fields of [keyed_accounts[i].account]. *)
Definition modify_account {E} (i : nat) (f : Account → Account) : M (list KeyedAccount) E unit :=
  λ ks, match ks !! i with
        | Some k => (Ok tt, <[i := with_account (f k.(account)) k]> ks)
        | None => (Panic, ks)
        end.

(** [vec![0; space as usize]] panics above [isize::MAX] bytes. *)
Definition set_zero_data {E} (i : nat) (space : Z) : M (list KeyedAccount) E unit :=
  if space <=? 9223372036854775807
  then modify_account i (with_data (replicate (Z.to_nat space) 0))
  else panic.

Definition add_difs (d : Z) (a : Account) : Account := with_difs (u64_add a.(difs) d) a.
Definition sub_difs (d : Z) (a : Account) : Account := with_difs (u64_sub a.(difs) d) a.
Definition add_reputations (d : Z) (a : Account) : Account :=
  with_reputations (u64_add a.(reputations) d) a.
Definition sub_reputations (d : Z) (a : Account) : Account :=
  with_reputations (u64_sub a.(reputations) d) a.

Definition create_system_account (difs' reputations' space : Z) (program_id : Pubkey)
    : M (list KeyedAccount) SystemError unit :=
  from ← account_at FROM_ACCOUNT_INDEX;
  if negb (system_program.check_id from.(account).(owner))
  then throw SourceNotSystemAccount
  else
  to ← account_at TO_ACCOUNT_INDEX;
  if negb (bool_decide (to.(account).(data) = []))
     || negb (system_program.check_id to.(account).(owner))
  then throw AccountAlreadyInUse
  else if from.(account).(difs) <? difs'
  then throw ResultWithNegativeDifs
  else
  modify_account FROM_ACCOUNT_INDEX (sub_difs difs');;
  modify_account TO_ACCOUNT_INDEX (add_difs difs');;
  modify_account TO_ACCOUNT_INDEX (add_reputations reputations');;
  modify_account TO_ACCOUNT_INDEX (with_owner program_id);;
  set_zero_data TO_ACCOUNT_INDEX space;;
  modify_account TO_ACCOUNT_INDEX (with_executable false).

Definition create_system_account_with_reputation (reputations' space : Z) (program_id : Pubkey)
    : M (list KeyedAccount) SystemError unit :=
  from ← account_at FROM_ACCOUNT_INDEX;
  if negb (system_program.check_id from.(account).(owner))
  then throw SourceNotSystemAccount
  else
  to ← account_at TO_ACCOUNT_INDEX;
  if negb (bool_decide (to.(account).(data) = []))
     || negb (system_program.check_id to.(account).(owner))
  then throw AccountAlreadyInUse
  else if from.(account).(difs) <? 1
  then throw ResultWithNegativeDifs
  else
  modify_account FROM_ACCOUNT_INDEX (sub_difs 1);;
  modify_account TO_ACCOUNT_INDEX (add_difs 1);;
  modify_account TO_ACCOUNT_INDEX (add_reputations reputations');;
  modify_account TO_ACCOUNT_INDEX (with_owner program_id);;
  set_zero_data TO_ACCOUNT_INDEX space;;
  modify_account TO_ACCOUNT_INDEX (with_executable false).

Definition assign_account_to_program (program_id : Pubkey)
    : M (list KeyedAccount) SystemError unit :=
  modify_account FROM_ACCOUNT_INDEX (with_owner program_id).

Definition transfer_difs (difs' : Z) : M (list KeyedAccount) SystemError unit :=
  from ← account_at FROM_ACCOUNT_INDEX;
  if from.(account).(difs) <? difs'
  then throw ResultWithNegativeDifs
  else
  modify_account FROM_ACCOUNT_INDEX (sub_difs difs');;
  modify_account TO_ACCOUNT_INDEX (add_difs difs').

Definition transfer_reputations (reputations' : Z) : M (list KeyedAccount) SystemError unit :=
  from ← account_at FROM_ACCOUNT_INDEX;
  if from.(account).(reputations) <? reputations'
  then throw ResultWithNegativeReputations
  else
  modify_account FROM_ACCOUNT_INDEX (sub_reputations reputations');;
  modify_account TO_ACCOUNT_INDEX (add_reputations reputations').

(** [.map_err(|e| InstructionError::CustomError(e as u32))] *)
Definition custom_err {A} (m : M (list KeyedAccount) SystemError A)
    : M (list KeyedAccount) InstructionError A :=
  λ ks, let '(r, ks') := m ks in (map_err (λ e, CustomError (SystemError_as_u32 e)) r, ks').

Section Processor.
Context `{Bincode SystemInstruction}.

(** The dispatch on a decoded instruction. *)
Definition process_system_instruction (ix : SystemInstruction)
    : M (list KeyedAccount) InstructionError unit :=
  from ← account_at FROM_ACCOUNT_INDEX;
  match signer_key from with
  | None => throw MissingRequiredSignature
  | Some _ =>
      match ix with
      | CreateAccount difs reputations space program_id =>
          custom_err (create_system_account difs reputations space program_id)
      | CreateAccountWithReputation reputations space program_id =>
          custom_err (create_system_account_with_reputation reputations space program_id)
      | Assign program_id =>
          if negb (system_program.check_id from.(account).(owner))
          then throw IncorrectProgramId
          else custom_err (assign_account_to_program program_id)
      | Transfer difs => custom_err (transfer_difs difs)
      | TransferReputations reputations => custom_err (transfer_reputations reputations)
      end
  end.

Definition process_instruction (ix : list Z) : M (list KeyedAccount) InstructionError unit :=
  match deserialize ix with
  | Some instruction => process_system_instruction instruction
  | None => throw InvalidInstructionData
  end.
End Processor.

(** ** Accounting *)

Definition total_difs (ks : list KeyedAccount) : Z := u64_sum ((λ k, difs (account k)) <$> ks).
Definition total_reputations (ks : list KeyedAccount) : Z :=
  u64_sum ((λ k, reputations (account k)) <$> ks).

(** Reputations that an instruction brings into existence. *)
Definition minted_reputations (ix : SystemInstruction) : Z :=
  match ix with
  | CreateAccount _ r _ _ => r
  | CreateAccountWithReputation r _ _ => r
  | _ => 0
  end.

(** Runs the monad on explicit accounts and splits on the guards. *)
Ltac run_system :=
  unfold process_system_instruction, custom_err, create_system_account,
    create_system_account_with_reputation, assign_account_to_program, transfer_difs,
    transfer_reputations, set_zero_data, account_at, modify_account, signer_key,
    FROM_ACCOUNT_INDEX, TO_ACCOUNT_INDEX in *;
  unfold_monad; simplify_eq/=;
  repeat (case_match; simplify_eq/=; try done).

(** Every system instruction that succeeds was signed by its source,
    preserves the total of difs, and changes the total of reputations by exactly
    what the account-creating instructions mint: neither of them takes the new
    reputations from the source. *)
Theorem system_instruction_accounting ix ks ks'
    (Hrun : process_system_instruction ix ks = (Ok tt, ks')) :
  (∃ from, ks !! 0%nat = Some from ∧ is_signer from = true) ∧
  total_difs ks' = total_difs ks ∧
  total_reputations ks' = u64_add (total_reputations ks) (minted_reputations ix) ∧
  key <$> ks' = key <$> ks.
Proof.
  unfold total_difs, total_reputations. rewrite !u64_sum_wrap.
  destruct ks as [|from [|to rest]], ix; run_system; rewrite ?u64_sum_wrap;
    (split; [by exists from|]); (split_and!; [..|done]); wrap_lia.
Qed.

(** A system instruction that fails with an error leaves every account as
    it was. *)
Theorem system_instruction_atomic ix ks ks' e
    (Hrun : process_system_instruction ix ks = (Err e, ks')) : ks' = ks.
Proof. destruct ks as [|from [|to rest]], ix; run_system. Qed.

(** [CreateAccount] only succeeds from a funded system account to an unused
    one, and leaves exactly the requested account behind: the program's, with
    [space] zero bytes, not executable, everyone else untouched. *)
Theorem create_account_fresh d r space program_id from to rest ks'
    (Hrun : process_system_instruction (CreateAccount d r space program_id)
              (from :: to :: rest) = (Ok tt, ks')) :
  owner (account from) = system_program.id ∧ d ≤ difs (account from) ∧
  data (account to) = [] ∧ owner (account to) = system_program.id ∧
  ks' = with_account (sub_difs d (account from)) from ::
        with_account
          (mkAccount (u64_add (difs (account to)) d) (u64_add (reputations (account to)) r)
             (replicate (Z.to_nat space) 0) program_id false) to :: rest.
Proof.
  run_system. unfold system_program.check_id in *.
  match goal with H : _ || _ = false |- _ => apply orb_false_elim in H as [Hd Ho] end.
  apply negb_false_iff, bool_decide_eq_true in Hd.
  split_and!; auto; lia.
Qed.

Definition demo_from : KeyedAccount := mkKeyedAccount true 5 (mkAccount 100 7 [] 0 false).
Definition demo_to : KeyedAccount := mkKeyedAccount false 6 (mkAccount 0 0 [] 0 false).

Lemma system_instruction_accounting_witness : ∃ ks',
  process_system_instruction (CreateAccount 40 3 8 77) [demo_from; demo_to] = (Ok tt, ks') ∧
  total_difs ks' = 100 ∧ total_reputations ks' = 10.
Proof.
  eexists. split; [vm_compute; reflexivity|].
  edestruct (system_instruction_accounting (CreateAccount 40 3 8 77) [demo_from; demo_to])
    as (_ & Hd & Hr & _); [vm_compute; reflexivity|].
  rewrite Hd, Hr. split; vm_compute; reflexivity.
Defined.

Lemma system_instruction_atomic_witness :
  (process_system_instruction (Transfer 101) [demo_from; demo_to]).2 = [demo_from; demo_to].
Proof.
  apply (system_instruction_atomic (Transfer 101) [demo_from; demo_to] _ (CustomError 1)).
  vm_compute. reflexivity.
Defined.

Lemma create_account_fresh_witness : ∃ ks',
  process_system_instruction (CreateAccount 40 3 8 77) [demo_from; demo_to] = (Ok tt, ks') ∧
  ks' !! 1%nat = Some (mkKeyedAccount false 6 (mkAccount 40 3 (replicate 8 0) 77 false)).
Proof.
  eexists. split; [vm_compute; reflexivity|].
  edestruct (create_account_fresh 40 3 8 77 demo_from demo_to []) as (_ & _ & _ & _ & Hks);
    [vm_compute; reflexivity|].
  rewrite Hks. vm_compute. reflexivity.
Defined.

End system_instruction_processor.
