(* ===== verification/VoteState.v ===== *)
(** * The vote program (controllers/vote_api/src)

    [VoteState] keeps the lockout tower of one validator: at most
    [MAX_LOCKOUT_HISTORY] votes, each locked for [2 ^ confirmation_count]
    slots.  The file models vote_state.rs and the instruction dispatcher of
    vote_instruction.rs and proves the tower invariant and the authorization
    rules of the three instructions. *)

From Stdlib Require Import Floats.SpecFloat.
From S2P Require Import Prelude Interface Codec Float SystemProgram.

Module vote_state.

Definition MAX_LOCKOUT_HISTORY : Z := 31.
Definition INITIAL_LOCKOUT : Z := 2.

Record Vote := mkVote { vote_slot : Z; vote_hash : Hash }.

Record Lockout := mkLockout { slot : Z; confirmation_count : Z }.

Definition Lockout_default : Lockout := mkLockout 0 0.

Definition Lockout_new (vote : Vote) : Lockout := mkLockout vote.(vote_slot) 1.

Definition lockout (l : Lockout) : Z := wrap64 (INITIAL_LOCKOUT ^ l.(confirmation_count)).

Definition expiration_slot (l : Lockout) : Z := u64_add l.(slot) (lockout l).

Definition is_expired (l : Lockout) (s : Z) : bool := expiration_slot l <? s.

(** [votes] is the [VecDeque], front first. *)
Record VoteState := mkVoteState {
  votes : list Lockout;
  node_pubkey : Pubkey;
  authorized_voter_pubkey : Pubkey;
  commission : Z;
  root_slot : option Z;
  credits : Z
}.

Definition VoteState_default : VoteState := mkVoteState [] Pubkey_default Pubkey_default 0 None 0.

Definition VoteState_new (vote_pubkey node_pubkey : Pubkey) (commission : Z) : VoteState :=
  mkVoteState [] node_pubkey vote_pubkey commission None 0.

Definition with_votes (vs : list Lockout) (s : VoteState) : VoteState :=
  mkVoteState vs s.(node_pubkey) s.(authorized_voter_pubkey) s.(commission) s.(root_slot)
    s.(credits).

Definition with_authorized_voter (k : Pubkey) (s : VoteState) : VoteState :=
  mkVoteState s.(votes) s.(node_pubkey) k s.(commission) s.(root_slot) s.(credits).

(** The loop of [pop_expired_votes], on the deque read from its back. *)
Fixpoint pop_back_expired (s : Z) (rvotes : list Lockout) : list Lockout :=
  match rvotes with
  | v :: r => if is_expired v s then pop_back_expired s r else rvotes
  | [] => []
  end.

Definition pop_expired_votes (s : Z) (vs : list Lockout) : list Lockout :=
  reverse (pop_back_expired s (reverse vs)).

Definition double_lockout (stack_depth : Z) (i : nat) (v : Lockout) : Lockout :=
  if Z.of_nat i + v.(confirmation_count) <? stack_depth
  then mkLockout v.(slot) ((v.(confirmation_count) + 1) mod two32)
  else v.

Definition double_lockouts (vs : list Lockout) : list Lockout :=
  imap (double_lockout (Z.of_nat (length vs))) vs.

Definition vote_matches (vote : Vote) (sh : Z * Hash) : bool :=
  (vote.(vote_slot) =? sh.1) && (vote.(vote_hash) =? sh.2).

Definition process_vote (vote : Vote) (slot_hashes : list (Z * Hash)) (s : VoteState) : VoteState :=
  if (match last s.(votes) with
      | Some old_vote => vote.(vote_slot) <=? old_vote.(slot)
      | None => false
      end)
  then s
  else if negb (existsb (vote_matches vote) slot_hashes)
  then s
  else
    let v := Lockout_new vote in
    let kept := pop_expired_votes v.(slot) s.(votes) in
    let '(kept', root', credits') :=
      match kept with
      | oldest :: rest =>
          if Z.of_nat (length kept) =? MAX_LOCKOUT_HISTORY
          then (rest, Some oldest.(slot), u64_add s.(credits) 1)
          else (kept, s.(root_slot), s.(credits))
      | [] => (kept, s.(root_slot), s.(credits))
      end in
    mkVoteState (double_lockouts (kept' ++ [v])) s.(node_pubkey) s.(authorized_voter_pubkey)
      s.(commission) root' credits'.

Definition process_votes (vs : list Vote) (slot_hashes : list (Z * Hash)) (s : VoteState)
    : VoteState :=
  foldl (λ st v, process_vote v slot_hashes st) s vs.

Definition process_vote_unchecked (vote : Vote) (s : VoteState) : VoteState :=
  process_vote vote [(vote.(vote_slot), vote.(vote_hash))] s.

Definition process_slot_vote_unchecked (s : Z) (st : VoteState) : VoteState :=
  process_vote_unchecked (mkVote s Hash_default) st.

Definition nth_recent_vote (position : nat) (s : VoteState) : option Lockout :=
  if (position <? length s.(votes))%nat
  then s.(votes) !! (length s.(votes) - 1 - position)%nat
  else None.

(** ** The instructions *)

(** [commission_split]: (voter portion, staker portion, was split) *)
Definition commission_split (s : VoteState) (on : f64) : f64 * f64 * bool :=
  if s.(commission) =? 0 then (f64_zero, on, false)
  else if s.(commission) =? u32_max then (on, f64_zero, false)
  else
    let mine := f64_div (f64_mul on (f64_of_Z s.(commission))) (f64_of_Z u32_max) in
    (mine, f64_sub on mine, true).


Inductive VoteInstruction :=
| InitializeAccount (node_pubkey : Pubkey) (commission : Z)
| AuthorizeVoter (voter_pubkey : Pubkey)
| VoteIx (recent_votes : list Vote).

Definition slot_hashes_id : Pubkey :=
  be_bytes [6; 167; 211; 138; 69; 219; 186; 157; 48; 170; 46; 66; 2; 146; 193; 59; 39; 59; 245;
            188; 30; 60; 130; 78; 86; 27; 113; 191; 208; 0; 0; 0].
Global Arguments slot_hashes_id : simpl never.
Definition slot_hashes_check_id (k : Pubkey) : bool := k =? slot_hashes_id.

(** [account.signer_key() == Some(authorized)] *)
Definition signed_by (authorized : Pubkey) (k : KeyedAccount) : bool :=
  match signer_key k with Some s => s =? authorized | None => false end.

Section Program.
Context `{Bincode VoteState} `{Bincode (list (Z * Hash))} `{Bincode VoteInstruction}.

Definition size_of : Z :=
  serialized_size
    (mkVoteState (replicate (Z.to_nat MAX_LOCKOUT_HISTORY) Lockout_default) Pubkey_default
       Pubkey_default 0 (Some u64_max) 0).

Definition authorize_voter (vote_account : KeyedAccount) (other_signers : list KeyedAccount)
    (voter : Pubkey) : res InstructionError unit * KeyedAccount :=
  match keyed_state (T:=VoteState) vote_account with
  | Ok vote_state =>
      let authorized := vote_state.(authorized_voter_pubkey) in
      if negb (signed_by authorized vote_account)
         && forallb (λ a, negb (signed_by authorized a)) other_signers
      then (Err MissingRequiredSignature, vote_account)
      else keyed_set_state (with_authorized_voter voter vote_state) vote_account
  | Err e => (Err e, vote_account)
  | Panic => (Panic, vote_account)
  end.

Definition initialize_account (vote_account : KeyedAccount) (node_pubkey : Pubkey)
    (commission : Z) : res InstructionError unit * KeyedAccount :=
  match keyed_state (T:=VoteState) vote_account with
  | Ok vote_state =>
      if negb (vote_state.(authorized_voter_pubkey) =? Pubkey_default)
      then (Err AccountAlreadyInitialized, vote_account)
      else keyed_set_state (VoteState_new (unsigned_key vote_account) node_pubkey commission)
             vote_account
  | Err e => (Err e, vote_account)
  | Panic => (Panic, vote_account)
  end.

(** [vote_state::process_votes] *)
Definition process_votes_account (vote_account slot_hashes_account : KeyedAccount)
    (other_signers : list KeyedAccount) (vs : list Vote)
    : res InstructionError unit * KeyedAccount :=
  match keyed_state (T:=VoteState) vote_account with
  | Ok vote_state =>
      if vote_state.(authorized_voter_pubkey) =? Pubkey_default
      then (Err UninitializedAccount, vote_account)
      else if negb (slot_hashes_check_id (unsigned_key slot_hashes_account))
      then (Err InvalidArgument, vote_account)
      else
        match keyed_state (T:=list (Z * Hash)) slot_hashes_account with
        | Ok slot_hashes =>
            let authorized := vote_state.(authorized_voter_pubkey) in
            if negb (signed_by authorized vote_account)
               && forallb (λ a, negb (signed_by authorized a)) other_signers
            then (Err MissingRequiredSignature, vote_account)
            else keyed_set_state (process_votes vs slot_hashes vote_state) vote_account
        | Err e => (Err e, vote_account)
        | Panic => (Panic, vote_account)
        end
  | Err e => (Err e, vote_account)
  | Panic => (Panic, vote_account)
  end.

(** vote_instruction.rs, [process_instruction]: account 0 paid for the
    transaction, account 1 is the vote account.  [rest.split_at_mut(1)] panics
    on an empty [rest]. *)
Definition process_instruction (keyed_accounts : list KeyedAccount) (ix : list Z)
    : res InstructionError unit * list KeyedAccount :=
  match keyed_accounts with
  | payer :: me :: rest =>
      match deserialize (A:=VoteInstruction) ix with
      | None => (Err InvalidInstructionData, keyed_accounts)
      | Some (InitializeAccount node commission) =>
          let '(r, me') := initialize_account me node commission in (r, payer :: me' :: rest)
      | Some (AuthorizeVoter voter) =>
          let '(r, me') := authorize_voter me rest voter in (r, payer :: me' :: rest)
      | Some (VoteIx vs) =>
          match rest with
          | slot_hashes :: other_signers =>
              let '(r, me') := process_votes_account me slot_hashes other_signers vs in
              (r, payer :: me' :: rest)
          | [] => (Panic, keyed_accounts)
          end
      end
  | _ => (Err InvalidInstructionData, keyed_accounts)
  end.

(** [VoteState::from] *)
Definition VoteState_from (a : Account) : option VoteState :=
  match state a with Ok vs => Some vs | _ => None end.

(** [create_account]: the [unwrap] of the initialization is the [Panic]. *)
Definition create_account (vote_pubkey node_pubkey : Pubkey) (commission difs : Z)
    : res InstructionError Account :=
  let vote_account := Account_new difs 0 size_of vote_program.id in
  match initialize_account (KeyedAccount_new vote_pubkey false vote_account) node_pubkey
          commission with
  | (Ok _, k) => Ok (account k)
  | _ => Panic
  end.

Definition create_bootstrap_leader_account (vote_pubkey node_pubkey : Pubkey)
    (commission difs : Z) : res InstructionError (Account * VoteState) :=
  vote_account ← create_account vote_pubkey node_pubkey commission difs;
  match state (T:=VoteState) vote_account with
  | Ok vs =>
      let vs' := process_slot_vote_unchecked 0 vs in
      match set_state vs' vote_account with
      | (Ok _, a') => Ok (a', vs')
      | _ => Panic
      end
  | _ => Panic
  end.
End Program.

(** ** The tower invariant *)

(** The tower, oldest vote first: at most 31 votes, slots strictly increasing,
    confirmation counts strictly decreasing, and the count of each vote at least
    the number of votes from it to the top and at most 31. *)
Record tower_list (vs : list Lockout) : Prop := {
  tl_length : Z.of_nat (length vs) ≤ MAX_LOCKOUT_HISTORY;
  tl_slots : ∀ i j u v, (i < j)%nat → vs !! i = Some u → vs !! j = Some v → u.(slot) < v.(slot);
  tl_confirmations : ∀ i j u v, (i < j)%nat → vs !! i = Some u → vs !! j = Some v →
    v.(confirmation_count) < u.(confirmation_count);
  tl_depth : ∀ i v, vs !! i = Some v →
    Z.of_nat (length vs) - Z.of_nat i ≤ v.(confirmation_count) ≤ MAX_LOCKOUT_HISTORY
}.

(** The invariant of a vote state: a tower that lies above the root, and is not
    empty once there is a root. *)
Record tower_ok (s : VoteState) : Prop := {
  tower_votes : tower_list s.(votes);
  tower_root : ∀ r v, s.(root_slot) = Some r → v ∈ s.(votes) → r < v.(slot);
  tower_rooted : s.(root_slot) ≠ None → s.(votes) ≠ []
}.

Lemma pop_back_expired_suffix s l : ∃ popped,
  l = popped ++ pop_back_expired s l ∧ Forall (λ v, is_expired v s = true) popped ∧
  match pop_back_expired s l with v :: _ => is_expired v s = false | [] => True end.
Proof.
  induction l as [|v l (popped & Hl & Hp & Hh)]; cbn.
  - exists []. done.
  - destruct (is_expired v s) eqn:Hv.
    + exists (v :: popped). cbn. rewrite <- Hl. auto.
    + exists []. done.
Qed.

(** [pop_expired_votes] drops exactly the longest expired suffix. *)
Lemma pop_expired_votes_spec s vs : ∃ popped,
  vs = pop_expired_votes s vs ++ popped ∧ Forall (λ v, is_expired v s = true) popped ∧
  match last (pop_expired_votes s vs) with
  | Some v => is_expired v s = false
  | None => True
  end.
Proof.
  destruct (pop_back_expired_suffix s (reverse vs)) as (popped & Hl & Hp & Hh).
  exists (reverse popped). unfold pop_expired_votes. split_and!.
  - rewrite <- reverse_app, <- Hl. by rewrite reverse_involutive.
  - by apply Forall_reverse.
  - rewrite last_reverse. by destruct (pop_back_expired s (reverse vs)).
Qed.

Lemma double_lockouts_length vs : length (double_lockouts vs) = length vs.
Proof. apply length_imap. Qed.

Lemma double_lockouts_lookup vs i v :
  double_lockouts vs !! i = Some v ↔
  ∃ u, vs !! i = Some u ∧ v = double_lockout (Z.of_nat (length vs)) i u.
Proof.
  unfold double_lockouts. rewrite list_lookup_imap.
  destruct (vs !! i); cbn; naive_solver.
Qed.

Lemma double_lockout_slot n i v : slot (double_lockout n i v) = slot v.
Proof. unfold double_lockout. by case_match. Qed.

Lemma double_lockout_conf n i v : 0 ≤ confirmation_count v < u32_max →
  confirmation_count (double_lockout n i v) =
    if Z.of_nat i + confirmation_count v <? n then confirmation_count v + 1
    else confirmation_count v.
Proof.
  unfold double_lockout, u32_max. intros Hc. case_match; cbn; [|done].
  apply Z.mod_small. lia.
Qed.

Lemma tower_list_prefix vs popped : tower_list (vs ++ popped) → tower_list vs.
Proof.
  intros [Hl Hs Hc Hd]. rewrite length_app in *.
  assert (Hpre : ∀ i v, vs !! i = Some v → (vs ++ popped) !! i = Some v).
  { intros i v Hi. by apply lookup_app_l_Some. }
  split; eauto.
  - lia.
  - intros i v Hi. specialize (Hd i v (Hpre _ _ Hi)). lia.
Qed.

Lemma tower_list_tail v vs : tower_list (v :: vs) → tower_list vs.
Proof.
  intros [Hl Hs Hc Hd]. cbn [length] in *. split.
  - lia.
  - intros i j a b Hij. apply (Hs (S i) (S j)). lia.
  - intros i j a b Hij. apply (Hc (S i) (S j)). lia.
  - intros i u Hi. specialize (Hd (S i) u Hi). lia.
Qed.

(** Pushing a newer vote and doubling restores the invariant. *)
Lemma tower_list_push vs v :
  tower_list vs → Z.of_nat (length vs) < MAX_LOCKOUT_HISTORY →
  (∀ u, u ∈ vs → slot u < slot v) → confirmation_count v = 1 →
  tower_list (double_lockouts (vs ++ [v])).
Proof.
  unfold MAX_LOCKOUT_HISTORY. intros [Hl Hs Hc Hd] Hlen Hnew Hone.
  unfold MAX_LOCKOUT_HISTORY in *.
  set (n := Z.of_nat (length (vs ++ [v]))).
  assert (Hn : n = Z.of_nat (length vs) + 1) by (unfold n; rewrite length_app; cbn; lia).
  (* every entry, old or new, before doubling *)
  assert (Hent : ∀ i u, (vs ++ [v]) !! i = Some u →
    n - 1 - Z.of_nat i ≤ confirmation_count u ≤ 31 ∧ 1 ≤ confirmation_count u ∧
    (vs !! i = Some u ∨ i = length vs ∧ u = v)).
  { intros i u [Hi|[Hi Hu]]%lookup_app_Some.
    - specialize (Hd i u Hi). apply lookup_lt_Some in Hi as Hlt. split_and!; [lia..|auto].
    - apply list_lookup_singleton_Some in Hu as [Hi' ->].
      assert (i = length vs) by lia. split_and!; [lia..|auto]. }
  assert (Hdbl : ∀ i u, (vs ++ [v]) !! i = Some u →
    confirmation_count (double_lockout n i u) =
      if Z.of_nat i + confirmation_count u <? n then confirmation_count u + 1
      else confirmation_count u).
  { intros i u Hi. apply double_lockout_conf. unfold u32_max.
    destruct (Hent i u Hi) as (? & ? & _). lia. }
  assert (Hord : ∀ i j u w, (i < j)%nat → (vs ++ [v]) !! i = Some u →
    (vs ++ [v]) !! j = Some w → slot u < slot w ∧
    (confirmation_count w < confirmation_count u ∨ j = length vs ∧ w = v)).
  { intros i j u w Hij Hi Hj.
    destruct (Hent i u Hi) as (_ & _ & [Hi'|[-> ->]]).
    - destruct (Hent j w Hj) as (_ & _ & [Hj'|[-> ->]]).
      + split; [eauto|left; eauto].
      + split; [apply Hnew; by eapply list_elem_of_lookup_2|by right].
    - apply lookup_lt_Some in Hj. rewrite length_app in Hj. cbn in Hj. lia. }
  split; unfold MAX_LOCKOUT_HISTORY; rewrite ?double_lockouts_length.
  - fold n. lia.
  - intros i j u w Hij (u0 & Hu & ->)%double_lockouts_lookup (w0 & Hw & ->)%double_lockouts_lookup.
    rewrite !double_lockout_slot. by eapply Hord.
  - intros i j u w Hij (u0 & Hu & ->)%double_lockouts_lookup (w0 & Hw & ->)%double_lockouts_lookup.
    fold n. rewrite (Hdbl _ _ Hu), (Hdbl _ _ Hw).
    destruct (Hent i u0 Hu) as (Hu1 & _ & _), (Hent j w0 Hw) as (Hw1 & _ & _).
    destruct (Hord i j u0 w0 Hij Hu Hw) as [_ [Hlt|[-> ->]]]; repeat case_match; lia.
  - intros i w (w0 & Hw & ->)%double_lockouts_lookup. fold n. rewrite (Hdbl _ _ Hw).
    destruct (Hent i w0 Hw) as (Hw1 & _ & _). case_match; lia.
Qed.

(** ** What one vote does *)

(** The vote is not for a newer slot, or no slot hash matches it. *)
Definition rejected (vote : Vote) (slot_hashes : list (Z * Hash)) (s : VoteState) : Prop :=
  (∃ old, last s.(votes) = Some old ∧ vote.(vote_slot) ≤ old.(slot)) ∨
  (vote.(vote_slot), vote.(vote_hash)) ∉ slot_hashes.

Lemma vote_matches_exists vote slot_hashes :
  existsb (vote_matches vote) slot_hashes = true ↔
  (vote.(vote_slot), vote.(vote_hash)) ∈ slot_hashes.
Proof.
  rewrite existsb_exists. setoid_rewrite <- list_elem_of_In.
  unfold vote_matches. split.
  - intros ([s h] & Hin & Hm). cbn in Hm.
    replace s with (vote_slot vote) in Hin by lia.
    by replace h with (vote_hash vote) in Hin by lia.
  - intros Hin. eexists; split; [done|]. cbn. lia.
Qed.

Lemma process_vote_rejected vote sh s : rejected vote sh s → process_vote vote sh s = s.
Proof.
  unfold process_vote. intros [(old & -> & Hle)|Hm].
  - replace (vote_slot vote <=? slot old) with true by lia. done.
  - rewrite <- vote_matches_exists in Hm. apply not_true_is_false in Hm. rewrite Hm.
    by repeat case_match.
Qed.

(** The state after an accepted vote, given what survives the expiry. *)
Definition vote_pushed (vote : Vote) (kept : list Lockout) (s s' : VoteState) : Prop :=
  if decide (Z.of_nat (length kept) = MAX_LOCKOUT_HISTORY) then
    ∃ oldest rest, kept = oldest :: rest ∧
      s' = mkVoteState (double_lockouts (rest ++ [Lockout_new vote])) s.(node_pubkey)
             s.(authorized_voter_pubkey) s.(commission) (Some oldest.(slot))
             (u64_add s.(credits) 1)
  else s' = with_votes (double_lockouts (kept ++ [Lockout_new vote])) s.

Lemma process_vote_accepted vote sh s : ¬ rejected vote sh s →
  ∃ kept popped, s.(votes) = kept ++ popped ∧
    Forall (λ v, is_expired v vote.(vote_slot) = true) popped ∧
    match last kept with
    | Some v => is_expired v vote.(vote_slot) = false
    | None => True
    end ∧ vote_pushed vote kept s (process_vote vote sh s).
Proof.
  intros Hr. destruct (pop_expired_votes_spec (vote_slot vote) (votes s)) as (popped & Hp).
  exists (pop_expired_votes (vote_slot vote) (votes s)), popped.
  destruct Hp as (Hv & Hpop & Hlast). split_and!; [done..|].
  unfold process_vote.
  assert (match last (votes s) with
          | Some old_vote => vote_slot vote <=? slot old_vote | None => false end = false) as ->.
  { destruct (last (votes s)) as [old|] eqn:Ho; [|done].
    destruct (Z.leb_spec (vote_slot vote) (slot old)); [|done].
    exfalso. apply Hr. left. eauto. }
  assert (existsb (vote_matches vote) sh = true) as ->.
  { apply not_false_is_true. intros Hn. apply Hr. right.
    rewrite <- vote_matches_exists. congruence. }
  cbn. unfold vote_pushed. set (kept := pop_expired_votes (vote_slot vote) (votes s)).
  destruct kept as [|oldest rest].
  - by rewrite decide_False.
  - destruct (Z.eqb_spec (Z.of_nat (length (oldest :: rest))) MAX_LOCKOUT_HISTORY) as [He|He].
    + rewrite decide_True by done. eauto.
    + by rewrite decide_False.
Qed.

(** ** Invariant preservation *)

Lemma last_lookup_slots vs v u :
  tower_list vs → last vs = Some v → u ∈ vs → slot u ≤ slot v.
Proof.
  intros Ht Hl [i Hi]%list_elem_of_lookup_1. rewrite last_lookup in Hl.
  apply lookup_lt_Some in Hi as Hlt.
  destruct (decide (i = pred (length vs))) as [->|Hne].
  - replace u with v by congruence. done.
  - apply Z.lt_le_incl. eapply (tl_slots _ Ht i (pred (length vs))); [lia|done..].
Qed.

Lemma not_rejected_newer vote sh s u :
  tower_ok s → ¬ rejected vote sh s → u ∈ s.(votes) → slot u < vote_slot vote.
Proof.
  intros [Ht _ _] Hr Hu. destruct (last (votes s)) as [v|] eqn:Hl.
  - pose proof (last_lookup_slots _ _ _ Ht Hl Hu).
    destruct (Z.lt_ge_cases (slot v) (vote_slot vote)); [lia|].
    exfalso. apply Hr. left. eauto.
  - apply last_None in Hl. rewrite Hl in Hu. by apply not_elem_of_nil in Hu.
Qed.

Lemma rejected_dec vote sh s : Decision (rejected vote sh s).
Proof.
  unfold rejected. apply or_dec; [|apply _].
  destruct (last (votes s)) as [old|]; [|right; naive_solver].
  destruct (decide (vote_slot vote ≤ slot old)); [left; eauto|right; naive_solver].
Defined.

Lemma double_lockouts_elem vs v : v ∈ double_lockouts vs → ∃ u, u ∈ vs ∧ slot u = slot v.
Proof.
  intros [i (u & Hu & ->)%double_lockouts_lookup]%list_elem_of_lookup_1.
  exists u. rewrite double_lockout_slot. eauto using list_elem_of_lookup_2.
Qed.

Lemma double_lockouts_nonempty vs v : double_lockouts (vs ++ [v]) ≠ [].
Proof.
  intros Hn. apply (f_equal length) in Hn. rewrite double_lockouts_length, length_app in Hn.
  cbn in Hn. lia.
Qed.

Lemma root_below_new_vote vote sh s r :
  tower_ok s → ¬ rejected vote sh s → root_slot s = Some r → r < vote_slot vote.
Proof.
  intros Hok Hr Hroot. destruct (votes s) as [|u us] eqn:Hv.
  - exfalso. by apply (tower_rooted s Hok); [rewrite Hroot|].
  - assert (u ∈ votes s) as Hu by (rewrite Hv; set_solver).
    pose proof (tower_root s Hok r u Hroot Hu).
    pose proof (not_rejected_newer vote sh s u Hok Hr Hu). lia.
Qed.

Lemma process_vote_ok vote sh s : tower_ok s → tower_ok (process_vote vote sh s).
Proof.
  intros Hok. destruct (rejected_dec vote sh s) as [Hr|Hr].
  { by rewrite process_vote_rejected. }
  pose proof (λ u, not_rejected_newer vote sh s u Hok Hr) as Hnew.
  pose proof (λ r, root_below_new_vote vote sh s r Hok Hr) as Hnewroot.
  destruct (process_vote_accepted vote sh s Hr) as (kept & popped & Hv & _ & _ & Hp).
  destruct Hok as [Ht Hroot _]. rewrite Hv in Ht, Hroot, Hnew. apply tower_list_prefix in Ht.
  unfold vote_pushed in Hp. case_decide as Hfull.
  - destruct Hp as (oldest & rest & -> & ->).
    assert (Hold : ∀ u, u ∈ rest → slot oldest < slot u).
    { intros u [i Hi]%list_elem_of_lookup_1. by apply (tl_slots _ Ht 0 (S i)); [lia|..]. }
    split; cbn; [..|intros _; apply double_lockouts_nonempty].
    + apply tower_list_push; [by eapply tower_list_tail|cbn in Hfull; lia| |done].
      intros u Hu. apply Hnew. set_solver.
    + intros r v [= <-] (u & [Hu|Hu]%elem_of_app & <-)%double_lockouts_elem; [auto|].
      apply list_elem_of_singleton in Hu as ->. apply Hnew. set_solver.
  - rewrite Hp. split; cbn; [..|intros _; apply double_lockouts_nonempty].
    + apply tower_list_push; [done|pose proof (tl_length _ Ht); lia| |done].
      intros u Hu. apply Hnew. set_solver.
    + intros r v Hr' (u & [Hu|Hu]%elem_of_app & <-)%double_lockouts_elem.
      * eapply Hroot; [done|]. set_solver.
      * apply list_elem_of_singleton in Hu as ->. cbn. auto.
Qed.

Lemma process_votes_ok vs sh s : tower_ok s → tower_ok (process_votes vs sh s).
Proof.
  revert s. induction vs as [|v vs IH]; intros s Hok; [done|]. cbn.
  by apply IH, process_vote_ok.
Qed.

(** Batches of votes, each with the slot hashes of its bank. *)
Definition vote_history (h : list (list Vote * list (Z * Hash))) (s : VoteState) : VoteState :=
  foldl (λ st '(vs, sh), process_votes vs sh st) s h.

Lemma tower_ok_new vote_pubkey node_pubkey commission :
  tower_ok (VoteState_new vote_pubkey node_pubkey commission).
Proof.
  split; cbn; [split; cbn| |done].
  - unfold MAX_LOCKOUT_HISTORY. lia.
  - intros i j u v _ Hi. by rewrite lookup_nil in Hi.
  - intros i j u v _ Hi. by rewrite lookup_nil in Hi.
  - intros i v Hi. by rewrite lookup_nil in Hi.
  - done.
Qed.

Lemma tower_ok_history h s : tower_ok s → tower_ok (vote_history h s).
Proof.
  revert s. induction h as [|[vs sh] h IH]; intros s Hok; [done|]. cbn.
  by apply IH, process_votes_ok.
Qed.

Lemma tower_lockout_exact s v :
  tower_ok s → v ∈ votes s → lockout v = 2 ^ confirmation_count v ∧ 2 ≤ lockout v ≤ 2 ^ 31.
Proof.
  intros [Ht _ _] [i Hi]%list_elem_of_lookup_1.
  pose proof (tl_depth _ Ht i v Hi) as Hd. unfold MAX_LOCKOUT_HISTORY in Hd.
  apply lookup_lt_Some in Hi.
  assert (2 ^ 1 ≤ 2 ^ confirmation_count v ≤ 2 ^ 31) as Hp.
  { split; apply Z.pow_le_mono_r; lia. }
  unfold lockout, INITIAL_LOCKOUT. rewrite wrap64_small; [lia|]. unfold is_u64. lia.
Qed.

#[export] Hint Resolve process_vote_ok process_votes_ok tower_ok_new tower_ok_history : morgan.

(** C1. Whatever votes a vote account is sent, with whatever slot hashes, its
    state keeps the tower invariant: at most 31 votes, strictly increasing
    slots above the root, strictly decreasing confirmation counts between the
    distance to the top and 31; and every lockout is the exact power of two,
    with no wrap-around. *)
Theorem vote_tower_invariant vote_pubkey node_pubkey commission h :
  let s := vote_history h (VoteState_new vote_pubkey node_pubkey commission) in
  tower_ok s ∧
  Forall (λ v, lockout v = 2 ^ confirmation_count v ∧ 2 ≤ lockout v ≤ 2 ^ 31) (votes s).
Proof.
  cbn. set (s := vote_history _ _). assert (tower_ok s) as Hok by eauto with morgan.
  split; [done|]. apply Forall_forall. intros v Hv. by apply (tower_lockout_exact s).
Qed.


(** A slot becomes the root only when its vote has reached the maximum
    lockout of 31 confirmations, the root never decreases, and each new root
    earns exactly one credit. *)
Theorem root_needs_max_lockout vote sh s (Hok : tower_ok s) :
  let s' := process_vote vote sh s in
  (root_slot s' = root_slot s ∧ credits s' = credits s) ∨
  (∃ u, u ∈ votes s ∧ confirmation_count u = MAX_LOCKOUT_HISTORY ∧
     root_slot s' = Some (slot u) ∧ credits s' = u64_add (credits s) 1 ∧
     ∀ r, root_slot s = Some r → r < slot u).
Proof.
  cbn. destruct (rejected_dec vote sh s) as [Hr|Hr].
  { left. by rewrite process_vote_rejected. }
  destruct (process_vote_accepted vote sh s Hr) as (kept & popped & Hv & _ & _ & Hp).
  unfold vote_pushed in Hp. case_decide as Hfull; [|left; by rewrite Hp].
  destruct Hp as (oldest & rest & -> & ->). right. exists oldest.
  assert (oldest ∈ votes s) as Hin by (rewrite Hv; set_solver).
  split_and!; [done| |done..|].
  - destruct Hok as [Ht _ _]. rewrite Hv in Ht. apply tower_list_prefix in Ht.
    pose proof (tl_depth _ Ht 0 oldest eq_refl). lia.
  - intros r Hroot. by eapply tower_root.
Qed.

Lemma root_needs_max_lockout_witness :
  let s := vote_history [((λ i, mkVote (Z.of_nat i) 0) <$> seq 0 31,
                          (λ i, (Z.of_nat i, 0)) <$> seq 0 31)] (VoteState_new 1 2 0) in
  let s' := process_vote (mkVote 31 0) [(31, 0)] s in
  tower_ok s ∧ root_slot s = None ∧ root_slot s' = Some 0 ∧
  ((root_slot s' = root_slot s ∧ credits s' = credits s) ∨
   (∃ u, u ∈ votes s ∧ confirmation_count u = MAX_LOCKOUT_HISTORY ∧
     root_slot s' = Some (slot u) ∧ credits s' = u64_add (credits s) 1 ∧
     ∀ r, root_slot s = Some r → r < slot u)).
Proof.
  intros s s'. assert (tower_ok s) as Hok by apply tower_ok_history, tower_ok_new.
  split; [exact Hok|]. split; [vm_compute; reflexivity|]. split; [vm_compute; reflexivity|].
  apply (root_needs_max_lockout (mkVote 31 0) [(31, 0)] s Hok).
Defined.

(** ** The program's instructions *)

Definition lockout_ranged (l : Lockout) : Prop := is_u64 l.(slot) ∧ is_u32 l.(confirmation_count).
Definition vote_ranged (v : Vote) : Prop := is_u64 v.(vote_slot) ∧ is_key v.(vote_hash).

Global Instance VoteState_ranged : Ranged VoteState := λ s,
  (Forall lockout_ranged s.(votes) ∧ is_u64 (Z.of_nat (length s.(votes)))) ∧
  is_key s.(node_pubkey) ∧ is_key s.(authorized_voter_pubkey) ∧ is_u32 s.(commission) ∧
  from_option is_u64 True s.(root_slot) ∧ is_u64 s.(credits).

Global Instance VoteInstruction_ranged : Ranged VoteInstruction := λ ix,
  match ix with
  | InitializeAccount node commission => is_key node ∧ is_u32 commission
  | AuthorizeVoter voter => is_key voter
  | VoteIx vs => Forall vote_ranged vs ∧ is_u64 (Z.of_nat (length vs))
  end.

Lemma double_lockouts_ranged vs :
  Forall lockout_ranged vs → Forall lockout_ranged (double_lockouts vs).
Proof.
  intros Hf. apply Forall_forall.
  intros v [i (u & Hu & ->)%double_lockouts_lookup]%list_elem_of_lookup_1.
  rewrite Forall_lookup in Hf. destruct (Hf i u Hu) as [? Hc].
  unfold double_lockout. case_match; [|done]. split; [done|]. cbn.
  unfold is_u32. by apply Z.mod_pos_bound.
Qed.

Lemma process_vote_ranged vote sh s :
  tower_ok s → in_range s → vote_ranged vote → in_range (process_vote vote sh s).
Proof.
  intros Hok Hr Hvote. pose proof (process_vote_ok vote sh s Hok) as Hok'.
  destruct (rejected_dec vote sh s) as [Hrej|Hrej]; [by rewrite process_vote_rejected|].
  destruct (process_vote_accepted vote sh s Hrej) as (kept & popped & Hv & _ & _ & Hp).
  destruct Hr as ((Hl & _) & Hn & Ha & Hc & Hroot & Hcr). rewrite Hv in Hl.
  apply Forall_app in Hl as [Hkept _].
  assert (Forall lockout_ranged [Lockout_new vote]) as Hnew.
  { apply Forall_singleton. destruct Hvote. split; [done|]. by cbv. }
  assert (is_u64 (Z.of_nat (length (votes (process_vote vote sh s))))) as Hlen.
  { pose proof (tl_length _ (tower_votes _ Hok')). unfold is_u64, MAX_LOCKOUT_HISTORY in *. lia. }
  unfold vote_pushed in Hp. case_decide.
  - destruct Hp as (oldest & rest & -> & Hs). rewrite Hs in Hlen |- *.
    apply Forall_cons in Hkept as [[Ho _] Hrest].
    split_and!; cbn; auto with morgan; [|by apply wrap64_range].
    apply double_lockouts_ranged, Forall_app. auto.
  - rewrite Hp in Hlen |- *. split_and!; cbn; auto.
    apply double_lockouts_ranged, Forall_app. auto.
Qed.

Lemma process_votes_ranged vs sh s :
  tower_ok s → in_range s → Forall vote_ranged vs → in_range (process_votes vs sh s).
Proof.
  intros Hok Hr Hf. revert s Hok Hr. induction Hf as [|v vs Hv Hf IH]; intros s Hok Hr; [done|].
  cbn. apply IH; [by apply process_vote_ok|by apply process_vote_ranged].
Qed.

Lemma vote_history_ranged h s :
  tower_ok s → in_range s → Forall (λ b, Forall vote_ranged b.1) h → in_range (vote_history h s).
Proof.
  intros Hok Hr Hf. revert s Hok Hr.
  induction Hf as [|[vs sh] h Hv Hf IH]; intros s Hok Hr; [done|]. cbn.
  apply IH; [by apply (tower_ok_history [(vs, sh)])|by apply process_votes_ranged].
Qed.

(** Some account of the list signed with the key. *)
Definition some_signed (authorized : Pubkey) (ks : list KeyedAccount) : bool :=
  existsb (signed_by authorized) ks.
Global Arguments some_signed : simpl never.

Lemma unsigned_guard authorized k ks :
  negb (signed_by authorized k) && forallb (λ a, negb (signed_by authorized a)) ks =
  negb (some_signed authorized (k :: ks)).
Proof.
  unfold some_signed. cbn. destruct (signed_by authorized k); [done|]. cbn.
  induction ks as [|x ks IH]; [done|]. cbn. rewrite IH. by destruct (signed_by authorized x).
Qed.

Section ProgramProofs.
Context `{!Bincode VoteState, !BincodeLaws VoteState}.
Context `{!Bincode (list (Z * Hash))}.
Context `{!Bincode VoteInstruction, !BincodeLaws VoteInstruction}.

(** A [Vote] instruction, on every branch: an uninitialized vote account, a
    wrong slot-hashes account and a missing signature of the authorized voter
    are refused with their errors and change no account; otherwise the votes are
    applied in order to the stored tower, which stays a tower, and nothing but
    the data of the vote account changes. *)
Theorem vote_instruction_spec payer me sh others ix vs (st : VoteState)
    (hashes : list (Z * Hash))
    (Hix : deserialize ix = Some (VoteIx vs))
    (Hme : keyed_state me = Ok st) (Hok : tower_ok st)
    (Hsh : keyed_state sh = Ok hashes)
    (Hfits : (length (serialize (process_votes vs hashes st)) ≤ length me.(account).(data))%nat) :
  let accounts := payer :: me :: sh :: others in
  let authorized := st.(authorized_voter_pubkey) in
  if authorized =? Pubkey_default
  then process_instruction accounts ix = (Err UninitializedAccount, accounts)
  else if negb (sh.(key) =? slot_hashes_id)
  then process_instruction accounts ix = (Err InvalidArgument, accounts)
  else if negb (some_signed authorized (me :: others))
  then process_instruction accounts ix = (Err MissingRequiredSignature, accounts)
  else ∃ me', process_instruction accounts ix = (Ok tt, payer :: me' :: sh :: others) ∧
    keyed_state me' = Ok (process_votes vs hashes st) ∧ tower_ok (process_votes vs hashes st) ∧
    key me' = key me ∧ difs (account me') = difs (account me) ∧
    owner (account me') = owner (account me).
Proof.
  cbn. rewrite Hix. unfold process_votes_account. rewrite Hme, unsigned_guard.
  destruct (authorized_voter_pubkey st =? Pubkey_default); [done|].
  unfold slot_hashes_check_id, unsigned_key. destruct (key sh =? slot_hashes_id); [|by cbn].
  rewrite Hsh. cbn [negb].
  destruct (some_signed (authorized_voter_pubkey st) (me :: others)); [|by cbn]; cbn [negb].
  apply deserialize_in_range in Hix. destruct Hix as [Hvs _].
  apply state_in_range in Hme as Hst.
  destruct (keyed_set_state_fits (process_votes vs hashes st) me) as (me' & -> & ? & ? & ? & ? & ? & ?);
    [by apply process_votes_ranged|done|].
  exists me'. split_and!; auto with morgan.
Qed.

(** C37. A vote account always holds its state.  Whatever votes it is sent, the
    fields of its state keep their machine types, the encoding of the state
    fits the [size_of] bytes that vote accounts are created with, and the
    account reads back the state that is stored in it.  [Hsize] is the size of
    the bincode encoding: fixed-width integers, a length of eight bytes before
    the votes and one byte before the root. *)
Theorem vote_account_fits h vote_pubkey node_pubkey' commission'
    (Hsize : ∀ s : VoteState, in_range s → Z.of_nat (length (serialize s)) =
       84 + 12 * Z.of_nat (length s.(votes)) + (if s.(root_slot) then 9 else 1))
    (Hvote : is_key vote_pubkey) (Hnode : is_key node_pubkey') (Hcom : is_u32 commission')
    (Hh : Forall (λ b, Forall vote_ranged b.1) h) k :
  let s := vote_history h (VoteState_new vote_pubkey node_pubkey' commission') in
  Z.of_nat (length k.(account).(data)) = size_of →
  in_range s ∧ ∃ k', keyed_set_state s k = (Ok tt, k') ∧ keyed_state k' = Ok s ∧
    length k'.(account).(data) = length k.(account).(data).
Proof.
  intros s Hlen. assert (tower_ok s) as Hok by apply tower_ok_history, tower_ok_new.
  assert (in_range s) as Hr.
  { apply vote_history_ranged; [apply tower_ok_new| |done]. split_and!; cbn; done || constructor. }
  split; [done|].
  assert (length (serialize s) ≤ length k.(account).(data))%nat as Hfit.
  { apply Nat2Z.inj_le. rewrite Hlen. unfold size_of, serialized_size. rewrite !Hsize; [|..|done].
    - pose proof (tl_length _ (tower_votes _ Hok)). cbn [votes root_slot].
      rewrite length_replicate. unfold MAX_LOCKOUT_HISTORY in *. destruct (root_slot s); lia.
    - split_and!; cbn; (done || by repeat constructor). }
  destruct (keyed_set_state_fits s k Hr Hfit) as (k' & Hk & Hs & _ & _ & _ & _ & Hl).
  by exists k'.
Qed.

(** [AuthorizeVoter] hands the account over: it needs the signature of the
    current voter (and otherwise changes nothing), it keeps the tower, and from
    then on votes that the new voter did not sign are refused. *)
Theorem authorize_voter_handover me others voter (st : VoteState)
    (Hme : keyed_state me = Ok st) (Hvoter : is_key voter)
    (Hfits : (length (serialize (with_authorized_voter voter st))
              ≤ length me.(account).(data))%nat) :
  if negb (some_signed st.(authorized_voter_pubkey) (me :: others))
  then authorize_voter me others voter = (Err MissingRequiredSignature, me)
  else ∃ me', authorize_voter me others voter = (Ok tt, me') ∧
    keyed_state me' = Ok (with_authorized_voter voter st) ∧
    ∀ sh others' vs (hashes : list (Z * Hash)), voter ≠ Pubkey_default → key sh = slot_hashes_id →
      keyed_state sh = Ok hashes → some_signed voter (me' :: others') = false →
      process_votes_account me' sh others' vs = (Err MissingRequiredSignature, me').
Proof.
  unfold authorize_voter. rewrite Hme, unsigned_guard.
  destruct (some_signed (authorized_voter_pubkey st) (me :: others)); [|by cbn]; cbn [negb].
  apply state_in_range in Hme as Hst.
  destruct (keyed_set_state_fits (with_authorized_voter voter st) me)
    as (me' & -> & Hme' & _); [|done|].
  { unfold in_range, VoteState_ranged in *. cbn. naive_solver. }
  exists me'. split_and!; [done..|]. intros sh others' vs hashes Hne Hid Hsh Hsig.
  unfold process_votes_account. rewrite Hme'. cbn [authorized_voter_pubkey with_authorized_voter].
  rewrite (proj2 (Z.eqb_neq _ _)) by done. unfold slot_hashes_check_id, unsigned_key.
  rewrite Hid, Z.eqb_refl. cbn [negb]. by rewrite Hsh, unsigned_guard, Hsig.
Qed.

(** [InitializeAccount] succeeds exactly once: on an account whose state has
    no voter it installs an empty tower voted by the account's own key, and any
    later initialization is refused. *)
Theorem initialize_once me node comm (st : VoteState)
    (Hme : keyed_state me = Ok st) (Hkey : is_key me.(key)) (Hnode : is_key node)
    (Hcomm : is_u32 comm) (Hne : me.(key) ≠ Pubkey_default)
    (Hfits : (length (serialize (VoteState_new me.(key) node comm))
              ≤ length me.(account).(data))%nat) :
  if negb (st.(authorized_voter_pubkey) =? Pubkey_default)
  then initialize_account me node comm = (Err AccountAlreadyInitialized, me)
  else ∃ me', initialize_account me node comm = (Ok tt, me') ∧
    keyed_state me' = Ok (VoteState_new me.(key) node comm) ∧
    ∀ node' comm', initialize_account me' node' comm' = (Err AccountAlreadyInitialized, me').
Proof.
  unfold initialize_account at 1 2. rewrite Hme.
  destruct (authorized_voter_pubkey st =? Pubkey_default); [|by cbn]; cbn [negb].
  destruct (keyed_set_state_fits (VoteState_new (unsigned_key me) node comm) me)
    as (me' & -> & Hme' & _); [|done|].
  { unfold in_range, VoteState_ranged. cbn. split_and!; try done.
  }
  exists me'. split_and!; [done..|]. intros node' comm'. unfold initialize_account.
  rewrite Hme'. cbn. by rewrite (proj2 (Z.eqb_neq _ _)).
Qed.
End ProgramProofs.

(** ** Witnesses *)

Definition vote_codec : codec Vote.
Proof.
  refine (map_codec (pair_codec u64_codec key_codec)
    (λ v, (v.(vote_slot), v.(vote_hash))) (λ '(s, h), Some (mkVote s h)) _ _).
  - by intros [].
  - by intros [] ? [= <-].
Defined.

Definition lockout_codec : codec Lockout.
Proof.
  refine (map_codec (pair_codec u64_codec u32_codec)
    (λ v, (v.(slot), v.(confirmation_count))) (λ '(s, h), Some (mkLockout s h)) _ _).
  - by intros [].
  - by intros [] ? [= <-].
Defined.

Definition VoteState_codec : codec VoteState.
Proof.
  refine (map_codec (pair_codec (list_codec lockout_codec) (pair_codec key_codec
    (pair_codec key_codec (pair_codec u32_codec (pair_codec (option_codec u64_codec) u64_codec)))))
    (λ v, (v.(votes), (v.(node_pubkey), (v.(authorized_voter_pubkey), (v.(commission),
       (v.(root_slot), v.(credits)))))))
    (λ '(a, (b, (c, (d, (e, f))))), Some (mkVoteState a b c d e f)) _ _).
  - by intros [].
  - by intros (?&?&?&?&?&?) ? [= <-].
Defined.

Definition VoteInstruction_codec : codec VoteInstruction.
Proof.
  refine (map_codec (sum_codec (pair_codec key_codec u32_codec)
      (sum_codec key_codec (list_codec vote_codec)))
    (λ v, match v with
          | InitializeAccount a b => inl (a, b)
          | AuthorizeVoter a => inr (inl a)
          | VoteIx vs => inr (inr vs)
          end)
    (λ s, match s with
          | inl (a, b) => Some (InitializeAccount a b)
          | inr (inl a) => Some (AuthorizeVoter a)
          | inr (inr vs) => Some (VoteIx vs)
          end) _ _).
  - by intros [].
  - by intros [[]|[]] ? [= <-].
Defined.

#[local] Instance VoteState_bincode : Bincode VoteState := codec_bincode VoteState_codec.
#[local] Instance VoteInstruction_bincode : Bincode VoteInstruction :=
  codec_bincode VoteInstruction_codec.
#[local] Instance slot_hashes_bincode : Bincode (list (Z * Hash)) :=
  codec_bincode (list_codec (pair_codec u64_codec key_codec)).
#[local] Instance VoteState_laws : BincodeLaws VoteState.
Proof. by apply codec_laws. Qed.
#[local] Instance VoteInstruction_laws : BincodeLaws VoteInstruction.
Proof. apply codec_laws. by intros []. Qed.

Definition demo_state : VoteState := mkVoteState [mkLockout 3 1] 2 9 0 None 0.
Definition demo_account (st : VoteState) : KeyedAccount :=
  mkKeyedAccount true 9 (mkAccount 10 0 (serialize st ++ replicate 64 0) vote_program.id false).
Definition demo_slot_hashes : KeyedAccount :=
  mkKeyedAccount false slot_hashes_id
    (mkAccount 1 0 (serialize [(5, 7); (3, 6)] ++ [0; 0]) syscall.id false).

Lemma demo_tower : tower_ok demo_state.
Proof.
  replace demo_state with (vote_history [([mkVote 3 0], [(3, 0)])] (VoteState_new 9 2 0)) by done.
  auto with morgan.
Qed.

Lemma demo_size (s : VoteState) : in_range s → Z.of_nat (length (serialize s)) =
  84 + 12 * Z.of_nat (length s.(votes)) + (if s.(root_slot) then 9 else 1).
Proof.
  intros _. destruct s as [vs n a c r cr]. cbn -[Z.of_nat le_enc lockout_codec].
  rewrite !length_app, !length_le_enc.
  assert (length (mjoin (enc lockout_codec <$> vs)) = 12 * length vs)%nat as ->.
  { induction vs as [|v vs IH]; [done|]. rewrite fmap_cons, mjoin_cons, length_app, IH.
    cbn -[Nat.mul]. lia. }
  destruct r; cbn [option_enc length]; [cbn; rewrite ?length_le_enc|]; lia.
Qed.

Lemma vote_account_fits_witness :
  ∃ k', keyed_set_state (vote_history [([mkVote 3 0], [(3, 0)])] (VoteState_new 9 2 0))
          (mkKeyedAccount true 9 (Account_new 10 0 size_of vote_program.id)) = (Ok tt, k').
Proof.
  destruct (vote_account_fits [([mkVote 3 0], [(3, 0)])] 9 2 0 demo_size ltac:(done) ltac:(done)
    ltac:(done) ltac:(by repeat constructor) (mkKeyedAccount true 9 (Account_new 10 0 size_of vote_program.id)))
    as [_ (k' & Hk & _)].
  - vm_compute. reflexivity.
  - exists k'. exact Hk.
Defined.

Lemma vote_instruction_spec_witness :
  ∃ me', process_instruction [demo_account demo_state; demo_account demo_state; demo_slot_hashes]
           (serialize (VoteIx [mkVote 5 7])) =
         (Ok tt, [demo_account demo_state; me'; demo_slot_hashes]) ∧
    keyed_state me' =
      Ok (mkVoteState [mkLockout 3 2; mkLockout 5 1] 2 9 0 None 0).
Proof.
  destruct (vote_instruction_spec (demo_account demo_state) (demo_account demo_state)
    demo_slot_hashes [] (serialize (VoteIx [mkVote 5 7])) [mkVote 5 7] demo_state
    [(5, 7); (3, 6)]) as (me' & Hp & Hst & _).
  - vm_compute. reflexivity.
  - vm_compute. reflexivity.
  - apply demo_tower.
  - vm_compute. reflexivity.
  - vm_compute. lia.
  - exists me'. split; [exact Hp|exact Hst].
Defined.

Lemma authorize_voter_handover_witness :
  ∃ me', authorize_voter (demo_account demo_state) [] 12 = (Ok tt, me') ∧
    keyed_state me' = Ok (with_authorized_voter 12 demo_state) ∧
    process_votes_account me' demo_slot_hashes [] [mkVote 5 7] =
      (Err MissingRequiredSignature, me').
Proof.
  destruct (authorize_voter_handover (demo_account demo_state) [] 12 demo_state)
    as (me' & Hp & Hst & Hrej).
  - vm_compute. reflexivity.
  - vm_compute. split; [discriminate|reflexivity].
  - vm_compute. lia.
  - exists me'. split; [exact Hp|]. split; [exact Hst|].
    apply (Hrej demo_slot_hashes [] [mkVote 5 7] [(5, 7); (3, 6)]); try reflexivity; [done|].
    assert (key me' = 9) as Hk by (vm_compute in Hp; injection Hp as <-; reflexivity).
    unfold some_signed. cbn. unfold signed_by, signer_key. rewrite Hk.
    destruct (is_signer me'); reflexivity.
Defined.

Lemma initialize_once_witness :
  ∃ me', initialize_account (demo_account VoteState_default) 2 7 = (Ok tt, me') ∧
    keyed_state me' = Ok (VoteState_new 9 2 7) ∧
    initialize_account me' 3 3 = (Err AccountAlreadyInitialized, me').
Proof.
  destruct (initialize_once (demo_account VoteState_default) 2 7 VoteState_default)
    as (me' & Hp & Hst & Hrej).
  - vm_compute. reflexivity.
  - vm_compute. split; [discriminate|reflexivity].
  - vm_compute. split; [discriminate|reflexivity].
  - vm_compute. split; [discriminate|reflexivity].
  - vm_compute. discriminate.
  - vm_compute. lia.
  - exists me'. split; [exact Hp|]. split; [exact Hst|apply Hrej].
Defined.

End vote_state.

(** The instruction builders of vote_instruction.rs. *)
Module vote_instruction.
Import vote_state.

Section Builders.
Context `{!Bincode VoteState, !Bincode VoteInstruction}.
Context `{!Bincode system_instruction.SystemInstruction}.

Definition initialize_account (from_pubkey vote_pubkey node_pubkey : Pubkey) (commission : Z)
    : Instruction :=
  Instruction_new vote_program.id (InitializeAccount node_pubkey commission)
    [AccountMeta_new from_pubkey true; AccountMeta_new vote_pubkey false].

Definition create_account (from_pubkey vote_pubkey node_pubkey : Pubkey) (commission difs : Z)
    : list Instruction :=
  let space := size_of in
  [system_instruction.create_account from_pubkey vote_pubkey difs space vote_program.id;
   initialize_account from_pubkey vote_pubkey node_pubkey commission].

Definition metas_for_authorized_signer
    (from_pubkey vote_pubkey authorized_voter_pubkey : Pubkey) : list AccountMeta :=
  let is_own_signer := authorized_voter_pubkey =? vote_pubkey in
  [AccountMeta_new from_pubkey true; AccountMeta_new vote_pubkey is_own_signer] ++
  (if is_own_signer then [] else [AccountMeta_new authorized_voter_pubkey true]).

Definition authorize_voter
    (from_pubkey vote_pubkey authorized_voter_pubkey new_authorized_voter_pubkey : Pubkey)
    : Instruction :=
  Instruction_new vote_program.id (AuthorizeVoter new_authorized_voter_pubkey)
    (metas_for_authorized_signer from_pubkey vote_pubkey authorized_voter_pubkey).

(** [account_metas.insert(2, _)]: there are always two metas before. *)
Definition vote (from_pubkey vote_pubkey authorized_voter_pubkey : Pubkey)
    (recent_votes : list Vote) : Instruction :=
  let metas := metas_for_authorized_signer from_pubkey vote_pubkey authorized_voter_pubkey in
  Instruction_new vote_program.id (VoteIx recent_votes)
    (take 2 metas ++ [AccountMeta_new slot_hashes_id false] ++ drop 2 metas).
End Builders.

End vote_instruction.
