(* ===== verification/Message.v ===== *)
(** * Messages and transactions

    interface/src/message.rs: how instructions are compiled into a message (the
    key table, the header's counts, the indices).  interface/src/transaction.rs:
    transactions, the accessors, signing and [verify_refs];
    interface/src/fee_calculator.rs. *)

From Stdlib Require Import Sorting.Sorted.
From S2P Require Import Prelude Interface.

Module message.

(** [keys.iter().position(|k| k == key)] *)
Fixpoint find_position (keys : list Pubkey) (k : Pubkey) : option nat :=
  match keys with
  | [] => None
  | k' :: keys' => if k' =? k then Some 0%nat else S <$> find_position keys' k
  end.

Definition position {E} (keys : list Pubkey) (k : Pubkey) : res E Z :=
  i ← unwrap (find_position keys k); Ok (Z.of_nat i mod two8).

(** [iter().map(f).collect()] where [f] may panic. *)
Fixpoint mapR {E A B} (f : A → res E B) (l : list A) : res E (list B) :=
  match l with
  | [] => Ok []
  | x :: l' => y ← f x; ys ← mapR f l'; Ok (y :: ys)
  end.

Definition compile_instruction {E} (ix : Instruction) (keys : list Pubkey)
    : res E CompiledInstruction :=
  accounts ← mapR (λ m, position keys m.(am_pubkey)) ix.(ix_accounts);
  p ← position keys ix.(ix_program_id);
  Ok (mkCompiledInstruction p accounts ix.(ix_data)).

Definition compile_instructions {E} (ixs : list Instruction) (keys : list Pubkey)
    : res E (list CompiledInstruction) :=
  mapR (λ ix, compile_instruction ix keys) ixs.

Record InstructionKeys := mkInstructionKeys {
  signed_keys : list Pubkey;
  unsigned_keys : list Pubkey;
  ik_num_credit_only_signed_accounts : Z;
  ik_num_credit_only_unsigned_accounts : Z
}.

(** [itertools]'s [unique]: the first occurrence of every element. *)
Fixpoint unique_from (seen : list Pubkey) (l : list Pubkey) : list Pubkey :=
  match l with
  | [] => []
  | x :: l' =>
      if bool_decide (x ∈ seen) then unique_from seen l' else x :: unique_from (x :: seen) l'
  end.

(** [unique_by(|x| x.pubkey)] *)
Fixpoint unique_by_pubkey (seen : list Pubkey) (l : list AccountMeta) : list AccountMeta :=
  match l with
  | [] => []
  | x :: l' =>
      if bool_decide (x.(am_pubkey) ∈ seen) then unique_by_pubkey seen l'
      else x :: unique_by_pubkey (x.(am_pubkey) :: seen) l'
  end.

Definition get_program_ids (ixs : list Instruction) : list Pubkey :=
  unique_from [] (ix_program_id <$> ixs).

(** The comparator [y.is_signer.cmp(&x.is_signer).then(y.is_debitable.cmp(&x.is_debitable))]
    as a rank: [x] goes before [y] when its rank is smaller. *)
Definition meta_rank (m : AccountMeta) : nat :=
  match m.(am_is_signer), m.(am_is_debitable) with
  | true, true => 0
  | true, false => 1
  | false, true => 2
  | false, false => 3
  end.

(** [slice::sort_by] is stable. *)
Fixpoint insert_meta (x : AccountMeta) (l : list AccountMeta) : list AccountMeta :=
  match l with
  | [] => [x]
  | y :: l' => if (meta_rank x <=? meta_rank y)%nat then x :: l else y :: insert_meta x l'
  end.

Definition sort_metas (l : list AccountMeta) : list AccountMeta := foldr insert_meta [] l.

(** The body of the loop over the unique metas. *)
Definition collect_key (ik : InstructionKeys) (m : AccountMeta) : InstructionKeys :=
  if m.(am_is_signer)
  then mkInstructionKeys (ik.(signed_keys) ++ [m.(am_pubkey)]) ik.(unsigned_keys)
         (if negb m.(am_is_debitable)
          then wrap8 (ik.(ik_num_credit_only_signed_accounts) + 1)
          else ik.(ik_num_credit_only_signed_accounts))
         ik.(ik_num_credit_only_unsigned_accounts)
  else mkInstructionKeys ik.(signed_keys) (ik.(unsigned_keys) ++ [m.(am_pubkey)])
         ik.(ik_num_credit_only_signed_accounts)
         (if negb m.(am_is_debitable)
          then wrap8 (ik.(ik_num_credit_only_unsigned_accounts) + 1)
          else ik.(ik_num_credit_only_unsigned_accounts)).

(** Everything [get_keys] sorts: the metas of the instructions, then one
    unsigned credit-only meta per program. *)
Definition all_metas (ixs : list Instruction) : list AccountMeta :=
  mjoin (ix_accounts <$> ixs) ++
  ((λ p, mkAccountMeta p false false) <$> get_program_ids ixs).

Definition get_keys (ixs : list Instruction) (payer : option Pubkey) : InstructionKeys :=
  let sorted := sort_metas (all_metas ixs) in
  let metas :=
    match payer with
    | Some p => mkAccountMeta p true true :: sorted
    | None => sorted
    end in
  foldl collect_key (mkInstructionKeys [] [] 0 0) (unique_by_pubkey [] metas).

Record MessageHeader := mkMessageHeader {
  num_required_signatures : Z;
  num_credit_only_signed_accounts : Z;
  num_credit_only_unsigned_accounts : Z
}.

Record Message := mkMessage {
  header : MessageHeader;
  account_keys : list Pubkey;
  recent_blockhash : Hash;
  instructions : list CompiledInstruction
}.

Definition new_with_compiled_instructions (num_required num_cos num_cou : Z)
    (keys : list Pubkey) (blockhash : Hash) (ixs : list CompiledInstruction) : Message :=
  mkMessage (mkMessageHeader num_required num_cos num_cou) keys blockhash ixs.

Definition new_with_payer {E} (ixs : list Instruction) (payer : option Pubkey) : res E Message :=
  let ik := get_keys ixs payer in
  let num_required := Z.of_nat (length ik.(signed_keys)) mod two8 in
  let keys := ik.(signed_keys) ++ ik.(unsigned_keys) in
  compiled ← compile_instructions ixs keys;
  Ok (new_with_compiled_instructions num_required ik.(ik_num_credit_only_signed_accounts)
        ik.(ik_num_credit_only_unsigned_accounts) keys Hash_default compiled).

Definition new {E} (ixs : list Instruction) : res E Message := new_with_payer ixs None.

Definition program_ids {E} (m : Message) : res E (list Pubkey) :=
  mapR (λ ix, program_id ix m.(account_keys)) m.(instructions).

Definition program_position {E} (m : Message) (index : nat) : res E (option nat) :=
  ids ← program_ids m;
  match ids with
  | [] => Ok None
  | _ => k ← unwrap (m.(account_keys) !! index); Ok (find_position ids k)
  end.

Definition is_credit_debit (m : Message) (i : nat) : bool :=
  (Z.of_nat i <? u8_sub m.(header).(num_required_signatures)
                   m.(header).(num_credit_only_signed_accounts))
  || ((m.(header).(num_required_signatures) <=? Z.of_nat i)
      && (Z.of_nat i <? u64_sub (Z.of_nat (length m.(account_keys)))
                          m.(header).(num_credit_only_unsigned_accounts))).

Definition get_account_keys_by_lock_type (m : Message) : list Pubkey * list Pubkey :=
  let tagged := imap (λ i k, (is_credit_debit m i, k)) m.(account_keys) in
  (snd <$> filter (λ p, p.1 = true) tagged, snd <$> filter (λ p, p.1 = false) tagged).

End message.

Module fee_calculator.
Import message.
Record FeeCalculator := mkFeeCalculator { difs_per_signature : Z }.
Definition calculate_fee (f : FeeCalculator) (m : Message) : Z :=
  u64_mul f.(difs_per_signature) m.(header).(num_required_signatures).
End fee_calculator.

Module transaction.
Import message.

Record Transaction := mkTransaction { signatures : list Signature; tx_message : Message }.

Definition Signature_default : Signature := replicate 64 0.

Definition new_unsigned (m : Message) : Transaction :=
  mkTransaction (replicate (Z.to_nat m.(header).(num_required_signatures)) Signature_default) m.

Definition key_index (tx : Transaction) (instruction_index accounts_index : nat) : option nat :=
  ix ← tx.(tx_message).(instructions) !! instruction_index;
  i ← ix.(ci_accounts) !! accounts_index;
  Some (Z.to_nat i).

Definition tx_key (tx : Transaction) (instruction_index accounts_index : nat) : option Pubkey :=
  i ← key_index tx instruction_index accounts_index;
  tx.(tx_message).(account_keys) !! i.

Definition tx_signer_key (tx : Transaction) (instruction_index accounts_index : nat)
    : option Pubkey :=
  match key_index tx instruction_index accounts_index with
  | None => None
  | Some i =>
      if (length tx.(signatures) <=? i)%nat then None else tx.(tx_message).(account_keys) !! i
  end.

Definition is_signed (tx : Transaction) : bool :=
  forallb (λ s, negb (bool_decide (s = Signature_default))) tx.(signatures).

Definition verify_refs (tx : Transaction) : bool :=
  let n := Z.of_nat (length tx.(tx_message).(account_keys)) in
  forallb (λ ix, (ix.(program_ids_index) <? n) && forallb (λ i, i <? n) ix.(ci_accounts))
    tx.(tx_message).(instructions).

(** Signing: the keypair type and its signature scheme are the signature
    crate's. *)
Section Signing.
Context {K : Type} (kp_pubkey : K → Pubkey) (sign_message : K → list Z → Signature).
Context `{Bincode Message}.

Definition with_blockhash (h : Hash) (m : Message) : Message :=
  mkMessage m.(header) m.(account_keys) h m.(instructions).

Definition message_data (tx : Transaction) : list Z := serialize tx.(tx_message).

Definition sign_unchecked (keypairs : list K) (blockhash : Hash) (tx : Transaction)
    : Transaction :=
  let m := with_blockhash blockhash tx.(tx_message) in
  mkTransaction ((λ k, sign_message k (serialize m)) <$> keypairs) m.

(** [&self.message.account_keys[0..num_required_signatures as usize]] *)
Definition required_keys {E} (tx : Transaction) : res E (list Pubkey) :=
  let n := Z.to_nat tx.(tx_message).(header).(num_required_signatures) in
  if (n <=? length tx.(tx_message).(account_keys))%nat
  then Ok (take n tx.(tx_message).(account_keys))
  else Panic.

Definition sign {E} (keypairs : list K) (blockhash : Hash) (tx : Transaction)
    : res E Transaction :=
  keys ← required_keys tx;
  if bool_decide (kp_pubkey <$> keypairs = keys)
  then Ok (sign_unchecked keypairs blockhash tx)
  else Panic.

Definition sign_one {E} (keys : list Pubkey) (tx : Transaction) (k : K) : res E Transaction :=
  i ← unwrap (find_position keys (kp_pubkey k));
  if (i <? length tx.(signatures))%nat
  then Ok (mkTransaction (<[i := sign_message k (message_data tx)]> tx.(signatures))
             tx.(tx_message))
  else Panic.

Fixpoint sign_each {E} (keys : list Pubkey) (tx : Transaction) (keypairs : list K)
    : res E Transaction :=
  match keypairs with
  | [] => Ok tx
  | k :: ks => tx' ← sign_one keys tx k; sign_each keys tx' ks
  end.

Definition partial_sign {E} (keypairs : list K) (blockhash : Hash) (tx : Transaction)
    : res E Transaction :=
  keys ← required_keys tx;
  let tx' :=
    if negb (blockhash =? tx.(tx_message).(recent_blockhash))
    then mkTransaction ((λ _, Signature_default) <$> tx.(signatures))
           (with_blockhash blockhash tx.(tx_message))
    else tx in
  sign_each keys tx' keypairs.
End Signing.
End transaction.

(** * Correctness of the compilation *)

Module message_proofs.
Import message transaction.

Lemma find_position_Some keys k i : find_position keys k = Some i → keys !! i = Some k.
Proof.
  revert i. induction keys as [|k' keys IH]; intros i; [done|]. cbn.
  destruct (Z.eqb_spec k' k) as [->|]; [by intros [= <-]|].
  destruct (find_position keys k); [|done]. intros [= <-]. cbn. by apply IH.
Qed.

Lemma find_position_elem keys k : k ∈ keys → is_Some (find_position keys k).
Proof.
  induction keys as [|k' keys IH]; [by intros ?%not_elem_of_nil|].
  intros Hk. cbn. destruct (Z.eqb_spec k' k) as [|Hne]; [eauto|].
  apply elem_of_cons in Hk as [->|Hk]; [done|].
  destruct (IH Hk) as [j ->]. eauto.
Qed.

(** With at most 256 keys an index fits in the [u8]. *)
Lemma position_spec {E} keys k : (length keys ≤ 256)%nat → k ∈ keys →
  ∃ i, @position E keys k = Ok (Z.of_nat i) ∧ keys !! i = Some k.
Proof.
  intros Hlen Hk. destruct (find_position_elem keys k Hk) as [i Hi].
  exists i. unfold position. rewrite Hi. cbn. apply find_position_Some in Hi as Hl.
  apply lookup_lt_Some in Hl as Hlt. rewrite Z.mod_small by lia. done.
Qed.

Lemma mapR_spec {E A B} (f : A → res E B) (P : A → B → Prop) l :
  (∀ x, x ∈ l → ∃ y, f x = Ok y ∧ P x y) → ∃ ys, mapR f l = Ok ys ∧ Forall2 P l ys.
Proof.
  induction l as [|x l IH]; intros Hf; [by exists []|].
  destruct (Hf x) as (y & Hy & HP); [set_solver|].
  destruct IH as (ys & Hys & HPs); [set_solver|].
  exists (y :: ys). cbn. rewrite Hy. cbn. rewrite Hys. split; [done|by constructor].
Qed.

(** ** Sorting *)

Definition rank_le (x y : AccountMeta) : Prop := (meta_rank x ≤ meta_rank y)%nat.

Lemma insert_meta_perm x l : insert_meta x l ≡ₚ x :: l.
Proof.
  induction l as [|y l IH]; [done|]. cbn. case_match; [done|].
  rewrite IH. apply Permutation_swap.
Qed.

Lemma sort_metas_perm l : sort_metas l ≡ₚ l.
Proof. induction l as [|x l IH]; [done|]. cbn. by rewrite insert_meta_perm, IH. Qed.

Lemma insert_meta_sorted x l : StronglySorted rank_le l → StronglySorted rank_le (insert_meta x l).
Proof.
  induction 1 as [|y l Hs IH Hf]; cbn; [by repeat constructor|].
  destruct (Nat.leb_spec (meta_rank x) (meta_rank y)) as [Hle|Hlt].
  - constructor; [by constructor|]. constructor; [done|].
    eapply Forall_impl; [exact Hf|]. unfold rank_le. intros. lia.
  - constructor; [done|]. rewrite insert_meta_perm. constructor; [unfold rank_le; lia|done].
Qed.

Lemma sort_metas_sorted l : StronglySorted rank_le (sort_metas l).
Proof. induction l as [|x l IH]; [constructor|]. cbn. by apply insert_meta_sorted. Qed.

(** ** Unique keys *)

Lemma unique_not_seen seen l m : m ∈ unique_by_pubkey seen l → am_pubkey m ∉ seen.
Proof.
  revert seen. induction l as [|x l IH]; intros seen; cbn; [by intros ?%not_elem_of_nil|].
  case_bool_decide; [by apply IH|].
  intros [->|Hm]%elem_of_cons; [done|]. apply IH in Hm. set_solver.
Qed.

Lemma unique_incl seen l m : m ∈ unique_by_pubkey seen l → m ∈ l.
Proof.
  revert seen. induction l as [|x l IH]; intros seen; cbn; [done|].
  case_bool_decide; [intros ?%IH; set_solver|].
  intros [->|Hm%IH]%elem_of_cons; set_solver.
Qed.

Lemma unique_NoDup seen l : NoDup (am_pubkey <$> unique_by_pubkey seen l).
Proof.
  revert seen. induction l as [|x l IH]; intros seen; cbn; [constructor|].
  case_bool_decide; [apply IH|]. cbn. constructor; [|apply IH].
  intros (m & Hk & Hm)%list_elem_of_fmap. apply unique_not_seen in Hm. set_solver.
Qed.

Lemma unique_complete seen l k :
  k ∈ am_pubkey <$> l → k ∈ seen ∨ k ∈ am_pubkey <$> unique_by_pubkey seen l.
Proof.
  revert seen. induction l as [|x l IH]; intros seen; cbn; [by intros ?%not_elem_of_nil|].
  intros [->|Hk]%elem_of_cons; case_bool_decide; cbn; [by left|set_solver|by apply IH|].
  destruct (IH (am_pubkey x :: seen) Hk); set_solver.
Qed.

(** The meta kept for a key has the least rank of all its metas. *)
Lemma unique_min seen l m m' : StronglySorted rank_le l →
  m ∈ unique_by_pubkey seen l → m' ∈ l → am_pubkey m' = am_pubkey m → rank_le m m'.
Proof.
  intros Hs. revert seen. induction Hs as [|x l Hs IH Hf]; intros seen; cbn;
    [by intros ?%not_elem_of_nil|].
  case_bool_decide as Hx.
  - intros Hm [->|Hm']%elem_of_cons Heq; [|by eapply IH].
    apply unique_not_seen in Hm. congruence.
  - intros [->|Hm]%elem_of_cons [->|Hm']%elem_of_cons Heq.
    + unfold rank_le. lia.
    + rewrite Forall_forall in Hf. auto.
    + apply unique_not_seen in Hm. set_solver.
    + by eapply IH.
Qed.

(** ** The key table *)

Definition get_metas (ixs : list Instruction) (payer : option Pubkey) : list AccountMeta :=
  match payer with
  | Some p => mkAccountMeta p true true :: sort_metas (all_metas ixs)
  | None => sort_metas (all_metas ixs)
  end.

Lemma get_metas_sorted ixs payer : StronglySorted rank_le (get_metas ixs payer).
Proof.
  destruct payer; cbn; [|apply sort_metas_sorted].
  constructor; [apply sort_metas_sorted|]. apply Forall_forall. intros. unfold rank_le. cbn. lia.
Qed.

Lemma collect_keys_spec l ik :
  signed_keys (foldl collect_key ik l) =
    signed_keys ik ++ (am_pubkey <$> filter (λ m, am_is_signer m = true) l) ∧
  unsigned_keys (foldl collect_key ik l) =
    unsigned_keys ik ++ (am_pubkey <$> filter (λ m, am_is_signer m = false) l).
Proof.
  revert ik. induction l as [|m l IH]; intros ik; cbn [foldl].
  - cbn. by rewrite !app_nil_r.
  - destruct (IH (collect_key ik m)) as [-> ->].
    unfold collect_key. rewrite !filter_cons.
    destruct (am_is_signer m) eqn:Hs.
    + rewrite decide_True, decide_False by congruence. cbn. by rewrite <- app_assoc.
    + rewrite decide_False, decide_True by congruence. cbn. by rewrite <- app_assoc.
Qed.

Lemma filter_signer_perm (l : list AccountMeta) :
  filter (λ m, am_is_signer m = true) l ++ filter (λ m, am_is_signer m = false) l ≡ₚ l.
Proof.
  induction l as [|m l IH]; [done|]. rewrite !filter_cons.
  destruct (am_is_signer m) eqn:Hs.
  - rewrite decide_True, decide_False by congruence. cbn. by rewrite IH.
  - rewrite decide_False, decide_True by congruence.
    rewrite <- Permutation_middle. by rewrite IH.
Qed.

Definition table (ixs : list Instruction) (payer : option Pubkey) : list Pubkey :=
  signed_keys (get_keys ixs payer) ++ unsigned_keys (get_keys ixs payer).

Lemma table_perm ixs payer :
  table ixs payer ≡ₚ am_pubkey <$> unique_by_pubkey [] (get_metas ixs payer).
Proof.
  unfold table, get_keys. fold (get_metas ixs payer).
  destruct (collect_keys_spec (unique_by_pubkey [] (get_metas ixs payer))
              (mkInstructionKeys [] [] 0 0)) as [-> ->]. cbn.
  rewrite <- fmap_app. by rewrite filter_signer_perm.
Qed.

Lemma table_NoDup ixs payer : NoDup (table ixs payer).
Proof. rewrite table_perm. apply unique_NoDup. Qed.

Lemma table_complete ixs payer m : m ∈ all_metas ixs → am_pubkey m ∈ table ixs payer.
Proof.
  intros Hm. rewrite table_perm.
  destruct (unique_complete [] (get_metas ixs payer) (am_pubkey m)) as [H|H]; [|set_solver|done].
  apply list_elem_of_fmap_2. destruct payer; cbn; [apply elem_of_cons; right|];
    by rewrite sort_metas_perm.
Qed.

Lemma unique_from_complete seen l k : k ∈ l → k ∈ seen ∨ k ∈ unique_from seen l.
Proof.
  revert seen. induction l as [|x l IH]; intros seen; cbn; [by intros ?%not_elem_of_nil|].
  intros [->|Hk]%elem_of_cons; case_bool_decide; cbn; [by left|set_solver|by apply IH|].
  destruct (IH (x :: seen) Hk); set_solver.
Qed.

Lemma account_meta_in_all ixs ix m : ix ∈ ixs → m ∈ ix_accounts ix → m ∈ all_metas ixs.
Proof.
  intros Hix Hm. unfold all_metas. apply elem_of_app. left.
  apply list_elem_of_join. exists (ix_accounts ix). split; [done|]. by apply list_elem_of_fmap_2.
Qed.

Lemma program_in_table ixs payer ix : ix ∈ ixs → ix_program_id ix ∈ table ixs payer.
Proof.
  intros Hix.
  apply (table_complete ixs payer (mkAccountMeta (ix_program_id ix) false false)).
  unfold all_metas. apply elem_of_app. right. apply list_elem_of_fmap.
  exists (ix_program_id ix). split; [done|].
  destruct (unique_from_complete [] (ix_program_id <$> ixs) (ix_program_id ix)); [|set_solver|done].
  by apply list_elem_of_fmap_2.
Qed.

(** A compiled instruction stands for an instruction in a key table. *)
Definition resolves (keys : list Pubkey) (ix : Instruction) (ci : CompiledInstruction) : Prop :=
  keys !! Z.to_nat (program_ids_index ci) = Some (ix_program_id ix) ∧
  (0 ≤ program_ids_index ci) ∧
  Forall2 (λ m i, 0 ≤ i ∧ keys !! Z.to_nat i = Some (am_pubkey m)) (ix_accounts ix)
    (ci_accounts ci) ∧
  ci_data ci = ix_data ix.

Lemma compile_instruction_spec {E} keys ix : (length keys ≤ 256)%nat →
  ix_program_id ix ∈ keys → (∀ m, m ∈ ix_accounts ix → am_pubkey m ∈ keys) →
  ∃ ci, @compile_instruction E ix keys = Ok ci ∧ resolves keys ix ci.
Proof.
  intros Hlen Hp Hm. unfold compile_instruction.
  destruct (mapR_spec (E:=E) (λ m, position keys (am_pubkey m))
    (λ m i, 0 ≤ i ∧ keys !! Z.to_nat i = Some (am_pubkey m)) (ix_accounts ix))
    as (idxs & -> & Hidx).
  { intros m Hin. destruct (position_spec (E:=E) keys (am_pubkey m) Hlen) as (i & -> & Hi); [auto|].
    eexists. split; [done|]. rewrite Nat2Z.id. split; [lia|done]. }
  cbn. destruct (position_spec (E:=E) keys _ Hlen Hp) as (i & -> & Hi). cbn.
  eexists. split; [done|]. unfold resolves. cbn. rewrite Nat2Z.id. split_and!; auto. lia.
Qed.

Lemma resolves_in_range keys ix ci : resolves keys ix ci →
  (program_ids_index ci <? Z.of_nat (length keys)) &&
  forallb (λ i, i <? Z.of_nat (length keys)) (ci_accounts ci) = true.
Proof.
  intros (Hp & Hp0 & Ha & _). apply lookup_lt_Some in Hp.
  apply andb_true_intro. split; [lia|]. apply forallb_forall.
  intros i Hi%list_elem_of_In. apply list_elem_of_lookup in Hi as [j Hj].
  destruct (Forall2_lookup_r _ _ _ _ _ Ha Hj) as (m & _ & Hi0 & Hl).
  apply lookup_lt_Some in Hl. lia.
Qed.


(** ** Signers *)

Lemma rank_signer m : am_is_signer m = true ↔ (meta_rank m ≤ 1)%nat.
Proof. unfold meta_rank. destruct (am_is_signer m), (am_is_debitable m); split; intros; (done || lia). Qed.

Definition requires_signature (ixs : list Instruction) (payer : option Pubkey) (k : Pubkey) : Prop :=
  payer = Some k ∨ ∃ ix m, ix ∈ ixs ∧ m ∈ ix_accounts ix ∧ am_pubkey m = k ∧ am_is_signer m = true.

Lemma get_metas_signer ixs payer k :
  (∃ m, m ∈ get_metas ixs payer ∧ am_pubkey m = k ∧ am_is_signer m = true) ↔
  requires_signature ixs payer k.
Proof.
  assert (Hall : ∀ m, m ∈ all_metas ixs → am_is_signer m = true →
    ∃ ix, ix ∈ ixs ∧ m ∈ ix_accounts ix).
  { unfold all_metas. intros m [Hm|Hm]%elem_of_app Hs.
    - apply list_elem_of_join in Hm as (l & Hm & Hl). apply list_elem_of_fmap in Hl as (ix & -> & Hix).
      eauto.
    - apply list_elem_of_fmap in Hm as (p & -> & _). done. }
  unfold requires_signature. split.
  - intros (m & Hm & <- & Hs). destruct payer as [p|]; cbn in Hm.
    + apply elem_of_cons in Hm as [->|Hm]; [by left|]. rewrite sort_metas_perm in Hm.
      right. destruct (Hall m Hm Hs) as (ix & ? & ?). eauto 6.
    + rewrite sort_metas_perm in Hm. right. destruct (Hall m Hm Hs) as (ix & ? & ?). eauto 6.
  - intros [->|(ix & m & Hix & Hm & <- & Hs)].
    + exists (mkAccountMeta k true true). cbn. split; [by left|done].
    + exists m. split; [|done]. pose proof (account_meta_in_all _ _ _ Hix Hm) as Ha.
      destruct payer; cbn; [apply elem_of_cons; right|]; by rewrite sort_metas_perm.
Qed.

Lemma signed_keys_spec ixs payer k :
  k ∈ signed_keys (get_keys ixs payer) ↔ requires_signature ixs payer k.
Proof.
  rewrite <- get_metas_signer. unfold get_keys. fold (get_metas ixs payer).
  destruct (collect_keys_spec (unique_by_pubkey [] (get_metas ixs payer))
              (mkInstructionKeys [] [] 0 0)) as [-> _]. cbn. split.
  - intros (m & -> & [Hs Hm]%list_elem_of_filter)%list_elem_of_fmap.
    exists m. apply unique_incl in Hm. done.
  - intros (m & Hm & <- & Hs).
    destruct (unique_complete [] (get_metas ixs payer) (am_pubkey m)) as [Hn|Hu];
      [by apply list_elem_of_fmap_2|set_solver|].
    apply list_elem_of_fmap in Hu as (u & Hk & Hu). rewrite Hk. apply list_elem_of_fmap_2.
    apply list_elem_of_filter. split; [|done].
    pose proof (unique_min [] _ u m (get_metas_sorted ixs payer) Hu Hm Hk) as Hle.
    apply rank_signer in Hs. apply rank_signer. unfold rank_le in Hle. lia.
Qed.

Lemma payer_first ixs p : ∃ rest, signed_keys (get_keys ixs (Some p)) = p :: rest.
Proof.
  unfold get_keys. set (l := unique_by_pubkey _ _).
  destruct (collect_keys_spec l (mkInstructionKeys [] [] 0 0)) as [-> _].
  subst l. cbn. eauto.
Qed.

(** The signers of a compiled message are exactly the first
    [num_required_signatures] keys of its table: the payer, which comes first,
    and every key that some instruction marks as a signer. *)
Theorem compile_signers_first {E} ixs payer m
    (Hsmall : (length (table ixs payer) ≤ 255)%nat)
    (Hm : @new_with_payer E ixs payer = Ok m) :
  (∀ p, payer = Some p → account_keys m !! 0%nat = Some p) ∧
  (∀ i k, account_keys m !! i = Some k →
    (Z.of_nat i < num_required_signatures (header m) ↔ requires_signature ixs payer k)).
Proof.
  unfold new_with_payer in Hm. fold (table ixs payer) in Hm.
  destruct (compile_instructions ixs (table ixs payer)) as [cis|e|]; [|done..].
  injection Hm as <-. cbn.
  assert (Hlen : (length (signed_keys (get_keys ixs payer)) ≤ 255)%nat).
  { unfold table in Hsmall. rewrite length_app in Hsmall. lia. }
  rewrite Z.mod_small by lia. split.
  - intros p ->. unfold table. by destruct (payer_first ixs p) as [rest ->].
  - intros i k Hi. rewrite <- signed_keys_spec. split.
    + intros Hlt. unfold table in Hi. rewrite lookup_app_l in Hi by lia.
      by eapply list_elem_of_lookup_2.
    + intros [j Hj]%list_elem_of_lookup_1. apply lookup_lt_Some in Hj as Hlt.
      assert (table ixs payer !! j = Some k) as Hj' by (by apply lookup_app_l_Some).
      replace i with j; [lia|]. eapply NoDup_lookup; eauto using table_NoDup.
Qed.

Definition demo_ixs : list Instruction :=
  [mkInstruction 50 [mkAccountMeta 7 true false; mkAccountMeta 8 false true] [1; 2];
   mkInstruction 51 [mkAccountMeta 8 true true; mkAccountMeta 50 false false] [3]].


Lemma compile_signers_first_witness : ∃ m,
  @new_with_payer unit demo_ixs (Some 9) = Ok m ∧
  (Z.of_nat 2 < num_required_signatures (header m) ↔ requires_signature demo_ixs (Some 9) 7).
Proof.
  eexists. split; [vm_compute; reflexivity|].
  edestruct (compile_signers_first (E:=unit) demo_ixs (Some 9)) as (_ & Hs);
    [vm_compute; lia|vm_compute; reflexivity|].
  exact (Hs 2%nat 7 eq_refl).
Defined.

End message_proofs.

(** * Signing in parts *)

Module signing_proofs.
Import message transaction message_proofs.

Section Signing.
Context {K : Type} (kp_pubkey : K → Pubkey) (sign_message : K → list Z → Signature).
Context `{Bincode Message}.

Lemma sign_each_spec {E} keys ks : ∀ tx,
  NoDup keys → NoDup (kp_pubkey <$> ks) → length (signatures tx) = length keys →
  (∀ k, k ∈ ks → kp_pubkey k ∈ keys) →
  ∃ sigs, @sign_each K kp_pubkey sign_message _ E keys tx ks = Ok (mkTransaction sigs (tx_message tx)) ∧
    length sigs = length keys ∧
    ∀ i key, keys !! i = Some key →
      (∀ k, k ∈ ks → kp_pubkey k = key → sigs !! i = Some (sign_message k (message_data tx))) ∧
      ((∀ k, k ∈ ks → kp_pubkey k ≠ key) → sigs !! i = signatures tx !! i).
Proof.
  induction ks as [|k ks IH]; intros tx Hkeys Hks Hlen Hin.
  { exists (signatures tx). destruct tx. cbn in *. split_and!; [done..|].
    intros i key Hi. split; [|done]. intros k Hk. by apply not_elem_of_nil in Hk. }
  apply NoDup_cons in Hks as [Hk Hks].
  destruct (find_position_elem keys (kp_pubkey k)) as [p Hp]; [apply Hin; set_solver|].
  apply find_position_Some in Hp as Hl. apply lookup_lt_Some in Hl as Hlt.
  assert (Hltb : (p <? length (signatures tx))%nat = true) by (apply Nat.ltb_lt; lia).
  cbn [sign_each]. unfold sign_one. rewrite Hp. unfold_monad. cbn [unwrap].
  rewrite Hltb. set (tx1 := mkTransaction _ _).
  destruct (IH tx1) as (sigs & -> & Hsl & Hs); [done|done| | |].
  { cbn. by rewrite length_insert. }
  { intros k' Hk'. apply Hin. set_solver. }
  exists sigs. split_and!; [done..|]. intros i key Hi. destruct (Hs i key Hi) as [Hs1 Hs2].
  assert (Hdup : ∀ k', k' ∈ ks → kp_pubkey k' ≠ kp_pubkey k).
  { intros k' Hk' Heq. apply Hk. rewrite <- Heq. by apply list_elem_of_fmap_2. }
  split.
  - intros k' [->|Hk']%elem_of_cons Heq; [|by apply Hs1].
    rewrite Hs2 by (intros ? ?%Hdup; congruence). cbn.
    assert (p = i) as -> by (apply (NoDup_lookup keys p i key); congruence).
    apply list_lookup_insert_eq. rewrite Hlen. by eapply lookup_lt_Some.
  - intros Hno. rewrite Hs2 by (intros; apply Hno; set_solver). cbn.
    apply list_lookup_insert_ne. intros ->. apply (Hno k); [set_solver|congruence].
Qed.

(** Signing a transaction in parts is signing it at once: handing the
    required keypairs to [partial_sign] in any order gives the transaction that
    [sign] gives. *)
Theorem partial_sign_completes {E} m h keypairs keypairs' tx
    (Hdup : NoDup (account_keys m)) (Hperm : keypairs' ≡ₚ keypairs)
    (Hsign : @sign K kp_pubkey sign_message _ E keypairs h (new_unsigned m) = Ok tx) :
  @partial_sign K kp_pubkey sign_message _ E keypairs' h (new_unsigned m) = Ok tx.
Proof.
  unfold sign in Hsign. unfold partial_sign. destruct (required_keys _) as [keys|e|] eqn:Hk; [|done..].
  cbn in *. case_bool_decide as Heq; [|done]. injection Hsign as <-.
  unfold required_keys in Hk. cbn in Hk. case_match eqn:Hn; [|done]. injection Hk as <-.
  apply Nat.leb_le in Hn. set (n := Z.to_nat (num_required_signatures (header m))) in *.
  assert (Hnd : NoDup (take n (account_keys m))).
  { eapply sublist_NoDup; [exact Hdup|apply sublist_take]. }
  set (tx0 := if negb _ then _ else _).
  assert (Htx0 : tx0 = mkTransaction (replicate n Signature_default) (with_blockhash h m)).
  { subst tx0. destruct (Z.eqb_spec h (recent_blockhash m)) as [->|]; cbn.
    - unfold new_unsigned, with_blockhash. by destruct m.
    - by rewrite fmap_replicate. }
  destruct (sign_each_spec (E:=E) (take n (account_keys m)) keypairs' tx0) as (sigs & -> & Hl & Hs).
  - done.
  - by rewrite Hperm, Heq.
  - rewrite Htx0. cbn. rewrite length_replicate, length_take. lia.
  - intros k Hk. rewrite <- Heq. apply list_elem_of_fmap_2. by rewrite <- Hperm.
  - rewrite Htx0. unfold sign_unchecked. cbn. f_equal. f_equal. apply list_eq. intros i.
    destruct (keypairs !! i) as [k|] eqn:Hki.
    + rewrite list_lookup_fmap, Hki. cbn.
      destruct (Hs i (kp_pubkey k)) as [Hs1 _].
      { rewrite <- Heq, list_lookup_fmap, Hki. done. }
      rewrite (Hs1 k); [by rewrite Htx0| |done].
      rewrite Hperm. by eapply list_elem_of_lookup_2.
    + rewrite list_lookup_fmap, Hki. cbn. apply lookup_ge_None.
      rewrite Hl, <- Heq, length_fmap. by apply lookup_ge_None.
Qed.
End Signing.

Definition demo_message : Message :=
  mkMessage (mkMessageHeader 2 0 1) [9; 8; 50] 0 [mkCompiledInstruction 2 [0; 1] [4]].
#[local] Instance demo_message_bincode : Bincode Message := {|
  serialize m := recent_blockhash m :: account_keys m;
  deserialize _ := None;
  serialize_into _ buf := (Some OtherBincodeError, buf)
|}.
Definition demo_sign (k : Z) (msg : list Z) : list Z := k :: msg.

Lemma partial_sign_completes_witness :
  @partial_sign Z id demo_sign _ unit [8; 9] 77 (new_unsigned demo_message) =
  Ok (mkTransaction [[9; 77; 9; 8; 50]; [8; 77; 9; 8; 50]] (with_blockhash 77 demo_message)).
Proof.
  apply (partial_sign_completes id demo_sign (E:=unit) demo_message 77 [9; 8] [8; 9]).
  - apply (bool_decide_unpack _). vm_compute. exact I.
  - apply Permutation_swap.
  - vm_compute. reflexivity.
Defined.

End signing_proofs.
