(* ===== verification/MessageProcessor.v ===== *)
(** * The message processor

    runtime/src/message_processor.rs (dispatch of the instructions of a message
    to their programs and the checks on what a program did) and
    runtime/src/native_loader.rs (the loader of native programs).

    A program is an arbitrary function: the theorems hold for every program. *)

From S2P Require Import Prelude Interface Codec Message SystemProgram.

Module message_processor.
Import message.

(** [xs[i..].contains(&xs[i - 1])] for some [i] *)
Fixpoint has_duplicates {A} `{EqDecision A} (xs : list A) : bool :=
  match xs with
  | [] => false
  | x :: xs' => bool_decide (x ∈ xs') || has_duplicates xs'
  end.

Definition get_subset_unchecked_mut {A} (xs : list A) (indexes : list Z)
    : res InstructionError (list A) :=
  if has_duplicates indexes
  then Err DuplicateAccountIndex
  else mapR (λ i, unwrap (xs !! Z.to_nat i)) indexes.

(** The references of [get_subset_unchecked_mut] point into the slice: what is
    written through them is in the slice afterwards. *)
Fixpoint write_subset {A} (xs : list A) (indexes : list Z) (ys : list A) : list A :=
  match indexes, ys with
  | i :: indexes', y :: ys' => write_subset (<[Z.to_nat i := y]> xs) indexes' ys'
  | _, _ => xs
  end.

Definition verify_instruction (program_id pre_program_id : Pubkey) (pre_difs : Z)
    (pre_data : list Z) (a : Account) : res InstructionError unit :=
  if negb (pre_program_id =? a.(owner)) && negb (system_program.check_id program_id)
  then Err ModifiedProgramId
  else if negb (program_id =? a.(owner)) && (a.(difs) <? pre_difs)
  then Err ExternalAccountDifSpend
  else if negb (program_id =? a.(owner)) && negb (system_program.check_id program_id)
          && negb (bool_decide (pre_data = a.(data)))
  then Err ExternalAccountDataModified
  else Ok tt.

(** A program: it gets its id, the keyed accounts, the instruction data and the
    tick height, and gives back a result and the new value of every account it
    was handed. *)
Definition ProcessInstruction : Type :=
  Pubkey → list KeyedAccount → list Z → Z → res InstructionError unit * list Account.

Definition SymbolCache : Type := gmap (list Z) ProcessInstruction.

(** [KeyedAccount]s hold mutable references: the accounts behind them are
    replaced in place, so there are as many of them as before. *)
Fixpoint write_back (old new : list Account) : list Account :=
  match old, new with
  | _ :: old', n :: new' => n :: write_back old' new'
  | _, _ => old
  end.

(** The system program as a static processor. *)
Definition system_processor `{Bincode system_instruction.SystemInstruction} : ProcessInstruction :=
  λ _ ks ix _,
    let '(r, ks') := system_instruction_processor.process_instruction ix ks in
    (r, account <$> ks').

End message_processor.

Module native_loader_program.
Import message_processor.

Inductive LoaderInstruction :=
| Write (offset : Z) (bytes : list Z)
| Finalize.

Definition is_cont (b : Z) : bool := (128 <=? b) && (b <=? 191).
Definition between (lo hi b : Z) : bool := (lo <=? b) && (b <=? hi).

(** [str::from_utf8(bytes).is_ok()] *)
Fixpoint utf8_valid (l : list Z) : bool :=
  match l with
  | [] => true
  | a :: l1 =>
      if between 0 127 a then utf8_valid l1
      else match l1 with
           | b :: l2 =>
               if between 194 223 a && is_cont b then utf8_valid l2
               else match l2 with
                    | c :: l3 =>
                        if ((a =? 224) && between 160 191 b
                            || between 225 236 a && is_cont b
                            || (a =? 237) && between 128 159 b
                            || between 238 239 a && is_cont b) && is_cont c
                        then utf8_valid l3
                        else match l3 with
                             | d :: l4 =>
                                 ((a =? 240) && between 144 191 b
                                  || between 241 243 a && is_cont b
                                  || (a =? 244) && between 128 143 b)
                                 && is_cont c && is_cont d && utf8_valid l4
                             | [] => false
                             end
                    | [] => false
                    end
           | [] => false
           end
  end.

Section Loader.
(** The dynamic linker: [None] when no library has that name, [Some None] when
    the library does not export the entry point. *)
Context (open_library : list Z → option (option ProcessInstruction)).
Context `{Bincode LoaderInstruction}.

(** [native_loader::entrypoint] *)
Definition entrypoint (cache : SymbolCache) (program_id : Pubkey)
    (keyed_accounts : list KeyedAccount) (ix : list Z) (tick_height : Z)
    : res InstructionError unit * list Account * SymbolCache :=
  let same := account <$> keyed_accounts in
  match keyed_accounts with
  | [] => (Panic, same, cache)
  | k0 :: params =>
      if k0.(account).(executable) then
        let name_vec := k0.(account).(data) in
        let run (ep : ProcessInstruction) :=
          let '(r, new) := ep program_id params ix tick_height in
          (r, k0.(account) :: write_back (account <$> params) new) in
        match cache !! name_vec with
        | Some ep => let '(r, accs) := run ep in (r, accs, cache)
        | None =>
            if negb (utf8_valid name_vec) then (Err GenericError, same, cache)
            else match open_library name_vec with
                 | Some (Some ep) =>
                     let '(r, accs) := run ep in (r, accs, <[name_vec := ep]> cache)
                 | _ => (Err GenericError, same, cache)
                 end
        end
      else match deserialize (A:=LoaderInstruction) ix with
           | None => (Err GenericError, same, cache)
           | Some instruction =>
               match signer_key k0 with
               | None => (Err GenericError, same, cache)
               | Some _ =>
                   match instruction with
                   | Write offset bytes =>
                       if Z.of_nat (length k0.(account).(data))
                          <? u64_add offset (Z.of_nat (length bytes))
                       then (Err GenericError, same, cache)
                       else (Ok tt, with_data bytes k0.(account) :: (account <$> params), cache)
                   | Finalize =>
                       (Ok tt, with_executable true k0.(account) :: (account <$> params), cache)
                   end
               end
           end
  end.
End Loader.
End native_loader_program.

Module processor.
Import message message_processor native_loader_program.

Section Processor.
Context (open_library : list Z → option (option ProcessInstruction)).
Context `{Bincode LoaderInstruction}.
(** [MessageProcessor::instruction_processors] *)
Context (instruction_processors : list (Pubkey * ProcessInstruction)).

Definition find_processor (p : Pubkey) : option ProcessInstruction :=
  snd <$> List.find (λ '(i, _), i =? p) instruction_processors.

(** [(key, index < num_required_signatures)] for every account index *)
Definition keys_and_signers (m : Message) (ix : CompiledInstruction)
    : res InstructionError (list (Pubkey * bool)) :=
  mapR (λ i, k ← unwrap (m.(account_keys) !! Z.to_nat i);
             Ok (k, i <? m.(header).(num_required_signatures))) ix.(ci_accounts).

Record exec_state := mkExec {
  es_cache : SymbolCache;
  es_executable_accounts : list (Pubkey * Account);
  es_program_accounts : list Account
}.

(** Puts the accounts of the concatenated keyed accounts back where they came
    from. *)
Definition split_accounts (cache : SymbolCache) (executable_accounts : list (Pubkey * Account))
    (accs : list Account) : exec_state :=
  mkExec cache
    (zip_with (λ '(k, _) a, (k, a)) executable_accounts
       (take (length executable_accounts) accs))
    (drop (length executable_accounts) accs).

Definition process_instruction (m : Message) (ix : CompiledInstruction) (tick_height : Z)
    (s : exec_state) : res InstructionError unit * exec_state :=
  match program_id (E:=InstructionError) ix m.(account_keys), keys_and_signers m ix with
  | Ok pid, Ok ks =>
      let keyed_accounts :=
        create_keyed_accounts s.(es_executable_accounts) ++
        zip_with (λ '(k, signer) a, KeyedAccount_new k signer a) ks s.(es_program_accounts) in
      match find_processor pid with
      | Some process =>
          match keyed_accounts with
          | [] => (Panic, s)
          | k0 :: rest =>
              let '(r, new) := process pid rest ix.(ci_data) tick_height in
              (r, split_accounts s.(es_cache) s.(es_executable_accounts)
                    (k0.(account) :: write_back (account <$> rest) new))
          end
      | None =>
          let '(r, accs, cache') :=
            entrypoint open_library s.(es_cache) pid keyed_accounts ix.(ci_data) tick_height in
          (r, split_accounts cache' s.(es_executable_accounts) accs)
      end
  | _, _ => (Panic, s)
  end.

(** The loop of [verify_instruction] over the zipped accounts. *)
Fixpoint verify_all (pid : Pubkey) (pre post : list Account) : res InstructionError unit :=
  match pre, post with
  | a :: pre', b :: post' =>
      verify_instruction pid a.(owner) a.(difs) a.(data) b;;
      verify_all pid pre' post'
  | _, _ => Ok tt
  end.

Definition execute_instruction (m : Message) (ix : CompiledInstruction) (tick_height : Z)
    (s : exec_state) : res InstructionError unit * exec_state :=
  match program_id (E:=InstructionError) ix m.(account_keys) with
  | Ok pid =>
      let pre := s.(es_program_accounts) in
      match process_instruction m ix tick_height s with
      | (Ok _, s') =>
          let post := s'.(es_program_accounts) in
          (verify_all pid pre post;;
           if negb (u64_sum (difs <$> pre) =? u64_sum (difs <$> post))
           then Err UnbalancedInstruction
           else Ok tt, s')
      | (r, s') => (r, s')
      end
  | _ => (Panic, s)
  end.

Record message_state := mkMessageState {
  ms_cache : SymbolCache;
  ms_loaders : list (list (Pubkey * Account));
  ms_accounts : list Account
}.

(** One turn of the loop of [process_message]. *)
Definition process_message_instruction (m : Message) (index : nat) (ix : CompiledInstruction)
    (tick_height : Z) (s : message_state) : res TransactionError unit * message_state :=
  match program_position (E:=TransactionError) m (Z.to_nat ix.(program_ids_index)) with
  | Ok None => (Err InvalidAccountIndex, s)
  | Ok (Some executable_index) =>
      match s.(ms_loaders) !! executable_index with
      | None => (Panic, s)
      | Some executable_accounts =>
          let tx_err {A} (r : res InstructionError A) : res TransactionError A :=
            map_err (TxInstructionError (Z.of_nat index mod two8)) r in
          match tx_err (get_subset_unchecked_mut s.(ms_accounts) ix.(ci_accounts)) with
          | Ok program_accounts =>
              let '(r, s') :=
                execute_instruction m ix tick_height
                  (mkExec s.(ms_cache) executable_accounts program_accounts) in
              (tx_err r,
               mkMessageState s'.(es_cache)
                 (<[executable_index := s'.(es_executable_accounts)]> s.(ms_loaders))
                 (write_subset s.(ms_accounts) ix.(ci_accounts) s'.(es_program_accounts)))
          | Err e => (Err e, s)
          | Panic => (Panic, s)
          end
      end
  | _ => (Panic, s)
  end.

Fixpoint process_instructions (m : Message) (index : nat) (ixs : list CompiledInstruction)
    (tick_height : Z) (s : message_state) : res TransactionError unit * message_state :=
  match ixs with
  | [] => (Ok tt, s)
  | ix :: ixs' =>
      match process_message_instruction m index ix tick_height s with
      | (Ok _, s') => process_instructions m (S index) ixs' tick_height s'
      | (r, s') => (r, s')
      end
  end.

Definition process_message (m : Message) (tick_height : Z) (s : message_state)
    : res TransactionError unit * message_state :=
  process_instructions m 0 m.(instructions) tick_height s.
End Processor.
End processor.

(** * What every program is held to *)

Module processor_proofs.
Import message message_processor native_loader_program processor.

(** What the message processor lets a program do: change what it owns, or give
    difs without touching the data. *)
Lemma verify_accepts pid pre_difs a b :
  owner b = owner a → owner a = pid ∨ pre_difs ≤ difs b ∧ data b = data a →
  verify_instruction pid (owner a) pre_difs (data a) b = Ok tt.
Proof.
  intros Ho Hab. unfold verify_instruction. rewrite Ho, Z.eqb_refl. cbn [negb andb].
  destruct (Z.eqb_spec pid (owner a)) as [->|Hne]; [done|]. destruct Hab as [|[Hle ->]]; [done|].
  cbn [negb andb]. rewrite (proj2 (Z.ltb_ge _ _)), bool_decide_true by done. cbn [negb andb].
  by rewrite andb_false_r.
Qed.

(** ** Duplicates and subsets *)

Lemma has_duplicates_spec {A} `{EqDecision A} (xs : list A) :
  has_duplicates xs = false ↔ NoDup xs.
Proof.
  induction xs as [|x xs IH]; cbn; [split; [constructor|done]|].
  rewrite orb_false_iff, bool_decide_eq_false, IH, NoDup_cons. done.
Qed.

Lemma mapR_Ok {E A B} (f : A → res E B) l ys :
  mapR f l = Ok ys ↔ Forall2 (λ x y, f x = Ok y) l ys.
Proof.
  revert ys. induction l as [|x l IH]; intros ys; cbn.
  - split; [by intros [= <-]|]. by inversion 1.
  - unfold_monad. split.
    + destruct (f x) eqn:Hf; [|done..]. destruct (mapR f l) eqn:Hm; [|done..].
      intros [= <-]. constructor; [done|]. by apply IH.
    + inversion 1 as [|? y ? ys' Hy Hys]; subst. rewrite Hy.
      by rewrite (proj2 (IH ys') Hys).
Qed.

Lemma get_subset_spec {A} (xs : list A) idx ys :
  get_subset_unchecked_mut xs idx = Ok ys →
  NoDup idx ∧ Forall2 (λ i y, xs !! Z.to_nat i = Some y) idx ys.
Proof.
  unfold get_subset_unchecked_mut. destruct (has_duplicates idx) eqn:Hd; [done|].
  intros Hm%mapR_Ok. split; [by apply has_duplicates_spec|].
  eapply Forall2_impl; [exact Hm|]. intros i y. unfold unwrap. cbn.
  destruct (xs !! Z.to_nat i); by intros [= ->].
Qed.

Lemma write_subset_length {A} (xs : list A) idx ys : length (write_subset xs idx ys) = length xs.
Proof.
  revert xs ys. induction idx as [|i idx IH]; intros xs [|y ys]; cbn; try done.
  rewrite IH. apply length_insert.
Qed.

Lemma write_subset_other {A} (xs : list A) idx ys j :
  (∀ i, i ∈ idx → Z.to_nat i ≠ j) → write_subset xs idx ys !! j = xs !! j.
Proof.
  revert xs ys. induction idx as [|i idx IH]; intros xs [|y ys] Hj; cbn; try done.
  rewrite IH by set_solver. apply list_lookup_insert_ne. apply Hj. set_solver.
Qed.

Lemma to_nat_u8_inj i j : is_u8 i → is_u8 j → Z.to_nat i = Z.to_nat j → i = j.
Proof. unfold is_u8. lia. Qed.

(** Facts about a subset that was read are kept by a write at another index. *)
Lemma subset_insert {A} (xs : list A) i y idx ys :
  is_u8 i → Forall is_u8 idx → i ∉ idx →
  Forall2 (λ i y, xs !! Z.to_nat i = Some y) idx ys →
  Forall2 (λ i y, <[Z.to_nat i := y]> xs !! Z.to_nat i = Some y) idx ys ∧
  Forall2 (λ k z, <[Z.to_nat i := y]> xs !! Z.to_nat k = Some z) idx ys.
Proof.
  intros Hi Hu Hn Hf. split.
  - eapply Forall2_impl; [exact Hf|]. intros k z Hk. cbn in *.
    apply list_lookup_insert_eq. by eapply lookup_lt_Some.
  - revert Hu Hn. induction Hf as [|k z idx ys Hk Hf IH]; intros Hu Hn; [constructor|].
    apply Forall_cons in Hu as [Hk8 Hu]. apply not_elem_of_cons in Hn as [Hne Hn].
    constructor; [|by apply IH]. rewrite list_lookup_insert_ne; [done|].
    intros Heq. apply Hne. by apply to_nat_u8_inj.
Qed.

Lemma Zsum_insert {A} (f : A → Z) xs i x y :
  xs !! i = Some x → Zsum (f <$> <[i := y]> xs) = Zsum (f <$> xs) - f x + f y.
Proof.
  revert i. induction xs as [|z xs IH]; intros [|i] Hi; [done|done| |].
  - injection Hi as ->. cbn. lia.
  - change (f z + Zsum (f <$> <[i := y]> xs) = f z + Zsum (f <$> xs) - f x + f y).
    rewrite (IH i) by done. lia.
Qed.

(** Writing back to distinct indices changes a total by the difference on the
    subset. *)
Lemma write_subset_sum {A} (f : A → Z) idx : ∀ xs pre post,
  NoDup idx → Forall is_u8 idx → Forall2 (λ i y, xs !! Z.to_nat i = Some y) idx pre →
  length post = length pre →
  Zsum (f <$> write_subset xs idx post) = Zsum (f <$> xs) - Zsum (f <$> pre) + Zsum (f <$> post).
Proof.
  induction idx as [|i idx IH]; intros xs pre post Hnd Hu Hf Hlen.
  - inversion Hf; subst. destruct post; [|done]. cbn. lia.
  - inversion Hf as [|? x ? pre' Hx Hf']; subst. destruct post as [|y post]; [done|].
    apply NoDup_cons in Hnd as [Hn Hnd]. apply Forall_cons in Hu as [Hi Hu].
    cbn. rewrite (IH _ pre'); [..|by cbn in Hlen; lia]; [|done..|].
    + rewrite (Zsum_insert f xs _ x y) by done. lia.
    + by apply subset_insert.
Qed.

(** A relation on every rewritten account gives a relation on all accounts. *)
Lemma write_subset_rel {A} (R : A → A → Prop) `{!Reflexive R} idx : ∀ xs pre post,
  NoDup idx → Forall is_u8 idx → Forall2 (λ i y, xs !! Z.to_nat i = Some y) idx pre →
  Forall2 R pre post → Forall2 R xs (write_subset xs idx post).
Proof.
  induction idx as [|i idx IH]; intros xs pre post Hnd Hu Hf HR.
  - cbn. by apply Forall_Forall2_diag, Forall_forall.
  - inversion Hf as [|? x ? pre' Hx Hf']; subst. inversion HR as [|? y ? post' Hxy HR']; subst.
    apply NoDup_cons in Hnd as [Hn Hnd]. apply Forall_cons in Hu as [Hi Hu]. cbn.
    assert (Hf2 := proj2 (subset_insert xs i y idx pre' Hi Hu Hn Hf')).
    specialize (IH (<[Z.to_nat i := y]> xs) pre' post' Hnd Hu Hf2 HR').
    apply Forall2_same_length_lookup_2; [by rewrite write_subset_length, length_insert|].
    intros j a b Ha Hb. destruct (decide (j = Z.to_nat i)) as [->|Hne].
    + rewrite write_subset_other in Hb.
      * rewrite list_lookup_insert_eq in Hb by (by eapply lookup_lt_Some). by simplify_eq.
      * intros k Hk Heq. apply Hn. rewrite Forall_forall in Hu.
        by rewrite <- (to_nat_u8_inj k i) by auto.
    + eapply (Forall2_lookup_lr _ _ _ j a b IH); [|done].
      by rewrite list_lookup_insert_ne.
Qed.

Lemma write_back_length old new : length (write_back old new) = length old.
Proof. revert new. induction old as [|o old IH]; intros [|n new]; cbn; auto. Qed.

Lemma write_back_same old new : length new = length old → write_back old new = new.
Proof. revert new. induction old as [|o old IH]; intros [|n new]; cbn; intros; [done..|]. f_equal. auto. Qed.

(** ** One instruction *)

Section Processor.
Context (open_library : list Z → option (option ProcessInstruction)).
Context `{Bincode LoaderInstruction}.
Context (instruction_processors : list (Pubkey * ProcessInstruction)).

Lemma entrypoint_length cache pid ks ix t r accs cache' :
  entrypoint open_library cache pid ks ix t = (r, accs, cache') → length accs = length ks.
Proof.
  unfold entrypoint. intros Hr. destruct ks as [|k0 params]; [by simplify_eq|].
  repeat (case_match; simplify_eq/=); rewrite ?write_back_length, ?length_fmap; done.
Qed.

Lemma keys_and_signers_length m ix ks :
  keys_and_signers m ix = Ok ks → length ks = length (ci_accounts ix).
Proof. intros Hm%mapR_Ok. symmetry. by eapply Forall2_length. Qed.

Lemma create_keyed_accounts_account l : account <$> create_keyed_accounts l = snd <$> l.
Proof. induction l as [|[k a] l IH]; cbn; [done|]. by f_equal. Qed.

Lemma zip_keyed_account (ks : list (Pubkey * bool)) accs : length ks = length accs →
  account <$> zip_with (λ '(k, signer) a, KeyedAccount_new k signer a) ks accs = accs.
Proof.
  revert accs. induction ks as [|[k s] ks IH]; intros [|a accs]; cbn; intros; [done..|].
  f_equal. apply IH. lia.
Qed.

(** What [process_instruction] does to the program accounts, seen from the
    outside: a list of accounts of the same length, the tail of what the program
    left behind. *)
Lemma process_instruction_shape m ix t s r s' :
  process_instruction open_library instruction_processors m ix t s = (r, s') →
  length (es_program_accounts s) = length (ci_accounts ix) →
  length (es_program_accounts s') = length (es_program_accounts s).
Proof.
  unfold process_instruction. intros Hr Hlen.
  destruct (program_id ix (account_keys m)) as [pid| |]; [|by simplify_eq..].
  destruct (keys_and_signers m ix) as [ks| |] eqn:Hks; [|by simplify_eq..].
  apply keys_and_signers_length in Hks.
  set (keyed := create_keyed_accounts (es_executable_accounts s) ++ _) in *.
  assert (Hk : length keyed = (length (es_executable_accounts s) +
                               length (es_program_accounts s))%nat).
  { unfold keyed, create_keyed_accounts.
    rewrite length_app, length_fmap, length_zip_with. lia. }
  destruct (find_processor instruction_processors pid) as [process|].
  - destruct keyed as [|k0 rest]; [by simplify_eq|].
    destruct (process pid rest (ci_data ix) t) as [r0 new]. simplify_eq/=.
    rewrite length_drop. cbn [length]. rewrite write_back_length, length_fmap. lia.
  - destruct (entrypoint _ _ _ _ _ _) as [[r0 accs] cache'] eqn:He. simplify_eq/=.
    apply entrypoint_length in He. rewrite length_drop. lia.
Qed.

(** The rules a program is held to, for the account [a] before and [b] after. *)
Definition guarded (pid : Pubkey) (a b : Account) : Prop :=
  (owner b = owner a ∨ pid = system_program.id) ∧
  (difs a ≤ difs b ∨ owner b = pid) ∧
  (data b = data a ∨ owner b = pid ∨ pid = system_program.id).

Lemma verify_instruction_guarded pid a b :
  verify_instruction pid (owner a) (difs a) (data a) b = Ok tt ↔ guarded pid a b.
Proof.
  unfold verify_instruction, guarded, system_program.check_id.
  destruct (Z.eqb_spec (owner a) (owner b)), (Z.eqb_spec pid system_program.id),
    (Z.eqb_spec pid (owner b)), (Z.ltb_spec (difs b) (difs a)),
    (bool_decide_reflect (data a = data b)); cbn; split; intros; try done;
    intuition (try congruence; try lia).
Qed.

Lemma verify_all_guarded pid pre post :
  length post = length pre →
  verify_all pid pre post = Ok tt → Forall2 (guarded pid) pre post.
Proof.
  revert post. induction pre as [|a pre IH]; intros [|b post]; cbn; intros Hl Hv;
    [constructor|done..|].
  unfold_monad. destruct (verify_instruction _ _ _ _ _) as [[]| |] eqn:Ha; [|done..].
  apply verify_instruction_guarded in Ha. constructor; [done|]. apply IH; [lia|done].
Qed.

Lemma execute_instruction_shape m ix t s r s' :
  execute_instruction open_library instruction_processors m ix t s = (r, s') →
  length (es_program_accounts s) = length (ci_accounts ix) →
  length (es_program_accounts s') = length (es_program_accounts s).
Proof.
  unfold execute_instruction. intros He Hl.
  destruct (program_id ix (account_keys m)) as [pid| |]; [|by simplify_eq..].
  destruct (process_instruction _ _ _ _ _ _) as [[]] eqn:Hp; simplify_eq/=;
    by eapply process_instruction_shape.
Qed.

Lemma execute_instruction_ok m ix t s s' :
  execute_instruction open_library instruction_processors m ix t s = (Ok tt, s') →
  length (es_program_accounts s) = length (ci_accounts ix) →
  ∃ pid, program_id (E:=InstructionError) ix (account_keys m) = Ok pid ∧
    process_instruction open_library instruction_processors m ix t s = (Ok tt, s') ∧
    Forall2 (guarded pid) (es_program_accounts s) (es_program_accounts s') ∧
    u64_sum (difs <$> es_program_accounts s) = u64_sum (difs <$> es_program_accounts s').
Proof.
  intros He Hl. pose proof (execute_instruction_shape _ _ _ _ _ _ He Hl) as Hlen.
  unfold execute_instruction in He.
  destruct (program_id ix (account_keys m)) as [pid| |]; [|by simplify_eq..].
  destruct (process_instruction _ _ _ _ _ _) as [[[]| |] s''] eqn:Hp; [|by simplify_eq..].
  unfold_monad. destruct (verify_all _ _ _) as [[]| |] eqn:Hv; [|by simplify_eq..].
  destruct (Z.eqb_spec (u64_sum (difs <$> es_program_accounts s))
              (u64_sum (difs <$> es_program_accounts s''))); simplify_eq/=.
  exists pid. split_and!; auto. by apply verify_all_guarded.
Qed.

(** ** One message *)

(** The indices of a message are bytes. *)
Definition indices_u8 (m : Message) : Prop :=
  Forall (λ ix, Forall is_u8 (ci_accounts ix)) (instructions m).

Lemma process_message_instruction_ok m i ix t s s' :
  process_message_instruction open_library instruction_processors m i ix t s = (Ok tt, s') →
  ∃ pid exe pre es',
    program_id (E:=InstructionError) ix (account_keys m) = Ok pid ∧
    NoDup (ci_accounts ix) ∧
    Forall2 (λ i y, ms_accounts s !! Z.to_nat i = Some y) (ci_accounts ix) pre ∧
    process_instruction open_library instruction_processors m ix t
      (mkExec (ms_cache s) exe pre) = (Ok tt, es') ∧
    Forall2 (guarded pid) pre (es_program_accounts es') ∧
    u64_sum (difs <$> pre) = u64_sum (difs <$> es_program_accounts es') ∧
    ms_accounts s' = write_subset (ms_accounts s) (ci_accounts ix) (es_program_accounts es').
Proof.
  unfold process_message_instruction. intros Hp.
  destruct (program_position m _) as [[ei|]| |]; [|by simplify_eq..].
  destruct (ms_loaders s !! ei) as [exe|]; [|by simplify_eq].
  destruct (get_subset_unchecked_mut (ms_accounts s) (ci_accounts ix)) as [pre| |] eqn:Hg;
    [|by simplify_eq/=..]. cbn in Hp.
  destruct (execute_instruction _ _ _ _ _ _) as [r es'] eqn:He. simplify_eq.
  destruct r as [[]| |]; [|done..].
  apply get_subset_spec in Hg as [Hnd Hf].
  apply execute_instruction_ok in He as (pid & Hpid & Hpi & Hgd & Hsum);
    [|cbn; symmetry; by eapply Forall2_length].
  exists pid, exe, pre, es'. done.
Qed.

Lemma instruction_conserves m i ix t s s' :
  Forall is_u8 (ci_accounts ix) →
  process_message_instruction open_library instruction_processors m i ix t s = (Ok tt, s') →
  u64_sum (difs <$> ms_accounts s') = u64_sum (difs <$> ms_accounts s).
Proof.
  intros Hu Hp. apply process_message_instruction_ok in Hp
    as (pid & exe & pre & es' & _ & Hnd & Hf & _ & Hg & Hsum & ->).
  rewrite !u64_sum_wrap in *.
  rewrite (write_subset_sum difs (ci_accounts ix) _ pre) by
    (try done; symmetry; by eapply Forall2_length).
  wrap_lia.
Qed.

(** What the accounts of a message may undergo in one instruction, given the
    programs that are trusted with an account. *)
Lemma instruction_rel (R : Account → Account → Prop) `{!Reflexive R} m i ix t s s' :
  Forall is_u8 (ci_accounts ix) →
  process_message_instruction open_library instruction_processors m i ix t s = (Ok tt, s') →
  (∀ pid exe pre es', program_id (E:=InstructionError) ix (account_keys m) = Ok pid →
     length pre = length (ci_accounts ix) →
     process_instruction open_library instruction_processors m ix t
       (mkExec (ms_cache s) exe pre) = (Ok tt, es') →
     Forall2 (guarded pid) pre (es_program_accounts es') →
     Forall2 R pre (es_program_accounts es')) →
  Forall2 R (ms_accounts s) (ms_accounts s').
Proof.
  intros Hu Hp HR. apply process_message_instruction_ok in Hp
    as (pid & exe & pre & es' & Hpid & Hnd & Hf & Hpi & Hg & _ & ->).
  eapply write_subset_rel; [done|done|done|exact Hf|].
  eapply HR; [done| |done|done]. symmetry. by eapply Forall2_length.
Qed.

Lemma process_instructions_ind (P : message_state → message_state → Prop) m t :
  Reflexive P → Transitive P →
  (∀ i ix s s', ix ∈ instructions m →
     process_message_instruction open_library instruction_processors m i ix t s = (Ok tt, s') →
     P s s') →
  ∀ ixs i s s', (∀ ix, ix ∈ ixs → ix ∈ instructions m) →
    process_instructions open_library instruction_processors m i ixs t s = (Ok tt, s') → P s s'.
Proof.
  intros Hrefl Htrans Hstep ixs. induction ixs as [|ix ixs IH]; intros i s s' Hin; cbn.
  - intros [= <-]. done.
  - destruct (process_message_instruction _ _ _ _ _ _ _) as [[[]| |] s1] eqn:H1; [|done..].
    intros H2. transitivity s1.
    + eapply Hstep; [|done]. apply Hin. set_solver.
    + eapply IH; [|done]. set_solver.
Qed.

Lemma process_message_ok m t s s' :
  indices_u8 m → process_message open_library instruction_processors m t s = (Ok tt, s') →
  u64_sum (difs <$> ms_accounts s') = u64_sum (difs <$> ms_accounts s) ∧
  length (ms_accounts s') = length (ms_accounts s).
Proof.
  intros Hu8 Hrun. unfold process_message in Hrun. unfold indices_u8 in Hu8.
  rewrite Forall_forall in Hu8.
  eapply (process_instructions_ind
    (λ s s', u64_sum (difs <$> ms_accounts s') = u64_sum (difs <$> ms_accounts s) ∧
             length (ms_accounts s') = length (ms_accounts s)));
    [| | |by intros ix; exact id|exact Hrun].
  - done.
  - intros a b c [H1 H1'] [H2 H2']. split; congruence.
  - intros i ix s1 s2 Hix Hi. split; [by apply (instruction_conserves _ _ _ _ _ _ (Hu8 _ Hix) Hi)|].
    apply process_message_instruction_ok in Hi as (? & ? & ? & ? & _ & _ & _ & _ & _ & _ & ->).
    apply write_subset_length.
Qed.

(** Whatever programs a message runs, if it succeeds the total of the difs
    of its accounts is what it was. *)
Theorem message_conserves_difs m t s s' (Hu8 : indices_u8 m)
    (Hrun : process_message open_library instruction_processors m t s = (Ok tt, s')) :
  u64_sum (difs <$> ms_accounts s') = u64_sum (difs <$> ms_accounts s).
Proof. by destruct (process_message_ok _ _ _ _ Hu8 Hrun). Qed.

(** ** The system program among the programs *)

Context `{!Bincode system_instruction.SystemInstruction}.

(** The owner and the data of an account that is not the system program's. *)
Definition untouched_unless_system (a b : Account) : Prop :=
  owner a ≠ system_program.id → owner b = owner a ∧ data b = data a.

#[local] Instance untouched_refl : Reflexive untouched_unless_system.
Proof. by intros a ?. Qed.

Lemma system_processor_untouched pid ks ix t new :
  system_processor pid ks ix t = (Ok tt, new) →
  Forall2 untouched_unless_system (account <$> ks) new.
Proof.
  unfold system_processor, system_instruction_processor.process_instruction.
  destruct (deserialize ix) as [ins|]; [|done].
  destruct (system_instruction_processor.process_system_instruction ins ks) as [r ks'] eqn:Hr.
  intros [= -> <-].
  assert (Hd : ∀ l, Forall2 untouched_unless_system l l).
  { intros l. by apply Forall_Forall2_diag, Forall_forall. }
  destruct ks as [|from [|to rest]], ins; system_instruction_processor.run_system;
    unfold system_program.check_id in *;
    repeat match goal with |- Forall2 _ (_ :: _) (_ :: _) => constructor end; try apply Hd;
    unfold untouched_unless_system; cbn; intros; try done; exfalso; lia.
Qed.

Lemma drop_Forall2_app {A B} (R : A → B → Prop) n (l1 l2 : list A) k :
  n = length l1 → Forall2 R (l1 ++ l2) k → Forall2 R l2 (drop n k).
Proof.
  intros -> Hf. apply Forall2_app_inv_l in Hf as (k1 & k2 & H1 & H2 & ->).
  apply Forall2_length in H1. by rewrite H1, drop_app_length.
Qed.

Lemma system_instruction_untouched m ix t exe pre es' cache :
  find_processor instruction_processors system_program.id = Some system_processor →
  program_id (E:=InstructionError) ix (account_keys m) = Ok system_program.id →
  length pre = length (ci_accounts ix) →
  process_instruction open_library instruction_processors m ix t (mkExec cache exe pre) =
    (Ok tt, es') →
  Forall2 untouched_unless_system pre (es_program_accounts es').
Proof.
  intros Hsys Hpid Hlen. unfold process_instruction. rewrite Hpid, Hsys.
  cbn [es_executable_accounts es_program_accounts es_cache].
  destruct (keys_and_signers m ix) as [ks| |] eqn:Hks; [|done..].
  apply keys_and_signers_length in Hks.
  set (keyed := create_keyed_accounts exe ++ _).
  assert (Hk : account <$> keyed = (snd <$> exe) ++ pre).
  { unfold keyed. rewrite fmap_app, create_keyed_accounts_account, zip_keyed_account by lia. done. }
  destruct keyed as [|k0 rest]; [done|].
  destruct (system_processor _ rest _ _) as [r new] eqn:Hr. intros [= -> <-].
  pose proof (system_processor_untouched _ _ _ _ _ Hr) as Hu.
  cbn. rewrite write_back_same by (symmetry; by eapply Forall2_length).
  apply (drop_Forall2_app _ _ (snd <$> exe)); [by rewrite length_fmap|].
  rewrite <- Hk. cbn. by constructor.
Qed.

(** An account no invoked program is entitled to change. *)
Definition foreign (m : Message) (a : Account) : Prop :=
  owner a ≠ system_program.id ∧
  ∀ ix pid, ix ∈ instructions m → program_id (E:=InstructionError) ix (account_keys m) = Ok pid →
    pid ≠ owner a.

Definition protected (m : Message) (a b : Account) : Prop :=
  foreign m a → owner b = owner a ∧ data b = data a ∧ difs a ≤ difs b.

Lemma foreign_owner m a b : owner b = owner a → foreign m a → foreign m b.
Proof. unfold foreign. intros ->. done. Qed.

#[local] Instance protected_refl m : Reflexive (protected m).
Proof. by intros a ?. Qed.
#[local] Instance protected_trans m : Transitive (protected m).
Proof.
  intros a b c Hab Hbc Hf. destruct (Hab Hf) as (Ho & Hd & Hl).
  destruct (Hbc (foreign_owner m a b Ho Hf)) as (? & ? & ?).
  split_and!; [congruence..|lia].
Qed.

(** C31. No program can touch what belongs to another one: if a message
    succeeds, an account whose owner is neither the system program nor any
    program the message invokes keeps its owner and its data and loses no difs,
    whatever the invoked programs do. *)
Theorem foreign_accounts_protected m t s s' (Hu8 : indices_u8 m)
    (Hsys : find_processor instruction_processors system_program.id = Some system_processor)
    (Hrun : process_message open_library instruction_processors m t s = (Ok tt, s')) :
  Forall2 (protected m) (ms_accounts s) (ms_accounts s').
Proof.
  unfold process_message in Hrun. unfold indices_u8 in Hu8. rewrite Forall_forall in Hu8.
  eapply (process_instructions_ind
    (λ s s', Forall2 (protected m) (ms_accounts s) (ms_accounts s')));
    [| | |by intros ix; exact id|exact Hrun].
  - intros x. by apply Forall_Forall2_diag, Forall_forall.
  - intros a b c. apply Forall2_trans. intros x y z. apply protected_trans.
  - intros i ix s1 s2 Hix Hp. eapply (instruction_rel (protected m)); [by apply Hu8|exact Hp|].
    intros pid exe pre es' Hpid Hlen Hpi Hg.
    apply Forall2_same_length_lookup_2; [by eapply Forall2_length|].
    intros j a b Ha Hb [Hns Hf]. specialize (Hf ix pid Hix Hpid).
    pose proof (Forall2_lookup_lr _ _ _ _ _ _ Hg Ha Hb) as (Ho & Hl & Hd).
    destruct (decide (pid = system_program.id)) as [->|Hne].
    + pose proof (system_instruction_untouched _ _ _ _ _ _ _ Hsys Hpid Hlen Hpi) as Hu.
      destruct (Forall2_lookup_lr _ _ _ _ _ _ Hu Ha Hb Hns) as [Ho' Hd'].
      split_and!; try done. destruct Hl as [|Hl]; [done|]. congruence.
    + destruct Ho as [Ho|]; [|done]. rewrite Ho in Hl, Hd.
      split_and!; [done| |]; intuition congruence.
Qed.

(** Accounts that no instruction of the message names are left alone, also
    when the message fails. *)
Theorem unnamed_accounts_unchanged m t s r s' j
    (Hrun : process_message open_library instruction_processors m t s = (r, s'))
    (Hj : ∀ ix i, ix ∈ instructions m → i ∈ ci_accounts ix → Z.to_nat i ≠ j) :
  ms_accounts s' !! j = ms_accounts s !! j.
Proof.
  unfold process_message in Hrun.
  assert (Hstep : ∀ i ix s r s', ix ∈ instructions m →
    process_message_instruction open_library instruction_processors m i ix t s = (r, s') →
    ms_accounts s' !! j = ms_accounts s !! j).
  { clear - Hj. intros i ix s r s' Hix Hp. unfold process_message_instruction in Hp.
    destruct (program_position m _) as [[ei|]| |]; [|by simplify_eq..].
    destruct (ms_loaders s !! ei) as [exe|]; [|by simplify_eq].
    destruct (map_err _ (get_subset_unchecked_mut _ _)) as [pre| |]; [|by simplify_eq..].
    destruct (execute_instruction _ _ _ _ _ _) as [r0 es']. simplify_eq/=.
    apply write_subset_other. eauto. }
  revert Hrun. generalize 0%nat.
  assert (Hin : ∀ ix, ix ∈ instructions m → ix ∈ instructions m) by done. revert Hin.
  generalize (instructions m) at 1 3. intros ixs. revert s.
  induction ixs as [|ix ixs IH]; intros s Hin n; cbn; [by intros [= <- <-]|].
  destruct (process_message_instruction _ _ _ _ _ _ _) as [r1 s1] eqn:H1.
  apply Hstep in H1 as H1'; [|apply Hin; set_solver].
  destruct r1; [|by intros [= <- <-]..]. intros H2. rewrite <- H1'.
  eapply IH; [|exact H2]. set_solver.
Qed.
End Processor.

(** ** Witnesses *)

#[local] Instance demo_system_bincode : Bincode system_instruction.SystemInstruction :=
  codec_bincode system_instruction.SystemInstruction_codec.
#[local] Instance demo_loader_bincode : Bincode LoaderInstruction := {|
  serialize _ := [];
  deserialize _ := None;
  serialize_into _ buf := (Some OtherBincodeError, buf)
|}.
Definition demo_processors : list (Pubkey * ProcessInstruction) :=
  [(system_program.id, system_processor)].
Definition demo_message : Message :=
  mkMessage (mkMessageHeader 1 0 1) [5; 8; 0; 9] 0
    [mkCompiledInstruction 2 [0; 1] (serialize (system_instruction.Transfer 10))].
Definition demo_state : message_state :=
  mkMessageState ∅ [[(native_loader.id, mkAccount 1 0 [] native_loader.id true)]]
    [mkAccount 100 0 [] 0 false; mkAccount 3 0 [1; 2] 777 false; mkAccount 4 0 [] 0 false].
Definition demo_final : message_state :=
  mkMessageState ∅ [[(native_loader.id, mkAccount 1 0 [] native_loader.id true)]]
    [mkAccount 90 0 [] 0 false; mkAccount 13 0 [1; 2] 777 false; mkAccount 4 0 [] 0 false].

Lemma demo_run :
  process_message (λ _, None) demo_processors demo_message 0 demo_state = (Ok tt, demo_final).
Proof. vm_compute. reflexivity. Qed.

Lemma demo_u8 : indices_u8 demo_message.
Proof.
  unfold indices_u8. repeat first [apply Forall_nil_2 | apply Forall_cons_2]; vm_compute;
    split; congruence.
Qed.

Lemma message_conserves_difs_witness :
  u64_sum (difs <$> ms_accounts demo_final) = u64_sum (difs <$> ms_accounts demo_state) ∧
  u64_sum (difs <$> ms_accounts demo_state) = 107.
Proof.
  split; [|vm_compute; reflexivity].
  exact (message_conserves_difs (λ _, None) demo_processors demo_message 0 demo_state demo_final
           demo_u8 demo_run).
Defined.

Lemma foreign_accounts_protected_witness :
  Forall2 (protected demo_message) (ms_accounts demo_state) (ms_accounts demo_final) ∧
  foreign demo_message (mkAccount 3 0 [1; 2] 777 false).
Proof.
  split.
  - exact (foreign_accounts_protected (λ _, None) demo_processors demo_message 0 demo_state
             demo_final demo_u8 eq_refl demo_run).
  - split; [vm_compute; discriminate|]. intros ix pid Hix Hpid.
    apply list_elem_of_singleton in Hix as ->. vm_compute in Hpid. injection Hpid as <-.
    vm_compute. discriminate.
Defined.

Lemma unnamed_accounts_unchanged_witness :
  ms_accounts demo_final !! 2%nat = ms_accounts demo_state !! 2%nat.
Proof.
  apply (unnamed_accounts_unchanged (λ _, None) demo_processors demo_message 0 demo_state
           (Ok tt) demo_final 2); [exact demo_run|].
  intros ix i Hix Hi. apply list_elem_of_singleton in Hix as ->.
  apply elem_of_cons in Hi as [->|Hi]; [vm_compute; discriminate|].
  apply list_elem_of_singleton in Hi as ->. vm_compute. discriminate.
Defined.
End processor_proofs.
