(* ===== verification/ShortVec.v ===== *)
(** * Compact lengths and vectors

    interface/src/short_vec.rs: a [u16] in one to three bytes and a vector with
    such a length in front, as the messages and transactions put them on the
    wire.  The visitors are modelled against bincode's [SeqAccess]: a byte list
    and the number of elements the tuple still has. *)

From S2P Require Import Prelude Interface Codec.

Module short_vec.

(** The loop of [ShortU16::serialize]; a [u16] is zero after three shifts. *)
Fixpoint ShortU16_loop (fuel : nat) (rem_len : Z) : list Z :=
  match fuel with
  | O => []
  | S fuel' =>
      let elem := Z.land rem_len 0x7f in
      let rem_len := Z.shiftr rem_len 7 in
      if rem_len =? 0 then [elem]
      else Z.lor elem 0x80 :: ShortU16_loop fuel' rem_len
  end.

Definition ShortU16_serialize (n : Z) : list Z := ShortU16_loop 3 n.

(** The loop of [ShortLenVisitor::visit_seq]: [left] elements of the tuple are
    left. *)
Fixpoint ShortLen_visit (left : nat) (len size : Z) (l : list Z) : option (Z * list Z) :=
  match left, l with
  | O, _ => None
  | _, [] => None
  | S left', elem :: l' =>
      let len := Z.lor len (Z.shiftl (Z.land elem 0x7f) (size * 7)) in
      let size := size + 1 in
      if Z.land elem 0x80 =? 0 then Some (len mod two16, l')
      else if size >? 3 then None
      else ShortLen_visit left' len size l'
  end.

Definition ShortU16_deserialize (l : list Z) : option (Z * list Z) := ShortLen_visit 3 0 0 l.

(** [bincode::deserialize] of a prefix of the bytes, which has to succeed; the
    size is that of encoding the value again. *)
Definition decode_len {E} (bytes : list Z) : res E (Z * Z) :=
  short_len ← unwrap (fst <$> ShortU16_deserialize bytes);
  let num_bytes := Z.of_nat (length (ShortU16_serialize short_len)) in
  Ok (short_len, num_bytes).

Inductive SerError := LengthLargerThanU16.

Section ShortVec.
Context {T : Type} (enc_elem : T → list Z) (dec_elem : list Z → option (T * list Z)).

Definition short_serialize (elements : list T) : res SerError (list Z) :=
  let len := Z.of_nat (length elements) in
  if len >? u16_max then Err LengthLargerThanU16
  else
    let short_len := len mod two16 in
    Ok (ShortU16_serialize short_len ++ mjoin (enc_elem <$> elements)).

Fixpoint visit_elements (len : nat) (l : list Z) : option (list T * list Z) :=
  match len with
  | O => Some ([], l)
  | S len' =>
      '(elem, l) ← dec_elem l;
      '(result, l) ← visit_elements len' l;
      Some (elem :: result, l)
  end.

Definition short_deserialize (l : list Z) : option (list T * list Z) :=
  '(short_len, l) ← ShortU16_deserialize l;
  visit_elements (Z.to_nat short_len) l.
End ShortVec.
End short_vec.

Module short_vec_proofs.
Import short_vec.

(** One byte of the encoding: seven bits and the continuation mark. *)
Lemma land_7f z : Z.land z 0x7f = z mod 128.
Proof. change 0x7f with (Z.ones 7). rewrite Z.land_ones by lia. done. Qed.

Lemma lor_disjoint a b : Z.land a b = 0 → Z.lor a b = a + b.
Proof. intros Hd. by rewrite <- Z.lxor_lor, <- Z.add_nocarry_lxor. Qed.

Lemma lor_shift len size x : 0 ≤ size → 0 ≤ len < 2 ^ size →
  Z.lor len (Z.shiftl x size) = len + x * 2 ^ size.
Proof.
  intros Hs Hl. rewrite <- Z.shiftl_mul_pow2 by lia. apply lor_disjoint.
  apply Z.bits_inj'. intros n Hn. rewrite Z.bits_0, Z.land_spec.
  destruct (Z.ltb_spec n size) as [Hlt|Hge].
  - rewrite Z.shiftl_spec_low by lia. by rewrite andb_false_r.
  - rewrite <- (Z.mod_small len (2 ^ size)) by lia. by rewrite Z.mod_pow2_bits_high by lia.
Qed.

Lemma lor_80 z : 0 ≤ z < 128 → Z.lor z 0x80 = z + 128.
Proof. intros Hz. change 0x80 with (Z.shiftl 1 7). by rewrite lor_shift by (cbn; lia). Qed.

Lemma mark_bit b : 0 ≤ b < 256 → (Z.land b 0x80 =? 0) = (b <? 128).
Proof.
  intros Hb. assert (Z.land b 0x80 = if Z.testbit b 7 then 128 else 0) as ->.
  { apply Z.bits_inj'. intros n Hn. rewrite Z.land_spec. change 0x80 with (2 ^ 7).
    rewrite Z.pow2_bits_eqb by lia. destruct (Z.eqb_spec 7 n) as [<-|Hne].
    - rewrite andb_true_r. by destruct (Z.testbit b 7).
    - rewrite andb_false_r. destruct (Z.testbit b 7); [|by rewrite Z.bits_0].
      change 128 with (2 ^ 7). rewrite Z.pow2_bits_eqb by lia. symmetry. by apply Z.eqb_neq. }
  destruct (Z.ltb_spec b 128) as [Hlt|Hge].
  - rewrite (proj2 (Z.testbit_false b 7 ltac:(lia))); [done|].
    change (2 ^ 7) with 128. by rewrite Z.div_small by lia.
  - rewrite (proj2 (Z.testbit_true b 7 ltac:(lia))); [done|]. change (2 ^ 7) with 128.
    replace (b / 128) with 1; [done|]. apply Z.div_unique with (b - 128); lia.
Qed.

(** The loops over the remaining value and over the bytes meet: [len] is what
    has been read of the value, [size] how many bytes that took. *)
Lemma visit_loop n : ∀ rem len size rest,
  0 ≤ rem < 128 ^ Z.of_nat n → 0 ≤ size → size + Z.of_nat n = 3 →
  0 ≤ len < 128 ^ size → (0 < n)%nat → len + rem * 128 ^ size < two16 →
  ShortLen_visit n len size (ShortU16_loop n rem ++ rest) = Some (len + rem * 128 ^ size, rest).
Proof.
  induction n as [|n IH]; intros rem len size rest Hrem Hs Hn Hlen Hpos Hsum; [lia|].
  cbn [ShortU16_loop]. rewrite land_7f, Z.shiftr_div_pow2 by lia. change (2 ^ 7) with 128.
  pose proof (Z.mod_pos_bound rem 128 ltac:(lia)) as Hmod.
  pose proof (Z.div_mod rem 128 ltac:(lia)) as Hdm.
  assert (128 ^ size = 2 ^ (size * 7)) as Hpow.
  { change 128 with (2 ^ 7). rewrite <- Z.pow_mul_r by lia. f_equal. lia. }
  destruct (Z.eqb_spec (rem / 128) 0) as [Hz|Hnz]; cbn [ShortLen_visit app].
  - rewrite mark_bit by lia. rewrite (proj2 (Z.ltb_lt _ _)) by lia.
    rewrite land_7f, Z.mod_mod by lia. rewrite lor_shift by lia.
    rewrite <- Hpow, Z.mod_small; [|nia]. repeat f_equal. nia.
  - rewrite lor_80 by lia. rewrite mark_bit by lia. rewrite (proj2 (Z.ltb_ge _ _)) by lia.
    rewrite land_7f. replace ((rem mod 128 + 128) mod 128) with (rem mod 128)
      by (rewrite Z.add_mod, Z.mod_same, Z.add_0_r, !Z.mod_mod by lia; done).
    rewrite lor_shift, <- Hpow by lia.
    destruct n as [|n].
    { exfalso. apply Hnz. cbn in Hrem. apply Z.div_small. lia. }
    replace (size + 1 >? 3) with false by lia.
    assert (128 ^ (size + 1) = 128 * 128 ^ size) as Hsucc
      by (rewrite Z.add_1_r, Z.pow_succ_r by lia; done).
    assert (len + rem mod 128 * 128 ^ size + rem / 128 * 128 ^ (size + 1) =
            len + rem * 128 ^ size) as Heq by (rewrite Hsucc; nia).
    rewrite IH.
    + by rewrite Heq.
    + split; [apply Z.div_pos; lia|]. apply Z.div_lt_upper_bound; [lia|].
      rewrite Nat2Z.inj_succ, Z.pow_succ_r in Hrem by lia. lia.
    + lia.
    + lia.
    + rewrite Hsucc. nia.
    + lia.
    + by rewrite Heq.
Qed.

Lemma ShortU16_roundtrip n rest : is_u16 n →
  ShortU16_deserialize (ShortU16_serialize n ++ rest) = Some (n, rest).
Proof.
  intros Hn. unfold is_u16 in Hn. unfold ShortU16_deserialize, ShortU16_serialize.
  rewrite (visit_loop 3 n 0 0) by (cbn; lia). repeat f_equal. cbn. lia.
Qed.

Section Vec.
Context {T : Type} (enc_elem : T → list Z) (dec_elem : list Z → option (T * list Z)).
Context (elem_ok : T → Prop).
Context (elem_roundtrip : ∀ x rest, elem_ok x → dec_elem (enc_elem x ++ rest) = Some (x, rest)).

Lemma visit_elements_roundtrip xs rest : Forall elem_ok xs →
  visit_elements dec_elem (length xs) (mjoin (enc_elem <$> xs) ++ rest) = Some (xs, rest).
Proof.
  induction 1 as [|x xs Hx Hxs IH]; [done|]. rewrite fmap_cons, mjoin_cons, <- app_assoc.
  cbn [visit_elements length]. rewrite elem_roundtrip by done. cbn. by rewrite IH.
Qed.

(** Vectors survive the wire: a vector of at most 65535 elements is written
    with a length of one byte below 128 elements, two below 16384 and three
    otherwise, and is read back with nothing lost and the bytes after it left
    over; a longer vector is refused. *)
Theorem short_vec_roundtrip xs rest (Hok : Forall elem_ok xs) :
  let n := Z.of_nat (length xs) in
  if n >? u16_max then short_serialize enc_elem xs = Err LengthLargerThanU16
  else ∃ prefix, short_serialize enc_elem xs = Ok (prefix ++ mjoin (enc_elem <$> xs)) ∧
    Z.of_nat (length prefix) = (if n <? 128 then 1 else if n <? 16384 then 2 else 3) ∧
    short_deserialize dec_elem ((prefix ++ mjoin (enc_elem <$> xs)) ++ rest) = Some (xs, rest).
Proof.
  cbn zeta. unfold short_serialize, short_deserialize.
  destruct (Z.gtb_spec (Z.of_nat (length xs)) u16_max) as [|Hle]; [done|].
  unfold u16_max in Hle. rewrite Z.mod_small by lia. eexists. split; [done|]. split.
  - unfold ShortU16_serialize. cbn [ShortU16_loop]. rewrite !Z.shiftr_shiftr by lia.
    rewrite !Z.shiftr_div_pow2 by lia. cbn [Z.add Pos.add].
    change (2 ^ 7) with 128. change (2 ^ (7 + 7)) with 16384. change (2 ^ (7 + 7 + 7)) with 2097152.
    destruct (Z.ltb_spec (Z.of_nat (length xs)) 128); [by rewrite Z.div_small by lia|].
    assert (Z.of_nat (length xs) / 128 ≠ 0) as H128%Z.eqb_neq by (Z.div_mod_to_equations; lia).
    rewrite H128. destruct (Z.ltb_spec (Z.of_nat (length xs)) 16384).
    + by rewrite (Z.div_small _ 16384) by lia.
    + assert (Z.of_nat (length xs) / 16384 ≠ 0) as H2%Z.eqb_neq by (Z.div_mod_to_equations; lia).
      rewrite H2. by rewrite (Z.div_small _ 2097152) by lia.
  - rewrite <- app_assoc, ShortU16_roundtrip by (unfold is_u16; lia). cbn.
    rewrite Nat2Z.id. by apply visit_elements_roundtrip.
Qed.
End Vec.

(** The third byte holds seven bits, not eight, and what does not fit a [u16] is
    dropped: one length has several encodings. *)
Lemma ShortU16_not_injective :
  ShortU16_deserialize [0x80; 0x80; 0x04] = Some (0, []) ∧
  ShortU16_deserialize [0] = Some (0, []) ∧
  ShortU16_serialize 0xffff = [0xff; 0xff; 0x03].
Proof. done. Qed.

Lemma short_vec_roundtrip_witness :
  ∃ prefix, short_serialize (enc u64_codec) [7; 8] =
      Ok (prefix ++ mjoin (enc u64_codec <$> [7; 8])) ∧
    Z.of_nat (length prefix) = 1 ∧
    short_deserialize (dec u64_codec) ((prefix ++ mjoin (enc u64_codec <$> [7; 8])) ++ [9]) =
      Some ([7; 8], [9]).
Proof.
  apply (short_vec_roundtrip (enc u64_codec) (dec u64_codec) (valid u64_codec)
    (dec_enc u64_codec) [7; 8] [9]). repeat constructor; cbn; lia.
Defined.
End short_vec_proofs.
