(* ===== verification/Budget.v ===== *)
(** * The budget program

    controllers/budget_api/src: payment plans ([budget_expr]), the state of a
    contract account ([budget_state]), the instructions and their builders
    ([budget_instruction]) and the native processor ([budget_processor]).

    A [DateTime<Utc>] is only compared: it is represented by the integer
    [secs * 2^31 + frac] of its chrono fields, which keeps its order. *)

From S2P Require Import Prelude Interface Codec SystemProgram Message MessageProcessor.

Notation DateTime := Z (only parsing).

Module budget_program.
Definition id : Pubkey :=
  be_bytes [2; 203; 81; 223; 225; 24; 34; 35; 203; 214; 138; 130; 144; 208; 35; 77; 63; 16; 87;
            51; 47; 198; 115; 123; 98; 188; 19; 160; 0; 0; 0; 0].
Definition check_id (program_id : Pubkey) : bool := program_id =? id.
End budget_program.
Global Arguments budget_program.id : simpl never.

Module budget_expr.

Inductive Witness :=
| Witness_Timestamp (dt : DateTime)
| Witness_Signature.

Global Instance Witness_eq_dec : EqDecision Witness.
Proof. solve_decision. Defined.

Record Payment := mkPayment { pay_difs : Z; pay_to : Pubkey }.

Inductive Condition :=
| Condition_Timestamp (dt : DateTime) (pubkey : Pubkey)
| Condition_Signature (pubkey : Pubkey).

Definition is_satisfied (c : Condition) (witness : Witness) (from : Pubkey) : bool :=
  match c, witness with
  | Condition_Signature pubkey, Witness_Signature => pubkey =? from
  | Condition_Timestamp dt pubkey, Witness_Timestamp last_time =>
      (pubkey =? from) && (dt <=? last_time)
  | _, _ => false
  end.

(** The two [(Condition, Box<BudgetExpr>)] pairs of [Or] are flattened. *)
Inductive BudgetExpr :=
| Pay (payment : Payment)
| After (c : Condition) (e : BudgetExpr)
| Or (cond0 : Condition) (e0 : BudgetExpr) (cond1 : Condition) (e1 : BudgetExpr)
| And (c0 c1 : Condition) (e : BudgetExpr).

Definition new_payment (difs : Z) (to : Pubkey) : BudgetExpr := Pay (mkPayment difs to).

Definition new_authorized_payment (from : Pubkey) (difs : Z) (to : Pubkey) : BudgetExpr :=
  After (Condition_Signature from) (new_payment difs to).

Definition new_cancelable_authorized_payment (witness : Pubkey) (difs : Z) (to : Pubkey)
    (from : option Pubkey) : BudgetExpr :=
  match from with
  | None => new_authorized_payment witness difs to
  | Some from =>
      Or (Condition_Signature witness) (new_payment difs to)
         (Condition_Signature from) (new_payment difs from)
  end.

Definition new_2_2_multisig_payment (from0 from1 : Pubkey) (difs : Z) (to : Pubkey)
    : BudgetExpr :=
  And (Condition_Signature from0) (Condition_Signature from1) (new_payment difs to).

Definition new_future_payment (dt : DateTime) (dt_pubkey : Pubkey) (difs : Z) (to : Pubkey)
    : BudgetExpr :=
  After (Condition_Timestamp dt dt_pubkey) (new_payment difs to).

Definition new_cancelable_future_payment (dt : DateTime) (dt_pubkey : Pubkey) (difs : Z)
    (to : Pubkey) (from : option Pubkey) : BudgetExpr :=
  match from with
  | None => new_future_payment dt dt_pubkey difs to
  | Some from =>
      Or (Condition_Timestamp dt dt_pubkey) (new_payment difs to)
         (Condition_Signature from) (new_payment difs from)
  end.

Definition final_payment (e : BudgetExpr) : option Payment :=
  match e with
  | Pay payment => Some payment
  | _ => None
  end.

Fixpoint verify (e : BudgetExpr) (spendable_difs : Z) : bool :=
  match e with
  | Pay payment => payment.(pay_difs) =? spendable_difs
  | After _ sub_expr | And _ _ sub_expr => verify sub_expr spendable_difs
  | Or _ a _ b => verify a spendable_difs && verify b spendable_difs
  end.

Definition apply_witness (e : BudgetExpr) (witness : Witness) (from : Pubkey) : BudgetExpr :=
  let new_expr :=
    match e with
    | After cond sub_expr => if is_satisfied cond witness from then Some sub_expr else None
    | Or cond0 sub_expr0 cond1 sub_expr1 =>
        if is_satisfied cond0 witness from then Some sub_expr0
        else if is_satisfied cond1 witness from then Some sub_expr1
        else None
    | And cond0 cond1 sub_expr =>
        if is_satisfied cond0 witness from then Some (After cond1 sub_expr)
        else if is_satisfied cond1 witness from then Some (After cond0 sub_expr)
        else None
    | Pay _ => None
    end in
  match new_expr with
  | Some expr => expr
  | None => e
  end.
End budget_expr.

Module budget_state.
Import budget_expr.

Inductive BudgetError := DestinationMissing.

(** [e as u32] *)
Definition BudgetError_as_u32 (e : BudgetError) : Z :=
  match e with DestinationMissing => 0 end.

Record BudgetState := mkBudgetState {
  initialized : bool;
  pending_budget : option BudgetExpr
}.

Definition BudgetState_default : BudgetState := mkBudgetState false None.

Definition BudgetState_new (e : BudgetExpr) : BudgetState := mkBudgetState true (Some e).

Definition with_pending (o : option BudgetExpr) (s : BudgetState) : BudgetState :=
  mkBudgetState s.(initialized) o.

Definition is_pending (s : BudgetState) : bool := bool_decide (is_Some s.(pending_budget)).

Section Bytes.
Context `{Bincode BudgetState}.

Definition BudgetState_serialize (s : BudgetState) (output : list Z)
    : res InstructionError unit * list Z :=
  match serialize_into s output with
  | (None, buf) => (Ok tt, buf)
  | (Some _, buf) => (Err AccountDataTooSmall, buf)
  end.

Definition BudgetState_deserialize (input : list Z) : res InstructionError BudgetState :=
  ok_or (deserialize input) InvalidAccountData.
End Bytes.
End budget_state.

Module budget_instruction.
Import budget_expr budget_state.

Inductive BudgetInstruction :=
| InitializeAccount (e : BudgetExpr)
| ApplyTimestamp (dt : DateTime)
| ApplySignature.

Section Builders.
Context `{!Bincode BudgetState, !Bincode BudgetInstruction}.
Context `{!Bincode system_instruction.SystemInstruction}.

Definition initialize_account (contract : Pubkey) (expr : BudgetExpr) : Instruction :=
  let keys :=
    match expr with
    | Pay payment => [AccountMeta_new payment.(pay_to) false]
    | _ => []
    end in
  let keys := keys ++ [AccountMeta_new contract false] in
  Instruction_new budget_program.id (InitializeAccount expr) keys.

Definition create_account {E} (from contract : Pubkey) (difs : Z) (expr : BudgetExpr)
    : res E (list Instruction) :=
  if negb (verify expr difs) then Panic
  else
    let space := serialized_size (BudgetState_new expr) in
    Ok [system_instruction.create_account from contract difs space budget_program.id;
        initialize_account contract expr].

(** [Pubkey::new_rand()] is the argument [contract]. *)
Definition payment {E} (contract from to : Pubkey) (difs : Z) : res E (list Instruction) :=
  let expr := new_payment difs to in
  create_account from contract difs expr.

Definition on_date {E} (from to contract : Pubkey) (dt : DateTime) (dt_pubkey : Pubkey)
    (cancelable : option Pubkey) (difs : Z) : res E (list Instruction) :=
  let expr := new_cancelable_future_payment dt dt_pubkey difs to cancelable in
  create_account from contract difs expr.

Definition when_signed {E} (from to contract witness : Pubkey) (cancelable : option Pubkey)
    (difs : Z) : res E (list Instruction) :=
  let expr := new_cancelable_authorized_payment witness difs to cancelable in
  create_account from contract difs expr.

Definition apply_metas (from contract to : Pubkey) : list AccountMeta :=
  [AccountMeta_new from true; AccountMeta_new contract false] ++
  (if negb (from =? to) then [AccountMeta_new to false] else []).

Definition apply_timestamp (from contract to : Pubkey) (dt : DateTime) : Instruction :=
  Instruction_new budget_program.id (ApplyTimestamp dt) (apply_metas from contract to).

Definition apply_signature (from contract to : Pubkey) : Instruction :=
  Instruction_new budget_program.id ApplySignature (apply_metas from contract to).
End Builders.
End budget_instruction.

Module budget_processor.
Import budget_expr budget_state budget_instruction.
Import system_instruction_processor(account_at, modify_account, add_difs, sub_difs).

(** The two [&mut] arguments of the helpers: the decoded contract and the
    accounts. *)
Definition BudgetM : Type → Type := M (BudgetState * list KeyedAccount) BudgetError.

Definition on_accounts {A} (m : M (list KeyedAccount) BudgetError A) : BudgetM A :=
  λ '(b, ks), let '(r, ks') := m ks in (r, (b, ks')).
Definition set_pending (o : option BudgetExpr) : BudgetM unit :=
  λ '(b, ks), (Ok tt, (with_pending o b, ks)).

(** The first block of both helpers: the plan waiting in the contract takes
    the witness of the signer. *)
Definition reduce_pending (w : Witness) : BudgetM (option Payment) :=
  '(b, _) ← getM;
  match b.(pending_budget) with
  | Some expr =>
      k0 ← on_accounts (account_at 0);
      key ← liftM (unwrap (signer_key k0));
      let expr := apply_witness expr w key in
      set_pending (Some expr);;
      mret (final_payment expr)
  | None => mret None
  end.

(** [keyed_accounts[1]] pays to [keyed_accounts[i]]. *)
Definition pay_out (i : nat) (p : Payment) : BudgetM unit :=
  set_pending None;;
  on_accounts (modify_account 1 (sub_difs p.(pay_difs)));;
  on_accounts (modify_account i (add_difs p.(pay_difs))).

(** Payment to the third account, which has to be the payee. *)
Definition pay_third (p : Payment) : BudgetM unit :=
  k2 ← on_accounts (account_at 2);
  if negb (p.(pay_to) =? unsigned_key k2)
  then throw DestinationMissing
  else pay_out 2 p.

Definition apply_signature : BudgetM unit :=
  final ← reduce_pending Witness_Signature;
  match final with
  | Some payment =>
      k0 ← on_accounts (account_at 0);
      match signer_key k0 with
      | Some key => if payment.(pay_to) =? key then pay_out 0 payment else pay_third payment
      | None => pay_third payment
      end
  | None => mret tt
  end.

Definition apply_timestamp (dt : DateTime) : BudgetM unit :=
  final ← reduce_pending (Witness_Timestamp dt);
  match final with
  | Some payment => pay_third payment
  | None => mret tt
  end.

Section Processor.
Context `{!Bincode BudgetState, !Bincode BudgetInstruction}.

(** [budget_state.serialize(&mut keyed_accounts[i].account.data)] *)
Definition store_state (i : nat) (s : BudgetState) : M (list KeyedAccount) InstructionError unit :=
  k ← account_at i;
  let '(r, buf) := BudgetState_serialize s k.(account).(data) in
  modify_account i (with_data buf);;
  liftM r.

(** The body that [ApplyTimestamp] and [ApplySignature] share. *)
Definition apply_instruction (helper : BudgetM unit)
    : M (list KeyedAccount) InstructionError unit :=
  k1 ← account_at 1;
  budget_state ← liftM (BudgetState_deserialize k1.(account).(data));
  if negb (is_pending budget_state) then mret tt
  else if negb budget_state.(initialized) then throw UninitializedAccount
  else
  k0 ← account_at 0;
  match signer_key k0 with
  | None => throw MissingRequiredSignature
  | Some _ =>
      budget_state' ← (λ ks, let '(r, (b, ks')) := helper (budget_state, ks) in
         (map_err (λ e, CustomError (BudgetError_as_u32 e)) (r;; Ok b), ks'));
      store_state 1 budget_state'
  end.

Definition process_instruction (data' : list Z)
    : M (list KeyedAccount) InstructionError unit :=
  instruction ← liftM (ok_or (deserialize data') InvalidInstructionData);
  match instruction with
  | InitializeAccount expr =>
      match final_payment expr with
      | Some payment =>
          modify_account 1 (with_difs 0);;
          modify_account 0 (add_difs payment.(pay_difs))
      | None =>
          k0 ← account_at 0;
          match BudgetState_deserialize k0.(account).(data) with
          | Ok (mkBudgetState true _) => throw AccountAlreadyInitialized
          | _ => store_state 0 (mkBudgetState true (Some expr))
          end
      end
  | ApplyTimestamp dt => apply_instruction (apply_timestamp dt)
  | ApplySignature => apply_instruction apply_signature
  end.

(** The program as the message processor calls it. *)
Definition budget_process : message_processor.ProcessInstruction :=
  λ _ ks ix _, let '(r, ks') := process_instruction ix ks in (r, account <$> ks').
End Processor.
End budget_processor.

Module budget_proofs.
Import budget_expr budget_state budget_instruction budget_processor.
Import system_instruction_processor(account_at, modify_account, add_difs, sub_difs).

(** ** Plans *)

Lemma verify_apply_witness e w from d : verify e d → verify (apply_witness e w from) d.
Proof.
  unfold apply_witness. destruct e as [p|c e|c0 e0 c1 e1|c0 c1 e]; cbn; intros Hv;
    rewrite ?andb_True in Hv; repeat case_match; cbn in *; simplify_eq; rewrite ?andb_True; tauto.
Qed.

Lemma final_payment_verified e p d :
  verify e d → final_payment e = Some p → p.(pay_difs) = d.
Proof. destruct e; [|done..]. cbn. intros Hv [= <-]. apply Is_true_true in Hv. lia. Qed.

(** ** Widths *)

Definition is_datetime (z : DateTime) : Prop := - 2 ^ 79 ≤ z < 2 ^ 79.

Definition condition_ranged (c : Condition) : Prop :=
  match c with
  | Condition_Timestamp dt k => is_datetime dt ∧ is_key k
  | Condition_Signature k => is_key k
  end.

Fixpoint expr_ranged (e : BudgetExpr) : Prop :=
  match e with
  | Pay p => is_u64 p.(pay_difs) ∧ is_key p.(pay_to)
  | After c e => condition_ranged c ∧ expr_ranged e
  | Or c0 e0 c1 e1 => condition_ranged c0 ∧ expr_ranged e0 ∧ condition_ranged c1 ∧ expr_ranged e1
  | And c0 c1 e => condition_ranged c0 ∧ condition_ranged c1 ∧ expr_ranged e
  end.

Global Instance BudgetState_ranged : Ranged BudgetState := λ s,
  from_option expr_ranged True s.(pending_budget).

Global Instance BudgetInstruction_ranged : Ranged BudgetInstruction := λ ix,
  match ix with
  | InitializeAccount e => expr_ranged e
  | ApplyTimestamp dt => is_datetime dt
  | ApplySignature => True
  end.

Lemma apply_witness_ranged e w from : expr_ranged e → expr_ranged (apply_witness e w from).
Proof.
  unfold apply_witness. destruct e; cbn; intros; repeat case_match; simplify_eq/=; naive_solver.
Qed.

(** ** The instructions that carry a witness *)

Definition witness_of (ix : BudgetInstruction) : option Witness :=
  match ix with
  | InitializeAccount _ => None
  | ApplyTimestamp dt => Some (Witness_Timestamp dt)
  | ApplySignature => Some Witness_Signature
  end.

(** The signer of an [ApplySignature] may be the payee; a timestamp pays to
    the third account only. *)
Definition pays_signer (w : Witness) (k0 : KeyedAccount) (p : Payment) : bool :=
  match w with
  | Witness_Signature => p.(pay_to) =? k0.(key)
  | Witness_Timestamp _ => false
  end.

Definition credited (p : Payment) (k : KeyedAccount) : KeyedAccount :=
  with_account (add_difs p.(pay_difs) k.(account)) k.

Section Apply.
Context `{!Bincode BudgetState, !BincodeLaws BudgetState}.
Context `{!Bincode BudgetInstruction}.

(** The contract account [k] after the instruction: its plan and its balance. *)
Definition contract_now (k k' : KeyedAccount) (o : option BudgetExpr) (d : Z) : Prop :=
  BudgetState_deserialize k'.(account).(data) = Ok (mkBudgetState true o) ∧
  k'.(account).(difs) = d ∧ key k' = key k ∧ is_signer k' = is_signer k ∧
  owner (account k') = owner (account k) ∧ executable (account k') = executable (account k) ∧
  length (data (account k')) = length (data (account k)).

Lemma BudgetState_deserialize_ok l s : BudgetState_deserialize l = Ok s → deserialize l = Some s.
Proof. unfold BudgetState_deserialize. destruct (deserialize l); cbn; congruence. Qed.

Lemma store_state_fits s k0 k1 rest :
  in_range s → (length (serialize s) ≤ length k1.(account).(data))%nat →
  ∃ buf, store_state 1 s (k0 :: k1 :: rest) =
    (Ok tt, k0 :: with_account (with_data buf k1.(account)) k1 :: rest) ∧
    BudgetState_deserialize buf = Ok s ∧ length buf = length k1.(account).(data).
Proof.
  intros Hr Hf. eexists (serialize s ++ drop (length (serialize s)) (data (account k1))).
  unfold store_state, BudgetState_serialize, account_at, modify_account. unfold_monad. cbn.
  rewrite serialize_into_fits by done. split_and!; [done| |].
  - unfold BudgetState_deserialize. by rewrite deserialize_serialize.
  - rewrite length_app, length_drop. lia.
Qed.

(** What the helpers do to a pending plan whose signer is there. *)
Definition plan_outcome (w : Witness) (e : BudgetExpr) (k0 k1 : KeyedAccount)
    (rest : list KeyedAccount)
    : res BudgetError unit * (BudgetState * list KeyedAccount) :=
  let e' := apply_witness e w k0.(key) in
  let b := mkBudgetState true (Some e') in
  let paid p := with_account (sub_difs p.(pay_difs) k1.(account)) k1 in
  match final_payment e' with
  | None => (Ok tt, (b, k0 :: k1 :: rest))
  | Some p =>
      if pays_signer w k0 p
      then (Ok tt, (mkBudgetState true None, credited p k0 :: paid p :: rest))
      else match rest with
           | [] => (Panic, (b, [k0; k1]))
           | k2 :: rest' =>
               if p.(pay_to) =? k2.(key)
               then (Ok tt, (mkBudgetState true None, k0 :: paid p :: credited p k2 :: rest'))
               else (Err DestinationMissing, (b, k0 :: k1 :: rest))
           end
  end.

Lemma apply_signature_outcome e k0 k1 rest :
  k0.(is_signer) = true →
  budget_processor.apply_signature (mkBudgetState true (Some e), k0 :: k1 :: rest) =
    plan_outcome Witness_Signature e k0 k1 rest.
Proof.
  intros Hs. unfold budget_processor.apply_signature, reduce_pending, plan_outcome, pay_third,
    pay_out, on_accounts, set_pending, account_at, modify_account, signer_key, unsigned_key.
  unfold_monad. cbn. rewrite Hs. cbn.
  destruct (final_payment _) as [p|]; [|done]. cbn. rewrite Hs. cbn.
  destruct (pay_to p =? key k0); [done|]. destruct rest as [|k2 rest]; [done|]. cbn.
  by destruct (pay_to p =? key k2).
Qed.

Lemma apply_timestamp_outcome dt e k0 k1 rest :
  k0.(is_signer) = true →
  budget_processor.apply_timestamp dt (mkBudgetState true (Some e), k0 :: k1 :: rest) =
    plan_outcome (Witness_Timestamp dt) e k0 k1 rest.
Proof.
  intros Hs. unfold budget_processor.apply_timestamp, reduce_pending, plan_outcome, pay_third,
    pay_out, on_accounts, set_pending, account_at, modify_account, signer_key, unsigned_key.
  unfold_monad. cbn. rewrite Hs. cbn.
  destruct (final_payment _) as [p|]; [|done]. cbn.
  destruct rest as [|k2 rest]; [done|]. cbn. by destruct (pay_to p =? key k2).
Qed.

(** The outcome of an instruction with a witness, as the accounts show it. *)
Lemma apply_instruction_outcome helper w e k0 k1 rest :
  k0.(is_signer) = true →
  BudgetState_deserialize k1.(account).(data) = Ok (mkBudgetState true (Some e)) →
  helper (mkBudgetState true (Some e), k0 :: k1 :: rest) = plan_outcome w e k0 k1 rest →
  apply_instruction helper (k0 :: k1 :: rest) =
    match plan_outcome w e k0 k1 rest with
    | (Ok _, (b, ks')) => store_state 1 b ks'
    | (Err err, (_, ks')) => (Err (CustomError (BudgetError_as_u32 err)), ks')
    | (Panic, (_, ks')) => (Panic, ks')
    end.
Proof.
  intros Hs Hd Hh. unfold apply_instruction. unfold_monad. cbn. rewrite Hd. cbn.
  unfold signer_key. rewrite Hs, Hh.
  by destruct (plan_outcome w e k0 k1 rest) as [[[]|err|] [b ks]].
Qed.

Lemma process_witness ix i w : deserialize ix = Some i → witness_of i = Some w →
  ∃ helper, (∀ ks, process_instruction ix ks = apply_instruction helper ks) ∧
    ∀ e k0 k1 rest, k0.(is_signer) = true →
      helper (mkBudgetState true (Some e), k0 :: k1 :: rest) = plan_outcome w e k0 k1 rest.
Proof.
  intros Hi Hw. unfold process_instruction. unfold_monad. rewrite Hi. cbn.
  destruct i as [|dt|]; [done| |]; injection Hw as <-; eexists; (split; [done|]);
    eauto using apply_signature_outcome, apply_timestamp_outcome.
Qed.

Lemma store_paid o p k0 k1 rest :
  from_option expr_ranged True o →
  (length (serialize (mkBudgetState true o)) ≤ length k1.(account).(data))%nat →
  ∃ k1', store_state 1 (mkBudgetState true o)
      (k0 :: with_account (sub_difs p k1.(account)) k1 :: rest) = (Ok tt, k0 :: k1' :: rest) ∧
    contract_now k1 k1' o (u64_sub k1.(account).(difs) p).
Proof.
  intros Hr Hf.
  destruct (store_state_fits (mkBudgetState true o) k0
    (with_account (sub_difs p (account k1)) k1) rest Hr Hf) as (buf & -> & Hd & Hl).
  by eexists.
Qed.

Lemma store_unpaid o k0 k1 rest :
  from_option expr_ranged True o →
  (length (serialize (mkBudgetState true o)) ≤ length k1.(account).(data))%nat →
  ∃ k1', store_state 1 (mkBudgetState true o) (k0 :: k1 :: rest) = (Ok tt, k0 :: k1' :: rest) ∧
    contract_now k1 k1' o k1.(account).(difs).
Proof.
  intros Hr Hf.
  destruct (store_state_fits (mkBudgetState true o) k0 k1 rest Hr Hf) as (buf & -> & Hd & Hl).
  by eexists.
Qed.

Lemma witness_outcome ix i w e k0 k1 rest :
  deserialize ix = Some i → witness_of i = Some w →
  BudgetState_deserialize k1.(account).(data) = Ok (mkBudgetState true (Some e)) →
  process_instruction ix (k0 :: k1 :: rest) =
    if negb k0.(is_signer) then (Err MissingRequiredSignature, k0 :: k1 :: rest)
    else match plan_outcome w e k0 k1 rest with
    | (Ok _, (b, ks')) => store_state 1 b ks'
    | (Err err, (_, ks')) => (Err (CustomError (BudgetError_as_u32 err)), ks')
    | (Panic, (_, ks')) => (Panic, ks')
    end.
Proof.
  intros Hix Hw Hdata. destruct (process_witness ix i w Hix Hw) as (helper & Hp & Hh). rewrite Hp.
  destruct (is_signer k0) eqn:Hs; cbn [negb]; cycle 1.
  { unfold apply_instruction. unfold_monad. cbn. rewrite Hdata. cbn.
    unfold signer_key. by rewrite Hs. }
  by rewrite (apply_instruction_outcome helper w e) by auto.
Qed.


Lemma contract_now_refl k o d :
  BudgetState_deserialize k.(account).(data) = Ok (mkBudgetState true o) →
  k.(account).(difs) = d → contract_now k k o d.
Proof. by unfold contract_now. Qed.

(** A plan that pays the party that has to sign the timestamp cannot be
    settled: whatever witness is presented, by whomever and with whatever
    accounts (the accounts of an instruction are distinct), the contract keeps
    its plan and its difs.  The program looks for the payee in the third
    account only, and the signer is the first. *)
Theorem timestamp_to_self_is_locked ix i w dt a d k0 k1 rest
    (Hix : deserialize ix = Some i) (Hw : witness_of i = Some w)
    (Hdata : BudgetState_deserialize k1.(account).(data) =
       Ok (mkBudgetState true (Some (new_future_payment dt a d a))))
    (Hroom : (length (serialize (mkBudgetState true (Some (new_future_payment dt a d a))))
       ≤ length k1.(account).(data))%nat)
    (Hdistinct : NoDup (key <$> k0 :: k1 :: rest)) :
  ∃ k1', (process_instruction ix (k0 :: k1 :: rest)).2 = k0 :: k1' :: rest ∧
    contract_now k1 k1' (Some (new_future_payment dt a d a)) k1.(account).(difs).
Proof.
  rewrite (witness_outcome ix i w _ k0 k1 rest Hix Hw Hdata).
  assert (expr_ranged (new_future_payment dt a d a)) as Hr.
  { by apply BudgetState_deserialize_ok, deserialize_in_range in Hdata. }
  destruct (is_signer k0); cbn [negb]; [|exists k1; split; [done|by apply contract_now_refl]].
  unfold plan_outcome, apply_witness.
  destruct (is_satisfied (Condition_Timestamp dt a) w (key k0)) eqn:Hsat;
    cbn [new_future_payment]; rewrite Hsat; cbn [final_payment new_payment].
  - destruct w as [t|]; [|done]. cbn in Hsat. apply andb_prop in Hsat as [Ha _]. cbn.
    destruct rest as [|k2 rest]; [exists k1; split; [done|by apply contract_now_refl]|].
    destruct (a =? key k2) eqn:Hk2; [|exists k1; split; [done|by apply contract_now_refl]].
    exfalso. apply Z.eqb_eq in Ha, Hk2. rewrite !fmap_cons in Hdistinct.
    apply NoDup_cons in Hdistinct as [Hni _]. set_solver.
  - destruct (store_unpaid (Some (new_future_payment dt a d a)) k0 k1 rest Hr Hroom)
      as (k1' & Hst & Hc).
    exists k1'. unfold new_future_payment, new_payment in *. cbn [final_payment].
    by rewrite Hst.
Qed.
End Apply.

(** ** Witness sequences *)

Definition run_plan (ws : list (Witness * Pubkey)) (e : BudgetExpr) : BudgetExpr :=
  foldl (λ e '(w, from), apply_witness e w from) e ws.

Lemma run_pay ws p : run_plan ws (Pay p) = Pay p.
Proof. unfold run_plan. induction ws as [|[w k] ws IH]; [done|]. cbn. apply IH. Qed.

Lemma run_after_signature k ws e :
  (Witness_Signature, k) ∈ ws → ∃ pre post, ws = pre ++ (Witness_Signature, k) :: post ∧
    run_plan ws (After (Condition_Signature k) e) = run_plan post e.
Proof.
  induction ws as [|[w f] ws IH]; [by intros ?%elem_of_nil|]. intros Hin%elem_of_cons.
  unfold run_plan. cbn. unfold apply_witness at 2. cbn.
  destruct w as [t|]; cbn; [|destruct (k =? f) eqn:Hk; [|apply Z.eqb_neq in Hk]].
  - destruct IH as (pre & post & -> & Hr); [by destruct Hin|].
    by exists ((Witness_Timestamp t, f) :: pre), post.
  - apply Z.eqb_eq in Hk as ->. by exists [], ws.
  - destruct IH as (pre & post & -> & Hr); [destruct Hin; [congruence|done]|].
    by exists ((Witness_Signature, f) :: pre), post.
Qed.

Lemma run_after_unsigned k ws e :
  (Witness_Signature, k) ∉ ws →
  run_plan ws (After (Condition_Signature k) e) = After (Condition_Signature k) e.
Proof.
  induction ws as [|[w f] ws IH]; [done|]. intros [Hne Hin]%not_elem_of_cons. unfold run_plan. cbn.
  unfold apply_witness at 2. cbn. destruct w as [t|]; cbn; [by apply IH|].
  destruct (k =? f) eqn:Hk; [|by apply IH]. apply Z.eqb_eq in Hk as ->. done.
Qed.

Definition settled_to (p : Payment) (e : BudgetExpr) : bool :=
  match final_payment e with
  | Some q => (pay_difs p =? pay_difs q) && (pay_to p =? pay_to q)
  | None => false
  end.

Lemma after_signature_settles k ws p :
  settled_to p (run_plan ws (After (Condition_Signature k) (Pay p))) = true ↔
  (Witness_Signature, k) ∈ ws.
Proof.
  destruct (decide ((Witness_Signature, k) ∈ ws)) as [Hin|Hin].
  - destruct (run_after_signature k ws (Pay p) Hin) as (? & ? & _ & ->).
    rewrite run_pay. cbn. by rewrite !Z.eqb_refl.
  - by rewrite run_after_unsigned.
Qed.

(** The two-of-two plan pays exactly when both parties have signed, with
    two different witnesses: one signature of a party that is named twice is
    not enough, and neither the order nor what else is presented matters. *)
Theorem multisig_needs_both from0 from1 d to ws :
  settled_to (mkPayment d to) (run_plan ws (new_2_2_multisig_payment from0 from1 d to)) = true ↔
  ∃ i j, i ≠ j ∧ ws !! i = Some (Witness_Signature, from0) ∧
    ws !! j = Some (Witness_Signature, from1).
Proof.
  induction ws as [|[w f] ws IH].
  { cbn. split; [done|]. by intros (i & j & _ & ? & _). }
  pose proof (λ k, after_signature_settles k ws (mkPayment d to)) as Hafter.
  unfold run_plan, new_2_2_multisig_payment, new_payment in *. cbn [foldl]. unfold apply_witness at 2.
  destruct w as [t|]; cbn [is_satisfied].
  { rewrite IH. split.
    - intros (i & j & ? & ? & ?). exists (S i), (S j). auto.
    - intros ([|i] & [|j] & ? & ? & ?); try done. exists i, j. auto. }
  destruct (from0 =? f) eqn:H0; [|destruct (from1 =? f) eqn:H1].
  - apply Z.eqb_eq in H0 as ->. rewrite Hafter. split.
    + intros [j Hj]%list_elem_of_lookup. by exists 0%nat, (S j).
    + intros (i & [|j] & ? & Hi & Hj); [|by eapply list_elem_of_lookup_2].
      cbn in Hj. injection Hj as ->. destruct i; [done|]. by eapply list_elem_of_lookup_2.
  - apply Z.eqb_eq in H1 as ->. rewrite Hafter. split.
    + intros [j Hj]%list_elem_of_lookup. by exists (S j), 0%nat.
    + intros ([|i] & j & ? & Hi & Hj); [|by eapply list_elem_of_lookup_2].
      cbn in Hi. injection Hi as ->. lia.
  - rewrite IH. split.
    + intros (i & j & ? & ? & ?). exists (S i), (S j). auto.
    + intros ([|i] & [|j] & ? & Hi & Hj); cbn in *; simplify_eq; try lia. exists i, j. auto.
Qed.

(** ** The message processor around the program *)

Section Theft.
Import message message_processor native_loader_program processor processor_proofs.
Context (open_library : list Z → option (option ProcessInstruction)).
Context `{!Bincode LoaderInstruction}.
Context `{!Bincode BudgetState}.
Context `{!Bincode BudgetInstruction, !BincodeLaws BudgetInstruction}.
Context (instruction_processors : list (Pubkey * ProcessInstruction)).

Lemma initialize_payment d to ka kb rest :
  is_u64 d → is_key to →
  budget_processor.process_instruction (serialize (InitializeAccount (new_payment d to)))
    (ka :: kb :: rest) =
  (Ok tt, with_account (add_difs d (account ka)) ka ::
          with_account (with_difs 0 (account kb)) kb :: rest).
Proof.
  intros Hd Hto. unfold budget_processor.process_instruction. unfold_monad.
  rewrite <- (app_nil_r (serialize _)), deserialize_serialize by done. done.
Qed.

(** Anyone empties any contract: an [InitializeAccount] whose plan is a
    plain payment takes all difs out of its second account, whatever plan that
    account already holds, and gives them to its first; no signature is looked
    at, and the checks of the message processor (ownership and balance of the
    instruction) accept the result. *)
Theorem initialize_drains_any_contract m ix tick_height s loader to k0 k1 signer0 signer1
    thief contract
    (Hprogram : program_id (E:=InstructionError) ix m.(account_keys) = Ok budget_program.id)
    (Hprocessor : find_processor instruction_processors budget_program.id = Some budget_process)
    (Hkeys : keys_and_signers m ix = Ok [(k0, signer0); (k1, signer1)])
    (Hloaders : s.(es_executable_accounts) = [loader])
    (Haccounts : s.(es_program_accounts) = [thief; contract])
    (Howner : contract.(owner) = budget_program.id)
    (Hix : ix.(ci_data) = serialize (InitializeAccount (new_payment contract.(difs) to)))
    (Hto : is_key to) (Hthief : 0 ≤ thief.(difs)) (Hdifs : 0 ≤ contract.(difs))
    (Hsum : thief.(difs) + contract.(difs) < two64) :
  let '(r, s') := execute_instruction open_library instruction_processors m ix tick_height s in
  r = Ok tt ∧
  s'.(es_program_accounts) =
    [with_difs (thief.(difs) + contract.(difs)) thief; with_difs 0 contract].
Proof.
  unfold execute_instruction, process_instruction. rewrite Hprogram, Hkeys, Haccounts, Hloaders.
  rewrite Hprocessor. cbn -[budget_process u64_sum verify_instruction].
  unfold budget_process. rewrite Hix, initialize_payment by (unfold is_u64; lia || done).
  destruct loader as [kl al]. cbn -[u64_sum verify_instruction add_difs].
  assert (add_difs (difs contract) thief = with_difs (difs thief + difs contract) thief) as ->.
  { unfold add_difs. by rewrite u64_add_exact. }
  rewrite (verify_accepts _ _ thief), (verify_accepts _ _ contract);
    [|done|by left|done|right; split; [cbn; lia|done]].
  rewrite !u64_sum_wrap. cbn -[wrap64]. rewrite !Z.add_0_r, Z.eqb_refl. done.
Qed.
End Theft.
End budget_proofs.

(** ** A codec and the witnesses *)

Module budget_demo.
Import budget_expr budget_state budget_instruction budget_processor budget_proofs.

Definition datetime_codec : codec DateTime.
Proof.
  refine (map_codec (int_codec 10) (λ z, z + 2 ^ 79) (λ z, Some (z - 2 ^ 79)) _ _).
  - intros a. f_equal. lia.
  - intros b a [= <-]. lia.
Defined.

Definition condition_codec : codec Condition.
Proof.
  refine (map_codec (sum_codec (pair_codec datetime_codec key_codec) key_codec)
    (λ c, match c with
          | Condition_Timestamp dt k => inl (dt, k)
          | Condition_Signature k => inr k
          end)
    (λ b, match b with
          | inl (dt, k) => Some (Condition_Timestamp dt k)
          | inr k => Some (Condition_Signature k)
          end) _ _).
  - by intros [].
  - by intros [[]|] ? [= <-].
Defined.

Definition payment_codec : codec Payment.
Proof.
  refine (map_codec (pair_codec u64_codec key_codec) (λ p, (p.(pay_difs), p.(pay_to)))
    (λ '(d, k), Some (mkPayment d k)) _ _).
  - by intros [].
  - by intros [] ? [= <-].
Defined.

Lemma payment_valid p : valid payment_codec p ↔ is_u64 (pay_difs p) ∧ is_key (pay_to p).
Proof. cbn. unfold is_u64, is_key. change (256 ^ Z.of_nat 8) with two64. tauto. Qed.

Lemma condition_valid c : valid condition_codec c ↔ condition_ranged c.
Proof.
  destruct c as [dt k|k]; cbn; [|done]. unfold is_datetime, is_key.
  change (Z.pow_pos 256 10) with (2 ^ 80) || change (256 ^ Z.of_nat 10) with (2 ^ 80).
  lia.
Qed.

Fixpoint expr_enc (e : BudgetExpr) : list Z :=
  match e with
  | Pay p => 0 :: enc payment_codec p
  | After c e => 1 :: enc condition_codec c ++ expr_enc e
  | Or c0 e0 c1 e1 =>
      2 :: enc condition_codec c0 ++ expr_enc e0 ++ enc condition_codec c1 ++ expr_enc e1
  | And c0 c1 e => 3 :: enc condition_codec c0 ++ enc condition_codec c1 ++ expr_enc e
  end.

(** Nesting is bounded by the length of the input. *)
Fixpoint expr_dec (n : nat) (l : list Z) : option (BudgetExpr * list Z) :=
  match n with
  | O => None
  | S n' =>
      match l with
      | 0 :: r => '(p, r) ← dec payment_codec r; Some (Pay p, r)
      | 1 :: r =>
          '(c, r) ← dec condition_codec r; '(e, r) ← expr_dec n' r; Some (After c e, r)
      | 2 :: r =>
          '(c0, r) ← dec condition_codec r; '(e0, r) ← expr_dec n' r;
          '(c1, r) ← dec condition_codec r; '(e1, r) ← expr_dec n' r; Some (Or c0 e0 c1 e1, r)
      | 3 :: r =>
          '(c0, r) ← dec condition_codec r; '(c1, r) ← dec condition_codec r;
          '(e, r) ← expr_dec n' r; Some (And c0 c1 e, r)
      | _ => None
      end
  end.

Lemma expr_dec_enc_fuel n : ∀ e rest, expr_ranged e → (length (expr_enc e) ≤ n)%nat →
  expr_dec n (expr_enc e ++ rest) = Some (e, rest).
Proof.
  induction n as [|n IH]; intros e rest Hv Hn; [destruct e; cbn in Hn; lia|].
  destruct e as [p|c e|c0 e0 c1 e1|c0 c1 e]; cbn [expr_ranged] in Hv; cbn [expr_enc expr_dec app];
    cbn [expr_enc length] in Hn; rewrite ?length_app in Hn; rewrite <- ?app_assoc.
  - rewrite dec_enc by (by apply payment_valid). done.
  - destruct Hv. rewrite dec_enc by (by apply condition_valid). cbn [mbind option_bind].
    rewrite IH by (done || lia). done.
  - destruct Hv as (? & ? & ? & ?). rewrite dec_enc by (by apply condition_valid). cbn [mbind option_bind].
    rewrite IH by (done || lia). cbn [mbind option_bind]. rewrite dec_enc by (by apply condition_valid). cbn [mbind option_bind].
    rewrite IH by (done || lia). done.
  - destruct Hv as (? & ? & ?). rewrite dec_enc by (by apply condition_valid). cbn [mbind option_bind].
    rewrite dec_enc by (by apply condition_valid). cbn [mbind option_bind].
    rewrite IH by (done || lia). done.
Qed.

Lemma expr_dec_ranged n : ∀ l e rest, expr_dec n l = Some (e, rest) → expr_ranged e.
Proof.
  induction n as [|n IH]; intros l e rest; [done|]. cbn [expr_dec].
  intros Hd. repeat (case_match; try done);
    repeat match type of Hd with
    | (?m ≫= _) = _ => destruct m as [[? ?]|] eqn:?; [cbn [mbind option_bind] in Hd|done]
    end; simplify_eq; cbn;
    repeat match goal with
    | H : dec payment_codec _ = Some _ |- _ => apply dec_valid, (proj1 (payment_valid _)) in H
    | H : dec condition_codec _ = Some _ |- _ => apply dec_valid, (proj1 (condition_valid _)) in H
    | H : expr_dec _ _ = Some _ |- _ => apply IH in H
    end; tauto.
Qed.

Program Definition expr_codec : codec BudgetExpr :=
  mkCodec expr_ranged expr_enc (λ l, expr_dec (length l) l) _ _.
Next Obligation.
  intros e rest Hv. apply expr_dec_enc_fuel; [done|]. rewrite length_app. lia.
Qed.
Next Obligation. intros l e rest. apply expr_dec_ranged. Qed.

Definition bool_codec : codec bool.
Proof.
  refine (map_codec (option_codec u8_codec) (λ b : bool, if b then Some 1 else None)
    (λ o, match o with Some 1 => Some true | None => Some false | _ => None end) _ _).
  - by intros [].
  - intros [z|] a Hz; repeat (case_match; try done); by simplify_eq.
Defined.

Definition BudgetState_codec : codec BudgetState.
Proof.
  refine (map_codec (pair_codec bool_codec (option_codec expr_codec))
    (λ s, (s.(initialized), s.(pending_budget))) (λ '(i, o), Some (mkBudgetState i o)) _ _).
  - by intros [].
  - by intros [] ? [= <-].
Defined.

Definition BudgetInstruction_codec : codec BudgetInstruction.
Proof.
  refine (map_codec (sum_codec expr_codec (option_codec datetime_codec))
    (λ ix, match ix with
           | InitializeAccount e => inl e
           | ApplyTimestamp dt => inr (Some dt)
           | ApplySignature => inr None
           end)
    (λ b, match b with
          | inl e => Some (InitializeAccount e)
          | inr (Some dt) => Some (ApplyTimestamp dt)
          | inr None => Some ApplySignature
          end) _ _).
  - by intros [].
  - by intros [|[]] ? [= <-].
Defined.

#[local] Instance demo_state_bincode : Bincode BudgetState := codec_bincode BudgetState_codec.
#[local] Instance demo_ix_bincode : Bincode BudgetInstruction :=
  codec_bincode BudgetInstruction_codec.

Lemma demo_state_laws : BincodeLaws BudgetState.
Proof.
  apply codec_laws. intros [i o]. unfold in_range, BudgetState_ranged. cbn.
  destruct i; split; try tauto; intros; (split; [done|done]).
Qed.
#[local] Existing Instance demo_state_laws.

Lemma demo_ix_laws : BincodeLaws BudgetInstruction.
Proof.
  apply codec_laws. intros [e|dt|]; cbn; [done| |done]. unfold is_datetime. cbn. lia.
Qed.
#[local] Existing Instance demo_ix_laws.

(** A contract with key 20 that holds 5 difs and a plan. *)
Definition demo_contract (e : BudgetExpr) : KeyedAccount :=
  mkKeyedAccount false 20
    (mkAccount 5 0 (serialize (mkBudgetState true (Some e))) budget_program.id false).
Definition demo_party (k : Pubkey) (signs : bool) : KeyedAccount :=
  mkKeyedAccount signs k (mkAccount 1 0 [] 0 false).

Definition demo_plan : BudgetExpr := new_cancelable_future_payment 100 10 5 11 (Some 12).


Lemma timestamp_to_self_is_locked_witness :
  ∃ k1', (process_instruction (serialize (ApplyTimestamp 150))
      [demo_party 10 true; demo_contract (new_future_payment 100 10 5 10)]).2 =
    [demo_party 10 true; k1'] ∧
  contract_now (demo_contract (new_future_payment 100 10 5 10)) k1'
    (Some (new_future_payment 100 10 5 10)) 5.
Proof.
  apply (timestamp_to_self_is_locked (serialize (ApplyTimestamp 150)) (ApplyTimestamp 150)
    (Witness_Timestamp 150) 100 10 5 (demo_party 10 true)
    (demo_contract (new_future_payment 100 10 5 10)) []).
  - vm_compute; reflexivity.
  - reflexivity.
  - vm_compute; reflexivity.
  - apply Nat.leb_le; vm_compute; reflexivity.
  - apply (bool_decide_unpack _); vm_compute; exact I.
Defined.

#[local] Instance demo_loader_bincode : Bincode native_loader_program.LoaderInstruction := {|
  serialize _ := [];
  deserialize _ := None;
  serialize_into _ buf := (None, buf)
|}.

(** The thief (key 30) signs the transaction; the contract (key 20) still waits
    for the timestamp of its plan. *)
Definition demo_theft_message : message.Message :=
  message.mkMessage (message.mkMessageHeader 1 0 1) [30; 20; budget_program.id] 0 [].
Definition demo_theft_ix : CompiledInstruction :=
  mkCompiledInstruction 2 [0; 1] (serialize (InitializeAccount (new_payment 5 30))).

Lemma initialize_drains_any_contract_witness :
  let s := processor.mkExec ∅ [(budget_program.id, Account_default)]
    [account (demo_party 30 true); account (demo_contract demo_plan)] in
  let '(r, s') := processor.execute_instruction (λ _, None) [(budget_program.id, budget_process)]
    demo_theft_message demo_theft_ix 0 s in
  r = Ok tt ∧
  processor.es_program_accounts s' =
    [with_difs 6 (account (demo_party 30 true)); with_difs 0 (account (demo_contract demo_plan))].
Proof.
  apply (initialize_drains_any_contract (λ _, None) [(budget_program.id, budget_process)]
    demo_theft_message demo_theft_ix 0 _ (budget_program.id, Account_default) 30 30 20 true false
    (account (demo_party 30 true)) (account (demo_contract demo_plan)));
    try reflexivity; try (vm_compute; reflexivity); cbn; unfold is_key; lia.
Defined.
End budget_demo.
