(* ===== verification/Token.v ===== *)
(** * The token program

    controllers/token_api/src: the states of a token account and their bytes,
    the five instructions ([token_state.rs]) and the entry point
    ([token_processor.rs]). *)

From stdpp Require Import functions.
From S2P Require Import Prelude Interface Codec SystemProgram Message MessageProcessor.

Module token_program.
Definition id : Pubkey :=
  be_bytes [6; 221; 246; 225; 142; 57; 236; 63; 240; 189; 82; 112; 85; 219; 2; 165; 51; 122; 113;
            201; 115; 12; 217; 253; 72; 146; 220; 192; 0; 0; 0; 0].
End token_program.
Global Arguments token_program.id : simpl never.

Module token_state.

Inductive TokenError :=
| TokenInvalidArgument
| InsufficentFunds
| NotOwner.

(** [e as u32] *)
Definition TokenError_as_u32 (e : TokenError) : Z :=
  match e with
  | TokenInvalidArgument => 0
  | InsufficentFunds => 1
  | NotOwner => 2
  end.

Record TokenInfo := mkTokenInfo {
  supply : Z;
  decimals : Z;
  ti_name : list Z;
  ti_symbol : list Z
}.

Record TokenAccountDelegateInfo := mkDelegateInfo {
  source : Pubkey;
  original_amount : Z
}.

Record TokenAccountInfo := mkTokenAccountInfo {
  token : Pubkey;
  ta_owner : Pubkey;
  amount : Z;
  delegate : option TokenAccountDelegateInfo
}.

Inductive TokenInstruction :=
| NewToken (info : TokenInfo)
| NewTokenAccount
| Transfer (amount : Z)
| Approve (amount : Z)
| SetOwner.

Inductive TokenState :=
| Unallocated
| Token (info : TokenInfo)
| TAccount (info : TokenAccountInfo)
| Invalid.

Definition with_amount (v : Z) (a : TokenAccountInfo) : TokenAccountInfo :=
  mkTokenAccountInfo a.(token) a.(ta_owner) v a.(delegate).
Definition with_ta_owner (v : Pubkey) (a : TokenAccountInfo) : TokenAccountInfo :=
  mkTokenAccountInfo a.(token) v a.(amount) a.(delegate).
Definition with_delegate (v : option TokenAccountDelegateInfo) (a : TokenAccountInfo)
    : TokenAccountInfo :=
  mkTokenAccountInfo a.(token) a.(ta_owner) a.(amount) v.

(** ** Bytes *)

Section Bytes.
Context `{!Bincode TokenInfo, !Bincode TokenAccountInfo}.
(** What happens to an encoding that is longer than the buffer of a
    [BufWriter] depends on the pieces in which bincode writes it. *)
Context (long_write : list Z → list Z → res TokenError unit * list Z).

Definition TokenState_deserialize (input : list Z) : res TokenError TokenState :=
  match input with
  | [] => Err TokenInvalidArgument
  | tag :: rest =>
      if tag =? 0 then Ok Unallocated
      else if tag =? 1 then i ← ok_or (deserialize rest) TokenInvalidArgument; Ok (Token i)
      else if tag =? 2 then a ← ok_or (deserialize rest) TokenInvalidArgument; Ok (TAccount a)
      else Err TokenInvalidArgument
  end.

Definition TokenState_serialize (st : TokenState) (output : list Z)
    : res TokenError unit * list Z :=
  match output with
  | [] => (Err TokenInvalidArgument, output)
  | _ :: out =>
      match st with
      | Unallocated | Invalid => (Err TokenInvalidArgument, output)
      | Token token_info =>
          let '(r, out') := buffered_write long_write (serialize token_info) out in (r, 1 :: out')
      | TAccount account_info =>
          let '(r, out') := buffered_write long_write (serialize account_info) out in (r, 2 :: out')
      end
  end.
End Bytes.

Definition TokenState_amount (st : TokenState) : res TokenError Z :=
  match st with
  | TAccount account_info => Ok account_info.(amount)
  | _ => Err TokenInvalidArgument
  end.

Definition only_owner (st : TokenState) (key : Pubkey) : res TokenError unit :=
  match st with
  | TAccount account_info =>
      if negb (key =? Pubkey_default) && (account_info.(ta_owner) =? key) then Ok tt
      else Err NotOwner
  | _ => Err NotOwner
  end.

(** ** Instructions

    The handlers push what is to be written; a handler that fails writes
    nothing, so its pushes are dropped. *)

Definition Outputs : Type := list (nat * TokenState).

(** [info[i].signer_key().unwrap()] and [info[i].unsigned_key()] *)
Definition signer_at (info : list KeyedAccount) (i : nat) : res TokenError Pubkey :=
  k ← unwrap (info !! i); unwrap (signer_key k).
Definition key_at (info : list KeyedAccount) (i : nat) : res TokenError Pubkey :=
  k ← unwrap (info !! i); Ok (unsigned_key k).
Definition input_at (input_accounts : list TokenState) (i : nat) : res TokenError TokenState :=
  unwrap (input_accounts !! i).

Definition is_unallocated (st : TokenState) : bool :=
  match st with Unallocated => true | _ => false end.

Definition process_newtoken (info : list KeyedAccount) (token_info : TokenInfo)
    (input_accounts : list TokenState) : res TokenError Outputs :=
  if negb (length input_accounts =? 2)%nat then Err TokenInvalidArgument
  else
  i1 ← input_at input_accounts 1;
  match i1 with
  | TAccount dest_account =>
      signer ← signer_at info 0;
      if negb (signer =? dest_account.(token)) then Err TokenInvalidArgument
      else if bool_decide (is_Some dest_account.(delegate)) then Err TokenInvalidArgument
      else
      let output_dest_account := with_amount token_info.(supply) dest_account in
      i0 ← input_at input_accounts 0;
      if negb (is_unallocated i0) then Err TokenInvalidArgument
      else Ok [(1%nat, TAccount output_dest_account); (0%nat, Token token_info)]
  | _ => Err TokenInvalidArgument
  end.

Definition process_newaccount (info : list KeyedAccount) (input_accounts : list TokenState)
    : res TokenError Outputs :=
  if (length input_accounts <? 3)%nat then Err TokenInvalidArgument
  else
  i0 ← input_at input_accounts 0;
  if negb (is_unallocated i0) then Err TokenInvalidArgument
  else
  token' ← key_at info 2;
  owner' ← key_at info 1;
  let token_account_info := mkTokenAccountInfo token' owner' 0 None in
  if (4 <=? length input_accounts)%nat
  then
    source' ← key_at info 3;
    Ok [(0%nat, TAccount (with_delegate (Some (mkDelegateInfo source' 0)) token_account_info))]
  else Ok [(0%nat, TAccount token_account_info)].

Definition process_transfer (info : list KeyedAccount) (amount' : Z)
    (input_accounts : list TokenState) : res TokenError Outputs :=
  if (length input_accounts <? 3)%nat then Err TokenInvalidArgument
  else
  i1 ← input_at input_accounts 1;
  i2 ← input_at input_accounts 2;
  match i1, i2 with
  | TAccount source_account, TAccount dest_account =>
      if negb (source_account.(token) =? dest_account.(token)) then Err TokenInvalidArgument
      else if bool_decide (is_Some dest_account.(delegate)) then Err TokenInvalidArgument
      else
      signer ← signer_at info 0;
      if negb (signer =? source_account.(ta_owner)) then Err TokenInvalidArgument
      else if source_account.(amount) <? amount' then Err InsufficentFunds
      else
      let output_source_account :=
        with_amount (u64_sub source_account.(amount) amount') source_account in
      let output_dest_account := with_amount (u64_add dest_account.(amount) amount') dest_account in
      match source_account.(delegate) with
      | Some delegate_info =>
          if negb (length input_accounts =? 4)%nat then Err TokenInvalidArgument
          else
          let delegate_account := source_account in
          i3 ← input_at input_accounts 3;
          match i3 with
          | TAccount source_account =>
              if negb (source_account.(token) =? delegate_account.(token))
              then Err TokenInvalidArgument
              else
              key3 ← key_at info 3;
              if negb (key3 =? delegate_info.(source)) then Err TokenInvalidArgument
              else if source_account.(amount) <? amount' then Err InsufficentFunds
              else
              Ok [(1%nat, TAccount output_source_account);
                  (3%nat, TAccount (with_amount (u64_sub source_account.(amount) amount')
                                      source_account));
                  (2%nat, TAccount output_dest_account)]
          | _ => Err TokenInvalidArgument
          end
      | None =>
          Ok [(1%nat, TAccount output_source_account); (2%nat, TAccount output_dest_account)]
      end
  | _, _ => Err TokenInvalidArgument
  end.

Definition process_approve (info : list KeyedAccount) (amount' : Z)
    (input_accounts : list TokenState) : res TokenError Outputs :=
  if negb (length input_accounts =? 3)%nat then Err TokenInvalidArgument
  else
  i1 ← input_at input_accounts 1;
  i2 ← input_at input_accounts 2;
  match i1, i2 with
  | TAccount source_account, TAccount delegate_account =>
      if negb (source_account.(token) =? delegate_account.(token)) then Err TokenInvalidArgument
      else
      signer ← signer_at info 0;
      if negb (signer =? source_account.(ta_owner)) then Err TokenInvalidArgument
      else if bool_decide (is_Some source_account.(delegate)) then Err TokenInvalidArgument
      else match delegate_account.(delegate) with
      | None => Err TokenInvalidArgument
      | Some delegate_info =>
          key1 ← key_at info 1;
          if negb (key1 =? delegate_info.(source)) then Err TokenInvalidArgument
          else
          Ok [(2%nat, TAccount (with_delegate
                (Some (mkDelegateInfo delegate_info.(source) amount'))
                (with_amount amount' delegate_account)))]
      end
  | _, _ => Err TokenInvalidArgument
  end.

Definition process_setowner (info : list KeyedAccount) (input_accounts : list TokenState)
    : res TokenError Outputs :=
  if (length input_accounts <? 3)%nat then Err TokenInvalidArgument
  else
  i1 ← input_at input_accounts 1;
  match i1 with
  | TAccount source_account =>
      signer ← signer_at info 0;
      if negb (signer =? source_account.(ta_owner)) then Err TokenInvalidArgument
      else
      key2 ← key_at info 2;
      Ok [(1%nat, TAccount (with_ta_owner key2 source_account))]
  | _ => Err TokenInvalidArgument
  end.

Section Process.
Context `{!Bincode TokenInfo, !Bincode TokenAccountInfo, !Bincode TokenInstruction}.
Context (long_write : list Z → list Z → res TokenError unit * list Z).

(** The state of one account, [Invalid] when the program does not own it or
    its bytes are no state. *)
Definition input_state (program_id : Pubkey) (a : Account) : TokenState :=
  if a.(owner) =? program_id then
    match TokenState_deserialize a.(data) with
    | Ok token_state => token_state
    | _ => Invalid
    end
  else Invalid.

Definition outputs (command : TokenInstruction) (info : list KeyedAccount)
    (input_accounts : list TokenState) : res TokenError Outputs :=
  match command with
  | NewToken token_info => process_newtoken info token_info input_accounts
  | NewTokenAccount => process_newaccount info input_accounts
  | Transfer amount' => process_transfer info amount' input_accounts
  | Approve amount' => process_approve info amount' input_accounts
  | SetOwner => process_setowner info input_accounts
  end.

(** The loop over [output_accounts]. *)
Fixpoint write_outputs (outs : Outputs) : M (list KeyedAccount) TokenError unit :=
  match outs with
  | [] => mret tt
  | (index, st) :: outs' =>
      k ← system_instruction_processor.account_at index;
      let '(r, buf) := TokenState_serialize long_write st k.(account).(data) in
      system_instruction_processor.modify_account index (with_data buf);;
      liftM r;;
      write_outputs outs'
  end.

Definition process (program_id : Pubkey) (input : list Z)
    : M (list KeyedAccount) TokenError unit :=
  command ← liftM (ok_or (deserialize input) TokenInvalidArgument);
  k0 ← system_instruction_processor.account_at 0;
  match signer_key k0 with
  | None => throw TokenInvalidArgument
  | Some _ =>
      info ← getM;
      let input_accounts := (λ k, input_state program_id k.(account)) <$> info in
      output_accounts ← liftM (outputs command info input_accounts);
      write_outputs output_accounts
  end.

(** [token_processor::process_instruction] *)
Definition process_instruction (program_id : Pubkey) (input : list Z)
    : M (list KeyedAccount) InstructionError unit :=
  λ info, let '(r, info') := process program_id input info in
    (map_err (λ e, CustomError (TokenError_as_u32 e)) r, info').
End Process.
End token_state.

Module token_proofs.
Import token_state.

(** ** The ledger the program sees: a state for every key *)

Notation View := (Pubkey → TokenState).

(** The tokens of kind [T] that an account holds itself; what a delegate may
    spend belongs to its source. *)
Definition own_amount (T : Pubkey) (st : TokenState) : Z :=
  match st with
  | TAccount a =>
      if (a.(token) =? T) && negb (bool_decide (is_Some a.(delegate))) then a.(amount) else 0
  | _ => 0
  end.

Definition circulating (ks : list Pubkey) (S : View) (T : Pubkey) : Z :=
  Zsum ((λ k, own_amount T (S k)) <$> ks).

Definition supply_of (st : TokenState) : Z :=
  match st with Token i => i.(supply) | _ => 0 end.

Definition is_own_account (st : TokenState) : bool :=
  match st with TAccount a => negb (bool_decide (is_Some a.(delegate))) | _ => false end.

Definition amount_ok (st : TokenState) : Prop :=
  match st with
  | TAccount a => is_u64 a.(amount)
  | Token i => is_u64 i.(supply)
  | _ => True
  end.

(** The books of the program: every token that exists is held by somebody and
    nothing else is; an allowance is always on an account of its own. *)
Record books (ks : list Pubkey) (S : View) : Prop := mkBooks {
  books_supply : ∀ T, circulating ks S T = supply_of (S T);
  books_amount : ∀ k, amount_ok (S k);
  books_delegate : ∀ k a d, S k = TAccount a → a.(delegate) = Some d → 0 < a.(amount) →
    is_own_account (S d.(source)) = true
}.

Section Books.
Context (ks : list Pubkey) (Hks : NoDup ks).

Lemma own_amount_nonneg T st : amount_ok st → 0 ≤ own_amount T st.
Proof. destruct st; cbn; try lia. unfold is_u64. case_match; lia. Qed.

Lemma circulating_insert S T k st : k ∈ ks →
  circulating ks (<[k := st]> S) T = circulating ks S T + own_amount T st - own_amount T (S k).
Proof.
  intros Hk. unfold circulating.
  rewrite (Zsum_change (λ k, own_amount T (S k)) (λ k', own_amount T (<[k := st]> S k')) ks [k]);
    [|done|apply NoDup_singleton|set_solver|].
  - cbn. rewrite fn_lookup_insert. lia.
  - intros k' Hk'. rewrite fn_lookup_insert_ne; [done|]. set_solver.
Qed.

Lemma circulating_ge S T k : (∀ k, amount_ok (S k)) → k ∈ ks →
  own_amount T (S k) ≤ circulating ks S T.
Proof.
  intros Hok [l1 [l2 ->]]%list_elem_of_split. unfold circulating.
  rewrite fmap_app, fmap_cons, Zsum_app. cbn [Zsum].
  assert (∀ l, 0 ≤ Zsum ((λ k, own_amount T (S k)) <$> l)) as Hnn.
  { intros l. apply Zsum_nonneg, Forall_fmap, Forall_forall. intros x _. cbn.
    apply own_amount_nonneg, Hok. }
  pose proof (Hnn l1). pose proof (Hnn l2). lia.
Qed.

Lemma circulating_ge2 S T k k' : (∀ k, amount_ok (S k)) → k ∈ ks → k' ∈ ks → k ≠ k' →
  own_amount T (S k) + own_amount T (S k') ≤ circulating ks S T.
Proof.
  intros Hok Hk Hk' Hne.
  pose proof (circulating_insert S T k Unallocated Hk) as Hi. cbn [own_amount] in Hi.
  pose proof (circulating_ge (<[k := Unallocated]> S) T k') as Hge.
  rewrite fn_lookup_insert_ne in Hge by done.
  assert (∀ x, amount_ok (<[k := Unallocated]> S x)) as Hok'.
  { intros x. destruct (decide (x = k)) as [->|]; [by rewrite fn_lookup_insert|].
    rewrite fn_lookup_insert_ne by done. apply Hok. }
  specialize (Hge Hok' Hk'). lia.
Qed.

(** An update that keeps kinds and holdings keeps the books. *)
Lemma books_insert S k st :
  books ks S → k ∈ ks → amount_ok st →
  (∀ T, own_amount T st = own_amount T (S k)) → supply_of st = supply_of (S k) →
  (is_own_account (S k) = true → is_own_account st = true) →
  (∀ a d, st = TAccount a → a.(delegate) = Some d → 0 < a.(amount) →
     is_own_account (S d.(source)) = true) →
  books ks (<[k := st]> S).
Proof.
  intros [Hs Ha Hd] Hk Hok Hown Hsup Hkind Hdel. split.
  - intros T. rewrite circulating_insert, Hown, Hs by done. rewrite Z.add_simpl_r.
    destruct (decide (T = k)) as [->|]; [by rewrite fn_lookup_insert|].
    by rewrite fn_lookup_insert_ne.
  - intros x. destruct (decide (x = k)) as [->|]; [by rewrite fn_lookup_insert|].
    by rewrite fn_lookup_insert_ne.
  - intros x a d Hx Had Hpos.
    assert (is_own_account (S (source d)) = true) as Hsrc.
    { destruct (decide (x = k)) as [->|].
      - rewrite fn_lookup_insert in Hx. by eapply Hdel.
      - rewrite fn_lookup_insert_ne in Hx by done. by eapply Hd. }
    destruct (decide (source d = k)) as [He|]; [|by rewrite fn_lookup_insert_ne].
    rewrite He in *. rewrite fn_lookup_insert. auto.
Qed.

Lemma books_ext S S' : (∀ k, S' k = S k) → books ks S → books ks S'.
Proof.
  intros He [Hs Ha Hd]. split.
  - intros T. rewrite He, <- Hs. unfold circulating. f_equal. apply list_fmap_ext.
    intros i x _. by rewrite He.
  - intros x. by rewrite He.
  - intros x a d. rewrite !He. apply Hd.
Qed.

Lemma books_same S k st st' : books ks S → S k = st → st' = st → books ks (<[k := st']> S).
Proof.
  intros Hb Hk ->. subst st. apply (books_ext S); [|done].
  intros x. destruct (decide (x = k)) as [->|]; [by rewrite fn_lookup_insert|].
  by rewrite fn_lookup_insert_ne.
Qed.

(** Moving tokens between two accounts of their own. *)
Lemma books_move S k1 k2 a1 a2 amt :
  books ks S → k1 ∈ ks → k2 ∈ ks → k1 ≠ k2 → S k1 = TAccount a1 → S k2 = TAccount a2 →
  a1.(delegate) = None → a2.(delegate) = None → a1.(token) = a2.(token) →
  0 ≤ amt ≤ a1.(amount) →
  books ks (<[k2 := TAccount (with_amount (u64_add a2.(amount) amt) a2)]>
            (<[k1 := TAccount (with_amount (u64_sub a1.(amount) amt) a1)]> S)).
Proof.
  intros [Hs Ha Hd] Hk1 Hk2 Hne H1 H2 Hd1 Hd2 Ht Hamt.
  pose proof (Ha k1) as Ha1. pose proof (Ha k2) as Ha2. rewrite H1 in Ha1. rewrite H2 in Ha2.
  cbn in Ha1, Ha2.
  assert (amount a1 + amount a2 < two64) as Hsum.
  { pose proof (circulating_ge2 S (token a1) k1 k2 Ha Hk1 Hk2 Hne) as Hge.
    rewrite Hs, H1, H2 in Hge. cbn in Hge. rewrite <- Ht, Z.eqb_refl, Hd1, Hd2 in Hge. cbn in Hge.
    pose proof (Ha (token a1)) as Hsup. destruct (S (token a1)); cbn in Hsup, Hge;
      unfold is_u64 in *; lia. }
  unfold is_u64 in *. rewrite u64_add_exact, u64_sub_exact by (unfold is_u64; lia).
  split.
  - intros T. rewrite !circulating_insert, fn_lookup_insert_ne by done. rewrite Hs, H1, H2.
    cbn [own_amount with_amount token delegate amount]. rewrite Hd1, Hd2, <- Ht.
    assert (supply_of (S T) = supply_of
      (<[k2:=TAccount (with_amount (amount a2 + amt) a2)]>
         (<[k1:=TAccount (with_amount (amount a1 - amt) a1)]> S) T)) as <-.
    { destruct (decide (T = k2)) as [->|]; [by rewrite fn_lookup_insert, H2|].
      rewrite fn_lookup_insert_ne by done.
      destruct (decide (T = k1)) as [->|]; [by rewrite fn_lookup_insert, H1|].
      by rewrite fn_lookup_insert_ne. }
    cbn. destruct (token a1 =? T); cbn; lia.
  - intros x. destruct (decide (x = k2)) as [->|]; [rewrite fn_lookup_insert; cbn; unfold is_u64; lia|].
    rewrite fn_lookup_insert_ne by done.
    destruct (decide (x = k1)) as [->|]; [rewrite fn_lookup_insert; cbn; unfold is_u64; lia|].
    rewrite fn_lookup_insert_ne by done. apply Ha.
  - intros x a d Hx Had Hpos.
    assert (is_own_account (S (source d)) = true) as Hsrc.
    { destruct (decide (x = k2)) as [->|].
      { rewrite fn_lookup_insert in Hx. injection Hx as <-. cbn in Had. congruence. }
      rewrite fn_lookup_insert_ne in Hx by done. destruct (decide (x = k1)) as [->|].
      { rewrite fn_lookup_insert in Hx. injection Hx as <-. cbn in Had. congruence. }
      rewrite fn_lookup_insert_ne in Hx by done. by eapply Hd. }
    destruct (decide (source d = k2)) as [->|]; [rewrite fn_lookup_insert; cbn; by rewrite Hd2|].
    rewrite fn_lookup_insert_ne by done.
    destruct (decide (source d = k1)) as [->|]; [rewrite fn_lookup_insert; cbn; by rewrite Hd1|].
    by rewrite fn_lookup_insert_ne.
Qed.

(** Creating a token: its key was no token, so nobody held any. *)
Lemma books_mint S k0 k1 a1 i :
  books ks S → k0 ∈ ks → k1 ∈ ks → k0 ≠ k1 → S k0 = Unallocated → S k1 = TAccount a1 →
  a1.(token) = k0 → a1.(delegate) = None → is_u64 i.(supply) →
  books ks (<[k0 := Token i]> (<[k1 := TAccount (with_amount i.(supply) a1)]> S)).
Proof.
  intros [Hs Ha Hd] Hk0 Hk1 Hne H0 H1 Ht Hd1 Hsup.
  assert (amount a1 = 0) as Hz.
  { pose proof (circulating_ge S k0 k1 Ha Hk1) as Hge. rewrite Hs, H0, H1 in Hge. cbn in Hge.
    rewrite Ht, Z.eqb_refl, Hd1 in Hge. cbn in Hge. pose proof (Ha k1) as Ha1.
    rewrite H1 in Ha1. cbn in Ha1. unfold is_u64 in Ha1. lia. }
  split.
  - intros T. rewrite !circulating_insert by done.
    rewrite fn_lookup_insert_ne, Hs, H0, H1 by done. cbn. rewrite Ht, Hd1. cbn.
    destruct (decide (T = k0)) as [->|HT].
    + rewrite fn_lookup_insert, H0, Z.eqb_refl. cbn. lia.
    + rewrite fn_lookup_insert_ne by done. rewrite (proj2 (Z.eqb_neq k0 T)) by done. cbn.
      destruct (decide (T = k1)) as [->|]; [rewrite fn_lookup_insert, H1; cbn; lia|].
      rewrite fn_lookup_insert_ne by done. lia.
  - intros x. destruct (decide (x = k0)) as [->|]; [by rewrite fn_lookup_insert|].
    rewrite fn_lookup_insert_ne by done.
    destruct (decide (x = k1)) as [->|]; [by rewrite fn_lookup_insert|].
    rewrite fn_lookup_insert_ne by done. apply Ha.
  - intros x a d Hx Had Hpos.
    assert (is_own_account (S (source d)) = true) as Hsrc.
    { destruct (decide (x = k0)) as [->|]; [by rewrite fn_lookup_insert in Hx|].
      rewrite fn_lookup_insert_ne in Hx by done. destruct (decide (x = k1)) as [->|].
      { rewrite fn_lookup_insert in Hx. injection Hx as <-. cbn in Had. congruence. }
      rewrite fn_lookup_insert_ne in Hx by done. by eapply Hd. }
    destruct (decide (source d = k0)) as [He|]; [by rewrite He, H0 in Hsrc|].
    rewrite fn_lookup_insert_ne by done.
    destruct (decide (source d = k1)) as [->|]; [rewrite fn_lookup_insert; cbn; by rewrite Hd1|].
    by rewrite fn_lookup_insert_ne.
Qed.

(** ** What the handlers push *)

Definition apply_outputs (info : list KeyedAccount) (outs : Outputs) (S : View) : View :=
  foldl (λ S '(i, st), match info !! i with Some k => <[key k := st]> S | None => S end) S outs.

Lemma signer_at_ok info i pk : signer_at info i = Ok pk →
  ∃ k, info !! i = Some k ∧ signer_key k = Some pk.
Proof. intros (k & Hk%unwrap_ok & Hs%unwrap_ok)%res_bind_ok. eauto. Qed.

Lemma key_at_ok info i pk : key_at info i = Ok pk → ∃ k, info !! i = Some k ∧ key k = pk.
Proof. intros (k & Hk%unwrap_ok & [= <-])%res_bind_ok. eauto. Qed.

Definition command_ranged (c : TokenInstruction) : Prop :=
  match c with
  | NewToken i => is_u64 i.(supply)
  | Transfer v | Approve v => is_u64 v
  | NewTokenAccount | SetOwner => True
  end.

Section Handlers.
Context (S : View) (info : list KeyedAccount).
Context (Hbooks : books ks S) (Hin : ∀ k, k ∈ info → key k ∈ ks) (Hnd : NoDup (key <$> info)).

Definition inputs : list TokenState := (λ k, S (key k)) <$> info.

Lemma input_at_ok i st : input_at inputs i = Ok st → ∃ k, info !! i = Some k ∧ S (key k) = st.
Proof.
  intros Hi%unwrap_ok. apply list_lookup_fmap_Some in Hi as (k & -> & Hk). eauto.
Qed.

Lemma keys_distinct i j k k' : info !! i = Some k → info !! j = Some k' → i ≠ j → key k ≠ key k'.
Proof.
  intros Hi Hj Hij He. apply Hij. eapply (NoDup_lookup (key <$> info)); [done|..];
    rewrite list_lookup_fmap; [by rewrite Hi|]. cbn. rewrite Hj. cbn. by rewrite He.
Qed.

Lemma key_in i k : info !! i = Some k → key k ∈ ks.
Proof. intros Hi. by eapply Hin, list_elem_of_lookup_2. Qed.

Lemma newtoken_books ti outs : is_u64 ti.(supply) →
  process_newtoken info ti inputs = Ok outs → books ks (apply_outputs info outs S).
Proof.
  intros Hsup. unfold process_newtoken. case_match; [done|].
  intros (i1 & (k1 & Hk1 & H1)%input_at_ok & Hr)%res_bind_ok. destruct i1 as [| |a1|]; try done.
  apply res_bind_ok in Hr as (pk & (k0 & Hk0 & Hsk)%signer_at_ok & Hr).
  destruct (Z.eqb_spec pk (token a1)) as [->|]; [|done]. cbn [negb] in Hr.
  destruct (delegate a1) eqn:Hd1; [done|]. cbn in Hr.
  apply res_bind_ok in Hr as (i0 & (k0' & Hk0' & H0)%input_at_ok & Hr).
  destruct i0; try done. injection Hr as <-. rewrite Hk0 in Hk0'. injection Hk0' as <-.
  unfold signer_key in Hsk. destruct (is_signer k0); [|done]. injection Hsk as Hsk.
  unfold apply_outputs. cbn. rewrite Hk1, Hk0.
  eapply books_mint; eauto using key_in, keys_distinct.
Qed.

Lemma newaccount_books outs :
  process_newaccount info inputs = Ok outs → books ks (apply_outputs info outs S).
Proof.
  unfold process_newaccount. case_match; [done|].
  intros (i0 & (k0 & Hk0 & H0)%input_at_ok & Hr)%res_bind_ok. destruct i0; try done.
  apply res_bind_ok in Hr as (t & _ & (o & _ & Hr)%res_bind_ok).
  assert (∃ a, outs = [(0%nat, TAccount a)] ∧ amount a = 0) as (a & -> & Ha).
  { case_match; [|injection Hr as <-; eexists; split; done].
    apply res_bind_ok in Hr as (s & _ & [= <-]). eexists. split; done. }
  unfold apply_outputs. cbn. rewrite Hk0.
  apply books_insert; eauto using key_in.
  - cbn. rewrite Ha. done.
  - intros T. rewrite H0. cbn. rewrite Ha. by destruct (_ && _).
  - by rewrite H0.
  - by rewrite H0.
  - intros a' d [= <-] _. lia.
Qed.

Lemma approve_books v outs : is_u64 v →
  process_approve info v inputs = Ok outs → books ks (apply_outputs info outs S).
Proof.
  intros Hv. unfold process_approve. case_match; [done|].
  intros (i1 & (k1 & Hk1 & H1)%input_at_ok & Hr)%res_bind_ok.
  apply res_bind_ok in Hr as (i2 & (k2 & Hk2 & H2)%input_at_ok & Hr).
  destruct i1 as [| |a1|]; try done. destruct i2 as [| |a2|]; try done.
  case_match; [done|]. apply res_bind_ok in Hr as (pk & _ & Hr). case_match; [done|].
  destruct (delegate a1) eqn:Hd1; [done|]. cbn in Hr. destruct (delegate a2) as [d2|] eqn:Hd2; [|done].
  apply res_bind_ok in Hr as (pk1 & (k1' & Hk1' & <-)%key_at_ok & Hr).
  rewrite Hk1 in Hk1'. injection Hk1' as <-.
  destruct (Z.eqb_spec (key k1) (source d2)) as [He|]; [|done]. injection Hr as <-.
  unfold apply_outputs. cbn. rewrite Hk2. apply books_insert; eauto using key_in.
  - intros T. rewrite H2. cbn. rewrite Hd2. cbn. by rewrite !andb_false_r.
  - by rewrite H2.
  - rewrite H2. cbn. by rewrite Hd2.
  - intros a d [= <-] [= <-] _. cbn. rewrite <- He, H1. cbn. by rewrite Hd1.
Qed.

Lemma setowner_books outs :
  process_setowner info inputs = Ok outs → books ks (apply_outputs info outs S).
Proof.
  unfold process_setowner. case_match; [done|].
  intros (i1 & (k1 & Hk1 & H1)%input_at_ok & Hr)%res_bind_ok. destruct i1 as [| |a1|]; try done.
  apply res_bind_ok in Hr as (pk & _ & Hr). case_match; [done|].
  apply res_bind_ok in Hr as (pk2 & _ & [= <-]). unfold apply_outputs. cbn. rewrite Hk1.
  apply books_insert; eauto using key_in; try by rewrite H1.
  - pose proof (books_amount _ _ Hbooks (key k1)) as Ha. by rewrite H1 in Ha.
  - intros a d [= <-]. cbn. by eapply books_delegate.
Qed.

Lemma transfer_books v outs : is_u64 v →
  process_transfer info v inputs = Ok outs → books ks (apply_outputs info outs S).
Proof.
  intros Hv. unfold process_transfer. case_match; [done|].
  intros (i1 & (k1 & Hk1 & HS1)%input_at_ok & Hr)%res_bind_ok.
  apply res_bind_ok in Hr as (i2 & (k2 & Hk2 & HS2)%input_at_ok & Hr).
  destruct i1 as [| |a1|]; try done. destruct i2 as [| |a2|]; try done.
  destruct (Z.eqb_spec (token a1) (token a2)) as [Ht|]; [|done]. cbn [negb] in Hr.
  destruct (delegate a2) eqn:Hd2; [done|]. cbn in Hr.
  apply res_bind_ok in Hr as (pk & _ & Hr). case_match; [done|].
  destruct (Z.ltb_spec (amount a1) v) as [|Hle]; [done|]. unfold is_u64 in Hv.
  pose proof (books_amount _ _ Hbooks (key k1)) as Ha1. rewrite HS1 in Ha1. cbn in Ha1.
  destruct (delegate a1) as [d1|] eqn:Hd1; cycle 1.
  { injection Hr as <-. unfold apply_outputs. cbn. rewrite Hk1, Hk2.
    eapply books_move; eauto using key_in, keys_distinct with lia. }
  case_match; [done|]. apply res_bind_ok in Hr as (i3 & (k3 & Hk3 & HS3)%input_at_ok & Hr).
  destruct i3 as [| |a3|]; try done.
  destruct (Z.eqb_spec (token a3) (token a1)) as [Ht3|]; [|done]. cbn [negb] in Hr.
  apply res_bind_ok in Hr as (pk3 & (k3' & Hk3' & <-)%key_at_ok & Hr).
  rewrite Hk3 in Hk3'. injection Hk3' as <-.
  destruct (Z.eqb_spec (key k3) (source d1)) as [Hsrc|]; [|done]. cbn [negb] in Hr.
  destruct (Z.ltb_spec (amount a3) v) as [|Hle3]; [done|]. injection Hr as <-.
  unfold apply_outputs. cbn. rewrite Hk1, Hk3, Hk2.
  assert (key k1 ≠ key k3 ∧ key k1 ≠ key k2 ∧ key k3 ≠ key k2) as (H13 & H12 & H32)
    by (split_and!; eapply keys_distinct; eauto).
  assert (is_own_account (S (key k3)) = true ∨ v = 0) as Hown.
  { destruct (decide (v = 0)); [by right|]. left. rewrite Hsrc.
    eapply (books_delegate _ _ Hbooks (key k1)); eauto. lia. }
  assert (books ks (<[key k1 := TAccount (with_amount (u64_sub (amount a1) v) a1)]> S)) as Hb1.
  { apply books_insert; eauto using key_in; try by rewrite HS1.
    - cbn. apply wrap64_range.
    - intros T. rewrite HS1. cbn. rewrite Hd1. cbn. by rewrite !andb_false_r.
    - intros a d [= <-]. cbn. rewrite u64_sub_exact by (done || lia). intros Hd Hpos.
      eapply (books_delegate _ _ Hbooks (key k1)); eauto. lia. }
  destruct Hown as [Hown| ->].
  - rewrite HS3 in Hown. cbn in Hown. destruct (delegate a3) eqn:Hd3; [done|].
    eapply books_move; eauto using key_in; rewrite ?fn_lookup_insert_ne by done; eauto; congruence || lia.
  - pose proof (books_amount _ _ Hbooks (key k3)) as Ha3. rewrite HS3 in Ha3.
    pose proof (books_amount _ _ Hbooks (key k2)) as Ha2. rewrite HS2 in Ha2. cbn in Ha2, Ha3.
    rewrite (u64_sub_exact (amount a3)), Z.sub_0_r by (done || unfold is_u64 in *; lia).
    rewrite (u64_add_exact (amount a2)), Z.add_0_r by (unfold is_u64 in *; lia).
    apply (books_same _ (key k2) (TAccount a2)); [apply (books_same _ (key k3) (TAccount a3));
      [done|by rewrite fn_lookup_insert_ne|by destruct a3]|
      by rewrite !fn_lookup_insert_ne|by destruct a2].
Qed.

Lemma outputs_books c outs : command_ranged c →
  outputs c info inputs = Ok outs → books ks (apply_outputs info outs S).
Proof.
  destruct c; cbn; eauto using newtoken_books, newaccount_books, transfer_books, approve_books,
    setowner_books.
Qed.
End Handlers.
End Books.

(** ** Widths of what is written *)

Definition string_ranged (s : list Z) : Prop :=
  (Forall is_u8 s ∧ is_u64 (Z.of_nat (length s))) ∧
  native_loader_program.utf8_valid s = true.

Global Instance TokenInfo_ranged : Ranged TokenInfo := λ i,
  is_u64 i.(supply) ∧ is_u8 i.(decimals) ∧ string_ranged i.(ti_name) ∧ string_ranged i.(ti_symbol).

Global Instance TokenAccountInfo_ranged : Ranged TokenAccountInfo := λ a,
  is_key a.(token) ∧ is_key a.(ta_owner) ∧ is_u64 a.(amount) ∧
  from_option (λ d, is_key d.(source) ∧ is_u64 d.(original_amount)) True a.(delegate).

Global Instance TokenInstruction_ranged : Ranged TokenInstruction := λ c,
  match c with
  | NewToken i => in_range i
  | Transfer v | Approve v => is_u64 v
  | NewTokenAccount | SetOwner => True
  end.

Definition state_ranged (st : TokenState) : Prop :=
  match st with
  | Token i => in_range i
  | TAccount a => in_range a
  | _ => True
  end.

Definition writable (st : TokenState) : bool :=
  match st with Token _ | TAccount _ => true | _ => false end.

Lemma with_amount_ranged v a :
  in_range a → is_u64 v → in_range (with_amount v a).
Proof. unfold in_range, TokenAccountInfo_ranged. cbn. tauto. Qed.

Lemma with_ta_owner_ranged v a : in_range a → is_key v → in_range (with_ta_owner v a).
Proof. unfold in_range, TokenAccountInfo_ranged. cbn. tauto. Qed.

Lemma with_allowance_ranged v a d : in_range a → a.(delegate) = Some d → is_u64 v →
  in_range (with_delegate (Some (mkDelegateInfo d.(source) v)) (with_amount v a)).
Proof.
  unfold in_range, TokenAccountInfo_ranged. cbn. intros (? & ? & ? & Hd) He ?.
  rewrite He in Hd. cbn in Hd. tauto.
Qed.

(** A push replaces a state the program could read by one it can write. *)
Definition output_ok (inputs : list TokenState) (o : nat * TokenState) : Prop :=
  state_ranged o.2 ∧ writable o.2 = true ∧ ∃ st, inputs !! o.1 = Some st ∧ st ≠ Invalid.

(** Inversion of a handler that returned. *)
Ltac handler_inv :=
  repeat match goal with
  | H : Err _ = Ok _ |- _ => discriminate H
  | H : Panic = Ok _ |- _ => discriminate H
  | H : Ok _ = Ok _ |- _ => injection H as <-
  | H : (_ ≫= _) = Ok _ |- _ =>
      let a := fresh "a" in let Ha := fresh "Ha" in apply res_bind_ok in H as (a & Ha & H)
  | H : input_at _ _ = Ok _ |- _ => apply unwrap_ok in H
  | H : key_at _ _ = Ok _ |- _ => apply key_at_ok in H as (? & ? & <-)
  | H : context [match ?x with _ => _ end] |- _ =>
      lazymatch type of H with
      | _ = Ok _ => let He := fresh "He" in destruct x eqn:He
      end
  end.

Lemma outputs_ok c info inputs outs :
  in_range c → Forall state_ranged inputs → Forall (λ k, is_key k.(key)) info →
  outputs c info inputs = Ok outs → Forall (output_ok inputs) outs.
Proof.
  intros Hc Hin Hk Ho. rewrite Forall_lookup in Hin. rewrite Forall_lookup in Hk.
  destruct c; cbn in Ho;
    [unfold process_newtoken in Ho|unfold process_newaccount in Ho|unfold process_transfer in Ho
    |unfold process_approve in Ho|unfold process_setowner in Ho]; handler_inv;
    repeat match goal with
    | H : inputs !! _ = Some _ |- _ => pose proof (Hin _ _ H); revert H
    | H : info !! _ = Some _ |- _ => pose proof (Hk _ _ H); revert H
    end; intros; repeat apply Forall_cons_2; try apply Forall_nil_2.
  all: unfold output_ok; cbn in *; split_and!; try done.
  all: try (eexists; split; [eassumption|congruence || (intros ->; done)]).
  all: try (apply with_amount_ranged; [done|apply Hc || apply wrap64_range]).
  - eapply with_allowance_ranged; done.
  - by apply with_ta_owner_ranged.
Qed.

(** ** Ledgers *)

Section Ledger.
Context `{!Bincode TokenInfo, !BincodeLaws TokenInfo}.
Context `{!Bincode TokenAccountInfo, !BincodeLaws TokenAccountInfo}.
Context `{!Bincode TokenInstruction, !BincodeLaws TokenInstruction}.
Context (long_write : list Z → list Z → res TokenError unit * list Z).
Context (program_id : Pubkey).

Definition encoding (st : TokenState) : list Z :=
  match st with
  | Token i => serialize i
  | TAccount a => serialize a
  | _ => []
  end.

(** The bytes of the state fit the account and the buffer of the writer. *)
Definition fits (st : TokenState) (data' : list Z) : Prop :=
  (length (encoding st) < length data')%nat ∧ Z.of_nat (length (encoding st)) ≤ 8192.

Lemma TokenState_roundtrip st data' :
  state_ranged st → writable st = true → fits st data' →
  ∃ buf, TokenState_serialize long_write st data' = (Ok tt, buf) ∧
    TokenState_deserialize buf = Ok st ∧ length buf = length data'.
Proof.
  intros Hr Hw [Hf Hb]. destruct data' as [|b out]; [cbn in Hf; lia|]. cbn in Hf.
  destruct st as [|i|a|]; try done; cbn in *; unfold buffered_write;
    rewrite (proj2 (Z.leb_le _ _)), take_ge by (done || lia); eexists; (split; [done|]);
    cbn; rewrite deserialize_serialize by done; (split; [done|]);
    rewrite length_app, length_drop; lia.
Qed.

Lemma deserialize_ranged l st : TokenState_deserialize l = Ok st → state_ranged st.
Proof.
  destruct l as [|tag l]; [done|]. cbn. destruct (tag =? 0); [by intros [= <-]|].
  destruct (tag =? 1); [|destruct (tag =? 2); [|done]]; intros (x & Hx & [= <-])%res_bind_ok;
    destruct (deserialize l) eqn:Hd; simplify_eq/=; by eapply deserialize_in_range.
Qed.

Lemma input_state_ranged a : state_ranged (input_state program_id a).
Proof.
  unfold input_state. case_match; [|done].
  destruct (TokenState_deserialize _) eqn:Hd; try done. by eapply deserialize_ranged.
Qed.

(** [info'] is [info] with other data of the same lengths. *)
Definition same_shape (info info' : list KeyedAccount) : Prop :=
  Forall2 (λ k k', key k' = key k ∧ owner (account k') = owner (account k) ∧
    length (data (account k')) = length (data (account k))) info info'.

Definition views (info : list KeyedAccount) (S : View) : Prop :=
  ∀ k, k ∈ info → input_state program_id k.(account) = S (key k).

Lemma apply_outputs_shape info info' outs S : same_shape info info' →
  apply_outputs info outs S = apply_outputs info' outs S.
Proof.
  intros Hs. unfold apply_outputs. revert S. induction outs as [|[i st] outs IH]; intros S; [done|].
  cbn. destruct (info !! i) as [k|] eqn:Hi.
  - destruct (Forall2_lookup_l _ _ _ _ _ Hs Hi) as (k' & -> & -> & _). apply IH.
  - assert (info' !! i = None) as ->; [|apply IH].
    apply lookup_ge_None. apply Forall2_length in Hs. apply lookup_ge_None in Hi. lia.
Qed.

Lemma same_shape_keys info info' : same_shape info info' → key <$> info' = key <$> info.
Proof. induction 1 as [|k k' ? ? [He _] _ IH]; [done|]. rewrite !fmap_cons. by rewrite He, IH. Qed.

Lemma same_shape_refl info : same_shape info info.
Proof. induction info; constructor; auto. Qed.

Lemma same_shape_trans info1 info2 info3 :
  same_shape info1 info2 → same_shape info2 info3 → same_shape info1 info3.
Proof.
  intros H12. revert info3. induction H12 as [|k k' l l' (? & ? & ?) _ IH]; intros info3 H23.
  - inversion H23. constructor.
  - inversion H23 as [|? k'' ? ? (? & ? & ?)]; subst. constructor; [|by apply IH].
    split_and!; congruence.
Qed.

(** One write: the account at [i] reads as [st] afterwards. *)
Lemma views_write i k st buf info S :
  NoDup (key <$> info) → views info S → info !! i = Some k → S (key k) ≠ Invalid →
  TokenState_deserialize buf = Ok st →
  views (<[i := with_account (with_data buf k.(account)) k]> info) (<[key k := st]> S).
Proof.
  intros Hnd Hv Hk Hne Hde x [j Hj]%list_elem_of_lookup.
  assert (k ∈ info) as Hin by (by eapply list_elem_of_lookup_2).
  destruct (decide (i = j)) as [<-|Hij].
  - rewrite list_lookup_insert_eq in Hj by (by eapply lookup_lt_Some). injection Hj as <-.
    cbn [key with_account]. rewrite fn_lookup_insert. unfold input_state. cbn.
    rewrite <- (Hv k Hin) in Hne. unfold input_state in Hne.
    destruct (owner (account k) =? program_id); [|done]. by rewrite Hde.
  - rewrite list_lookup_insert_ne in Hj by done.
    assert (key k ≠ key x) as Hkx.
    { intros He. apply Hij. apply (NoDup_lookup (key <$> info) i j (key k) Hnd);
        rewrite list_lookup_fmap, ?Hk, ?Hj; cbn; congruence. }
    rewrite fn_lookup_insert_ne by done. apply Hv. by eapply list_elem_of_lookup_2.
Qed.

Lemma output_ok_write i k k' st info S o :
  info !! i = Some k → key k' = key k → writable st = true →
  output_ok ((λ k, S (key k)) <$> info) o →
  output_ok ((λ x, (<[key k := st]> S : View) (key x)) <$> <[i := k']> info) o.
Proof.
  intros Hk He Hw (Hr & Hwo & st0 & Hi & Hne). split_and!; [done..|].
  apply list_lookup_fmap_Some in Hi as (x & -> & Hx).
  assert (∃ x', <[i := k']> info !! o.1 = Some x' ∧ key x' = key x) as (x' & Hx' & Hkx).
  { destruct (decide (i = o.1)) as [Hio|].
    - rewrite Hio in *. rewrite list_lookup_insert_eq by (by eapply lookup_lt_Some).
      eexists. split; [done|]. congruence.
    - rewrite list_lookup_insert_ne by done. eauto. }
  eexists. rewrite list_lookup_fmap, Hx'. cbn. split; [done|]. rewrite Hkx.
  destruct (decide (key x = key k)) as [->|].
  - rewrite fn_lookup_insert. by destruct st.
  - by rewrite fn_lookup_insert_ne.
Qed.

Lemma apply_outputs_out info outs k : ∀ S,
  k ∉ key <$> info → apply_outputs info outs S k = S k.
Proof.
  unfold apply_outputs. induction outs as [|[i st] outs IH]; intros S Hk; [done|]. cbn.
  rewrite IH by done. destruct (info !! i) as [x|] eqn:Hx; [|done].
  rewrite fn_lookup_insert_ne; [done|]. intros <-. apply Hk.
  by eapply list_elem_of_fmap_2, list_elem_of_lookup_2.
Qed.

(** Every push is read back as the new state of its account. *)
Lemma write_outputs_view outs : ∀ info S,
  NoDup (key <$> info) → views info S →
  Forall (output_ok ((λ k, S (key k)) <$> info)) outs →
  (∀ i st k, (i, st) ∈ outs → info !! i = Some k → fits st k.(account).(data)) →
  ∃ info', write_outputs long_write outs info = (Ok tt, info') ∧ same_shape info info' ∧
    views info' (apply_outputs info outs S).
Proof.
  induction outs as [|[i st] outs IH]; intros info S Hnd Hv Hok Hfit.
  { exists info. split; [done|]. split; [apply same_shape_refl|done]. }
  apply Forall_cons in Hok as [(Hr & Hw & st0 & Hi & Hne) Hok]. cbn in Hr, Hw, Hi.
  apply list_lookup_fmap_Some in Hi as (k & -> & Hk).
  destruct (TokenState_roundtrip st (data (account k)) Hr Hw) as (buf & Hser & Hde & Hlen).
  { apply (Hfit i); [set_solver|done]. }
  set (k' := with_account (with_data buf (account k)) k).
  assert (same_shape info (<[i := k']> info)) as Hshape.
  { apply Forall2_same_length_lookup. split; [by rewrite length_insert|].
    intros j x y Hx Hy. destruct (decide (i = j)) as [<-|].
    - rewrite list_lookup_insert_eq in Hy by (by eapply lookup_lt_Some). by simplify_eq.
    - rewrite list_lookup_insert_ne in Hy by done. by simplify_eq. }
  pose proof (same_shape_keys _ _ Hshape) as Hkeys.
  destruct (IH (<[i := k']> info) (<[key k := st]> S)) as (info' & Hrun & Hsh' & Hv').
  - by rewrite Hkeys.
  - by apply views_write.
  - eapply Forall_impl; [exact Hok|]. intros o. by apply output_ok_write.
  - intros j st' x Hj Hx. assert (∃ y, info !! j = Some y ∧
      length (data (account x)) = length (data (account y))) as (y & Hy & Hlxy).
    { destruct (Forall2_lookup_r _ _ _ _ _ Hshape Hx) as (y & ? & _ & _ & ?). eauto. }
    unfold fits. rewrite Hlxy. apply (Hfit j); [set_solver|done].
  - exists info'. split_and!.
    + cbn [write_outputs]. unfold_monad.
      unfold system_instruction_processor.account_at, system_instruction_processor.modify_account.
      rewrite Hk. cbn [unwrap]. rewrite Hser. cbn. rewrite Hk. exact Hrun.
    + by eapply same_shape_trans.
    + unfold apply_outputs. cbn. rewrite Hk. by rewrite <- (apply_outputs_shape _ _ _ _ Hshape) in Hv'.
Qed.

(** The accounts of an instruction are loaded from the ledger and, when it
    succeeds, stored back. *)
Definition ledger_view (L : gmap Pubkey Account) (k : Pubkey) : TokenState :=
  input_state program_id (default Account_default (L !! k)).

Definition load_keyed (L : gmap Pubkey Account) (metas : list (Pubkey * bool))
    : list KeyedAccount :=
  (λ '(k, signer), mkKeyedAccount signer k (default Account_default (L !! k))) <$> metas.

Definition store_keyed (L : gmap Pubkey Account) (info : list KeyedAccount)
    : gmap Pubkey Account :=
  foldl (λ L k, <[key k := account k]> L) L info.

Definition token_step (L : gmap Pubkey Account) (metas : list (Pubkey * bool)) (ix : list Z)
    : gmap Pubkey Account :=
  match process long_write program_id ix (load_keyed L metas) with
  | (Ok _, info') => store_keyed L info'
  | _ => L
  end.

(** The accounts have room for what the instruction writes to them. *)
Definition has_room (L : gmap Pubkey Account) (metas : list (Pubkey * bool)) (ix : list Z)
    : Prop :=
  ∀ c outs i st k, deserialize ix = Some c →
    outputs c (load_keyed L metas) ((λ k, ledger_view L (key k)) <$> load_keyed L metas) = Ok outs →
    (i, st) ∈ outs → load_keyed L metas !! i = Some k → fits st k.(account).(data).

(** Ledgers in the order in which they come about: without token accounts;
    after something that is not the token program, which at most makes new
    zeroed accounts (the message processor lets no other program change the
    data of the token program's accounts); after a token instruction. *)
Inductive token_ledger (ks : list Pubkey) : gmap Pubkey Account → Prop :=
| tl_start L : (∀ k, ledger_view L k = Invalid) → token_ledger ks L
| tl_other L L' :
    token_ledger ks L →
    (∀ k, ledger_view L' k = ledger_view L k ∨
          ledger_view L k = Invalid ∧ ledger_view L' k = Unallocated) →
    token_ledger ks L'
| tl_token L metas ix :
    token_ledger ks L → NoDup metas.*1 → metas.*1 ⊆ ks → Forall is_key metas.*1 →
    has_room L metas ix →
    token_ledger ks (token_step L metas ix).

Lemma load_keyed_keys L metas : key <$> load_keyed L metas = metas.*1.
Proof. unfold load_keyed. induction metas as [|[k s] metas IH]; [done|]. cbn. by f_equal. Qed.

Lemma load_keyed_account L metas k : k ∈ load_keyed L metas →
  account k = default Account_default (L !! key k).
Proof. intros ([k' s] & -> & _)%list_elem_of_fmap. done. Qed.

Lemma store_keyed_view info : ∀ L S,
  NoDup (key <$> info) → views info S → (∀ k, k ∉ key <$> info → ledger_view L k = S k) →
  ∀ k, ledger_view (store_keyed L info) k = S k.
Proof.
  induction info as [|x info IH]; intros L S Hnd Hv Hout k; [by apply Hout, not_elem_of_nil|].
  rewrite fmap_cons in Hnd, Hout. apply NoDup_cons in Hnd as [Hx Hnd]. cbn. apply IH; [done| |].
  - intros y Hy. apply Hv. by right.
  - intros y Hy. destruct (decide (y = key x)) as [->|Hne].
    + unfold ledger_view. rewrite lookup_insert_eq. cbn. apply Hv. by left.
    + unfold ledger_view. rewrite lookup_insert_ne by done. apply Hout. by intros [|]%elem_of_cons.
Qed.

Lemma process_ok ix info info' :
  process long_write program_id ix info = (Ok tt, info') →
  ∃ c outs, deserialize ix = Some c ∧
    outputs c info ((λ k, input_state program_id k.(account)) <$> info) = Ok outs ∧
    write_outputs long_write outs info = (Ok tt, info').
Proof.
  intros (c & s1 & Hc & Hp)%bind_ok. unfold liftM in Hc. injection Hc as Hc <-.
  apply bind_ok in Hp as (k0 & s1 & Hk0 & Hp). injection Hk0 as _ <-.
  destruct (signer_key k0); [|done]. apply bind_ok in Hp as (i & s1 & [= <- <-] & Hp).
  apply bind_ok in Hp as (outs & s1 & Ho & Hp). unfold liftM in Ho. injection Ho as Ho <-.
  exists c, outs. split_and!; [|done..]. destruct (deserialize ix); cbn in Hc; congruence.
Qed.

Lemma in_range_command c : in_range c → command_ranged c.
Proof. destruct c; cbn; try done. by intros [? _]. Qed.

Lemma token_step_books ks L metas ix :
  NoDup ks → books ks (ledger_view L) → NoDup metas.*1 → metas.*1 ⊆ ks → Forall is_key metas.*1 →
  has_room L metas ix → books ks (ledger_view (token_step L metas ix)).
Proof.
  intros Hks Hb Hnd Hsub Hkeys Hroom. unfold token_step.
  destruct (process _ _ _ _) as [[[]|e|] info'] eqn:Hp; try done.
  apply process_ok in Hp as (c & outs & Hc & Ho & Hw).
  set (info := load_keyed L metas) in *.
  assert (views info (ledger_view L)) as Hv.
  { intros k Hk. unfold ledger_view. by rewrite (load_keyed_account L metas k Hk). }
  assert ((λ k, input_state program_id (account k)) <$> info = inputs (ledger_view L) info) as Hi.
  { apply list_fmap_ext. intros i k Hk. cbn. apply Hv. by eapply list_elem_of_lookup_2. }
  rewrite Hi in Ho. pose proof (deserialize_in_range _ _ Hc) as Hcr.
  assert (Forall (output_ok (inputs (ledger_view L) info)) outs) as Hok.
  { eapply outputs_ok; [done| | |exact Ho].
    - apply Forall_fmap, Forall_forall. intros k _. apply input_state_ranged.
    - rewrite <- (load_keyed_keys L metas) in Hkeys. exact (proj1 (Forall_fmap _ _ _) Hkeys). }
  destruct (write_outputs_view outs info (ledger_view L)) as (info'' & Hw' & Hsh & Hv').
  - unfold info. by rewrite load_keyed_keys.
  - done.
  - done.
  - intros i st k Hin Hk. by eapply Hroom.
  - rewrite Hw in Hw'. injection Hw' as <-.
    assert (books ks (apply_outputs info outs (ledger_view L))) as Hb'.
    { eapply outputs_books; try done.
      - intros k Hk. apply Hsub. rewrite <- (load_keyed_keys L). by apply list_elem_of_fmap_2.
      - unfold info. by rewrite load_keyed_keys.
      - by apply in_range_command. }
    eapply books_ext; [|exact Hb']. apply store_keyed_view; [|done|].
    + rewrite (same_shape_keys _ _ Hsh). unfold info. by rewrite load_keyed_keys.
    + intros k Hk. rewrite (same_shape_keys _ _ Hsh) in Hk. by rewrite apply_outputs_out.
Qed.

Lemma token_ledger_books ks L : NoDup ks → token_ledger ks L → books ks (ledger_view L).
Proof.
  intros Hks. induction 1 as [L Hinv|L L' _ IH Hother|L metas ix _ IH Hnd Hsub Hkeys Hroom].
  - split; intros *; rewrite ?Hinv; try done. unfold circulating.
    rewrite (list_fmap_ext _ (λ _, 0)) by (intros; by rewrite Hinv). cbn.
    induction ks as [|k ks' IHk]; [done|]. apply NoDup_cons in Hks as [_ Hks]. cbn. by apply IHk.
  - destruct IH as [Hs Ha Hd].
    assert (∀ T k, own_amount T (ledger_view L' k) = own_amount T (ledger_view L k)) as Hown.
    { intros T k. destruct (Hother k) as [->|[-> ->]]; done. }
    split.
    + intros T. transitivity (circulating ks (ledger_view L) T).
      * unfold circulating. f_equal. apply list_fmap_ext. intros i k _. apply Hown.
      * rewrite Hs. by destruct (Hother T) as [->|[-> ->]].
    + intros k. by destruct (Hother k) as [->|[_ ->]].
    + intros k a d Hk Had Hpos. assert (ledger_view L k = TAccount a) as Hk'.
      { destruct (Hother k) as [He|[_ He]]; congruence. }
      pose proof (Hd k a d Hk' Had Hpos) as Hsrc.
      destruct (Hother (source d)) as [->|[He _]]; [done|]. by rewrite He in Hsrc.
  - by apply token_step_books.
Qed.


Definition room_check (L : gmap Pubkey Account) (metas : list (Pubkey * bool)) (ix : list Z)
    : bool :=
  match deserialize ix with
  | None => true
  | Some c =>
      match outputs c (load_keyed L metas)
              ((λ k, ledger_view L (key k)) <$> load_keyed L metas) with
      | Ok outs =>
          forallb (λ '(i, st),
            match load_keyed L metas !! i with
            | Some k => (length (encoding st) <? length k.(account).(data))%nat &&
                        (Z.of_nat (length (encoding st)) <=? 8192)
            | None => true
            end) outs
      | _ => true
      end
  end.

Lemma room_check_ok L metas ix : room_check L metas ix = true → has_room L metas ix.
Proof.
  unfold room_check. intros Hc c outs i st k Hd Ho Hin Hk. rewrite Hd, Ho in Hc.
  rewrite forallb_forall in Hc. apply list_elem_of_In in Hin. specialize (Hc _ Hin).
  cbn in Hc. rewrite Hk in Hc. apply andb_prop in Hc as [H1 H2].
  split; [by apply Nat.ltb_lt|by apply Z.leb_le].
Qed.
End Ledger.
End token_proofs.

Module token_demo.
Import token_state token_proofs.

Definition string_codec : codec (list Z) :=
  filter_codec (list_codec u8_codec) native_loader_program.utf8_valid.

Definition TokenInfo_codec : codec TokenInfo.
Proof.
  refine (map_codec (pair_codec u64_codec (pair_codec u8_codec (pair_codec string_codec string_codec)))
    (λ i, (i.(supply), (i.(decimals), (i.(ti_name), i.(ti_symbol)))))
    (λ '(s, (d, (n, y))), Some (mkTokenInfo s d n y)) _ _).
  - by intros [].
  - by intros (?&?&?&?) ? [= <-].
Defined.

Definition TokenAccountInfo_codec : codec TokenAccountInfo.
Proof.
  refine (map_codec (pair_codec key_codec (pair_codec key_codec (pair_codec u64_codec
      (option_codec (pair_codec key_codec u64_codec)))))
    (λ a, (a.(token), (a.(ta_owner), (a.(amount),
       (λ d, (d.(source), d.(original_amount))) <$> a.(delegate)))))
    (λ '(t, (o, (m, d))), Some (mkTokenAccountInfo t o m
       ((λ '(s, v), mkDelegateInfo s v) <$> d))) _ _).
  - by intros [? ? ? [[]|]].
  - by intros (?&?&?&[[]|]) ? [= <-].
Defined.

Definition TokenInstruction_codec : codec TokenInstruction.
Proof.
  refine (map_codec (sum_codec TokenInfo_codec (sum_codec u64_codec (sum_codec u64_codec
      (option_codec (option_codec u8_codec)))))
    (λ c, match c with
          | NewToken i => inl i
          | Transfer v => inr (inl v)
          | Approve v => inr (inr (inl v))
          | NewTokenAccount => inr (inr (inr None))
          | SetOwner => inr (inr (inr (Some None)))
          end)
    (λ b, match b with
          | inl i => Some (NewToken i)
          | inr (inl v) => Some (Transfer v)
          | inr (inr (inl v)) => Some (Approve v)
          | inr (inr (inr None)) => Some NewTokenAccount
          | inr (inr (inr (Some None))) => Some SetOwner
          | _ => None
          end) _ _).
  - by intros [].
  - by intros [|[|[|[[|]|]]]] ? [= <-].
Defined.

#[local] Instance demo_info_bincode : Bincode TokenInfo := codec_bincode TokenInfo_codec.
#[local] Instance demo_account_bincode : Bincode TokenAccountInfo :=
  codec_bincode TokenAccountInfo_codec.
#[local] Instance demo_instruction_bincode : Bincode TokenInstruction :=
  codec_bincode TokenInstruction_codec.

Lemma demo_info_laws : BincodeLaws TokenInfo.
Proof. apply codec_laws. intros []. done. Qed.
Lemma demo_account_laws : BincodeLaws TokenAccountInfo.
Proof. apply codec_laws. intros [? ? ? [[]|]]; done. Qed.
Lemma demo_instruction_laws : BincodeLaws TokenInstruction.
Proof. apply codec_laws. intros []; done. Qed.
#[local] Existing Instances demo_info_laws demo_account_laws demo_instruction_laws.

Definition no_long_write : list Z → list Z → res TokenError unit * list Z :=
  λ _ out, (Err TokenInvalidArgument, out).

Definition zeroed (n : nat) : Account := mkAccount 1 0 (replicate n 0) token_program.id false.

(** The token gets key 2, its first account key 3, owned by key 1. *)
Definition demo_ledger : gmap Pubkey Account := {[2 := zeroed 120; 3 := zeroed 120; 4 := zeroed 120]}.
Definition demo_history : list (list (Pubkey * bool) * TokenInstruction) :=
  [([(3, true); (1, false); (2, false)], NewTokenAccount);
   ([(2, true); (3, false)], NewToken (mkTokenInfo 100 2 [77] [77]));
   ([(4, true); (5, false); (2, false)], NewTokenAccount);
   ([(1, true); (3, false); (4, false)], Transfer 30)].

Definition demo_run (L : gmap Pubkey Account) : gmap Pubkey Account :=
  foldl (λ L '(metas, c), token_step no_long_write token_program.id L metas (serialize c))
    L demo_history.

Fixpoint history_ok (L : gmap Pubkey Account)
    (h : list (list (Pubkey * bool) * TokenInstruction)) : bool :=
  match h with
  | [] => true
  | (metas, c) :: h' =>
      bool_decide (NoDup metas.*1) && bool_decide (metas.*1 ⊆ [1; 2; 3; 4; 5]) &&
      forallb (λ k, (0 <=? k) && (k <? 256)) metas.*1 &&
      room_check token_program.id L metas (serialize c) &&
      history_ok (token_step no_long_write token_program.id L metas (serialize c)) h'
  end.

Lemma history_ledger h : ∀ L,
  token_ledger no_long_write token_program.id [1; 2; 3; 4; 5] L → history_ok L h = true →
  token_ledger no_long_write token_program.id [1; 2; 3; 4; 5]
    (foldl (λ L '(metas, c), token_step no_long_write token_program.id L metas (serialize c)) L h).
Proof.
  induction h as [|[metas c] h IH]; intros L HL Hok; [done|]. cbn [history_ok foldl] in *.
  rewrite !andb_true_iff in Hok. destruct Hok as ((((Hnd & Hsub) & Hk) & Hroom) & Hok).
  apply IH; [|done]. apply tl_token; [done|by apply bool_decide_eq_true in Hnd
    |by apply bool_decide_eq_true in Hsub| |by apply room_check_ok].
  rewrite forallb_forall in Hk. apply Forall_forall. intros x Hx%list_elem_of_In%Hk.
  assert (256 ≤ 256 ^ 32) by (by apply Z.leb_le). unfold is_key. lia.
Qed.

Lemma demo_start : token_ledger no_long_write token_program.id [1; 2; 3; 4; 5] demo_ledger.
Proof.
  apply (tl_other _ _ _ ∅); [by apply tl_start|]. intros k. unfold ledger_view, demo_ledger.
  destruct (decide (k = 2)) as [->|]; [by right|]. destruct (decide (k = 3)) as [->|]; [by right|].
  destruct (decide (k = 4)) as [->|]; [by right|]. left.
  rewrite !lookup_insert_ne, lookup_singleton_ne by done. done.
Qed.


(** An account that is too small for the state is not refused: the write is cut
    off, the instruction succeeds and the account is unreadable from then on. *)
Lemma small_account_is_lost :
  let ks := [mkKeyedAccount true 3 (zeroed 40); mkKeyedAccount false 1 Account_default;
             mkKeyedAccount false 2 (zeroed 120)] in
  let '(r, ks') := process no_long_write token_program.id (serialize NewTokenAccount) ks in
  r = Ok tt ∧
  input_state token_program.id (zeroed 40) = Unallocated ∧
  (λ k, input_state token_program.id k.(account)) <$> ks' !! 0%nat = Some Invalid.
Proof. vm_compute. auto. Qed.
End token_demo.
