(* ===== verification/Exchange.v ===== *)
(** * The exchange program

    controllers/exchange_api/src: the token and order accounts
    ([exchange_state.rs]), the instructions and their builders
    ([exchange_instruction.rs]) and the processor ([exchange_processor.rs]) with
    its matching of two orders. *)

From S2P Require Import Prelude Interface Codec SystemProgram.

Module exchange_program.
Definition id : Pubkey :=
  be_bytes [3; 147; 111; 103; 210; 47; 14; 213; 108; 116; 49; 115; 232; 171; 14; 111; 167; 140;
            221; 234; 33; 70; 185; 192; 42; 31; 141; 152; 0; 0; 0; 0].
Definition faucet_id : Pubkey :=
  be_bytes [3; 147; 111; 103; 210; 47; 23; 11; 176; 29; 147; 89; 237; 155; 21; 62; 107; 105; 157;
            1; 98; 204; 206; 211; 54; 212; 79; 15; 160; 0; 0; 0].
End exchange_program.
Global Arguments exchange_program.id : simpl never.
Global Arguments exchange_program.faucet_id : simpl never.

Module exchange_state.

Definition SCALER : Z := 1000.

Inductive Token := A | B | C | D.

Global Instance Token_eq_dec : EqDecision Token.
Proof. solve_decision. Defined.

Record Tokens := mkTokens { tA : Z; tB : Z; tC : Z; tD : Z }.

Definition Tokens_default : Tokens := mkTokens 0 0 0 0.

(** [Index] and [IndexMut] of [Tokens] *)
Definition tokens_index (ts : Tokens) (t : Token) : Z :=
  match t with A => ts.(tA) | B => ts.(tB) | C => ts.(tC) | D => ts.(tD) end.
Definition tokens_set (t : Token) (v : Z) (ts : Tokens) : Tokens :=
  match t with
  | A => mkTokens v ts.(tB) ts.(tC) ts.(tD)
  | B => mkTokens ts.(tA) v ts.(tC) ts.(tD)
  | C => mkTokens ts.(tA) ts.(tB) v ts.(tD)
  | D => mkTokens ts.(tA) ts.(tB) ts.(tC) v
  end.

Inductive TokenPair := AB | AC | AD | BC | BD | CD.

Global Instance TokenPair_eq_dec : EqDecision TokenPair.
Proof. solve_decision. Defined.

Definition primary (p : TokenPair) : Token :=
  match p with
  | AB | AC | AD => A
  | BC | BD => B
  | CD => C
  end.
Definition secondary (p : TokenPair) : Token :=
  match p with
  | AB => B
  | AC | BC => C
  | AD | BD | CD => D
  end.

Record TokenAccountInfo := mkTokenAccount {
  ea_owner : Pubkey;
  ea_tokens : Tokens
}.

Definition with_tokens (ts : Tokens) (a : TokenAccountInfo) : TokenAccountInfo :=
  mkTokenAccount a.(ea_owner) ts.
(** [account.tokens[t] += v] and [-= v] *)
Definition credit (t : Token) (v : Z) (a : TokenAccountInfo) : TokenAccountInfo :=
  with_tokens (tokens_set t (u64_add (tokens_index a.(ea_tokens) t) v) a.(ea_tokens)) a.
Definition debit (t : Token) (v : Z) (a : TokenAccountInfo) : TokenAccountInfo :=
  with_tokens (tokens_set t (u64_sub (tokens_index a.(ea_tokens) t) v) a.(ea_tokens)) a.

Inductive Direction := To | From.

Global Instance Direction_eq_dec : EqDecision Direction.
Proof. solve_decision. Defined.

Record TradeOrderInfo := mkTradeOrder {
  to_owner : Pubkey;
  direction : Direction;
  pair : TokenPair;
  tokens : Z;
  price : Z;
  tokens_settled : Z
}.

Definition with_order (tokens' settled' : Z) (o : TradeOrderInfo) : TradeOrderInfo :=
  mkTradeOrder o.(to_owner) o.(direction) o.(pair) tokens' o.(price) settled'.

Inductive ExchangeError := InvalidTrade.

(** Division by a zero price panics. *)
Definition check_trade (dir : Direction) (tokens' price' : Z) : res ExchangeError unit :=
  match dir with
  | To =>
      if u64_mul tokens' price' / SCALER =? 0 then Err InvalidTrade else Ok tt
  | From =>
      if price' =? 0 then Panic
      else if u64_mul tokens' SCALER / price' =? 0 then Err InvalidTrade else Ok tt
  end.

Inductive ExchangeState :=
| EUnallocated
| EAccount (a : TokenAccountInfo)
| ETrade (o : TradeOrderInfo)
| EInvalid.
End exchange_state.

Module exchange_instruction.
Import exchange_state.

Record TradeRequestInfo := mkTradeRequest {
  tr_direction : Direction;
  tr_pair : TokenPair;
  tr_tokens : Z;
  tr_price : Z
}.

Inductive ExchangeInstruction :=
| AccountRequest
| TransferRequest (token : Token) (tokens : Z)
| TradeRequest (info : TradeRequestInfo)
| TradeCancellation
| SwapRequest.

Section Builders.
Context `{!Bincode ExchangeInstruction}.

Definition account_request (owner new : Pubkey) : Instruction :=
  Instruction_new exchange_program.id AccountRequest
    [AccountMeta_new owner true; AccountMeta_new new false].

Definition transfer_request (owner to from : Pubkey) (token : Token) (tokens : Z) : Instruction :=
  Instruction_new exchange_program.id (TransferRequest token tokens)
    [AccountMeta_new owner true; AccountMeta_new to false; AccountMeta_new from false].

Definition trade_request (owner trade : Pubkey) (direction : Direction) (pair : TokenPair)
    (tokens price : Z) (src_account : Pubkey) : Instruction :=
  Instruction_new exchange_program.id (TradeRequest (mkTradeRequest direction pair tokens price))
    [AccountMeta_new owner true; AccountMeta_new trade false; AccountMeta_new src_account false].

Definition trade_cancellation (owner trade : Pubkey) : Instruction :=
  Instruction_new exchange_program.id TradeCancellation
    [AccountMeta_new owner true; AccountMeta_new trade false].

Definition swap_request (owner to_trade from_trade profit_account : Pubkey) : Instruction :=
  Instruction_new exchange_program.id SwapRequest
    [AccountMeta_new owner true; AccountMeta_new to_trade false; AccountMeta_new from_trade false;
     AccountMeta_new profit_account false].
End Builders.
End exchange_instruction.

Module exchange_processor.
Import exchange_state exchange_instruction.
Import system_instruction_processor(account_at, modify_account).

Definition trade_to_token_account (trade : TradeOrderInfo) : TokenAccountInfo :=
  let token := match trade.(direction) with
               | To => secondary trade.(pair)
               | From => primary trade.(pair)
               end in
  mkTokenAccount trade.(to_owner) (tokens_set token trade.(tokens_settled) Tokens_default).

(** The three [&mut] arguments are returned; an error leaves them as they
    were. *)
Definition calculate_swap (scaler : Z) (to_trade from_trade : TradeOrderInfo)
    (profit_account : TokenAccountInfo)
    : res InstructionError (TradeOrderInfo * TradeOrderInfo * TokenAccountInfo) :=
  if (to_trade.(tokens) =? 0) || (from_trade.(tokens) =? 0) then Err InvalidArgument
  else if (to_trade.(price) =? 0) || (from_trade.(price) =? 0) then Err InvalidArgument
  else
  let max_to_secondary := u64_mul to_trade.(tokens) to_trade.(price) / scaler in
  let max_to_primary := u64_mul from_trade.(tokens) scaler / from_trade.(price) in
  let max_primary := Z.min max_to_primary to_trade.(tokens) in
  let max_secondary := Z.min max_to_secondary from_trade.(tokens) in
  let primary_tokens :=
    if max_secondary <? max_primary
    then u64_mul max_secondary scaler / from_trade.(price)
    else max_primary in
  let secondary_tokens :=
    if max_secondary <? max_primary
    then max_secondary
    else u64_mul max_primary to_trade.(price) / scaler in
  if (primary_tokens =? 0) || (secondary_tokens =? 0) then Err InvalidArgument
  else
  let primary_cost :=
    Z.max primary_tokens (u64_mul secondary_tokens scaler / to_trade.(price)) in
  let secondary_cost :=
    Z.max secondary_tokens (u64_mul primary_tokens from_trade.(price) / scaler) in
  let primary_profit := u64_sub primary_cost primary_tokens in
  let secondary_profit := u64_sub secondary_cost secondary_tokens in
  let primary_token := primary to_trade.(pair) in
  let secondary_token := secondary from_trade.(pair) in
  if to_trade.(tokens) <? primary_cost then Err InvalidArgument
  else if from_trade.(tokens) <? secondary_cost then Err InvalidArgument
  else
  Ok (with_order (u64_sub to_trade.(tokens) primary_cost)
        (u64_add to_trade.(tokens_settled) secondary_tokens) to_trade,
      with_order (u64_sub from_trade.(tokens) secondary_cost)
        (u64_add from_trade.(tokens_settled) primary_tokens) from_trade,
      credit secondary_token secondary_profit (credit primary_token primary_profit profit_account)).

Section Processor.
Context `{!Bincode ExchangeState, !Bincode ExchangeInstruction}.
Context (long_write : list Z → list Z → res InstructionError unit * list Z).

Definition read_state (data' : list Z) : res InstructionError ExchangeState :=
  ok_or (deserialize data') InvalidArgument.

Definition is_account_unallocated (data' : list Z) : res InstructionError unit :=
  state ← read_state data';
  match state with EUnallocated => Ok tt | _ => Err InvalidAccountData end.

Definition deserialize_account (data' : list Z) : res InstructionError TokenAccountInfo :=
  state ← read_state data';
  match state with EAccount account => Ok account | _ => Err InvalidAccountData end.

Definition deserialize_trade (data' : list Z) : res InstructionError TradeOrderInfo :=
  state ← read_state data';
  match state with ETrade info => Ok info | _ => Err InvalidAccountData end.

(** An error of the writer is a [GenericError]. *)
Definition exchange_serialize (state : ExchangeState) (data' : list Z)
    : res InstructionError unit * list Z :=
  let '(r, buf) := buffered_write long_write (serialize state) data' in
  (map_err (λ _, GenericError) r, buf).

(** [Self::serialize(&state, &mut keyed_accounts[i].account.data)] *)
Definition store_at (i : nat) (state : ExchangeState)
    : M (list KeyedAccount) InstructionError unit :=
  k ← account_at i;
  let '(r, buf) := exchange_serialize state k.(account).(data) in
  modify_account i (with_data buf);;
  liftM r.

Definition data_at (i : nat) : M (list KeyedAccount) InstructionError (list Z) :=
  k ← account_at i; mret k.(account).(data).
Definition unsigned_at (i : nat) : M (list KeyedAccount) InstructionError Pubkey :=
  k ← account_at i; mret (unsigned_key k).

Definition need_accounts (n : nat) : M (list KeyedAccount) InstructionError unit :=
  ks ← getM; if (length ks <? n)%nat then throw InvalidArgument else mret tt.

Definition do_account_request : M (list KeyedAccount) InstructionError unit :=
  need_accounts 2;;
  new ← data_at 1;
  liftM (is_account_unallocated new);;
  owner ← unsigned_at 0;
  store_at 1 (EAccount (mkTokenAccount owner (mkTokens 100000 100000 100000 100000))).

Definition do_transfer_request (token : Token) (tokens' : Z)
    : M (list KeyedAccount) InstructionError unit :=
  need_accounts 3;;
  to_data ← data_at 1;
  to_account ← liftM (deserialize_account to_data);
  from_key ← unsigned_at 2;
  (if exchange_program.faucet_id =? from_key then mret tt
   else
     from_data ← data_at 2;
     state ← liftM (read_state from_data);
     signer ← unsigned_at 0;
     match state with
     | EAccount from_account =>
         if negb (from_account.(ea_owner) =? signer) then throw GenericError
         else if tokens_index from_account.(ea_tokens) token <? tokens' then throw GenericError
         else store_at 2 (EAccount (debit token tokens' from_account))
     | ETrade from_trade =>
         if negb (from_trade.(to_owner) =? signer) then throw GenericError
         else
         let from_token := match from_trade.(direction) with
                           | To => secondary from_trade.(pair)
                           | From => primary from_trade.(pair)
                           end in
         if negb (bool_decide (token = from_token)) then throw GenericError
         else if from_trade.(tokens_settled) <? tokens' then throw GenericError
         else store_at 2 (ETrade (with_order from_trade.(tokens)
                (u64_sub from_trade.(tokens_settled) tokens') from_trade))
     | _ => throw InvalidArgument
     end);;
  store_at 1 (EAccount (credit token tokens' to_account)).

(** The result of [check_trade] is encoded and dropped, but a panic of it is
    one of the instruction. *)
Definition do_trade_request (info : TradeRequestInfo)
    : M (list KeyedAccount) InstructionError unit :=
  need_accounts 3;;
  trade_data ← data_at 1;
  liftM (is_account_unallocated trade_data);;
  account_data ← data_at 2;
  account ← liftM (deserialize_account account_data);
  signer ← unsigned_at 0;
  if negb (account.(ea_owner) =? signer) then throw GenericError
  else
  let from_token := match info.(tr_direction) with
                    | To => primary info.(tr_pair)
                    | From => secondary info.(tr_pair)
                    end in
  if tokens_index account.(ea_tokens) from_token <? info.(tr_tokens) then throw GenericError
  else
  match check_trade info.(tr_direction) info.(tr_tokens) info.(tr_price) with
  | Panic => panic
  | _ =>
      store_at 1 (ETrade (mkTradeOrder signer info.(tr_direction) info.(tr_pair) info.(tr_tokens)
        info.(tr_price) 0));;
      store_at 2 (EAccount (debit from_token info.(tr_tokens) account))
  end.

Definition do_trade_cancellation : M (list KeyedAccount) InstructionError unit :=
  need_accounts 2;;
  trade_data ← data_at 1;
  trade ← liftM (deserialize_trade trade_data);
  signer ← unsigned_at 0;
  if negb (trade.(to_owner) =? signer) then throw GenericError
  else
  let token := match trade.(direction) with
               | To => primary trade.(pair)
               | From => secondary trade.(pair)
               end in
  let account := mkTokenAccount trade.(to_owner) (tokens_set token trade.(tokens) Tokens_default) in
  store_at 1 (EAccount (credit token trade.(tokens_settled) account)).

(** As in the source, a completed [To] order becomes the account of the [From]
    order's owner. *)
Definition do_swap_request : M (list KeyedAccount) InstructionError unit :=
  need_accounts 4;;
  to_data ← data_at 1;
  to_trade ← liftM (deserialize_trade to_data);
  from_data ← data_at 2;
  from_trade ← liftM (deserialize_trade from_data);
  profit_data ← data_at 3;
  profit_account ← liftM (deserialize_account profit_data);
  if negb (bool_decide (to_trade.(direction) = To)) then throw InvalidArgument
  else if negb (bool_decide (from_trade.(direction) = From)) then throw InvalidArgument
  else if negb (bool_decide (to_trade.(pair) = from_trade.(pair))) then throw InvalidArgument
  else if bool_decide (to_trade.(direction) = from_trade.(direction)) then throw InvalidArgument
  else
  '(to_trade, from_trade, profit_account) ←
     liftM (calculate_swap SCALER to_trade from_trade profit_account);
  (if to_trade.(tokens) =? 0
   then store_at 1 (EAccount (trade_to_token_account from_trade))
   else store_at 1 (ETrade to_trade));;
  (if from_trade.(tokens) =? 0
   then store_at 2 (EAccount (trade_to_token_account from_trade))
   else store_at 2 (ETrade from_trade));;
  store_at 3 (EAccount profit_account).

Definition process_instruction (data' : list Z) : M (list KeyedAccount) InstructionError unit :=
  command ← liftM (ok_or (deserialize data') InvalidInstructionData);
  match command with
  | AccountRequest => do_account_request
  | TransferRequest token tokens' => do_transfer_request token tokens'
  | TradeRequest info => do_trade_request info
  | TradeCancellation => do_trade_cancellation
  | SwapRequest => do_swap_request
  end.
End Processor.
End exchange_processor.

Module exchange_proofs.
Import exchange_state exchange_instruction exchange_processor.

Definition order_ranged (o : TradeOrderInfo) : Prop :=
  is_key o.(to_owner) ∧ is_u64 o.(tokens) ∧ is_u64 o.(price) ∧ is_u64 o.(tokens_settled).
Definition tokens_ranged (ts : Tokens) : Prop := ∀ t, is_u64 (tokens_index ts t).

(** ** Token vectors *)

Lemma tokens_index_set t t' v ts :
  tokens_index (tokens_set t v ts) t' = if bool_decide (t' = t) then v else tokens_index ts t'.
Proof. by destruct t, t'. Qed.

Lemma credit_index t t' v a :
  tokens_index (ea_tokens (credit t v a)) t' =
    if bool_decide (t' = t) then u64_add (tokens_index (ea_tokens a) t) v
    else tokens_index (ea_tokens a) t'.
Proof. apply tokens_index_set. Qed.

Lemma primary_secondary p : primary p ≠ secondary p.
Proof. by destruct p. Qed.

(** ** The matching of two orders *)

(** What a swap amounts to: how much of each token changes hands and what it
    costs. *)
Record swap := mkSwap {
  sw_primary : Z;
  sw_secondary : Z;
  sw_primary_cost : Z;
  sw_secondary_cost : Z
}.

Definition swap_of (scaler : Z) (o f : TradeOrderInfo) : swap :=
  let max_primary := Z.min (u64_mul f.(tokens) scaler / f.(price)) o.(tokens) in
  let max_secondary := Z.min (u64_mul o.(tokens) o.(price) / scaler) f.(tokens) in
  let pt := if max_secondary <? max_primary then u64_mul max_secondary scaler / f.(price)
            else max_primary in
  let st := if max_secondary <? max_primary then max_secondary
            else u64_mul max_primary o.(price) / scaler in
  mkSwap pt st (Z.max pt (u64_mul st scaler / o.(price)))
    (Z.max st (u64_mul pt f.(price) / scaler)).

Lemma calculate_swap_eq scaler o f a :
  calculate_swap scaler o f a =
    if (o.(tokens) =? 0) || (f.(tokens) =? 0) then Err InvalidArgument
    else if (o.(price) =? 0) || (f.(price) =? 0) then Err InvalidArgument
    else
    let s := swap_of scaler o f in
    if (s.(sw_primary) =? 0) || (s.(sw_secondary) =? 0) then Err InvalidArgument
    else if o.(tokens) <? s.(sw_primary_cost) then Err InvalidArgument
    else if f.(tokens) <? s.(sw_secondary_cost) then Err InvalidArgument
    else
    Ok (with_order (u64_sub o.(tokens) s.(sw_primary_cost))
          (u64_add o.(tokens_settled) s.(sw_secondary)) o,
        with_order (u64_sub f.(tokens) s.(sw_secondary_cost))
          (u64_add f.(tokens_settled) s.(sw_primary)) f,
        credit (secondary f.(pair)) (u64_sub s.(sw_secondary_cost) s.(sw_secondary))
          (credit (primary o.(pair)) (u64_sub s.(sw_primary_cost) s.(sw_primary)) a)).
Proof. reflexivity. Qed.

Lemma calculate_swap_ok scaler o f a o' f' a' :
  calculate_swap scaler o f a = Ok (o', f', a') →
  let s := swap_of scaler o f in
  o.(price) ≠ 0 ∧ f.(price) ≠ 0 ∧ s.(sw_primary) ≠ 0 ∧ s.(sw_secondary) ≠ 0 ∧
  s.(sw_primary_cost) ≤ o.(tokens) ∧ s.(sw_secondary_cost) ≤ f.(tokens) ∧
  o' = with_order (u64_sub o.(tokens) s.(sw_primary_cost))
         (u64_add o.(tokens_settled) s.(sw_secondary)) o ∧
  f' = with_order (u64_sub f.(tokens) s.(sw_secondary_cost))
         (u64_add f.(tokens_settled) s.(sw_primary)) f ∧
  a' = credit (secondary f.(pair)) (u64_sub s.(sw_secondary_cost) s.(sw_secondary))
         (credit (primary o.(pair)) (u64_sub s.(sw_primary_cost) s.(sw_primary)) a).
Proof.
  rewrite calculate_swap_eq. cbn zeta. generalize (swap_of scaler o f) as s. intros s.
  destruct ((tokens o =? 0) || _); [done|].
  destruct (Z.eqb_spec (price o) 0); [done|]. destruct (Z.eqb_spec (price f) 0); [done|]. cbn [orb].
  destruct (Z.eqb_spec (sw_primary s) 0); [done|].
  destruct (Z.eqb_spec (sw_secondary s) 0); [done|]. cbn [orb].
  destruct (Z.ltb_spec (tokens o) (sw_primary_cost s)); [done|].
  destruct (Z.ltb_spec (tokens f) (sw_secondary_cost s)); [done|].
  intros [= <- <- <-]. auto 10.
Qed.

Lemma swap_of_bounds scaler o f :
  0 < scaler → 0 < o.(price) → 0 < f.(price) → 0 ≤ o.(tokens) → 0 ≤ f.(tokens) →
  let s := swap_of scaler o f in
  0 ≤ s.(sw_primary) ≤ s.(sw_primary_cost) ∧ 0 ≤ s.(sw_secondary) ≤ s.(sw_secondary_cost).
Proof.
  intros Hs Ho Hf Hot Hft. cbn.
  assert (∀ x y d, 0 < d → 0 ≤ u64_mul x y / d) as Hq.
  { intros x y d Hd. apply Z.div_pos; [|done]. unfold u64_mul. apply wrap64_range. }
  pose proof (Hq (tokens f) scaler (price f) Hf). pose proof (Hq (tokens o) (price o) scaler Hs).
  split; split; [| apply Z.le_max_l| |apply Z.le_max_l]; case_match; try apply Hq; lia.
Qed.

(** With crossing prices and no overflow, each side pays at most its price, up
    to the rounding of one unit of what it receives. *)
Lemma swap_of_fair scaler o f :
  0 < scaler → 0 < o.(price) ≤ f.(price) → 0 ≤ o.(tokens) → 0 ≤ f.(tokens) →
  o.(tokens) * o.(price) < two64 → f.(tokens) * scaler < two64 →
  let s := swap_of scaler o f in
  s.(sw_primary_cost) * o.(price) < (s.(sw_secondary) + 1) * scaler ∧
  s.(sw_secondary_cost) * scaler < (s.(sw_primary) + 1) * f.(price).
Proof.
  intros Hs Hp Hot Hft Hov Hfv. cbn.
  assert (∀ x y, 0 ≤ x → 0 ≤ y → x * y < two64 → u64_mul x y = x * y) as Hmul.
  { intros x y Hx Hy Hxy. unfold u64_mul. apply wrap64_small. unfold is_u64. nia. }
  rewrite (Hmul (tokens f) scaler), (Hmul (tokens o) (price o)) by lia.
  set (mp := Z.min (tokens f * scaler / price f) (tokens o)).
  set (ms := Z.min (tokens o * price o / scaler) (tokens f)).
  assert (0 ≤ mp ≤ tokens o ∧ mp * price f ≤ tokens f * scaler) as [Hmp Hmpf].
  { pose proof (Z.mul_div_le (tokens f * scaler) (price f) ltac:(lia)).
    pose proof (Z.div_pos (tokens f * scaler) (price f) ltac:(nia) ltac:(lia)). unfold mp. nia. }
  assert (0 ≤ ms ≤ tokens f ∧ ms * scaler ≤ tokens o * price o) as [Hms Hmso].
  { pose proof (Z.mul_div_le (tokens o * price o) scaler ltac:(lia)).
    pose proof (Z.div_pos (tokens o * price o) scaler ltac:(nia) ltac:(lia)). unfold ms. nia. }
  clearbody mp ms. destruct (ms <? mp).
  - rewrite !(Hmul ms scaler) by nia.
    pose proof (Z.div_le_compat_l (ms * scaler) (price o) (price f) ltac:(nia) ltac:(lia)).
    pose proof (Z.mul_div_le (ms * scaler) (price o) ltac:(lia)).
    pose proof (Z.mul_div_le (ms * scaler) (price f) ltac:(lia)).
    pose proof (Z.mul_succ_div_gt (ms * scaler) (price f) ltac:(lia)).
    pose proof (Z.div_pos (ms * scaler) (price f) ltac:(nia) ltac:(lia)).
    set (pt := ms * scaler / price f) in *. rewrite (Hmul pt (price f)) by nia.
    pose proof (Z.div_le_mono (pt * price f) (ms * scaler) scaler ltac:(lia) ltac:(lia)) as Hle.
    rewrite Z.div_mul in Hle by lia. rewrite (Z.max_r pt), (Z.max_l ms) by lia. nia.
  - rewrite !(Hmul mp (price o)), (Hmul mp (price f)) by nia.
    pose proof (Z.mul_div_le (mp * price o) scaler ltac:(lia)).
    pose proof (Z.mul_succ_div_gt (mp * price o) scaler ltac:(lia)).
    pose proof (Z.div_pos (mp * price o) scaler ltac:(nia) ltac:(lia)).
    pose proof (Z.div_le_mono (mp * price o) (mp * price f) scaler ltac:(lia) ltac:(nia)).
    pose proof (Z.mul_div_le (mp * price f) scaler ltac:(lia)).
    set (st := mp * price o / scaler) in *. rewrite (Hmul st scaler) by nia.
    pose proof (Z.div_le_mono (st * scaler) (mp * price o) (price o) ltac:(lia) ltac:(lia)) as Hle.
    rewrite Z.div_mul in Hle by lia. rewrite (Z.max_l mp), (Z.max_r st) by lia. nia.
Qed.


(** ** Signatures *)

Section Blind.
Context `{!Bincode ExchangeState, !Bincode ExchangeInstruction}.
Context (long_write : list Z → list Z → res InstructionError unit * list Z).

Definition unsigned (k : KeyedAccount) : KeyedAccount := mkKeyedAccount false k.(key) k.(account).

(** A computation that does not look at the signer flags. *)
Definition blind {A} (m : M (list KeyedAccount) InstructionError A) : Prop :=
  ∀ ks, m (unsigned <$> ks) = ((m ks).1, unsigned <$> (m ks).2).

Lemma blind_bind {A B} (m : M (list KeyedAccount) InstructionError A)
    (f : A → M (list KeyedAccount) InstructionError B) :
  blind m → (∀ a, blind (f a)) → blind (m ≫= f).
Proof.
  intros Hm Hf ks. unfold mbind, M_bind. rewrite Hm. destruct (m ks) as [[a|e|] ks']; cbn; [|done..].
  apply Hf.
Qed.

Lemma blind_ret {A} (a : A) : blind (mret a).
Proof. done. Qed.
Lemma blind_throw {A} e : blind (throw (A:=A) e).
Proof. done. Qed.
Lemma blind_panic {A} : blind (panic (A:=A)).
Proof. done. Qed.
Lemma blind_lift {A} (r : res InstructionError A) : blind (liftM r).
Proof. done. Qed.

Lemma blind_need n : blind (need_accounts n).
Proof.
  intros ks. unfold need_accounts. unfold_monad. rewrite length_fmap. by destruct (_ <? _)%nat.
Qed.

Lemma blind_data i : blind (data_at i).
Proof.
  intros ks. unfold data_at, system_instruction_processor.account_at. unfold_monad.
  rewrite list_lookup_fmap. by destruct (ks !! i).
Qed.

Lemma blind_key i : blind (unsigned_at i).
Proof.
  intros ks. unfold unsigned_at, system_instruction_processor.account_at. unfold_monad.
  rewrite list_lookup_fmap. by destruct (ks !! i).
Qed.

Lemma blind_store i st : blind (store_at long_write i st).
Proof.
  intros ks. unfold store_at, system_instruction_processor.account_at,
    system_instruction_processor.modify_account. unfold_monad.
  rewrite list_lookup_fmap. destruct (ks !! i) as [k|]; [|done]. cbn.
  destruct (exchange_serialize long_write st (data (account k))) as [r buf].
  rewrite list_lookup_fmap. destruct (ks !! i) as [k'|]; cbn; [|done]. by rewrite list_fmap_insert.
Qed.

Create HintDb blind discriminated.
#[local] Hint Resolve blind_ret blind_throw blind_panic blind_lift blind_need blind_data
  blind_key blind_store : blind.

Ltac solve_blind :=
  repeat first
    [ progress intros
    | solve [auto with blind]
    | match goal with |- blind (match ?x with _ => _ end) => destruct x end
    | apply blind_bind ].

(** No exchange instruction looks at a signature: with all the signer flags
    cleared it does exactly what it does with them, so that naming the owner
    of an account, who need not sign, is enough to transfer, trade or cancel
    what the account holds. *)
Theorem exchange_ignores_signatures ix ks :
  process_instruction long_write ix (unsigned <$> ks) =
    ((process_instruction long_write ix ks).1, unsigned <$> (process_instruction long_write ix ks).2).
Proof.
  revert ks. change (blind (process_instruction long_write ix)). unfold process_instruction.
  apply blind_bind; [auto with blind|]. intros [| | | |];
    unfold do_account_request, do_transfer_request, do_trade_request, do_trade_cancellation,
      do_swap_request; solve_blind.
Qed.
End Blind.

(** ** Completed and cancelled orders *)

Definition account_ranged (a : TokenAccountInfo) : Prop :=
  is_key a.(ea_owner) ∧ tokens_ranged a.(ea_tokens).

Global Instance ExchangeState_ranged : Ranged ExchangeState := λ st,
  match st with
  | EAccount a => account_ranged a
  | ETrade o => order_ranged o
  | EUnallocated | EInvalid => True
  end.

Lemma credit_ranged t v a : account_ranged a → account_ranged (credit t v a).
Proof.
  intros [Ho Ht]. split; [done|]. intros t'. rewrite credit_index.
  case_bool_decide; [apply wrap64_range|apply Ht].
Qed.

Lemma trade_to_token_account_ranged o : order_ranged o → account_ranged (trade_to_token_account o).
Proof.
  intros (Hk & _ & _ & Hs). split; [done|]. intros t. cbn. rewrite tokens_index_set.
  case_bool_decide; [done|]. by destruct t.
Qed.

Lemma calculate_swap_ranged scaler o f a o' f' a' :
  calculate_swap scaler o f a = Ok (o', f', a') →
  order_ranged o → order_ranged f → account_ranged a →
  order_ranged o' ∧ order_ranged f' ∧ account_ranged a'.
Proof.
  intros (_ & _ & _ & _ & _ & _ & -> & -> & ->)%calculate_swap_ok (? & ? & ? & ?) (? & ? & ? & ?) ?.
  split_and!; [split_and!; cbn; auto; apply wrap64_range..|by do 2 apply credit_ranged].
Qed.

Section Orders.
Context `{!Bincode ExchangeState, !BincodeLaws ExchangeState}.
Context (long_write : list Z → list Z → res InstructionError unit * list Z).

Definition reads (k : KeyedAccount) (st : ExchangeState) : Prop :=
  read_state k.(account).(data) = Ok st.

(** Every state of the program fits the account. *)
Definition roomy (k : KeyedAccount) : Prop :=
  ∀ st, in_range st →
    (length (serialize st) ≤ length k.(account).(data))%nat ∧ Z.of_nat (length (serialize st)) ≤ 8192.

Lemma store_at_roomy i st k ks :
  ks !! i = Some k → in_range st → roomy k →
  ∃ k', store_at long_write i st ks = (Ok tt, <[i := k']> ks) ∧ reads k' st ∧
    key k' = key k ∧ roomy k'.
Proof.
  intros Hk Hr Hroom. destruct (Hroom st Hr) as [Hl Hb].
  unfold store_at, system_instruction_processor.account_at,
    system_instruction_processor.modify_account, exchange_serialize, buffered_write. unfold_monad.
  rewrite Hk. cbn. rewrite (proj2 (Z.leb_le _ _)), take_ge by (done || lia). cbn. rewrite Hk.
  eexists. split; [done|]. split_and!; [|done|].
  - unfold reads, read_state. cbn. by rewrite deserialize_serialize.
  - intros st' Hst'. destruct (Hroom st' Hst'). cbn. rewrite length_app, length_drop. lia.
Qed.

Lemma reads_ranged k st : reads k st → in_range st.
Proof.
  unfold reads, read_state. destruct (deserialize _) eqn:Hd; [|done]. intros [= <-].
  by apply deserialize_in_range in Hd.
Qed.

(** A [To] order that a swap completes is lost to its owner: its account
    becomes a token account of the owner of the [From] order, with a copy of
    what that order has settled and none of the tokens the completed order was
    owed. *)
Theorem completed_to_order_is_lost k0 k1 k2 k3 rest o f a o' f' a'
    (Hto : reads k1 (ETrade o)) (Hfrom : reads k2 (ETrade f)) (Hprofit : reads k3 (EAccount a))
    (Hdo : o.(direction) = To) (Hdf : f.(direction) = From) (Hpair : o.(pair) = f.(pair))
    (Hswap : calculate_swap SCALER o f a = Ok (o', f', a')) (Hdone : o'.(tokens) = 0)
    (H1 : roomy k1) (H2 : roomy k2) (H3 : roomy k3) :
  ∃ k1' k2' k3',
    do_swap_request long_write (k0 :: k1 :: k2 :: k3 :: rest) =
      (Ok tt, k0 :: k1' :: k2' :: k3' :: rest) ∧
    reads k1' (EAccount (trade_to_token_account f')) ∧
    ea_owner (trade_to_token_account f') = f.(to_owner) ∧
    tokens_index (ea_tokens (trade_to_token_account f')) (secondary o.(pair)) = 0 ∧
    reads k2' (if f'.(tokens) =? 0 then EAccount (trade_to_token_account f') else ETrade f') ∧
    reads k3' (EAccount a').
Proof.
  destruct (calculate_swap_ranged _ _ _ _ _ _ _ Hswap) as (Hro & Hrf & Hra);
    [by apply (reads_ranged k1 (ETrade o))|by apply (reads_ranged k2 (ETrade f))
    |by apply (reads_ranged k3 (EAccount a))|].
  assert (direction f' = direction f ∧ to_owner f' = to_owner f ∧ pair f' = pair f) as (Hd' & Ho' & Hp').
  { by apply calculate_swap_ok in Hswap as (_ & _ & _ & _ & _ & _ & _ & -> & _). }
  set (st2 := if tokens f' =? 0 then EAccount (trade_to_token_account f') else ETrade f').
  assert (in_range st2) as Hst2.
  { unfold st2. case_match; [by apply trade_to_token_account_ranged|done]. }
  destruct (store_at_roomy 1 (EAccount (trade_to_token_account f')) k1 (k0 :: k1 :: k2 :: k3 :: rest))
    as (k1' & Hs1 & Hr1 & _); [done|by apply trade_to_token_account_ranged|done|].
  destruct (store_at_roomy 2 st2 k2 (k0 :: k1' :: k2 :: k3 :: rest)) as (k2' & Hs2 & Hr2 & _);
    [done..|].
  destruct (store_at_roomy 3 (EAccount a') k3 (k0 :: k1' :: k2' :: k3 :: rest))
    as (k3' & Hs3 & Hr3 & _); [done..|].
  exists k1', k2', k3'. split_and!; try done.
  - unfold do_swap_request, need_accounts, data_at, deserialize_trade, deserialize_account,
      system_instruction_processor.account_at. unfold_monad. cbn.
    rewrite Hto. cbn. rewrite Hfrom. cbn. rewrite Hprofit. cbn.
    rewrite Hdo, Hdf, Hpair. rewrite !bool_decide_true by done. cbn [negb].
    rewrite bool_decide_false by done. rewrite Hswap. cbn. rewrite Hdone. cbn.
    cbn in Hs1. rewrite Hs1. cbn.
    assert ((if tokens f' =? 0 then store_at long_write 2 (EAccount (trade_to_token_account f'))
             else store_at long_write 2 (ETrade f')) = store_at long_write 2 st2) as ->.
    { unfold st2. by case_match. }
    cbn in Hs2. rewrite Hs2. cbn. exact Hs3.
  - cbn. rewrite Hd', Hdf, tokens_index_set, Hp', Hpair.
    rewrite bool_decide_false by (intros He; by apply (primary_secondary (pair f))).
    by destruct (secondary (pair f)).
Qed.

(** Cancelling an order converts what it has settled in the other token into the
    token it offered. *)
Lemma cancellation_converts k0 k1 rest o
    (Htrade : reads k1 (ETrade o)) (Hroom : roomy k1) (Howner : o.(to_owner) = k0.(key)) :
  let offered := match o.(direction) with
                 | To => primary o.(pair) | From => secondary o.(pair) end in
  ∃ k1' a, do_trade_cancellation long_write (k0 :: k1 :: rest) = (Ok tt, k0 :: k1' :: rest) ∧
    reads k1' (EAccount a) ∧
    tokens_index a.(ea_tokens) offered = u64_add o.(tokens) o.(tokens_settled) ∧
    ∀ t, t ≠ offered → tokens_index a.(ea_tokens) t = 0.
Proof.
  cbn zeta. set (offered := match direction o with To => _ | From => _ end).
  pose proof (reads_ranged k1 _ Htrade) as (Hk & Ht & _ & Hs).
  set (a := credit offered (tokens_settled o)
    (mkTokenAccount (to_owner o) (tokens_set offered (tokens o) Tokens_default))).
  destruct (store_at_roomy 1 (EAccount a) k1 (k0 :: k1 :: rest)) as (k1' & Hst & Hr & _); [done| |done|].
  { apply credit_ranged. split; [done|]. intros t. cbn. rewrite tokens_index_set.
    case_bool_decide; [done|]. by destruct t. }
  exists k1', a. split_and!; [|done|..].
  - unfold do_trade_cancellation, need_accounts, data_at, unsigned_at, deserialize_trade,
      system_instruction_processor.account_at. unfold_monad. cbn. rewrite Htrade. cbn.
    unfold unsigned_key. rewrite Howner, Z.eqb_refl. cbn. rewrite <- Howner. exact Hst.
  - unfold a. rewrite credit_index, bool_decide_true by done. cbn.
    by rewrite tokens_index_set, bool_decide_true.
  - intros t Hne. unfold a. rewrite credit_index, bool_decide_false by done. cbn.
    rewrite tokens_index_set, bool_decide_false by done. by destruct t.
Qed.
End Orders.
End exchange_proofs.

Module exchange_demo.
Import exchange_state exchange_instruction exchange_processor exchange_proofs.

Definition direction_codec : codec Direction.
Proof.
  refine (map_codec u8_codec (λ d, match d with To => 0 | From => 1 end)
    (λ b, match b with 0 => Some To | 1 => Some From | _ => None end) _ _).
  - by intros [].
  - intros b a Hb. repeat (case_match; try done); by simplify_eq.
Defined.

Definition pair_id_codec : codec TokenPair.
Proof.
  refine (map_codec u8_codec
    (λ d, match d with AB => 0 | AC => 1 | AD => 2 | BC => 3 | BD => 4 | CD => 5 end)
    (λ b, match b with
          | 0 => Some AB | 1 => Some AC | 2 => Some AD | 3 => Some BC | 4 => Some BD
          | 5 => Some CD | _ => None end) _ _).
  - by intros [].
  - intros b a Hb. repeat (case_match; try done); by simplify_eq.
Defined.

Definition account_codec : codec TokenAccountInfo.
Proof.
  refine (map_codec (pair_codec key_codec (pair_codec u64_codec (pair_codec u64_codec
      (pair_codec u64_codec u64_codec))))
    (λ a, (a.(ea_owner), (a.(ea_tokens).(tA), (a.(ea_tokens).(tB),
       (a.(ea_tokens).(tC), a.(ea_tokens).(tD))))))
    (λ '(o, (a, (b, (c, d)))), Some (mkTokenAccount o (mkTokens a b c d))) _ _).
  - by intros [? []].
  - by intros (?&?&?&?&?) ? [= <-].
Defined.

Definition order_codec : codec TradeOrderInfo.
Proof.
  refine (map_codec (pair_codec key_codec (pair_codec direction_codec (pair_codec pair_id_codec
      (pair_codec u64_codec (pair_codec u64_codec u64_codec)))))
    (λ o, (o.(to_owner), (o.(direction), (o.(pair), (o.(tokens), (o.(price), o.(tokens_settled)))))))
    (λ '(o, (d, (p, (t, (c, s))))), Some (mkTradeOrder o d p t c s)) _ _).
  - by intros [].
  - by intros (?&?&?&?&?&?) ? [= <-].
Defined.

Definition ExchangeState_codec : codec ExchangeState.
Proof.
  refine (map_codec (sum_codec account_codec (sum_codec order_codec (option_codec (option_codec u8_codec))))
    (λ st, match st with
           | EAccount a => inl a
           | ETrade o => inr (inl o)
           | EUnallocated => inr (inr None)
           | EInvalid => inr (inr (Some None))
           end)
    (λ b, match b with
          | inl a => Some (EAccount a)
          | inr (inl o) => Some (ETrade o)
          | inr (inr None) => Some EUnallocated
          | inr (inr (Some None)) => Some EInvalid
          | _ => None
          end) _ _).
  - by intros [].
  - by intros [|[|[[|]|]]] ? [= <-].
Defined.

#[local] Instance demo_exchange_bincode : Bincode ExchangeState := codec_bincode ExchangeState_codec.

Lemma account_valid a : account_ranged a ↔ valid account_codec a.
Proof.
  destruct a as [o [a b c d]]. unfold account_ranged, tokens_ranged. cbn. split.
  - intros [Ho Ht]. split; [done|].
    split_and!; [apply (Ht A)|apply (Ht A)|apply (Ht B)|apply (Ht B)|apply (Ht C)|apply (Ht C)
      |apply (Ht D)|apply (Ht D)].
  - intros (Ho & Ha & Hb & Hc & Hd). split; [done|]. by intros [].
Qed.

Lemma order_valid o : order_ranged o ↔ valid order_codec o.
Proof.
  destruct o as [k d p t c s]. unfold order_ranged. cbn. unfold is_u64, is_key. split.
  - intros (? & ? & ? & ?). split_and!; try lia; destruct d; try lia; destruct p; lia.
  - intros (? & _ & _ & ? & ? & ?). split_and!; lia.
Qed.

Lemma demo_exchange_laws : BincodeLaws ExchangeState.
Proof. apply codec_laws. intros [|a|o|]; [done|apply account_valid|apply order_valid|done]. Qed.
#[local] Existing Instance demo_exchange_laws.

Lemma le_enc_length n z : length (le_enc n z) = n.
Proof. revert z. induction n as [|n IH]; intros z; [done|]. cbn. by rewrite IH. Qed.

Definition demo_account (st : ExchangeState) (k : Pubkey) : KeyedAccount :=
  mkKeyedAccount false k (mkAccount 1 0
    (serialize st ++ replicate (120 - length (serialize st)) 0) exchange_program.id false).

Lemma demo_roomy st k : roomy (demo_account st k).
Proof.
  assert (∀ st : ExchangeState, (length (serialize st) ≤ 120)%nat) as Hlen.
  { intros [|[o []]|[o [] [] t c s]|]; cbn -[le_enc]; rewrite ?length_app, ?le_enc_length; lia. }
  intros st' _. pose proof (Hlen st). pose proof (Hlen st'). cbn -[serialize Nat.sub].
  rewrite length_app, length_replicate. lia.
Qed.

(** Owner 7 sells 2 A for at least 3 B each, owner 8 buys A for at most 4 B. *)
Definition demo_to : TradeOrderInfo := mkTradeOrder 7 To AB 2 3000 0.
Definition demo_from : TradeOrderInfo := mkTradeOrder 8 From AB 20 4000 0.
Definition demo_broker : TokenAccountInfo := mkTokenAccount 9 Tokens_default.


Lemma completed_to_order_is_lost_witness :
  ∃ k1' k2' k3',
    do_swap_request (λ _ out, (Err GenericError, out))
      [demo_account EUnallocated 9; demo_account (ETrade demo_to) 17;
       demo_account (ETrade demo_from) 18; demo_account (EAccount demo_broker) 19] =
      (Ok tt, [demo_account EUnallocated 9; k1'; k2'; k3']) ∧
    reads k1' (EAccount (mkTokenAccount 8 (mkTokens 2 0 0 0))).
Proof.
  destruct (completed_to_order_is_lost (λ _ out, (Err GenericError, out))
    (demo_account EUnallocated 9) (demo_account (ETrade demo_to) 17)
    (demo_account (ETrade demo_from) 18) (demo_account (EAccount demo_broker) 19) []
    demo_to demo_from demo_broker (mkTradeOrder 7 To AB 0 3000 6)
    (mkTradeOrder 8 From AB 12 4000 2) (mkTokenAccount 9 (mkTokens 0 2 0 0)))
    as (k1' & k2' & k3' & Hrun & Hr1 & _);
    [vm_compute; reflexivity..|apply demo_roomy|apply demo_roomy|apply demo_roomy|].
  exists k1', k2', k3'. split; [exact Hrun|exact Hr1].
Defined.

(** Prices that do not cross are matched all the same: owner 8 pays twice its
    price. *)
Lemma uncrossed_orders_match :
  calculate_swap SCALER (mkTradeOrder 7 To AB 1000 2000 0) (mkTradeOrder 8 From AB 2000 1000 0)
    demo_broker =
  Ok (mkTradeOrder 7 To AB 0 2000 2000, mkTradeOrder 8 From AB 0 1000 1000, demo_broker).
Proof. reflexivity. Qed.
End exchange_demo.
