(* ===== verification/Storage.v ===== *)
(** * The storage program

    controllers/storage_api/src: the contracts of validators, replicators and
    the mining pool ([storage_contract.rs]), the instructions and their builders
    ([storage_instruction.rs]) and the processor ([storage_processor.rs]).

    A [HashMap] is a [gmap]; a bincode instance fixes some order in which its
    entries are written, and only what is read back is used. *)

From S2P Require Import Prelude Interface Codec SystemProgram Message MessageProcessor.

Module storage_program.
Definition id : Pubkey :=
  be_bytes [6; 162; 25; 123; 127; 68; 233; 59; 131; 151; 21; 152; 162; 120; 90; 37; 154; 88; 86; 5;
            156; 221; 182; 201; 142; 103; 151; 112; 0; 0; 0; 0].
Definition SLOTS_PER_SEGMENT : Z := 16.
Definition get_segment_from_slot (slot : Z) : Z := slot / SLOTS_PER_SEGMENT.
End storage_program.
Global Arguments storage_program.id : simpl never.

Module storage_contract.
Import storage_program(get_segment_from_slot).

Definition TOTAL_VALIDATOR_REWARDS : Z := 1.
Definition TOTAL_REPLICATOR_REWARDS : Z := 1.
Definition STORAGE_ACCOUNT_SPACE : Z := 1024 * 8.

Inductive ProofStatus := Skipped | Valid | NotValid.

Global Instance ProofStatus_eq_dec : EqDecision ProofStatus.
Proof. solve_decision. Defined.

Record Proof_ := mkProof { p_signature : Signature; sha_state : Hash }.

Record CheckedProof := mkCheckedProof { cp_proof : Proof_; cp_status : ProofStatus }.

Inductive StorageContract :=
| Uninitialized
| ValidatorStorage (slot : Z) (hash : Hash)
    (lockout_validations reward_validations : gmap Z (gmap Hash ProofStatus))
| ReplicatorStorage (proofs : gmap Z (gmap Hash Proof_))
    (reward_validations : gmap Z (gmap Hash (list ProofStatus)))
| MiningPool.

Definition count_valid_proofs (proofs : list ProofStatus) : Z :=
  foldl (λ num proof, match proof with Valid => num + 1 | _ => num end) 0 proofs.

Section Contract.
Context `{!Bincode StorageContract}.

Definition create_validator_storage_account (difs : Z) : res InstructionError Account :=
  let '(r, storage_account) :=
    set_state (ValidatorStorage 0 Hash_default ∅ ∅)
      (Account_new difs 0 STORAGE_ACCOUNT_SPACE storage_program.id) in
  match r with Ok _ => Ok storage_account | _ => Panic end.

(** The operations of a [StorageAccount] work on the account behind it. *)
Definition initialize (contract : StorageContract) (a : Account)
    : res InstructionError unit * Account :=
  match state a with
  | Ok Uninitialized => set_state contract a
  | Ok _ => (Err AccountAlreadyInitialized, a)
  | Err e => (Err e, a)
  | Panic => (Panic, a)
  end.

Definition initialize_mining_pool (a : Account) : res InstructionError unit * Account :=
  initialize MiningPool a.
Definition initialize_replicator_storage (a : Account) : res InstructionError unit * Account :=
  initialize (ReplicatorStorage ∅ ∅) a.
Definition initialize_validator_storage (a : Account) : res InstructionError unit * Account :=
  initialize (ValidatorStorage 0 Hash_default ∅ ∅) a.

Definition submit_mining_proof (sha : Hash) (slot : Z) (signature : Signature) (current_slot : Z)
    (a : Account) : res InstructionError unit * Account :=
  match state a with
  | Ok (ReplicatorStorage proofs reward_validations) =>
      let segment_index := get_segment_from_slot slot in
      let current_segment := get_segment_from_slot current_slot in
      if current_segment <=? segment_index then (Err InvalidArgument, a)
      else
      let segment_proofs := default ∅ (proofs !! segment_index) in
      if bool_decide (is_Some (segment_proofs !! sha)) then (Err InvalidArgument, a)
      else set_state (ReplicatorStorage
             (<[segment_index := <[sha := mkProof signature sha]> segment_proofs]> proofs)
             reward_validations) a
  | Ok _ => (Err InvalidArgument, a)
  | Err e => (Err e, a)
  | Panic => (Panic, a)
  end.

(** [reward_validations.extend(lockout_validations.drain())] *)
Definition extend {A} (m drained : gmap Z A) : gmap Z A := drained ∪ m.

Definition advertise_storage_recent_blockhash (hash : Hash) (slot current_slot : Z) (a : Account)
    : res InstructionError unit * Account :=
  match state a with
  | Ok (ValidatorStorage state_slot state_hash lockout_validations reward_validations) =>
      let current_segment := get_segment_from_slot current_slot in
      let original_segment := get_segment_from_slot state_slot in
      let segment := get_segment_from_slot slot in
      if (segment <? original_segment) || (current_segment <=? segment)
      then (Err InvalidArgument, a)
      else set_state (ValidatorStorage slot hash ∅ (extend reward_validations lockout_validations)) a
  | Ok _ => (Err InvalidArgument, a)
  | Err e => (Err e, a)
  | Panic => (Panic, a)
  end.

Definition store_validation_result (segment : Z) (checked_proof : CheckedProof) (a : Account)
    : res InstructionError unit * Account :=
  match state a with
  | Ok (ReplicatorStorage proofs reward_validations) =>
      match proofs !! segment with
      | None => (Err InvalidAccountData, a)
      | Some segment_proofs =>
          let sha := checked_proof.(cp_proof).(sha_state) in
          if bool_decide (is_Some (segment_proofs !! sha))
          then
            let of_segment := default ∅ (reward_validations !! segment) in
            let of_sha := default [] (of_segment !! sha) in
            set_state (ReplicatorStorage proofs
              (<[segment := <[sha := of_sha ++ [checked_proof.(cp_status)]]> of_segment]>
                 reward_validations)) a
          else (Err InvalidAccountData, a)
      end
  | Ok _ => (Err InvalidAccountData, a)
  | Err e => (Err e, a)
  | Panic => (Panic, a)
  end.

Definition process_validation (segment_index : Z) (proof : Proof_) (checked_proof : CheckedProof)
    (a : Account) : res InstructionError unit * Account :=
  match store_validation_result segment_index checked_proof a with
  | (Ok _, a') =>
      if negb (bool_decide (proof.(p_signature) = checked_proof.(cp_proof).(p_signature)))
         || negb (bool_decide (checked_proof.(cp_status) = Valid))
      then (Err GenericError, a')
      else (Ok tt, a')
  | (r, a') => (r, a')
  end.

(** The accounts of [accounts_and_proofs], by their position. *)
Fixpoint accounts_and_proofs (segment_index : Z) (i : nat) (replicators : list Account)
    : list (nat * gmap Hash Proof_) :=
  match replicators with
  | [] => []
  | a :: rest =>
      match state a with
      | Ok (ReplicatorStorage proofs _) =>
          match proofs !! segment_index with
          | Some ps => (i, ps) :: accounts_and_proofs segment_index (S i) rest
          | None => accounts_and_proofs segment_index (S i) rest
          end
      | _ => accounts_and_proofs segment_index (S i) rest
      end
  end.

(** The inner iterator: the checked proofs of one replicator that it knows,
    validated one after the other; the ones that pass are kept. *)
Fixpoint validate_proofs (segment_index : Z) (i : nat) (proofs : gmap Hash Proof_)
    (checked : list CheckedProof) (replicators : list Account)
    : res InstructionError (list CheckedProof) * list Account :=
  match checked with
  | [] => (Ok [], replicators)
  | c :: checked' =>
      match proofs !! c.(cp_proof).(sha_state), replicators !! i with
      | Some proof, Some a =>
          let '(r, a') := process_validation segment_index proof c a in
          let replicators' := <[i := a']> replicators in
          match r with
          | Panic => (Panic, replicators')
          | _ =>
              let '(rest, replicators'') :=
                validate_proofs segment_index i proofs checked' replicators' in
              (vs ← rest; Ok (match r with Ok _ => c :: vs | _ => vs end), replicators'')
          end
      | Some _, None => (Panic, replicators)
      | None, _ => validate_proofs segment_index i proofs checked' replicators
      end
  end.

Fixpoint validate_all (segment_index : Z)
    (zipped : list ((Pubkey * list CheckedProof) * (nat * gmap Hash Proof_)))
    (replicators : list Account) : res InstructionError (list CheckedProof) * list Account :=
  match zipped with
  | [] => (Ok [], replicators)
  | ((_, checked), (i, proofs)) :: zipped' =>
      match validate_proofs segment_index i proofs checked replicators with
      | (Ok vs, replicators') =>
          let '(rest, replicators'') := validate_all segment_index zipped' replicators' in
          (ws ← rest; Ok (vs ++ ws), replicators'')
      | (r, replicators') => (r, replicators')
      end
  end.

Definition proof_validation (segment : Z) (proofs : list (Pubkey * list CheckedProof))
    (a : Account) (replicators : list Account)
    : res InstructionError unit * (Account * list Account) :=
  match state a with
  | Ok (ValidatorStorage state_slot hash lockout_validations reward_validations) =>
      let segment_index := segment in
      let state_segment := get_segment_from_slot state_slot in
      if state_segment <? segment_index then (Err InvalidArgument, (a, replicators))
      else
      let found := accounts_and_proofs segment_index 0 replicators in
      if negb (length found =? length proofs)%nat then (Err InvalidArgument, (a, replicators))
      else
      match validate_all segment_index (zip proofs found) replicators with
      | (Ok valid_proofs, replicators') =>
          let lockout_validations' :=
            foldl (λ l p, <[segment_index := <[p.(cp_proof).(sha_state) := p.(cp_status)]>
                              (default ∅ (l !! segment_index))]> l)
              lockout_validations valid_proofs in
          let '(r, a') :=
            set_state (ValidatorStorage state_slot hash lockout_validations' reward_validations) a in
          (r, (a', replicators'))
      | (Err e, replicators') => (Err e, (a, replicators'))
      | (Panic, replicators') => (Panic, (a, replicators'))
      end
  | Ok _ => (Err InvalidArgument, (a, replicators))
  | Err e => (Err e, (a, replicators))
  | Panic => (Panic, (a, replicators))
  end.

(** The reward goes from the pool to the claimant; both balances wrap. *)
Definition pay_reward (reward : Z) (contract : StorageContract) (a : Account) (pool : KeyedAccount)
    : res InstructionError unit * (Account * KeyedAccount) :=
  let pool' :=
    with_account (system_instruction_processor.sub_difs reward pool.(account)) pool in
  let '(r, a') := set_state contract (system_instruction_processor.add_difs reward a) in
  (r, (a', pool')).

Definition claim_storage_reward (pool : KeyedAccount) (slot current_slot : Z) (a : Account)
    : res InstructionError unit * (Account * KeyedAccount) :=
  match state a with
  | Ok (ValidatorStorage state_slot hash lockout_validations reward_validations) =>
      let state_segment := get_segment_from_slot state_slot in
      let claim_segment := get_segment_from_slot slot in
      match reward_validations !! claim_segment with
      | Some proofs =>
          if state_segment <=? claim_segment then (Err InvalidArgument, (a, pool))
          else
          let num_validations := count_valid_proofs (map_to_list proofs).*2 in
          let reward := u64_mul TOTAL_VALIDATOR_REWARDS num_validations in
          pay_reward reward
            (ValidatorStorage state_slot hash lockout_validations
               (delete claim_segment reward_validations)) a pool
      | None => (Err InvalidArgument, (a, pool))
      end
  | Ok (ReplicatorStorage proofs reward_validations) =>
      let claim_index := get_segment_from_slot current_slot in
      let claim_segment := get_segment_from_slot slot in
      match reward_validations !! claim_segment, proofs !! claim_segment with
      | Some validations, Some segment_proofs =>
          if claim_index <=? claim_segment then (Err InvalidArgument, (a, pool))
          else
          let checked_proofs := mjoin (map_to_list validations).*2 in
          let segment_proofs' :=
            foldl (λ ps '(sha, statuses), match statuses with [] => ps | _ => delete sha ps end)
              segment_proofs (map_to_list validations) in
          let total_proofs := Z.of_nat (length checked_proofs) in
          let num_validations := count_valid_proofs checked_proofs in
          if total_proofs =? 0 then (Panic, (a, pool))
          else
          let reward := u64_mul (u64_mul num_validations TOTAL_REPLICATOR_REWARDS)
                          (num_validations / total_proofs) in
          pay_reward reward
            (ReplicatorStorage (<[claim_segment := segment_proofs']> proofs)
               (delete claim_segment reward_validations)) a pool
      | _, _ => (Err InvalidArgument, (a, pool))
      end
  | Ok _ => (Err InvalidArgument, (a, pool))
  | Err e => (Err e, (a, pool))
  | Panic => (Panic, (a, pool))
  end.
End Contract.
End storage_contract.

Module storage_instruction.
Import storage_contract.

Inductive StorageInstruction :=
| InitializeMiningPool
| InitializeValidatorStorage
| InitializeReplicatorStorage
| SubmitMiningProof (sha_state : Hash) (slot : Z) (signature : Signature)
| AdvertiseStorageRecentBlockhash (hash : Hash) (slot : Z)
| ClaimStorageReward (slot : Z)
| ProofValidation (segment : Z) (proofs : list (Pubkey * list CheckedProof)).

Section Builders.
Context `{!Bincode StorageInstruction, !Bincode system_instruction.SystemInstruction}.

Definition create_storage_account (init : StorageInstruction) (from_pubkey storage_pubkey : Pubkey)
    (difs : Z) : list Instruction :=
  [system_instruction.create_account from_pubkey storage_pubkey difs STORAGE_ACCOUNT_SPACE
     storage_program.id;
   Instruction_new storage_program.id init [AccountMeta_new storage_pubkey false]].

Definition create_validator_storage_account : Pubkey → Pubkey → Z → list Instruction :=
  create_storage_account InitializeValidatorStorage.
Definition create_replicator_storage_account : Pubkey → Pubkey → Z → list Instruction :=
  create_storage_account InitializeReplicatorStorage.
Definition create_mining_pool_account : Pubkey → Pubkey → Z → list Instruction :=
  create_storage_account InitializeMiningPool.

Definition mining_proof (storage_pubkey : Pubkey) (sha : Hash) (slot : Z) (signature : Signature)
    : Instruction :=
  Instruction_new storage_program.id (SubmitMiningProof sha slot signature)
    [AccountMeta_new storage_pubkey true].

Definition advertise_recent_blockhash (storage_pubkey : Pubkey) (storage_hash : Hash) (slot : Z)
    : Instruction :=
  Instruction_new storage_program.id (AdvertiseStorageRecentBlockhash storage_hash slot)
    [AccountMeta_new storage_pubkey true].

Definition proof_validation (storage_pubkey : Pubkey) (segment : Z)
    (checked_proofs : gmap Pubkey (list CheckedProof)) : Instruction :=
  let proofs := map_to_list checked_proofs in
  Instruction_new storage_program.id (ProofValidation segment proofs)
    (AccountMeta_new storage_pubkey true :: ((λ p, AccountMeta_new p.1 false) <$> proofs)).

Definition claim_reward (storage_pubkey mining_pool_pubkey : Pubkey) (slot : Z) : Instruction :=
  Instruction_new storage_program.id (ClaimStorageReward slot)
    [AccountMeta_new storage_pubkey false; AccountMeta_new mining_pool_pubkey false].
End Builders.
End storage_instruction.

Module storage_processor.
Import storage_contract storage_instruction.

Definition DEFAULT_TICKS_PER_SLOT : Z := 8.

Section Processor.
Context `{!Bincode StorageContract, !Bincode StorageInstruction}.

(** An operation that only touches the first account. *)
Definition on_me (op : Account → res InstructionError unit * Account) (me : KeyedAccount)
    (rest : list KeyedAccount) : res InstructionError unit * list KeyedAccount :=
  let '(r, a) := op me.(account) in (r, with_account a me :: rest).

Definition process_instruction (data' : list Z) (tick_height : Z)
    : M (list KeyedAccount) InstructionError unit := λ keyed_accounts,
  match keyed_accounts with
  | [] => (Panic, [])
  | me :: rest =>
      let me_unsigned := negb (bool_decide (is_Some (signer_key me))) in
      let current_slot := tick_height / DEFAULT_TICKS_PER_SLOT in
      let rest_empty := bool_decide (rest = []) in
      match deserialize data' with
      | None => (Err InvalidInstructionData, me :: rest)
      | Some InitializeMiningPool =>
          if negb rest_empty then (Err InvalidArgument, me :: rest)
          else on_me initialize_mining_pool me rest
      | Some InitializeReplicatorStorage =>
          if negb rest_empty then (Err InvalidArgument, me :: rest)
          else on_me initialize_replicator_storage me rest
      | Some InitializeValidatorStorage =>
          if negb rest_empty then (Err InvalidArgument, me :: rest)
          else on_me initialize_validator_storage me rest
      | Some (SubmitMiningProof sha slot signature) =>
          if me_unsigned || negb rest_empty then (Err InvalidArgument, me :: rest)
          else on_me (submit_mining_proof sha slot signature current_slot) me rest
      | Some (AdvertiseStorageRecentBlockhash hash slot) =>
          if me_unsigned || negb rest_empty then (Err InvalidArgument, me :: rest)
          else on_me (advertise_storage_recent_blockhash hash slot current_slot) me rest
      | Some (ClaimStorageReward slot) =>
          match rest with
          | [pool] =>
              let '(r, (a, pool')) := claim_storage_reward pool slot current_slot me.(account) in
              (r, [with_account a me; pool'])
          | _ => (Err InvalidArgument, me :: rest)
          end
      | Some (ProofValidation segment proofs) =>
          if me_unsigned || rest_empty then (Err InvalidArgument, me :: rest)
          else
          let '(r, (a, accounts)) :=
            storage_contract.proof_validation segment proofs me.(account) (account <$> rest) in
          (r, with_account a me :: zip_with with_account accounts rest)
      end
  end.

(** The program as the message processor calls it. *)
Definition storage_process : message_processor.ProcessInstruction :=
  λ _ ks ix tick_height,
    let '(r, ks') := process_instruction ix tick_height ks in (r, account <$> ks').
End Processor.
End storage_processor.

Module storage_proofs.
Import storage_contract storage_instruction storage_processor.

(** ** Widths *)

Definition map_ranged {A} (K : Z → Prop) (P : A → Prop) (m : gmap Z A) : Prop :=
  map_Forall (λ k v, K k ∧ P v) m ∧ is_u64 (Z.of_nat (size m)).

Definition bytes_ranged (l : list Z) : Prop := Forall is_u8 l ∧ is_u64 (Z.of_nat (length l)).
Definition proof_ranged (p : Proof_) : Prop := bytes_ranged p.(p_signature) ∧ is_key p.(sha_state).
Definition statuses_ranged (l : list ProofStatus) : Prop := is_u64 (Z.of_nat (length l)).

Global Instance StorageContract_ranged : Ranged StorageContract := λ c,
  match c with
  | Uninitialized | MiningPool => True
  | ValidatorStorage slot hash lockout reward =>
      is_u64 slot ∧ is_key hash ∧
      map_ranged is_u64 (map_ranged is_key (λ _, True)) lockout ∧
      map_ranged is_u64 (map_ranged is_key (λ _, True)) reward
  | ReplicatorStorage proofs reward =>
      map_ranged is_u64 (map_ranged is_key proof_ranged) proofs ∧
      map_ranged is_u64 (map_ranged is_key statuses_ranged) reward
  end.

Lemma map_ranged_delete {A} K (P : A → Prop) k m :
  map_ranged K P m → map_ranged K P (delete k m).
Proof.
  intros [Hm Hs]. split; [by apply map_Forall_delete|]. unfold is_u64 in *.
  destruct (m !! k) as [v|] eqn:Hk.
  - rewrite (map_size_delete_Some k m) by eauto. lia.
  - by rewrite delete_id.
Qed.

Lemma map_ranged_replace {A} K (P : A → Prop) k v v' m :
  map_ranged K P m → m !! k = Some v → P v' → map_ranged K P (<[k := v']> m).
Proof.
  intros [Hm Hs] Hk Hv. pose proof (Hm k v Hk) as [HK _]. split.
  - apply map_Forall_insert_2; done.
  - rewrite map_size_insert, Hk. done.
Qed.

Lemma map_ranged_deletes {A} K (P : A → Prop) (f : gmap Z A → Z * list ProofStatus → gmap Z A) l :
  (∀ m x, map_ranged K P m → map_ranged K P (f m x)) →
  ∀ m, map_ranged K P m → map_ranged K P (foldl f m l).
Proof. intros Hf. induction l; intros m Hm; cbn; auto. Qed.

(** ** Claims *)

Section Claims.
Context `{!Bincode StorageContract, !BincodeLaws StorageContract}.

(** The segments for which the contract has rewards to give. *)
Definition rewarded_segment (c : StorageContract) (segment : Z) : bool :=
  match c with
  | ValidatorStorage _ _ _ reward => bool_decide (is_Some (reward !! segment))
  | ReplicatorStorage _ reward => bool_decide (is_Some (reward !! segment))
  | _ => false
  end.

(** What a claim pays for a segment. *)
Definition reward_of (c : StorageContract) (segment : Z) : Z :=
  match c with
  | ValidatorStorage _ _ _ reward =>
      from_option (λ m, count_valid_proofs (map_to_list m).*2) 0 (reward !! segment)
  | ReplicatorStorage _ reward =>
      from_option (λ m, let l := mjoin (map_to_list m).*2 in
        count_valid_proofs l * (count_valid_proofs l / Z.of_nat (length l))) 0 (reward !! segment)
  | _ => 0
  end.

Lemma unrewarded_claim pool slot current a c :
  state a = Ok c → rewarded_segment c (storage_program.get_segment_from_slot slot) = false →
  claim_storage_reward pool slot current a = (Err InvalidArgument, (a, pool)).
Proof.
  intros Hs Hr. unfold claim_storage_reward. rewrite Hs. destruct c as [|s h l r|p r|]; cbn in Hr; try done.
  - apply bool_decide_eq_false in Hr. by apply eq_None_not_Some in Hr as ->.
  - apply bool_decide_eq_false in Hr. by apply eq_None_not_Some in Hr as ->.
Qed.

(** A claim that is paid writes a contract without the segment. *)
Lemma paid_claim pool slot current a c a' pool' :
  state a = Ok c →
  claim_storage_reward pool slot current a = (Ok tt, (a', pool')) →
  ∃ c' reward, pay_reward reward c' a pool = (Ok tt, (a', pool')) ∧ in_range c' ∧
    rewarded_segment c' (storage_program.get_segment_from_slot slot) = false ∧
    reward = wrap64 (reward_of c (storage_program.get_segment_from_slot slot)).
Proof.
  intros Hs. pose proof (state_in_range a c Hs) as Hr. unfold claim_storage_reward. rewrite Hs.
  set (seg := storage_program.get_segment_from_slot slot).
  destruct c as [|s h l r|p r|]; try done.
  - destruct (r !! seg) as [m|] eqn:Hm; [|done]. case_match; [done|]. intros Hp.
    eexists _, _. split; [exact Hp|]. destruct Hr as (? & ? & ? & ?). split_and!; [split_and!; try done|..].
    + by apply map_ranged_delete.
    + cbn. rewrite lookup_delete_eq. done.
    + cbn. rewrite Hm. unfold u64_mul, TOTAL_VALIDATOR_REWARDS. by rewrite Z.mul_1_l.
  - destruct (r !! seg) as [m|] eqn:Hm; [|done]. destruct (p !! seg) as [ps|] eqn:Hps; [|done].
    case_match; [done|]. case_match; [done|]. intros Hp. eexists _, _. split; [exact Hp|].
    destruct Hr as [Hp' Hr']. split_and!; [split|..].
    + eapply map_ranged_replace; [done|done|]. apply map_ranged_deletes.
      * intros m' [sha st] Hm'. destruct st; [done|]. by apply map_ranged_delete.
      * destruct Hp' as [Hp' _]. by apply (Hp' seg ps).
    + by apply map_ranged_delete.
    + cbn. rewrite lookup_delete_eq. done.
    + cbn. rewrite Hm. cbn. unfold u64_mul, TOTAL_REPLICATOR_REWARDS. rewrite Z.mul_1_r.
      unfold wrap64. by rewrite Zmult_mod_idemp_l.
Qed.

Lemma set_state_fields (c : StorageContract) b a' :
  set_state c b = (Ok tt, a') → difs a' = difs b ∧ owner a' = owner b.
Proof. unfold set_state. destruct (serialize_into c _) as [[[]|] buf]; intros; by simplify_eq. Qed.

Lemma claim_effect pool slot current a c a' pool' :
  state a = Ok c → claim_storage_reward pool slot current a = (Ok tt, (a', pool')) →
  let reward := wrap64 (reward_of c (storage_program.get_segment_from_slot slot)) in
  difs a' = u64_add (difs a) reward ∧ owner a' = owner a ∧
  pool' = with_account (system_instruction_processor.sub_difs reward (account pool)) pool.
Proof.
  intros Hstate Hclaim.
  destruct (paid_claim _ _ _ _ _ _ _ Hstate Hclaim) as (c' & reward & Hp & Hr & Hu & ->).
  unfold pay_reward in Hp. destruct (set_state c' _) as [r a2] eqn:Hset. injection Hp as -> <- <-.
  by apply set_state_fields in Hset as [-> ->].
Qed.


(** ** A claim from a pool that cannot pay *)

Section Mint.
Import message message_processor native_loader_program processor processor_proofs.
Context (open_library : list Z → option (option ProcessInstruction)).
Context `{!Bincode LoaderInstruction}.
Context `{!Bincode StorageInstruction}.
Context (instruction_processors : list (Pubkey * ProcessInstruction)).

Lemma u64_sum_wraps d p r : is_u64 d → is_u64 p →
  u64_sum [d; p] = u64_sum [u64_add d r; u64_sub p r].
Proof.
  intros Hd Hp. rewrite !u64_sum_wrap. cbn [Zsum]. unfold u64_add, u64_sub.
  rewrite wrap64_add_l, !Z.add_0_r, wrap64_add_r. f_equal. lia.
Qed.

(** Claiming from an account that cannot pay creates difs: the pool's
    balance wraps around, so the instruction gives it 2^64 less the reward, and
    since the message processor compares sums modulo 2^64 and balances that
    went up, it accepts the result, whoever owns the pool account. *)
Theorem claim_mints_difs m ix tick_height s loader slot k0 k1 signer0 signer1 claimant pool
    (c : StorageContract) claimant' pool'
    (Hprogram : program_id (E:=InstructionError) ix m.(account_keys) = Ok storage_program.id)
    (Hprocessor : find_processor instruction_processors storage_program.id = Some storage_process)
    (Hkeys : keys_and_signers m ix = Ok [(k0, signer0); (k1, signer1)])
    (Hloaders : s.(es_executable_accounts) = [loader])
    (Haccounts : s.(es_program_accounts) = [claimant; pool])
    (Hix : deserialize ix.(ci_data) = Some (ClaimStorageReward slot))
    (Hstate : state claimant = Ok c) (Howner : claimant.(owner) = storage_program.id)
    (Hclaim : claim_storage_reward (KeyedAccount_new k1 signer1 pool) slot
       (tick_height / DEFAULT_TICKS_PER_SLOT) claimant = (Ok tt, (claimant', pool')))
    (Hd : is_u64 (difs claimant)) (Hp : 0 ≤ difs pool)
    (Hpoor : difs pool < reward_of c (storage_program.get_segment_from_slot slot) < two64) :
  let '(r, s') := execute_instruction open_library instruction_processors m ix tick_height s in
  let reward := reward_of c (storage_program.get_segment_from_slot slot) in
  r = Ok tt ∧
  difs <$> s'.(es_program_accounts) =
    [u64_add (difs claimant) reward; two64 + difs pool - reward].
Proof.
  destruct (claim_effect _ _ _ _ _ _ _ Hstate Hclaim) as (Hd' & Ho' & ->).
  rewrite wrap64_small in * by (unfold is_u64; lia).
  set (reward := reward_of c (storage_program.get_segment_from_slot slot)) in *.
  assert (u64_sub (difs pool) reward = two64 + difs pool - reward) as Hsub.
  { unfold u64_sub, wrap64. rewrite <- (Z.mod_add _ 1) by lia. rewrite Z.mod_small; lia. }
  unfold execute_instruction, process_instruction. rewrite Hprogram, Hkeys, Haccounts, Hloaders.
  rewrite Hprocessor. destruct loader as [kl al].
  cbn -[storage_process u64_sum verify_instruction].
  unfold storage_process, storage_processor.process_instruction. rewrite Hix. cbn [account KeyedAccount_new].
  rewrite Hclaim. cbn -[u64_sum verify_instruction].
  rewrite (verify_accepts _ _ claimant), (verify_accepts _ _ pool);
    [|done|right; split; [cbn; rewrite Hsub; unfold is_u64 in Hd; lia|done]|done|by left].
  unfold mbind, res_bind.
  rewrite Hd', (u64_sum_wraps (difs claimant) (difs pool) reward), Z.eqb_refl by (unfold is_u64 in *; lia).
  cbn. by rewrite Hsub.
Qed.
End Mint.
End Claims.
End storage_proofs.

Module storage_demo.
Import storage_contract storage_instruction storage_processor storage_proofs.

(** A map as the list of its entries, in the order of [map_to_list]. *)
Definition gmap_codec {A} `{EqDecision A} (ca : codec A) (ck : codec Z) : codec (gmap Z A).
Proof.
  refine (map_codec (list_codec (pair_codec ck ca)) (λ m, map_to_list m)
    (λ l, let m := list_to_map l in if bool_decide (map_to_list m = l) then Some m else None) _ _).
  - intros m. cbn. by rewrite list_to_map_to_list, bool_decide_true.
  - intros l m. cbn. case_bool_decide; congruence.
Defined.

Lemma gmap_valid {A} `{EqDecision A} (ca : codec A) (ck : codec Z) K P m :
  (∀ k, K k ↔ valid ck k) → (∀ a, P a ↔ valid ca a) →
  map_ranged K P m ↔ valid (gmap_codec ca ck) m.
Proof.
  intros HK HP. unfold map_ranged. cbn. rewrite length_map_to_list, map_Forall_to_list.
  split; intros [Hf ?]; (split; [|done]); (eapply Forall_impl; [exact Hf|]);
    intros [k a]; cbn; rewrite HK, HP; done.
Qed.

Definition status_codec : codec ProofStatus.
Proof.
  refine (map_codec u8_codec (λ s, match s with Skipped => 0 | Valid => 1 | NotValid => 2 end)
    (λ b, match b with 0 => Some Skipped | 1 => Some Valid | 2 => Some NotValid | _ => None end) _ _).
  - by intros [].
  - intros b a Hb. repeat (case_match; try done); by simplify_eq.
Defined.

#[local] Instance Proof_eq_dec : EqDecision Proof_.
Proof. solve_decision. Defined.

Definition proof_codec : codec Proof_.
Proof.
  refine (map_codec (pair_codec (list_codec u8_codec) key_codec)
    (λ p, (p.(p_signature), p.(sha_state))) (λ '(s, h), Some (mkProof s h)) _ _).
  - by intros [].
  - by intros [] ? [= <-].
Defined.

Definition StorageContract_codec : codec StorageContract.
Proof.
  refine (map_codec
    (sum_codec (pair_codec u64_codec (pair_codec key_codec
        (pair_codec (gmap_codec (gmap_codec status_codec key_codec) u64_codec)
                    (gmap_codec (gmap_codec status_codec key_codec) u64_codec))))
      (sum_codec (pair_codec (gmap_codec (gmap_codec proof_codec key_codec) u64_codec)
                    (gmap_codec (gmap_codec (list_codec status_codec) key_codec) u64_codec))
        (option_codec (option_codec u8_codec))))
    (λ c, match c with
          | ValidatorStorage s h l r => inl (s, (h, (l, r)))
          | ReplicatorStorage p r => inr (inl (p, r))
          | Uninitialized => inr (inr None)
          | MiningPool => inr (inr (Some None))
          end)
    (λ b, match b with
          | inl (s, (h, (l, r))) => Some (ValidatorStorage s h l r)
          | inr (inl (p, r)) => Some (ReplicatorStorage p r)
          | inr (inr None) => Some Uninitialized
          | inr (inr (Some None)) => Some MiningPool
          | _ => None
          end) _ _).
  - by intros [].
  - by intros [(?&?&?&?)|[[? ?]|[[|]|]]] ? [= <-].
Defined.

Lemma status_valid s : True ↔ valid status_codec s.
Proof. split; [|done]. intros _. destruct s; cbn; lia. Qed.
Lemma statuses_valid l : statuses_ranged l ↔ valid (list_codec status_codec) l.
Proof.
  unfold statuses_ranged. cbn. split; [|tauto]. intros Hl. split; [|done].
  apply Forall_forall. intros s _. destruct s; cbn; lia.
Qed.

#[local] Instance demo_contract_bincode : Bincode StorageContract := codec_bincode StorageContract_codec.

Lemma demo_contract_laws : BincodeLaws StorageContract.
Proof.
  apply codec_laws. intros [|s h l r|p r|]; [done| | |done].
  - change (in_range (ValidatorStorage s h l r)) with
      (is_u64 s ∧ is_key h ∧ map_ranged is_u64 (map_ranged is_key (λ _ : ProofStatus, True)) l ∧
       map_ranged is_u64 (map_ranged is_key (λ _ : ProofStatus, True)) r).
    rewrite !(gmap_valid (gmap_codec status_codec key_codec) u64_codec);
      [done|done| |done|]; intros m; apply gmap_valid; done || apply status_valid.
  - change (in_range (ReplicatorStorage p r)) with
      (map_ranged is_u64 (map_ranged is_key proof_ranged) p ∧
       map_ranged is_u64 (map_ranged is_key statuses_ranged) r).
    rewrite (gmap_valid (gmap_codec proof_codec key_codec) u64_codec),
      (gmap_valid (gmap_codec (list_codec status_codec) key_codec) u64_codec);
      [done|done| |done|]; intros m; apply gmap_valid; done || apply statuses_valid.
Qed.
#[local] Existing Instance demo_contract_laws.

(** A validator with one validated proof for segment 0, at slot 32. *)
Definition demo_contract : StorageContract :=
  ValidatorStorage 32 0 ∅ {[0 := {[5 := Valid]}]}.
Definition demo_validator : Account :=
  mkAccount 3 0 (serialize demo_contract) storage_program.id false.

Definition demo_claimed : Account * KeyedAccount :=
  (claim_storage_reward (mkKeyedAccount false 40 (mkAccount 10 0 [] 0 false)) 0 5 demo_validator).2.


Definition checked_codec : codec CheckedProof.
Proof.
  refine (map_codec (pair_codec proof_codec status_codec)
    (λ c, (c.(cp_proof), c.(cp_status))) (λ '(p, s), Some (mkCheckedProof p s)) _ _).
  - by intros [].
  - by intros [] ? [= <-].
Defined.

Definition StorageInstruction_codec : codec StorageInstruction.
Proof.
  refine (map_codec
    (sum_codec u64_codec (sum_codec (pair_codec key_codec (pair_codec u64_codec (list_codec u8_codec)))
      (sum_codec (pair_codec key_codec u64_codec)
        (sum_codec (pair_codec u64_codec (list_codec (pair_codec key_codec (list_codec checked_codec))))
          u8_codec))))
    (λ ix, match ix with
           | ClaimStorageReward s => inl s
           | SubmitMiningProof h s g => inr (inl (h, (s, g)))
           | AdvertiseStorageRecentBlockhash h s => inr (inr (inl (h, s)))
           | ProofValidation s p => inr (inr (inr (inl (s, p))))
           | InitializeMiningPool => inr (inr (inr (inr 0)))
           | InitializeValidatorStorage => inr (inr (inr (inr 1)))
           | InitializeReplicatorStorage => inr (inr (inr (inr 2)))
           end)
    (λ b, match b with
          | inl s => Some (ClaimStorageReward s)
          | inr (inl (h, (s, g))) => Some (SubmitMiningProof h s g)
          | inr (inr (inl (h, s))) => Some (AdvertiseStorageRecentBlockhash h s)
          | inr (inr (inr (inl (s, p)))) => Some (ProofValidation s p)
          | inr (inr (inr (inr 0))) => Some InitializeMiningPool
          | inr (inr (inr (inr 1))) => Some InitializeValidatorStorage
          | inr (inr (inr (inr 2))) => Some InitializeReplicatorStorage
          | _ => None
          end) _ _).
  - by intros [].
  - intros [s|[(h & s & g)|[[h s]|[[s p]|z]]]] a Hz; repeat (case_match; try done); by simplify_eq.
Defined.

#[local] Instance demo_storage_ix_bincode : Bincode StorageInstruction :=
  codec_bincode StorageInstruction_codec.
#[local] Instance demo_storage_loader_bincode : Bincode native_loader_program.LoaderInstruction := {|
  serialize _ := [];
  deserialize _ := None;
  serialize_into _ buf := (None, buf)
|}.

(** The pool (key 40) is an empty account of the claimant's (key 30) choice. *)
Definition demo_mint_message : message.Message :=
  message.mkMessage (message.mkMessageHeader 1 0 1) [30; 40; storage_program.id] 0 [].
Definition demo_mint_ix : CompiledInstruction :=
  mkCompiledInstruction 2 [0; 1] (serialize (ClaimStorageReward 0)).

Lemma claim_mints_difs_witness :
  let s := processor.mkExec ∅ [(storage_program.id, Account_default)]
    [demo_validator; Account_default] in
  let '(r, s') := processor.execute_instruction (λ _, None)
    [(storage_program.id, storage_process)] demo_mint_message demo_mint_ix 40 s in
  r = Ok tt ∧ difs <$> processor.es_program_accounts s' = [4; two64 - 1].
Proof.
  apply (claim_mints_difs (λ _, None) [(storage_program.id, storage_process)] demo_mint_message
    demo_mint_ix 40 _ (storage_program.id, Account_default) 0 30 40 true false demo_validator
    Account_default demo_contract
    (claim_storage_reward (KeyedAccount_new 40 false Account_default) 0 5 demo_validator).2.1
    (claim_storage_reward (KeyedAccount_new 40 false Account_default) 0 5 demo_validator).2.2);
    try reflexivity; try (vm_compute; reflexivity).
  - apply (bool_decide_unpack _); vm_compute; exact I.
  - vm_compute; split; [reflexivity|reflexivity].
Defined.
End storage_demo.
