(* ===== verification/Config.v ===== *)
(** * The config program

    controllers/config_api/src: the account is overwritten with the instruction
    data, under the signature of its key. *)

From S2P Require Import Prelude Interface Codec SystemProgram.

Module config_program.
Definition id : Pubkey :=
  be_bytes [3; 6; 74; 163; 0; 47; 116; 220; 200; 110; 67; 49; 15; 12; 5; 42; 248; 197; 218; 39;
            246; 16; 64; 25; 163; 35; 239; 160; 0; 0; 0; 0].
End config_program.
Global Arguments config_program.id : simpl never.

Module config_instruction.
(** [T::max_space()] of the [ConfigState] trait is the argument [max_space]. *)
Definition create_account `{!Bincode system_instruction.SystemInstruction} (max_space : Z)
    (from_account_pubkey config_account_pubkey : Pubkey) (difs : Z) : Instruction :=
  system_instruction.create_account from_account_pubkey config_account_pubkey difs max_space
    config_program.id.

Definition store {T} `{!Bincode T} (config_account_pubkey : Pubkey) (data : T) : Instruction :=
  Instruction_new config_program.id data [AccountMeta_new config_account_pubkey true].
End config_instruction.

Module config_processor.
Definition process_instruction (data' : list Z) : M (list KeyedAccount) InstructionError unit :=
  k0 ← system_instruction_processor.account_at 0;
  match signer_key k0 with
  | None => throw MissingRequiredSignature
  | Some _ =>
      if (length k0.(account).(data) <? length data')%nat then throw InvalidInstructionData
      else system_instruction_processor.modify_account 0
             (λ a, with_data (data' ++ drop (length data') a.(data)) a)
  end.

(** What is stored is what is read back, by a decoder that ignores what follows
    the encoding; nothing is stored without the signature of the account. *)
Lemma config_store_roundtrip {T} `{BincodeLaws T} k0 rest (t : T) :
  in_range t →
  let '(r, ks') := process_instruction (serialize t) (k0 :: rest) in
  if negb k0.(is_signer) then r = Err MissingRequiredSignature ∧ ks' = k0 :: rest
  else if (length k0.(account).(data) <? length (serialize t))%nat
  then r = Err InvalidInstructionData ∧ ks' = k0 :: rest
  else r = Ok tt ∧ ∃ k0', ks' = k0' :: rest ∧ deserialize k0'.(account).(data) = Some t ∧
    length k0'.(account).(data) = length k0.(account).(data) ∧
    difs k0'.(account) = difs k0.(account).
Proof.
  intros Ht. unfold process_instruction, system_instruction_processor.account_at. unfold_monad.
  cbn -[Nat.ltb].
  unfold signer_key. destruct (is_signer k0); [|done]. cbn -[Nat.ltb].
  destruct (Nat.ltb_spec (length (data (account k0))) (length (serialize t))); [done|].
  split; [done|]. eexists. split; [done|]. cbn. split_and!; [by rewrite deserialize_serialize| |done].
  rewrite length_app, length_drop. lia.
Qed.
End config_processor.
