(* ===== verification/AccountsIndex.v ===== *)
(** The account index of the accounts database
    (src/runtime/src/accounts_index.rs): for each key the list of forks
    that wrote the account, with the place of each write, and the set of
    rooted forks.

    Module [accounts_index] has the operations.  Module
    [accounts_index_proofs] compares the index with the plain map of all
    the writes that were ever made: a reader never gets an out-of-date
    account, and the reclaimed entries are exactly the dropped ones. *)
From S2P Require Import Prelude Interface.

Module accounts_index.

(** [u64] *)
Notation Fork := Z.

(** [HashMap<Fork, usize>]: the ancestors of a fork, with their distance. *)
Notation Ancestors := (gmap Z Z).

Record AccountsIndex (T : Type) := mkAccountsIndex {
  account_maps : gmap Pubkey (list (Fork * T));
  roots : gset Fork;
  last_root : Fork;
}.
Arguments mkAccountsIndex {T} _ _ _.
Arguments account_maps {T} _.
Arguments roots {T} _.
Arguments last_root {T} _.

Section operations.
Context {T : Type}.
Implicit Types (idx : AccountsIndex T) (fork : Fork) (anc : Ancestors).

Definition AccountsIndex_default : AccountsIndex T := mkAccountsIndex ∅ ∅ 0.

Definition is_purged idx fork : bool := fork <? last_root idx.

Definition is_root idx fork : bool := bool_decide (fork ∈ roots idx).

Definition visible idx anc fork : bool :=
  bool_decide (is_Some (anc !! fork)) || is_root idx fork.

(** The body of the loop of [get], on [(max, rv)]. *)
Definition get_step idx anc (acc : Fork * option (T * Fork)) (e : Fork * T) :
    Fork * option (T * Fork) :=
  if (acc.1 <=? e.1) && visible idx anc e.1 then (e.1, Some (e.2, e.1)) else acc.

Definition get idx (pubkey : Pubkey) anc : option (T * Fork) :=
  list ← account_maps idx !! pubkey;
  (foldl (get_step idx anc) (0, None) (reverse list)).2.

(** Returns the squashed entries, which can be freed from storage. *)
Definition insert idx fork (pubkey : Pubkey) (account_info : T) :
    list (Fork * T) * AccountsIndex T :=
  let fork_vec := default [] (account_maps idx !! pubkey) in
  let rv := filter (λ e, e.1 = fork) fork_vec in
  let fork_vec := filter (λ e, e.1 ≠ fork) fork_vec ++ [(fork, account_info)] in
  (rv ++ filter (λ e, is_purged idx e.1) fork_vec,
   mkAccountsIndex
     (<[pubkey := filter (λ e, ¬ is_purged idx e.1) fork_vec]> (account_maps idx))
     (roots idx) (last_root idx)).

Definition add_root idx fork : res Empty_set (AccountsIndex T) :=
  if ((last_root idx =? 0) && (fork =? 0)) || (last_root idx <? fork)
  then Ok (mkAccountsIndex (account_maps idx) ({[fork]} ∪ roots idx) fork)
  else Panic.

Definition cleanup_dead_fork idx fork : AccountsIndex T :=
  mkAccountsIndex (account_maps idx) (roots idx ∖ {[fork]}) (last_root idx).
End operations.

End accounts_index.

Module accounts_index_proofs.
Import accounts_index.

Section proofs.
Context {T : Type}.
Implicit Types (idx : AccountsIndex T) (anc : Ancestors).

(** A history of the index. *)
Inductive index_op :=
| InsertOp (fork : Fork) (pubkey : Pubkey) (account_info : T)
| AddRootOp (fork : Fork)
| CleanupOp (fork : Fork).

Definition op_ok (op : index_op) : Prop :=
  match op with InsertOp f _ _ | AddRootOp f | CleanupOp f => is_u64 f end.

Definition step idx (op : index_op) : res Empty_set (AccountsIndex T) :=
  match op with
  | InsertOp f k v => Ok (insert idx f k v).2
  | AddRootOp f => add_root idx f
  | CleanupOp f => Ok (cleanup_dead_fork idx f)
  end.

Fixpoint run idx (ops : list index_op) : res Empty_set (AccountsIndex T) :=
  match ops with
  | [] => Ok idx
  | op :: ops => idx' ← step idx op; run idx' ops
  end.

(** The specification: a map of all the writes, which forgets nothing. *)
Notation writes := (gmap (Pubkey * Fork) T).

Definition write_step (w : writes) (op : index_op) : writes :=
  match op with InsertOp f k v => <[(k, f) := v]> w | _ => w end.

Definition all_writes (ops : list index_op) : writes := foldl write_step ∅ ops.

(** The value that a reader should see: the write of the greatest fork it
    can see. *)
Definition latest_write (w : writes) idx anc (k : Pubkey) (v : T) (f : Fork) : Prop :=
  w !! (k, f) = Some v ∧ visible idx anc f ∧
  ∀ g, is_Some (w !! (k, g)) → visible idx anc g → g ≤ f.

Definition entries idx (k : Pubkey) : list (Fork * T) := default [] (account_maps idx !! k).

Record index_inv idx (w : writes) : Prop := {
  inv_nodup : ∀ k, NoDup (entries idx k).*1;
  inv_written : ∀ k f v, (f, v) ∈ entries idx k → w !! (k, f) = Some v ∧ 0 ≤ f;
  inv_dropped : ∀ k f v, w !! (k, f) = Some v → (f, v) ∈ entries idx k ∨
    f < last_root idx ∧ ∀ g u, (g, u) ∈ entries idx k → f < g;
}.

Lemma get_fold idx anc l m rv m' rv' :
  foldl (get_step idx anc) (m, rv) l = (m', rv') →
  (rv' = rv ∧ m' = m ∧ ∀ e, e ∈ l → visible idx anc e.1 → e.1 < m) ∨
  (m ≤ m' ∧ ∃ e, e ∈ l ∧ visible idx anc e.1 ∧ m' = e.1 ∧ rv' = Some (e.2, e.1) ∧
     ∀ e', e' ∈ l → visible idx anc e'.1 → e'.1 ≤ m').
Proof.
  revert m rv; induction l as [|e l IH]; intros m rv; simpl.
  { intros [= -> ->]. left. set_solver. }
  unfold get_step at 2; simpl.
  destruct (Z.leb_spec m e.1); [destruct (visible idx anc e.1) eqn:Hv|]; simpl.
  all: intros [(-> & -> & Hl)|(Hm & e' & He' & Hve' & -> & -> & Hl)]%IH.
  - right. split; [done|]. exists e. rewrite Hv. set_unfold.
    split_and!; auto. intros e' [->|He']; [lia|]. intros ?%Hl; [lia|done].
  - right. split; [lia|]. exists e'. split_and!; auto; [set_solver|].
    intros e'' [->|He'']%elem_of_cons; [lia|eauto].
  - left. split_and!; auto. intros e' [->|He']%elem_of_cons; [by rewrite Hv|eauto].
  - right. split; [lia|]. exists e'. split_and!; auto; [set_solver|].
    intros e'' [->|He'']%elem_of_cons; [by rewrite Hv|eauto].
  - left. split_and!; auto. intros e' [->|He']%elem_of_cons; [lia|eauto].
  - right. split; [lia|]. exists e'. split_and!; auto; [set_solver|].
    intros e'' [->|He'']%elem_of_cons; [lia|eauto].
Qed.

Lemma get_spec idx w anc k :
  index_inv idx w →
  match get idx k anc with
  | Some (v, f) => (f, v) ∈ entries idx k ∧ visible idx anc f ∧
      ∀ g u, (g, u) ∈ entries idx k → visible idx anc g → g ≤ f
  | None => ∀ g u, (g, u) ∈ entries idx k → ¬ visible idx anc g
  end.
Proof.
  intros Hinv. unfold get. pose proof (inv_written _ _ Hinv k) as Hw. unfold entries in *.
  destruct (account_maps idx !! k) as [l|]; simpl in *; [|set_solver].
  destruct (foldl _ _ (reverse l)) as [m' rv'] eqn:Hf; simpl.
  apply get_fold in Hf as [(-> & -> & Hl)|(Hm & [f v] & He & Hv & -> & -> & Hl)].
  - intros g u Hg Hv. specialize (Hl (g, u)); rewrite elem_of_reverse in Hl.
    specialize (Hl Hg Hv). apply Hw in Hg. simpl in *; lia.
  - rewrite elem_of_reverse in He. split_and!; auto.
    intros g u Hg Hvg. apply (Hl (g, u)); [by rewrite elem_of_reverse|done].
Qed.

Lemma entries_insert_ne idx f k v k' :
  k' ≠ k → entries (insert idx f k v).2 k' = entries idx k'.
Proof. intros. unfold entries; simpl. by rewrite lookup_insert_ne. Qed.

Lemma elem_of_entries_insert idx f k v g u :
  (g, u) ∈ entries (insert idx f k v).2 k ↔
  last_root idx ≤ g ∧ (g ≠ f ∧ (g, u) ∈ entries idx k ∨ g = f ∧ u = v).
Proof.
  unfold entries at 1; simpl. rewrite lookup_insert_eq; simpl.
  fold (entries idx k). rewrite list_elem_of_filter, elem_of_app, list_elem_of_filter.
  unfold is_purged; simpl. rewrite Is_true_true, Z.ltb_lt. set_unfold. naive_solver lia.
Qed.

Lemma insert_inv idx w f k v :
  is_u64 f → index_inv idx w → index_inv (insert idx f k v).2 (<[(k, f) := v]> w).
Proof.
  intros Hf [Hnd Hw Hd]. unfold is_u64 in Hf. split.
  - intros k'. destruct (decide (k' = k)) as [->|]; [|by rewrite entries_insert_ne].
    unfold entries; simpl. rewrite lookup_insert_eq; simpl. fold (entries idx k).
    apply NoDup_fmap_filter. rewrite fmap_app. apply NoDup_app.
    split_and!; [by apply NoDup_fmap_filter| |apply NoDup_singleton].
    intros x (e & -> & [? _]%list_elem_of_filter)%list_elem_of_fmap. set_solver.
  - intros k' g u. destruct (decide (k' = k)) as [->|].
    + rewrite elem_of_entries_insert. intros [_ [[? Hg]|[-> ->]]].
      * rewrite lookup_insert_ne by congruence. eauto.
      * rewrite lookup_insert_eq. auto with lia.
    + rewrite entries_insert_ne, lookup_insert_ne by congruence. eauto.
  - intros k' g u. destruct (decide (k' = k)) as [->|].
    + setoid_rewrite elem_of_entries_insert; simpl.
      destruct (decide (g = f)) as [->|].
      * rewrite lookup_insert_eq. intros [= ->].
        destruct (decide (last_root idx ≤ f)); [auto|right]. split; [lia|]. intros; lia.
      * rewrite lookup_insert_ne by congruence. intros [Hin|[Hlt Hall]]%Hd.
        -- destruct (decide (last_root idx ≤ g)); [auto|right]. split; [lia|]. intros; lia.
        -- right. split; [done|]. intros; lia.
    + rewrite entries_insert_ne, lookup_insert_ne by congruence. eauto.
Qed.

Lemma step_inv idx w op idx' :
  op_ok op → index_inv idx w → step idx op = Ok idx' → index_inv idx' (write_step w op).
Proof.
  intros Hok Hinv. destruct op as [f k v|f|f]; simpl in *.
  - intros [= <-]. by apply insert_inv.
  - unfold add_root. destruct (_ || _) eqn:Hg; intros [= <-].
    destruct Hinv as [Hnd Hw Hd]. split; [done..|]. simpl. unfold entries in *; simpl.
    intros k g u [?|[]]%Hd; [auto|right]. split; [|done]. lia.
  - intros [= <-]. by destruct Hinv; split.
Qed.

Lemma run_inv ops idx w idx' :
  Forall op_ok ops → index_inv idx w → run idx ops = Ok idx' →
  index_inv idx' (foldl write_step w ops).
Proof.
  intros Hok. revert idx w. induction Hok as [|op ops Hop _ IH]; intros idx w Hinv; simpl.
  { by intros [= <-]. }
  destruct (step idx op) as [idx1| |] eqn:Hs; [|done..]. intros Hr.
  eapply IH; [|exact Hr]. by eapply step_inv.
Qed.

Lemma default_inv : index_inv (AccountsIndex_default (T:=T)) ∅.
Proof.
  split; unfold entries; simpl; intros k; rewrite lookup_empty; simpl;
    [apply NoDup_nil_2|set_solver|]. intros f v. by rewrite lookup_empty.
Qed.

(** The index refines the map of all the writes.  After any history
    that does not panic, a reader that finds an account finds the latest
    write that it can see, never an older one; and it does find that
    write whenever its fork is not older than the last root. *)
Theorem index_get_latest ops idx anc k :
  Forall op_ok ops → run AccountsIndex_default ops = Ok idx →
  (∀ v f, get idx k anc = Some (v, f) → latest_write (all_writes ops) idx anc k v f) ∧
  (∀ v f, latest_write (all_writes ops) idx anc k v f → last_root idx ≤ f →
     get idx k anc = Some (v, f)).
Proof.
  intros Hok Hrun. pose proof (run_inv _ _ _ _ Hok default_inv Hrun) as Hinv.
  fold (all_writes ops) in Hinv. pose proof (get_spec idx _ anc k Hinv) as Hget.
  destruct Hinv as [Hnd Hw Hd]. split.
  - intros v f Hg. rewrite Hg in Hget. destruct Hget as (Hin & Hv & Hmax).
    split_and!; [by apply Hw|done|]. intros g [u [Hgu|[_ Hlt]]%Hd] Hvg.
    + by eapply Hmax.
    + specialize (Hlt f v Hin). lia.
  - intros v f (Hwf & Hv & Hmax) Hroot. destruct (Hd _ _ _ Hwf) as [Hin|[? _]]; [|lia].
    destruct (get idx k anc) as [[v' f']|]; [|by destruct (Hget f v)].
    destruct Hget as (Hin' & Hv' & Hmax').
    assert (f' = f) as ->.
    { pose proof (Hmax' _ _ Hin Hv). pose proof (Hmax f' ltac:(apply Hw in Hin'; naive_solver) Hv').
      lia. }
    apply Hw in Hin as [Hin _]. apply Hw in Hin' as [Hin' _]. naive_solver.
Qed.

(** [insert] hands out for reclaiming exactly what it drops. *)
Lemma insert_reclaims idx f k v :
  entries idx k ++ [(f, v)] ≡ₚ
    entries (insert idx f k v).2 k ++ (insert idx f k v).1.
Proof.
  unfold entries at 2; simpl. rewrite lookup_insert_eq; simpl. fold (entries idx k).
  set (P := λ e : Fork * T, Is_true (is_purged idx e.1)).
  set (l := filter (λ e, e.1 ≠ f) (entries idx k) ++ [(f, v)]).
  rewrite <- (filter_app_complement (λ e, e.1 = f) (entries idx k)) at 1.
  rewrite (Permutation_app_comm (filter (λ e, e.1 = f) _)), <- app_assoc.
  rewrite (Permutation_app_comm (filter (λ e, e.1 = f) _)), app_assoc. fold l.
  rewrite <- (filter_app_complement P l) at 1. solve_Permutation.
Qed.

End proofs.

(** An account written in fork 0 and again in forks 2 and 3, two children
    of the root 1. *)
Definition demo_ops : list (index_op (T:=Z)) :=
  [InsertOp 0 7 100; AddRootOp 0; AddRootOp 1; InsertOp 2 7 102; InsertOp 3 7 103].

Lemma index_get_latest_witness :
  ∃ idx, run AccountsIndex_default demo_ops = Ok idx ∧
    latest_write (all_writes demo_ops) idx {[2 := 1]} 7 102 2.
Proof.
  eexists. split; [reflexivity|].
  apply (index_get_latest demo_ops _ {[2 := 1]} 7); [|reflexivity|reflexivity].
  repeat constructor; done.
Defined.

(** The purge of [insert] goes too far: it drops the entries older
    than the last root whether or not a newer rooted entry replaces them.
    An account that is only stored in the rooted fork 0 is visible from
    fork 3; a write in the sibling fork 2 makes it invisible there,
    although its latest visible write has not changed. *)
Theorem index_purge_hides_root :
  ∃ idx idx' : AccountsIndex Z,
    run AccountsIndex_default [InsertOp 0 7 100; AddRootOp 0; AddRootOp 1] = Ok idx ∧
    get idx 7 {[3 := 0]} = Some (100, 0) ∧
    idx' = (insert idx 2 7 102).2 ∧ get idx' 7 {[3 := 0]} = None ∧
    latest_write (all_writes [InsertOp 0 7 100; AddRootOp 0; AddRootOp 1; InsertOp 2 7 102])
      idx' {[3 := 0]} 7 100 0.
Proof.
  do 2 eexists. split_and!; [reflexivity..|]. split_and!; [reflexivity..|].
  intros g [v Hv] Hg. unfold all_writes in Hv; simpl in Hv.
  destruct (decide (g = 2)) as [->|]; [by vm_compute in Hg|].
  rewrite lookup_insert_ne in Hv by congruence.
  destruct (decide (g = 0)) as [->|]; [done|]. by rewrite lookup_insert_ne in Hv by congruence.
Qed.

End accounts_index_proofs.
