(* ===== verification/EpochSchedule.v ===== *)
(** The epoch schedule (src/runtime/src/epoch_schedule.rs): which epoch a
    slot falls into.  With [warmup], epochs start at 32 slots and double
    until they reach [slots_per_epoch].

    The theorems say that the schedule is a partition of the slots: the
    decomposition of a slot into epoch and index is the inverse of the
    first slot of an epoch, over the whole range of [u64]. *)
From S2P Require Import Prelude VoteState.

Module epoch_schedule.
Import vote_state.

Definition MINIMUM_SLOT_LENGTH : Z := MAX_LOCKOUT_HISTORY + 1.

(** [u64::next_power_of_two] of the release profile, which wraps to 0 above
    [2^63]. *)
Definition next_power_of_two (z : Z) : Z := wrap64 (2 ^ Z.log2_up z).

Fixpoint pos_trailing_zeros (p : positive) : Z :=
  match p with xO p => 1 + pos_trailing_zeros p | _ => 0 end.

(** [u64::trailing_zeros] *)
Definition trailing_zeros (z : Z) : Z :=
  match z with Zpos p => pos_trailing_zeros p | _ => 64 end.

(** [2u64.pow], whose multiplications wrap. *)
Definition pow2 (e : Z) : Z := wrap64 (2 ^ e).

(** The cast [as u32]. *)
Definition as_u32 (z : Z) : Z := z mod two32.

Record EpochSchedule := mkEpochSchedule {
  slots_per_epoch : Z;
  stakers_slot_offset : Z;
  first_normal_epoch : Z;
  first_normal_slot : Z;
}.

Definition EpochSchedule_new (slots_per_epoch stakers_slot_offset : Z) (warmup : bool) :
    res Empty_set EpochSchedule :=
  if MINIMUM_SLOT_LENGTH <=? slots_per_epoch then
    let '(first_normal_epoch, first_normal_slot) :=
      if warmup then
        let next_power_of_two := next_power_of_two slots_per_epoch in
        (u64_saturating_sub (trailing_zeros next_power_of_two)
           (trailing_zeros MINIMUM_SLOT_LENGTH),
         u64_saturating_sub next_power_of_two MINIMUM_SLOT_LENGTH)
      else (0, 0) in
    Ok (mkEpochSchedule slots_per_epoch stakers_slot_offset first_normal_epoch
          first_normal_slot)
  else Panic.

Section operations.
Variable self : EpochSchedule.

Definition get_slots_in_epoch (epoch : Z) : Z :=
  if epoch <? first_normal_epoch self
  then pow2 (as_u32 (as_u32 epoch + trailing_zeros MINIMUM_SLOT_LENGTH))
  else slots_per_epoch self.

Definition get_epoch_and_slot_index (slot : Z) : Z * Z :=
  if slot <? first_normal_slot self then
    let epoch :=
      as_u32 (trailing_zeros (next_power_of_two (u64_add (u64_add slot MINIMUM_SLOT_LENGTH) 1))
              - trailing_zeros MINIMUM_SLOT_LENGTH - 1) in
    let epoch_len := pow2 (as_u32 (epoch + trailing_zeros MINIMUM_SLOT_LENGTH)) in
    (epoch, u64_sub slot (u64_sub epoch_len MINIMUM_SLOT_LENGTH))
  else
    (u64_add (first_normal_epoch self)
       (u64_sub slot (first_normal_slot self) / slots_per_epoch self),
     u64_sub slot (first_normal_slot self) mod slots_per_epoch self).

Definition get_stakers_epoch (slot : Z) : Z :=
  if slot <? first_normal_slot self
  then u64_add (get_epoch_and_slot_index slot).1 1
  else u64_add (first_normal_epoch self)
         (u64_add (u64_sub slot (first_normal_slot self)) (stakers_slot_offset self)
          / slots_per_epoch self).

Definition get_first_slot_in_epoch (epoch : Z) : Z :=
  if epoch <=? first_normal_epoch self
  then u64_mul (u64_sub (pow2 (as_u32 epoch)) 1) MINIMUM_SLOT_LENGTH
  else u64_add (u64_mul (u64_sub epoch (first_normal_epoch self)) (slots_per_epoch self))
         (first_normal_slot self).

Definition get_last_slot_in_epoch (epoch : Z) : Z :=
  u64_sub (u64_add (get_first_slot_in_epoch epoch) (get_slots_in_epoch epoch)) 1.
End operations.

End epoch_schedule.

Module epoch_schedule_proofs.
Import epoch_schedule.

(** Linear arithmetic with the closed powers of two evaluated. *)
Ltac pow_lia :=
  unfold is_u64 in *;
  change (2 ^ 5) with 32 in *; change (2 ^ 58) with 288230376151711744 in *;
  change (2 ^ 63) with 9223372036854775808 in *; lia.

Lemma pow2_bound e n : 0 ≤ e ≤ n → 0 < 2 ^ e ≤ 2 ^ n.
Proof. intros. split; [apply Z.pow_pos_nonneg; lia|apply Z.pow_le_mono_r; lia]. Qed.

Lemma pow2_exact e : 0 ≤ e ≤ 63 → pow2 e = 2 ^ e.
Proof.
  intros He%(pow2_bound e 63). unfold pow2. apply wrap64_small. pow_lia.
Qed.

Lemma as_u32_small z : 0 ≤ z ≤ 64 → as_u32 z = z.
Proof. intros. unfold as_u32. apply Z.mod_small. lia. Qed.

Lemma trailing_zeros_pow2 n : 0 ≤ n → trailing_zeros (2 ^ n) = n.
Proof.
  intros Hn. pattern n. apply natlike_ind; [done| |done].
  intros m Hm IH. rewrite Z.pow_succ_r by done.
  assert (0 < 2 ^ m) as Hpos by (apply Z.pow_pos_nonneg; lia).
  revert Hpos IH. destruct (2 ^ m) as [|p|p]; [lia| |lia]. intros _ IH.
  change (trailing_zeros (2 * Z.pos p)) with (1 + trailing_zeros (Z.pos p)). lia.
Qed.

Lemma trailing_zeros_next_power_of_two x :
  1 ≤ x < 2 ^ 63 → trailing_zeros (next_power_of_two (x + 1)) = Z.log2 x + 1.
Proof.
  intros Hx. unfold next_power_of_two. rewrite Z.log2_up_eqn by lia.
  replace (Z.pred (x + 1)) with x by lia.
  assert (0 ≤ Z.log2 x < 63) by (split; [apply Z.log2_nonneg|apply Z.log2_lt_pow2; lia]).
  change (wrap64 (2 ^ ?e)) with (pow2 e). rewrite pow2_exact by lia.
  by rewrite trailing_zeros_pow2 by lia.
Qed.

Lemma min_slots : MINIMUM_SLOT_LENGTH = 2 ^ 5.
Proof. done. Qed.
Lemma min_slots_tz : trailing_zeros MINIMUM_SLOT_LENGTH = 5.
Proof. done. Qed.

(** What [EpochSchedule_new] establishes: the warm-up epochs [0], ...,
    [first_normal_epoch - 1] fill the slots below [first_normal_slot]. *)
Record schedule_ok (s : EpochSchedule) : Prop := {
  ok_slots : 32 ≤ slots_per_epoch s < two64;
  ok_epoch : 0 ≤ first_normal_epoch s ≤ 58;
  ok_first : first_normal_slot s = 2 ^ (first_normal_epoch s + 5) - 32;
}.

Lemma schedule_new_ok spe off (warmup : bool) s :
  is_u64 spe → (warmup = true → spe ≤ 2 ^ 63) → EpochSchedule_new spe off warmup = Ok s →
  schedule_ok s ∧ slots_per_epoch s = spe ∧ stakers_slot_offset s = off.
Proof.
  intros Hspe Hw. unfold EpochSchedule_new. rewrite min_slots_tz, min_slots.
  destruct (Z.leb_spec (2 ^ 5) spe) as [Hle|]; [|done]. destruct warmup; intros [= <-];
    [|split; [split; [simpl; pow_lia|simpl; lia|done]|done]].
  specialize (Hw eq_refl). assert (5 ≤ Z.log2_up spe ≤ 63).
  { split; [apply (Z.log2_up_le_mono (2 ^ 5))|apply (Z.log2_up_le_mono _ (2 ^ 63))]; lia. }
  split; [|done]. unfold next_power_of_two.
  change (wrap64 (2 ^ ?e)) with (pow2 e). rewrite pow2_exact, trailing_zeros_pow2 by lia.
  unfold u64_saturating_sub. pose proof (pow2_bound 5 (Z.log2_up spe)).
  split; simpl; [unfold is_u64 in *; lia|lia|].
  rewrite (Z.max_r 0 (Z.log2_up spe - 5)) by lia. rewrite Z.sub_add. lia.
Qed.

Section schedule.
Context (s : EpochSchedule) (Hs : schedule_ok s).
Notation fne := (first_normal_epoch s).
Notation fns := (first_normal_slot s).
Notation spe := (slots_per_epoch s).

Lemma first_normal_bounds : 0 ≤ fns ≤ 2 ^ 63 - 32.
Proof.
  destruct Hs as [? ? ->]. pose proof (pow2_bound 5 (fne + 5)).
  pose proof (pow2_bound (fne + 5) 63). lia.
Qed.

Lemma slots_in_warmup_epoch e : 0 ≤ e < fne → get_slots_in_epoch s e = 2 ^ (e + 5).
Proof.
  intros He. pose proof (ok_epoch _ Hs). unfold get_slots_in_epoch.
  rewrite (proj2 (Z.ltb_lt _ _)) by lia.
  by rewrite min_slots_tz, !as_u32_small, pow2_exact by (rewrite ?as_u32_small; lia).
Qed.

Lemma slots_in_normal_epoch e : fne ≤ e → get_slots_in_epoch s e = spe.
Proof. intros. unfold get_slots_in_epoch. by rewrite (proj2 (Z.ltb_ge _ _)). Qed.

Lemma first_slot_warmup e : 0 ≤ e ≤ fne → get_first_slot_in_epoch s e = 2 ^ (e + 5) - 32.
Proof.
  intros He. pose proof (ok_epoch _ Hs). unfold get_first_slot_in_epoch.
  rewrite (proj2 (Z.leb_le _ _)) by lia. rewrite as_u32_small, pow2_exact by lia.
  pose proof (pow2_bound e 58). rewrite u64_sub_exact by pow_lia.
  rewrite Z.pow_add_r, min_slots by lia. unfold u64_mul.
  rewrite wrap64_small; pow_lia.
Qed.

Lemma first_slot_normal e :
  fne ≤ e → (e - fne) * spe + fns < two64 →
  get_first_slot_in_epoch s e = (e - fne) * spe + fns.
Proof.
  intros He Hov. destruct Hs as [Hspe Hfne Hfns]. pose proof first_normal_bounds.
  destruct (decide (e = fne)) as [->|].
  { rewrite first_slot_warmup by lia. lia. }
  unfold get_first_slot_in_epoch. rewrite (proj2 (Z.leb_gt _ _)) by lia.
  assert (32 * (e - fne) ≤ (e - fne) * spe) by nia.
  rewrite (u64_sub_exact e) by pow_lia. unfold u64_mul.
  rewrite (wrap64_small ((e - fne) * spe)) by pow_lia.
  apply u64_add_exact; pow_lia.
Qed.

Lemma epoch_of_warmup_slot slot :
  0 ≤ slot < fns →
  get_epoch_and_slot_index s slot =
    (Z.log2 (slot + 32) - 5, slot + 32 - 2 ^ Z.log2 (slot + 32)) ∧
  5 ≤ Z.log2 (slot + 32) < fne + 5.
Proof.
  intros Hslot. pose proof first_normal_bounds. destruct Hs as [Hspe Hfne Hfns].
  assert (5 ≤ Z.log2 (slot + 32) < fne + 5) as Hlog.
  { split; [apply (Z.log2_le_pow2 _ 5)|apply Z.log2_lt_pow2]; lia. }
  split; [|done]. unfold get_epoch_and_slot_index. rewrite (proj2 (Z.ltb_lt _ _)) by lia.
  rewrite min_slots_tz, min_slots. change (2 ^ 5) with 32.
  rewrite (u64_add_exact slot) by pow_lia.
  rewrite (u64_add_exact _ 1) by pow_lia.
  rewrite trailing_zeros_next_power_of_two by pow_lia.
  replace (_ - 5 - 1) with (Z.log2 (slot + 32) - 5) by lia.
  rewrite !as_u32_small by (rewrite ?as_u32_small; lia). rewrite Z.sub_add, pow2_exact by lia.
  pose proof (Z.log2_spec (slot + 32)). pose proof (pow2_bound 5 (Z.log2 (slot + 32))).
  rewrite !u64_sub_exact; rewrite ?u64_sub_exact; unfold is_u64; try lia. f_equal. lia.
Qed.

Lemma epoch_of_normal_slot slot :
  fns ≤ slot < two64 →
  get_epoch_and_slot_index s slot = (fne + (slot - fns) / spe, (slot - fns) mod spe).
Proof.
  intros Hslot. pose proof first_normal_bounds. destruct Hs as [Hspe Hfne Hfns].
  unfold get_epoch_and_slot_index. rewrite (proj2 (Z.ltb_ge _ _)) by lia.
  rewrite u64_sub_exact by pow_lia.
  pose proof (Z.div_pos (slot - fns) spe).
  assert ((slot - fns) / spe ≤ (slot - fns) / 32) by (apply Z.div_le_compat_l; lia).
  assert ((slot - fns) / 32 ≤ two64 / 32) by (apply Z.div_le_mono; lia).
  change (two64 / 32) with 576460752303423488 in *.
  by rewrite u64_add_exact by lia.
Qed.

Lemma decompose_slot slot e i :
  is_u64 slot → get_epoch_and_slot_index s slot = (e, i) →
  0 ≤ e ∧ 0 ≤ i < get_slots_in_epoch s e ∧ get_first_slot_in_epoch s e + i = slot.
Proof.
  intros Hslot He. destruct Hs as [Hspe Hfne Hfns]. pose proof first_normal_bounds.
  destruct (decide (slot < fns)) as [Hw|Hn].
  - destruct (epoch_of_warmup_slot slot) as [Heq Hlog]; [pow_lia|].
    rewrite Heq in He. injection He as <- <-.
    rewrite slots_in_warmup_epoch, first_slot_warmup, Z.sub_add by lia.
    pose proof (Z.log2_spec (slot + 32)) as Hspec. unfold is_u64 in Hslot.
    rewrite Z.pow_succ_r in Hspec by lia. lia.
  - rewrite epoch_of_normal_slot in He by pow_lia. injection He as <- <-.
    pose proof (Z.div_pos (slot - fns) spe). pose proof (Z.mod_pos_bound (slot - fns) spe).
    pose proof (Z.div_mod (slot - fns) spe) as Hdm. unfold is_u64 in Hslot.
    rewrite slots_in_normal_epoch, first_slot_normal by nia. lia.
Qed.

Lemma compose_slot e i :
  0 ≤ e → 0 ≤ i < get_slots_in_epoch s e → (e - fne) * spe + fns + i < two64 →
  get_epoch_and_slot_index s (u64_add (get_first_slot_in_epoch s e) i) = (e, i).
Proof.
  intros He Hi Hov. destruct Hs as [Hspe Hfne Hfns]. pose proof first_normal_bounds.
  destruct (decide (e < fne)) as [Hw|Hn].
  - rewrite slots_in_warmup_epoch in Hi by lia. rewrite first_slot_warmup by lia.
    pose proof (pow2_bound (e + 5) (fne + 4)). pose proof (pow2_bound 5 (e + 5)).
    replace (fne + 5) with (Z.succ (fne + 4)) in Hfns by lia.
    rewrite Z.pow_succ_r in Hfns by lia.
    rewrite u64_add_exact by pow_lia.
    destruct (epoch_of_warmup_slot (2 ^ (e + 5) - 32 + i)) as [-> _]; [pow_lia|].
    replace (2 ^ (e + 5) - 32 + i + 32) with (2 ^ (e + 5) + i) by lia.
    rewrite (Z.log2_unique _ (e + 5)) by (rewrite ?Z.pow_succ_r; lia). f_equal; lia.
  - rewrite slots_in_normal_epoch in Hi by lia. rewrite first_slot_normal by nia.
    rewrite u64_add_exact by nia. rewrite epoch_of_normal_slot by nia.
    replace ((e - fne) * spe + fns + i - fns) with (i + (e - fne) * spe) by lia.
    rewrite Z.div_add, Z.mod_add, Z.div_small, Z.mod_small by lia. f_equal; lia.
Qed.

Lemma stakers_epoch slot e i :
  0 ≤ stakers_slot_offset s ≤ spe → 0 ≤ slot → slot + stakers_slot_offset s < two64 →
  get_epoch_and_slot_index s slot = (e, i) →
  get_stakers_epoch s slot =
    e + (if (slot <? fns) || (spe <=? i + stakers_slot_offset s) then 1 else 0).
Proof.
  intros Hoff Hslot Hov He. destruct Hs as [Hspe Hfne Hfns]. pose proof first_normal_bounds.
  unfold get_stakers_epoch. rewrite He. destruct (Z.ltb_spec slot fns) as [Hlt|Hge]; simpl.
  - destruct (epoch_of_warmup_slot slot) as [Heq Hlog]; [pow_lia|].
    rewrite Heq in He. injection He as <- <-. apply u64_add_exact; lia.
  - rewrite epoch_of_normal_slot in He by pow_lia. injection He as <- <-.
    rewrite u64_sub_exact by pow_lia. rewrite (u64_add_exact (slot - fns)) by lia.
    pose proof (Z.mod_pos_bound (slot - fns) spe). pose proof (Z.div_pos (slot - fns) spe).
    pose proof (Z.div_mod (slot - fns) spe) as Hdm.
    set (q := (slot - fns) / spe) in *. set (r := (slot - fns) mod spe) in *.
    assert (32 * q ≤ spe * q) by nia.
    replace (slot - fns + stakers_slot_offset s) with (r + stakers_slot_offset s + q * spe) by lia.
    rewrite Z.div_add by lia. destruct (Z.leb_spec spe (r + stakers_slot_offset s)).
    + rewrite <- (Z.div_unique_pos (r + stakers_slot_offset s) spe 1 (r + stakers_slot_offset s - spe))
        by lia. rewrite u64_add_exact; lia.
    + rewrite Z.div_small by lia. rewrite u64_add_exact; lia.
Qed.
End schedule.

(** C40. The schedule partitions the slots.  Every slot is the [i]-th slot
    of the epoch that [get_epoch_and_slot_index] names, with [i] below the
    length of that epoch; and an epoch and an index below its length name
    the slot that decomposes into them.  There is no overflow on the way
    as long as the slot itself fits 64 bits. *)
Theorem epoch_schedule_partition spe off (warmup : bool) s :
  is_u64 spe → (warmup = true → spe ≤ 2 ^ 63) → EpochSchedule_new spe off warmup = Ok s →
  (∀ slot e i, is_u64 slot → get_epoch_and_slot_index s slot = (e, i) →
     0 ≤ e ∧ 0 ≤ i < get_slots_in_epoch s e ∧ get_first_slot_in_epoch s e + i = slot) ∧
  (∀ e i, 0 ≤ e → 0 ≤ i < get_slots_in_epoch s e →
     (e - first_normal_epoch s) * spe + first_normal_slot s + i < two64 →
     get_epoch_and_slot_index s (u64_add (get_first_slot_in_epoch s e) i) = (e, i)).
Proof.
  intros Hspe Hw Hnew.
  destruct (schedule_new_ok _ _ _ _ Hspe Hw Hnew) as (Hs & <- & _).
  split; [by apply decompose_slot|by apply compose_slot].
Qed.

(** The stakers that a slot records are those of its own epoch or of
    the next one: of the next one during the warm-up and in the last
    [stakers_slot_offset] slots of a normal epoch. *)
Theorem stakers_epoch_spec spe off (warmup : bool) s slot e i :
  is_u64 spe → (warmup = true → spe ≤ 2 ^ 63) → EpochSchedule_new spe off warmup = Ok s →
  0 ≤ off ≤ spe → 0 ≤ slot → slot + off < two64 →
  get_epoch_and_slot_index s slot = (e, i) →
  get_stakers_epoch s slot =
    e + (if (slot <? first_normal_slot s) || (get_slots_in_epoch s e <=? i + off) then 1 else 0).
Proof.
  intros Hspe Hw Hnew Hoff Hslot Hov He.
  destruct (schedule_new_ok _ _ _ _ Hspe Hw Hnew) as (Hs & <- & <-).
  rewrite (stakers_epoch s Hs slot e i) by done.
  destruct (Z.ltb_spec slot (first_normal_slot s)); [done|]. simpl.
  pose proof (first_normal_bounds s Hs).
  rewrite epoch_of_normal_slot in He by (done || lia). injection He as <- <-.
  rewrite slots_in_normal_epoch; [done|].
  pose proof (Z.div_pos (slot - first_normal_slot s) (slots_per_epoch s)).
  pose proof (ok_slots _ Hs). lia.
Qed.

Lemma epoch_schedule_partition_witness :
  ∃ s, EpochSchedule_new 8192 8192 true = Ok s ∧
    get_epoch_and_slot_index s (u64_add (get_first_slot_in_epoch s 7) 5) = (7, 5).
Proof.
  eexists. split; [reflexivity|].
  destruct (epoch_schedule_partition 8192 8192 true _ ltac:(done) ltac:(done) eq_refl) as [_ H].
  apply H; [done|by vm_compute|done].
Defined.

Lemma stakers_epoch_spec_witness :
  ∃ s, EpochSchedule_new 8192 100 true = Ok s ∧ get_stakers_epoch s 24540 = 10.
Proof.
  eexists. split; [reflexivity|].
  rewrite (stakers_epoch_spec 8192 100 true _ 24540 9 8188) by done. reflexivity.
Defined.

End epoch_schedule_proofs.
