(* ===== verification/StakingUtils.v ===== *)
(** * Stakes of the nodes

    core/src/stakingUtils.rs: the stakes per vote account and per node at an
    epoch, and the slot that a supermajority has locked out. *)

From stdpp Require Import sorting.
From Stdlib Require Import Sorting.Mergesort Sorting.Sorted Structures.Orders.
From S2P Require Import Prelude Interface Codec Float VoteState.

Import vote_state.

(** ** What the consensus code reads of a bank

    The accessors of [Bank] that stakingUtils.rs, leaderArrangeUtils.rs and
    forkSelection.rs call.  A [HashMap] is the list of its entries in its
    iteration order. *)
Record BankView := mkBankView {
  bv_slot : Z;
  bv_epoch_and_index : Z → Z * Z;
  bv_slots_in_epoch : Z → Z;
  bv_parents : nat;
  bv_collector_id : Pubkey;
  bv_vote_accounts : list (Pubkey * (Z * Account));
  bv_epoch_vote_accounts : Z → option (list (Pubkey * (Z * Account)))
}.

(** [collect] into a [HashMap]: a later entry replaces an earlier one. *)
Definition collect_map {A} (l : list (Pubkey * A)) : gmap Pubkey A :=
  foldl (λ m '(k, v), <[k := v]> m) ∅ l.

Module staking_utils.

(** [sort_unstable_by] on the root slots, descending. *)
Module RootOrder <: TotalLeBool'.
Definition t : Type := Z * Z.
Definition leb (x y : t) : bool := y.2 <=? x.2.
Infix "<=?" := leb.
Lemma leb_total x y : leb x y = true ∨ leb y x = true.
Proof. unfold leb. rewrite !Z.leb_le. lia. Qed.
End RootOrder.
Module RootSort := Sort RootOrder.

(** The loop over the sorted stakes. *)
Fixpoint supermajority_loop (supermajority_stake total : Z) (l : list (Z * Z)) : option Z :=
  match l with
  | [] => None
  | (stake, slot') :: l' =>
      let total := u64_add total stake in
      if supermajority_stake <? total then Some slot'
      else supermajority_loop supermajority_stake total l'
  end.

Definition find_supermajority_slot (supermajority_stake : Z)
    (stakes_and_lockouts : list (Z * option Z)) : option Z :=
  let with_root := omap (λ '(stake, slot'), (λ s, (stake, s)) <$> slot') stakes_and_lockouts in
  supermajority_loop supermajority_stake 0 (RootSort.sort with_root).

Section Accounts.
Context `{!Bincode VoteState}.

Definition to_vote_states (node_staked_accounts : list (Pubkey * (Z * Account)))
    : list (Z * VoteState) :=
  omap (λ '(_, (stake, account)), (λ vs, (stake, vs)) <$> deserialize account.(data))
    node_staked_accounts.

Definition to_staked_nodes (l : list (Z * VoteState)) : gmap Pubkey Z :=
  foldl (λ m '(stake, st),
    <[st.(node_pubkey) := match m !! st.(node_pubkey) with
                          | Some s => u64_add s stake
                          | None => stake
                          end]> m) ∅ l.

Definition vote_account_stakes (bank : BankView) : gmap Pubkey Z :=
  collect_map ((λ '(id, (stake, _)), (id, stake)) <$> bank.(bv_vote_accounts)).

Definition staked_nodes (bank : BankView) : gmap Pubkey Z :=
  to_staked_nodes (to_vote_states bank.(bv_vote_accounts)).

Definition vote_account_stakes_at_epoch (bank : BankView) (epoch_height : Z)
    : option (gmap Pubkey Z) :=
  (λ accounts, collect_map ((λ '(id, (stake, _)), (id, stake)) <$> accounts))
    <$> bank.(bv_epoch_vote_accounts) epoch_height.

Definition staked_nodes_at_epoch (bank : BankView) (epoch_height : Z) : option (gmap Pubkey Z) :=
  (λ vote_accounts, to_staked_nodes (to_vote_states vote_accounts))
    <$> bank.(bv_epoch_vote_accounts) epoch_height.

Definition epoch_stakes_and_lockouts {E} (bank : BankView) (epoch_height : Z)
    : res E (list (Z * option Z)) :=
  node_staked_accounts ← unwrap (bank.(bv_epoch_vote_accounts) epoch_height);
  Ok ((λ '(stake, st), (stake, st.(root_slot))) <$> to_vote_states node_staked_accounts).

Definition get_supermajority_slot {E} (bank : BankView) (epoch_height : Z) : res E (option Z) :=
  stakes_and_lockouts ← epoch_stakes_and_lockouts bank epoch_height;
  let total_stake := u64_sum stakes_and_lockouts.*1 in
  let supermajority_stake := u64_mul total_stake 2 / 3 in
  Ok (find_supermajority_slot supermajority_stake stakes_and_lockouts).
End Accounts.
End staking_utils.

Module staking_utils_proofs.
Import staking_utils.

(** The stake that has rooted a slot at or above [s]. *)
Definition stake_rooted (s : Z) (l : list (Z * option Z)) : Z :=
  Zsum ((λ '(stake, root), match root with
                           | Some r => if s <=? r then stake else 0
                           | None => 0
                           end) <$> l).

Definition rooted_at_least (s : Z) (l : list (Z * Z)) : Z :=
  Zsum ((λ '(stake, r), if s <=? r then stake else 0) <$> l).

Lemma stake_rooted_omap s l :
  stake_rooted s l =
  rooted_at_least s (omap (λ '(stake, slot'), (λ s, (stake, s)) <$> slot') l).
Proof.
  unfold stake_rooted, rooted_at_least. induction l as [|[st [r|]] l IH]; cbn; [done|..];
    cbn in IH; rewrite IH; done.
Qed.

Lemma rooted_perm s l l' : l ≡ₚ l' → rooted_at_least s l = rooted_at_least s l'.
Proof. intros Hp. unfold rooted_at_least. by apply Zsum_perm, fmap_Permutation. Qed.

Lemma rooted_app s l k : rooted_at_least s (l ++ k) = rooted_at_least s l + rooted_at_least s k.
Proof. unfold rooted_at_least. by rewrite fmap_app, Zsum_app. Qed.

Lemma rooted_cons s stake r l :
  rooted_at_least s ((stake, r) :: l) = (if s <=? r then stake else 0) + rooted_at_least s l.
Proof. done. Qed.

Lemma rooted_le s l : Forall (λ x, 0 ≤ x.1) l → 0 ≤ rooted_at_least s l ≤ Zsum l.*1.
Proof.
  induction 1 as [|[st r] l Hx _ IH]; cbn; [lia|]. unfold rooted_at_least in *. cbn in *.
  case_match; lia.
Qed.

Lemma rooted_all s l : Forall (λ x, s ≤ x.2) l → rooted_at_least s l = Zsum l.*1.
Proof.
  induction 1 as [|[st r] l Hx _ IH]; [done|]. unfold rooted_at_least in *. cbn in *.
  rewrite IH. by rewrite (proj2 (Z.leb_le _ _)).
Qed.

Lemma rooted_none s l : Forall (λ x, x.2 < s) l → rooted_at_least s l = 0.
Proof.
  induction 1 as [|[st r] l Hx _ IH]; [done|]. unfold rooted_at_least in *. cbn in *.
  rewrite IH. by rewrite (proj2 (Z.leb_gt _ _)).
Qed.

(** The loop over [l] after the entries [pre], in descending order of the
    roots. *)
Lemma supermajority_loop_spec thr l : ∀ pre,
  StronglySorted (λ x y : Z * Z, y.2 ≤ x.2) (pre ++ l) → Forall (λ x, 0 ≤ x.1) (pre ++ l) →
  Zsum pre.*1 ≤ thr → Zsum (pre ++ l).*1 < two64 →
  match supermajority_loop thr (Zsum pre.*1) l with
  | Some s => (∃ stake, (stake, s) ∈ l) ∧ thr < rooted_at_least s (pre ++ l) ∧
      ∀ s', s < s' → rooted_at_least s' (pre ++ l) ≤ thr
  | None => ∀ s', rooted_at_least s' (pre ++ l) ≤ thr
  end.
Proof.
  induction l as [|[stake r] l IH]; intros pre Hsort Hnn Hpre Hsum; cbn [supermajority_loop].
  { intros s'. rewrite app_nil_r in *. pose proof (rooted_le s' pre Hnn). lia. }
  assert (Zsum (pre ++ [(stake, r)]).*1 = Zsum pre.*1 + stake) as Hpre'.
  { rewrite fmap_app, Zsum_app. cbn. lia. }
  apply Forall_app in Hnn as Hnn'. destruct Hnn' as [Hnp Hnl]. apply Forall_cons in Hnl as Hnl'.
  destruct Hnl' as [Hst Hnl2]. cbn in Hst.
  assert (u64_add (Zsum pre.*1) stake = Zsum (pre ++ [(stake, r)]).*1) as ->.
  { rewrite Hpre'. apply u64_add_exact; [|done|].
    - apply Zsum_nonneg, Forall_fmap. exact Hnp.
    - rewrite fmap_app, fmap_cons, Zsum_app in Hsum. cbn [Zsum fst] in Hsum.
      assert (0 ≤ Zsum l.*1) by (apply Zsum_nonneg, Forall_fmap; exact Hnl2). lia. }
  apply StronglySorted_app in Hsort as Hsort'. destruct Hsort' as (Hcross & _ & Hsl).
  destruct (Z.ltb_spec thr (Zsum (pre ++ [(stake, r)]).*1)) as [Hgt|Hle].
  - split_and!.
    + exists stake. by left.
    + rewrite rooted_app, (rooted_all r pre), rooted_cons, Z.leb_refl.
      * pose proof (rooted_le r l Hnl2). lia.
      * apply Forall_forall. intros x Hx. apply (Hcross x (stake, r) Hx). by left.
    + intros s' Hs'. rewrite rooted_app, (rooted_none s' ((stake, r) :: l)).
      * pose proof (rooted_le s' pre Hnp). lia.
      * apply Forall_cons. split; [done|]. apply StronglySorted_inv in Hsl as [_ Hl].
        eapply Forall_impl; [exact Hl|]. cbn. lia.
  - specialize (IH (pre ++ [(stake, r)])). rewrite <- app_assoc in IH. cbn [app] in IH.
    specialize (IH Hsort Hnn Hle Hsum).
    destruct (supermajority_loop _ _ l) as [s|]; [|done].
    destruct IH as ([st Hin] & ? & ?). split_and!; try done. exists st. by right.
Qed.

Lemma sort_descending l : StronglySorted (λ x y : Z * Z, y.2 ≤ x.2) (RootSort.sort l).
Proof.
  assert (StronglySorted (λ x y, is_true (RootOrder.leb x y)) (RootSort.sort l)) as Hs.
  { apply RootSort.StronglySorted_sort. intros x y z. unfold RootOrder.leb, is_true.
    rewrite !Z.leb_le. lia. }
  induction Hs as [|x k Hk IH Hx]; constructor; [done|]. eapply Forall_impl; [exact Hx|].
  intros y. unfold RootOrder.leb, is_true. rewrite Z.leb_le. done.
Qed.

(** The supermajority slot: when the stakes add up without overflow, the
    slot that is found is a root, more than the threshold has rooted it or a
    later slot, and no later slot has that; when none is found, no slot has it.
    The order in which the vote accounts are visited does not matter. *)
Theorem supermajority_slot_spec thr l
    (Hthr : 0 ≤ thr) (Hnn : Forall (λ x, 0 ≤ x.1) l) (Hsum : Zsum l.*1 < two64) :
  match find_supermajority_slot thr l with
  | Some s => s ∈ omap snd l ∧ thr < stake_rooted s l ∧
      ∀ s', s < s' → stake_rooted s' l ≤ thr
  | None => ∀ s', stake_rooted s' l ≤ thr
  end.
Proof.
  unfold find_supermajority_slot. set (with_root := omap _ l).
  assert (∀ s, stake_rooted s l = rooted_at_least s (RootSort.sort with_root)) as Heq.
  { intros s. rewrite stake_rooted_omap. apply rooted_perm. unfold with_root.
    rewrite <- RootSort.Permuted_sort. done. }
  assert (Forall (λ x, 0 ≤ x.1) with_root ∧ Zsum with_root.*1 ≤ Zsum l.*1) as [Hnn' Hle].
  { unfold with_root. clear -Hnn. induction Hnn as [|[st [r|]] l Hx _ [IH1 IH2]]; cbn in *;
      [done|..]; (split; [try constructor; done|lia]). }
  pose proof (supermajority_loop_spec thr (RootSort.sort with_root) []) as Hspec.
  cbn [app fmap list_fmap Zsum] in Hspec.
  assert (RootSort.sort with_root ≡ₚ with_root) as Hperm
    by (symmetry; apply RootSort.Permuted_sort).
  specialize (Hspec (sort_descending _) ltac:(by rewrite Hperm) Hthr). rewrite (Zsum_perm _ with_root.*1) in Hspec
    by (by apply fmap_Permutation).
  specialize (Hspec ltac:(lia)).
  destruct (supermajority_loop thr 0 _) as [s|].
  - destruct Hspec as ([st Hin] & Hgt & Hmax). split_and!.
    + rewrite Hperm in Hin. apply list_elem_of_omap in Hin as ([st' [r|]] & Hl & Hr); [|done].
      cbn in Hr. injection Hr as -> ->. apply list_elem_of_omap. by exists (st, Some s).
    + by rewrite Heq.
    + intros s' Hs'. rewrite Heq. auto.
  - intros s'. rewrite Heq. auto.
Qed.

Lemma supermajority_slot_spec_witness :
  find_supermajority_slot 10 [(5, Some 7); (4, None); (6, Some 9); (3, Some 8)] = Some 7 ∧
  10 < stake_rooted 7 [(5, Some 7); (4, None); (6, Some 9); (3, Some 8)].
Proof.
  assert (find_supermajority_slot 10 [(5, Some 7); (4, None); (6, Some 9); (3, Some 8)] = Some 7)
    as Hf by (vm_compute; reflexivity).
  split; [exact Hf|].
  assert (Forall (λ x : Z * option Z, 0 ≤ x.1) [(5, Some 7); (4, None); (6, Some 9); (3, Some 8)])
    as Hnn by (repeat constructor; cbn; lia).
  pose proof (supermajority_slot_spec 10 [(5, Some 7); (4, None); (6, Some 9); (3, Some 8)]
    ltac:(lia) Hnn ltac:(vm_compute; reflexivity)) as H.
  rewrite Hf in H. exact (proj1 (proj2 H)).
Defined.
End staking_utils_proofs.
