(* ===== verification/ForkSelection.v ===== *)
(** * Fork selection

    core/src/forkSelection.rs: the lock tower of a validator.  It simulates its
    votes on a [VoteState], weighs the forks by the lockouts and stakes of all
    vote accounts, and decides whether it may vote for a slot. *)

From S2P Require Import Prelude Interface Codec Float VoteState StakingUtils.

Import vote_state.

Module locktower.

Definition VOTE_THRESHOLD_DEPTH : nat := 8.
Definition VOTE_THRESHOLD_SIZE : f64 := f64_div (f64_of_Z 2) (f64_of_Z 3).
Definition MAX_RECENT_VOTES : nat := 16.

Record EpochStakes := mkEpochStakes {
  es_epoch : Z;
  es_stakes : gmap Pubkey Z;
  es_self_staked : Z;
  es_total_staked : Z;
  es_delegate_pubkey : Pubkey
}.

Record StakeLockout := mkStakeLockout { sl_lockout : Z; sl_stake : Z }.
Definition StakeLockout_default : StakeLockout := mkStakeLockout 0 0.

Record Locktower := mkLocktower {
  lt_epoch_stakes : EpochStakes;
  lt_threshold_depth : nat;
  lt_threshold_size : f64;
  lt_lockouts : VoteState;
  lt_recent_votes : list Vote
}.

Definition EpochStakes_new (epoch : Z) (stakes : gmap Pubkey Z) (delegate_pubkey : Pubkey)
    : EpochStakes :=
  let total_staked := u64_sum (map_to_list stakes).*2 in
  let self_staked := default 0 (stakes !! delegate_pubkey) in
  mkEpochStakes epoch stakes self_staked total_staked delegate_pubkey.

Definition EpochStakes_new_from_stakes {E} (epoch : Z) (accounts : list (Pubkey * (Z * Account)))
    : res E EpochStakes :=
  let stakes := collect_map ((λ '(k, (v, _)), (k, v)) <$> accounts) in
  first ← unwrap (head accounts);
  Ok (EpochStakes_new epoch stakes first.1).

Definition EpochStakes_new_from_bank {E} (bank : BankView) (my_pubkey : Pubkey)
    : res E EpochStakes :=
  let bank_epoch := (bank.(bv_epoch_and_index) bank.(bv_slot)).1 in
  stakes ← unwrap (staking_utils.vote_account_stakes_at_epoch bank bank_epoch);
  Ok (EpochStakes_new bank_epoch stakes my_pubkey).

Definition Locktower_default : Locktower :=
  mkLocktower (mkEpochStakes 0 ∅ 0 0 Pubkey_default) 0 f64_zero VoteState_default [].

Definition Locktower_new (epoch_stakes : EpochStakes) (threshold_depth : nat)
    (threshold_size : f64) : Locktower :=
  mkLocktower epoch_stakes threshold_depth threshold_size VoteState_default [].

(** ** Weighing the forks

    [ancestors] and [descendants] map a slot to the set of its ancestors and
    descendants; the order in which a [HashSet] is visited does not matter, as
    every slot of it is updated on its own. *)

Notation Slots := (gmap Z (gset Z)).

Definition slot_with_ancestors (ancestors : Slots) (s : Z) : list Z :=
  s :: elements (default ∅ (ancestors !! s)).

Definition update_ancestor_lockouts (ancestors : Slots) (stake_lockouts : gmap Z StakeLockout)
    (vote : Lockout) : gmap Z StakeLockout :=
  foldl (λ m s,
    let entry := default StakeLockout_default (m !! s) in
    <[s := mkStakeLockout (u64_add entry.(sl_lockout) (lockout vote)) entry.(sl_stake)]> m)
    stake_lockouts (slot_with_ancestors ancestors vote.(slot)).

Definition update_ancestor_stakes (ancestors : Slots) (stake_lockouts : gmap Z StakeLockout)
    (s difs : Z) : gmap Z StakeLockout :=
  foldl (λ m s,
    let entry := default StakeLockout_default (m !! s) in
    <[s := mkStakeLockout entry.(sl_lockout) (u64_add entry.(sl_stake) difs)]> m)
    stake_lockouts (slot_with_ancestors ancestors s).

Section Weights.
Context `{!Bincode VoteState}.

Definition root_lockout (root : Z) : Lockout := mkLockout root MAX_LOCKOUT_HISTORY.

(** The body of the loop for a vote account that is staked and readable. *)
Definition collect_one {E} (bank_slot : Z) (ancestors : Slots) (difs : Z) (vote_state : VoteState)
    (stake_lockouts : gmap Z StakeLockout) : res E (gmap Z StakeLockout) :=
  let start_root := vote_state.(root_slot) in
  let vote_state := process_slot_vote_unchecked bank_slot vote_state in
  let m := foldl (update_ancestor_lockouts ancestors) stake_lockouts vote_state.(votes) in
  let m := if negb (bool_decide (start_root = vote_state.(root_slot))) then
             match start_root with
             | Some root => update_ancestor_lockouts ancestors m (root_lockout root)
             | None => m
             end
           else m in
  let m := match vote_state.(root_slot) with
           | Some root => update_ancestor_lockouts ancestors m (root_lockout root)
           | None => m
           end in
  if negb (bool_decide (slot <$> nth_recent_vote 0 vote_state = Some bank_slot)) then Panic
  else
  Ok (match nth_recent_vote 1 vote_state with
      | Some vote => update_ancestor_stakes ancestors m vote.(slot) difs
      | None => m
      end).

Fixpoint collect_loop {E} (es : EpochStakes) (bank_slot : Z) (ancestors : Slots)
    (vote_accounts : list (Pubkey * (Z * Account))) (stake_lockouts : gmap Z StakeLockout)
    : res E (gmap Z StakeLockout) :=
  match vote_accounts with
  | [] => Ok stake_lockouts
  | (key, (_, account)) :: rest =>
      let difs := default 0 (es.(es_stakes) !! key) in
      if difs =? 0 then collect_loop es bank_slot ancestors rest stake_lockouts
      else match VoteState_from account with
      | None => collect_loop es bank_slot ancestors rest stake_lockouts
      | Some vote_state =>
          m ← collect_one bank_slot ancestors difs vote_state stake_lockouts;
          collect_loop es bank_slot ancestors rest m
      end
  end.

Definition collect_vote_lockouts {E} (lt : Locktower) (bank_slot : Z)
    (vote_accounts : list (Pubkey * (Z * Account))) (ancestors : Slots)
    : res E (gmap Z StakeLockout) :=
  collect_loop lt.(lt_epoch_stakes) bank_slot ancestors vote_accounts ∅.

(** [(stake as f64 / total_staked as f64) > threshold_size] *)
Definition over_threshold (lt : Locktower) (stake : Z) : bool :=
  f64_ltb lt.(lt_threshold_size)
    (f64_div (f64_of_Z stake) (f64_of_Z lt.(lt_epoch_stakes).(es_total_staked))).

Definition is_slot_confirmed (lt : Locktower) (s : Z) (lockouts : gmap Z StakeLockout) : bool :=
  match lockouts !! s with
  | Some l => over_threshold lt l.(sl_stake)
  | None => false
  end.

Definition is_recent_epoch (lt : Locktower) (bank : BankView) : bool :=
  let bank_epoch := (bank.(bv_epoch_and_index) bank.(bv_slot)).1 in
  lt.(lt_epoch_stakes).(es_epoch) <=? bank_epoch.

Definition update_epoch {E} (bank : BankView) (lt : Locktower) : res E Locktower :=
  let bank_epoch := (bank.(bv_epoch_and_index) bank.(bv_slot)).1 in
  if negb (bank_epoch =? lt.(lt_epoch_stakes).(es_epoch)) then
    if negb (is_recent_epoch lt bank) then Panic
    else
    es ← EpochStakes_new_from_bank bank lt.(lt_epoch_stakes).(es_delegate_pubkey);
    Ok (mkLocktower es lt.(lt_threshold_depth) lt.(lt_threshold_size) lt.(lt_lockouts)
          lt.(lt_recent_votes))
  else Ok lt.

(** [u128] arithmetic wraps at 2^128. *)
Definition calculate_weight (lt : Locktower) (stake_lockouts : gmap Z StakeLockout) : Z :=
  let root := default 0 lt.(lt_lockouts).(root_slot) in
  foldl (λ sum '(s, l),
    if bool_decide (is_Some lt.(lt_lockouts).(root_slot)) && (s <=? root) then sum
    else (sum + l.(sl_lockout) * l.(sl_stake)) mod 2 ^ 128) 0 (map_to_list stake_lockouts).

Definition bank_weight {E} (lt : Locktower) (bank : BankView) (ancestors : Slots) : res E Z :=
  stake_lockouts ← collect_vote_lockouts lt bank.(bv_slot) bank.(bv_vote_accounts) ancestors;
  Ok (calculate_weight lt stake_lockouts).

(** Stable [sort_by_key] and [pop]: of the banks with the greatest key, the
    last one of the iteration order. *)
Fixpoint heaviest (l : list (Z * nat * BankView)) (best : option (Z * nat * BankView))
    : option BankView :=
  match l with
  | [] => snd <$> best
  | (w, n, b) :: l' =>
      match best with
      | Some (w0, n0, _) =>
          if (w <? w0) || (w =? w0) && (n <? n0)%nat then heaviest l' best
          else heaviest l' (Some (w, n, b))
      | None => heaviest l' (Some (w, n, b))
      end
  end.

Definition find_heaviest_bank {E} (lt : Locktower) (frozen_banks : list BankView)
    (ancestors : Slots) : res E (option BankView) :=
  bank_weights ← (fix go bs := match bs with
                  | [] => Ok []
                  | b :: bs' =>
                      w ← bank_weight lt b ancestors;
                      rest ← go bs';
                      Ok ((w, b.(bv_parents), b) :: rest)
                  end) frozen_banks;
  Ok (heaviest bank_weights None).

(** [VoteState::deserialize(..).expect("votes")] *)
Definition initialize_lockouts_from_bank {E} (bank : BankView) (current_epoch : Z)
    : res E VoteState :=
  match bank.(bv_epoch_vote_accounts) current_epoch with
  | None => Ok VoteState_default
  | Some accounts =>
      (fix go lockouts l := match l with
       | [] => Ok lockouts
       | (delegate_pubkey, (_, account)) :: l' =>
           if delegate_pubkey =? bank.(bv_collector_id) then
             st ← unwrap (deserialize account.(data));
             if (length lockouts.(votes) <? length st.(votes))%nat then go st l'
             else go lockouts l'
           else go lockouts l'
       end) VoteState_default accounts
  end.

(** [frozen_banks.sort_by_key(|b| (b.parents().len(), b.slot()))] and [last]. *)
Fixpoint newest_bank (l : list BankView) (best : option BankView) : option BankView :=
  match l with
  | [] => best
  | b :: l' =>
      match best with
      | Some b0 =>
          if (b.(bv_parents) <? b0.(bv_parents))%nat
             || (b.(bv_parents) =? b0.(bv_parents))%nat && (b.(bv_slot) <? b0.(bv_slot))
          then newest_bank l' best else newest_bank l' (Some b)
      | None => newest_bank l' (Some b)
      end
  end.

Definition new_from_forks {E} (frozen_banks : list BankView) (ancestors : Slots)
    (my_pubkey : Pubkey) : res E Locktower :=
  match newest_bank frozen_banks None with
  | None => Ok Locktower_default
  | Some bank =>
      epoch_stakes ← EpochStakes_new_from_bank bank my_pubkey;
      let locktower :=
        mkLocktower epoch_stakes VOTE_THRESHOLD_DEPTH VOTE_THRESHOLD_SIZE VoteState_default [] in
      found ← find_heaviest_bank locktower frozen_banks ancestors;
      bank ← unwrap found;
      lockouts ← initialize_lockouts_from_bank bank epoch_stakes.(es_epoch);
      Ok (mkLocktower epoch_stakes VOTE_THRESHOLD_DEPTH VOTE_THRESHOLD_SIZE lockouts [])
  end.
End Weights.

(** ** Voting *)

Definition record_vote {E} (s : Z) (hash : Hash) (lt : Locktower) : res E (option Z) * Locktower :=
  let root := lt.(lt_lockouts).(root_slot) in
  let vote := mkVote s hash in
  let lockouts := process_vote_unchecked vote lt.(lt_lockouts) in
  let recent := lt.(lt_recent_votes) ++ [vote] in
  let slots := slot <$> drop (length lockouts.(votes) - MAX_RECENT_VOTES) lockouts.(votes) in
  let recent := filter (λ v, v.(vote_slot) ∈ slots) recent in
  let lt' := mkLocktower lt.(lt_epoch_stakes) lt.(lt_threshold_depth) lt.(lt_threshold_size)
               lockouts recent in
  (if negb (bool_decide (root = lockouts.(root_slot)))
   then match lockouts.(root_slot) with Some r => Ok (Some r) | None => Panic end
   else Ok None, lt').

Definition recent_votes (lt : Locktower) : list Vote := lt.(lt_recent_votes).
Definition root (lt : Locktower) : option Z := lt.(lt_lockouts).(root_slot).

Definition has_voted (lt : Locktower) (s : Z) : bool :=
  existsb (λ v, v.(slot) =? s) lt.(lt_lockouts).(votes).

(** [descendants[&a].contains(&b)] *)
Definition descends {E} (descendants : Slots) (a b : Z) : res E bool :=
  match descendants !! a with
  | Some ds => Ok (bool_decide (b ∈ ds))
  | None => Panic
  end.

(** The loop over the votes: is some of them not an ancestor? *)
Fixpoint locked_out_by {E} (descendants : Slots) (s : Z) (vs : list Lockout) : res E bool :=
  match vs with
  | [] => Ok false
  | v :: vs' =>
      if v.(slot) =? s then locked_out_by descendants s vs'
      else
      d ← descends descendants v.(slot) s;
      if negb d then Ok true else locked_out_by descendants s vs'
  end.

Definition is_locked_out {E} (lt : Locktower) (s : Z) (descendants : Slots) : res E bool :=
  let lockouts := process_slot_vote_unchecked s lt.(lt_lockouts) in
  locked ← locked_out_by descendants s lockouts.(votes);
  if (locked : bool) then Ok true
  else match lockouts.(root_slot) with
  | Some root => d ← descends descendants root s; Ok (negb d)
  | None => Ok false
  end.

Definition check_vote_stake_threshold (lt : Locktower) (s : Z)
    (stake_lockouts : gmap Z StakeLockout) : bool :=
  let lockouts := process_slot_vote_unchecked s lt.(lt_lockouts) in
  match nth_recent_vote lt.(lt_threshold_depth) lockouts with
  | Some vote =>
      match stake_lockouts !! vote.(slot) with
      | Some fork_stake => over_threshold lt fork_stake.(sl_stake)
      | None => false
      end
  | None => true
  end.
End locktower.

Module locktower_proofs.
Import locktower.

(** ** The votes of a tower lie on one fork *)

Section Forks.
(** The true ancestry of the slots; the [descendants] maps a validator sees at
    different times are parts of it. *)
Context (anc : Z → Z → Prop).

Definition knows (descendants : Slots) : Prop :=
  ∀ a b ds, descendants !! a = Some ds → b ∈ ds → anc a b.

Definition chain (vs : list Lockout) : Prop :=
  ∀ i j u v, vs !! i = Some u → vs !! j = Some v → (i < j)%nat → anc u.(slot) v.(slot).

Record one_fork (st : VoteState) : Prop := mkOneFork {
  of_tower : tower_ok st;
  of_chain : chain st.(votes);
  of_root : ∀ r v, st.(root_slot) = Some r → v ∈ st.(votes) → anc r v.(slot)
}.

Lemma chain_slots vs vs' : slot <$> vs' = slot <$> vs → chain vs → chain vs'.
Proof.
  intros He Hc i j u v Hu Hv Hij.
  assert (∀ k x, vs' !! k = Some x → ∃ y, vs !! k = Some y ∧ slot y = slot x) as Hl.
  { intros k x Hx. apply (f_equal (.!! k)) in He. rewrite !list_lookup_fmap, Hx in He. cbn in He.
    destruct (vs !! k) as [y|]; [|done]. injection He as He. eauto. }
  destruct (Hl _ _ Hu) as (u' & Hu' & <-), (Hl _ _ Hv) as (v' & Hv' & <-). by eapply Hc.
Qed.

Lemma double_lockouts_slots vs : slot <$> double_lockouts vs = slot <$> vs.
Proof.
  apply list_eq. intros i. rewrite !list_lookup_fmap.
  destruct (double_lockouts vs !! i) as [v|] eqn:Hv.
  - apply double_lockouts_lookup in Hv as (u & -> & ->). cbn. by rewrite double_lockout_slot.
  - apply lookup_ge_None in Hv. rewrite double_lockouts_length in Hv.
    by rewrite (proj2 (lookup_ge_None _ _)).
Qed.

Lemma chain_prefix vs ws : chain (vs ++ ws) → chain vs.
Proof. intros Hc i j u v Hu Hv. apply Hc; by apply lookup_app_l_Some. Qed.

Lemma chain_tail v vs : chain (v :: vs) → chain vs ∧ ∀ u, u ∈ vs → anc v.(slot) u.(slot).
Proof.
  intros Hc. split.
  - intros i j x y Hx Hy Hij. apply (Hc (S i) (S j)); [done..|lia].
  - intros u [i Hi]%list_elem_of_lookup. apply (Hc 0%nat (S i)); [done..|lia].
Qed.

Lemma chain_snoc vs v : chain vs → (∀ u, u ∈ vs → anc u.(slot) v.(slot)) → chain (vs ++ [v]).
Proof.
  intros Hc Hv i j x y Hx Hy Hij. apply lookup_app_Some in Hy as [Hy|[Hle Hy]].
  - apply lookup_app_Some in Hx as [Hx|[Hle _]]; [by eapply Hc|].
    apply lookup_lt_Some in Hy. lia.
  - apply list_lookup_singleton_Some in Hy as [Hj <-].
    apply lookup_app_Some in Hx as [Hx|[Hle2 Hx]]; [|apply lookup_lt_Some in Hx; cbn in Hx; lia].
    apply Hv. by eapply list_elem_of_lookup_2.
Qed.

Lemma unchecked_not_rejected s h st :
  ¬ rejected (mkVote s h) [(s, h)] st ∨ process_vote_unchecked (mkVote s h) st = st.
Proof.
  destruct (rejected_dec (mkVote s h) [(s, h)] st) as [Hr|Hr]; [|by left].
  right. by apply process_vote_rejected.
Qed.

(** The hash of an unchecked vote does not matter to the tower. *)
Lemma unchecked_hash s h st :
  process_vote_unchecked (mkVote s h) st = process_slot_vote_unchecked s st.
Proof.
  unfold process_slot_vote_unchecked, process_vote_unchecked, process_vote, vote_matches. cbn.
  by rewrite !Z.eqb_refl.
Qed.

(** A vote that descends from what the tower keeps extends the fork. *)
Lemma one_fork_vote s h st :
  one_fork st →
  let st' := process_vote_unchecked (mkVote s h) st in
  (∀ v, v ∈ st'.(votes) → v.(slot) = s ∨ anc v.(slot) s) →
  (∀ r, st'.(root_slot) = Some r → anc r s) →
  one_fork st' ∧
  (st'.(root_slot) = st.(root_slot) ∨
   ∃ r', st'.(root_slot) = Some r' ∧ ∀ r, st.(root_slot) = Some r → anc r r').
Proof.
  intros [Hok Hc Hroot] st' Hv Hr.
  destruct (unchecked_not_rejected s h st) as [Hrej|He]; [|unfold st'; rewrite He; split; [by split|by left]].
  pose proof (process_vote_ok (mkVote s h) [(s, h)] st Hok) as Hok'.
  change (process_vote (mkVote s h) [(s, h)] st) with st' in Hok'.
  destruct (process_vote_accepted _ _ _ Hrej) as (kept & popped & Hvs & _ & _ & Hp).
  change (process_vote (mkVote s h) [(s, h)] st) with st' in Hp.
  assert (∀ v, v ∈ st.(votes) → v.(slot) < s) as Hnewer
    by (intros v; apply (not_rejected_newer (mkVote s h) [(s, h)] st v Hok Hrej)).
  rewrite Hvs in Hc, Hnewer. pose proof (chain_prefix _ _ Hc) as Hck.
  assert (∀ l, (∀ v, v ∈ l → v ∈ kept) → slot <$> st'.(votes) = slot <$> (l ++ [Lockout_new (mkVote s h)]) →
    ∀ v, v ∈ l → anc v.(slot) s) as Hanc.
  { intros l Hl Hs v Hin.
    assert (slot v ∈ slot <$> votes st') as Hin'.
    { rewrite Hs, fmap_app. apply elem_of_app. left. by apply list_elem_of_fmap_2. }
    apply list_elem_of_fmap in Hin' as (v' & He & Hv').
    destruct (Hv v' Hv') as [Heq|Ha]; [|by rewrite He].
    specialize (Hnewer v ltac:(apply elem_of_app; auto)). lia. }
  assert (∀ l, (∀ v, v ∈ l → v ∈ kept) → chain l →
    slot <$> st'.(votes) = slot <$> (l ++ [Lockout_new (mkVote s h)]) → chain st'.(votes)) as Hchain.
  { intros l Hl Hcl Hs. apply (chain_slots (l ++ [Lockout_new (mkVote s h)])); [done|].
    apply chain_snoc; [done|]. by apply Hanc. }
  unfold vote_pushed in Hp. case_decide.
  - destruct Hp as (oldest & rest & -> & Hst).
    assert (slot <$> votes st' = slot <$> (rest ++ [Lockout_new (mkVote s h)])) as Hs
      by (rewrite Hst; apply double_lockouts_slots).
    assert (root_slot st' = Some (slot oldest)) as Hroot' by (by rewrite Hst).
    apply chain_tail in Hck as [Hcr Hold]. split; [split; [done| |]|].
    + apply (Hchain rest); [set_solver|done..].
    + intros r v Hrv Hin. assert (r = slot oldest) as -> by congruence.
      assert (slot v ∈ slot <$> votes st') as Hin' by (by apply list_elem_of_fmap_2).
      rewrite Hs, fmap_app in Hin'. apply elem_of_app in Hin' as [Hin'|Hin'].
      * apply list_elem_of_fmap in Hin' as (u & -> & Hu). by apply Hold.
      * apply list_elem_of_singleton in Hin'. rewrite Hin'. cbn. by apply Hr.
    + right. exists (slot oldest). split; [done|]. intros r Hrr. apply Hroot; [done|].
      rewrite Hvs. set_solver.
  - assert (slot <$> votes st' = slot <$> (kept ++ [Lockout_new (mkVote s h)])) as Hs
      by (rewrite Hp; apply double_lockouts_slots).
    assert (root_slot st' = root_slot st) as Hroot' by (by rewrite Hp).
    split; [split; [done| |]|by left].
    + by apply (Hchain kept).
    + intros r v Hrv Hin.
      assert (slot v ∈ slot <$> votes st') as Hin' by (by apply list_elem_of_fmap_2).
      rewrite Hs, fmap_app in Hin'. apply elem_of_app in Hin' as [Hin'|Hin'].
      * apply list_elem_of_fmap in Hin' as (u & -> & Hu). apply Hroot; [by rewrite <- Hroot'|].
        rewrite Hvs. apply elem_of_app. by left.
      * apply list_elem_of_singleton in Hin'. rewrite Hin'. cbn. by apply Hr.
Qed.

(** ** The lockout check *)

Lemma descends_anc {E} descendants a b :
  knows descendants → descends (E:=E) descendants a b = Ok true → anc a b.
Proof.
  unfold descends. intros Hk Hd. destruct (descendants !! a) as [ds|] eqn:Hds; [|done].
  injection Hd as Hd%bool_decide_eq_true. by eapply Hk.
Qed.

Lemma locked_out_by_false {E} descendants s vs :
  knows descendants → locked_out_by (E:=E) descendants s vs = Ok false →
  ∀ v, v ∈ vs → v.(slot) = s ∨ anc v.(slot) s.
Proof.
  intros Hk. induction vs as [|v vs IH]; intros Hl u Hu; [by apply not_elem_of_nil in Hu|].
  cbn in Hl. destruct (Z.eqb_spec (slot v) s) as [He|Hne].
  - apply elem_of_cons in Hu as [->|Hu]; [by left|auto].
  - apply res_bind_ok in Hl as ([|] & Hd & Hl); [|done]. cbn in Hl.
    apply elem_of_cons in Hu as [->|Hu]; [right; by eapply descends_anc|auto].
Qed.

Lemma not_locked_out {E} lt s descendants :
  knows descendants → is_locked_out (E:=E) lt s descendants = Ok false →
  let st' := process_slot_vote_unchecked s lt.(lt_lockouts) in
  (∀ v, v ∈ st'.(votes) → v.(slot) = s ∨ anc v.(slot) s) ∧
  (∀ r, st'.(root_slot) = Some r → anc r s).
Proof.
  intros Hk Hl. cbn zeta. unfold is_locked_out in Hl.
  set (st' := process_slot_vote_unchecked s (lt_lockouts lt)) in *.
  apply res_bind_ok in Hl as (b & Hb & Hl). destruct b; [done|].
  split; [by eapply locked_out_by_false|]. intros r Hr. rewrite Hr in Hl.
  apply res_bind_ok in Hl as ([|] & Hd & Hn); [|done]. by eapply descends_anc.
Qed.

(** A vote that has not expired is still in the simulated tower, or its root. *)
Lemma unexpired_kept s st v :
  v ∈ st.(votes) → is_expired v s = false →
  let st' := process_slot_vote_unchecked s st in
  v.(slot) ∈ slot <$> st'.(votes) ∨ st'.(root_slot) = Some v.(slot).
Proof.
  intros Hv He. cbn zeta. unfold process_slot_vote_unchecked.
  destruct (unchecked_not_rejected s Hash_default st) as [Hr| ->];
    [|left; by apply list_elem_of_fmap_2].
  destruct (process_vote_accepted _ _ _ Hr) as (kept & popped & Hvs & Hpop & _ & Hp).
  change (process_vote (mkVote s Hash_default) [(s, Hash_default)] st)
    with (process_vote_unchecked (mkVote s Hash_default) st) in Hp.
  rewrite Hvs in Hv. apply elem_of_app in Hv as [Hv|Hv]; cycle 1.
  { rewrite Forall_forall in Hpop. specialize (Hpop v Hv). cbn in Hpop. congruence. }
  unfold vote_pushed in Hp. case_decide.
  - destruct Hp as (oldest & rest & -> & ->). cbn. rewrite double_lockouts_slots, fmap_app.
    apply elem_of_cons in Hv as [->|Hv]; [by right|].
    left. apply elem_of_app. left. by apply list_elem_of_fmap_2.
  - rewrite Hp. left. cbn. rewrite double_lockouts_slots, fmap_app. apply elem_of_app. left.
    by apply list_elem_of_fmap_2.
Qed.

(** The lock tower of a validator that votes only where it is not locked out. *)
Inductive tower_history : Locktower → Prop :=
| th_new es depth size : tower_history (Locktower_new es depth size)
| th_epoch lt es :
    tower_history lt →
    tower_history (mkLocktower es lt.(lt_threshold_depth) lt.(lt_threshold_size)
      lt.(lt_lockouts) lt.(lt_recent_votes))
| th_vote lt s h descendants :
    tower_history lt → knows descendants →
    is_locked_out (E:=unit) lt s descendants = Ok false →
    tower_history (record_vote (E:=unit) s h lt).2.

Lemma one_fork_default : one_fork VoteState_default.
Proof.
  split; [apply (tower_ok_new Pubkey_default Pubkey_default 0)|..].
  - by intros i j u v Hu.
  - by intros r v Hr.
Qed.

Lemma history_one_fork lt : tower_history lt → one_fork lt.(lt_lockouts).
Proof.
  induction 1 as [es d t|lt es _ IH|lt s h D _ IH Hk Hl].
  - apply one_fork_default.
  - done.
  - destruct (not_locked_out lt s D Hk Hl) as [Hv Hr]. cbn zeta in Hv, Hr.
    rewrite <- (unchecked_hash s h) in Hv, Hr. by apply one_fork_vote.
Qed.

(** C3. A validator that votes only where it is not locked out votes on one
    fork: the votes of its tower are ancestors of one another in the order of
    their slots and descend from the root; the next slot it may vote for
    descends from every vote whose lockout has not expired; and every new root
    descends from the root before it. *)
Theorem locktower_safety lt (Hlt : tower_history lt) :
  (∀ u v, u ∈ lt.(lt_lockouts).(votes) → v ∈ lt.(lt_lockouts).(votes) →
     u.(slot) < v.(slot) → anc u.(slot) v.(slot)) ∧
  (∀ r v, lt.(lt_lockouts).(root_slot) = Some r → v ∈ lt.(lt_lockouts).(votes) → anc r v.(slot)) ∧
  ∀ s h descendants, knows descendants → is_locked_out (E:=unit) lt s descendants = Ok false →
    (∀ v, v ∈ lt.(lt_lockouts).(votes) → is_expired v s = false → v.(slot) = s ∨ anc v.(slot) s) ∧
    (∀ r r', lt.(lt_lockouts).(root_slot) = Some r →
       (record_vote (E:=unit) s h lt).1 = Ok (Some r') → anc r r').
Proof.
  pose proof (history_one_fork lt Hlt) as Hof. destruct (Hof) as [Hok Hc Hroot].
  split_and!; [|done|].
  - intros u v [i Hi]%list_elem_of_lookup [j Hj]%list_elem_of_lookup Hlt'.
    destruct (Nat.lt_trichotomy i j) as [Hij|[->|Hij]]; [by eapply Hc|simplify_eq; lia|].
    pose proof (tl_slots _ (tower_votes _ Hok) j i v u Hij Hj Hi). lia.
  - intros s h D Hk Hl. destruct (not_locked_out lt s D Hk Hl) as [Hv Hr]. cbn zeta in Hv, Hr.
    split.
    + intros v Hin He. destruct (unexpired_kept s _ v Hin He) as [Hs|Hs]; [|right; auto].
      apply list_elem_of_fmap in Hs as (w & -> & Hw). auto.
    + intros r r' Hrr Hrec. rewrite <- (unchecked_hash s h) in Hv, Hr.
      destruct (one_fork_vote s h _ Hof Hv Hr) as [_ Hsame].
      unfold record_vote in Hrec. cbn [fst] in Hrec. destruct Hsame as [He|(r2 & He & Hanc)].
      * rewrite He, bool_decide_true in Hrec by done. done.
      * rewrite He in Hrec. case_bool_decide; [done|]. cbn in Hrec. injection Hrec as <-. auto.
Qed.
End Forks.

(** ** The stake on a fork *)

Definition stake_at (m : gmap Z StakeLockout) (s : Z) : Z :=
  sl_stake (default StakeLockout_default (m !! s)).

Lemma update_lockouts_stake ancestors v m s :
  stake_at (update_ancestor_lockouts ancestors m v) s = stake_at m s.
Proof.
  unfold update_ancestor_lockouts. generalize (slot_with_ancestors ancestors (slot v)) as l.
  intros l. revert m. induction l as [|x l IH]; intros m; [done|]. cbn. rewrite IH.
  unfold stake_at. destruct (decide (x = s)) as [->|]; [by rewrite lookup_insert_eq|].
  by rewrite lookup_insert_ne.
Qed.

Lemma update_stakes_stake ancestors s0 d m s :
  s0 ∉ default ∅ (ancestors !! s0) →
  stake_at (update_ancestor_stakes ancestors m s0 d) s =
    if bool_decide (s ∈ slot_with_ancestors ancestors s0) then u64_add (stake_at m s) d
    else stake_at m s.
Proof.
  intros Hirr. unfold update_ancestor_stakes.
  assert (NoDup (slot_with_ancestors ancestors s0)) as Hnd.
  { apply NoDup_cons. split; [|apply NoDup_elements]. by rewrite elem_of_elements. }
  revert Hnd m. generalize (slot_with_ancestors ancestors s0) as l.
  induction l as [|x l IH]; intros Hnd m; [done|]. apply NoDup_cons in Hnd as [Hx Hnd]. cbn [foldl].
  rewrite IH by done. unfold stake_at. destruct (decide (x = s)) as [->|Hne].
  - rewrite lookup_insert_eq, bool_decide_false, bool_decide_true by set_solver. done.
  - rewrite lookup_insert_ne by done. by rewrite (bool_decide_ext (s ∈ x :: l) (s ∈ l)) by set_solver.
Qed.

Section Stake.
Context `{!Bincode VoteState}.

(** The vote below the simulated one: the last vote of the account that has not
    expired at [bank_slot]. *)
Definition last_vote (bank_slot : Z) (vs : VoteState) : option Z :=
  slot <$> nth_recent_vote 1 (process_slot_vote_unchecked bank_slot vs).

(** The stake of one account on the fork that ends in [s]. *)
Definition support (es : EpochStakes) (bank_slot : Z) (ancestors : Slots) (s : Z)
    (a : Pubkey * (Z * Account)) : Z :=
  let difs := default 0 (es.(es_stakes) !! a.1) in
  match VoteState_from a.2.2 with
  | Some vs =>
      match last_vote bank_slot vs with
      | Some v => if bool_decide (s ∈ slot_with_ancestors ancestors v) then difs else 0
      | None => 0
      end
  | None => 0
  end.

Lemma simulated_top bank_slot vs :
  (∀ v, last vs.(votes) = Some v → v.(slot) < bank_slot) →
  slot <$> nth_recent_vote 0 (process_slot_vote_unchecked bank_slot vs) = Some bank_slot.
Proof.
  intros Hl. unfold process_slot_vote_unchecked.
  assert (¬ rejected (mkVote bank_slot Hash_default) [(bank_slot, Hash_default)] vs) as Hr.
  { intros [(old & Ho & Hle)|Hn]; [specialize (Hl old Ho); cbn in Hle; lia|].
    apply Hn. by left. }
  destruct (process_vote_accepted _ _ _ Hr) as (kept & popped & _ & _ & _ & Hp).
  change (process_vote (mkVote bank_slot Hash_default) [(bank_slot, Hash_default)] vs)
    with (process_vote_unchecked (mkVote bank_slot Hash_default) vs) in Hp.
  assert (∃ l, votes (process_vote_unchecked (mkVote bank_slot Hash_default) vs) =
    double_lockouts (l ++ [Lockout_new (mkVote bank_slot Hash_default)])) as [l Hv].
  { unfold vote_pushed in Hp. case_decide.
    - destruct Hp as (oldest & rest & -> & ->). by exists rest.
    - rewrite Hp. by exists kept. }
  unfold nth_recent_vote. rewrite Hv, double_lockouts_length, length_app.
  cbn [length]. rewrite (proj2 (Nat.ltb_lt 0 (length l + 1))) by lia.
  rewrite <- list_lookup_fmap, double_lockouts_slots, fmap_app, lookup_app_r; rewrite length_fmap; [|lia].
  by replace (length l + 1 - 1 - 0 - length l)%nat with 0%nat by lia.
Qed.

Lemma collect_one_stake {E} bank_slot ancestors d vs m :
  (∀ v, last vs.(votes) = Some v → v.(slot) < bank_slot) →
  (∀ s, s ∉ default ∅ (ancestors !! s)) →
  ∃ m', collect_one (E:=E) bank_slot ancestors d vs m = Ok m' ∧
    ∀ s, stake_at m' s = match last_vote bank_slot vs with
      | Some v => if bool_decide (s ∈ slot_with_ancestors ancestors v)
                  then u64_add (stake_at m s) d else stake_at m s
      | None => stake_at m s
      end.
Proof.
  intros Hl Hirr. unfold collect_one, last_vote. rewrite (simulated_top _ _ Hl).
  rewrite bool_decide_true by done. cbn [negb].
  assert (∀ l m s, stake_at (foldl (update_ancestor_lockouts ancestors) m l) s = stake_at m s) as Hfold.
  { intros l. induction l as [|x l IH]; intros m0 s; [done|]. cbn [foldl].
    by rewrite IH, update_lockouts_stake. }
  set (st := process_slot_vote_unchecked bank_slot vs). set (m1 := foldl _ _ _).
  set (m2 := if negb _ then _ else m1). set (m3 := match root_slot st with Some _ => _ | None => m2 end).
  assert (∀ s, stake_at m3 s = stake_at m s) as H3.
  { intros s. unfold m3, m2, m1. repeat case_match; rewrite ?update_lockouts_stake; apply Hfold. }
  destruct (nth_recent_vote 1 st) as [v|]; cbn [fmap option_fmap option_map].
  - eexists. split; [done|]. intros s. rewrite update_stakes_stake by done. by rewrite H3.
  - eexists. split; [done|]. apply H3.
Qed.

(** The stake that the fork choice sees on a slot: when no vote account has
    voted at or after the bank's slot, collecting the votes succeeds and the
    stake recorded for a slot is the total epoch stake, modulo 2^64, of the
    vote accounts whose last unexpired vote is for that slot or a descendant
    of it, whatever the order of the accounts. *)
Theorem fork_stake_spec {E} lt bank_slot accounts ancestors
    (Hnewer : ∀ a vs v, a ∈ accounts → VoteState_from a.2.2 = Some vs →
       last vs.(votes) = Some v → v.(slot) < bank_slot)
    (Hirr : ∀ s, s ∉ default ∅ (ancestors !! s)) :
  ∃ m, collect_vote_lockouts (E:=E) lt bank_slot accounts ancestors = Ok m ∧
    ∀ s, stake_at m s =
      wrap64 (Zsum (support lt.(lt_epoch_stakes) bank_slot ancestors s <$> accounts)).
Proof.
  unfold collect_vote_lockouts. set (es := lt_epoch_stakes lt).
  assert (∀ m, (∀ s, is_u64 (stake_at m s)) → ∃ m',
    collect_loop (E:=E) es bank_slot ancestors accounts m = Ok m' ∧
    ∀ s, stake_at m' s = wrap64 (stake_at m s + Zsum (support es bank_slot ancestors s <$> accounts)))
    as Hloop; cycle 1.
  { assert (∀ s, stake_at ∅ s = 0) as H0 by (intros s; unfold stake_at; by rewrite lookup_empty).
    destruct (Hloop ∅) as (m' & Hm & Hs); [intros s; by rewrite H0|]. exists m'. split; [done|].
    intros s. by rewrite Hs, H0. }
  induction accounts as [|[k [st a]] accounts IH]; intros m Hm.
  { exists m. split; [done|]. intros s. cbn. rewrite Z.add_0_r, wrap64_small by done. done. }
  assert (∀ m0, (∀ s, is_u64 (stake_at m0 s)) →
    (∀ s, stake_at m0 s = wrap64 (stake_at m s + support es bank_slot ancestors s (k, (st, a)))) →
    ∃ m', collect_loop (E:=E) es bank_slot ancestors accounts m0 = Ok m' ∧
    ∀ s, stake_at m' s =
      wrap64 (stake_at m s + Zsum (support es bank_slot ancestors s <$> (k, (st, a)) :: accounts)))
    as Hstep.
  { intros m0 H0 Hs0. destruct (IH ltac:(intros; eapply Hnewer; [by right|done..]) m0 H0)
      as (m' & Hm' & Hs'). exists m'. split; [done|]. intros s. rewrite Hs', Hs0, wrap64_add_l.
    rewrite fmap_cons. cbn [Zsum]. f_equal. lia. }
  cbn [collect_loop]. unfold support in Hstep at 1. cbn [fst snd] in Hstep.
  destruct (Z.eqb_spec (default 0 (es_stakes es !! k)) 0) as [Hz|Hz].
  { apply Hstep; [done|]. intros s. rewrite Hz. symmetry.
    repeat case_match; rewrite Z.add_0_r, wrap64_small by done; done. }
  destruct (VoteState_from a) as [vs|] eqn:Hvs; cycle 1.
  { apply Hstep; [done|]. intros s. rewrite Z.add_0_r, wrap64_small by done. done. }
  destruct (collect_one_stake (E:=E) bank_slot ancestors (default 0 (es_stakes es !! k)) vs m)
    as (m1 & Hm1 & Hs1); [|done|].
  { intros v Hv. eapply (Hnewer (k, (st, a))); [by left|done..]. }
  rewrite Hm1. cbn. apply Hstep.
  - intros s. rewrite Hs1. repeat case_match; try done; apply wrap64_range.
  - intros s. rewrite Hs1. repeat case_match; try done; rewrite Z.add_0_r, wrap64_small by done; done.
Qed.
End Stake.
End locktower_proofs.

Module locktower_demo.
Import locktower locktower_proofs.

Definition demo_descendants : Slots := {[0 := {[1; 2]}; 1 := {[2]}; 2 := ∅]}.

Lemma demo_knows : knows Z.lt demo_descendants.
Proof.
  intros a b ds Ha Hb. unfold demo_descendants in Ha.
  apply lookup_insert_Some in Ha as [[<- <-]|[_ Ha]]; [set_unfold in Hb; lia|].
  apply lookup_insert_Some in Ha as [[<- <-]|[_ Ha]]; [set_unfold in Hb; lia|].
  apply lookup_singleton_Some in Ha as [<- <-]. set_solver.
Qed.

Definition demo_stakes : EpochStakes := EpochStakes_new 0 {[7 := 50]} 7.
Definition demo_tower : Locktower :=
  (record_vote (E:=unit) 1 9 (record_vote (E:=unit) 0 8
     (Locktower_new demo_stakes VOTE_THRESHOLD_DEPTH VOTE_THRESHOLD_SIZE)).2).2.

Lemma locktower_safety_witness :
  tower_history Z.lt demo_tower ∧ (slot <$> demo_tower.(lt_lockouts).(votes)) = [0; 1] ∧
  is_locked_out (E:=unit) demo_tower 2 demo_descendants = Ok false ∧ (1 = 2 ∨ 1 < 2).
Proof.
  assert (tower_history Z.lt demo_tower) as Hh.
  { apply (th_vote _ _ 1 9 demo_descendants); [|apply demo_knows|vm_compute; reflexivity].
    apply (th_vote _ _ 0 8 demo_descendants); [|apply demo_knows|vm_compute; reflexivity].
    apply th_new. }
  assert (is_locked_out (E:=unit) demo_tower 2 demo_descendants = Ok false) as Hl
    by (vm_compute; reflexivity).
  split; [exact Hh|]. split; [vm_compute; reflexivity|]. split; [exact Hl|].
  destruct (locktower_safety Z.lt demo_tower Hh) as (_ & _ & Hnext).
  destruct (Hnext 2 0 demo_descendants demo_knows Hl) as [Hv _].
  apply (Hv (mkLockout 1 1)); [|vm_compute; reflexivity].
  right. left.
Defined.

#[local] Instance demo_vote_bincode : Bincode VoteState := codec_bincode VoteState_codec.

Definition demo_voter : Pubkey * (Z * Account) :=
  (7, (50, mkAccount 1 0 (serialize (mkVoteState [mkLockout 3 1] 2 9 0 None 0)) vote_program.id
    false)).
Definition demo_ancestors : Slots := {[3 := {[1]}]}.

Lemma fork_stake_spec_witness :
  ∃ m, collect_vote_lockouts (E:=unit) demo_tower 5 [demo_voter] demo_ancestors = Ok m ∧
    stake_at m 1 = 50.
Proof.
  destruct (fork_stake_spec (E:=unit) demo_tower 5 [demo_voter] demo_ancestors) as (m & Hm & Hs).
  - intros a vs v Ha Hvs Hv. apply list_elem_of_singleton in Ha as ->.
    assert (VoteState_from demo_voter.2.2 = Some (mkVoteState [mkLockout 3 1] 2 9 0 None 0)) as Hd
      by (vm_compute; reflexivity).
    rewrite Hd in Hvs. injection Hvs as <-. injection Hv as <-. reflexivity.
  - intros s. unfold demo_ancestors. destruct (decide (s = 3)) as [->|Hne].
    + rewrite lookup_singleton_eq. cbn. set_solver.
    + rewrite lookup_singleton_ne by done. set_solver.
  - exists m. split; [exact Hm|]. rewrite Hs. vm_compute. reflexivity.
Defined.
End locktower_demo.
