(* ===== verification/BankForks.v ===== *)
(** * The forks of the bank

    core/src/treasuryForks.rs: the banks that are not behind the root, the
    relations between their slots that fork selection reads, and moving the
    root.  A bank is the record of what this code reads of it; [squash] of the
    root bank works on the accounts and the status cache and is modelled with
    the bank. *)

From S2P Require Import Prelude Interface Codec Float VoteState StakingUtils ForkSelection.

Module bank_forks.

Record ForkBank := mkForkBank {
  fb_slot : Z;
  fb_ancestors : gset Z;
  fb_frozen : bool
}.

Record BankForks := mkBankForks {
  banks : gmap Z ForkBank;
  working_bank : ForkBank;
  forks_root : Z
}.

Definition BankForks_new (bank_slot : Z) (bank : ForkBank) : BankForks :=
  mkBankForks {[bank_slot := bank]} bank 0.

(** [&self.banks[&bank_slot]] *)
Definition forks_index {E} (f : BankForks) (bank_slot : Z) : res E ForkBank :=
  unwrap (f.(banks) !! bank_slot).

(** The loops over [self.banks.values()]. *)
Definition bank_values (f : BankForks) : list ForkBank := (map_to_list f.(banks)).*2.

Definition ancestors (f : BankForks) : gmap Z (gset Z) :=
  foldl (λ m bank, <[bank.(fb_slot) := bank.(fb_ancestors) ∖ {[bank.(fb_slot)]}]> m)
    ∅ (bank_values f).

(** [descendants.entry(parent).or_insert(..).insert(slot)] *)
Definition add_descendant (slot : Z) (m : gmap Z (gset Z)) (parent : Z) : gmap Z (gset Z) :=
  <[parent := {[slot]} ∪ default ∅ (m !! parent)]> m.

Definition descendants (f : BankForks) : gmap Z (gset Z) :=
  foldl (λ m bank,
    let m := <[bank.(fb_slot) := default ∅ (m !! bank.(fb_slot))]> m in
    let set := bank.(fb_ancestors) ∖ {[bank.(fb_slot)]} in
    foldl (add_descendant bank.(fb_slot)) m (elements set))
    ∅ (bank_values f).

Definition frozen_banks (f : BankForks) : gmap Z ForkBank :=
  filter (λ kb, kb.2.(fb_frozen) = true) f.(banks).

Definition active_banks (f : BankForks) : list Z :=
  (filter (λ kb, kb.2.(fb_frozen) = false) (map_to_list f.(banks))).*1.

Definition get (f : BankForks) (bank_slot : Z) : option ForkBank := f.(banks) !! bank_slot.

Definition new_from_banks {E} (initial_banks : list ForkBank) (root : Z) : res E BankForks :=
  working_bank ← unwrap (head initial_banks);
  Ok (mkBankForks (foldl (λ m bank, <[bank.(fb_slot) := bank]> m) ∅ initial_banks)
        working_bank root).

(** The assertion comes after the insertion. *)
Definition insert {E} (bank : ForkBank) : M BankForks E unit :=
  f ← getM;
  let prev := f.(banks) !! bank.(fb_slot) in
  putM (mkBankForks (<[bank.(fb_slot) := bank]> f.(banks)) f.(working_bank) f.(forks_root));;
  if bool_decide (is_Some prev) then liftM Panic
  else
  f ← getM;
  putM (mkBankForks f.(banks) bank f.(forks_root)).

Definition prune_non_root {E} (root : Z) : M BankForks E unit :=
  f ← getM;
  if bool_decide (f.(banks) = ∅) then mret tt
  else match descendants f !! root with
  | None => liftM Panic
  | Some ds =>
      putM (mkBankForks (filter (λ kb, kb.1 ∈ ds) f.(banks)) f.(working_bank) f.(forks_root))
  end.

Definition set_root {E} (root : Z) : M BankForks E unit :=
  f ← getM;
  putM (mkBankForks f.(banks) f.(working_bank) root);;
  match f.(banks) !! root with
  | None => liftM Panic
  | Some root_bank => prune_non_root root
  end.
End bank_forks.

Module bank_forks_proofs.
Import bank_forks vote_state locktower.

(** Slot [a] is a strict ancestor of the bank at slot [b]. *)
Definition strict_ancestor (f : BankForks) (a b : Z) : Prop :=
  ∃ bank, f.(banks) !! b = Some bank ∧ a ∈ bank.(fb_ancestors) ∧ a ≠ b.

(** Slots that the forks mention: those of the banks and of their ancestors. *)
Definition known (f : BankForks) (a : Z) : Prop :=
  ∃ b bank, f.(banks) !! b = Some bank ∧ a ∈ bank.(fb_ancestors).

(** Every bank is filed under its slot, and is one of its own ancestors, of
    which there are the ancestors of its ancestors. *)
Record forks_ok (f : BankForks) : Prop := {
  forks_slot : ∀ s bank, f.(banks) !! s = Some bank →
    bank.(fb_slot) = s ∧ s ∈ bank.(fb_ancestors);
  forks_trans : ∀ a b bank_a bank_b, f.(banks) !! a = Some bank_a → f.(banks) !! b = Some bank_b →
    a ∈ bank_b.(fb_ancestors) → bank_a.(fb_ancestors) ⊆ bank_b.(fb_ancestors);
  forks_order : ∀ b bank a, f.(banks) !! b = Some bank → a ∈ bank.(fb_ancestors) → a ≤ b
}.

(** ** The maps of descendants and ancestors *)

Lemma add_descendants_lookup s xs : ∀ m a,
  (is_Some (foldl (add_descendant s) m xs !! a) ↔ is_Some (m !! a) ∨ a ∈ xs) ∧
  ∀ b, b ∈ default ∅ (foldl (add_descendant s) m xs !! a) ↔
       b ∈ default ∅ (m !! a) ∨ (b = s ∧ a ∈ xs).
Proof.
  induction xs as [|x xs IH]; intros m a; cbn [foldl].
  { set_solver. }
  destruct (IH (add_descendant s m x) a) as [IH1 IH2]. unfold add_descendant in IH1, IH2 |- * at 1 2.
  split.
  - rewrite IH1, lookup_insert_is_Some, elem_of_cons. destruct (decide (x = a)); naive_solver.
  - intros b. rewrite IH2, elem_of_cons. destruct (decide (x = a)) as [->|Hne].
    + rewrite lookup_insert_eq. cbn. set_solver.
    + rewrite lookup_insert_ne by done. naive_solver.
Qed.

Definition add_bank (m : gmap Z (gset Z)) (bank : ForkBank) : gmap Z (gset Z) :=
  let m := <[bank.(fb_slot) := default ∅ (m !! bank.(fb_slot))]> m in
  let set := bank.(fb_ancestors) ∖ {[bank.(fb_slot)]} in
  foldl (add_descendant bank.(fb_slot)) m (elements set).

Lemma add_bank_lookup m bank a :
  (is_Some (add_bank m bank !! a) ↔
     is_Some (m !! a) ∨ a = bank.(fb_slot) ∨ a ∈ bank.(fb_ancestors)) ∧
  ∀ b, b ∈ default ∅ (add_bank m bank !! a) ↔
       b ∈ default ∅ (m !! a) ∨ (b = bank.(fb_slot) ∧ a ∈ bank.(fb_ancestors) ∧ a ≠ b).
Proof.
  unfold add_bank. set (s := fb_slot bank). set (m' := <[_ := _]> m).
  destruct (add_descendants_lookup s (elements (fb_ancestors bank ∖ {[s]})) m' a) as [H1 H2].
  assert (is_Some (m' !! a) ↔ is_Some (m !! a) ∨ a = s) as Hm.
  { unfold m'. rewrite lookup_insert_is_Some. destruct (decide (s = a)); naive_solver. }
  assert (default ∅ (m' !! a) = default ∅ (m !! a)) as Hd.
  { unfold m'. destruct (decide (s = a)) as [->|]; [by rewrite lookup_insert_eq|].
    by rewrite lookup_insert_ne. }
  split.
  - rewrite H1, Hm, elem_of_elements, elem_of_difference, elem_of_singleton.
    destruct (decide (a = s)); tauto.
  - intros b. rewrite H2, Hd, elem_of_elements, elem_of_difference, elem_of_singleton.
    split; [intros [?|(-> & ? & ?)]; auto|intros [?|(-> & ? & ?)]; auto].
Qed.

Lemma add_banks_lookup l a :
  (is_Some (foldl add_bank ∅ l !! a) ↔
     ∃ bank, bank ∈ l ∧ (a = bank.(fb_slot) ∨ a ∈ bank.(fb_ancestors))) ∧
  ∀ b, b ∈ default ∅ (foldl add_bank ∅ l !! a) ↔
       ∃ bank, bank ∈ l ∧ b = bank.(fb_slot) ∧ a ∈ bank.(fb_ancestors) ∧ a ≠ b.
Proof.
  induction l as [|bank l [IH1 IH2]] using rev_ind.
  { cbn. rewrite lookup_empty. split; [|intros b]; (split; [|by intros (? & []%not_elem_of_nil & _)]).
    - by intros [].
    - cbn. set_solver. }
  rewrite foldl_snoc. destruct (add_bank_lookup (foldl add_bank ∅ l) bank a) as [H1 H2].
  split.
  - rewrite H1, IH1. setoid_rewrite elem_of_app. setoid_rewrite list_elem_of_singleton.
    naive_solver.
  - intros b. rewrite H2, IH2. setoid_rewrite elem_of_app. setoid_rewrite list_elem_of_singleton.
    split.
    + intros [(bk & Hin & Hr)|Hr]; [exists bk; tauto|exists bank; tauto].
    + intros (bk & [Hin| ->] & Hr); [left; eauto|right; exact Hr].
Qed.

Lemma elem_of_bank_values f bank : bank ∈ bank_values f ↔ ∃ s, f.(banks) !! s = Some bank.
Proof.
  unfold bank_values. rewrite list_elem_of_fmap. split.
  - intros ([s b] & -> & H%elem_of_map_to_list). by exists s.
  - intros [s H]. exists (s, bank). by rewrite elem_of_map_to_list.
Qed.

Section Forks.
Context (f : BankForks) (Hf : forks_ok f).

Lemma descendants_known a : is_Some (descendants f !! a) ↔ known f a.
Proof.
  change (descendants f) with (foldl add_bank ∅ (bank_values f)).
  rewrite (proj1 (add_banks_lookup _ _)). unfold known. setoid_rewrite elem_of_bank_values. split.
  - intros (bank & [s Hs] & Ha). exists s, bank. split; [done|].
    destruct (forks_slot _ Hf _ _ Hs) as [<- Hin]. by destruct Ha as [->|].
  - intros (s & bank & Hs & Ha). eauto.
Qed.

Lemma descendants_elem a b : b ∈ default ∅ (descendants f !! a) ↔ strict_ancestor f a b.
Proof.
  change (descendants f) with (foldl add_bank ∅ (bank_values f)).
  rewrite (proj2 (add_banks_lookup _ _)). unfold strict_ancestor.
  setoid_rewrite elem_of_bank_values. split.
  - intros (bank & [s Hs] & -> & Ha & Hne). destruct (forks_slot _ Hf _ _ Hs) as [Heq _].
    rewrite Heq in *. eauto.
  - intros (bank & Hb & Ha & Hne). exists bank. destruct (forks_slot _ Hf _ _ Hb). eauto.
Qed.

Lemma descendants_lookup a ds b :
  descendants f !! a = Some ds → b ∈ ds ↔ strict_ancestor f a b.
Proof. intros Ha. rewrite <-descendants_elem, Ha. done. Qed.

Lemma descends_known {E} a b : known f a →
  ∃ d, descends (E:=E) (descendants f) a b = Ok d ∧ (d = true ↔ strict_ancestor f a b).
Proof.
  intros [ds Hds]%descendants_known. unfold descends. rewrite Hds. eexists. split; [done|].
  rewrite bool_decide_eq_true. by apply descendants_lookup.
Qed.

Lemma locked_out_by_known {E} s vs : (∀ v, v ∈ vs → v.(slot) ≠ s → known f v.(slot)) →
  ∃ l, locked_out_by (E:=E) (descendants f) s vs = Ok l ∧
    (l = false ↔ ∀ v, v ∈ vs → v.(slot) = s ∨ strict_ancestor f v.(slot) s).
Proof.
  induction vs as [|v vs IH]; intros Hk; cbn [locked_out_by].
  { exists false. split; [done|]. split; [|done]. by intros _ v Hv%not_elem_of_nil. }
  destruct IH as (l & Hl & Hiff); [intros; apply Hk; set_solver|].
  destruct (Z.eqb_spec (slot v) s) as [Heq|Hne].
  { exists l. split; [done|]. rewrite Hiff. setoid_rewrite elem_of_cons. naive_solver. }
  destruct (descends_known (E:=E) (slot v) s) as (d & -> & Hd); [apply Hk; [left|done]|].
  destruct d; cbn.
  - exists l. split; [done|]. rewrite Hiff. setoid_rewrite elem_of_cons. naive_solver.
  - exists true. split; [done|]. split; [done|]. intros Hall.
    destruct (Hall v ltac:(left)) as [|Ha]; [done|]. by apply Hd in Ha.
Qed.
End Forks.

(** ** Moving the root *)

Lemma prune_forks_ok f (ds : gset Z) w r :
  forks_ok f → forks_ok (mkBankForks (filter (λ kb, kb.1 ∈ ds) f.(banks)) w r).
Proof.
  intros [H1 H2 H3]. split; cbn.
  - intros s bank [Hs _]%map_lookup_filter_Some. auto.
  - intros a b ba bb [Ha _]%map_lookup_filter_Some [Hb _]%map_lookup_filter_Some. eauto.
  - intros b bank a [Hb _]%map_lookup_filter_Some. eauto.
Qed.

(** Moving the root.  [set_root] of a slot that has a bank keeps exactly the
    banks that descend from it, so that the bank of the root itself is dropped;
    the relations between the banks that are left do not change, and stay
    well-formed.  Without a bank it panics. *)
Theorem set_root_keeps_descendants {E} f root (Hf : forks_ok f) :
  match f.(banks) !! root with
  | None => (set_root (E:=E) root f).1 = Panic
  | Some _ => ∃ f', set_root (E:=E) root f = (Ok tt, f') ∧ forks_ok f' ∧
      f'.(forks_root) = root ∧ get f' root = None ∧
      (∀ s bank, get f' s = Some bank ↔ get f s = Some bank ∧ strict_ancestor f root s) ∧
      (∀ a b, is_Some (get f' b) → strict_ancestor f' a b ↔ strict_ancestor f a b)
  end.
Proof.
  destruct (banks f !! root) as [rb|] eqn:Hroot; unfold set_root, get; unfold_monad;
    rewrite Hroot; [|done].
  unfold prune_non_root. unfold_monad. cbn [banks].
  rewrite bool_decide_eq_false_2 by (intros He; by rewrite He, lookup_empty in Hroot).
  set (f1 := mkBankForks (banks f) (working_bank f) root).
  assert (forks_ok f1) as Hf1 by (by destruct Hf; split).
  assert (known f1 root) as [ds Hds]%descendants_known.
  { exists root, rb. split; [done|]. by apply (forks_slot _ Hf). }
  2: done.
  rewrite Hds. eexists. split; [done|]. split; [by apply (prune_forks_ok f1)|].
  assert (∀ s bank, filter (λ kb, kb.1 ∈ ds) (banks f) !! s = Some bank ↔
            banks f !! s = Some bank ∧ strict_ancestor f root s) as Hkeep.
  { intros s bank. rewrite map_lookup_filter_Some. cbn.
    by rewrite (descendants_lookup f1 Hf1 root ds s Hds). }
  split_and!; cbn; [done| |done|].
  - apply eq_None_not_Some. intros [bank Hb]. apply Hkeep in Hb as [_ (? & _ & _ & Hne)]. done.
  - intros a b [bank Hb]. apply Hkeep in Hb as [Hb Hrb]. unfold strict_ancestor. cbn.
    setoid_rewrite Hkeep. naive_solver.
Qed.

(** The lockout check on the forks of the bank.  As long as the forks know
    the votes of the tower and its root, [is_locked_out] does not panic, and it
    answers no for a slot exactly when the slot descends from the root and from
    every vote that its own vote would not expire. *)
Theorem lockout_on_forks {E} f lt s (Hf : forks_ok f) :
  let st := process_slot_vote_unchecked s lt.(lt_lockouts) in
  (∀ v, v ∈ st.(votes) → v.(slot) ≠ s → known f v.(slot)) →
  (∀ r, st.(root_slot) = Some r → known f r) →
  ∃ l, is_locked_out (E:=E) lt s (descendants f) = Ok l ∧
    (l = false ↔
      (∀ v, v ∈ st.(votes) → v.(slot) = s ∨ strict_ancestor f v.(slot) s) ∧
      (∀ r, st.(root_slot) = Some r → strict_ancestor f r s)).
Proof.
  cbn zeta. intros Hvotes Hroot. unfold is_locked_out.
  destruct (locked_out_by_known (E:=E) f Hf s _ Hvotes) as (l & -> & Hl).
  cbn [mbind res_bind]. destruct l.
  { exists true. split; [done|]. split; [done|]. by intros [H%Hl _]. }
  destruct (root_slot _) as [r|].
  - destruct (descends_known (E:=E) f Hf r s (Hroot r eq_refl)) as (d & -> & Hd).
    exists (negb d). split; [done|]. rewrite negb_false_iff, Hd. naive_solver.
  - exists false. split; [done|]. naive_solver.
Qed.
End bank_forks_proofs.

Module bank_forks_demo.
Import bank_forks vote_state locktower bank_forks_proofs.

(** Slot 1 and 3 follow 0, and 2 follows 1. *)
Definition demo_forks : BankForks :=
  mkBankForks {[0 := mkForkBank 0 {[0]} true; 1 := mkForkBank 1 {[0; 1]} true;
                2 := mkForkBank 2 {[0; 1; 2]} false; 3 := mkForkBank 3 {[0; 3]} false]}
    (mkForkBank 3 {[0; 3]} false) 0.

Lemma demo_lookup s bank : demo_forks.(banks) !! s = Some bank ↔
  (s = 0 ∧ bank = mkForkBank 0 {[0]} true) ∨ (s = 1 ∧ bank = mkForkBank 1 {[0; 1]} true) ∨
  (s = 2 ∧ bank = mkForkBank 2 {[0; 1; 2]} false) ∨ (s = 3 ∧ bank = mkForkBank 3 {[0; 3]} false).
Proof.
  cbn [demo_forks banks].
  rewrite !lookup_insert_Some, lookup_singleton_Some. intuition (subst; (done || lia)).
Qed.

Lemma demo_forks_ok : forks_ok demo_forks.
Proof.
  split.
  - intros s bank [[-> ->]|[[-> ->]|[[-> ->]|[-> ->]]]]%demo_lookup; cbn; set_solver.
  - intros a b ba bb Ha%demo_lookup Hb%demo_lookup.
    destruct Ha as [[-> ->]|[[-> ->]|[[-> ->]|[-> ->]]]];
      destruct Hb as [[-> ->]|[[-> ->]|[[-> ->]|[-> ->]]]]; cbn; set_solver.
  - intros b bank a [[-> ->]|[[-> ->]|[[-> ->]|[-> ->]]]]%demo_lookup; cbn; set_unfold; lia.
Qed.

Lemma set_root_keeps_descendants_witness :
  ∃ f', set_root (E:=unit) 1 demo_forks = (Ok tt, f') ∧ get f' 1 = None.
Proof.
  pose proof (set_root_keeps_descendants (E:=unit) demo_forks 1 demo_forks_ok) as H.
  assert (banks demo_forks !! 1 = Some (mkForkBank 1 {[0; 1]} true)) as Hb
    by (vm_compute; reflexivity).
  rewrite Hb in H. destruct H as (f' & Hs & _ & _ & Hg & _). by exists f'.
Defined.

Definition demo_tower : Locktower :=
  (record_vote (E:=unit) 1 9 (record_vote (E:=unit) 0 8
     (Locktower_new (EpochStakes_new 0 {[7 := 50]} 7) VOTE_THRESHOLD_DEPTH
        VOTE_THRESHOLD_SIZE)).2).2.

Lemma lockout_on_forks_witness :
  ∃ l, is_locked_out (E:=unit) demo_tower 3 (descendants demo_forks) = Ok l ∧ l = true.
Proof.
  destruct (lockout_on_forks (E:=unit) demo_forks demo_tower 3 demo_forks_ok) as (l & Hl & _).
  - assert (votes (process_slot_vote_unchecked 3 (lt_lockouts demo_tower)) =
      [mkLockout 0 3; mkLockout 1 2; mkLockout 3 1]) as -> by (vm_compute; reflexivity).
    intros v Hv _. apply elem_of_cons in Hv as [->|Hv].
    { exists 0, (mkForkBank 0 {[0]} true). split; [vm_compute; reflexivity|set_solver]. }
    apply elem_of_cons in Hv as [->|Hv%list_elem_of_singleton].
    + exists 1, (mkForkBank 1 {[0; 1]} true). split; [vm_compute; reflexivity|set_solver].
    + subst v. exists 3, (mkForkBank 3 {[0; 3]} false). split; [vm_compute; reflexivity|set_solver].
  - assert (root_slot (process_slot_vote_unchecked 3 (lt_lockouts demo_tower)) = None) as ->
      by (vm_compute; reflexivity). done.
  - exists l. split; [exact Hl|].
    assert (is_locked_out (E:=unit) demo_tower 3 (descendants demo_forks) = Ok true) as Hv
      by (vm_compute; reflexivity).
    rewrite Hl in Hv. by injection Hv.
Defined.
End bank_forks_demo.
