(* ===== verification/LeaderSchedule.v ===== *)
(** * The leader schedule

    core/src/leaderArrange.rs (the stake-weighted schedule of an epoch),
    leaderArrangeUtils.rs (the schedule of a bank) and leaderArrangeCache.rs
    (the cache of schedules and the next slot of a leader).

    The rand and rand_chacha crates are the parameter [weighted_index]: for the
    weights it gives no distribution ([WeightedIndex::new] fails) or the samples
    that a seeded generator draws, by their number. *)

From stdpp Require Import sorting.
From Stdlib Require Import Sorting.Mergesort Sorting.Sorted Structures.Orders.
From S2P Require Import Prelude Interface Codec Float VoteState EpochSchedule StakingUtils.

Import vote_state.

Module leader_schedule.

Definition NUM_CONSECUTIVE_LEADER_SLOTS : Z := 8.

Record LeaderSchedule := mkLeaderSchedule { slot_leaders : list Pubkey }.

Section Schedule.
Context (weighted_index : list Z → option (list Z → nat → nat)).

(** The closure over [0..len]: [k] samples have been drawn. *)
Fixpoint leaders_loop {E} (ids : list Pubkey) (sample : nat → nat) (repeat : Z) (n : nat) (i : Z)
    (k : nat) (current_node : Pubkey) : res E (list Pubkey) :=
  match n with
  | O => Ok []
  | S n' =>
      if repeat =? 0 then Panic
      else if i mod repeat =? 0 then
        node ← unwrap (ids !! sample k);
        rest ← leaders_loop ids sample repeat n' (i + 1) (S k) node;
        Ok (node :: rest)
      else
        rest ← leaders_loop ids sample repeat n' (i + 1) k current_node;
        Ok (current_node :: rest)
  end.

Definition LeaderSchedule_new {E} (ids_and_stakes : list (Pubkey * Z)) (seed : list Z)
    (len repeat : Z) : res E LeaderSchedule :=
  match weighted_index ids_and_stakes.*2 with
  | None => Panic
  | Some sample =>
      leaders ← leaders_loop ids_and_stakes.*1 (sample seed) repeat (Z.to_nat len) 0 0 Pubkey_default;
      Ok (mkLeaderSchedule leaders)
  end.

(** [Index]: the remainder by the length panics for an empty schedule. *)
Definition schedule_index {E} (s : LeaderSchedule) (index : Z) : res E Pubkey :=
  let n := Z.of_nat (length s.(slot_leaders)) in
  if n =? 0 then Panic else unwrap (s.(slot_leaders) !! Z.to_nat (index mod n)).
End Schedule.
End leader_schedule.

Module leader_schedule_utils.
Import leader_schedule.

(** The order of [sort_stakes]: the greater stake first, then the greater
    key. *)
Module StakeOrder <: TotalLeBool'.
Definition t : Type := Pubkey * Z.
Definition leb (l r : t) : bool :=
  if r.2 =? l.2 then r.1 <=? l.1 else r.2 <=? l.2.
Infix "<=?" := leb.
Lemma stake_leb_total x y : leb x y = true ∨ leb y x = true.
Proof.
  unfold leb. rewrite (Z.eqb_sym x.2). destruct (Z.eqb_spec y.2 x.2); rewrite !Z.leb_le; lia.
Qed.
Definition leb_total := stake_leb_total.
End StakeOrder.
Module StakeSort := Sort StakeOrder.

(** [Vec::dedup] *)
Fixpoint dedup {A} `{EqDecision A} (l : list A) : list A :=
  match l with
  | x :: ((y :: _) as l') => if bool_decide (x = y) then dedup l' else x :: dedup l'
  | _ => l
  end.

Definition sort_stakes (stakes : list (Pubkey * Z)) : list (Pubkey * Z) :=
  dedup (StakeSort.sort stakes).

(** [epoch_height.to_le_bytes()] in the first bytes of the seed *)
Definition epoch_seed (epoch_height : Z) : list Z := le_enc 8 epoch_height ++ replicate 24 0.

Section Utils.
Context `{!Bincode VoteState}.
Context (weighted_index : list Z → option (list Z → nat → nat)).

Definition bank_leader_schedule {E} (epoch_height : Z) (bank : BankView)
    : res E (option LeaderSchedule) :=
  match staking_utils.staked_nodes_at_epoch bank epoch_height with
  | None => Ok None
  | Some stakes =>
      let stakes := sort_stakes (map_to_list stakes) in
      s ← LeaderSchedule_new weighted_index stakes (epoch_seed epoch_height)
            (bank.(bv_slots_in_epoch) epoch_height) NUM_CONSECUTIVE_LEADER_SLOTS;
      Ok (Some s)
  end.

Definition slot_leader_at {E} (s : Z) (bank : BankView) : res E (option Pubkey) :=
  let '(epoch, slot_index) := bank.(bv_epoch_and_index) s in
  schedule ← bank_leader_schedule epoch bank;
  match schedule with
  | Some schedule => leader ← schedule_index schedule slot_index; Ok (Some leader)
  | None => Ok None
  end.
End Utils.

(** Both divide by [ticks_per_slot], which panics for zero. *)
Definition num_ticks_left_in_slot {E} (ticks_per_slot tick_height : Z) : res E Z :=
  if ticks_per_slot =? 0 then Panic
  else Ok (u64_sub (u64_sub ticks_per_slot (tick_height mod ticks_per_slot)) 1).

Definition tick_height_to_slot {E} (ticks_per_slot tick_height : Z) : res E Z :=
  if ticks_per_slot =? 0 then Panic else Ok (tick_height / ticks_per_slot).
End leader_schedule_utils.

Module leader_schedule_cache.
Import leader_schedule leader_schedule_utils.

Definition MAX_SCHEDULES : nat := 10.

Record LeaderScheduleCache := mkCache {
  cached_schedules : gmap Z LeaderSchedule;
  cache_order : list Z;
  cache_epoch_schedule : epoch_schedule.EpochSchedule;
  max_epoch : Z
}.

Definition set_root (root : Z) (c : LeaderScheduleCache) : LeaderScheduleCache :=
  mkCache c.(cached_schedules) c.(cache_order) c.(cache_epoch_schedule)
    (epoch_schedule.get_stakers_epoch c.(cache_epoch_schedule) root).

Definition Cache_new (es : epoch_schedule.EpochSchedule) (root : Z) : LeaderScheduleCache :=
  set_root root (mkCache ∅ [] es 0).

Definition retain_latest {E} (schedules : gmap Z LeaderSchedule) (order : list Z)
    : res E (gmap Z LeaderSchedule * list Z) :=
  if (MAX_SCHEDULES <? size schedules)%nat then
    match order with
    | first :: order' => Ok (delete first schedules, order')
    | [] => Panic
    end
  else Ok (schedules, order).

Section Cache.
Context `{!Bincode VoteState}.
Context (weighted_index : list Z → option (list Z → nat → nat)).

Definition compute_epoch_schedule {E} (epoch : Z) (bank : BankView)
    : M LeaderScheduleCache E (option LeaderSchedule) :=
  schedule ← liftM (bank_leader_schedule weighted_index epoch bank);
  match schedule with
  | None => mret None
  | Some schedule =>
      c ← getM;
      match c.(cached_schedules) !! epoch with
      | Some _ => mret (Some schedule)
      | None =>
          '(schedules, order) ← liftM (retain_latest (<[epoch := schedule]> c.(cached_schedules))
                                         (c.(cache_order) ++ [epoch]));
          putM (mkCache schedules order c.(cache_epoch_schedule) c.(max_epoch));;
          mret (Some schedule)
      end
  end.

Definition get_epoch_schedule_else_compute {E} (epoch : Z) (bank : BankView)
    : M LeaderScheduleCache E (option LeaderSchedule) :=
  c ← getM;
  match c.(cached_schedules) !! epoch with
  | Some schedule => mret (Some schedule)
  | None => compute_epoch_schedule epoch bank
  end.

Definition slot_leader_at_no_compute {E} (s : Z) : M LeaderScheduleCache E (option Pubkey) :=
  c ← getM;
  let '(epoch, slot_index) :=
    epoch_schedule.get_epoch_and_slot_index c.(cache_epoch_schedule) s in
  match c.(cached_schedules) !! epoch with
  | Some schedule => leader ← liftM (schedule_index schedule slot_index); mret (Some leader)
  | None => mret None
  end.

Definition slot_leader_at_else_compute {E} (s : Z) (bank : BankView)
    : M LeaderScheduleCache E (option Pubkey) :=
  cache_result ← slot_leader_at_no_compute s;
  c ← getM;
  let bank_epoch := (epoch_schedule.get_epoch_and_slot_index c.(cache_epoch_schedule) s).1 in
  if c.(max_epoch) <? bank_epoch then mret None
  else match cache_result with
  | Some leader => mret (Some leader)
  | None =>
      let '(epoch, slot_index) := bank.(bv_epoch_and_index) s in
      schedule ← compute_epoch_schedule epoch bank;
      match schedule with
      | Some schedule => leader ← liftM (schedule_index schedule slot_index); mret (Some leader)
      | None => mret None
      end
  end.

Definition cache_slot_leader_at {E} (s : Z) (bank : option BankView)
    : M LeaderScheduleCache E (option Pubkey) :=
  match bank with
  | Some bank => slot_leader_at_else_compute s bank
  | None => slot_leader_at_no_compute s
  end.

(** The inner [for i in start_index..slots_in_epoch]: [Some] of the answer, or
    the slot reached at the end of the epoch.  [received] says for which slots
    the block store has data; it is [None] without a block store. *)
Fixpoint scan_epoch {E} (pubkey : Pubkey) (received : option (Z → bool)) (schedule : LeaderSchedule)
    (n : nat) (i current_slot : Z) : res E (option Z * Z) :=
  match n with
  | O => Ok (None, current_slot)
  | S n' =>
      let current_slot := u64_add current_slot 1 in
      leader ← schedule_index schedule i;
      if (pubkey =? leader) &&
         negb (match received with Some has => has current_slot | None => false end)
      then Ok (Some current_slot, current_slot)
      else scan_epoch pubkey received schedule n' (i + 1) current_slot
  end.

(** The [while let] over the epochs; [None] when the fuel runs out. *)
Fixpoint next_leader_loop {E} (fuel : nat) (pubkey : Pubkey) (received : option (Z → bool))
    (bank : BankView) (epoch start_index current_slot : Z)
    : M LeaderScheduleCache E (option (option Z)) :=
  match fuel with
  | O => mret None
  | S fuel' =>
      schedule ← get_epoch_schedule_else_compute epoch bank;
      match schedule with
      | None => mret (Some None)
      | Some schedule =>
          '(found, current_slot) ← liftM (scan_epoch pubkey received schedule
             (Z.to_nat (bank.(bv_slots_in_epoch) epoch - start_index)) start_index current_slot);
          match found with
          | Some s => mret (Some (Some s))
          | None => next_leader_loop fuel' pubkey received bank (u64_add epoch 1) 0 current_slot
          end
      end
  end.

Definition next_leader_slot {E} (fuel : nat) (pubkey : Pubkey) (current_slot : Z) (bank : BankView)
    (received : option (Z → bool)) : M LeaderScheduleCache E (option (option Z)) :=
  let '(epoch, start_index) := bank.(bv_epoch_and_index) (u64_add current_slot 1) in
  next_leader_loop fuel pubkey received bank epoch start_index current_slot.
End Cache.
End leader_schedule_cache.

Module leader_schedule_proofs.
Import leader_schedule leader_schedule_utils leader_schedule_cache.

(** ** The schedule of an epoch *)

(** [i] slots are done, [k = ceil (i / repeat)] samples are drawn, and the
    current node is the last of them. *)
Lemma leaders_loop_spec {E} ids sample repeat n : ∀ i k cur,
  0 < repeat → 0 ≤ i → (∀ j, (sample j < length ids)%nat) →
  Z.of_nat k = (i + repeat - 1) / repeat →
  (i mod repeat ≠ 0 → ids !! sample (Z.to_nat (i / repeat)) = Some cur) →
  ∃ l, leaders_loop (E:=E) ids sample repeat n i k cur = Ok l ∧ length l = n ∧
    ∀ j, (j < n)%nat → l !! j = ids !! sample (Z.to_nat ((i + Z.of_nat j) / repeat)).
Proof.
  induction n as [|n IH]; intros i k cur Hr Hi Hs Hk Hcur; cbn [leaders_loop].
  { exists []. split_and!; [done|done|lia]. }
  rewrite (proj2 (Z.eqb_neq _ _)) by lia.
  pose proof (Z.div_mod i repeat ltac:(lia)) as Hdm.
  pose proof (Z.mod_pos_bound i repeat Hr) as Hb.
  assert (∃ k' cur', Z.of_nat k' = (i + 1 + repeat - 1) / repeat ∧
      ids !! sample (Z.to_nat (i / repeat)) = Some cur' ∧
      leaders_loop (E:=E) ids sample repeat (S n) i k cur =
        (rest ← leaders_loop ids sample repeat n (i + 1) k' cur'; Ok (cur' :: rest)))
    as (k' & cur' & Hk' & Hc' & Heq).
  { cbn [leaders_loop]. rewrite (proj2 (Z.eqb_neq repeat 0)) by lia.
    assert ((i + 1 + repeat - 1) / repeat = i / repeat + 1) as Hnext.
    { symmetry. apply (Z.div_unique _ _ _ (i mod repeat)); lia. }
    destruct (Z.eqb_spec (i mod repeat) 0) as [H0|H0].
    - assert ((i + repeat - 1) / repeat = i / repeat) as Hthis.
      { symmetry. apply (Z.div_unique _ _ _ (repeat - 1)); lia. }
      assert (Z.to_nat (i / repeat) = k) as -> by lia.
      destruct (lookup_lt_is_Some_2 ids (sample k) (Hs k)) as [node Hn]. rewrite Hn.
      exists (S k), node. split_and!; [lia|done|done].
    - assert ((i + repeat - 1) / repeat = i / repeat + 1) as Hthis.
      { symmetry. apply (Z.div_unique _ _ _ (i mod repeat - 1)); lia. }
      exists k, cur. split_and!; [lia|auto|done]. }
  cbn [leaders_loop] in Heq. rewrite (proj2 (Z.eqb_neq repeat 0)) in Heq by lia.
  rewrite Heq. destruct (IH (i + 1) k' cur') as (l & -> & Hlen & Hl); [lia..|done|done| |].
  { intros Hne. replace ((i + 1) / repeat) with (i / repeat); [done|].
    apply (Z.div_unique _ _ _ (i mod repeat + 1)); [|lia]. left.
    destruct (decide (i mod repeat + 1 = repeat)); [|lia]. exfalso. apply Hne.
    replace (i + 1) with ((i / repeat + 1) * repeat) by lia. by apply Z.mod_mul; lia. }
  exists (cur' :: l). split_and!; [done|cbn; lia|].
  intros [|j] Hj; cbn; [by rewrite Z.add_0_r|].
  rewrite Hl by lia. do 3 f_equal. f_equal. lia.
Qed.

(** The order of [sort_stakes] is total, so a sorted list is unique. *)
Definition stake_le (x y : Pubkey * Z) : Prop := StakeOrder.leb x y = true.

#[export] Instance stake_le_antisym : AntiSymm (=) stake_le.
Proof.
  intros [k1 s1] [k2 s2]. unfold stake_le, StakeOrder.leb. cbn. rewrite (Z.eqb_sym s1).
  destruct (Z.eqb_spec s2 s1); rewrite !Z.leb_le; intros; f_equal; lia.
Qed.

#[export] Instance stake_le_trans : Transitive stake_le.
Proof.
  intros [k1 s1] [k2 s2] [k3 s3]. unfold stake_le, StakeOrder.leb. cbn.
  destruct (Z.eqb_spec s2 s1), (Z.eqb_spec s3 s2), (Z.eqb_spec s3 s1); rewrite !Z.leb_le; lia.
Qed.

Lemma sort_sorted l : StronglySorted stake_le (StakeSort.sort l).
Proof.
  pose proof (StakeSort.Sorted_sort l) as Hs. apply Sorted_StronglySorted; [exact stake_le_trans|].
  induction Hs as [|x k _ IH Hd]; constructor; [done|]. destruct Hd; constructor; done.
Qed.

Lemma sort_perm l : StakeSort.sort l ≡ₚ l.
Proof. symmetry. apply StakeSort.Permuted_sort. Qed.

Lemma dedup_cons2 {A} `{EqDecision A} (a b : A) l :
  dedup (a :: b :: l) = if bool_decide (a = b) then dedup (b :: l) else a :: dedup (b :: l).
Proof. reflexivity. Qed.

Lemma dedup_elem {A} `{EqDecision A} (l : list A) x : x ∈ dedup l ↔ x ∈ l.
Proof.
  induction l as [|a [|b l] IH]; [done|done|]. rewrite dedup_cons2.
  destruct (bool_decide_reflect (a = b)) as [->|].
  - rewrite IH, !elem_of_cons. tauto.
  - rewrite elem_of_cons, IH, (elem_of_cons (b :: l)). tauto.
Qed.

Lemma dedup_NoDup (l : list (Pubkey * Z)) : StronglySorted stake_le l → NoDup (dedup l).
Proof.
  induction l as [|a [|b l] IH]; intros Hs; [constructor|apply NoDup_singleton|].
  rewrite dedup_cons2. inversion_clear Hs as [|?? Hs' Ha].
  destruct (bool_decide_reflect (a = b)) as [->|Hne]; [auto|].
  constructor; [|auto]. rewrite dedup_elem, elem_of_cons. intros [|Hin]; [done|].
  apply Hne, (anti_symm stake_le).
  - by inversion Ha.
  - inversion_clear Hs' as [|?? _ Hb]. rewrite Forall_forall in Hb. auto.
Qed.

Lemma sort_perm_eq l k : l ≡ₚ k → StakeSort.sort l = StakeSort.sort k.
Proof.
  intros Hp. apply (StronglySorted_unique stake_le); [apply sort_sorted..|].
  by rewrite !sort_perm.
Qed.

(** ** The cache *)

Definition leader_in (ls : LeaderSchedule) (i : Z) : option Pubkey :=
  ls.(slot_leaders) !! Z.to_nat (i mod Z.of_nat (length ls.(slot_leaders))).

Definition leader_at (sched : Z → option LeaderSchedule) (es : epoch_schedule.EpochSchedule)
    (s : Z) : option Pubkey :=
  let '(e, i) := epoch_schedule.get_epoch_and_slot_index es s in
  ls ← sched e; leader_in ls i.

Lemma leader_in_some ls i : ls.(slot_leaders) ≠ [] → is_Some (leader_in ls i).
Proof.
  intros Hne. apply lookup_lt_is_Some_2.
  assert (length (slot_leaders ls) ≠ 0%nat) by (by rewrite length_zero_iff_nil).
  pose proof (Z.mod_pos_bound i (Z.of_nat (length (slot_leaders ls)))). lia.
Qed.

Lemma schedule_index_spec {E} ls i :
  ls.(slot_leaders) ≠ [] → schedule_index (E:=E) ls i = unwrap (leader_in ls i).
Proof. intros Hne. unfold schedule_index. destruct (slot_leaders ls) eqn:Hl; [done|].
  rewrite (proj2 (Z.eqb_neq _ _)) by (cbn; lia). unfold leader_in. by rewrite Hl.
Qed.

Section Coherence.
Context `{!Bincode VoteState}.
Context (weighted_index : list Z → option (list Z → nat → nat)).
Context (sched : Z → option LeaderSchedule).

(** Every bank asked computes the schedules [sched]. *)
Definition computes (es : epoch_schedule.EpochSchedule) (bank : BankView) : Prop :=
  (∀ e E, bank_leader_schedule (E:=E) weighted_index e bank = Ok (sched e)) ∧
  (∀ s, bank.(bv_epoch_and_index) s = epoch_schedule.get_epoch_and_slot_index es s) ∧
  (∀ e, bank.(bv_slots_in_epoch) e = epoch_schedule.get_slots_in_epoch es e).

Record cache_ok (c : LeaderScheduleCache) : Prop := {
  ok_order : NoDup c.(cache_order);
  ok_dom : dom c.(cached_schedules) = list_to_set (C:=gset Z) c.(cache_order);
  ok_size : (length c.(cache_order) ≤ MAX_SCHEDULES)%nat;
  ok_cached : ∀ e ls, c.(cached_schedules) !! e = Some ls → sched e = Some ls
}.

Definition same_config (c c' : LeaderScheduleCache) : Prop :=
  c'.(cache_epoch_schedule) = c.(cache_epoch_schedule) ∧ c'.(max_epoch) = c.(max_epoch).

Lemma order_size (m : gmap Z LeaderSchedule) l :
  NoDup l → dom m = list_to_set (C:=gset Z) l → size m = length l.
Proof. intros Hn Hd. by rewrite <-size_dom, Hd, size_list_to_set. Qed.

Lemma compute_coherent {E} e bank c es :
  computes es bank → cache_ok c →
  ∃ c', compute_epoch_schedule (E:=E) weighted_index e bank c = (Ok (sched e), c') ∧
        cache_ok c' ∧ same_config c c'.
Proof.
  intros (Hc & _) Hok. unfold compute_epoch_schedule, mbind, M_bind, liftM. rewrite Hc.
  destruct (sched e) as [ls|] eqn:He; [|by exists c].
  cbn. destruct (cached_schedules c !! e) eqn:Hl; [by exists c|].
  destruct Hok as [Hn Hd Hs Hm].
  assert (e ∉ cache_order c) as Hnin.
  { apply not_elem_of_dom in Hl. rewrite Hd in Hl. set_solver. }
  assert (NoDup (cache_order c ++ [e])) as Hn'.
  { apply NoDup_app. split_and!; [done|set_solver|apply NoDup_singleton]. }
  assert (dom (<[e:=ls]> (cached_schedules c)) = list_to_set (C:=gset Z) (cache_order c ++ [e]))
    as Hd' by (rewrite dom_insert_L, Hd; set_solver).
  assert (∀ e' ls', <[e:=ls]> (cached_schedules c) !! e' = Some ls' → sched e' = Some ls') as Hm'.
  { intros e' ls'. rewrite lookup_insert_Some. intros [[<- <-]|[_ ?]]; auto. }
  unfold retain_latest. rewrite (order_size _ _ Hn' Hd'), length_app. cbn [length].
  destruct (Nat.ltb_spec MAX_SCHEDULES (length (cache_order c) + 1)).
  - destruct (cache_order c) as [|f o] eqn:Ho; [unfold MAX_SCHEDULES in *; cbn in *; lia|]. cbn.
    eexists. split; [done|]. split; [|done]. cbn in Hn', Hd'.
    inversion_clear Hn' as [|?? Hf Hno]. split; cbn; [done|..].
    + rewrite dom_delete_L, Hd'. set_solver.
    + rewrite length_app. cbn in *. lia.
    + intros e' ls' [_ ?]%lookup_delete_Some. auto.
  - cbn. eexists. split; [done|]. split; [|done].
    split; cbn; [done|done|rewrite length_app; cbn; lia|done].
Qed.

Lemma get_coherent {E} e bank c es :
  computes es bank → cache_ok c →
  ∃ c', get_epoch_schedule_else_compute (E:=E) weighted_index e bank c = (Ok (sched e), c') ∧
        cache_ok c' ∧ same_config c c'.
Proof.
  intros Hb Hok. unfold get_epoch_schedule_else_compute, mbind, M_bind, getM.
  destruct (cached_schedules c !! e) eqn:He; [|by eapply compute_coherent].
  exists c. by rewrite (ok_cached _ Hok _ _ He).
Qed.

Lemma no_compute_coherent {E} s c :
  (∀ e ls, sched e = Some ls → ls.(slot_leaders) ≠ []) → cache_ok c →
  ∃ r, slot_leader_at_no_compute (E:=E) s c = (Ok r, c) ∧
       (is_Some r → r = leader_at sched c.(cache_epoch_schedule) s).
Proof.
  intros Hne Hok. unfold slot_leader_at_no_compute, leader_at, mbind, M_bind, getM.
  destruct (epoch_schedule.get_epoch_and_slot_index _ _) as [e i].
  destruct (cached_schedules c !! e) as [ls|] eqn:He.
  - apply (ok_cached _ Hok) in He as Hse. unfold liftM. rewrite schedule_index_spec by eauto.
    destruct (leader_in_some ls i) as [p Hp]; [eauto|]. rewrite Hp. eexists. split; [done|].
    intros _. by rewrite Hse; cbn.
  - exists None. split; [done|]. by intros [].
Qed.

(** ** The next slot of a leader *)

Definition eligible (pubkey : Pubkey) (received : option (Z → bool))
    (es : epoch_schedule.EpochSchedule) (s : Z) : Prop :=
  leader_at sched es s = Some pubkey ∧
  match received with Some has => has s = false | None => True end.

(** [s] is a free slot of [pubkey] in an epoch that starts at [base]. *)
Definition hit (pubkey : Pubkey) (received : option (Z → bool)) (ls : LeaderSchedule)
    (base s : Z) : Prop :=
  leader_in ls (s - base) = Some pubkey ∧
  match received with Some has => has s = false | None => True end.

Lemma hit_dec pubkey received ls base s p :
  leader_in ls (s - base) = Some p →
  hit pubkey received ls base s ↔
  (pubkey =? p) && negb (match received with Some has => has s | None => false end) = true.
Proof.
  intros Hp. unfold hit. rewrite Hp, andb_true_iff, Z.eqb_eq, negb_true_iff.
  destruct received; naive_solver.
Qed.

Lemma scan_epoch_spec {E} pubkey received ls base n : ∀ cur,
  ls.(slot_leaders) ≠ [] → 0 ≤ cur → cur + Z.of_nat n < two64 →
  ∃ found stop, scan_epoch (E:=E) pubkey received ls n (cur + 1 - base) cur = Ok (found, stop) ∧
    match found with
    | Some s => cur < s ≤ cur + Z.of_nat n ∧ hit pubkey received ls base s ∧
                ∀ t, cur < t < s → ¬ hit pubkey received ls base t
    | None => stop = cur + Z.of_nat n ∧
              ∀ t, cur < t ≤ cur + Z.of_nat n → ¬ hit pubkey received ls base t
    end.
Proof.
  induction n as [|n IH]; intros cur Hne Hcur Hov; cbn [scan_epoch].
  { eexists _, _. split; [done|]. cbn. split; [lia|]. intros; lia. }
  rewrite u64_add_exact by lia. rewrite schedule_index_spec by done.
  destruct (leader_in_some ls (cur + 1 - base) Hne) as [p Hp]. rewrite Hp.
  cbn [unwrap mbind res_bind].
  pose proof (hit_dec pubkey received ls base _ _ Hp) as Hhit.
  destruct ((pubkey =? p) && negb _).
  { eexists _, _. split; [done|]. split_and!; [lia|lia|by apply Hhit|intros; lia]. }
  destruct (IH (cur + 1)) as (found & stop & Hrun & Hres); [done|lia|lia|].
  replace (cur + 1 - base + 1) with (cur + 1 + 1 - base) by lia. rewrite Hrun.
  eexists _, _. split; [done|].
  assert (∀ t, t = cur + 1 → ¬ hit pubkey received ls base t) as Hfirst.
  { intros t -> Ht. by apply Hhit in Ht. }
  destruct found as [s|]; destruct Hres as (Hb & Hmin).
  - destruct Hmin as [Hs Hmin]. split_and!; [lia|lia|done|].
    intros t Ht. destruct (decide (t = cur + 1)); [auto|]. apply Hmin. lia.
  - split; [lia|]. intros t Ht. destruct (decide (t = cur + 1)); [auto|]. apply Hmin. lia.
Qed.

Section Next.
Context (es : epoch_schedule.EpochSchedule) (Hes : epoch_schedule_proofs.schedule_ok es).
Notation first e := (epoch_schedule.get_first_slot_in_epoch es e).
Notation slots e := (epoch_schedule.get_slots_in_epoch es e).
Notation fne := (epoch_schedule.first_normal_epoch es).
Notation fns := (epoch_schedule.first_normal_slot es).
Notation spe := (epoch_schedule.slots_per_epoch es).

(** The slots up to the end of epoch [e] are [u64]s. *)
Definition fits (e : Z) : Prop := 0 ≤ e ∧ (e + 1 - fne) * spe + fns < two64.

Lemma fits_le e e' : 0 ≤ e' ≤ e → fits e → fits e'.
Proof. pose proof (epoch_schedule_proofs.ok_slots _ Hes). unfold fits. nia. Qed.

Lemma first_next e : fits e → first (e + 1) = first e + slots e ∧ 0 < slots e ∧ 0 ≤ first e ∧
  first e + slots e < two64.
Proof.
  intros [He Hf]. pose proof (epoch_schedule_proofs.ok_slots _ Hes).
  pose proof (epoch_schedule_proofs.ok_epoch _ Hes).
  pose proof (epoch_schedule_proofs.first_normal_bounds _ Hes).
  destruct (decide (e < fne)).
  - rewrite !epoch_schedule_proofs.first_slot_warmup,
      epoch_schedule_proofs.slots_in_warmup_epoch by (done || lia).
    replace (e + 1 + 5) with (Z.succ (e + 5)) by lia. rewrite Z.pow_succ_r by lia.
    pose proof (epoch_schedule_proofs.pow2_bound 5 (e + 5)).
    pose proof (epoch_schedule_proofs.pow2_bound (e + 5) 62).
    epoch_schedule_proofs.pow_lia.
  - rewrite !epoch_schedule_proofs.first_slot_normal,
      epoch_schedule_proofs.slots_in_normal_epoch by (done || nia). nia.
Qed.

Lemma eligible_hit pubkey received e ls s :
  fits e → sched e = Some ls → first e ≤ s < first e + slots e →
  eligible pubkey received es s ↔ hit pubkey received ls (first e) s.
Proof.
  intros Hf He Hs. unfold eligible, hit, leader_at.
  destruct (first_next e Hf) as (_ & Hp & H0 & Hlt). destruct Hf as [He0 Hf].
  pose proof (epoch_schedule_proofs.compose_slot es Hes e (s - first e)) as Hc.
  rewrite u64_add_exact in Hc by lia. replace (first e + (s - first e)) with s in Hc by lia.
  rewrite Hc; [by rewrite He|lia|lia|].
  pose proof (epoch_schedule_proofs.ok_slots _ Hes).
  destruct (decide (e < fne)).
  - pose proof (epoch_schedule_proofs.ok_epoch _ Hes).
    pose proof (epoch_schedule_proofs.first_normal_bounds _ Hes).
    rewrite epoch_schedule_proofs.slots_in_warmup_epoch in Hs by (done || lia).
    pose proof (epoch_schedule_proofs.pow2_bound (e + 5) 62).
    assert ((e - fne) * spe ≤ 0) by nia. change (2 ^ 62) with 4611686018427387904 in *.
    epoch_schedule_proofs.pow_lia.
  - rewrite epoch_schedule_proofs.slots_in_normal_epoch in Hs by (done || lia). nia.
Qed.

Lemma next_leader_loop_spec {E} pubkey received bank n : ∀ fuel e cur c,
  computes es bank → cache_ok c →
  (∀ e' ls, sched e' = Some ls → ls.(slot_leaders) ≠ []) →
  (∀ j, e ≤ j < e + Z.of_nat n → is_Some (sched j)) → sched (e + Z.of_nat n) = None →
  (n < fuel)%nat → 0 ≤ e → fits (e + Z.of_nat n) → 0 ≤ cur →
  first e ≤ cur + 1 ≤ first e + slots e →
  ∃ r c', next_leader_loop (E:=E) weighted_index fuel pubkey received bank e
            (cur + 1 - first e) cur c = (Ok (Some r), c') ∧ cache_ok c' ∧
    match r with
    | Some s => cur < s ∧ eligible pubkey received es s ∧
                ∀ t, cur < t < s → ¬ eligible pubkey received es t
    | None => ∀ t, cur < t < first (e + Z.of_nat n) → ¬ eligible pubkey received es t
    end.
Proof.
  induction n as [|n IH]; intros [|fuel] e cur c Hb Hok Hne Hsome Hnone Hfuel He0 Hfits Hcur Hpos;
    try lia; cbn [next_leader_loop]; unfold mbind, M_bind, liftM;
    destruct (get_coherent (E:=E) e bank c es Hb Hok) as (c1 & -> & Hok1 & _).
  { rewrite Z.add_0_r in *. rewrite Hnone. exists None, c1. split_and!; [done|done|]. intros; lia. }
  destruct (Hsome e ltac:(lia)) as [ls Hls]. rewrite Hls.
  assert (fits e) as Hfe by (eapply fits_le, Hfits; lia).
  destruct (first_next e Hfe) as (Hnext & Hp & H0 & Hlt).
  rewrite (proj2 (proj2 Hb)).
  destruct (scan_epoch_spec (E:=E) pubkey received ls (first e)
    (Z.to_nat (slots e - (cur + 1 - first e))) cur) as (found & stop & -> & Hres);
    [eauto|lia|lia|].
  destruct found as [s|].
  - destruct Hres as (Hs & Hhit & Hmin). exists (Some s), c1.
    split_and!; [done|done|lia|apply (eligible_hit _ _ e ls); (done || lia)|].
    intros t Ht Hel. apply (Hmin t Ht), (eligible_hit _ _ e ls t); (done || lia).
  - destruct Hres as (-> & Hmin).
    pose proof (epoch_schedule_proofs.ok_slots _ Hes). unfold fits in Hfits.
    pose proof (epoch_schedule_proofs.first_normal_bounds _ Hes).
    pose proof (epoch_schedule_proofs.ok_epoch _ Hes).
    rewrite (u64_add_exact e 1) by (change two64 with 18446744073709551616 in *; nia).
    replace (cur + Z.of_nat _) with (first (e + 1) - 1) by lia.
    replace (e + Z.of_nat (S n)) with (e + 1 + Z.of_nat n) in * by lia.
    assert (fits (e + 1)) as Hfe1 by (eapply fits_le, Hfits; lia).
    destruct (first_next (e + 1) Hfe1) as (_ & Hp1 & _ & _).
    destruct (IH fuel (e + 1) (first (e + 1) - 1) c1) as (r & c' & Hrun & Hok' & Hr);
      [done|done|done|intros; apply Hsome; lia|done|lia|lia|done|lia|lia|].
    replace (first (e + 1) - 1 + 1 - first (e + 1)) with 0 in Hrun by lia.
    exists r, c'. split_and!; [done|done|].
    assert (∀ t, cur < t ≤ first (e + 1) - 1 → ¬ eligible pubkey received es t) as Hthis.
    { intros t Ht Hel. apply (Hmin t); [lia|]. apply (eligible_hit _ _ e ls t); (done || lia). }
    destruct r as [s|].
    + destruct Hr as (Hs & Hel & Hm). split_and!; [lia|apply Hel..|].
      intros t Ht. destruct (decide (t ≤ first (e + 1) - 1)); [apply Hthis; lia|apply Hm; lia].
    + intros t Ht. destruct (decide (t ≤ first (e + 1) - 1)); [apply Hthis; lia|apply Hr; lia].
Qed.

(** C32. [next_leader_slot] finds the least slot above [current_slot] that the
    schedules give to the node and for which the block store has received
    nothing.  It answers [None] exactly when there is none in the epochs up to
    the first one without a schedule, epoch [e + n]; [n + 1] rounds of the outer
    loop are enough for it to return, and the cache stays coherent. *)
Theorem next_leader_slot_spec {E} fuel n pubkey received bank e i cur c :
  computes es bank → cache_ok c →
  (∀ e' ls, sched e' = Some ls → ls.(slot_leaders) ≠ []) →
  0 ≤ cur → cur + 1 < two64 →
  epoch_schedule.get_epoch_and_slot_index es (cur + 1) = (e, i) →
  (∀ j, e ≤ j < e + Z.of_nat n → is_Some (sched j)) → sched (e + Z.of_nat n) = None →
  fits (e + Z.of_nat n) → (n < fuel)%nat →
  ∃ r c', next_leader_slot (E:=E) weighted_index fuel pubkey cur bank received c =
            (Ok (Some r), c') ∧ cache_ok c' ∧
    match r with
    | Some s => cur < s ∧ eligible pubkey received es s ∧
                ∀ t, cur < t < s → ¬ eligible pubkey received es t
    | None => ∀ t, cur < t < first (e + Z.of_nat n) → ¬ eligible pubkey received es t
    end.
Proof.
  intros Hb Hok Hne Hcur Hov He Hsome Hnone Hfits Hfuel.
  destruct (epoch_schedule_proofs.decompose_slot es Hes (cur + 1) e i) as (He0 & Hi & Hf);
    [unfold is_u64; lia|done|].
  unfold next_leader_slot. rewrite u64_add_exact, (proj1 (proj2 Hb)), He by lia.
  replace i with (cur + 1 - first e) by lia.
  by apply next_leader_loop_spec; [..|lia].
Qed.
End Next.

(** The cache answers as the banks do.  While it only holds what the banks
    compute, at most [MAX_SCHEDULES] of them, a question with a bank gives the
    leader of the bank's own schedule for a slot of an epoch up to [max_epoch]
    and [None] above; one without a bank gives the same leader or [None].  The
    cache keeps the invariant. *)
Theorem cache_answers {E} s bank c :
  computes c.(cache_epoch_schedule) bank → cache_ok c →
  (∀ e ls, sched e = Some ls → ls.(slot_leaders) ≠ []) →
  (∃ c', cache_slot_leader_at (E:=E) weighted_index s (Some bank) c =
     (Ok (if c.(max_epoch) <?
             (epoch_schedule.get_epoch_and_slot_index c.(cache_epoch_schedule) s).1
          then None else leader_at sched c.(cache_epoch_schedule) s), c') ∧
     cache_ok c' ∧ same_config c c') ∧
  (∃ r, cache_slot_leader_at (E:=E) weighted_index s None c = (Ok r, c) ∧
     (is_Some r → r = leader_at sched c.(cache_epoch_schedule) s)).
Proof.
  intros Hb Hok Hne.
  destruct (no_compute_coherent (E:=E) s c Hne Hok) as (r & Hr & Hrs).
  split; [|by exists r]. cbn [cache_slot_leader_at].
  unfold slot_leader_at_else_compute, mbind, M_bind, getM. rewrite Hr.
  destruct (_ <? _); [by exists c|].
  destruct r as [p|]; [exists c; split_and!; [|done..]; by rewrite <-Hrs|].
  rewrite (proj1 (proj2 Hb)). unfold leader_at.
  destruct (epoch_schedule.get_epoch_and_slot_index _ _) as [e i].
  destruct (compute_coherent (E:=E) e bank c _ Hb Hok) as (c' & -> & Hok' & Hcfg).
  exists c'. split; [|done]. destruct (sched e) as [ls|] eqn:He; [|done].
  unfold liftM. rewrite schedule_index_spec by eauto. cbn.
  by destruct (leader_in_some ls i (Hne _ _ He)) as [p ->].
Qed.
End Coherence.

(** The schedule of an epoch.  Slot [i] is led by the node that the sample
    [i / repeat] selects among the staked nodes, so that a leader keeps
    [repeat] consecutive slots; every leader is a staked node, the schedule has
    one leader per slot, and the order in which the hash map lists the nodes
    does not matter. *)
Theorem leader_schedule_spec {E} weighted_index (stakes : gmap Pubkey Z) order sample seed len repeat :
  order ≡ₚ map_to_list stakes →
  weighted_index (sort_stakes order).*2 = Some sample →
  (∀ k, (sample seed k < length (sort_stakes order))%nat) → 0 < repeat → 0 ≤ len →
  ∃ s, LeaderSchedule_new (E:=E) weighted_index (sort_stakes order) seed len repeat = Ok s ∧
    sort_stakes order = sort_stakes (map_to_list stakes) ∧ NoDup (sort_stakes order) ∧
    Z.of_nat (length s.(slot_leaders)) = len ∧
    ∀ i, 0 ≤ i < len → ∃ node stake,
      s.(slot_leaders) !! Z.to_nat i = Some node ∧ stakes !! node = Some stake ∧
      sort_stakes order !! sample seed (Z.to_nat (i / repeat)) = Some (node, stake).
Proof.
  intros Hp Hw Hs Hr Hl. unfold LeaderSchedule_new. rewrite Hw.
  destruct (leaders_loop_spec (E:=E) (sort_stakes order).*1 (sample seed) repeat (Z.to_nat len)
    0 0 Pubkey_default) as (l & -> & Hlen & Hlk); [done|done| | |done|].
  { intros j. rewrite length_fmap. apply Hs. }
  { rewrite Z.add_0_l, Z.div_small; lia. }
  eexists. split; [done|]. cbn [slot_leaders]. split_and!.
  - unfold sort_stakes. by rewrite (sort_perm_eq _ _ Hp).
  - apply dedup_NoDup, sort_sorted.
  - lia.
  - intros i Hi. rewrite Hlk, Z2Nat.id, Z.add_0_l, list_lookup_fmap by lia.
    destruct (lookup_lt_is_Some_2 _ _ (Hs (Z.to_nat (i / repeat)))) as [[node stake] Hn].
    rewrite Hn. exists node, stake. split_and!; [done| |done].
    apply list_elem_of_lookup_2 in Hn. unfold sort_stakes in Hn.
    rewrite dedup_elem, sort_perm, Hp in Hn. by apply elem_of_map_to_list in Hn.
Qed.
End leader_schedule_proofs.

Module leader_schedule_demo.
Import leader_schedule leader_schedule_utils leader_schedule_cache leader_schedule_proofs.

#[local] Instance demo_vote_bincode : Bincode VoteState := codec_bincode VoteState_codec.

(** Samples that go round the nodes. *)
Definition round_robin (weights : list Z) : option (list Z → nat → nat) :=
  match weights with
  | [] => None
  | _ => Some (λ _ k, (k mod length weights)%nat)
  end.

Definition demo_es : epoch_schedule.EpochSchedule :=
  match epoch_schedule.EpochSchedule_new 32 32 false with
  | Ok s => s
  | _ => epoch_schedule.mkEpochSchedule 0 0 0 0
  end.

Definition demo_account (node : Pubkey) : Account :=
  mkAccount 1 0 (serialize (mkVoteState [] node 9 0 None 0)) vote_program.id false.

Definition demo_bank : BankView :=
  mkBankView 0 (epoch_schedule.get_epoch_and_slot_index demo_es)
    (epoch_schedule.get_slots_in_epoch demo_es) 0 0 []
    (λ e, if (0 <=? e) && (e <? 2)
          then Some [(7, (50, demo_account 1)); (8, (60, demo_account 2))] else None).

Definition demo_leaders : list Pubkey :=
  replicate 8 2 ++ replicate 8 1 ++ replicate 8 2 ++ replicate 8 1.
Definition demo_sched (e : Z) : option LeaderSchedule :=
  if (0 <=? e) && (e <? 2) then Some (mkLeaderSchedule demo_leaders) else None.

Lemma demo_es_ok : epoch_schedule_proofs.schedule_ok demo_es.
Proof. split; vm_compute; (done || (split; done)). Qed.

Lemma demo_computes : computes round_robin demo_sched demo_es demo_bank.
Proof.
  split_and!; [|done|done]. intros e E. unfold bank_leader_schedule, demo_sched.
  destruct (Z.leb_spec 0 e); destruct (Z.ltb_spec e 2); try
    (unfold staking_utils.staked_nodes_at_epoch; cbn;
     rewrite ?(proj2 (Z.leb_gt 0 e)), ?(proj2 (Z.ltb_ge e 2)), ?andb_false_r by lia; done).
  assert (e = 0 ∨ e = 1) as [-> | ->] by lia; vm_compute; reflexivity.
Qed.

Lemma demo_nonempty e ls : demo_sched e = Some ls → ls.(slot_leaders) ≠ [].
Proof. unfold demo_sched. destruct (_ && _); [|done]. by intros [= <-]. Qed.

Lemma demo_cache_ok : cache_ok demo_sched (Cache_new demo_es 0).
Proof. split; [constructor|done|vm_compute; lia|done]. Qed.

Lemma next_leader_slot_spec_witness :
  ∃ r c', next_leader_slot (E:=unit) round_robin 3 1 15 demo_bank None (Cache_new demo_es 0) =
    (Ok (Some r), c') ∧ r = Some 24.
Proof.
  destruct (next_leader_slot_spec (E:=unit) round_robin demo_sched demo_es demo_es_ok 3 2 1 None
    demo_bank 0 16 15 (Cache_new demo_es 0) demo_computes demo_cache_ok demo_nonempty)
    as (r & c' & Hr & _); [lia|done|vm_compute; reflexivity| |done| |lia|].
  - intros j Hj. assert (j = 0 ∨ j = 1) as [-> | ->] by lia; by eexists.
  - split; vm_compute; done.
  - exists r, c'. split; [exact Hr|].
    assert ((next_leader_slot (E:=unit) round_robin 3 1 15 demo_bank None
      (Cache_new demo_es 0)).1 = Ok (Some (Some 24))) as Hv by (vm_compute; reflexivity).
    rewrite Hr in Hv. by injection Hv.
Defined.

Lemma cache_answers_witness :
  ∃ c', cache_slot_leader_at (E:=unit) round_robin 9 (Some demo_bank) (Cache_new demo_es 0) =
    (Ok (Some 1), c') ∧ cache_ok demo_sched c'.
Proof.
  destruct (cache_answers (E:=unit) round_robin demo_sched 9 demo_bank (Cache_new demo_es 0)
    demo_computes demo_cache_ok demo_nonempty) as [(c' & Hc & Hok & _) _].
  exists c'. split; [|exact Hok]. rewrite Hc. f_equal.
Defined.

Definition demo_stakes : gmap Pubkey Z := {[1 := 50; 2 := 60]}.

Lemma leader_schedule_spec_witness :
  ∃ s, LeaderSchedule_new (E:=unit) round_robin (sort_stakes [(1, 50); (2, 60)]) [] 32 8 = Ok s ∧
    Z.of_nat (length s.(slot_leaders)) = 32.
Proof.
  destruct (leader_schedule_spec (E:=unit) round_robin demo_stakes [(1, 50); (2, 60)]
    (λ _ k, (k mod 2)%nat) [] 32 8) as (s & Hs & _ & _ & Hl & _).
  - assert (map_to_list demo_stakes = [(2, 60); (1, 50)]) as -> by (vm_compute; reflexivity).
    apply perm_swap.
  - vm_compute. reflexivity.
  - intros k. assert (length (sort_stakes [(1, 50); (2, 60)]) = 2%nat) as -> by reflexivity.
    by apply Nat.mod_upper_bound.
  - lia.
  - lia.
  - by exists s.
Defined.
End leader_schedule_demo.
