(* ===== verification/Entry.v ===== *)
(** * Proof of history, entries and blobs

    core/src/waterClock.rs (the hash chain), core/src/entryInfo.rs (entries,
    their verification and their split into blobs) and the part of
    core/src/packet.rs that entries use (a blob, its size and its payload).

    SHA-256 is the parameter [sha256] on bytes; bincode is the [Bincode] class.
    Lengths are [nat], hash counts are [u64]s. *)

From S2P Require Import Prelude Interface Codec Message.

Import transaction.

Module poh.

Record Poh := mkPoh {
  poh_hash : Hash;
  poh_num_hashes : Z;
  hashes_per_tick : Z;
  remaining_hashes : Z
}.

Record PohEntry := mkPohEntry { pe_num_hashes : Z; pe_hash : Hash }.

Section Poh.
Context (sha256 : list Z → Hash).

(** [hash(&h.as_ref())] and [hashv(&[&h.as_ref(), &mixin.as_ref()])]: a [Hash] is
    its 32 bytes. *)
Definition hash_of (h : Hash) : Hash := sha256 (be_enc 32 h).
Definition hash_with (h mixin : Hash) : Hash := sha256 (be_enc 32 h ++ be_enc 32 mixin).

Definition Poh_new {E} (h : Hash) (hashes_per_tick : option Z) : res E Poh :=
  let hashes_per_tick := default u64_max hashes_per_tick in
  if negb (1 <? hashes_per_tick) then Panic
  else Ok (mkPoh h 0 hashes_per_tick hashes_per_tick).

Definition Poh_reset {E} (h : Hash) (hashes_per_tick : option Z) (p : Poh) : res E unit * Poh :=
  match Poh_new h hashes_per_tick with
  | Ok poh => (Ok tt, poh)
  | Err e => (Err e, p)
  | Panic => (Panic, p)
  end.

(** The assertion comes after the updates. *)
Definition Poh_hash {E} (max_num_hashes : Z) : M Poh E bool :=
  p ← getM;
  let num_hashes := Z.min (u64_sub p.(remaining_hashes) 1) max_num_hashes in
  let p := mkPoh (Nat.iter (Z.to_nat num_hashes) hash_of p.(poh_hash))
             (u64_add p.(poh_num_hashes) num_hashes) p.(hashes_per_tick)
             (u64_sub p.(remaining_hashes) num_hashes) in
  putM p;;
  if negb (0 <? p.(remaining_hashes)) then liftM Panic
  else mret (p.(remaining_hashes) =? 1).

Definition Poh_record {E} (mixin : Hash) : M Poh E (option PohEntry) :=
  p ← getM;
  if p.(remaining_hashes) =? 1 then mret None
  else
  let h := hash_with p.(poh_hash) mixin in
  let num_hashes := u64_add p.(poh_num_hashes) 1 in
  putM (mkPoh h 0 p.(hashes_per_tick) (u64_sub p.(remaining_hashes) 1));;
  mret (Some (mkPohEntry num_hashes h)).

Definition Poh_tick {E} : M Poh E (option PohEntry) :=
  p ← getM;
  let p := mkPoh (hash_of p.(poh_hash)) (u64_add p.(poh_num_hashes) 1) p.(hashes_per_tick)
             (u64_sub p.(remaining_hashes) 1) in
  putM p;;
  if (p.(hashes_per_tick) <? u64_max) && negb (p.(remaining_hashes) =? 0) then mret None
  else
  putM (mkPoh p.(poh_hash) 0 p.(hashes_per_tick) p.(hashes_per_tick));;
  mret (Some (mkPohEntry p.(poh_num_hashes) p.(poh_hash))).
End Poh.
End poh.

(** ** Blobs (core/src/packet.rs) *)

Module blob.

Definition BLOB_SIZE : Z := 64 * 1024 - 128.

(** The fields of the header end at byte 101: three [u64]s, a key, a [bool], a
    hash, a [u32] and the size; [align!] rounds up to 16. *)
Definition SIZE_RANGE : nat * nat := (8 + 8 + 8 + 32 + 1 + 32 + 4, 8)%nat.
Definition BLOB_HEADER_SIZE : Z :=
  let x := Z.of_nat (SIZE_RANGE.1 + SIZE_RANGE.2) in
  Z.land (x + (16 - 1)) (Z.lnot (16 - 1)).
Definition BLOB_DATA_SIZE : Z := BLOB_SIZE - BLOB_HEADER_SIZE * 2.

Record Blob := mkBlob { blob_bytes : list Z; meta_size : Z }.

Definition Blob_default : Blob := mkBlob (replicate (Z.to_nat BLOB_SIZE) 0) 0.

(** [LittleEndian::read_u64] and [write_u64] *)
Definition data_size (b : Blob) : Z :=
  foldr (λ byte acc, byte + 256 * acc) 0 (take SIZE_RANGE.2 (drop SIZE_RANGE.1 b.(blob_bytes))).
Definition set_data_size (n : Z) (b : Blob) : Blob :=
  mkBlob (take SIZE_RANGE.1 b.(blob_bytes) ++ le_enc 8 n ++
          drop (SIZE_RANGE.1 + SIZE_RANGE.2) b.(blob_bytes)) b.(meta_size).

Definition blob_data (b : Blob) : list Z := drop (Z.to_nat BLOB_HEADER_SIZE) b.(blob_bytes).
Definition with_blob_data (d : list Z) (b : Blob) : Blob :=
  mkBlob (take (Z.to_nat BLOB_HEADER_SIZE) b.(blob_bytes) ++ d) b.(meta_size).

Definition blob_size (b : Blob) : Z :=
  let size := data_size b in
  if (BLOB_HEADER_SIZE <? size) && (size =? b.(meta_size)) then size - BLOB_HEADER_SIZE else 0.

Definition set_size (size : Z) (b : Blob) : Blob :=
  let new_size := u64_add size BLOB_HEADER_SIZE in
  set_data_size new_size (mkBlob b.(blob_bytes) new_size).

(** The cursor ends after the encoding; [expect] panics when it does not fit. *)
Definition from_serializable {A} `{!Bincode A} {E} (a : A) : res E Blob :=
  match serialize_into a (blob_data Blob_default) with
  | (None, d) => Ok (set_size (serialized_size a) (with_blob_data d Blob_default))
  | (Some _, _) => Panic
  end.
End blob.

(** ** Entries (core/src/entryInfo.rs) *)

Module entry.
Import poh blob.

Record Entry := mkEntry {
  num_hashes : Z;
  entry_hash : Hash;
  transactions : list Transaction
}.

Definition is_empty {A} (l : list A) : bool := match l with [] => true | _ => false end.

Definition is_tick (e : Entry) : bool := is_empty e.(transactions).

(** *** Cutting a slice into chunks that fit *)

Section Chunks.
Context {T : Type} (serialized_size : list T → Z).

(** The loop of [num_will_fit]; [None] when the fuel runs out. *)
Fixpoint fit_loop (fuel : nat) (serializables : list T) (max_size : Z) (num upper lower : nat)
    : option nat :=
  match fuel with
  | O => None
  | S fuel' =>
      if serialized_size (take num serializables) <=? max_size then
        let next := ((upper + num) / 2)%nat in
        let lower := num in
        if (next =? num)%nat then Some num
        else fit_loop fuel' serializables max_size next upper lower
      else if (num =? 1)%nat then Some 0%nat
      else
        let next := ((lower + num) / 2)%nat in
        let upper := num in
        if (next =? num)%nat then Some num
        else fit_loop fuel' serializables max_size next upper lower
  end.

Definition num_will_fit (fuel : nat) (serializables : list T) (max_size : Z) : option nat :=
  match serializables with
  | [] => Some 0%nat
  | _ =>
      let num := length serializables in
      let upper := length serializables in
      let lower := 1%nat in
      fit_loop fuel serializables max_size num upper lower
  end.

(** The [while] loop of [split_serializable_chunks] on the rest of the slice; the
    state [S] and the failures [E] are those of the converter. *)
Fixpoint split_serializable_chunks {R S E} (fuel : nat) (serializables : list T) (max_size : Z)
    (converter : list T → M S E R) : M S E (option (list R)) :=
  match serializables with
  | [] => mret (Some [])
  | _ =>
      match fuel with
      | O => mret None
      | S fuel' =>
          match num_will_fit (length serializables + 2) serializables max_size with
          | None => mret None
          | Some n =>
              r ← converter (take n serializables);
              rest ← split_serializable_chunks fuel' (drop n serializables) max_size converter;
              mret (cons r <$> rest)
          end
      end
  end.
End Chunks.

Section Entries.
Context (sha256 : list Z → Hash).
Context `{!Bincode Transaction, !Bincode (list Entry)}.

(** Only the first signature of a transaction is hashed. *)
Definition hash_transactions (txs : list Transaction) : Hash :=
  sha256 (mjoin ((λ tx, default [] (head tx.(signatures))) <$> txs)).

Definition next_hash {E} (start_hash : Hash) (num_hashes : Z) (txs : list Transaction)
    : res E Hash :=
  if (num_hashes =? 0) && is_empty txs then Ok start_hash
  else
  poh ← Poh_new start_hash None;
  let advance : M Poh E Hash :=
    Poh_hash sha256 (u64_saturating_sub num_hashes 1);;
    e ← (if is_empty txs then Poh_tick sha256 else Poh_record sha256 (hash_transactions txs));
    e ← liftM (unwrap e);
    mret e.(pe_hash) in
  (advance poh).1.

Definition Entry_verify {E} (start_hash : Hash) (self : Entry) : res E bool :=
  ref_hash ← next_hash start_hash self.(num_hashes) self.(transactions);
  Ok (self.(entry_hash) =? ref_hash).

(** [genesis.chain(self).zip(self)] and [all]: every entry is checked against
    the hash before it.  The pairs are checked in parallel in no fixed order,
    which only matters for which entry panics. *)
Fixpoint EntrySlice_verify {E} (start_hash : Hash) (self : list Entry) : res E bool :=
  match self with
  | [] => Ok true
  | x1 :: rest =>
      r ← Entry_verify start_hash x1;
      if (r : bool) then EntrySlice_verify x1.(entry_hash) rest else Ok false
  end.

Definition serialized_to_blob_size (txs : list Transaction) : Z :=
  u64_add (serialized_size [mkEntry 0 0 []]) (u64_sum (serialized_size <$> txs)).

Definition Entry_new {E} (prev_hash : Hash) (num_hashes : Z) (txs : list Transaction)
    : res E Entry :=
  if negb (serialized_to_blob_size txs <=? BLOB_DATA_SIZE) then Panic
  else if (num_hashes =? 0) && is_empty txs then Ok (mkEntry 0 prev_hash txs)
  else if num_hashes =? 0 then
    h ← next_hash prev_hash 1 txs;
    Ok (mkEntry 1 h txs)
  else
    h ← next_hash prev_hash num_hashes txs;
    Ok (mkEntry num_hashes h txs).

(** The two [&mut] arguments are the state. *)
Definition Entry_new_mut {E} (txs : list Transaction) : M (Hash * Z) E Entry :=
  if negb (serialized_to_blob_size txs <=? BLOB_DATA_SIZE) then liftM Panic
  else
  '(start_hash, num_hashes) ← getM;
  entry ← liftM (Entry_new start_hash num_hashes txs);
  putM (entry.(entry_hash), 0);;
  mret entry.

Definition next_entry_mut {E} (num_hashes : Z) (txs : list Transaction) : M Hash E Entry :=
  start ← getM;
  entry ← liftM (Entry_new start num_hashes txs);
  putM entry.(entry_hash);;
  mret entry.

Definition next_entries {E} (fuel : nat) (start_hash : Hash) (num_hashes : Z)
    (txs : list Transaction) : res E (option (list Entry)) :=
  (split_serializable_chunks serialized_to_blob_size fuel txs BLOB_DATA_SIZE Entry_new_mut
    (start_hash, num_hashes)).1.

Fixpoint create_ticks {E} (num_ticks : nat) : M Hash E (list Entry) :=
  match num_ticks with
  | O => mret []
  | S n =>
      new_tick ← next_entry_mut 1 [];
      ticks ← create_ticks n;
      mret (new_tick :: ticks)
  end.

Definition to_blobs {E} (fuel : nat) (self : list Entry) : res E (option (list Blob)) :=
  (split_serializable_chunks serialized_size fuel self BLOB_DATA_SIZE
     (λ entries, liftM (from_serializable entries)) tt).1.

Inductive ReconstructError := BincodeFailed.

Fixpoint reconstruct_entries_from_blobs (blobs : list Blob) (entries : list Entry) (num_ticks : Z)
    : res ReconstructError (list Entry * Z) :=
  match blobs with
  | [] => Ok (entries, num_ticks)
  | blob :: blobs' =>
      let msg_size := blob_size blob in
      if Z.of_nat (length (blob_data blob)) <? msg_size then Panic
      else
      new_entries ← ok_or (deserialize (take (Z.to_nat msg_size) (blob_data blob))) BincodeFailed;
      let num_new_ticks := u64_sum ((λ e, Z.b2z (is_tick e)) <$> new_entries) in
      reconstruct_entries_from_blobs blobs' (entries ++ new_entries)
        (u64_add num_ticks num_new_ticks)
  end.
End Entries.
End entry.

Module poh_proofs.
Import poh entry.

Section Proofs.
Context (sha256 : list Z → Hash).
Notation hash_of := (hash_of sha256).
Notation hash_with := (hash_with sha256).

(** ** The hash chain *)

(** The hash that follows [h] by [n] hashes, the last of them with the
    transactions mixed in. *)
Definition chain (h : Hash) (n : Z) (txs : list Transaction) : Hash :=
  if is_empty txs then Nat.iter (Z.to_nat n) hash_of h
  else hash_with (Nat.iter (Z.to_nat (n - 1)) hash_of h) (hash_transactions sha256 txs).

Definition poh_ok (p : Poh) : Prop :=
  1 < p.(hashes_per_tick) ≤ u64_max ∧ 1 ≤ p.(remaining_hashes) ∧ 0 ≤ p.(poh_num_hashes) ∧
  p.(poh_num_hashes) + p.(remaining_hashes) ≤ p.(hashes_per_tick).

Lemma Poh_hash_spec {E} n p :
  poh_ok p → 0 ≤ n →
  let k := Z.min (p.(remaining_hashes) - 1) n in
  Poh_hash (E:=E) sha256 n p =
    (Ok (p.(remaining_hashes) - k =? 1),
     mkPoh (Nat.iter (Z.to_nat k) hash_of p.(poh_hash)) (p.(poh_num_hashes) + k)
       p.(hashes_per_tick) (p.(remaining_hashes) - k)).
Proof.
  intros (Hh & Hr & Hn & Hs) Hn0. unfold u64_max in *. cbn zeta. unfold Poh_hash. unfold_monad.
  rewrite (u64_sub_exact _ 1) by (unfold is_u64; lia).
  rewrite u64_add_exact, u64_sub_exact by (unfold is_u64; lia). cbn.
  by rewrite (proj2 (Z.ltb_lt 0 _)) by lia.
Qed.

Lemma Poh_record_spec {E} mixin p :
  poh_ok p → p.(remaining_hashes) ≠ 1 →
  let h := hash_with p.(poh_hash) mixin in
  Poh_record (E:=E) sha256 mixin p =
    (Ok (Some (mkPohEntry (p.(poh_num_hashes) + 1) h)),
     mkPoh h 0 p.(hashes_per_tick) (p.(remaining_hashes) - 1)).
Proof.
  intros (Hh & Hr & Hn & Hs) Hne. unfold u64_max in *. cbn zeta. unfold Poh_record. unfold_monad.
  rewrite (proj2 (Z.eqb_neq _ 1)) by done.
  by rewrite u64_add_exact, u64_sub_exact by (unfold is_u64; lia).
Qed.

Lemma Poh_tick_spec {E} p :
  poh_ok p →
  let h := hash_of p.(poh_hash) in
  Poh_tick (E:=E) sha256 p =
    if (p.(hashes_per_tick) <? u64_max) && negb (p.(remaining_hashes) =? 1)
    then (Ok None, mkPoh h (p.(poh_num_hashes) + 1) p.(hashes_per_tick) (p.(remaining_hashes) - 1))
    else (Ok (Some (mkPohEntry (p.(poh_num_hashes) + 1) h)),
          mkPoh h 0 p.(hashes_per_tick) p.(hashes_per_tick)).
Proof.
  intros (Hh & Hr & Hn & Hs). cbn zeta. unfold Poh_tick. unfold_monad.
  rewrite u64_add_exact, u64_sub_exact by (unfold is_u64, u64_max in *; lia). cbn.
  replace (remaining_hashes p - 1 =? 0) with (remaining_hashes p =? 1)
    by (destruct (Z.eqb_spec (remaining_hashes p) 1), (Z.eqb_spec (remaining_hashes p - 1) 0); lia).
  by destruct (_ && _).
Qed.

Lemma next_hash_spec {E} h n txs :
  1 ≤ n ≤ u64_max → (n = u64_max → txs = []) →
  next_hash (E:=E) sha256 h n txs = Ok (chain h n txs).
Proof.
  intros Hn Hmax. unfold next_hash. rewrite (proj2 (Z.eqb_neq n 0)) by lia. cbn [andb].
  unfold Poh_new, default, mbind at 1, res_bind at 1. cbn [negb]. unfold u64_saturating_sub.
  set (p := mkPoh h 0 u64_max u64_max).
  assert (poh_ok p) as Hp by (subst p; unfold poh_ok; cbn; unfold u64_max; lia).
  unfold_monad. change (negb (1 <? u64_max)) with false. cbn iota.
  rewrite Poh_hash_spec by (done || lia). cbn [remaining_hashes poh_hash poh_num_hashes hashes_per_tick p].
  rewrite !(Z.min_r (u64_max - 1)) by lia. rewrite !Z.max_r by lia.
  set (p' := mkPoh _ _ _ _).
  assert (poh_ok p') as Hp' by (subst p'; unfold poh_ok; cbn; unfold u64_max in *; lia).
  unfold chain. destruct txs as [|t txs]; cbn [is_empty].
  - rewrite Poh_tick_spec by done. cbn [hashes_per_tick p'].
    change (u64_max <? u64_max) with false. cbn. repeat f_equal.
    replace (Z.to_nat n) with (S (Z.to_nat (n - 1))) by lia. done.
  - rewrite Poh_record_spec; [done|done|]. cbn. intros H1. assert (n = u64_max) by lia.
    by specialize (Hmax ltac:(done)).
Qed.

(** ** What a clock produces *)

Definition entry_of (txs : list Transaction) (r : res Empty_set (option PohEntry)) : list Entry :=
  match r with
  | Ok (Some e) => [mkEntry e.(pe_num_hashes) e.(pe_hash) txs]
  | _ => []
  end.

(** A clock that was started at [start] and driven by any sequence of calls, and
    the entries that were made of what it returned. *)
Inductive poh_run (start : Hash) (config : option Z) : Poh → list Entry → Prop :=
| run_new p : Poh_new (E:=Empty_set) start config = Ok p → poh_run start config p []
| run_hash p es n : poh_run start config p es → 0 ≤ n →
    poh_run start config (Poh_hash (E:=Empty_set) sha256 n p).2 es
| run_tick p es : poh_run start config p es →
    poh_run start config (Poh_tick (E:=Empty_set) sha256 p).2
      (es ++ entry_of [] (Poh_tick sha256 p).1)
| run_record p es txs : poh_run start config p es → txs ≠ [] →
    let mixin := hash_transactions sha256 txs in
    poh_run start config (Poh_record (E:=Empty_set) sha256 mixin p).2
      (es ++ entry_of txs (Poh_record sha256 mixin p).1).

(** The numbers of hashes between ticks: of the complete ticks, and since the
    last one. *)
Definition tick_step (acc : list Z * Z) (e : Entry) : list Z * Z :=
  if is_tick e then (acc.1 ++ [acc.2 + e.(num_hashes)], 0) else (acc.1, acc.2 + e.(num_hashes)).
Definition ticks_of (es : list Entry) : list Z * Z := foldl tick_step ([], 0) es.

Definition last_hash (start : Hash) (es : list Entry) : Hash :=
  from_option entry_hash start (last es).

Lemma verify_snoc {E} es e : ∀ start,
  EntrySlice_verify (E:=E) sha256 start es = Ok true →
  EntrySlice_verify (E:=E) sha256 start (es ++ [e]) =
    Entry_verify sha256 (last_hash start es) e.
Proof.
  induction es as [|x es IH]; intros start; cbn [app EntrySlice_verify].
  - intros _. unfold last_hash. cbn. by destruct (Entry_verify sha256 start e) as [[]| |].
  - destruct (Entry_verify sha256 start x) as [[]| |]; cbn; [|done..].
    intros Hv. rewrite (IH _ Hv). unfold last_hash. rewrite last_cons. by destruct (last es).
Qed.

Lemma last_hash_snoc start es e : last_hash start (es ++ [e]) = e.(entry_hash).
Proof. unfold last_hash. by rewrite last_snoc. Qed.

Lemma ticks_of_snoc es e : ticks_of (es ++ [e]) = tick_step (ticks_of es) e.
Proof. unfold ticks_of. by rewrite foldl_snoc. Qed.

(** What holds between the calls. *)
Record run_inv (start : Hash) (config : option Z) (p : Poh) (es : list Entry) : Prop := {
  inv_ok : poh_ok p;
  inv_config : p.(hashes_per_tick) = default u64_max config;
  inv_hash : p.(poh_hash) = Nat.iter (Z.to_nat p.(poh_num_hashes)) hash_of (last_hash start es);
  inv_verify : EntrySlice_verify (E:=Empty_set) sha256 start es = Ok true;
  inv_pending : (ticks_of es).2 + p.(poh_num_hashes) + p.(remaining_hashes) = p.(hashes_per_tick);
  inv_ticks : p.(hashes_per_tick) < u64_max → Forall (λ n, n = p.(hashes_per_tick)) (ticks_of es).1
}.

Lemma entry_verifies {E} prev n txs :
  1 ≤ n ≤ u64_max → (n = u64_max → txs = []) →
  Entry_verify (E:=E) sha256 prev (mkEntry n (chain prev n txs) txs) = Ok true.
Proof.
  intros Hn Hmax. unfold Entry_verify. cbn [num_hashes transactions entry_hash].
  rewrite next_hash_spec by done. cbn. by rewrite Z.eqb_refl.
Qed.

Lemma run_inv_new start config p :
  (∀ n, config = Some n → n ≤ u64_max) →
  Poh_new (E:=Empty_set) start config = Ok p → run_inv start config p [].
Proof.
  intros Hc. unfold Poh_new. destruct (Z.ltb_spec 1 (default u64_max config)); [|done].
  intros [= <-]. assert (default u64_max config ≤ u64_max) by (destruct config; cbn; [auto|lia]).
  split; cbn; [|done..|intros; constructor]. unfold poh_ok. cbn. lia.
Qed.

Lemma run_inv_hash start config p es n :
  run_inv start config p es → 0 ≤ n → run_inv start config (Poh_hash (E:=Empty_set) sha256 n p).2 es.
Proof.
  intros [Hok Hc Hh Hv Hp Ht] Hn. rewrite Poh_hash_spec by done. cbn.
  destruct (Hok) as (? & ? & ? & ?). split; cbn; [|done| |done|lia|done].
  - unfold poh_ok. cbn. lia.
  - rewrite Hh, <-Nat.iter_add. f_equal. lia.
Qed.

Lemma run_inv_record start config p es txs :
  run_inv start config p es → txs ≠ [] →
  let mixin := hash_transactions sha256 txs in
  run_inv start config (Poh_record (E:=Empty_set) sha256 mixin p).2
    (es ++ entry_of txs (Poh_record sha256 mixin p).1).
Proof.
  intros [Hok Hc Hh Hv Hp Ht] Hne. cbn zeta. destruct (Hok) as (? & ? & ? & ?).
  assert (is_empty txs = false) as He by (by destruct txs).
  destruct (Z.eq_dec (remaining_hashes p) 1) as [Hr1|Hr1].
  { unfold Poh_record. unfold_monad. rewrite Hr1. cbn. rewrite app_nil_r. by split. }
  rewrite !Poh_record_spec by done. cbn [entry_of fst snd pe_num_hashes pe_hash].
  set (h := hash_with _ _).
  assert (h = chain (last_hash start es) (poh_num_hashes p + 1) txs) as Hchain.
  { unfold h, chain. rewrite He, Hh. do 3 f_equal. lia. }
  split; cbn [poh_hash poh_num_hashes hashes_per_tick remaining_hashes].
  - unfold poh_ok. cbn. lia.
  - done.
  - by rewrite last_hash_snoc.
  - rewrite (verify_snoc _ _ _ Hv), Hchain. apply entry_verifies; [lia|intros; lia].
  - rewrite ticks_of_snoc. unfold tick_step, is_tick. cbn. rewrite He. cbn. lia.
  - rewrite ticks_of_snoc. unfold tick_step, is_tick. cbn. by rewrite He.
Qed.

Lemma run_inv_tick start config p es :
  run_inv start config p es →
  run_inv start config (Poh_tick (E:=Empty_set) sha256 p).2
    (es ++ entry_of [] (Poh_tick sha256 p).1).
Proof.
  intros [Hok Hc Hh Hv Hp Ht]. rewrite !Poh_tick_spec by done.
  destruct (Hok) as (? & ? & ? & ?).
  assert (hash_of (poh_hash p) = chain (last_hash start es) (poh_num_hashes p + 1) []) as Hchain.
  { unfold chain. cbn [is_empty]. rewrite Hh.
    by replace (Z.to_nat (poh_num_hashes p + 1)) with (S (Z.to_nat (poh_num_hashes p))) by lia. }
  destruct ((_ <? _) && _) eqn:Hb; cbn [entry_of fst snd pe_num_hashes pe_hash].
  - apply andb_true_iff in Hb as [_ Hb%negb_true_iff%Z.eqb_neq]. rewrite app_nil_r.
    split; cbn; [|done| |done|lia|done]; [unfold poh_ok; cbn; lia|]. by rewrite Hchain.
  - split; cbn [poh_hash poh_num_hashes hashes_per_tick remaining_hashes].
    + unfold poh_ok. cbn. lia.
    + done.
    + by rewrite last_hash_snoc.
    + rewrite (verify_snoc _ _ _ Hv), Hchain. apply entry_verifies; [lia|done].
    + rewrite ticks_of_snoc. cbn. lia.
    + intros Hlt. rewrite ticks_of_snoc. cbn. apply Forall_app. split; [auto|].
      apply Forall_singleton. rewrite (proj2 (Z.ltb_lt _ _) Hlt) in Hb. cbn in Hb.
      apply negb_false_iff, Z.eqb_eq in Hb. lia.
Qed.

Lemma run_invariant start config p es :
  (∀ n, config = Some n → n ≤ u64_max) → poh_run start config p es → run_inv start config p es.
Proof.
  intros Hc. induction 1; eauto using run_inv_new, run_inv_hash, run_inv_tick.
  by apply run_inv_record.
Qed.

(** Entries with the same counts and transactions that both verify are the
    same. *)
Lemma verify_unique start es : ∀ es',
  (λ e, (e.(num_hashes), e.(transactions))) <$> es =
    (λ e, (e.(num_hashes), e.(transactions))) <$> es' →
  EntrySlice_verify (E:=Empty_set) sha256 start es = Ok true →
  EntrySlice_verify (E:=Empty_set) sha256 start es' = Ok true → es = es'.
Proof.
  revert start. induction es as [|[n h txs] es IH]; intros start [|[n' h' txs'] es']; [done..|].
  cbn [fmap list_fmap num_hashes transactions]. intros [= <- <- Hrest].
  cbn [EntrySlice_verify]. unfold Entry_verify. cbn [num_hashes transactions entry_hash].
  destruct (next_hash sha256 start n txs) as [r| |]; cbn; [|done..].
  destruct (Z.eqb_spec h r) as [->|]; [|done]. destruct (Z.eqb_spec h' r) as [->|]; [|done].
  intros H1 H2. f_equal. by eapply IH.
Qed.

(** C26. The clock and the verifier agree.  However a clock is driven, the
    entries made of what it returns pass [EntrySlice::verify] from its starting
    hash, and no other hashes do for the same counts and transactions; with a
    fixed number of hashes per tick, the entries between two ticks, the second
    included, account for exactly that number. *)
Theorem poh_entries_verify start config p es
    (Hconfig : ∀ n, config = Some n → n ≤ u64_max) (Hrun : poh_run start config p es) :
  EntrySlice_verify (E:=Empty_set) sha256 start es = Ok true ∧
  (∀ es', (λ e, (e.(num_hashes), e.(transactions))) <$> es =
            (λ e, (e.(num_hashes), e.(transactions))) <$> es' →
     EntrySlice_verify (E:=Empty_set) sha256 start es' = Ok true → es' = es) ∧
  (∀ n, config = Some n → n < u64_max → Forall (λ k, k = n) (ticks_of es).1).
Proof.
  destruct (run_invariant start config p es Hconfig Hrun) as [Hok Hc Hh Hv Hp Ht].
  split_and!; [done| |].
  - intros es' Heq Hv'. symmetry. by eapply verify_unique.
  - intros n -> Hn. cbn in Hc. rewrite Hc in Ht. auto.
Qed.
End Proofs.
End poh_proofs.

Module chunk_proofs.
Import blob entry.

Section Chunks.
Context {T : Type} (size : list T → Z) (max : Z).

(** ** The search for the longest prefix that fits *)

Section Fit.
Context (l : list T).
Notation fits k := (size (take k l) ≤ max).

Definition is_fit (k : nat) : Prop :=
  (k = 0%nat ∧ ¬ fits 1) ∨
  ((1 ≤ k ≤ length l)%nat ∧ fits k ∧ ((k < length l)%nat → ¬ fits (S k))).

Lemma fit_loop_spec fuel : ∀ num upper lower : nat,
  (1 ≤ lower ≤ num)%nat → (num ≤ upper ≤ length l)%nat →
  (num = upper → upper = length l) → ((num < upper)%nat → ¬ fits upper) →
  (num = lower → (upper ≤ lower + 1)%nat) → (lower = 1%nat ∨ fits lower) →
  (upper - lower + (if decide (num = upper) then 1 else 0) < fuel)%nat →
  ∃ k, fit_loop size fuel l max num upper lower = Some k ∧ is_fit k.
Proof.
  induction fuel as [|fuel IH]; intros num upper lower Hlo Hup Htop Hnot Hlow Hfl Hfuel; [lia|].
  cbn [fit_loop]. destruct (Z.leb_spec (size (take num l)) max) as [Hfit|Hfit].
  - pose proof (Nat.div_mod (upper + num) 2 ltac:(lia)) as Hdm.
    pose proof (Nat.mod_upper_bound (upper + num) 2 ltac:(lia)) as Hmod.
    destruct (Nat.eqb_spec ((upper + num) / 2) num) as [Heq|Hne].
    + exists num. split; [done|]. right. split_and!; [lia|lia|done|]. intros Hlt.
      assert (upper = S num) as <- by lia. apply Hnot. lia.
    + apply IH; [lia|lia|lia|intros; apply Hnot; lia|lia|by right|].
      repeat case_decide; lia.
  - destruct (Nat.eqb_spec num 1) as [->|Hn1].
    { exists 0%nat. split; [done|]. left. split; [done|lia]. }
    pose proof (Nat.div_mod (lower + num) 2 ltac:(lia)) as Hdm.
    pose proof (Nat.mod_upper_bound (lower + num) 2 ltac:(lia)) as Hmod.
    destruct (Nat.eqb_spec ((lower + num) / 2) num) as [Heq|Hne].
    + assert (lower = num) as -> by lia. destruct Hfl; lia.
    + apply IH; [lia|lia|lia|intros; lia|lia|done|]. repeat case_decide; lia.
Qed.

Lemma num_will_fit_spec : l ≠ [] →
  ∃ k, num_will_fit size (length l + 2) l max = Some k ∧ is_fit k.
Proof.
  intros Hne. unfold num_will_fit. assert (0 < length l)%nat by (destruct l; cbn; [done|lia]).
  destruct l eqn:Hl; [done|]. rewrite <-Hl in *.
  apply fit_loop_spec; try lia. case_decide; lia.
Qed.
End Fit.

(** ** Cutting a slice *)

Context {R S E : Type} (converter : list T → M S E R).
Notation split fuel l := (split_serializable_chunks size fuel l max converter).

(** The chunks that the loop makes when every element fits alone. *)
Lemma split_chunks l :
  (∀ x, x ∈ l → size [x] ≤ max) →
  ∃ chunks, mjoin chunks = l ∧ Forall (λ c, c ≠ [] ∧ size c ≤ max) chunks ∧
    ∀ fuel s, (length l < fuel)%nat → split fuel l s =
      (foldr (λ c (m : M S E (option (list R))),
                r ← converter c; rest ← m; mret (cons r <$> rest)) (mret (Some [])) chunks) s.
Proof.
  induction l as [l IH] using (induction_ltof1 _ length). unfold ltof in IH.
  intros Hall. destruct l as [|x l'] eqn:Hl.
  { exists []. split_and!; [done|constructor|]. by intros [|fuel]. }
  rewrite <-Hl in *. assert (l ≠ []) as Hne by (by rewrite Hl).
  destruct (num_will_fit_spec l Hne) as (k & Hk & Hfit).
  assert ((1 ≤ k ≤ length l)%nat ∧ size (take k l) ≤ max) as [Hk1 Hsize].
  { destruct Hfit as [[_ Hno]|(? & ? & _)]; [|done]. exfalso. apply Hno. rewrite Hl. cbn.
    rewrite take_0. apply Hall. rewrite Hl. left. }
  destruct (IH (drop k l)) as (chunks & Hj & Hc & Hrun).
  { rewrite length_drop. lia. }
  { intros y Hy. apply Hall. rewrite <-(take_drop k l). set_solver. }
  exists (take k l :: chunks). split_and!.
  - rewrite mjoin_cons, Hj. apply take_drop.
  - constructor; [|done]. split; [|done]. intros Hnil%(f_equal length).
    rewrite length_take in Hnil. cbn in Hnil. lia.
  - intros [|fuel] s Hfuel; [lia|]. cbn [foldr]. rewrite Hl. cbn [split_serializable_chunks].
    rewrite <-Hl, Hk.
    unfold mbind at 1 3, M_bind at 1 3. destruct (converter (take k l) s) as [[r| |] s']; [|done..].
    unfold mbind, M_bind. by rewrite Hrun by (rewrite length_drop; lia).
Qed.

(** An element that does not fit alone stops the loop from advancing: it makes
    empty chunks for ever. *)
Lemma split_diverges l x fuel s r s' :
  (∀ l1 l2, max < size (l1 ++ x :: l2)) → x ∈ l → split fuel l s = (Ok r, s') → r = None.
Proof.
  intros Hbig. revert l s r s'.
  induction fuel as [|fuel IH]; intros l s r s' Hx; destruct l as [|y l'] eqn:Hl;
    [by apply not_elem_of_nil in Hx|by intros [= <- <-]|by apply not_elem_of_nil in Hx|].
  cbn [split_serializable_chunks]. rewrite <-Hl in *.
  destruct (num_will_fit_spec l ltac:(by rewrite Hl)) as (k & -> & Hfit).
  intros (c & s1 & Hc & (rest & s2 & Hrest & Hr)%bind_ok)%bind_ok. injection Hr as <- <-.
  rewrite (IH (drop k l) s1 rest s2); [done| |done].
  rewrite <-(take_drop k l) in Hx. apply elem_of_app in Hx as [Hx|Hx]; [|done].
  exfalso. destruct Hfit as [[-> _]|(_ & Hsize & _)]; [by rewrite take_0 in Hx; inversion Hx|].
  apply list_elem_of_split in Hx as (l1 & l2 & Heq). rewrite Heq in Hsize.
  specialize (Hbig l1 l2). lia.
Qed.
End Chunks.
End chunk_proofs.

Module entry_proofs.
Import poh blob entry poh_proofs chunk_proofs.

(** ** Blobs *)

Lemma le_val_enc n : ∀ z, 0 ≤ z < 256 ^ Z.of_nat n →
  foldr (λ byte acc, byte + 256 * acc) 0 (le_enc n z) = z.
Proof.
  induction n as [|n IH]; intros z Hz; [cbn in *; lia|]. cbn [le_enc foldr].
  rewrite Nat2Z.inj_succ, Z.pow_succ_r in Hz by lia. rewrite IH.
  - pose proof (Z.div_mod z 256). lia.
  - split; [apply Z.div_pos; lia|apply Z.div_lt_upper_bound; lia].
Qed.

Lemma data_size_set n b :
  Z.of_nat (length b.(blob_bytes)) = BLOB_SIZE → is_u64 n → data_size (set_data_size n b) = n.
Proof.
  intros Hl Hn. change BLOB_SIZE with 65408 in Hl.
  unfold data_size, set_data_size. cbn [blob_bytes]. change SIZE_RANGE.1 with 93%nat.
  change SIZE_RANGE.2 with 8%nat.
  rewrite drop_app_length' by (rewrite length_take; lia).
  rewrite take_app_length' by (by rewrite length_le_enc). by apply le_val_enc.
Qed.

Lemma blob_data_set_size n b :
  Z.of_nat (length b.(blob_bytes)) = BLOB_SIZE → blob_data (set_size n b) = blob_data b.
Proof.
  intros Hl. change BLOB_SIZE with 65408 in Hl.
  unfold blob_data, set_size, set_data_size. cbn [blob_bytes].
  change SIZE_RANGE.1 with 93%nat. change (93 + SIZE_RANGE.2)%nat with 101%nat.
  change (Z.to_nat BLOB_HEADER_SIZE) with 112%nat.
  rewrite app_assoc, drop_app_ge by (rewrite length_app, length_take, length_le_enc; lia).
  rewrite drop_drop. f_equal. rewrite length_app, length_take, length_le_enc. lia.
Qed.

Section Entries.
Context (sha256 : list Z → Hash).
Context `{!Ranged Transaction, !Bincode Transaction}.

Definition entry_ranged (e : Entry) : Prop :=
  is_u64 e.(num_hashes) ∧ is_key e.(entry_hash) ∧ Forall in_range e.(transactions) ∧
  is_u64 (Z.of_nat (length e.(transactions))).

#[export] Instance entries_ranged : Ranged (list Entry) := λ es,
  Forall entry_ranged es ∧ is_u64 (Z.of_nat (length es)).

Context `{!Bincode (list Entry), !BincodeLaws (list Entry)}.

(** A blob carries what it was made of. *)
Definition carries (b : Blob) (es : list Entry) : Prop :=
  Z.of_nat (length b.(blob_bytes)) = BLOB_SIZE ∧
  blob_size b = serialized_size es ∧
  take (Z.to_nat (blob_size b)) (blob_data b) = serialize es.

Lemma from_serializable_carries {E} (es : list Entry) :
  serialized_size es ≤ BLOB_DATA_SIZE →
  ∃ b, from_serializable (E:=E) es = Ok b ∧ carries b es.
Proof.
  unfold serialized_size. change BLOB_DATA_SIZE with 65184. intros Hsize.
  unfold from_serializable.
  assert (Z.of_nat (length (blob_data Blob_default)) = 65296) as Hroom.
  { unfold blob_data, Blob_default. cbn [blob_bytes]. rewrite length_drop, length_replicate.
    change BLOB_SIZE with 65408. change BLOB_HEADER_SIZE with 112. lia. }
  rewrite serialize_into_fits by lia. eexists. split; [done|].
  set (d := serialize es ++ _).
  assert (Z.of_nat (length d) = 65296) as Hd by (unfold d; rewrite length_app, length_drop; lia).
  set (b := with_blob_data d Blob_default).
  assert (Z.of_nat (length b.(blob_bytes)) = BLOB_SIZE) as Hb.
  { unfold b, with_blob_data, Blob_default. cbn [blob_bytes].
    rewrite length_app, length_take, length_replicate.
    change BLOB_SIZE with 65408. change BLOB_HEADER_SIZE with 112. lia. }
  assert (blob_size (set_size (serialized_size es) b) = serialized_size es) as Hbs.
  { unfold blob_size, set_size, serialized_size. rewrite u64_add_exact
      by (change BLOB_HEADER_SIZE with 112; lia).
    rewrite data_size_set; [|exact Hb|unfold is_u64; change BLOB_HEADER_SIZE with 112; lia].
    cbn [meta_size set_data_size]. rewrite Z.eqb_refl, andb_true_r.
    destruct (Z.ltb_spec BLOB_HEADER_SIZE (Z.of_nat (length (serialize es)) + BLOB_HEADER_SIZE));
      change BLOB_HEADER_SIZE with 112 in *; lia. }
  split_and!; [|done|].
  - unfold set_size, set_data_size. cbn [blob_bytes]. rewrite !length_app, length_take, length_le_enc,
      length_drop. change SIZE_RANGE with (93, 8)%nat. cbn [fst snd].
    change BLOB_SIZE with 65408 in *. lia.
  - rewrite Hbs, blob_data_set_size by done. unfold b, blob_data, with_blob_data. cbn [blob_bytes].
    rewrite drop_app_length' by (rewrite length_take; unfold Blob_default; cbn [blob_bytes];
      rewrite length_replicate; change BLOB_SIZE with 65408; change BLOB_HEADER_SIZE with 112; lia).
    unfold serialized_size, d. rewrite Nat2Z.id. by rewrite take_app_length.
Qed.

Lemma to_blobs_fold {E} chunks :
  Forall (λ c, c ≠ [] ∧ serialized_size c ≤ BLOB_DATA_SIZE) chunks →
  ∃ blobs, foldr (λ c (m : M unit E (option (list Blob))),
      r ← liftM (from_serializable c); rest ← m; mret (cons r <$> rest))
      (mret (Some [])) chunks tt = (Ok (Some blobs), tt) ∧ Forall2 carries blobs chunks.
Proof.
  induction 1 as [|c chunks [_ Hc] _ (blobs & IH & Hall)]; [by exists []|].
  destruct (from_serializable_carries (E:=E) c Hc) as (b & Hb & Hcar).
  exists (b :: blobs). cbn [foldr]. set (tail := foldr _ _ chunks) in *. unfold mbind, M_bind, liftM. rewrite Hb, IH.
  split; [done|]. by constructor.
Qed.

Definition tick_count (es : list Entry) : Z := Z.of_nat (length (filter (λ e, is_tick e = true) es)).

Lemma u64_sum_ticks es :
  u64_sum ((λ e, Z.b2z (is_tick e)) <$> es) = wrap64 (tick_count es).
Proof.
  rewrite u64_sum_wrap. f_equal. unfold tick_count.
  induction es as [|e es IH]; [done|]. rewrite fmap_cons, filter_cons. cbn [Zsum]. rewrite IH.
  destruct (is_tick e); case_decide; cbn [Z.b2z length]; (done || lia).
Qed.

Lemma tick_count_app es es' : tick_count (es ++ es') = tick_count es + tick_count es'.
Proof. unfold tick_count. rewrite filter_app, length_app. lia. Qed.

Lemma reconstruct_chunks blobs chunks : Forall2 carries blobs chunks → ∀ es n,
  Forall in_range chunks →
  reconstruct_entries_from_blobs blobs es n =
    Ok (es ++ mjoin chunks, match chunks with [] => n | _ => wrap64 (n + tick_count (mjoin chunks)) end).
Proof.
  induction 1 as [|b c blobs chunks (Hlen & Hsize & Hdata) Hall IH]; intros es n Hr.
  { cbn. by rewrite app_nil_r. }
  apply Forall_cons in Hr as [Hc Hr]. cbn [reconstruct_entries_from_blobs].
  assert (Z.of_nat (length (blob_data b)) <? blob_size b = false) as ->.
  { apply Z.ltb_ge. apply (f_equal length) in Hdata. rewrite length_take in Hdata.
    rewrite Hsize in Hdata |- *. unfold serialized_size in *. lia. }
  rewrite Hdata, <-(app_nil_r (serialize c)), deserialize_serialize by done. cbn [ok_or mbind res_bind].
  rewrite IH, u64_sum_ticks, mjoin_cons, app_assoc by done. do 2 f_equal.
  unfold u64_add. rewrite wrap64_add_r. destruct chunks; [by rewrite app_nil_r|].
  rewrite wrap64_add_l. f_equal. rewrite !tick_count_app. lia.
Qed.

Lemma chunks_ranged (es : list Entry) chunks :
  mjoin chunks = es → in_range es → Forall in_range chunks.
Proof.
  intros <- [Hf Hl]. induction chunks as [|c chunks IH]; [done|]. rewrite mjoin_cons in *.
  apply Forall_app in Hf as [Hc Hf]. rewrite length_app in Hl. unfold is_u64 in *.
  constructor; [split; [done|unfold is_u64; lia]|]. apply IH; [done|lia].
Qed.

(** C33. Entries survive the blobs.  When every entry fits a blob alone, cutting
    the entries into blobs ends with blobs of the fixed size, and reading these
    gives back the entries in order and the number of their ticks.  When some
    entry does not fit, the cutting never returns any blobs, however long it
    runs.  [Hmono] is bincode's encoding of a vector: it is not shorter than
    that of one of its elements. *)
Theorem entries_survive_blobs (es : list Entry)
    (Hmono : ∀ l1 e l2, serialized_size [e] ≤ serialized_size (l1 ++ e :: l2))
    (Hr : in_range es) :
  if decide (Forall (λ e, serialized_size [e] ≤ BLOB_DATA_SIZE) es)
  then ∃ blobs, (∀ fuel, (length es < fuel)%nat →
           to_blobs (E:=ReconstructError) fuel es = Ok (Some blobs)) ∧
         Forall (λ b, Z.of_nat (length b.(blob_bytes)) = BLOB_SIZE) blobs ∧
         reconstruct_entries_from_blobs blobs [] 0 = Ok (es, tick_count es)
  else ∀ fuel blobs, to_blobs (E:=ReconstructError) fuel es ≠ Ok (Some blobs).
Proof.
  case_decide as Hfit.
  - rewrite Forall_forall in Hfit.
    destruct (split_chunks serialized_size BLOB_DATA_SIZE
      (λ c, liftM (S:=unit) (E:=ReconstructError) (from_serializable c)) es Hfit)
      as (chunks & Hj & Hc & Hrun).
    destruct (to_blobs_fold (E:=ReconstructError) chunks Hc) as (blobs & Hb & Hcar).
    exists blobs. split_and!.
    + intros fuel Hfuel. unfold to_blobs. by rewrite Hrun, Hb.
    + clear -Hcar. induction Hcar as [|b c ?? [Hl _]]; by constructor.
    + rewrite (reconstruct_chunks _ _ Hcar), Hj by (by eapply chunks_ranged). cbn. do 2 f_equal.
      destruct chunks; [by rewrite <-Hj|]. apply wrap64_small. destruct Hr as [_ Hl].
      unfold tick_count, is_u64 in *. pose proof (length_filter (λ e, is_tick e = true) es). lia.
  - intros fuel blobs Hrun. apply not_Forall_Exists, Exists_exists in Hfit as (e & He & Hbig); [|apply _].
    unfold to_blobs in Hrun. destruct (split_serializable_chunks _ _ _ _ _ tt) as [r []] eqn:Hs.
    cbn in Hrun. subst r. eapply split_diverges in Hs; [done| |exact He].
    intros l1 l2. specialize (Hmono l1 e l2). cbn in Hbig. lia.
Qed.
End Entries.
End entry_proofs.

Module entry_demo.
Import message poh blob entry poh_proofs chunk_proofs entry_proofs.

(** A stand-in for SHA-256 that is easy to evaluate. *)
Definition demo_sha (bytes : list Z) : Hash := foldl (λ h b, (h * 31 + b + 7) mod 65521) 1 bytes.

Definition compiled_codec : codec CompiledInstruction.
Proof.
  refine (map_codec (pair_codec u8_codec (pair_codec (list_codec u8_codec) (list_codec u8_codec)))
    (λ i, (i.(program_ids_index), (i.(ci_accounts), i.(ci_data))))
    (λ '(a, (b, c)), Some (mkCompiledInstruction a b c)) _ _).
  - by intros [].
  - by intros (?&?&?) ? [= <-].
Defined.

Definition header_codec : codec MessageHeader.
Proof.
  refine (map_codec (pair_codec u8_codec (pair_codec u8_codec u8_codec))
    (λ h, (h.(num_required_signatures),
           (h.(num_credit_only_signed_accounts), h.(num_credit_only_unsigned_accounts))))
    (λ '(a, (b, c)), Some (mkMessageHeader a b c)) _ _).
  - by intros [].
  - by intros (?&?&?) ? [= <-].
Defined.

Definition transaction_codec : codec Transaction.
Proof.
  refine (map_codec (pair_codec (list_codec (list_codec u8_codec)) (pair_codec header_codec
      (pair_codec (list_codec key_codec) (pair_codec key_codec (list_codec compiled_codec)))))
    (λ t, (t.(signatures), (t.(tx_message).(header), (t.(tx_message).(account_keys),
       (t.(tx_message).(recent_blockhash), t.(tx_message).(instructions))))))
    (λ '(s, (h, (k, (b, i)))), Some (mkTransaction s (mkMessage h k b i))) _ _).
  - by intros [? []].
  - by intros (?&?&?&?&?) ? [= <-].
Defined.

Definition entry_codec : codec Entry.
Proof.
  refine (map_codec (pair_codec u64_codec (pair_codec key_codec (list_codec transaction_codec)))
    (λ e, (e.(num_hashes), (e.(entry_hash), e.(transactions))))
    (λ '(n, (h, t)), Some (mkEntry n h t)) _ _).
  - by intros [].
  - by intros (?&?&?) ? [= <-].
Defined.

#[local] Instance demo_transaction_ranged : Ranged Transaction := valid transaction_codec.
#[local] Instance demo_transaction_bincode : Bincode Transaction := codec_bincode transaction_codec.
#[local] Instance demo_entries_bincode : Bincode (list Entry) :=
  codec_bincode (list_codec entry_codec).
#[local] Instance demo_entries_laws : BincodeLaws (list Entry).
Proof. apply codec_laws. intros es. done. Qed.

Definition demo_tx : Transaction :=
  mkTransaction [replicate 64 5] (mkMessage (mkMessageHeader 1 0 1) [3; 4] 9
    [mkCompiledInstruction 1 [0] [7]]).

Lemma poh_entries_verify_witness :
  ∃ p es, poh_run demo_sha 9 (Some 5) p es ∧ ticks_of es = ([5], 2) ∧
    EntrySlice_verify (E:=Empty_set) demo_sha 9 es = Ok true.
Proof.
  pose proof (run_new demo_sha 9 (Some 5) _ eq_refl) as Hrun.
  apply (run_hash demo_sha _ _ _ _ 2) in Hrun; [|lia].
  apply (run_record demo_sha _ _ _ _ [demo_tx]) in Hrun; [|done].
  apply (run_tick demo_sha) in Hrun.
  apply (run_tick demo_sha) in Hrun.
  apply (run_hash demo_sha _ _ _ _ 1) in Hrun; [|lia].
  apply (run_record demo_sha _ _ _ _ [demo_tx]) in Hrun; [|done].
  eexists _, _. split; [exact Hrun|]. split; [vm_compute; reflexivity|].
  apply (poh_entries_verify demo_sha 9 (Some 5) _ _ ltac:(by intros ? [= <-]) Hrun).
Defined.

Definition demo_entries : list Entry := [mkEntry 2 11 [demo_tx]; mkEntry 1 12 []; mkEntry 3 13 []].

Lemma demo_mono (l1 : list Entry) e l2 :
  serialized_size [e] ≤ serialized_size (l1 ++ e :: l2).
Proof.
  unfold serialized_size. apply inj_le. cbn [serialize demo_entries_bincode codec_bincode enc list_codec].
  rewrite fmap_app, fmap_cons, join_app, mjoin_cons, !length_app. cbn [fmap list_fmap].
  rewrite mjoin_cons, length_app. cbn [enc u64_codec int_codec mjoin list_join length].
  rewrite !length_le_enc. lia.
Qed.

Lemma entries_survive_blobs_witness :
  ∃ blobs, to_blobs (E:=ReconstructError) 4 demo_entries = Ok (Some blobs) ∧
    reconstruct_entries_from_blobs blobs [] 0 = Ok (demo_entries, 2).
Proof.
  assert (in_range demo_entries) as Hr.
  { split; [|done]. repeat constructor; done. }
  pose proof (entries_survive_blobs demo_entries demo_mono Hr) as H.
  rewrite decide_True in H.
  - destruct H as (blobs & Hb & _ & Hrec). exists blobs. split; [apply Hb; cbn; lia|exact Hrec].
  - apply (bool_decide_unpack _). vm_compute. exact I.
Defined.
End entry_demo.
