(* ===== verification/Recorder.v ===== *)
(** * The proof of history recorder

    core/src/waterClockRecorder.rs: the clock, the cache of ticks that no bank
    has taken yet, and the working bank to which ticks and recorded
    transactions are sent.

    A bank is its slot, its ticks per slot and its tick height.  What the
    recorder does to the outside is logged in its state: the messages on the
    channel (while the receiver is [connected]), the ticks registered with the
    banks, and the signals that a bank was cleared.  The leader schedule is the
    parameter [next_leader]: the next leader slot of this node after a slot. *)

From S2P Require Import Prelude Interface Codec Message Entry.

Import transaction poh entry.

Module poh_recorder.

Definition MAX_LAST_LEADER_GRACE_TICKS_FACTOR : Z := 2.

Inductive PohRecorderError := InvalidCallingObject | MaxHeightReached | MinHeightNotReached.
Inductive RecordError := RecorderErr (e : PohRecorderError) | SendError.

Record TickBank := mkTickBank { tb_slot : Z; tb_ticks_per_slot : Z; tb_tick_height : Z }.

Record WorkingBank := mkWorkingBank {
  wb_bank : TickBank;
  min_tick_height : Z;
  max_tick_height : Z
}.

Record PohRecorder := mkRecorder {
  rec_poh : Poh;
  tick_height : Z;
  start_slot : Z;
  start_tick : Z;
  tick_cache : list (Entry * Z);
  working_bank : option WorkingBank;
  start_leader_at_tick : option Z;
  last_leader_tick : option Z;
  max_last_leader_grace_ticks : Z;
  rec_hashes_per_tick : option Z;
  rec_ticks_per_slot : Z;
  connected : bool;
  sent : list (WorkingBank * list (Entry * Z));
  registered : list (Z * Hash);
  clear_signals : nat
}.

Definition with_poh p r := mkRecorder p (tick_height r) (start_slot r) (start_tick r)
  (tick_cache r) (working_bank r) (start_leader_at_tick r) (last_leader_tick r)
  (max_last_leader_grace_ticks r) (rec_hashes_per_tick r) (rec_ticks_per_slot r) (connected r)
  (sent r) (registered r) (clear_signals r).
Definition with_tick_height h r := mkRecorder (rec_poh r) h (start_slot r) (start_tick r)
  (tick_cache r) (working_bank r) (start_leader_at_tick r) (last_leader_tick r)
  (max_last_leader_grace_ticks r) (rec_hashes_per_tick r) (rec_ticks_per_slot r) (connected r)
  (sent r) (registered r) (clear_signals r).
Definition with_start sl st r := mkRecorder (rec_poh r) (tick_height r) sl st
  (tick_cache r) (working_bank r) (start_leader_at_tick r) (last_leader_tick r)
  (max_last_leader_grace_ticks r) (rec_hashes_per_tick r) (rec_ticks_per_slot r) (connected r)
  (sent r) (registered r) (clear_signals r).
Definition with_cache c r := mkRecorder (rec_poh r) (tick_height r) (start_slot r) (start_tick r)
  c (working_bank r) (start_leader_at_tick r) (last_leader_tick r)
  (max_last_leader_grace_ticks r) (rec_hashes_per_tick r) (rec_ticks_per_slot r) (connected r)
  (sent r) (registered r) (clear_signals r).
Definition with_bank w r := mkRecorder (rec_poh r) (tick_height r) (start_slot r) (start_tick r)
  (tick_cache r) w (start_leader_at_tick r) (last_leader_tick r)
  (max_last_leader_grace_ticks r) (rec_hashes_per_tick r) (rec_ticks_per_slot r) (connected r)
  (sent r) (registered r) (clear_signals r).
Definition with_leader s l r := mkRecorder (rec_poh r) (tick_height r) (start_slot r) (start_tick r)
  (tick_cache r) (working_bank r) s l
  (max_last_leader_grace_ticks r) (rec_hashes_per_tick r) (rec_ticks_per_slot r) (connected r)
  (sent r) (registered r) (clear_signals r).
Definition with_slot_ticks g t r := mkRecorder (rec_poh r) (tick_height r) (start_slot r)
  (start_tick r) (tick_cache r) (working_bank r) (start_leader_at_tick r) (last_leader_tick r)
  g (rec_hashes_per_tick r) t (connected r) (sent r) (registered r) (clear_signals r).
Definition with_sent s r := mkRecorder (rec_poh r) (tick_height r) (start_slot r) (start_tick r)
  (tick_cache r) (working_bank r) (start_leader_at_tick r) (last_leader_tick r)
  (max_last_leader_grace_ticks r) (rec_hashes_per_tick r) (rec_ticks_per_slot r) (connected r)
  s (registered r) (clear_signals r).
Definition with_registered g r := mkRecorder (rec_poh r) (tick_height r) (start_slot r)
  (start_tick r) (tick_cache r) (working_bank r) (start_leader_at_tick r) (last_leader_tick r)
  (max_last_leader_grace_ticks r) (rec_hashes_per_tick r) (rec_ticks_per_slot r) (connected r)
  (sent r) g (clear_signals r).
Definition signalled r := mkRecorder (rec_poh r) (tick_height r) (start_slot r) (start_tick r)
  (tick_cache r) (working_bank r) (start_leader_at_tick r) (last_leader_tick r)
  (max_last_leader_grace_ticks r) (rec_hashes_per_tick r) (rec_ticks_per_slot r) (connected r)
  (sent r) (registered r) (S (clear_signals r)).

Definition modify {E} (f : PohRecorder → PohRecorder) : M PohRecorder E unit :=
  r ← getM; putM (f r).

Definition compute_leader_slot_ticks (next_leader_slot : option Z) (ticks_per_slot grace_ticks : Z)
    : option Z * option Z :=
  match next_leader_slot with
  | Some slot =>
      (Some (u64_add (u64_mul slot ticks_per_slot) grace_ticks),
       Some (u64_sub (u64_mul (u64_add slot 1) ticks_per_slot) 1))
  | None => (None, None)
  end.

Section Recorder.
Context (sha256 : list Z → Hash).
Context (next_leader : Z → option Z).

Definition clear_bank {E} : M PohRecorder E unit :=
  r ← getM;
  match r.(working_bank) with
  | Some wb =>
      let bank := wb.(wb_bank) in
      let '(start, last) := compute_leader_slot_ticks (next_leader bank.(tb_slot))
                              bank.(tb_ticks_per_slot) r.(max_last_leader_grace_ticks) in
      putM (with_leader start last (with_bank None r))
  | None => mret tt
  end;;
  modify signalled.

Definition would_be_leader (within_next_n_ticks : Z) (r : PohRecorder) : bool :=
  let close_to_leader_tick :=
    match r.(start_leader_at_tick) with
    | Some leader_tick =>
        let ideal_start := u64_saturating_sub leader_tick r.(max_last_leader_grace_ticks) in
        (r.(tick_height) <=? default 0 r.(last_leader_tick)) &&
        (u64_saturating_sub ideal_start within_next_n_ticks <=? r.(tick_height))
    | None => false
    end in
  bool_decide (is_Some r.(working_bank)) || close_to_leader_tick.

Definition reached_leader_tick (r : PohRecorder) : bool * Z :=
  match r.(start_leader_at_tick) with
  | Some target_tick =>
      let ideal_start := u64_saturating_sub target_tick r.(max_last_leader_grace_ticks) in
      if (r.(tick_height) <=? default 0 r.(last_leader_tick)) &&
         ((target_tick <=? r.(tick_height)) ||
          (u64_saturating_sub target_tick r.(start_tick) <=? r.(max_last_leader_grace_ticks)))
      then (true, u64_saturating_sub r.(tick_height) ideal_start)
      else (false, 0)
  | None => (false, 0)
  end.

Definition reset {E} (tick_height : Z) (blockhash : Hash) (start_slot : Z)
    (my_next_leader_slot : option Z) (ticks_per_slot : Z) : M PohRecorder E unit :=
  clear_bank;;
  r ← getM;
  poh ← liftM (Poh_new blockhash r.(rec_hashes_per_tick));
  modify (with_poh poh);;
  modify (with_cache []);;
  modify (with_start start_slot (u64_add tick_height 1));;
  modify (with_tick_height tick_height);;
  let grace := ticks_per_slot / MAX_LAST_LEADER_GRACE_TICKS_FACTOR in
  let '(start, last) := compute_leader_slot_ticks my_next_leader_slot ticks_per_slot grace in
  modify (with_leader start last);;
  modify (with_slot_ticks grace ticks_per_slot).

Definition set_working_bank {E} (w : WorkingBank) : M PohRecorder E unit :=
  modify (with_bank (Some w)).

Definition set_bank {E} (bank : TickBank) : M PohRecorder E unit :=
  let max_tick_height :=
    u64_sub (u64_mul (u64_add bank.(tb_slot) 1) bank.(tb_ticks_per_slot)) 1 in
  let w := mkWorkingBank bank bank.(tb_tick_height) max_tick_height in
  r ← getM;
  putM (with_slot_ticks r.(max_last_leader_grace_ticks) bank.(tb_ticks_per_slot) r);;
  set_working_bank w.

(** [take_while] and [count] *)
Fixpoint count_until (max : Z) (cache : list (Entry * Z)) : nat :=
  match cache with
  | x :: cache' => if x.2 <=? max then S (count_until max cache') else O
  | [] => O
  end.

(** [sender.send]: whether it succeeded. *)
Definition send {E} (wb : WorkingBank) (es : list (Entry * Z)) : M PohRecorder E bool :=
  r ← getM;
  if r.(connected) then putM (with_sent (r.(sent) ++ [(wb, es)]) r);; mret true else mret false.

Definition flush_cache (tick : bool) : M PohRecorder RecordError unit :=
  r ← getM;
  match r.(working_bank) with
  | None => throw (RecorderErr MaxHeightReached)
  | Some wb =>
      if r.(tick_height) <? wb.(min_tick_height) then throw (RecorderErr MinHeightNotReached)
      else if tick && (r.(tick_height) =? wb.(min_tick_height))
      then throw (RecorderErr MinHeightNotReached)
      else
      let entry_count := count_until wb.(max_tick_height) r.(tick_cache) in
      let cache := take entry_count r.(tick_cache) in
      send_ok ← (if (0 <? entry_count)%nat then
                   putM (with_registered (r.(registered) ++
                     ((λ t, (wb.(wb_bank).(tb_slot), t.1.(entry_hash))) <$> cache)) r);;
                   send wb cache
                 else mret true);
      (if wb.(max_tick_height) <=? r.(tick_height) then
         (if wb.(wb_bank).(tb_ticks_per_slot) =? 0 then liftM Panic else mret tt);;
         let start := wb.(max_tick_height) / wb.(wb_bank).(tb_ticks_per_slot) in
         modify (with_start start (u64_mul (u64_add start 1) wb.(wb_bank).(tb_ticks_per_slot)));;
         clear_bank
       else mret tt);;
      if negb send_ok then clear_bank
      else modify (λ r, with_cache (drop entry_count r.(tick_cache)) r)
  end.

(** Runs an operation of the clock. *)
Definition on_poh {A} {E} (m : M Poh E A) : M PohRecorder E A :=
  λ r, let '(x, p) := m r.(rec_poh) in (x, with_poh p r).

(** [let _ = ...]: an error is dropped, a panic is not. *)
Definition ignore_error (m : M PohRecorder RecordError unit) : M PohRecorder RecordError unit :=
  λ r, match m r with
       | (Err _, r') => (Ok tt, r')
       | x => x
       end.

Definition tick : M PohRecorder RecordError unit :=
  poh_entry ← on_poh (Poh_tick sha256);
  match poh_entry with
  | None => mret tt
  | Some e =>
      modify (λ r, with_tick_height (u64_add r.(tick_height) 1) r);;
      r ← getM;
      match r.(start_leader_at_tick) with
      | None => mret tt
      | Some _ =>
          let entry := mkEntry e.(pe_num_hashes) e.(pe_hash) [] in
          putM (with_cache (r.(tick_cache) ++ [(entry, r.(tick_height))]) r);;
          ignore_error (flush_cache true)
      end
  end.

(** [None] when the fuel runs out. *)
Fixpoint record_loop (fuel : nat) (bank_slot : Z) (mixin : Hash) (txs : list Transaction)
    : M PohRecorder RecordError (option unit) :=
  match fuel with
  | O => mret None
  | S fuel' =>
      flush_cache false;;
      r ← getM;
      match r.(working_bank) with
      | None => throw (RecorderErr MaxHeightReached)
      | Some wb =>
          if negb (bank_slot =? wb.(wb_bank).(tb_slot)) then throw (RecorderErr MaxHeightReached)
          else
          poh_entry ← on_poh (Poh_record sha256 mixin);
          match poh_entry with
          | Some e =>
              let entry := mkEntry e.(pe_num_hashes) e.(pe_hash) txs in
              ok ← send wb [(entry, r.(tick_height))];
              if negb (ok : bool) then throw SendError else mret (Some tt)
          | None =>
              tick;;
              record_loop fuel' bank_slot mixin txs
          end
      end
  end.

Definition record (fuel : nat) (bank_slot : Z) (mixin : Hash) (txs : list Transaction)
    : M PohRecorder RecordError (option unit) :=
  if is_empty txs then liftM Panic else record_loop fuel bank_slot mixin txs.

(** [new_with_clear_signal]; the receiver of the channel is alive. *)
Definition PohRecorder_new {E} (tick_height : Z) (last_entry_hash : Hash) (start_slot : Z)
    (my_leader_slot_index : option Z) (ticks_per_slot : Z) (hashes_per_tick : option Z)
    : res E PohRecorder :=
  poh ← Poh_new last_entry_hash hashes_per_tick;
  let grace := ticks_per_slot / MAX_LAST_LEADER_GRACE_TICKS_FACTOR in
  let '(start, last) := compute_leader_slot_ticks my_leader_slot_index ticks_per_slot grace in
  Ok (mkRecorder poh tick_height start_slot (u64_add tick_height 1) [] None start last grace
        hashes_per_tick ticks_per_slot true [] [] 0).
End Recorder.
End poh_recorder.

Module poh_recorder_proofs.
Import poh_recorder poh_proofs.

Section Proofs.
Context (sha256 : list Z → Hash).
Context (next_leader : Z → option Z).
Notation flush_cache := (flush_cache next_leader).
Notation tick := (tick sha256 next_leader).
Notation record := (record sha256 next_leader).
Notation record_loop := (record_loop sha256 next_leader).

(** What an operation that is not about the clock leaves alone. *)
Definition same_clock (r r' : PohRecorder) : Prop :=
  rec_poh r' = rec_poh r ∧ tick_height r' = tick_height r ∧ connected r' = connected r ∧
  rec_hashes_per_tick r' = rec_hashes_per_tick r.

Lemma clear_bank_frame {E} r : ∃ r',
  clear_bank (E:=E) next_leader r = (Ok tt, r') ∧ same_clock r r' ∧
  tick_cache r' = tick_cache r ∧ sent r' = sent r ∧ working_bank r' = None.
Proof.
  unfold clear_bank, modify. unfold_monad. destruct (working_bank r) as [wb|] eqn:Hw.
  - destruct (compute_leader_slot_ticks _ _ _) as [s l]. by eexists.
  - by eexists.
Qed.

(** ** The cache *)

Lemma count_until_le max cache :
  Forall (λ x : Entry * Z, x.2 ≤ max) (take (count_until max cache) cache).
Proof.
  induction cache as [|x cache IH]; [constructor|]. cbn. destruct (Z.leb_spec x.2 max); by constructor.
Qed.

Lemma count_until_all max cache :
  Forall (λ x : Entry * Z, x.2 ≤ max) cache → count_until max cache = length cache.
Proof.
  induction 1 as [|x cache Hx _ IH]; [done|]. cbn. rewrite (proj2 (Z.leb_le _ _)) by done. by rewrite IH.
Qed.

(** A message as the documentation of the module has it: ticks at most at the
    last height of the bank, transactions at a height at which the bank is
    working. *)
Definition message_ok (m : WorkingBank * list (Entry * Z)) : Prop :=
  Forall (λ x, x.2 ≤ m.1.(max_tick_height) ∧
     (is_tick x.1 = false → m.1.(min_tick_height) ≤ x.2 < m.1.(max_tick_height))) m.2.

(** What flushing does: part of the cache moves to the channel, and if the bank
    is still there it is working and has everything. *)
Definition flushed (r r' : PohRecorder) (ok : bool) : Prop :=
  same_clock r r' ∧
  (∃ ms, sent r' = sent r ++ ms ∧ tick_cache r = mjoin ms.*2 ++ tick_cache r' ∧
         Forall (λ m, Forall (λ x, x.2 ≤ m.1.(max_tick_height)) m.2) ms) ∧
  (working_bank r' = None ∨ start_leader_at_tick r' = start_leader_at_tick r) ∧
  (ok = true → ∀ wb, working_bank r' = Some wb →
     wb.(min_tick_height) ≤ tick_height r < wb.(max_tick_height) ∧
     (Forall (λ x, x.2 ≤ tick_height r) (tick_cache r) → tick_cache r' = [])).

Lemma flushed_refl r : flushed r r false.
Proof. split; [done|]. split; [|by split; [right|]]. exists []. by rewrite app_nil_r. Qed.

Definition is_ok {E A} (x : res E A) : bool := match x with Ok _ => true | _ => false end.

(** The first half of a flush: the ticks that the bank takes are registered and
    sent. *)
Lemma flush_send {E} r wb : connected r = true →
  let n := count_until wb.(max_tick_height) r.(tick_cache) in
  let cache := take n r.(tick_cache) in
  ∃ r1, (if (0 <? n)%nat then
           putM (with_registered (r.(registered) ++
             ((λ t, (wb.(wb_bank).(tb_slot), t.1.(entry_hash))) <$> cache)) r);;
           send (E:=E) wb cache
         else mret true) r = (Ok true, r1) ∧
    same_clock r r1 ∧ working_bank r1 = working_bank r ∧ tick_cache r1 = tick_cache r ∧
    start_leader_at_tick r1 = start_leader_at_tick r ∧
    sent r1 = sent r ++ (if (0 <? n)%nat then [(wb, cache)] else []).
Proof.
  intros Hcon. cbn zeta. destruct (0 <? _)%nat.
  - unfold send. unfold_monad. cbn [connected with_registered]. rewrite Hcon. by eexists.
  - exists r. rewrite app_nil_r. done.
Qed.

(** The last step. *)
Lemma flush_commit r r1 r2 wb :
  let n := count_until wb.(max_tick_height) r.(tick_cache) in
  wb.(min_tick_height) ≤ tick_height r →
  same_clock r r1 → tick_cache r1 = tick_cache r →
  sent r1 = sent r ++ (if (0 <? n)%nat then [(wb, take n r.(tick_cache))] else []) →
  same_clock r1 r2 → tick_cache r2 = tick_cache r1 → sent r2 = sent r1 →
  (∀ w, working_bank r2 = Some w → w = wb ∧ tick_height r < max_tick_height wb ∧
     start_leader_at_tick r2 = start_leader_at_tick r) →
  flushed r (with_cache (drop n (tick_cache r2)) r2) true.
Proof.
  intros n Hmin Hs1 Hc1 Hsent1 Hs2 Hc2 Hsent2 Hw2. split; [|split; [|split]].
  - destruct Hs1 as (?&?&?&?), Hs2 as (?&?&?&?). unfold same_clock. cbn. by split_and!; congruence.
  - cbn. eexists. split; [by rewrite Hsent2, Hsent1|]. rewrite Hc2, Hc1.
    destruct (Nat.ltb_spec 0 n) as [Hn|Hn].
    + split; [cbn; by rewrite app_nil_r, take_drop|]. apply Forall_singleton, count_until_le.
    + assert (n = 0%nat) as -> by lia. by rewrite drop_0.
  - cbn. destruct (working_bank r2) as [w|]; [|by left]. right. by destruct (Hw2 w eq_refl) as (_ & _ & ?).
  - intros _ w Hw. destruct (Hw2 w Hw) as (-> & Hmax & _). split; [lia|].
    intros Hall. cbn. rewrite Hc2, Hc1. apply drop_ge. unfold n.
    rewrite count_until_all; [done|]. eapply Forall_impl; [exact Hall|]. cbn. lia.
Qed.

Lemma flush_cache_spec b r x r' :
  connected r = true → flush_cache b r = (x, r') → x ≠ Panic → flushed r r' (is_ok x).
Proof.
  intros Hcon. unfold poh_recorder.flush_cache. rewrite (bind_eval getM _ r r r eq_refl).
  destruct (working_bank r) as [wb|] eqn:Hwb; [|intros [= <- <-] _; apply flushed_refl].
  destruct (Z.ltb_spec (tick_height r) (min_tick_height wb)) as [|Hmin];
    [intros [= <- <-] _; apply flushed_refl|].
  destruct (b && _); [intros [= <- <-] _; apply flushed_refl|].
  destruct (flush_send (E:=RecordError) r wb Hcon) as (r1 & Hsend & Hs1 & Hw1 & Hc1 & Hl1 & Hsent1).
  rewrite (bind_eval _ _ _ _ _ Hsend). clear Hsend. cbn [negb].
  destruct (Z.leb_spec (max_tick_height wb) (tick_height r)) as [Hmax|Hmax].
  - destruct (tb_ticks_per_slot (wb_bank wb) =? 0); [by intros [= <- <-]|].
    set (r1' := with_start (max_tick_height wb / tb_ticks_per_slot (wb_bank wb))
      (u64_mul (u64_add (max_tick_height wb / tb_ticks_per_slot (wb_bank wb)) 1)
        (tb_ticks_per_slot (wb_bank wb))) r1).
    destruct (clear_bank_frame (E:=RecordError) r1') as (r2 & Hclear & Hs2 & Hc2 & Hsent2 & Hw2).
    rewrite (bind_eval _ _ r1 tt r2);
      [|rewrite (bind_eval (mret tt) _ r1 tt r1 eq_refl); exact Hclear].
    intros [= <- <-] _. apply (flush_commit r r1 r2 wb); try done. by rewrite Hw2.
  - rewrite (bind_eval (mret tt) _ r1 tt r1 eq_refl).
    intros [= <- <-] _. apply (flush_commit r r1 r1 wb); try done.
    intros w. rewrite Hw1, Hwb. by intros [= <-].
Qed.

(** ** The stream of entries *)

Definition nticks (l : list (Entry * Z)) : Z :=
  Z.of_nat (length (filter (λ x, is_tick x.1 = true) l)).

(** Every entry carries the height after the ticks up to it. *)
Definition numbered (h : Z) (l : list (Entry * Z)) : Prop :=
  ∀ i x, l !! i = Some x → x.2 = h + nticks (take (S i) l).

Lemma nticks_app l k : nticks (l ++ k) = nticks l + nticks k.
Proof. unfold nticks. rewrite filter_app, length_app. lia. Qed.

Lemma nticks_singleton x : nticks [x] = if is_tick x.1 then 1 else 0.
Proof. unfold nticks. rewrite filter_cons. destruct (is_tick x.1); by case_decide. Qed.

Lemma numbered_snoc h l x :
  numbered h l → x.2 = h + nticks l + nticks [x] → numbered h (l ++ [x]).
Proof.
  intros Hn Hx i y. destruct (Nat.lt_ge_cases i (length l)) as [Hi|Hi].
  - rewrite lookup_app_l, take_app_le by lia. apply Hn.
  - rewrite lookup_app_r by lia. intros Hy. destruct (i - length l)%nat eqn:Hd; [|done].
    cbn in Hy. injection Hy as <-. rewrite take_ge by (rewrite length_app; cbn; lia).
    rewrite nticks_app. lia.
Qed.

Lemma numbered_le h l : numbered h l → Forall (λ x, x.2 ≤ h + nticks l) l.
Proof.
  intros Hn. apply Forall_lookup. intros i x Hx. rewrite (Hn i x Hx).
  rewrite <-(take_drop (S i) l) at 2. rewrite nticks_app. unfold nticks at 3. lia.
Qed.

Section Run.
Context (start : Hash) (h0 : Z) (config : option Z) (sent0 : list (WorkingBank * list (Entry * Z))).

(** Since the clock was set: [ms] are the messages, followed in the stream by the
    ticks that still wait in the cache. *)
Definition rec_inv (r : PohRecorder) : Prop :=
  ∃ ms, sent r = sent0 ++ ms ∧ Forall message_ok ms ∧
    let l := mjoin ms.*2 ++ tick_cache r in
    poh_run sha256 start config (rec_poh r) l.*1 ∧ numbered h0 l ∧
    tick_height r = h0 + nticks l ∧ Forall (λ x, is_tick x.1 = true) (tick_cache r) ∧
    connected r = true.

Lemma mjoin_snd_app (ms ms' : list (WorkingBank * list (Entry * Z))) :
  mjoin (ms ++ ms').*2 = mjoin ms.*2 ++ mjoin ms'.*2.
Proof. by rewrite fmap_app, join_app. Qed.

Lemma inv_flush r r' ok : rec_inv r → flushed r r' ok → rec_inv r'.
Proof.
  intros (ms & Hs & Hok & Hrun & Hnum & Hh & Hc & Hcon)
    ((Hp & Ht & Hcon' & _) & (ms' & Hs' & Hcache & Hle) & _).
  exists (ms ++ ms'). rewrite mjoin_snd_app, <-app_assoc, <-Hcache, Hp, Ht, Hcon'.
  rewrite Hcache in Hc. apply Forall_app in Hc as [Hcm Hc].
  split_and!; [by rewrite Hs', Hs, app_assoc| |done..].
  apply Forall_app. split; [done|]. clear -Hle Hcm.
  induction Hle as [|m ms' Hm _ IH]; [constructor|].
  rewrite fmap_cons, mjoin_cons in Hcm. apply Forall_app in Hcm as [Hcm1 Hcm2].
  constructor; [|auto]. unfold message_ok. apply Forall_forall. intros x Hx.
  rewrite Forall_forall in Hm, Hcm1. split; [auto|]. by rewrite Hcm1.
Qed.

Lemma inv_flush_cache b r x r' :
  rec_inv r → flush_cache b r = (x, r') → x ≠ Panic → rec_inv r'.
Proof.
  intros Hi Hf Hx. eapply inv_flush; [done|]. eapply flush_cache_spec; [|done..].
  by destruct Hi as (? & _ & _ & _ & _ & _ & _ & ?).
Qed.

Lemma inv_cache_le r : rec_inv r → Forall (λ x, x.2 ≤ tick_height r) (tick_cache r).
Proof.
  intros (ms & _ & _ & _ & Hnum & -> & _ & _). apply numbered_le, Forall_app in Hnum as [_ H]. done.
Qed.

Lemma inv_tick r r' :
  rec_inv r → is_Some (start_leader_at_tick r) → 0 ≤ tick_height r → tick_height r + 1 < two64 →
  tick r = (Ok tt, r') →
  rec_inv r' ∧ tick_height r ≤ tick_height r' ≤ tick_height r + 1 ∧
  (working_bank r' = None ∨ start_leader_at_tick r' = start_leader_at_tick r).
Proof.
  intros (ms & Hs & Hok & Hrun & Hnum & Hh & Hc & Hcon) [lead Hlead] H0 Hov.
  unfold poh_recorder.tick. intros (pe & r1 & Hpoh & Htick)%bind_ok. unfold on_poh in Hpoh.
  apply (run_tick sha256) in Hrun as Hrun'.
  destruct (Poh_tick (E:=Empty_set) sha256 (rec_poh r)) as [o p] eqn:Hp0.
  assert (Poh_tick (E:=RecordError) sha256 (rec_poh r) = (Ok pe, p) ∧ o = Ok pe ∧
          r1 = with_poh p r) as (Hp1 & -> & ->).
  { unfold Poh_tick in *. unfold_monad. cbn in *. destruct (_ && _); by simplify_eq. }
  cbn [fst snd] in Hrun'. destruct pe as [e|].
  - rewrite (bind_eval (modify (λ r, with_tick_height (u64_add r.(tick_height) 1) r)) _ _ tt
      (with_tick_height (u64_add (tick_height (with_poh p r)) 1) (with_poh p r)) eq_refl) in Htick.
    rewrite (bind_eval getM _ _ _ _ eq_refl) in Htick. cbn [start_leader_at_tick with_tick_height with_poh] in Htick.
    rewrite Hlead in Htick. cbn [tick_height with_poh with_tick_height tick_cache] in Htick.
    rewrite u64_add_exact in Htick by lia.
    set (x := (mkEntry (pe_num_hashes e) (pe_hash e) [], tick_height r + 1)) in *.
    set (r2 := with_cache (tick_cache r ++ [x]) (with_tick_height (tick_height r + 1) (with_poh p r))).
    rewrite (bind_eval (putM r2) _ _ tt r2 eq_refl) in Htick.
    assert (rec_inv r2) as Hi2.
    { exists ms. cbn [sent tick_cache rec_poh tick_height connected r2 with_cache with_tick_height with_poh].
      rewrite app_assoc. split_and!; [done|done| | | | |done].
      - rewrite fmap_app. done.
      - apply numbered_snoc; [done|]. cbn. rewrite nticks_singleton. cbn. lia.
      - rewrite nticks_app, nticks_singleton. cbn. lia.
      - apply Forall_app. split; [done|]. by apply Forall_singleton. }
    unfold ignore_error in Htick. destruct (flush_cache true r2) as [y r3] eqn:Hf.
    assert (y ≠ Panic) as Hy by (by intros ->; injection Htick).
    assert (r3 = r') as -> by (destruct y as [[]|err|]; [by injection Htick..|done]).
    split; [by eapply inv_flush_cache|].
    destruct (flush_cache_spec true r2 y r' Hcon Hf Hy) as ((_ & Hh2 & _) & _ & Hw & _).
    split; [|exact Hw]. rewrite Hh2. cbn. lia.
  - injection Htick as <-. split; [|by split; [cbn; lia|right]].
    exists ms. rewrite app_nil_r in Hrun'. by split_and!.
Qed.

Lemma tick_no_error r e r' : tick r ≠ (Err e, r').
Proof.
  unfold poh_recorder.tick, on_poh, Poh_tick. unfold_monad. cbn.
  destruct (_ && _); [done|]. unfold modify. unfold_monad. cbn.
  destruct (start_leader_at_tick r); [|done]. unfold ignore_error.
  by destruct (flush_cache true _) as [[]].
Qed.

Lemma inv_record_loop fuel slot txs : txs ≠ [] → ∀ r x r',
  rec_inv r → is_Some (start_leader_at_tick r) ∨ working_bank r = None →
  0 ≤ tick_height r → tick_height r + Z.of_nat fuel < two64 →
  record_loop fuel slot (hash_transactions sha256 txs) txs r = (x, r') → x ≠ Panic → rec_inv r'.
Proof.
  intros Hne. induction fuel as [|fuel IH]; intros r x r' Hi Hlead H0 Hov.
  { by intros [= <- <-]. }
  cbn [poh_recorder.record_loop].
  destruct (flush_cache false r) as [y r1] eqn:Hf. unfold mbind at 1, M_bind at 1. rewrite Hf.
  destruct y as [[]|err|]; [|intros [= <- <-] _; by eapply inv_flush_cache|by intros [= <- <-]].
  assert (rec_inv r1) as Hi1 by (by eapply inv_flush_cache).
  assert (connected r = true) as Hcon by (by destruct Hi as (? & _ & _ & _ & _ & _ & _ & ?)).
  destruct (flush_cache_spec false r _ r1 Hcon Hf ltac:(done))
    as ((_ & Hh1 & Hcon1 & _) & _ & Hkeep & Hworking).
  rewrite (bind_eval getM _ _ _ _ eq_refl).
  destruct (working_bank r1) as [wb|] eqn:Hwb; [|by intros [= <- <-]].
  destruct (Hworking eq_refl wb eq_refl) as [Hwindow Hempty].
  specialize (Hempty (inv_cache_le r Hi)).
  destruct (negb _); [by intros [= <- <-]|].
  assert (is_Some (start_leader_at_tick r1)) as Hlead1.
  { destruct Hkeep as [|Hk]; [done|]. destruct Hlead as [Hl|Hl]; [by rewrite Hk|].
    unfold poh_recorder.flush_cache in Hf. rewrite (bind_eval getM _ _ _ _ eq_refl), Hl in Hf. done. }
  unfold mbind at 1, M_bind at 1, on_poh, Poh_record. unfold_monad.
  destruct (remaining_hashes (rec_poh r1) =? 1) eqn:Hrem.
  - replace (with_poh (rec_poh r1) r1) with r1 by (by destruct r1).
    destruct (tick r1) as [t r2] eqn:Ht.
    destruct t as [[]|err|]; [|by apply tick_no_error in Ht|by intros [= <- <-]].
    destruct (inv_tick r1 r2 Hi1 Hlead1 ltac:(lia) ltac:(lia) Ht) as (Hi2 & Hh2 & Hk2).
    intros Hloop Hx. eapply (IH r2); [done| |lia|lia|exact Hloop|done].
    destruct Hk2 as [|Hk2]; [by right|]. left. by rewrite Hk2.
  - unfold send. unfold_monad. cbn [connected with_poh]. rewrite Hcon1, Hcon. cbn.
    intros [= <- <-] _. destruct Hi1 as (ms & Hs & Hok & Hrun & Hnum & Hh & Hc & Hcn).
    apply (run_record sha256 _ _ _ _ txs) in Hrun as Hrun'; [|done].
    unfold Poh_record in Hrun'. unfold_monad. rewrite Hrem in Hrun'.
    cbn [entry_of fst snd pe_num_hashes pe_hash] in Hrun'.
    rewrite Hempty, app_nil_r in Hrun', Hnum, Hh.
    set (x := (_, tick_height r1)). assert (is_tick x.1 = false) as Hx by (by destruct txs).
    exists (ms ++ [(wb, [x])]). cbn [sent tick_cache rec_poh tick_height connected with_sent with_poh].
    rewrite mjoin_snd_app, Hempty. cbn [fmap list_fmap mjoin list_join snd app]. rewrite !app_nil_r.
    split_and!; [by rewrite Hs, app_assoc| | | | | |by rewrite Hcon1].
    + apply Forall_app. split; [done|]. apply Forall_singleton. unfold message_ok.
      apply Forall_singleton. cbn. lia.
    + rewrite fmap_app. exact Hrun'.
    + apply numbered_snoc; [done|]. rewrite nticks_singleton, Hx. cbn. lia.
    + rewrite nticks_app, nticks_singleton, Hx. lia.
    + done.
Qed.

(** A recorder since it was created at, or reset to, hash [start] and height
    [h0]: the banks it is given, the hashes and ticks of its service and the
    transactions of its clients, while this node has a leader slot ahead (else
    ticks are dropped) and the heights are [u64]s. *)
Inductive recorder_run : PohRecorder → Prop :=
| rr_new r ss leader tps :
    PohRecorder_new (E:=Empty_set) h0 start ss leader tps config = Ok r → sent0 = [] →
    recorder_run r
| rr_reset r r' ss leader tps : connected r = true → rec_hashes_per_tick r = config →
    sent0 = sent r → reset (E:=Empty_set) next_leader h0 start ss leader tps r = (Ok tt, r') →
    recorder_run r'
| rr_bank r bank : recorder_run r → recorder_run (set_bank (E:=Empty_set) bank r).2
| rr_hash r n : recorder_run r → 0 ≤ n →
    recorder_run (on_poh (E:=Empty_set) (Poh_hash sha256 n) r).2
| rr_tick r r' : recorder_run r → is_Some (start_leader_at_tick r) →
    0 ≤ tick_height r → tick_height r + 1 < two64 → tick r = (Ok tt, r') → recorder_run r'
| rr_record r slot txs fuel x r' : recorder_run r → is_Some (start_leader_at_tick r) → txs ≠ [] →
    0 ≤ tick_height r → tick_height r + Z.of_nat fuel < two64 →
    record fuel slot (hash_transactions sha256 txs) txs r = (x, r') → x ≠ Panic → recorder_run r'.

Lemma inv_fresh r :
  Poh_new (E:=Empty_set) start config = Ok (rec_poh r) → tick_height r = h0 → tick_cache r = [] →
  connected r = true → sent r = sent0 → rec_inv r.
Proof.
  intros Hp Hh Hc Hcon Hs. exists []. rewrite Hc, Hs, app_nil_r. cbn.
  split_and!; [done|constructor|by apply run_new|done|by rewrite Hh, Z.add_0_r|constructor|done].
Qed.

Lemma new_fresh r ss leader tps :
  PohRecorder_new (E:=Empty_set) h0 start ss leader tps config = Ok r → sent0 = [] → rec_inv r.
Proof.
  unfold PohRecorder_new. intros (p & Hp & Hr)%res_bind_ok Hs.
  destruct (compute_leader_slot_ticks _ _ _). injection Hr as <-. by apply inv_fresh.
Qed.

Lemma reset_fresh r r' ss leader tps :
  connected r = true → rec_hashes_per_tick r = config → sent0 = sent r →
  reset (E:=Empty_set) next_leader h0 start ss leader tps r = (Ok tt, r') → rec_inv r'.
Proof.
  intros Hcon Hcfg Hs. unfold reset.
  destruct (clear_bank_frame (E:=Empty_set) r) as (r1 & Hc & (_ & _ & Hcon1 & Hcfg1) & _ & Hs1 & _).
  rewrite (bind_eval _ _ _ _ _ Hc), (bind_eval getM _ _ _ _ eq_refl).
  intros (p & r2 & Hp & Hrest)%bind_ok. injection Hp as Hp <-. unfold modify in Hrest. unfold_monad.
  destruct (compute_leader_slot_ticks _ _ _). injection Hrest as <-.
  apply inv_fresh; cbn; congruence.
Qed.

Lemma inv_hash r n :
  rec_inv r → 0 ≤ n → rec_inv (on_poh (E:=Empty_set) (Poh_hash sha256 n) r).2.
Proof.
  intros (ms & Hs & Hok & Hrun & Hrest) Hn. apply (run_hash sha256 _ _ _ _ n) in Hrun; [|done].
  unfold on_poh. destruct (Poh_hash sha256 n (rec_poh r)) as [x p]. by exists ms.
Qed.

Lemma run_inv_recorder r : recorder_run r → rec_inv r.
Proof.
  induction 1 as [r ss l tps Hn Hs|r r' ss l tps Hcon Hcfg Hs Hr|r bank _ IH|r n _ IH Hn
                 |r r' _ IH Hl H0 Hov Ht|r slot txs fuel x r' _ IH Hl Hne H0 Hov Hr Hx].
  - by eapply new_fresh.
  - by eapply reset_fresh.
  - exact IH.
  - by apply inv_hash.
  - by eapply inv_tick.
  - unfold poh_recorder.record in Hr. assert (is_empty txs = false) as He by (by destruct txs).
    rewrite He in Hr. eapply inv_record_loop; [exact Hne|exact IH|by left|done..].
Qed.

(** ** Recording returns *)

Lemma flush_poh b r x r' :
  connected r = true → flush_cache b r = (x, r') → x ≠ Panic →
  rec_poh r' = rec_poh r ∧ connected r' = connected r.
Proof. intros Hc Hf Hx. by destruct (flush_cache_spec b r x r' Hc Hf Hx) as ((? & _ & ? & _) & _). Qed.

(** A tick that is due restarts the count of the clock. *)
Lemma tick_restarts r r' :
  connected r = true → poh_ok (rec_poh r) → remaining_hashes (rec_poh r) = 1 →
  tick r = (Ok tt, r') →
  connected r' = true ∧ remaining_hashes (rec_poh r') = hashes_per_tick (rec_poh r).
Proof.
  intros Hcon Hok Hrem. unfold poh_recorder.tick, on_poh. unfold mbind at 1, M_bind at 1.
  rewrite Poh_tick_spec by done. rewrite Hrem, andb_false_r. unfold modify. unfold_monad. cbn.
  destruct (start_leader_at_tick r); [|by intros [= <-]]. unfold ignore_error.
  set (r2 := with_cache _ _). destruct (flush_cache true r2) as [y r3] eqn:Hf.
  intros Hr. assert (y ≠ Panic) as Hy by (by intros ->; injection Hr).
  assert (r3 = r') as -> by (destruct y as [[]|err|]; [by injection Hr..|done]).
  destruct (flush_poh true r2 y r' Hcon Hf Hy) as [-> ->]. done.
Qed.

(** One round when no tick is due. *)
Lemma record_round fuel slot mixin txs r :
  connected r = true → remaining_hashes (rec_poh r) ≠ 1 →
  (record_loop (S fuel) slot mixin txs r).1 ≠ Ok None.
Proof.
  intros Hcon Hrem. cbn [poh_recorder.record_loop].
  destruct (flush_cache false r) as [y r1] eqn:Hf. unfold mbind at 1, M_bind at 1. rewrite Hf.
  destruct y as [[]|err|]; [|done..]. destruct (flush_poh false r _ r1 Hcon Hf ltac:(done)) as [Hp _].
  rewrite (bind_eval getM _ _ _ _ eq_refl). destruct (working_bank r1); [|done].
  destruct (negb _); [done|]. unfold mbind at 1, M_bind at 1, on_poh, Poh_record. unfold_monad.
  rewrite Hp. apply Z.eqb_neq in Hrem. rewrite Hrem. cbn. unfold send. unfold_monad.
  cbn [connected with_poh]. by destruct (connected r1).
Qed.

Lemma record_returns fuel slot mixin txs r :
  connected r = true → poh_ok (rec_poh r) → (2 ≤ fuel)%nat →
  (record_loop fuel slot mixin txs r).1 ≠ Ok None.
Proof.
  intros Hcon Hok Hfuel. destruct fuel as [|[|fuel]]; [lia..|].
  destruct (decide (remaining_hashes (rec_poh r) = 1)) as [Hrem|Hrem]; [|by apply record_round].
  set (n := S fuel) in *. cbn [poh_recorder.record_loop].
  destruct (flush_cache false r) as [y r1] eqn:Hf. unfold mbind at 1, M_bind at 1. rewrite Hf.
  destruct y as [[]|err|]; [|done..].
  destruct (flush_poh false r _ r1 Hcon Hf ltac:(done)) as [Hp Hcon1].
  rewrite (bind_eval getM _ _ _ _ eq_refl). destruct (working_bank r1); [|done].
  destruct (negb _); [done|]. unfold mbind at 1, M_bind at 1, on_poh, Poh_record. unfold_monad.
  rewrite Hp, Hrem. cbn [Z.eqb Pos.eqb].
  replace (with_poh (rec_poh r) r1) with r1 by (rewrite <-Hp; by destruct r1).
  destruct (tick r1) as [t r2] eqn:Ht. destruct t as [[]|err|]; [|done..].
  rewrite <-Hp in Hok, Hrem. rewrite Hcon in Hcon1.
  destruct (tick_restarts r1 r2 Hcon1 Hok Hrem Ht) as [Hcon2 Hrem2].
  apply record_round; [done|]. rewrite Hrem2. destruct Hok as [? _]. lia.
Qed.

End Run.
End Proofs.
End poh_recorder_proofs.

Module poh_recorder_demo.
Import poh_recorder poh_proofs poh_recorder_proofs entry_demo.

Definition demo_next (s : Z) : option Z := Some (s + 4).

(** A node that leads slot 0 of eight ticks, with four hashes per tick, records a
    transaction after two ticks. *)
Definition demo_start : PohRecorder :=
  match PohRecorder_new (E:=Empty_set) 0 9 0 (Some 0) 8 (Some 4) with
  | Ok r => r
  | _ => mkRecorder (mkPoh 0 0 0 0) 0 0 0 [] None None None 0 None 0 false [] [] 0
  end.

Definition demo_banked : PohRecorder := (set_bank (E:=Empty_set) (mkTickBank 0 8 0) demo_start).2.
Definition demo_hashed : PohRecorder := (on_poh (E:=Empty_set) (Poh_hash demo_sha 3) demo_banked).2.
Definition demo_ticked : PohRecorder := (tick demo_sha demo_next demo_hashed).2.
Definition demo_due : PohRecorder := (on_poh (E:=Empty_set) (Poh_hash demo_sha 3) demo_ticked).2.
Definition demo_steps : PohRecorder :=
  (record demo_sha demo_next 2 0 (hash_transactions demo_sha [demo_tx]) [demo_tx] demo_due).2.

End poh_recorder_demo.
