(* ===== verification/BlockStore.v ===== *)
(** * The block store

    core/src/blockBufferPool.rs (the [Blocktree]), its metadata
    core/src/blockBufferPool/meta.rs, its iterator over roots
    core/src/blockBufferPool/rooted_slot_iterator.rs, the reconstruction of an
    erasure set in core/src/expunge.rs and the header of a blob in
    core/src/packet.rs.

    A column family is a finite map; a read or a write of the database
    succeeds.  A [WriteBatch] is the list of its operations, which are applied
    when it is written: until then reads see the old database.  The
    Reed-Solomon crate is the parameter [reconstruct], and the order in which a
    [HashMap] is iterated is given by [slot_order] and [set_order]. *)

From stdpp Require Import sorting.
From S2P Require Import Prelude Interface Codec Message Entry.

Import transaction.

(** ** The header of a blob (core/src/packet.rs) *)

Module blob_header.
Import blob.

Definition range : Type := nat * nat.
Definition PARENT_RANGE : range := (0, 8)%nat.
Definition SLOT_RANGE : range := (8, 8)%nat.
Definition INDEX_RANGE : range := (16, 8)%nat.
Definition FLAGS_RANGE : range := (8 + 8 + 8 + 32 + 1 + 32, 4)%nat.

Definition BLOB_FLAG_IS_LAST_IN_SLOT : Z := 2.
Definition BLOB_FLAG_IS_CODING : Z := 1.

(** [LittleEndian::read_u64(&self.data[range])] and its [write_u64] *)
Definition read_le (r : range) (b : Blob) : Z :=
  foldr (λ byte acc, byte + 256 * acc) 0 (take r.2 (drop r.1 b.(blob_bytes))).
Definition write_le (r : range) (n : Z) (b : Blob) : Blob :=
  mkBlob (take r.1 b.(blob_bytes) ++ le_enc r.2 n ++ drop (r.1 + r.2) b.(blob_bytes))
    b.(meta_size).

Definition parent (b : Blob) : Z := read_le PARENT_RANGE b.
Definition set_parent (ix : Z) (b : Blob) : Blob := write_le PARENT_RANGE ix b.
Definition slot (b : Blob) : Z := read_le SLOT_RANGE b.
Definition set_slot (ix : Z) (b : Blob) : Blob := write_le SLOT_RANGE ix b.
Definition index (b : Blob) : Z := read_le INDEX_RANGE b.
Definition set_index (ix : Z) (b : Blob) : Blob := write_le INDEX_RANGE ix b.
Definition flags (b : Blob) : Z := read_le FLAGS_RANGE b.
Definition set_flags (ix : Z) (b : Blob) : Blob := write_le FLAGS_RANGE ix b.
Definition is_coding (b : Blob) : bool := negb (Z.land (flags b) BLOB_FLAG_IS_CODING =? 0).
Definition set_is_last_in_slot (b : Blob) : Blob :=
  set_flags (Z.lor (flags b) BLOB_FLAG_IS_LAST_IN_SLOT) b.
Definition is_last_in_slot (b : Blob) : bool :=
  negb (Z.land (flags b) BLOB_FLAG_IS_LAST_IN_SLOT =? 0).

Definition Blob_new {E} (data : list Z) : res E Blob :=
  if negb (Z.of_nat (length data) <=? BLOB_SIZE) then Panic
  else
  let b := mkBlob (data ++ drop (length data) Blob_default.(blob_bytes)) 0 in
  Ok (mkBlob b.(blob_bytes) (data_size b)).

(** [&blob.data[..BLOB_HEADER_SIZE + blob.size()]] *)
Definition stored_bytes {E} (b : Blob) : res E (list Z) :=
  let n := u64_add BLOB_HEADER_SIZE (blob_size b) in
  if Z.of_nat (length b.(blob_bytes)) <? n then Panic
  else Ok (take (Z.to_nat n) b.(blob_bytes)).
End blob_header.
Global Arguments blob_header.parent : simpl never.
Global Arguments blob_header.slot : simpl never.
Global Arguments blob_header.index : simpl never.
Global Arguments blob_header.flags : simpl never.
Global Arguments blob_header.stored_bytes : simpl never.
Global Arguments blob_header.is_last_in_slot : simpl never.

(** ** Metadata of slots and erasure sets (core/src/blockBufferPool/meta.rs) *)

Module meta.

Definition NUM_DATA : Z := 8.
Definition NUM_CODING : Z := 8.
Definition ERASURE_SET_SIZE : Z := NUM_DATA + NUM_CODING.

Record SlotMeta := mkSlotMeta {
  sm_slot : Z;
  consumed : Z;
  received : Z;
  last_index : Z;
  parent_slot : Z;
  next_slots : list Z;
  is_connected : bool
}.

Global Instance SlotMeta_eq_dec : EqDecision SlotMeta.
Proof. solve_decision. Defined.

Definition is_full (m : SlotMeta) : bool :=
  if m.(last_index) =? u64_max then false
  else m.(consumed) =? u64_add m.(last_index) 1.

Definition is_parent_set (m : SlotMeta) : bool := negb (m.(parent_slot) =? u64_max).

Definition SlotMeta_new (slot parent_slot : Z) : SlotMeta :=
  mkSlotMeta slot 0 0 u64_max parent_slot [] (slot =? 0).

(** Assignments to a field *)
Definition with_parent (p : Z) (m : SlotMeta) : SlotMeta :=
  mkSlotMeta m.(sm_slot) m.(consumed) m.(received) m.(last_index) p m.(next_slots)
    m.(is_connected).
Definition with_next (n : list Z) (m : SlotMeta) : SlotMeta :=
  mkSlotMeta m.(sm_slot) m.(consumed) m.(received) m.(last_index) m.(parent_slot) n
    m.(is_connected).
Definition with_connected (c : bool) (m : SlotMeta) : SlotMeta :=
  mkSlotMeta m.(sm_slot) m.(consumed) m.(received) m.(last_index) m.(parent_slot)
    m.(next_slots) c.
Definition with_progress (c r l : Z) (m : SlotMeta) : SlotMeta :=
  mkSlotMeta m.(sm_slot) c r l m.(parent_slot) m.(next_slots) m.(is_connected).

Record ErasureMeta := mkErasureMeta {
  set_index : Z;
  em_size : Z;
  em_data : Z;
  em_coding : Z
}.

Inductive ErasureMetaStatus :=
| CanRecover
| DataFull
| StillNeed (needed : Z).

Definition ErasureMeta_new (set_index : Z) : ErasureMeta := mkErasureMeta set_index 0 0 0.

(** [u64::count_ones] *)
Definition count_ones (z : Z) : Z :=
  Zsum ((λ i : nat, if Z.testbit z (Z.of_nat i) then 1 else 0) <$> seq 0 64).

Definition num_coding (e : ErasureMeta) : Z := count_ones e.(em_coding).
Definition num_data (e : ErasureMeta) : Z := count_ones e.(em_data).

Definition status {E} (e : ErasureMeta) : res E ErasureMetaStatus :=
  let data_missing := u64_sub NUM_DATA (num_data e) in
  let coding_missing := u64_sub NUM_CODING (num_coding e) in
  if (0 <? data_missing) && (u64_add data_missing coding_missing <=? NUM_CODING) then
    if e.(em_size) =? 0 then Panic else Ok CanRecover
  else if data_missing =? 0 then Ok DataFull
  else Ok (StillNeed (u64_sub (u64_add data_missing coding_missing) NUM_CODING)).

Definition set_index_for (index : Z) : Z := index / NUM_DATA.
Definition start_index (e : ErasureMeta) : Z := u64_mul e.(set_index) NUM_DATA.
Definition end_indexes (e : ErasureMeta) : Z * Z :=
  let start := start_index e in (u64_add start NUM_DATA, u64_add start NUM_CODING).
Definition data_index_in_set (e : ErasureMeta) (index : Z) : option Z :=
  if set_index_for index =? e.(set_index) then Some (u64_sub index (start_index e)) else None.
Definition coding_index_in_set (e : ErasureMeta) (index : Z) : option Z :=
  (λ i, u64_add i NUM_DATA) <$> data_index_in_set e index.

(** [bits & (1 << position) != 0], [bits |= 1 << position] and
    [bits &= !(1 << position)] *)
Definition bit_present (bits position : Z) : bool :=
  negb (Z.land bits (Z.shiftl 1 position) =? 0).
Definition bit_set (bits position : Z) (present : bool) : Z :=
  if present then Z.lor bits (Z.shiftl 1 position) else Z.ldiff bits (Z.shiftl 1 position).

Definition is_coding_present (e : ErasureMeta) (index : Z) : bool :=
  match data_index_in_set e index with
  | Some position => bit_present e.(em_coding) position
  | None => false
  end.
Definition is_data_present (e : ErasureMeta) (index : Z) : bool :=
  match data_index_in_set e index with
  | Some position => bit_present e.(em_data) position
  | None => false
  end.

Definition set_em_size (size : Z) (e : ErasureMeta) : ErasureMeta :=
  mkErasureMeta e.(set_index) size e.(em_data) e.(em_coding).
Definition set_coding_present (index : Z) (present : bool) (e : ErasureMeta) : ErasureMeta :=
  match data_index_in_set e index with
  | Some position =>
      mkErasureMeta e.(set_index) e.(em_size) e.(em_data) (bit_set e.(em_coding) position present)
  | None => e
  end.
Definition set_data_present (index : Z) (present : bool) (e : ErasureMeta) : ErasureMeta :=
  match data_index_in_set e index with
  | Some position =>
      mkErasureMeta e.(set_index) e.(em_size) (bit_set e.(em_data) position present) e.(em_coding)
  | None => e
  end.
End meta.

(** ** The store (core/src/blockBufferPool.rs) *)

Module blocktree.
Import blob blob_header meta entry.

Record Database := mkDatabase {
  cf_meta : gmap Z SlotMeta;
  cf_data : gmap (Z * Z) (list Z);
  cf_coding : gmap (Z * Z) (list Z);
  cf_erasure_meta : gmap (Z * Z) ErasureMeta;
  cf_orphans : gmap Z bool;
  cf_root : gmap Z bool
}.

Inductive WriteOp :=
| PutMeta (slot : Z) (m : SlotMeta)
| PutData (key : Z * Z) (bytes : list Z)
| PutCoding (key : Z * Z) (bytes : list Z)
| DeleteCoding (key : Z * Z)
| PutErasureMeta (key : Z * Z) (e : ErasureMeta)
| PutOrphan (slot : Z)
| DeleteOrphan (slot : Z)
| PutRoot (slot : Z).

Definition apply_op (db : Database) (op : WriteOp) : Database :=
  let '(mkDatabase ms ds cs es os rs) := db in
  match op with
  | PutMeta s m => mkDatabase (<[s := m]> ms) ds cs es os rs
  | PutData k b => mkDatabase ms (<[k := b]> ds) cs es os rs
  | PutCoding k b => mkDatabase ms ds (<[k := b]> cs) es os rs
  | DeleteCoding k => mkDatabase ms ds (delete k cs) es os rs
  | PutErasureMeta k e => mkDatabase ms ds cs (<[k := e]> es) os rs
  | PutOrphan s => mkDatabase ms ds cs es (<[s := true]> os) rs
  | DeleteOrphan s => mkDatabase ms ds cs es (delete s os) rs
  | PutRoot s => mkDatabase ms ds cs es os (<[s := true]> rs)
  end.

(** [batch_processor.write(batch)] *)
Definition write (db : Database) (batch : list WriteOp) : Database := foldl apply_op db batch.

(** [OutOfFuel] is not an error of the code: a loop used up its fuel. *)
Inductive BlocktreeError := ErasureError | SlotNotRooted | NotFound | OutOfFuel.

(** The local variables of [insert_data_blobs]: the working sets, the blobs
    inserted so far, the write batch and, while chaining, [new_chained_slots].
    The [Rc<RefCell<SlotMeta>>] of a slot is the entry of that slot in
    [working_set], or else in [chained_slots]: whoever holds the [Rc] of a slot
    reads and writes that entry. *)
Record Work := mkWork {
  working_set : gmap Z (SlotMeta * option SlotMeta);
  erasure_set : gmap (Z * Z) ErasureMeta;
  prev_inserted : gmap (Z * Z) (list Z);
  chained_slots : gmap Z SlotMeta;
  write_batch : list WriteOp
}.

Notation W := (M Work BlocktreeError).

Definition with_working f (w : Work) : Work :=
  mkWork (f w.(working_set)) w.(erasure_set) w.(prev_inserted) w.(chained_slots) w.(write_batch).
Definition with_erasure f (w : Work) : Work :=
  mkWork w.(working_set) (f w.(erasure_set)) w.(prev_inserted) w.(chained_slots) w.(write_batch).
Definition with_prev f (w : Work) : Work :=
  mkWork w.(working_set) w.(erasure_set) (f w.(prev_inserted)) w.(chained_slots) w.(write_batch).
Definition with_chained f (w : Work) : Work :=
  mkWork w.(working_set) w.(erasure_set) w.(prev_inserted) (f w.(chained_slots)) w.(write_batch).
Definition with_batch f (w : Work) : Work :=
  mkWork w.(working_set) w.(erasure_set) w.(prev_inserted) w.(chained_slots) (f w.(write_batch)).

Definition modifyM (f : Work → Work) : W unit := w ← getM; putM (f w).

(** [write_batch.put(..)] and [write_batch.delete(..)] *)
Definition put (op : WriteOp) : W unit := modifyM (with_batch (λ b, b ++ [op])).

(** *** Inserting a blob *)

Section Insert.
Context (db : Database).

(** The bytes of a blob: those of this batch, or else those of the database. *)
Definition find_blob (prev : gmap (Z * Z) (list Z)) (k : Z * Z) : option (list Z) :=
  match prev !! k with
  | Some bytes => Some bytes
  | None => db.(cf_data) !! k
  end.

Fixpoint get_slot_consecutive_blobs (fuel : nat) (slot : Z) (prev : gmap (Z * Z) (list Z))
    (current_index : Z) (max_blobs : option Z) (blobs : list (list Z))
    : res BlocktreeError (list (list Z)) :=
  match fuel with
  | O => Err OutOfFuel
  | S fuel' =>
      if decide (Some (Z.of_nat (length blobs)) = max_blobs) then Ok blobs
      else
      match find_blob prev (slot, current_index) with
      | Some bytes =>
          get_slot_consecutive_blobs fuel' slot prev (u64_add current_index 1) max_blobs
            (blobs ++ [bytes])
      | None => Ok blobs
      end
  end.

(** Every turn of the loop but the last finds a different blob. *)
Definition blobs_fuel (prev : gmap (Z * Z) (list Z)) : nat :=
  S (size prev + size db.(cf_data)).

Definition should_insert_blob (m : SlotMeta) (prev : gmap (Z * Z) (list Z)) (b : Blob) : bool :=
  if (index b <? m.(consumed)) || bool_decide (is_Some (prev !! (slot b, index b)))
     || bool_decide (is_Some (db.(cf_data) !! (slot b, index b)))
  then false
  else if m.(last_index) <=? index b then false
  else if is_last_in_slot b && (index b <? m.(received)) then false
  else true.

Definition insert_data_blob (b : Blob) (m : SlotMeta) : W SlotMeta :=
  w ← getM;
  new_consumed ← liftM (
    if m.(consumed) =? index b then
      blob_datas ← get_slot_consecutive_blobs (blobs_fuel w.(prev_inserted)) (slot b)
        w.(prev_inserted) (u64_add (index b) 1) None [];
      Ok (u64_add (u64_add m.(consumed) (Z.of_nat (length blob_datas))) 1)
    else Ok m.(consumed));
  bytes ← liftM (stored_bytes b);
  put (PutData (slot b, index b) bytes);;
  modifyM (with_prev <[(slot b, index b) := bytes]>);;
  mret (with_progress new_consumed (Z.max (u64_add (index b) 1) m.(received))
    (if m.(last_index) =? u64_max then if is_last_in_slot b then index b else u64_max
     else m.(last_index)) m).

Definition is_orphan (m : SlotMeta) : bool := negb (is_parent_set m).

(** The entry that [or_insert_with] makes for a slot that is not yet in the
    working set. *)
Definition working_entry (b : Blob) : SlotMeta * option SlotMeta :=
  match db.(cf_meta) !! slot b with
  | Some m => (if is_orphan m then with_parent (parent b) m else m, Some m)
  | None => (SlotMeta_new (slot b) (parent b), None)
  end.

Definition check_insert_data_blob (b : Blob) : W bool :=
  w ← getM;
  let '(m, backup) := default (working_entry b) (w.(working_set) !! slot b) in
  modifyM (with_working <[slot b := (m, backup)]>);;
  if negb (should_insert_blob m w.(prev_inserted) b) then mret false
  else
  m' ← insert_data_blob b m;
  modifyM (with_working <[slot b := (m', backup)]>);;
  mret true.

Fixpoint insert_data_blob_batch (new_blobs : list Blob) : W unit :=
  match new_blobs with
  | [] => mret tt
  | b :: new_blobs' =>
      inserted ← check_insert_data_blob b;
      (if (inserted : bool) then
         w ← getM;
         let key := (slot b, set_index_for (index b)) in
         e ← liftM (unwrap (w.(erasure_set) !! key));
         modifyM (with_erasure <[key := set_data_present (index b) true e]>)
       else mret tt);;
      insert_data_blob_batch new_blobs'
  end.

(** *** Chaining slots *)

Definition find_slot_meta_in_cached_state (w : Work) (slot : Z) : option SlotMeta :=
  match w.(working_set) !! slot with
  | Some (entry, _) => Some entry
  | None => w.(chained_slots) !! slot
  end.

Definition find_slot_meta_in_db_else_create (slot : Z) : W SlotMeta :=
  let m := default (SlotMeta_new slot u64_max) (db.(cf_meta) !! slot) in
  modifyM (with_chained <[slot := m]>);;
  mret m.

(** The result is the content of the [Rc] of the slot. *)
Definition find_slot_meta_else_create (slot : Z) : W SlotMeta :=
  w ← getM;
  match find_slot_meta_in_cached_state w slot with
  | Some m => mret m
  | None => find_slot_meta_in_db_else_create slot
  end.

(** A write through the [Rc] of a slot *)
Definition set_cell (slot : Z) (m : SlotMeta) (w : Work) : Work :=
  match w.(working_set) !! slot with
  | Some (_, backup) => with_working <[slot := (m, backup)]> w
  | None => with_chained <[slot := m]> w
  end.

Definition chain_new_slot_to_prev_slot (prev_slot_meta : SlotMeta) (current_slot : Z)
    (current_slot_meta : SlotMeta) : SlotMeta * SlotMeta :=
  (with_next (prev_slot_meta.(next_slots) ++ [current_slot]) prev_slot_meta,
   with_connected (prev_slot_meta.(is_connected) && is_full prev_slot_meta) current_slot_meta).

Definition is_newly_completed_slot (m : SlotMeta) (backup : option SlotMeta) : bool :=
  is_full m &&
  match backup with
  | None => true
  | Some old => negb (m.(consumed) =? old.(consumed))
  end.

Fixpoint find_all (slots : list Z) : W unit :=
  match slots with
  | [] => mret tt
  | s :: slots' => find_slot_meta_else_create s;; find_all slots'
  end.

(** [traverse_children_mut] with the [slot_function] of its only caller; the
    head of [stack] is the end of the vector, so children come out last first. *)
Fixpoint traverse_children_mut (fuel : nat) (stack : list Z) : W unit :=
  match stack with
  | [] => mret tt
  | s :: stack' =>
      match fuel with
      | O => throw OutOfFuel
      | S fuel' =>
          m ← find_slot_meta_else_create s;
          let m := with_connected true m in
          modifyM (set_cell s m);;
          if is_full m then
            find_all m.(next_slots);;
            traverse_children_mut fuel' (rev m.(next_slots) ++ stack')
          else traverse_children_mut fuel' stack'
      end
  end.

(** The part of [handle_chaining_for_slot] that links a slot to the parent it
    did not know before.  [prev_slot_meta.borrow_mut()] panics when it is the
    [RefCell] that [meta_mut] has borrowed, which is when the slot is its own
    parent. *)
Definition link_to_parent (slot : Z) (m : SlotMeta) : W unit :=
  let prev_slot := m.(parent_slot) in
  prev_slot_meta ← find_slot_meta_else_create prev_slot;
  if prev_slot =? slot then panic
  else
  let '(prev_slot_meta, m) := chain_new_slot_to_prev_slot prev_slot_meta slot m in
  modifyM (set_cell prev_slot prev_slot_meta);;
  modifyM (set_cell slot m);;
  if is_orphan prev_slot_meta then put (PutOrphan prev_slot) else mret tt.

Definition handle_chaining_for_slot (fuel : nat) (slot : Z) : W unit :=
  w ← getM;
  '(m, meta_backup) ← liftM (unwrap (w.(working_set) !! slot));
  let was_orphan_slot := match meta_backup with Some old => is_orphan old | None => false end in
  (if negb (slot =? 0) && (bool_decide (meta_backup = None) || was_orphan_slot) then
     link_to_parent slot m
   else mret tt);;
  (if was_orphan_slot then put (DeleteOrphan slot) else mret tt);;
  w ← getM;
  '(m, _) ← liftM (unwrap (w.(working_set) !! slot));
  if is_newly_completed_slot m meta_backup && m.(is_connected)
  then traverse_children_mut fuel [slot]
  else mret tt.

Fixpoint chain_slots (fuel : nat) (slots : list Z) : W unit :=
  match slots with
  | [] => mret tt
  | s :: slots' => handle_chaining_for_slot fuel s;; chain_slots fuel slots'
  end.

Context (slot_order : gset Z → list Z).

Definition handle_chaining (fuel : nat) : W unit :=
  w ← getM;
  chain_slots fuel (slot_order (dom w.(working_set)));;
  w ← getM;
  modifyM (with_batch (λ b, b ++
    omap (λ s, PutMeta s <$> w.(chained_slots) !! s) (slot_order (dom w.(chained_slots))))).

(** *** Recovering an erasure set *)

Context (reconstruct : list (list Z) → list bool → option (list (list Z))).

(** [slots[n].copy_from_slice(..)] of a block of another length panics. *)
Definition recovered_blob (blocks : list (list Z)) (size block_start_idx slot : Z) (n : nat)
    : res BlocktreeError (Blob + Blob) :=
  block ← unwrap (blocks !! n);
  if Z.of_nat n <? NUM_DATA then
    b ← Blob_new block;
    Ok (inl (set_size (u64_sub (data_size b) BLOB_HEADER_SIZE) b))
  else
    let room := blob_data Blob_default in
    if (Z.of_nat (length room) <? size) || negb (Z.of_nat (length block) =? size) then Panic
    else
    let idx := u64_sub (u64_add (Z.of_nat n) block_start_idx) NUM_DATA in
    Ok (inr (set_size size (blob_header.set_index idx (set_slot slot
      (with_blob_data (block ++ drop (length block) room) Blob_default))))).

Fixpoint reconstruct_erasures (blocks : list (list Z)) (size block_start_idx slot : Z)
    (erasures : list nat) : res BlocktreeError (list Blob * list Blob) :=
  match erasures with
  | [] => Ok ([], [])
  | n :: erasures' =>
      b ← recovered_blob blocks size block_start_idx slot n;
      '(data, coding) ← reconstruct_erasures blocks size block_start_idx slot erasures';
      Ok (match b with
          | inl b => (b :: data, coding)
          | inr b => (data, b :: coding)
          end)
  end.

Definition reconstruct_blobs (blobs : list (list Z)) (present : list bool)
    (size block_start_idx slot : Z) : res BlocktreeError (list Blob * list Blob) :=
  match reconstruct blobs present with
  | None => Err ErasureError
  | Some blocks =>
      reconstruct_erasures blocks size block_start_idx slot
        (filter (λ n, present !! n = Some false) (seq 0 (length present)))
  end.

(** The indexes [start..end] of a range *)
Definition range_list (first last : Z) : list Z := seqZ first (last - first).

(** [blob_bytes.resize(size, 0)] *)
Definition resize (size : Z) (bytes : list Z) : list Z :=
  take (Z.to_nat size) bytes ++ replicate (Z.to_nat size - length bytes) 0.

(** The loop over the coding blobs; the result is [blobs] and [present]. *)
Fixpoint coding_blocks (slot size : Z) (e : ErasureMeta) (new_coding : option (Z * list Z))
    (indexes : list Z) (blobs : list (list Z)) (present : list bool)
    : res BlocktreeError (list (list Z) * list bool) :=
  match indexes with
  | [] => Ok (blobs, present)
  | i :: indexes' =>
      if is_coding_present e i then
        bytes ← unwrap (match new_coding with
                        | Some (new_coding_index, bytes) =>
                            if new_coding_index =? i then Some bytes else db.(cf_coding) !! (slot, i)
                        | None => db.(cf_coding) !! (slot, i)
                        end);
        if Z.of_nat (length bytes) <? BLOB_HEADER_SIZE then Panic
        else coding_blocks slot size e new_coding indexes'
               (blobs ++ [drop (Z.to_nat BLOB_HEADER_SIZE) bytes]) present
      else
        set_relative_idx ← unwrap (coding_index_in_set e i);
        coding_blocks slot size e new_coding indexes' (blobs ++ [replicate (Z.to_nat size) 0])
          (<[Z.to_nat set_relative_idx := false]> present)
  end.

(** [blobs.insert(i, ..)] *)
Definition vec_insert {A} (i : nat) (x : A) (l : list A) : list A := take i l ++ x :: drop i l.

Fixpoint data_blocks (slot size : Z) (e : ErasureMeta) (prev : gmap (Z * Z) (list Z))
    (indexes : list Z) (blobs : list (list Z)) (present : list bool)
    : res BlocktreeError (list (list Z) * list bool) :=
  match indexes with
  | [] => Ok (blobs, present)
  | i :: indexes' =>
      set_relative_idx ← unwrap (data_index_in_set e i);
      let n := Z.to_nat set_relative_idx in
      if is_data_present e i then
        bytes ← unwrap (find_blob prev (slot, i));
        data_blocks slot size e prev indexes' (vec_insert n (resize size bytes) blobs) present
      else
        data_blocks slot size e prev indexes' (vec_insert n (replicate (Z.to_nat size) 0) blobs)
          (<[n := false]> present)
  end.

Definition recover (slot : Z) (e : ErasureMeta) (prev : gmap (Z * Z) (list Z))
    (new_coding : option (Z * list Z)) : res BlocktreeError (list Blob * list Blob) :=
  let start_idx := start_index e in
  let size := e.(em_size) in
  let '(data_end_idx, coding_end_idx) := end_indexes e in
  let present := replicate (Z.to_nat ERASURE_SET_SIZE) true in
  '(blobs, present) ←
    coding_blocks slot size e new_coding (range_list start_idx coding_end_idx) [] present;
  if size =? 0 then Panic
  else
  '(blobs, present) ←
    data_blocks slot size e prev (range_list start_idx data_end_idx) blobs present;
  reconstruct_blobs blobs present size start_idx slot.

Definition try_erasure_recover (e : ErasureMeta) (slot : Z) (prev : gmap (Z * Z) (list Z))
    (new_coding_blob : option (Z * list Z)) : res BlocktreeError (option (list Blob * list Blob)) :=
  s ← status e;
  match s with
  | CanRecover =>
      match recover slot e prev new_coding_blob with
      | Ok (data, coding) =>
          let recovered := Z.of_nat (length data) + Z.of_nat (length coding) in
          if recovered + (num_coding e + num_data e) =? ERASURE_SET_SIZE
          then Ok (Some (data, coding)) else Panic
      | Err ErasureError => Ok None
      | Err err => Err err
      | Panic => Panic
      end
  | StillNeed _ => Ok None
  | DataFull => Ok None
  end.

(** *** Inserting blobs *)

Context (set_order : gset (Z * Z) → list (Z * Z)).

(** The loop that loads the erasure metadata of the new blobs *)
Definition load_erasure_set (blobs : list Blob) : gmap (Z * Z) ErasureMeta :=
  foldl (λ es b,
    let set_index := set_index_for (index b) in
    let key := (slot b, set_index) in
    match es !! key with
    | Some _ => es
    | None => <[key := default (ErasureMeta_new set_index) (db.(cf_erasure_meta) !! key)]> es
    end) ∅ blobs.

(** The recovered coding blobs of one erasure set *)
Fixpoint put_coding (e : ErasureMeta) (coding : list Blob) : W ErasureMeta :=
  match coding with
  | [] => mret e
  | b :: coding' =>
      bytes ← liftM (stored_bytes b);
      put (PutCoding (slot b, index b) bytes);;
      put_coding (set_coding_present (index b) true e) coding'
  end.

Fixpoint recover_sets (keys : list (Z * Z)) (recovered_data : list Blob) : W (list Blob) :=
  match keys with
  | [] => mret recovered_data
  | key :: keys' =>
      w ← getM;
      e ← liftM (unwrap (w.(erasure_set) !! key));
      o ← liftM (try_erasure_recover e key.1 w.(prev_inserted) None);
      match o with
      | Some (data, coding) =>
          e' ← put_coding e coding;
          modifyM (with_erasure <[key := e']>);;
          recover_sets keys' (recovered_data ++ data)
      | None => recover_sets keys' recovered_data
      end
  end.

Definition slot_has_updates (m : SlotMeta) (backup : option SlotMeta) : bool :=
  m.(is_connected) &&
  match backup with
  | None => negb (m.(consumed) =? 0)
  | Some old => negb (old.(consumed) =? m.(consumed))
  end.

(** What [insert_data_blobs] does: the new database, and what is sent on the
    channels: whether the [new_blobs_signals] are sent, and the slots that go to
    the [completed_slots_senders]. *)
Record Inserted := mkInserted {
  new_db : Database;
  should_signal : bool;
  newly_completed_slots : list Z
}.

(** The entries of the working set in the order in which they are visited *)
Definition working_entries (w : Work) : list (Z * (SlotMeta * option SlotMeta)) :=
  omap (λ s, pair s <$> w.(working_set) !! s) (slot_order (dom w.(working_set))).

Definition insert_steps (fuel : nat) (new_blobs : list Blob) : W unit :=
  modifyM (with_erasure (λ _, load_erasure_set new_blobs));;
  insert_data_blob_batch new_blobs;;
  w ← getM;
  recovered_data ← recover_sets (set_order (dom w.(erasure_set))) [];
  insert_data_blob_batch recovered_data;;
  handle_chaining fuel;;
  w ← getM;
  modifyM (with_batch (λ b, b ++
    omap (λ '(s, (m, backup)), if bool_decide (Some m = backup) then None else Some (PutMeta s m))
      (working_entries w)));;
  modifyM (with_batch (λ b, b ++
    omap (λ k, PutErasureMeta k <$> w.(erasure_set) !! k) (set_order (dom w.(erasure_set))))).

Definition work_new : Work := mkWork ∅ ∅ ∅ ∅ [].

Definition insert_data_blobs (fuel : nat) (has_senders : bool) (new_blobs : list Blob)
    : res BlocktreeError Inserted :=
  let '(r, w) := insert_steps fuel new_blobs work_new in
  _ ← r;
  let entries := working_entries w in
  Ok (mkInserted (write db w.(write_batch))
    (existsb (λ '(_, (m, backup)), negb (bool_decide (Some m = backup)) && slot_has_updates m backup)
      entries)
    (omap (λ '(s, (m, backup)),
       if has_senders && is_newly_completed_slot m backup then Some s else None) entries)).

Definition delete_coding_blob (slot index : Z) : Database :=
  let set_index := set_index_for index in
  let e := default (ErasureMeta_new set_index) (db.(cf_erasure_meta) !! (slot, set_index)) in
  let e := set_coding_present index false e in
  write db [DeleteCoding (slot, index); PutErasureMeta (slot, set_index) e].

(** *** Reading *)

(** The keys are big-endian: the order of the database is the order of the
    pairs. *)
Definition key_le (k1 k2 : Z * Z) : Prop := k1.1 < k2.1 ∨ k1.1 = k2.1 ∧ k1.2 ≤ k2.2.
Global Instance key_le_dec : RelDecision key_le.
Proof. intros k1 k2. unfold key_le. apply _. Defined.

(** [db_iterator.seek(key)]: the keys that the cursor will show *)
Definition seek {A} (column : gmap (Z * Z) A) (key : Z * Z) : list (Z * Z) :=
  filter (key_le key) (merge_sort key_le (map_to_list column).*1).

(** Pushes the indexes of a range until [max_missing] are found; the flag says
    that they are. *)
Definition push_missing (missing : list Z) (first last : Z) (max_missing : nat) : list Z * bool :=
  let l := missing ++ take (max_missing - length missing) (range_list first last) in
  (l, bool_decide (first < last ∧ length l = max_missing)).

Fixpoint missing_loop (cursor : list (Z * Z)) (slot prev_index end_index : Z) (max_missing : nat)
    (missing : list Z) : list Z :=
  match cursor with
  | [] => (push_missing missing prev_index end_index max_missing).1
  | (current_slot, index) :: cursor' =>
      let current_index := if slot <? current_slot then end_index else index in
      let upper_index := Z.min current_index end_index in
      let '(missing, full) := push_missing missing prev_index upper_index max_missing in
      if full then missing
      else if slot <? current_slot then missing
      else if end_index <=? current_index then missing
      else missing_loop cursor' slot (u64_add current_index 1) end_index max_missing missing
  end.

Definition find_missing_indexes {A} (column : gmap (Z * Z) A) (slot start_index end_index : Z)
    (max_missing : nat) : list Z :=
  if (end_index <=? start_index) || (max_missing =? 0)%nat then []
  else missing_loop (seek column (slot, start_index)) slot start_index end_index max_missing [].

Definition find_missing_data_indexes (slot start_index end_index : Z) (max_missing : nat)
    : list Z :=
  find_missing_indexes db.(cf_data) slot start_index end_index max_missing.

Fixpoint read_loop (cursor : list (Z * Z)) (indexes : list Z) (start_index : Z) (room : nat)
    (total_blobs : Z) (read : list Z) : res BlocktreeError (Z * list Z) :=
  match indexes with
  | [] => Ok (total_blobs, read)
  | expected_index :: indexes' =>
      match cursor with
      | [] => if expected_index =? start_index then Err NotFound else Ok (total_blobs, read)
      | (s, index) :: cursor' =>
          if negb (index =? expected_index) then Ok (total_blobs, read)
          else
          match db.(cf_data) !! (s, index) with
          | None => Ok (total_blobs, read)
          | Some value =>
              if (room <? length read + length value)%nat then Ok (total_blobs, read)
              else read_loop cursor' indexes' start_index room (total_blobs + 1) (read ++ value)
          end
      end
  end.

(** The result has the bytes that [buf] begins with afterwards. *)
Definition read_blobs_bytes (start_index num_blobs : Z) (buf_len : nat) (slot : Z)
    : res BlocktreeError (Z * list Z) :=
  read_loop (seek db.(cf_data) (slot, start_index))
    (range_list start_index (u64_add start_index num_blobs)) start_index buf_len 0 [].

Definition get_slots_since (slots : list Z) : gmap Z (list Z) :=
  foldl (λ r s, match db.(cf_meta) !! s with Some m => <[s := m.(next_slots)]> r | None => r end)
    ∅ slots.

Definition is_root (slot : Z) : bool :=
  match db.(cf_root) !! slot with Some b => b | None => false end.

(** The loop of [set_root]: the slots that are marked. *)
Fixpoint root_chain (fuel : nat) (current_slot prev_root : Z) : res BlocktreeError (list Z) :=
  if current_slot =? prev_root then Ok []
  else
  match fuel with
  | O => Err OutOfFuel
  | S fuel' =>
      m ← unwrap (db.(cf_meta) !! current_slot);
      rest ← root_chain fuel' m.(parent_slot) prev_root;
      Ok (current_slot :: rest)
  end.

Definition set_root (fuel : nat) (new_root prev_root : Z) : res BlocktreeError Database :=
  if new_root =? 0 then Ok (write db [PutRoot 0])
  else
  slots ← root_chain fuel new_root prev_root;
  Ok (write db (PutRoot <$> slots)).

(** [results.len() > max] is tested before each push. *)
Fixpoint orphans_loop (cursor : list Z) (max : option nat) (results : list Z) : list Z :=
  match cursor with
  | [] => results
  | s :: cursor' =>
      if match max with Some max => (max <? length results)%nat | None => false end then results
      else orphans_loop cursor' max (results ++ [s])
  end.

Definition get_orphans (max : option nat) : list Z :=
  orphans_loop (merge_sort Z.le (map_to_list db.(cf_orphans)).*1) max [].

(** The rooted slot iterator; its state is [next_slots]. *)
Definition RootedSlotIterator_new (start_slot : Z) : res BlocktreeError (list Z) :=
  if is_root start_slot then Ok [start_slot] else Err SlotNotRooted.

Definition RootedSlotIterator_next : M (list Z) BlocktreeError (option (Z * SlotMeta)) :=
  next_slots ← getM;
  match List.find is_root next_slots with
  | None => mret None
  | Some rooted_slot =>
      m ← liftM (unwrap (db.(cf_meta) !! rooted_slot));
      putM m.(meta.next_slots);;
      mret (Some (rooted_slot, m))
  end.

(** *** Entries *)

Section Entries.
Context (sha256 : list Z → Hash) `{!Bincode Transaction, !Bincode (list Entry)}.

(** The blobs that [write_entries] makes; the state of the loop is the slot, its
    parent, the index and the ticks that remain. *)
Fixpoint entry_blobs (ticks_per_slot current_slot parent_slot current_index remaining : Z)
    (entries : list Entry) : res BlocktreeError (list Blob) :=
  match entries with
  | [] => Ok []
  | e :: entries' =>
      let '(current_slot, parent_slot, current_index, remaining) :=
        if remaining =? 0
        then (u64_add current_slot 1, u64_sub (u64_add current_slot 1) 1, 0, ticks_per_slot)
        else (current_slot, parent_slot, current_index, remaining) in
      b ← from_serializable [e];
      let '(b, remaining) :=
        if is_tick e then
          let remaining := u64_sub remaining 1 in
          (if remaining =? 0 then set_is_last_in_slot b else b, remaining)
        else (b, remaining) in
      let b := set_parent parent_slot (set_slot current_slot (blob_header.set_index current_index b)) in
      blobs ← entry_blobs ticks_per_slot current_slot parent_slot (u64_add current_index 1) remaining
        entries';
      Ok (b :: blobs)
  end.

Definition write_entries (fuel : nat) (has_senders : bool)
    (start_slot num_ticks_in_start_slot start_index ticks_per_slot : Z) (entries : list Entry)
    : res BlocktreeError Inserted :=
  if negb (num_ticks_in_start_slot <? ticks_per_slot) then Panic
  else
  let remaining := u64_sub ticks_per_slot num_ticks_in_start_slot in
  let parent_slot := if start_slot =? 0 then start_slot else u64_sub start_slot 1 in
  blobs ← entry_blobs ticks_per_slot start_slot parent_slot start_index remaining entries;
  insert_data_blobs fuel has_senders blobs.

Fixpoint deserialize_blobs (blob_datas : list (list Z)) : res BlocktreeError (list Entry) :=
  match blob_datas with
  | [] => Ok []
  | bytes :: blob_datas' =>
      if Z.of_nat (length bytes) <? BLOB_HEADER_SIZE then Panic
      else
      es ← unwrap (deserialize (drop (Z.to_nat BLOB_HEADER_SIZE) bytes));
      rest ← deserialize_blobs blob_datas';
      Ok (es ++ rest)
  end.

Definition get_slot_entries_with_blob_count (slot blob_start_index : Z) (max_entries : option Z)
    : res BlocktreeError (list Entry * nat) :=
  consecutive_blobs ← get_slot_consecutive_blobs (blobs_fuel ∅) slot ∅ blob_start_index
    max_entries [];
  es ← deserialize_blobs consecutive_blobs;
  Ok (es, length consecutive_blobs).

Definition get_slot_entries (slot blob_start_index : Z) (max_entries : option Z)
    : res BlocktreeError (list Entry) :=
  '(es, _) ← get_slot_entries_with_blob_count slot blob_start_index max_entries;
  Ok es.

(** The iterator of [read_ledger]: the cursor, the [blockhash] and the entries
    that are left of the last blob. *)
Definition EntryIterator_next
    : M (list (Z * Z) * option Hash * list Entry) BlocktreeError (option Entry) :=
  '(cursor, blockhash, entries) ← getM;
  match entries with
  | e :: entries' => putM (cursor, blockhash, entries');; mret (Some e)
  | [] =>
      match cursor with
      | [] => mret None
      | k :: cursor' =>
          value ← liftM (unwrap (db.(cf_data) !! k));
          if Z.of_nat (length value) <? BLOB_HEADER_SIZE then panic
          else
          match deserialize (drop (Z.to_nat BLOB_HEADER_SIZE) value) with
          | None => mret None
          | Some next_entries =>
              verified ← liftM (match blockhash with
                                | Some h => EntrySlice_verify sha256 h next_entries
                                | None => Ok true
                                end);
              if negb verified then mret None
              else
              match next_entries with
              | [] => putM (cursor', blockhash, []);; mret None
              | e :: entries' =>
                  putM (cursor', Some e.(entry_hash), entries');;
                  mret (Some e)
              end
          end
      end
  end.

Definition read_ledger : list (Z * Z) * option Hash * list Entry :=
  (merge_sort key_le (map_to_list db.(cf_data)).*1, None, []).

End Entries.

(** The blobs that are put in the batch *)
Fixpoint genesis_puts (blobs : list Blob) : res BlocktreeError (list WriteOp) :=
  match blobs with
  | [] => Ok []
  | b :: blobs' =>
      bytes ← stored_bytes b;
      ops ← genesis_puts blobs';
      Ok (PutData (slot b, index b) bytes :: ops)
  end.

Definition write_genesis_blobs (blobs : list Blob) : res BlocktreeError Database :=
  last ← unwrap (last blobs);
  let m := SlotMeta_new 0 1 in
  let n := u64_add (index last) 1 in
  let m := with_connected true (with_progress n n m.(last_index) m) in
  ops ← genesis_puts blobs;
  Ok (write db (PutMeta 0 m :: ops)).

End Insert.

(** [put_coding_blob_bytes] writes its batch before it inserts the recovered
    data. *)
Definition put_coding_blob_bytes slot_order reconstruct set_order (fuel : nat) (has_senders : bool)
    (slot index : Z) (bytes : list Z) (db : Database) : res BlocktreeError unit * Database :=
  let set_index := set_index_for index in
  let e := default (ErasureMeta_new set_index) (db.(cf_erasure_meta) !! (slot, set_index)) in
  let e := set_em_size (u64_sub (Z.of_nat (length bytes)) BLOB_HEADER_SIZE)
             (set_coding_present index true e) in
  let '(r, w) :=
    (put (PutCoding (slot, index) bytes);;
     o ← liftM (try_erasure_recover db reconstruct e slot ∅ (Some (index, bytes)));
     match o with
     | Some (data, coding) =>
         e' ← put_coding e coding;
         put (PutErasureMeta (slot, set_index) e');;
         mret data
     | None => put (PutErasureMeta (slot, set_index) e);; mret []
     end) work_new in
  match r with
  | Ok data =>
      let db := write db w.(write_batch) in
      match data with
      | [] => (Ok tt, db)
      | _ =>
          match insert_data_blobs db slot_order reconstruct set_order fuel has_senders data with
          | Ok i => (Ok tt, i.(new_db))
          | Err err => (Err err, db)
          | Panic => (Panic, db)
          end
      end
  | Err err => (Err err, db)
  | Panic => (Panic, db)
  end.

Fixpoint put_many_coding_blob_bytes slot_order reconstruct set_order (fuel : nat)
    (has_senders : bool) (coding_blobs : list Blob) : M Database BlocktreeError unit :=
  match coding_blobs with
  | [] => mret tt
  | b :: coding_blobs' =>
      if negb (is_coding b) then panic
      else
      bytes ← liftM (stored_bytes b);
      put_coding_blob_bytes slot_order reconstruct set_order fuel has_senders (slot b) (index b)
        bytes;;
      put_many_coding_blob_bytes slot_order reconstruct set_order fuel has_senders coding_blobs'
  end.
End blocktree.
Global Arguments blocktree.blobs_fuel : simpl never.
