(* ===== verification/BlockStoreProofs.v ===== *)
(** * The block store: theorems

    Invariants of the store of BlockStore.v and what its operations do. *)

From stdpp Require Import sorting.
From S2P Require Import Prelude Interface Codec Message Entry BlockStore.

Import blob blob_header meta blocktree.

Module store_proofs.

(** Case analysis on the condition of the computation that is run *)
Ltac case_cond :=
  match goal with |- context [(if ?c then _ else _) ?w] => destruct c eqn:? end.

(** ** What the metadata of a slot says of its blobs *)

(** The flag of the last blob of a slot, in the header of stored bytes *)
Definition flagged (bytes : list Z) : bool := is_last_in_slot (mkBlob bytes 0).

(** [D i]: the stored bytes of the blob of index [i].  [consumed] is the length of
    the run of blobs from 0, [received] is one more than the highest index, and
    [last_index] is the index of the blob that is flagged as the last one, which
    is then the highest. *)
Record slot_ok (D : Z → option (list Z)) (m : SlotMeta) : Prop := {
  ok_consumed : 0 ≤ m.(consumed);
  ok_prefix : ∀ i, 0 ≤ i < m.(consumed) → is_Some (D i);
  ok_gap : D m.(consumed) = None;
  ok_received : 0 ≤ m.(received) ≤ u64_max;
  ok_bound : ∀ i, is_Some (D i) → 0 ≤ i < m.(received);
  ok_highest : m.(received) = 0 ∨ is_Some (D (m.(received) - 1));
  ok_last : m.(last_index) = u64_max ∨
            0 ≤ m.(last_index) < u64_max ∧ m.(received) = m.(last_index) + 1;
  ok_flagged : ∀ i bytes, D i = Some bytes → flagged bytes = true ↔ m.(last_index) = i
}.

Lemma slot_ok_ext D D' m m' :
  (∀ i, D' i = D i) → m'.(consumed) = m.(consumed) → m'.(received) = m.(received) →
  m'.(last_index) = m.(last_index) → slot_ok D m → slot_ok D' m'.
Proof.
  intros HD Hc Hr Hl [? Hp Hg ? Hb Hh Hlast Hf].
  constructor; rewrite ?Hc, ?Hr, ?Hl; [done|..]; try (intros i); rewrite ?HD; auto.
Qed.

Lemma slot_ok_new D s p : (∀ i, D i = None) → slot_ok D (SlotMeta_new s p).
Proof.
  intros HD. constructor; cbn; [done|intros; lia|apply HD|unfold u64_max; lia| |by left|by left|].
  - intros i. rewrite HD. by intros [? ?].
  - intros i bytes. by rewrite HD.
Qed.

Lemma consumed_le_received D m : slot_ok D m → m.(consumed) ≤ m.(received).
Proof.
  intros H. destruct (decide (m.(consumed) ≤ m.(received))); [done|].
  assert (is_Some (D m.(received))) as HP.
  { apply (ok_prefix _ _ H). destruct (ok_received _ _ H). lia. }
  apply (ok_bound _ _ H) in HP. lia.
Qed.

(** A slot is full when it has exactly the blobs from 0 to [last_index]. *)
Lemma is_full_spec D m :
  slot_ok D m →
  is_full m = true ↔ m.(last_index) ≠ u64_max ∧ ∀ i, is_Some (D i) ↔ 0 ≤ i ≤ m.(last_index).
Proof.
  intros H. pose proof (consumed_le_received _ _ H). unfold is_full.
  destruct (Z.eqb_spec m.(last_index) u64_max) as [->|Hl]; [naive_solver|].
  destruct (ok_last _ _ H) as [?|[Hr1 Hr2]]; [done|].
  rewrite u64_add_exact by (unfold u64_max in *; lia). rewrite Z.eqb_eq. split.
  - intros Hc. split; [done|]. intros i. split.
    + intros Hi%(ok_bound _ _ H). lia.
    + intros Hi. apply (ok_prefix _ _ H). lia.
  - intros [_ Hall]. pose proof (ok_gap _ _ H) as Hg. pose proof (ok_consumed _ _ H).
    destruct (decide (m.(consumed) ≤ m.(last_index))); [|lia].
    assert (is_Some (D m.(consumed))) as [? ?] by (apply Hall; lia). congruence.
Qed.

(** *** Inserting one more blob *)

(** [n] more blobs follow the new one. *)
Lemma slot_ok_insert D m idx (n : Z) bytes :
  slot_ok D m → D idx = None → 0 ≤ idx < u64_max → idx < m.(last_index) →
  (flagged bytes = true → m.(received) ≤ idx) →
  (idx = m.(consumed) → 0 ≤ n ∧ (∀ i, idx + 1 ≤ i < idx + 1 + n → is_Some (D i)) ∧ D (idx + 1 + n) = None) →
  slot_ok (λ i, if decide (i = idx) then Some bytes else D i)
    (with_progress (if decide (idx = m.(consumed)) then idx + 1 + n else m.(consumed))
       (Z.max (idx + 1) m.(received))
       (if m.(last_index) =? u64_max then if flagged bytes then idx else u64_max else m.(last_index)) m).
Proof.
  intros H HD Hidx Hlt Hlast Hn. destruct H as [Hc Hp Hg Hr Hb Hh Hl Hf].
  constructor; cbn.
  - case_decide; lia.
  - intros i Hi. destruct (decide (i = idx)); [by eexists|]. case_decide as Hd; [|by apply Hp].
    destruct (Hn Hd) as (? & Hrun & _). destruct (decide (i < idx)); [apply Hp; lia|apply Hrun; lia].
  - destruct (decide (idx = m.(consumed))) as [Hd|Hd]; [|by rewrite decide_False].
    destruct (Hn Hd) as (? & _ & Hend). rewrite decide_False by lia. done.
  - unfold u64_max in *. lia.
  - intros i. case_decide as Hi; [lia|]. intros Hi'%Hb. lia.
  - right. destruct (decide (m.(received) ≤ idx)).
    + rewrite decide_True by lia. by eexists.
    + rewrite Z.max_r by lia. case_decide; [by eexists|]. destruct Hh as [?|?]; [lia|done].
  - destruct (Z.eqb_spec m.(last_index) u64_max) as [Hu|Hu].
    + destruct (flagged bytes); [right|by left]. specialize (Hlast eq_refl). lia.
    + right. destruct Hl as [?|Hl]; [done|]. lia.
  - intros i bytes'. case_decide as Hi.
    + intros [= <-]. subst i. destruct (Z.eqb_spec m.(last_index) u64_max) as [Hu|Hu].
      * destruct (flagged bytes); [done|]. split; [done|]. unfold u64_max in *. lia.
      * split; [|lia]. intros Hfl%Hlast. destruct Hl as [?|Hl]; [done|]. lia.
    + intros Hbytes. rewrite (Hf _ _ Hbytes). destruct (Z.eqb_spec m.(last_index) u64_max) as [Hu|Hu]; [|done].
      assert (0 ≤ i < m.(received)) by (apply Hb; by eexists).
      destruct (flagged bytes); [|by rewrite Hu]. specialize (Hlast eq_refl). unfold u64_max in *. lia.
Qed.

(** ** Bytes of blobs *)

Definition bytes_ok (b : Blob) : Prop := Forall is_u8 b.(blob_bytes).

Lemma le_value_range l : Forall is_u8 l →
  0 ≤ foldr (λ byte acc, byte + 256 * acc) 0 l < 256 ^ Z.of_nat (length l).
Proof.
  induction 1 as [|x l Hx Hl IH]; cbn [foldr length]; [cbn; lia|].
  rewrite Nat2Z.inj_succ, Z.pow_succ_r by lia. unfold is_u8 in Hx. lia.
Qed.

Lemma read_u64_range (r : range) b : r.2 = 8%nat → bytes_ok b → is_u64 (read_le r b).
Proof.
  intros Hr Hb. unfold read_le.
  pose proof (le_value_range (take r.2 (drop r.1 b.(blob_bytes)))) as Hv.
  destruct Hv as [H0 H1]; [by apply Forall_take, Forall_drop|]. split; [done|].
  eapply Z.lt_le_trans; [done|]. change 18446744073709551616 with (256 ^ 8).
  apply Z.pow_le_mono_r; [lia|]. rewrite length_take. lia.
Qed.

Lemma index_range b : bytes_ok b → is_u64 (index b).
Proof. by apply read_u64_range. Qed.
Lemma slot_range b : bytes_ok b → is_u64 (slot b).
Proof. by apply read_u64_range. Qed.
Lemma parent_range b : bytes_ok b → is_u64 (parent b).
Proof. by apply read_u64_range. Qed.

Lemma le_enc_bytes n : ∀ z, Forall is_u8 (le_enc n z).
Proof.
  induction n as [|n IH]; intros z; cbn; constructor; [|done].
  unfold is_u8. pose proof (Z.mod_pos_bound z 256). lia.
Qed.

Lemma set_size_bytes n b : bytes_ok b → bytes_ok (set_size n b).
Proof.
  unfold bytes_ok, set_size, set_data_size. cbn [blob_bytes]. intros Hb.
  rewrite !Forall_app. split_and!; [by apply Forall_take|apply le_enc_bytes|by apply Forall_drop].
Qed.

Lemma default_bytes : bytes_ok Blob_default.
Proof. unfold bytes_ok, Blob_default. cbn [blob_bytes]. apply Forall_replicate. unfold is_u8. lia. Qed.

#[local] Opaque Blob_default.

Lemma Blob_new_bytes {E} data b : Forall is_u8 data → Blob_new (E:=E) data = Ok b → bytes_ok b.
Proof.
  unfold Blob_new. intros Hd. case_match; [done|]. intros [= <-]. unfold bytes_ok. cbn [blob_bytes].
  apply Forall_app. split; [done|]. apply Forall_drop, default_bytes.
Qed.

(** The header of a blob is part of what is stored. *)
Lemma stored_header_size b : bytes_ok b → 112 ≤ u64_add BLOB_HEADER_SIZE (blob_size b).
Proof.
  intros Hb. pose proof (le_value_range (take SIZE_RANGE.2 (drop SIZE_RANGE.1 b.(blob_bytes)))) as Hv.
  destruct Hv as [H0 H1]; [by apply Forall_take, Forall_drop|]. fold (data_size b) in H0, H1.
  assert (data_size b < two64).
  { eapply Z.lt_le_trans; [done|]. change 18446744073709551616 with (256 ^ 8).
    apply Z.pow_le_mono_r; [lia|]. rewrite length_take. cbn [SIZE_RANGE snd]. lia. }
  change BLOB_HEADER_SIZE with 112. unfold blob_size. change BLOB_HEADER_SIZE with 112.
  destruct (Z.ltb_spec 112 (data_size b)); cbn [andb]; [|by rewrite u64_add_exact].
  destruct (data_size b =? b.(meta_size)); rewrite u64_add_exact; lia.
Qed.

Lemma stored_read {E} b bytes (r : range) : bytes_ok b → stored_bytes (E:=E) b = Ok bytes →
  (r.1 + r.2 ≤ 112)%nat → read_le r (mkBlob bytes 0) = read_le r b.
Proof.
  intros Hb. unfold stored_bytes. case_match; [done|]. intros [= <-] Hr.
  pose proof (stored_header_size b Hb) as Hn. unfold read_le. cbn [blob_bytes].
  rewrite skipn_firstn_comm, take_take, Nat.min_l; [done|]. lia.
Qed.

Lemma stored_flagged {E} b bytes : bytes_ok b → stored_bytes (E:=E) b = Ok bytes →
  flagged bytes = is_last_in_slot b.
Proof.
  intros Hb Hs. unfold flagged, is_last_in_slot, flags.
  by rewrite (stored_read b bytes FLAGS_RANGE Hb Hs ltac:(cbn; lia)).
Qed.

Section Store.
Context (db : Database).

Definition blobs_of (prev : gmap (Z * Z) (list Z)) (s i : Z) : option (list Z) :=
  find_blob db prev (s, i).
Definition has_blob (prev : gmap (Z * Z) (list Z)) (s i : Z) : Prop :=
  is_Some (find_blob db prev (s, i)).

Lemma has_blob_insert prev s i bytes s' i' :
  has_blob (<[(s, i) := bytes]> prev) s' i' ↔ has_blob prev s' i' ∨ (s', i') = (s, i).
Proof.
  unfold has_blob, find_blob. destruct (decide ((s', i') = (s, i))) as [->|Hne].
  - rewrite lookup_insert_eq. naive_solver.
  - rewrite lookup_insert_ne by done. naive_solver.
Qed.

Lemma has_blob_key prev s i :
  has_blob prev s i ↔ (s, i) ∈ dom prev ∪ dom db.(cf_data).
Proof.
  unfold has_blob, find_blob. rewrite elem_of_union, !elem_of_dom.
  destruct (prev !! (s, i)); naive_solver.
Qed.

(** The run of blobs from an index on, which the fuel is enough to find *)
Lemma consecutive_run prev s : (∀ i, has_blob prev s i → 0 ≤ i < u64_max) →
  ∀ (fuel : nat) start acc (seen : gset (Z * Z)),
  0 ≤ start ≤ u64_max →
  (∀ k, k ∈ seen → k ∈ dom prev ∪ dom db.(cf_data) ∧ k.2 < start) →
  (size (dom prev ∪ dom db.(cf_data)) < fuel + size seen)%nat →
  ∃ run, get_slot_consecutive_blobs db fuel s prev start None acc = Ok (acc ++ run) ∧
    (∀ i, start ≤ i < start + Z.of_nat (length run) →
       find_blob db prev (s, i) = run !! Z.to_nat (i - start)) ∧
    ¬ has_blob prev s (start + Z.of_nat (length run)).
Proof.
  intros Hrange. induction fuel as [|fuel IH]; intros start acc seen Hs Hseen Hfuel.
  - exfalso. assert (seen ⊆ dom prev ∪ dom db.(cf_data)) as Hsub by set_solver.
    apply subseteq_size in Hsub. lia.
  - cbn [get_slot_consecutive_blobs]. rewrite decide_False by done.
    destruct (find_blob db prev (s, start)) as [bytes|] eqn:Hf.
    + assert (has_blob prev s start) as Hh by (unfold has_blob; rewrite Hf; eauto).
      pose proof (Hrange _ Hh). rewrite u64_add_exact by (unfold u64_max in *; lia).
      destruct (IH (start + 1) (acc ++ [bytes]) ({[(s, start)]} ∪ seen)) as (run & -> & Hrun & Hend).
      * lia.
      * intros k [->%elem_of_singleton|Hk]%elem_of_union.
        { split; [by apply has_blob_key|cbn; lia]. }
        { destruct (Hseen k Hk). split; [done|lia]. }
      * rewrite (size_union {[(s, start)]} seen), size_singleton; [lia|]. intros k ->%elem_of_singleton Hk.
        apply Hseen in Hk as [_ Hk]. cbn in Hk. lia.
      * exists (bytes :: run). rewrite <- app_assoc. split_and!; [done| |].
        { intros i Hi. cbn [length] in Hi. destruct (decide (i = start)) as [->|].
          - by rewrite Z.sub_diag.
          - rewrite Hrun by lia. replace (Z.to_nat (i - start)) with (S (Z.to_nat (i - (start + 1)))) by lia.
            done. }
        { cbn [length]. by replace (start + Z.of_nat (S (length run)))
            with (start + 1 + Z.of_nat (length run)) by lia. }
    + exists []. rewrite app_nil_r. split_and!; [done|cbn; lia|].
      unfold has_blob. cbn. rewrite Z.add_0_r, Hf. by intros [? ?].
Qed.

Lemma consecutive_blobs prev s start : (∀ i, has_blob prev s i → 0 ≤ i < u64_max) →
  0 ≤ start ≤ u64_max →
  ∃ run, get_slot_consecutive_blobs db (blobs_fuel db prev) s prev start None [] = Ok run ∧
    (∀ i, start ≤ i < start + Z.of_nat (length run) →
       find_blob db prev (s, i) = run !! Z.to_nat (i - start)) ∧
    ¬ has_blob prev s (start + Z.of_nat (length run)).
Proof.
  intros Hrange Hs.
  destruct (consecutive_run prev s Hrange (blobs_fuel db prev) start [] ∅) as (run & Hrun & ?);
    [done|set_solver| |by eauto].
  unfold blobs_fuel. rewrite size_empty.
  assert (size (dom prev ∪ dom db.(cf_data)) ≤ size (dom prev) + size (dom db.(cf_data)))%nat.
  { rewrite size_union_alt. pose proof (subseteq_size (dom db.(cf_data) ∖ dom prev) (dom db.(cf_data))
      ltac:(set_solver)). lia. }
  rewrite !size_dom in *. lia.
Qed.

(** ** The invariant of the store and of a batch of insertions *)

(** Every slot that has blobs has metadata, which is right. *)
Definition store_ok : Prop := ∀ s,
  match db.(cf_meta) !! s with
  | Some m => slot_ok (blobs_of ∅ s) m
  | None => ∀ i, db.(cf_data) !! (s, i) = None
  end.

Record work_ok (w : Work) : Prop := {
  wo_slots : ∀ s,
    match w.(working_set) !! s with
    | Some (m, backup) => slot_ok (blobs_of w.(prev_inserted) s) m ∧ backup = db.(cf_meta) !! s
    | None => ∀ i, w.(prev_inserted) !! (s, i) = None
    end;
  wo_chained : ∀ s m, w.(chained_slots) !! s = Some m →
    w.(working_set) !! s = None ∧ slot_ok (blobs_of w.(prev_inserted) s) m;
  wo_data : (write db w.(write_batch)).(cf_data) = w.(prev_inserted) ∪ db.(cf_data);
  wo_meta : (write db w.(write_batch)).(cf_meta) = db.(cf_meta);
  wo_erasure : (write db w.(write_batch)).(cf_erasure_meta) = db.(cf_erasure_meta);
  wo_new : w.(prev_inserted) ##ₘ db.(cf_data)
}.

Lemma write_snoc batch op : write db (batch ++ [op]) = apply_op (write db batch) op.
Proof. unfold write. by rewrite foldl_app. Qed.

Lemma blobs_of_other prev s i : prev !! (s, i) = None → blobs_of prev s i = blobs_of ∅ s i.
Proof. intros Hp. unfold blobs_of, find_blob. by rewrite Hp, lookup_empty. Qed.

Lemma blobs_of_insert prev s i bytes s' i' :
  blobs_of (<[(s, i) := bytes]> prev) s' i' =
  if decide ((s', i') = (s, i)) then Some bytes else blobs_of prev s' i'.
Proof.
  unfold blobs_of, find_blob. case_decide as Hk; [rewrite Hk; by rewrite lookup_insert_eq|].
  by rewrite lookup_insert_ne.
Qed.

Lemma no_blob prev s i : ¬ has_blob prev s i ↔ blobs_of prev s i = None.
Proof. unfold has_blob, blobs_of. by rewrite eq_None_not_Some. Qed.

Context (Hstore : store_ok).

(** The metadata that a slot outside of the working set starts from *)
Lemma stored_meta_ok prev s (p : Z) :
  (∀ i, prev !! (s, i) = None) →
  slot_ok (blobs_of prev s) (default (SlotMeta_new s p) (db.(cf_meta) !! s)).
Proof.
  intros Hprev. specialize (Hstore s). destruct (db.(cf_meta) !! s) as [m|]; cbn.
  - eapply slot_ok_ext, Hstore; [|done..]. intros i. apply blobs_of_other, Hprev.
  - apply slot_ok_new. intros i. rewrite blobs_of_other by done.
    unfold blobs_of, find_blob. by rewrite lookup_empty, Hstore.
Qed.

Lemma working_entry_ok w b :
  work_ok w →
  let '(m, backup) := default (working_entry db b) (w.(working_set) !! slot b) in
  slot_ok (blobs_of w.(prev_inserted) (slot b)) m ∧ backup = db.(cf_meta) !! slot b.
Proof.
  intros Hw. pose proof (wo_slots _ Hw (slot b)) as Hs.
  destruct (w.(working_set) !! slot b) as [[m backup]|]; [done|]. cbn.
  pose proof (stored_meta_ok _ _ (parent b) Hs) as Hm. unfold working_entry.
  destruct (db.(cf_meta) !! slot b) as [m|]; cbn in *; [|by split]. split; [|done].
  destruct (is_orphan m); [|done]. by eapply slot_ok_ext, Hm.
Qed.

(** An entry of the working set that says the truth can be replaced. *)
Lemma work_ok_entry w s m :
  work_ok w → w.(chained_slots) = ∅ → slot_ok (blobs_of w.(prev_inserted) s) m →
  work_ok (with_working <[s := (m, db.(cf_meta) !! s)]> w).
Proof.
  intros Hw Hch Hm. constructor; cbn.
  - intros s'. destruct (decide (s' = s)) as [->|].
    + by rewrite lookup_insert_eq.
    + rewrite lookup_insert_ne by done. apply (wo_slots _ Hw).
  - intros s' m'. by rewrite Hch, lookup_empty.
  - apply (wo_data _ Hw).
  - apply (wo_meta _ Hw).
  - apply (wo_erasure _ Hw).
  - apply (wo_new _ Hw).
Qed.

(** The whole update for a new blob *)
Lemma work_ok_insert w s i bytes m :
  work_ok w → w.(chained_slots) = ∅ →
  ¬ has_blob w.(prev_inserted) s i → slot_ok (λ j, if decide (j = i) then Some bytes else blobs_of w.(prev_inserted) s j) m →
  work_ok (mkWork (<[s := (m, db.(cf_meta) !! s)]> w.(working_set)) w.(erasure_set)
    (<[(s, i) := bytes]> w.(prev_inserted)) w.(chained_slots)
    (w.(write_batch) ++ [PutData (s, i) bytes])).
Proof.
  intros Hw Hch Hno Hm. constructor; cbn.
  - intros s'. destruct (decide (s' = s)) as [->|].
    + rewrite lookup_insert_eq. split; [|done]. eapply slot_ok_ext, Hm; [|done..].
      intros j. rewrite blobs_of_insert. repeat case_decide; naive_solver.
    + rewrite lookup_insert_ne by done. pose proof (wo_slots _ Hw s') as Hs.
      destruct (w.(working_set) !! s') as [[m' backup]|].
      * destruct Hs as [Hs ->]. split; [|done]. eapply slot_ok_ext, Hs; [|done..].
        intros j. rewrite blobs_of_insert. case_decide; naive_solver.
      * intros j. rewrite lookup_insert_ne by naive_solver. apply Hs.
  - intros s' m'. by rewrite Hch, lookup_empty.
  - rewrite write_snoc. pose proof (wo_data _ Hw) as Hd.
    destruct (write db w.(write_batch)). cbn in *. by rewrite Hd, insert_union_l.
  - rewrite write_snoc. pose proof (wo_meta _ Hw) as Hd. by destruct (write db w.(write_batch)).
  - rewrite write_snoc. pose proof (wo_erasure _ Hw) as Hd. by destruct (write db w.(write_batch)).
  - apply map_disjoint_insert_l. split; [|apply (wo_new _ Hw)].
    rewrite has_blob_key in Hno. apply not_elem_of_dom. set_solver.
Qed.

Lemma should_insert_true m prev b :
  slot_ok (blobs_of prev (slot b)) m → is_u64 (index b) →
  should_insert_blob db m prev b = true →
  ¬ has_blob prev (slot b) (index b) ∧ 0 ≤ index b < u64_max ∧ index b < m.(last_index) ∧
  (is_last_in_slot b = true → m.(received) ≤ index b).
Proof.
  intros Hm Hi. unfold should_insert_blob.
  destruct (Z.ltb_spec (index b) m.(consumed)); [done|].
  case_bool_decide as Hp; [done|]. case_bool_decide as Hd; [done|].
  destruct (Z.leb_spec m.(last_index) (index b)); [done|]. intros Hlast.
  assert (m.(last_index) ≤ u64_max). { destruct (ok_last _ _ Hm); lia. }
  unfold is_u64 in *. split_and!; try lia.
  - rewrite has_blob_key, elem_of_union, !elem_of_dom. tauto.
  - intros Hl. rewrite Hl in Hlast. destruct (Z.ltb_spec (index b) m.(received)); [done|lia].
Qed.

(** The computation of [new_consumed] *)
Lemma new_consumed_spec prev b m :
  slot_ok (blobs_of prev (slot b)) m → 0 ≤ index b < u64_max →
  ∃ n, (if m.(consumed) =? index b then
      match get_slot_consecutive_blobs db (blobs_fuel db prev) (slot b) prev
        (u64_add (index b) 1) None [] with
      | Ok a => Ok (u64_add (u64_add m.(consumed) (Z.of_nat (length a))) 1)
      | Err e => Err e
      | Panic => Panic
      end else Ok m.(consumed)) =
      Ok (if decide (index b = m.(consumed)) then index b + 1 + n else m.(consumed)) ∧
    (index b = m.(consumed) → 0 ≤ n ∧
      (∀ i, index b + 1 ≤ i < index b + 1 + n → has_blob prev (slot b) i) ∧
      ¬ has_blob prev (slot b) (index b + 1 + n)).
Proof.
  intros Hm Hrange. destruct (consecutive_blobs prev (slot b) (u64_add (index b) 1))
    as (run & Hrun & Hfound & Hend).
  { intros i Hb%(ok_bound _ _ Hm). pose proof (ok_received _ _ Hm). lia. }
  { rewrite u64_add_exact; unfold u64_max in *; lia. }
  rewrite u64_add_exact in * by (unfold u64_max in *; lia). exists (Z.of_nat (length run)).
  assert (∀ i, index b + 1 ≤ i < index b + 1 + Z.of_nat (length run) → has_blob prev (slot b) i) as Hall.
  { intros i Hir. unfold has_blob. rewrite Hfound by done. apply lookup_lt_is_Some. lia. }
  rewrite Hrun. destruct (Z.eqb_spec m.(consumed) (index b)) as [Hc|].
  - rewrite decide_True by done. split; [|intros _; split_and!; [lia|done..]].
    assert (index b + 1 + Z.of_nat (length run) ≤ u64_max) as Hmax.
    { destruct run as [|x run']; [cbn; lia|].
      pose proof (Hall (index b + Z.of_nat (length (x :: run'))) ltac:(cbn [length]; lia)) as Hb.
      apply (ok_bound _ _ Hm) in Hb. pose proof (ok_received _ _ Hm). lia. }
    f_equal. rewrite Hc. unfold u64_max in *.
    rewrite (u64_add_exact (index b) (Z.of_nat _)) by lia. rewrite u64_add_exact; lia.
  - rewrite decide_False by done. split; [done|]. intros ?. done.
Qed.

(** Blobs are only added and metadata only advances. *)
Definition work_le (w w' : Work) : Prop :=
  w.(prev_inserted) ⊆ w'.(prev_inserted) ∧
  ∀ s m backup, w.(working_set) !! s = Some (m, backup) →
    ∃ m', w'.(working_set) !! s = Some (m', backup) ∧
      m'.(last_index) ≤ m.(last_index) ∧ m.(received) ≤ m'.(received).

Global Instance work_le_preorder : PreOrder work_le.
Proof.
  split.
  - intros w. split; [done|]. eauto 10 using Z.le_refl.
  - intros w1 w2 w3 [Hp1 Hs1] [Hp2 Hs2]. split; [by etrans|].
    intros s m backup (m2 & H2 & ? & ?)%Hs1. apply Hs2 in H2 as (m3 & H3 & ? & ?).
    exists m3. split_and!; [done|lia..].
Qed.

(** A blob is there, or it is refused: it lies beyond the last blob of its slot,
    or says it is the last although there are later ones. *)
Definition stored_or_refused (w : Work) (b : Blob) : Prop :=
  has_blob w.(prev_inserted) (slot b) (index b) ∨
  ∃ m backup, w.(working_set) !! slot b = Some (m, backup) ∧
    (m.(last_index) ≤ index b ∨ is_last_in_slot b = true ∧ index b < m.(received)).

Lemma stored_or_refused_le w w' b : work_le w w' → stored_or_refused w b → stored_or_refused w' b.
Proof.
  intros [Hp Hs] [Hb|(m & backup & (m' & Hm' & ? & ?)%Hs & Hr)].
  - left. revert Hb. rewrite !has_blob_key. apply subseteq_dom in Hp. set_solver.
  - right. exists m', backup. split; [done|]. destruct Hr as [?|[? ?]]; [left; lia|right; split; [done|lia]].
Qed.

Lemma should_insert_false w m backup b :
  slot_ok (blobs_of w.(prev_inserted) (slot b)) m → is_u64 (index b) →
  should_insert_blob db m w.(prev_inserted) b = false →
  stored_or_refused (with_working <[slot b := (m, backup)]> w) b.
Proof.
  intros Hm Hi. unfold should_insert_blob, stored_or_refused. cbn. rewrite lookup_insert_eq.
  destruct (Z.ltb_spec (index b) m.(consumed)).
  { intros _. left. apply (ok_prefix _ _ Hm). unfold is_u64 in Hi. lia. }
  case_bool_decide as Hp; [rewrite has_blob_key, elem_of_union, !elem_of_dom; by auto|].
  case_bool_decide as Hd; [rewrite has_blob_key, elem_of_union, !elem_of_dom; by auto|]. cbn.
  destruct (Z.leb_spec m.(last_index) (index b)); [by eauto 10|].
  destruct (is_last_in_slot b), (Z.ltb_spec (index b) m.(received)); eauto 10; done.
Qed.

(** What one insertion does: it fails only when the size of the blob is more than
    its bytes, and then adds the blob unless it is there or refused. *)
Record insert_step (bs : list Blob) (w w' : Work) : Prop := {
  step_ok : work_ok w';
  step_unchained : w'.(chained_slots) = ∅;
  step_le : work_le w w';
  step_done : ∀ b, b ∈ bs → stored_or_refused w' b;
  step_from : ∀ k bytes, w'.(prev_inserted) !! k = Some bytes →
    w.(prev_inserted) !! k = Some bytes ∨
    ∃ b, b ∈ bs ∧ k = (slot b, index b) ∧ stored_bytes (E:=BlocktreeError) b = Ok bytes
}.

Lemma work_le_entry w b m :
  work_ok w → default (working_entry db b) (w.(working_set) !! slot b) = (m, db.(cf_meta) !! slot b) →
  ∀ prev batch m', w.(prev_inserted) ⊆ prev →
    m'.(last_index) ≤ m.(last_index) → m.(received) ≤ m'.(received) →
  work_le w (mkWork (<[slot b := (m', db.(cf_meta) !! slot b)]> w.(working_set)) w.(erasure_set)
    prev w.(chained_slots) batch).
Proof.
  intros Hw He prev batch m' Hp Hl Hr. split; [done|]. intros s m0 backup Hs. cbn.
  destruct (decide (s = slot b)) as [->|].
  - rewrite Hs in He. cbn in He. simplify_eq. rewrite lookup_insert_eq. eauto.
  - rewrite lookup_insert_ne by done. eauto using Z.le_refl.
Qed.

Lemma check_insert_spec w b :
  work_ok w → w.(chained_slots) = ∅ → bytes_ok b →
  match check_insert_data_blob db b w with
  | (Ok _, w') => insert_step [b] w w' ∧ w'.(erasure_set) = w.(erasure_set)
  | (Err _, _) => False
  | (Panic, _) => stored_bytes (E:=BlocktreeError) b = Panic
  end.
Proof.
  intros Hw Hch Hbo. pose proof (index_range b Hbo) as Hi. unfold check_insert_data_blob, modifyM. unfold_monad. cbn.
  pose proof (working_entry_ok w b Hw) as He. pose proof (work_le_entry w b) as Hle.
  destruct (default (working_entry db b) (w.(working_set) !! slot b)) as [m backup].
  destruct He as [Hm ->]. specialize (Hle m Hw eq_refl). cbn.
  destruct (should_insert_blob db m w.(prev_inserted) b) eqn:Hsh; cbn.
  2:{ split; [|done]. split; [by apply work_ok_entry|done|by apply Hle| |by left].
      intros b' ->%list_elem_of_singleton. by apply should_insert_false. }
  apply should_insert_true in Hsh as (Hno & Hrange & Hlt & Hlast); [|done..].
  unfold insert_data_blob, put, modifyM. unfold_monad. cbn.
  destruct (new_consumed_spec w.(prev_inserted) b m Hm Hrange) as (n & -> & Hn).
  destruct (stored_bytes b) as [bytes|e|] eqn:Hb; cbn.
  - rewrite (u64_add_exact (index b) 1) by (unfold u64_max in *; lia).
    pose proof (slot_ok_insert _ m (index b) n bytes Hm (proj1 (no_blob _ _ _) Hno) Hrange Hlt) as Hnew.
    rewrite (stored_flagged _ _ Hbo Hb) in Hnew. specialize (Hnew Hlast).
    setoid_rewrite no_blob in Hn. specialize (Hnew Hn).
    pose proof (work_ok_insert w (slot b) (index b) bytes _ Hw Hch Hno Hnew) as Hwork.
    unfold with_working, with_prev, with_batch. cbn. rewrite insert_insert_eq.
    split; [|done]. split; [exact Hwork|done| | |].
    + apply Hle; cbn; [|destruct (Z.eqb_spec m.(last_index) u64_max); [destruct (is_last_in_slot b); lia|lia]|lia].
      apply insert_subseteq, not_elem_of_dom. rewrite has_blob_key in Hno. set_solver.
    + intros b' ->%list_elem_of_singleton. left. apply has_blob_insert. by right.
    + cbn. intros k bytes'. destruct (decide (k = (slot b, index b))) as [->|].
      * rewrite lookup_insert_eq. intros [= <-]. right. exists b. by rewrite list_elem_of_singleton.
      * rewrite lookup_insert_ne by done. by left.
  - unfold stored_bytes in Hb. by case_match.
  - done.
Qed.

Lemma insert_step_erasure bs w w' f : insert_step bs w w' → insert_step bs w (with_erasure f w').
Proof. intros [Hok H1 H2 H3 H4]. split; [by destruct Hok|exact H1|exact H2|exact H3|exact H4]. Qed.

Lemma insert_step_trans bs bs' w1 w2 w3 :
  insert_step bs w1 w2 → insert_step bs' w2 w3 → insert_step (bs ++ bs') w1 w3.
Proof.
  intros [_ _ Hle1 Hd1 Hf1] [Hok Hch Hle2 Hd2 Hf2]. split; [done..|by etrans| |].
  - intros b [Hb|Hb]%elem_of_app; [by eapply stored_or_refused_le, Hd1|by apply Hd2].
  - intros k bytes [[?|(b & ? & ? & ?)]%Hf1|(b & ? & ? & ?)]%Hf2; [by left|right; exists b; set_solver..].
Qed.

Lemma insert_batch_spec bs : ∀ w,
  work_ok w → w.(chained_slots) = ∅ → (∀ b, b ∈ bs → bytes_ok b) →
  match insert_data_blob_batch db bs w with
  | (Ok _, w') => insert_step bs w w' ∧ dom w'.(erasure_set) = dom w.(erasure_set)
  | (Err _, _) => False
  | (Panic, _) => ∃ b, b ∈ bs ∧ (stored_bytes (E:=BlocktreeError) b = Panic ∨
                                 w.(erasure_set) !! (slot b, set_index_for (index b)) = None)
  end.
Proof.
  induction bs as [|b bs IH]; intros w Hw Hch Hi; cbn.
  { split; [|done]. split; [done..|set_solver|by left]. }
  unfold_monad. pose proof (check_insert_spec w b Hw Hch (Hi b ltac:(set_solver))) as Hc.
  destruct (check_insert_data_blob db b w) as [[inserted|e|] w1]; [|done|set_solver].
  destruct Hc as [Hstep Her].
  assert (∀ w2, insert_step [b] w w2 → dom w2.(erasure_set) = dom w.(erasure_set) →
    match insert_data_blob_batch db bs w2 with
    | (Ok _, w') => insert_step (b :: bs) w w' ∧ dom w'.(erasure_set) = dom w.(erasure_set)
    | (Err _, _) => False
    | (Panic, _) => ∃ b0, b0 ∈ b :: bs ∧ (stored_bytes (E:=BlocktreeError) b0 = Panic ∨
                       w.(erasure_set) !! (slot b0, set_index_for (index b0)) = None)
    end) as Hrest.
  { intros w2 Hs2 Hd2. specialize (IH w2 (step_ok _ _ _ Hs2) (step_unchained _ _ _ Hs2) ltac:(set_solver)).
    destruct (insert_data_blob_batch db bs w2) as [[u|e|] w3]; [|done|].
    - destruct IH as [Hs3 Hd3]. split; [by apply (insert_step_trans [b] bs _ w2)|congruence].
    - destruct IH as (b0 & Hin & Hor). exists b0. split; [set_solver|].
      destruct Hor as [?|Hn]; [by left|right]. apply not_elem_of_dom in Hn. rewrite Hd2 in Hn.
      by apply not_elem_of_dom. }
  destruct inserted; cbn; [|apply Hrest; [done|congruence]].
  destruct (w1.(erasure_set) !! (slot b, set_index_for (index b))) as [e|] eqn:He; cbn.
  - apply Hrest; [by apply insert_step_erasure|]. cbn. rewrite dom_insert_L, Her.
    apply (elem_of_dom_2 (D:=gset (Z * Z))) in He. rewrite Her in He. set_solver.
  - exists b. split; [set_solver|]. right. by rewrite <- Her.
Qed.

(** ** Chaining does not touch what the metadata says of blobs *)

Definition same_progress (m m' : SlotMeta) : Prop :=
  m'.(consumed) = m.(consumed) ∧ m'.(received) = m.(received) ∧ m'.(last_index) = m.(last_index) ∧
  m'.(parent_slot) = m.(parent_slot).

Global Instance same_progress_preorder : PreOrder same_progress.
Proof. unfold same_progress. split; [done|]. intros ???; naive_solver congruence. Qed.

Lemma same_progress_refl m : same_progress m m.
Proof. done. Qed.

Record chain_step (w w' : Work) : Prop := {
  cs_ok : work_ok w';
  cs_prev : w'.(prev_inserted) = w.(prev_inserted);
  cs_erasure : w'.(erasure_set) = w.(erasure_set);
  cs_dom : dom w'.(working_set) = dom w.(working_set);
  cs_working : ∀ s m backup, w.(working_set) !! s = Some (m, backup) →
    ∃ m', w'.(working_set) !! s = Some (m', backup) ∧ same_progress m m'
}.

Lemma chain_step_refl w : work_ok w → chain_step w w.
Proof. split; [done..|]. eauto using same_progress_refl. Qed.

Lemma chain_step_trans w1 w2 w3 : chain_step w1 w2 → chain_step w2 w3 → chain_step w1 w3.
Proof.
  intros [_ Hp1 He1 Hd1 Hw1] [Hok Hp2 He2 Hd2 Hw2]. split; [done|congruence..|].
  intros s m backup (m2 & H2 & ?)%Hw1. apply Hw2 in H2 as (m3 & ? & ?).
  exists m3. split; [done|by etrans].
Qed.

Lemma find_cell_spec w s : work_ok w →
  ∃ m w', find_slot_meta_else_create db s w = (Ok m, w') ∧ chain_step w w' ∧
    find_slot_meta_in_cached_state w' s = Some m.
Proof.
  intros Hw. unfold find_slot_meta_else_create. unfold_monad.
  destruct (find_slot_meta_in_cached_state w s) as [m|] eqn:Hc.
  { exists m, w. split_and!; [done|by apply chain_step_refl|done]. }
  unfold find_slot_meta_in_cached_state in Hc.
  destruct (w.(working_set) !! s) as [[m b]|] eqn:Hws; [done|].
  eexists _, _. split; [done|]. split.
  - split; [|done..|by eauto using same_progress_refl]. split; cbn.
    + apply (wo_slots _ Hw).
    + intros s' m'. destruct (decide (s' = s)) as [->|].
      * rewrite lookup_insert_eq. intros [= <-]. split; [done|]. apply stored_meta_ok.
        pose proof (wo_slots _ Hw s) as Hn. by rewrite Hws in Hn.
      * rewrite lookup_insert_ne by done. apply (wo_chained _ Hw).
    + apply (wo_data _ Hw).
    + apply (wo_meta _ Hw).
    + apply (wo_erasure _ Hw).
    + apply (wo_new _ Hw).
  - unfold find_slot_meta_in_cached_state. cbn. rewrite Hws. apply lookup_insert_eq.
Qed.

Lemma set_cell_spec w s m m' : work_ok w →
  find_slot_meta_in_cached_state w s = Some m → same_progress m m' → chain_step w (set_cell s m' w).
Proof.
  intros Hw Hc (Hp1 & Hp2 & Hp3 & Hp4). unfold find_slot_meta_in_cached_state, set_cell in *.
  destruct (w.(working_set) !! s) as [[m0 backup]|] eqn:Hws; simplify_eq.
  - pose proof (wo_slots _ Hw s) as Hs. rewrite Hws in Hs. destruct Hs as [Hs ->].
    split; cbn; [|done..| |].
    + split; cbn; [|intros s' m0|apply (wo_data _ Hw)|apply (wo_meta _ Hw)
      |apply (wo_erasure _ Hw)|apply (wo_new _ Hw)].
      * intros s'. destruct (decide (s' = s)) as [->|].
        { rewrite lookup_insert_eq. split; [|done]. by eapply slot_ok_ext, Hs. }
        { rewrite lookup_insert_ne by done. apply (wo_slots _ Hw). }
      * intros [Hn ?]%(wo_chained _ Hw). rewrite lookup_insert_ne by congruence. done.
    + rewrite dom_insert_L. apply (elem_of_dom_2 (D:=gset Z)) in Hws. set_solver.
    + intros s' m0 backup. destruct (decide (s' = s)) as [->|].
      * rewrite Hws, lookup_insert_eq. intros [= <- <-]. by eexists.
      * rewrite lookup_insert_ne by done. eauto using same_progress_refl.
  - split; cbn; [|done..|by eauto using same_progress_refl].
    split; cbn; [apply (wo_slots _ Hw)| |apply (wo_data _ Hw)|apply (wo_meta _ Hw)
      |apply (wo_erasure _ Hw)|apply (wo_new _ Hw)].
    intros s' m0. destruct (decide (s' = s)) as [->|].
    + rewrite lookup_insert_eq. intros [= <-]. split; [done|].
      apply (wo_chained _ Hw) in Hc as [_ Hc]. by eapply slot_ok_ext, Hc.
    + rewrite lookup_insert_ne by done. apply (wo_chained _ Hw).
Qed.

(** Operations on the orphans *)
Lemma put_orphan_spec w op : work_ok w →
  (∃ s, op = PutOrphan s) ∨ (∃ s, op = DeleteOrphan s) →
  chain_step w (with_batch (λ b, b ++ [op]) w).
Proof.
  intros Hw Hop. split; [|done..|by eauto using same_progress_refl].
  split; cbn; [apply (wo_slots _ Hw)|apply (wo_chained _ Hw)| | | |apply (wo_new _ Hw)]; rewrite write_snoc;
    [rewrite <- (wo_data _ Hw)|rewrite <- (wo_meta _ Hw)|rewrite <- (wo_erasure _ Hw)];
    destruct (write db w.(write_batch)); by destruct Hop as [[? ->]|[? ->]].
Qed.

Lemma find_all_spec ss : ∀ w, work_ok w →
  ∃ w', find_all db ss w = (Ok tt, w') ∧ chain_step w w'.
Proof.
  induction ss as [|s ss IH]; intros w Hw; cbn.
  { eexists. split; [done|]. by apply chain_step_refl. }
  destruct (find_cell_spec w s Hw) as (m & w1 & Hf & Hs & _).
  destruct (IH w1 (cs_ok _ _ Hs)) as (w2 & Ha & Hs2). exists w2.
  unfold_monad. rewrite Hf. split; [done|by eapply chain_step_trans].
Qed.

Lemma traverse_step fuel : ∀ stack w w', work_ok w →
  traverse_children_mut db fuel stack w = (Ok tt, w') → chain_step w w'.
Proof.
  induction fuel as [|fuel IH]; intros [|s stack] w w' Hw; cbn; try done.
  1,2: intros [= <-]; by apply chain_step_refl.
  destruct (find_cell_spec w s Hw) as (m & w1 & Hf & Hs & Hcell).
  unfold modifyM. unfold_monad. rewrite Hf.
  assert (chain_step w (set_cell s (with_connected true m) w1)) as Hs2.
  { eapply chain_step_trans; [done|]. by eapply set_cell_spec; [apply Hs|done|]. }
  destruct (is_full (with_connected true m)).
  - destruct (find_all_spec m.(next_slots) _ (cs_ok _ _ Hs2)) as (w3 & Ha & Hs3).
    cbn. rewrite Ha. intros Ht. apply IH in Ht; [|apply Hs3].
    by eapply chain_step_trans; [|eapply chain_step_trans].
  - intros Ht. apply IH in Ht; [|apply Hs2]. by eapply chain_step_trans.
Qed.

Lemma link_step w s m backup w' : work_ok w → w.(working_set) !! s = Some (m, backup) →
  link_to_parent db s m w = (Ok tt, w') → chain_step w w'.
Proof.
  intros Hw Hs. unfold link_to_parent.
  destruct (find_cell_spec w m.(parent_slot) Hw) as (pm & w0 & Hf & Hs0 & Hcell).
  rewrite (bind_eval _ _ _ _ _ Hf). destruct (Z.eqb_spec m.(parent_slot) s) as [|Hne]; [done|].
  cbn [chain_new_slot_to_prev_slot]. unfold modifyM.
  set (pm' := with_next _ pm). set (m' := with_connected _ m).
  assert (chain_step w (set_cell s m' (set_cell m.(parent_slot) pm' w0))) as Hset.
  { assert (chain_step w0 (set_cell m.(parent_slot) pm' w0)) as Hp
      by (by eapply set_cell_spec; [apply Hs0|done|]).
    pose proof (chain_step_trans _ _ _ Hs0 Hp) as Hp'.
    destruct (cs_working _ _ Hp' _ _ _ Hs) as (m2 & Hm2 & Hsame).
    eapply chain_step_trans; [exact Hp'|]. eapply set_cell_spec; [apply Hp'| |].
    - unfold find_slot_meta_in_cached_state. by rewrite Hm2.
    - destruct Hsame as (? & ? & ? & ?). by split_and!. }
  unfold_monad. destruct (is_orphan pm'); intros [= <-]; [|done].
  eapply chain_step_trans; [done|]. apply put_orphan_spec; [apply Hset|eauto].
Qed.

Lemma chain_for_slot_step fuel s w w' : work_ok w →
  handle_chaining_for_slot db fuel s w = (Ok tt, w') → chain_step w w'.
Proof.
  intros Hw. unfold handle_chaining_for_slot. rewrite (bind_eval getM _ w w w eq_refl).
  destruct (w.(working_set) !! s) as [[m backup]|] eqn:Hs; [|done].
  rewrite (bind_eval (liftM (unwrap (Some (m, backup)))) _ w (m, backup) w eq_refl).
  intros ([] & w1 & H1 & ([] & w2 & H2 & H)%bind_ok)%bind_ok.
  assert (chain_step w w1) as Hs1.
  { revert H1. case_cond; [by eapply link_step|intros [= <-]; by apply chain_step_refl]. }
  assert (chain_step w w2) as Hs2.
  { revert H2. case_cond; intros [= <-]; [|done].
    eapply chain_step_trans; [done|]. apply put_orphan_spec; [apply Hs1|eauto]. }
  revert H. rewrite (bind_eval getM _ w2 w2 w2 eq_refl).
  destruct (w2.(working_set) !! s) as [[m2 backup2]|]; [|done].
  rewrite (bind_eval (liftM (unwrap (Some (m2, backup2)))) _ w2 (m2, backup2) w2 eq_refl).
  case_cond; [|by intros [= <-]]. intros Ht%traverse_step; [|apply Hs2].
  by eapply chain_step_trans.
Qed.

Lemma chain_slots_step fuel ss : ∀ w w', work_ok w →
  chain_slots db fuel ss w = (Ok tt, w') → chain_step w w'.
Proof.
  induction ss as [|s ss IH]; intros w w' Hw; cbn [chain_slots].
  { intros [= <-]. by apply chain_step_refl. }
  intros ([] & w1 & H1%chain_for_slot_step & H2)%bind_ok; [|done].
  apply IH in H2; [|apply H1]. by eapply chain_step_trans.
Qed.

(** ** Writing the metadata *)

Lemma write_app b1 b2 d : write d (b1 ++ b2) = write (write d b1) b2.
Proof. unfold write. apply foldl_app. Qed.

(** A batch that puts the entries of a map in the metadata column *)
Lemma write_put_metas (f : Z → option SlotMeta) ss : ∀ d,
  let d' := write d (omap (λ s, PutMeta s <$> f s) ss) in
  d'.(cf_data) = d.(cf_data) ∧ d'.(cf_erasure_meta) = d.(cf_erasure_meta) ∧
  ∀ s, d'.(cf_meta) !! s =
    (if decide (s ∈ ss) then match f s with Some m => Some m | None => d.(cf_meta) !! s end
     else d.(cf_meta) !! s).
Proof.
  induction ss as [|s0 ss IH]; intros d; cbn.
  { split_and!; [done..|]. intros s. by rewrite decide_False by set_solver. }
  destruct (f s0) as [m|] eqn:Hf; cbn.
  - destruct (IH (apply_op d (PutMeta s0 m))) as (Hd & He & Hm).
    split_and!; [etrans; [exact Hd|by destruct d]|etrans; [exact He|by destruct d]|]. intros s. etrans; [exact (Hm s)|]. destruct d; cbn.
    destruct (decide (s = s0)) as [->|].
    + rewrite lookup_insert_eq, Hf. rewrite (decide_True (P := s0 ∈ s0 :: ss)) by set_solver.
      by case_decide.
    + rewrite lookup_insert_ne by done. repeat case_decide; set_solver.
  - destruct (IH d) as (Hd & He & Hm). split_and!; [exact Hd|exact He|]. intros s. etrans; [exact (Hm s)|].
    destruct (decide (s = s0)) as [->|]; [rewrite Hf; by repeat case_decide|].
    repeat case_decide; set_solver.
Qed.

(** Erasure metadata are in another column. *)
Lemma write_put_erasures (f : Z * Z → option ErasureMeta) ks : ∀ d,
  let d' := write d (omap (λ k, PutErasureMeta k <$> f k) ks) in
  d'.(cf_data) = d.(cf_data) ∧ d'.(cf_meta) = d.(cf_meta) ∧
  ∀ k e, d'.(cf_erasure_meta) !! k = Some e →
    f k = Some e ∨ d.(cf_erasure_meta) !! k = Some e.
Proof.
  induction ks as [|k ks IH]; intros d; cbn; [by auto|].
  destruct (f k) as [e|] eqn:Hf; cbn; [|apply IH].
  destruct (IH (apply_op d (PutErasureMeta k e))) as (Hd & Hm & He).
  split_and!; [etrans; [exact Hd|by destruct d]|etrans; [exact Hm|by destruct d]|].
  intros k' e' [?|H]%He; [by left|]. destruct d; cbn in H.
  destruct (decide (k' = k)) as [->|]; [rewrite lookup_insert_eq in H; left; congruence|].
  rewrite lookup_insert_ne in H by done. by right.
Qed.

(** ** Recovered blobs *)

Section Recover.
Context (reconstruct : list (list Z) → list bool → option (list (list Z))).
Context (Hbytes : ∀ blocks present out,
  reconstruct blocks present = Some out → Forall (Forall is_u8) out).

Lemma erasures_bytes blocks size start s ns : ∀ data coding, Forall (Forall is_u8) blocks →
  reconstruct_erasures blocks size start s ns = Ok (data, coding) → Forall bytes_ok data.
Proof.
  induction ns as [|n ns IH]; intros data coding Hb; cbn [reconstruct_erasures].
  { intros [= <- <-]. constructor. }
  intros (x & Hx & ([data' coding'] & Hr & H)%res_bind_ok)%res_bind_ok.
  apply IH in Hr; [|done]. destruct x as [b|b]; simplify_eq; [|done]. constructor; [|done].
  unfold recovered_blob in Hx. apply res_bind_ok in Hx as (block & Hblock%unwrap_ok & Hx).
  case_match; [|by case_match]. apply res_bind_ok in Hx as (b' & Hnew & [= <-]).
  apply set_size_bytes. eapply Blob_new_bytes; [|done].
  rewrite Forall_lookup in Hb. by eapply Hb.
Qed.

Lemma recovered_bytes e s prev new data coding :
  try_erasure_recover db reconstruct e s prev new = Ok (Some (data, coding)) → Forall bytes_ok data.
Proof.
  unfold try_erasure_recover. intros (st & _ & H)%res_bind_ok. destruct st; [|done..].
  destruct (recover db reconstruct s e prev new) as [[d c]|[]|] eqn:Hr; try done.
  case_match; [|done]. simplify_eq. unfold recover in Hr.
  apply res_bind_ok in Hr as ([bs ps] & _ & Hr). case_match; [done|].
  apply res_bind_ok in Hr as ([bs' ps'] & _ & Hr). unfold reconstruct_blobs in Hr.
  destruct (reconstruct bs' ps') as [blocks|] eqn:Hb; [|done].
  eapply erasures_bytes, Hr. by eapply Hbytes.
Qed.

(** Recovery writes coding blobs and erasure metadata only. *)
Record recover_step (w w' : Work) : Prop := {
  rs_working : w'.(working_set) = w.(working_set);
  rs_prev : w'.(prev_inserted) = w.(prev_inserted);
  rs_chained : w'.(chained_slots) = w.(chained_slots);
  rs_dom : dom w'.(erasure_set) = dom w.(erasure_set);
  rs_data : (write db w'.(write_batch)).(cf_data) = (write db w.(write_batch)).(cf_data);
  rs_meta : (write db w'.(write_batch)).(cf_meta) = (write db w.(write_batch)).(cf_meta);
  rs_erasure : (write db w'.(write_batch)).(cf_erasure_meta) =
    (write db w.(write_batch)).(cf_erasure_meta)
}.

Lemma recover_step_refl w : recover_step w w.
Proof. done. Qed.

Lemma recover_step_trans w1 w2 w3 : recover_step w1 w2 → recover_step w2 w3 → recover_step w1 w3.
Proof. intros [] []. split; congruence. Qed.

Lemma put_coding_step coding : ∀ e w e' w',
  put_coding e coding w = (Ok e', w') → recover_step w w' ∧ w'.(erasure_set) = w.(erasure_set).
Proof.
  induction coding as [|b coding IH]; intros e w e' w'; cbn [put_coding].
  { intros [= <- <-]. by split. }
  intros (bytes & w1 & H1 & ([] & w2 & H2 & H)%bind_ok)%bind_ok.
  assert (w1 = w) as -> by (unfold liftM in H1; congruence).
  apply IH in H as [Hs He]. unfold put, modifyM in H2. unfold_monad. simplify_eq.
  split; [|by rewrite He]. eapply recover_step_trans; [|exact Hs].
  split; cbn; [done..| | |]; rewrite write_snoc; by destruct (write db w.(write_batch)).
Qed.

Lemma recover_sets_step ks : ∀ acc w data w',
  Forall bytes_ok acc →
  recover_sets db reconstruct ks acc w = (Ok data, w') → recover_step w w' ∧ Forall bytes_ok data.
Proof.
  induction ks as [|k ks IH]; intros acc w data w' Hacc; cbn [recover_sets].
  { intros [= <- <-]. by split. }
  rewrite (bind_eval getM _ w w w eq_refl). intros (e & w1 & H1 & (o & w2 & H2 & H)%bind_ok)%bind_ok.
  unfold liftM in H1, H2. simplify_eq.
  destruct o as [[d c]|]; [|by apply IH in H].
  apply bind_ok in H as (e' & w3 & [Hs Hes]%put_coding_step & ([] & w4 & H4 & H)%bind_ok).
  unfold modifyM in H4. unfold_monad. simplify_eq.
  apply IH in H as [Hs' Hd].
  2:{ apply Forall_app. split; [done|]. by eapply recovered_bytes. }
  split; [|done]. eapply recover_step_trans; [exact Hs|]. eapply recover_step_trans; [|exact Hs'].
  split; cbn; [done..| |done|done|done]. rewrite dom_insert_L, Hes.
  apply unwrap_ok, (elem_of_dom_2 (D:=gset (Z * Z))) in H1. set_solver.
Qed.

Lemma recover_step_ok w w' : recover_step w w' → work_ok w → work_ok w'.
Proof.
  intros [Hw Hp Hc _ Hd Hm He] [H1 H2 H3 H4 H5 H6]. split.
  - rewrite Hw, Hp. apply H1.
  - rewrite Hw, Hp, Hc. apply H2.
  - by rewrite Hd, Hp.
  - by rewrite Hm.
  - by rewrite He.
  - by rewrite Hp.
Qed.

End Recover.

(** ** Inserting blobs keeps the store right *)

Lemma work_new_ok : work_ok work_new.
Proof.
  split; cbn; [intros s; by rewrite lookup_empty|intros s m; by rewrite lookup_empty| |done|done|].
  - by rewrite (left_id_L ∅ (∪)).
  - apply map_disjoint_empty_l.
Qed.

Section Insert.
Context (slot_order : gset Z → list Z) (set_order : gset (Z * Z) → list (Z * Z)).
Context (Hslots : ∀ X, slot_order X ≡ₚ elements X).

Lemma elem_of_slot_order s X : s ∈ slot_order X ↔ s ∈ X.
Proof. by rewrite Hslots, elem_of_elements. Qed.

(** The new metadata of a slot: its cell if it has one *)
Definition final_meta (w : Work) (s : Z) : option SlotMeta :=
  match find_slot_meta_in_cached_state w s with
  | Some m => Some m
  | None => db.(cf_meta) !! s
  end.

(** The last writes of [insert_data_blobs] *)
Definition final_batch (w : Work) : list WriteOp :=
  w.(write_batch) ++
  omap (λ s, PutMeta s <$> w.(chained_slots) !! s) (slot_order (dom w.(chained_slots))) ++
  omap (λ '(s, (m, backup)), if bool_decide (Some m = backup) then None else Some (PutMeta s m))
    (working_entries slot_order w) ++
  omap (λ k, PutErasureMeta k <$> w.(erasure_set) !! k) (set_order (dom w.(erasure_set))).

Definition changed (w : Work) (s : Z) : option SlotMeta :=
  match w.(working_set) !! s with
  | Some (m, backup) => if bool_decide (Some m = backup) then None else Some m
  | None => None
  end.

Lemma working_puts w :
  omap (λ '(s, (m, backup)), if bool_decide (Some m = backup) then None else Some (PutMeta s m))
    (working_entries slot_order w) =
  omap (λ s, PutMeta s <$> changed w s) (slot_order (dom w.(working_set))).
Proof.
  unfold working_entries. induction (slot_order (dom w.(working_set))) as [|s ss IH]; [done|].
  cbn. unfold changed at 1. destruct (w.(working_set) !! s) as [[m backup]|]; cbn; [|exact IH].
  case_bool_decide; cbn; [exact IH|]. f_equal. exact IH.
Qed.

Lemma final_batch_spec w : work_ok w →
  let d := write db (final_batch w) in
  d.(cf_data) = w.(prev_inserted) ∪ db.(cf_data) ∧ (∀ s, d.(cf_meta) !! s = final_meta w s) ∧
  ∀ k e, d.(cf_erasure_meta) !! k = Some e →
    w.(erasure_set) !! k = Some e ∨ db.(cf_erasure_meta) !! k = Some e.
Proof.
  intros Hw. cbn. unfold final_batch. rewrite !write_app, working_puts.
  set (d1 := write db w.(write_batch)).
  destruct (write_put_metas (λ s, w.(chained_slots) !! s) (slot_order (dom w.(chained_slots))) d1)
    as (Hd2 & He2 & Hm2). cbv zeta beta in Hd2, He2, Hm2. set (d2 := write d1 _) in *.
  destruct (write_put_metas (changed w) (slot_order (dom w.(working_set))) d2) as (Hd3 & He3 & Hm3).
  cbv zeta beta in Hd3, He3, Hm3. set (d3 := write d2 _) in *.
  destruct (write_put_erasures (λ k, w.(erasure_set) !! k) (set_order (dom w.(erasure_set))) d3)
    as (Hd4 & Hm4 & He4). cbv zeta beta in Hd4, Hm4, He4. rewrite Hd4, Hm4, Hd3, Hd2.
  split_and!; [apply (wo_data _ Hw)| |].
  2:{ intros k e [?|H]%He4; [by left|]. rewrite He3, He2 in H. unfold d1 in H.
      rewrite (wo_erasure _ Hw) in H. by right. }
  intros s. rewrite Hm3, Hm2. unfold d1. rewrite (wo_meta _ Hw).
  unfold final_meta, find_slot_meta_in_cached_state, changed. pose proof (wo_slots _ Hw s) as Hs.
  destruct (w.(working_set) !! s) as [[m backup]|] eqn:Hws.
  - destruct Hs as [_ ->]. rewrite (decide_True (P := s ∈ slot_order (dom w.(working_set)))).
    2:{ apply elem_of_slot_order, elem_of_dom. by eexists. }
    case_bool_decide as He; [|done].
    destruct (w.(chained_slots) !! s) as [m'|] eqn:Hc.
    + apply (wo_chained _ Hw) in Hc as [? _]. congruence.
    + by case_decide.
  - destruct (w.(chained_slots) !! s) as [m'|] eqn:Hc.
    + rewrite (decide_True (P := s ∈ slot_order (dom w.(chained_slots)))).
      2:{ apply elem_of_slot_order, elem_of_dom. by eexists. } by case_decide.
    + by repeat case_decide.
Qed.

Lemma blobs_of_union prev s i : (prev ∪ db.(cf_data)) !! (s, i) = blobs_of prev s i.
Proof.
  unfold blobs_of, find_blob. destruct (prev !! (s, i)) as [bytes|] eqn:Hp.
  - by apply lookup_union_Some_l.
  - by apply lookup_union_r.
Qed.

Lemma has_blob_union prev s i : has_blob prev s i ↔ is_Some ((prev ∪ db.(cf_data)) !! (s, i)).
Proof. by rewrite has_blob_key, <- dom_union_L, elem_of_dom. Qed.

Lemma final_meta_ok w s : work_ok w →
  match final_meta w s with
  | Some m => slot_ok (λ i, (w.(prev_inserted) ∪ db.(cf_data)) !! (s, i)) m
  | None => ∀ i, (w.(prev_inserted) ∪ db.(cf_data)) !! (s, i) = None
  end.
Proof.
  intros Hw. unfold final_meta, find_slot_meta_in_cached_state.
  pose proof (wo_slots _ Hw s) as Hs.
  assert (∀ m, slot_ok (blobs_of w.(prev_inserted) s) m →
            slot_ok (λ i, (w.(prev_inserted) ∪ db.(cf_data)) !! (s, i)) m) as Hok.
  { intros m Hm. eapply slot_ok_ext, Hm; [|done..]. intros i. by rewrite blobs_of_union. }
  destruct (w.(working_set) !! s) as [[m backup]|]; [by apply Hok, Hs|].
  destruct (w.(chained_slots) !! s) as [m|] eqn:Hc; [apply Hok; by apply (wo_chained _ Hw)|].
  pose proof (stored_meta_ok _ _ 0 Hs) as Hd. pose proof (Hstore s) as Hn.
  destruct (db.(cf_meta) !! s) as [m|]; [by apply Hok|].
  intros i. apply lookup_union_None. by split.
Qed.

Lemma chain_step_le w w' : chain_step w w' → work_le w w'.
Proof.
  intros [_ Hp _ _ Hw]. split; [by rewrite Hp|].
  intros s m backup (m' & ? & (? & ? & ? & ?))%Hw. exists m'. split_and!; [done|lia..].
Qed.

Lemma recover_step_le w w' : recover_step w w' → work_le w w'.
Proof. intros [Hw Hp _ _ _ _ _]. split; [by rewrite Hp|]. rewrite Hw. eauto using Z.le_refl. Qed.

Context (reconstruct : list (list Z) → list bool → option (list (list Z))).
Context (Hbytes : ∀ blocks present out,
  reconstruct blocks present = Some out → Forall (Forall is_u8) out).

Lemma insert_steps_ok fuel bs w' : Forall bytes_ok bs →
  insert_steps db slot_order reconstruct set_order fuel bs work_new = (Ok tt, w') →
  ∃ w, work_ok w ∧ w'.(working_set) = w.(working_set) ∧ w'.(write_batch) = final_batch w ∧
    ∀ b, b ∈ bs → stored_or_refused w b.
Proof.
  intros Hbs. unfold insert_steps. set (w0 := with_erasure (λ _, load_erasure_set db bs) work_new).
  rewrite (bind_eval _ _ work_new tt w0 eq_refl).
  assert (work_ok w0) as Hw0 by (destruct work_new_ok; by split).
  intros ([] & w1 & H1 & H)%bind_ok.
  pose proof (insert_batch_spec bs w0 Hw0 eq_refl) as Hb1. rewrite H1 in Hb1.
  destruct Hb1 as [Hs1 _]. { by rewrite Forall_forall in Hbs. }
  rewrite (bind_eval getM _ w1 w1 w1 eq_refl) in H.
  apply bind_ok in H as (data & w2 & [Hs2 Hdata]%recover_sets_step & H); [|done|constructor].
  apply bind_ok in H as ([] & w3 & H3 & H).
  pose proof (insert_batch_spec data w2 (recover_step_ok _ _ Hs2 (step_ok _ _ _ Hs1))) as Hb3.
  rewrite H3 in Hb3. destruct Hb3 as [Hs3 _].
  { rewrite (rs_chained _ _ Hs2). apply Hs1. }
  { by rewrite Forall_forall in Hdata. }
  apply bind_ok in H as ([] & w5 & H5 & H). unfold handle_chaining in H5.
  rewrite (bind_eval getM _ w3 w3 w3 eq_refl) in H5.
  apply bind_ok in H5 as ([] & w4 & H4%chain_slots_step & H5); [|apply Hs3].
  exists w4. unfold modifyM in *. unfold_monad. simplify_eq. cbn.
  split_and!; [apply H4|done| |].
  - unfold final_batch. by rewrite <- !app_assoc.
  - intros b Hin. eapply stored_or_refused_le; [|by apply Hs1].
    etrans; [by apply recover_step_le|]. etrans; [apply Hs3|]. by apply chain_step_le.
Qed.

End Insert.

End Store.
(** What is written *)
Lemma final_store db slot_order set_order w :
  store_ok db → (∀ X, slot_order X ≡ₚ elements X) → work_ok db w →
  let db' := write db (final_batch slot_order set_order w) in
  store_ok db' ∧ db.(cf_data) ⊆ db'.(cf_data) ∧
  ∀ b, stored_or_refused db w b →
    is_Some (db'.(cf_data) !! (slot b, index b)) ∨
    ∃ m, db'.(cf_meta) !! slot b = Some m ∧
      (m.(last_index) ≤ index b ∨ is_last_in_slot b = true ∧ index b < m.(received)).
Proof.
  intros Hstore Hslots Hw.
  destruct (final_batch_spec db Hstore slot_order set_order Hslots w Hw) as (Hd & Hm & _).
  cbn. rewrite Hd. split_and!.
  - intros s. rewrite Hm. pose proof (final_meta_ok db Hstore w s Hw) as Hok.
    destruct (final_meta db w s) as [m|]; [|by rewrite Hd].
    eapply slot_ok_ext, Hok; [|done..]. intros i. rewrite <- blobs_of_union, Hd. by rewrite (left_id_L ∅ (∪)).
  - apply map_union_subseteq_r, Hw.
  - intros b [Hb|(m & backup & Hm' & Hr)]; [left; by rewrite <- has_blob_union|].
    right. exists m. split; [|done]. rewrite Hm. unfold final_meta, find_slot_meta_in_cached_state.
    by rewrite Hm'.
Qed.

(** Inserting blobs: in a store whose metadata is right, the metadata stays right
    (a slot's [consumed], [received] and [last_index] describe exactly the blobs
    that are there), no blob is lost, and every new blob is there afterwards
    unless it lies beyond the last blob of its slot, or claims to be the last
    one below a blob that is there. *)
Theorem insert_data_blobs_ok db slot_order reconstruct set_order fuel has_senders bs out
    (Hslots : ∀ X, slot_order X ≡ₚ elements X)
    (Hbytes : ∀ blocks present res,
       reconstruct blocks present = Some res → Forall (Forall is_u8) res)
    (Hstore : store_ok db) (Hbs : Forall bytes_ok bs)
    (Hrun : insert_data_blobs db slot_order reconstruct set_order fuel has_senders bs = Ok out) :
  store_ok out.(new_db) ∧ db.(cf_data) ⊆ out.(new_db).(cf_data) ∧
  ∀ b, b ∈ bs →
    is_Some (out.(new_db).(cf_data) !! (slot b, index b)) ∨
    ∃ m, out.(new_db).(cf_meta) !! slot b = Some m ∧
      (m.(last_index) ≤ index b ∨ is_last_in_slot b = true ∧ index b < m.(received)).
Proof.
  unfold insert_data_blobs in Hrun.
  destruct (insert_steps db slot_order reconstruct set_order fuel bs work_new) as [r w'] eqn:Hsteps.
  apply res_bind_ok in Hrun as ([] & -> & Hout).
  apply insert_steps_ok in Hsteps as (w & Hw & Hws & Hbatch & Hdone); [|done..].
  injection Hout as <-. cbn [new_db]. rewrite Hbatch.
  destruct (final_store db slot_order set_order w) as (? & ? & ?); [done..|]. by split_and!; [..|auto].
Qed.

End store_proofs.
