(* ===== verification/BlockStoreChain.v ===== *)
(** * The block store: chaining slots

    The slots of a ledger form a forest; inserting blobs keeps it, and the
    traversal that marks connected slots ends. *)

From S2P Require Import Prelude Interface Codec Message Entry BlockStore BlockStoreProofs.

Import blob blob_header meta blocktree store_proofs.

Module chain_proofs.

(** Children come after their parent and have metadata. *)
Definition forest (get : Z → option SlotMeta) : Prop :=
  ∀ s m c, get s = Some m → c ∈ m.(next_slots) → s < c ≤ u64_max ∧ is_Some (get c).

(** No coding blob has been received. *)
Definition data_only (k : Z * Z) (e : ErasureMeta) : Prop :=
  e.(set_index) = k.2 ∧ 0 ≤ e.(em_data) < 2 ^ 8 ∧ e.(em_coding) = 0.

Section Chain.
Context (db : Database) (Hstore : store_ok db).

Definition chain_ok (w : Work) : Prop := work_ok db w ∧ forest (final_meta db w).

Lemma final_meta_cached w s m :
  find_slot_meta_in_cached_state w s = Some m → final_meta db w s = Some m.
Proof. unfold final_meta. by intros ->. Qed.

(** ** The traversal *)

Lemma find_cell_forest w s m w' : chain_ok w →
  find_slot_meta_else_create db s w = (Ok m, w') →
  chain_ok w' ∧ ∀ s', s' ≠ s → final_meta db w' s' = final_meta db w s'.
Proof.
  intros [Hw Hf] Hfind.
  destruct (find_cell_spec db Hstore w s Hw) as (m0 & w0 & H0 & Hs0 & Hc0).
  rewrite Hfind in H0. simplify_eq.
  unfold find_slot_meta_else_create in Hfind. unfold_monad.
  destruct (find_slot_meta_in_cached_state w s) as [m1|] eqn:Hcell; [by simplify_eq|].
  unfold find_slot_meta_in_db_else_create, modifyM in Hfind. unfold_monad. simplify_eq.
  assert (w.(working_set) !! s = None) as Hws.
  { unfold find_slot_meta_in_cached_state in Hcell. by destruct (w.(working_set) !! s) as [[]|]. }
  set (m := default (SlotMeta_new s u64_max) (cf_meta db !! s)) in *.
  assert (∀ s', s' ≠ s → final_meta db (with_chained <[s := m]> w) s' = final_meta db w s') as Hne.
  { intros s' Hs'. unfold final_meta, find_slot_meta_in_cached_state. cbn. by rewrite lookup_insert_ne. }
  apply final_meta_cached in Hc0. split; [|done]. split; [apply Hs0|]. intros s' m' c Hm' Hc.
  assert (∀ c, is_Some (final_meta db w c) → is_Some (final_meta db (with_chained <[s := m]> w) c)) as Hsome.
  { intros c'. destruct (decide (c' = s)) as [->|]; [by rewrite Hc0|by rewrite Hne]. }
  enough (∃ m0, final_meta db w s' = Some m0 ∧ c ∈ m0.(next_slots)) as (m0 & Hm0 & Hin).
  { destruct (Hf _ _ _ Hm0 Hin). auto. }
  destruct (decide (s' = s)) as [->|Hs']; [|rewrite Hne in Hm' by done; by exists m'].
  rewrite Hc0 in Hm'. injection Hm' as <-. subst m.
  destruct (cf_meta db !! s) as [md|] eqn:Hd; cbn in Hc; [|set_solver].
  exists md. split; [|done]. unfold final_meta. by rewrite Hcell.
Qed.

Lemma set_cell_meta w s m m' s' : find_slot_meta_in_cached_state w s = Some m →
  final_meta db (set_cell s m' w) s' = if decide (s' = s) then Some m' else final_meta db w s'.
Proof.
  unfold set_cell, final_meta, find_slot_meta_in_cached_state. intros Hc.
  destruct (w.(working_set) !! s) as [[m0 backup]|] eqn:Hws; cbn.
  - case_decide as Hs; [subst; by rewrite lookup_insert_eq|]. by rewrite lookup_insert_ne.
  - case_decide as Hs; [subst; by rewrite Hws, lookup_insert_eq|]. by rewrite lookup_insert_ne.
Qed.

Lemma set_cell_some w s m m' c : find_slot_meta_in_cached_state w s = Some m →
  is_Some (final_meta db w c) → is_Some (final_meta db (set_cell s m' w) c).
Proof. intros Hc Hs. erewrite set_cell_meta by done. by case_decide. Qed.

Lemma set_cell_forest w s m m' : chain_ok w →
  find_slot_meta_in_cached_state w s = Some m → same_progress m m' →
  (∀ c, c ∈ m'.(next_slots) → s < c ≤ u64_max ∧ is_Some (final_meta db w c)) →
  chain_ok (set_cell s m' w).
Proof.
  intros [Hw Hf] Hc Hsame Hnext. split; [by eapply set_cell_spec|].
  intros s' m0 c Hm0 Hin. erewrite set_cell_meta in Hm0 by done.
  enough (s' < c ≤ u64_max ∧ is_Some (final_meta db w c)) as [? ?] by (split; [done|by eapply set_cell_some]).
  case_decide; simplify_eq; eauto.
Qed.

Lemma find_all_forest ss : ∀ w w', chain_ok w → find_all db ss w = (Ok tt, w') → chain_ok w'.
Proof.
  induction ss as [|s ss IH]; intros w w' Hw; cbn [find_all]; [by intros [= <-]|].
  intros (m & w1 & H1 & H2)%bind_ok. apply find_cell_forest in H1 as [H1 _]; [|done]. by eapply IH.
Qed.

(** One turn of the loop *)
Lemma traverse_turn s w : chain_ok w → ∃ w1 children,
  chain_ok w1 ∧ (∀ c, c ∈ children → s < c ≤ u64_max) ∧
  ∀ fuel stack, traverse_children_mut db (S fuel) (s :: stack) w =
    traverse_children_mut db fuel (children ++ stack) w1.
Proof.
  intros Hw. destruct (find_cell_spec db Hstore w s (proj1 Hw)) as (m & w1 & Hf & Hs1 & Hc1).
  pose proof (find_cell_forest _ _ _ _ Hw Hf) as [Hw1 _].
  assert (∀ c, c ∈ m.(next_slots) → s < c ≤ u64_max ∧ is_Some (final_meta db w1 c)) as Hnext.
  { intros c. apply (proj2 Hw1). by apply final_meta_cached. }
  assert (chain_ok (set_cell s (with_connected true m) w1)) as Hw2 by (by eapply set_cell_forest).
  destruct (find_all_spec db Hstore m.(next_slots) _ (proj1 Hw2)) as (w3 & Ha & Hs3).
  destruct (is_full (with_connected true m)) eqn:Hfull.
  - exists w3, (rev m.(next_slots)). split; [by eapply find_all_forest|]. split.
    { intros c Hc%list_elem_of_In%in_rev%list_elem_of_In. by apply Hnext. }
    intros fuel stack. cbn [traverse_children_mut]. rewrite (bind_eval _ _ _ _ _ Hf).
    unfold modifyM. unfold_monad. rewrite Hfull. cbn. by rewrite Ha.
  - exists (set_cell s (with_connected true m) w1), []. split; [done|]. split; [set_solver|].
    intros fuel stack. cbn [traverse_children_mut]. rewrite (bind_eval _ _ _ _ _ Hf).
    unfold modifyM. unfold_monad. by rewrite Hfull.
Qed.

(** The traversal ends: a slot is only followed by later ones. *)
Lemma traverse_ends (n : nat) : ∀ ss stack,
  (∀ s, s ∈ ss → u64_max - s < Z.of_nat n) →
  (∀ w, chain_ok w → ∃ fuel w', traverse_children_mut db fuel stack w = (Ok tt, w') ∧ chain_ok w') →
  ∀ w, chain_ok w → ∃ fuel w',
    traverse_children_mut db fuel (ss ++ stack) w = (Ok tt, w') ∧ chain_ok w'.
Proof.
  induction n as [|n IHn]; induction ss as [|s ss IHss]; intros stack Hss Hk w Hw; cbn [app].
  - by apply Hk.
  - destruct (traverse_turn s w Hw) as (w1 & cs & Hw1 & Hcs & Heq).
    destruct cs as [|c cs].
    + destruct (IHss stack) with w1 as (fuel & w' & Ht & ?); [set_solver|done..|].
      exists (S fuel), w'. by rewrite Heq.
    + pose proof (Hss s ltac:(set_solver)). pose proof (Hcs c ltac:(set_solver)). lia.
  - by apply Hk.
  - destruct (traverse_turn s w Hw) as (w1 & cs & Hw1 & Hcs & Heq).
    destruct (IHn cs (ss ++ stack)) with w1 as (fuel & w' & Ht & ?); [| |done|].
    + intros c Hc%Hcs. pose proof (Hss s ltac:(set_solver)). lia.
    + intros w2 Hw2. apply IHss; [set_solver|done..].
    + exists (S fuel), w'. by rewrite Heq.
Qed.

Lemma traverse_more fuel : ∀ fuel' stack w w', (fuel ≤ fuel')%nat → chain_ok w →
  traverse_children_mut db fuel stack w = (Ok tt, w') →
  traverse_children_mut db fuel' stack w = (Ok tt, w').
Proof.
  induction fuel as [|fuel IH]; intros fuel' [|s stack] w w' Hle Hw; cbn [traverse_children_mut]; try done.
  1,2: by destruct fuel'.
  intros Ht. change (traverse_children_mut db (S fuel) (s :: stack) w = (Ok tt, w')) in Ht.
  destruct fuel' as [|fuel']; [lia|].
  destruct (traverse_turn s w Hw) as (w1 & cs & Hw1 & _ & Heq). rewrite Heq in *.
  apply IH; [lia|done..].
Qed.

(** ** Chaining the slots of the working set *)

(** New slots and orphans come after their parent. *)
Definition parents_ok (w : Work) : Prop := ∀ s m backup,
  w.(working_set) !! s = Some (m, backup) → s ≠ 0 →
  backup = None ∨ (∃ old, backup = Some old ∧ is_orphan old = true) →
  m.(parent_slot) < s ≤ u64_max.

Lemma parents_ok_step w w' : chain_step db w w' → parents_ok w → parents_ok w'.
Proof.
  intros Hs Hp s m backup Hm. assert (s ∈ dom w.(working_set)) as Hd.
  { rewrite <- (cs_dom _ _ _ Hs). by eapply elem_of_dom_2. }
  apply elem_of_dom in Hd as [[m0 backup0] H0].
  destruct (cs_working _ _ _ Hs _ _ _ H0) as (m' & Hm' & (_ & _ & _ & Hpar)). simplify_eq.
  rewrite Hpar. by apply Hp.
Qed.

Lemma put_orphan_forest w op : chain_ok w →
  (∃ s, op = PutOrphan s) ∨ (∃ s, op = DeleteOrphan s) →
  chain_ok (with_batch (λ b, b ++ [op]) w).
Proof. intros [Hw Hf] Hop. split; [by apply put_orphan_spec|exact Hf]. Qed.

Lemma link_total w s m backup : chain_ok w → w.(working_set) !! s = Some (m, backup) →
  m.(parent_slot) < s ≤ u64_max →
  ∃ w', link_to_parent db s m w = (Ok tt, w') ∧ chain_ok w'.
Proof.
  intros Hw Hs Hpar. unfold link_to_parent.
  destruct (find_cell_spec db Hstore w m.(parent_slot) (proj1 Hw)) as (pm & w0 & Hf & Hs0 & Hcell).
  rewrite (bind_eval _ _ _ _ _ Hf). destruct (Z.eqb_spec m.(parent_slot) s) as [|Hne]; [lia|].
  cbn [chain_new_slot_to_prev_slot]. unfold modifyM.
  set (pm' := with_next _ pm). set (m' := with_connected _ m).
  pose proof (find_cell_forest _ _ _ _ Hw Hf) as [Hw0 Hne0].
  assert (final_meta db w s = Some m) as Hms.
  { apply final_meta_cached. unfold find_slot_meta_in_cached_state. by rewrite Hs. }
  assert (chain_ok (set_cell m.(parent_slot) pm' w0)) as Hw1.
  { eapply set_cell_forest; [done..|]. cbn. intros c [Hc| ->%list_elem_of_singleton]%elem_of_app.
    - apply (proj2 Hw0 _ pm); [by apply final_meta_cached|done].
    - split; [done|]. by rewrite Hne0, Hms. }
  assert (chain_step db w (set_cell m.(parent_slot) pm' w0)) as Hs1.
  { eapply chain_step_trans; [done|]. by eapply set_cell_spec; [|apply Hs0|done|]. }
  assert (chain_ok (set_cell s m' (set_cell m.(parent_slot) pm' w0))) as Hw2.
  { destruct (cs_working _ _ _ Hs1 _ _ _ Hs) as (m2 & Hm2 & (? & ? & ? & ?)).
    eapply set_cell_forest; [done| | |].
    - unfold find_slot_meta_in_cached_state. by rewrite Hm2.
    - by split_and!.
    - intros c Hc. destruct (proj2 Hw s m c Hms Hc) as [? ?]. split; [done|]. eapply set_cell_some; [done|].
      destruct (decide (c = m.(parent_slot))) as [->|]; [|by rewrite Hne0].
      exists pm. by apply final_meta_cached. }
  unfold_monad. destruct (is_orphan pm'); [|by eauto].
  eexists. split; [done|]. apply put_orphan_forest; eauto.
Qed.

Lemma chain_for_slot_total w s : chain_ok w → parents_ok w → s ∈ dom w.(working_set) →
  ∃ fuel0 w', chain_ok w' ∧
    ∀ fuel, (fuel0 ≤ fuel)%nat → handle_chaining_for_slot db fuel s w = (Ok tt, w').
Proof.
  intros Hw Hpar [[m backup] Hs]%elem_of_dom. unfold handle_chaining_for_slot.
  set (orphan := match backup with Some old => is_orphan old | None => false end).
  assert (∃ w1, (if negb (s =? 0) && (bool_decide (backup = None) || orphan)
                 then link_to_parent db s m else mret tt) w = (Ok tt, w1) ∧ chain_ok w1 ∧
                chain_step db w w1) as (w1 & H1 & Hw1 & Hs1).
  { case_cond; [|exists w; split_and!; [done..|by apply chain_step_refl, Hw]].
    destruct (link_total w s m backup Hw Hs) as (w1 & Hl & Hw1).
    - apply andb_true_iff in Heqb as [?%negb_true_iff%Z.eqb_neq Hb].
      apply (Hpar _ _ _ Hs); [done|]. apply orb_true_iff in Hb as [?%bool_decide_eq_true|Ho]; [by left|].
      destruct backup as [old|]; [right; by eauto|by left].
    - exists w1. split_and!; [done..|]. by eapply link_step, Hl; [|apply Hw|]. }
  assert (∃ w2, (if orphan then put (DeleteOrphan s) else mret tt) w1 = (Ok tt, w2) ∧ chain_ok w2 ∧
                chain_step db w w2) as (w2 & H2 & Hw2 & Hs2).
  { case_cond; [|by exists w1]. eexists. split; [done|]. split; [apply put_orphan_forest; eauto|].
    eapply chain_step_trans; [done|]. apply put_orphan_spec; [apply Hw1|eauto]. }
  destruct (cs_working _ _ _ Hs2 _ _ _ Hs) as (m2 & Hm2 & _).
  assert (∃ fuel0 w3, chain_ok w3 ∧ ∀ fuel, (fuel0 ≤ fuel)%nat →
    (if is_newly_completed_slot m2 backup && m2.(is_connected)
     then traverse_children_mut db fuel [s] else mret tt) w2 = (Ok tt, w3)) as (fuel0 & w3 & Hw3 & H3).
  { destruct (is_newly_completed_slot m2 backup && m2.(is_connected)); [|by exists 0%nat, w2].
    destruct (traverse_ends (S (Z.to_nat (u64_max - s))) [s] []) with w2 as (fuel0 & w3 & Ht & Hw3).
    - intros s' ->%list_elem_of_singleton. lia.
    - intros w' Hw'. by exists 0%nat, w'.
    - done.
    - exists fuel0, w3. split; [done|]. intros fuel Hle. by eapply traverse_more. }
  exists fuel0, w3. split; [done|]. intros fuel Hle.
  rewrite (bind_eval getM _ w w w eq_refl), Hs.
  rewrite (bind_eval (liftM (unwrap (Some (m, backup)))) _ w (m, backup) w eq_refl).
  rewrite (bind_eval _ _ _ _ _ H1), (bind_eval _ _ _ _ _ H2).
  rewrite (bind_eval getM _ w2 w2 w2 eq_refl), Hm2.
  rewrite (bind_eval (liftM (unwrap (Some (m2, backup)))) _ w2 (m2, backup) w2 eq_refl). by apply H3.
Qed.

Lemma chain_slots_total ss : ∀ w, chain_ok w → parents_ok w →
  (∀ s, s ∈ ss → s ∈ dom w.(working_set)) →
  ∃ fuel0 w', chain_ok w' ∧
    ∀ fuel, (fuel0 ≤ fuel)%nat → chain_slots db fuel ss w = (Ok tt, w').
Proof.
  induction ss as [|s ss IH]; intros w Hw Hpar Hin; cbn [chain_slots].
  { by exists 0%nat, w. }
  destruct (chain_for_slot_total w s Hw Hpar) as (f1 & w1 & Hw1 & H1); [set_solver|].
  pose proof (chain_for_slot_step _ Hstore _ _ _ _ (proj1 Hw) (H1 f1 (le_n _))) as Hs1.
  destruct (IH w1 Hw1) as (f2 & w2 & Hw2 & H2).
  { by eapply parents_ok_step. }
  { intros s' Hs'. rewrite (cs_dom _ _ _ Hs1). set_solver. }
  exists (f1 `max` f2)%nat, w2. split; [done|]. intros fuel Hle.
  rewrite (bind_eval _ _ _ _ _ (H1 fuel ltac:(lia))). apply H2. lia.
Qed.

(** ** What a batch keeps of the working sets *)

Section Entries.
Context (G : Z → SlotMeta * option SlotMeta → Prop) (Q : Z * Z → ErasureMeta → Prop).
Context (Hprogress : ∀ s m backup c r l, G s (m, backup) → G s (with_progress c r l m, backup)).
Context (Hset : ∀ b e, bytes_ok b → Q (slot b, set_index_for (index b)) e →
  Q (slot b, set_index_for (index b)) (set_data_present (index b) true e)).

Lemma check_insert_entries b w r w' :
  G (slot b) (working_entry db b) → map_Forall G w.(working_set) →
  check_insert_data_blob db b w = (Ok r, w') →
  map_Forall G w'.(working_set) ∧ w'.(erasure_set) = w.(erasure_set).
Proof.
  intros Hb Hw. unfold check_insert_data_blob, modifyM. unfold_monad. cbn.
  assert (G (slot b) (default (working_entry db b) (w.(working_set) !! slot b))) as Hm.
  { destruct (w.(working_set) !! slot b) as [e|] eqn:He; [by apply (Hw _ _ He)|done]. }
  destruct (default _ _) as [m backup]. cbn. case_match.
  { intros [= <- <-]. split; [|done]. by apply map_Forall_insert_2. }
  destruct (insert_data_blob db b m _) as [[m'|e|] w1] eqn:Hi; [|done..].
  intros [= <- <-]. unfold insert_data_blob, put, modifyM in Hi. unfold_monad. cbn in Hi.
  repeat (case_match; try done); simplify_eq; cbn; (split; [|done]);
    apply map_Forall_insert_2; auto; by apply map_Forall_insert_2.
Qed.

Lemma batch_entries bs : ∀ w w',
  Forall bytes_ok bs → (∀ b, b ∈ bs → G (slot b) (working_entry db b)) →
  map_Forall G w.(working_set) → map_Forall Q w.(erasure_set) →
  insert_data_blob_batch db bs w = (Ok tt, w') →
  map_Forall G w'.(working_set) ∧ map_Forall Q w'.(erasure_set).
Proof.
  induction bs as [|b bs IH]; intros w w' Hbs Hb Hg Hq; cbn [insert_data_blob_batch].
  { by intros [= <-]. }
  apply Forall_cons in Hbs as [Hb1 Hbs].
  intros (r & w1 & [Hg1 He1]%check_insert_entries & ([] & w2 & H2 & H)%bind_ok)%bind_ok;
    [|apply Hb; set_solver|done].
  assert (map_Forall G w2.(working_set) ∧ map_Forall Q w2.(erasure_set)) as [Hg2 Hq2].
  { destruct r; [|injection H2 as <-; by rewrite He1].
    unfold modifyM in H2. unfold_monad.
    destruct (w1.(erasure_set) !! (slot b, set_index_for (index b))) as [e|] eqn:He; [|done].
    cbn in H2. injection H2 as <-. cbn. split; [done|].
    apply map_Forall_insert_2; [|by rewrite He1]. apply Hset; [done|]. rewrite He1 in He. by apply (Hq _ _ He). }
  revert H. apply IH; [done|set_solver|done..].
Qed.
End Entries.

(** ** No recovery without coding blobs *)

Lemma count_ones_byte z : 0 ≤ z < 2 ^ 8 → 0 ≤ count_ones z ≤ 8.
Proof.
  intros Hz. unfold count_ones. change (seq 0 64) with (seq 0 8 ++ seq 8 56).
  rewrite fmap_app, Zsum_app.
  assert (∀ l : list nat, Forall (λ i, (8 ≤ i)%nat) l →
    Zsum ((λ i : nat, if Z.testbit z (Z.of_nat i) then 1 else 0) <$> l) = 0) as Hhigh.
  { induction 1 as [|i l Hi Hl IH]; [done|]. rewrite fmap_cons. cbn [Zsum]. rewrite IH.
    destruct (Z.eq_dec z 0) as [->|]; [by rewrite Z.bits_0|].
    rewrite Z.bits_above_log2; [done|lia|].
    eapply Z.lt_le_trans; [apply (Z.log2_lt_pow2 z 8); lia|lia]. }
  rewrite (Hhigh (seq 8 56)) by (apply Forall_forall; intros i [? ?]%elem_of_seq; lia).
  cbn. repeat case_match; lia.
Qed.

Lemma status_data_only {E} k e : data_only k e → status (E:=E) e ≠ Ok CanRecover ∧ status (E:=E) e ≠ Panic.
Proof.
  intros (_ & Hd & Hc). pose proof (count_ones_byte _ Hd) as Hn. unfold status, num_data, num_coding.
  rewrite Hc. change (count_ones 0) with 0. unfold NUM_DATA, NUM_CODING.
  rewrite !u64_sub_exact by (unfold is_u64; lia). rewrite u64_add_exact by lia.
  destruct (Z.ltb_spec 0 (8 - count_ones e.(em_data))), (Z.leb_spec (8 - count_ones e.(em_data) + (8 - 0)) 8),
    (Z.eqb_spec (8 - count_ones e.(em_data)) 0); cbn; try lia; by split.
Qed.

Lemma status_no_error {E} e x : status (E:=E) e ≠ Err x.
Proof. unfold status. by repeat case_match. Qed.

Lemma recover_sets_none reconstruct ks acc w :
  map_Forall data_only w.(erasure_set) → (∀ k, k ∈ ks → k ∈ dom w.(erasure_set)) →
  recover_sets db reconstruct ks acc w = (Ok acc, w).
Proof.
  intros Hd. induction ks as [|k ks IH]; intros Hks; cbn [recover_sets]; [done|].
  rewrite (bind_eval getM _ w w w eq_refl).
  assert (k ∈ dom w.(erasure_set)) as [e He]%elem_of_dom by set_solver.
  rewrite He. rewrite (bind_eval (liftM (unwrap (Some e))) _ w e w eq_refl).
  assert (try_erasure_recover db reconstruct e k.1 w.(prev_inserted) None = Ok None) as Ht.
  { unfold try_erasure_recover. destruct (status_data_only (E:=BlocktreeError) k e (Hd _ _ He)) as [H1 H2].
    destruct (status e) as [[]|x|] eqn:Hst; cbn; try done. by apply status_no_error in Hst. }
  rewrite Ht. rewrite (bind_eval (liftM (Ok None)) _ w None w eq_refl). apply IH. set_solver.
Qed.

Lemma lor_byte a b : 0 ≤ a < 2 ^ 8 → 0 ≤ b < 2 ^ 8 → 0 ≤ Z.lor a b < 2 ^ 8.
Proof.
  intros Ha Hb. assert (0 ≤ Z.lor a b) by (apply Z.lor_nonneg; lia). split; [done|].
  destruct (Z.eq_dec (Z.lor a b) 0) as [->|]; [lia|]. apply Z.log2_lt_pow2; [lia|].
  rewrite Z.log2_lor by lia.
  assert (∀ x, 0 ≤ x < 2 ^ 8 → Z.log2 x < 8) as Hlog.
  { intros x Hx. destruct (Z.eq_dec x 0) as [->|]; [cbn; lia|]. apply Z.log2_lt_pow2; lia. }
  pose proof (Hlog a Ha). pose proof (Hlog b Hb). lia.
Qed.

(** The position of an index in its set *)
Lemma position_in_set e i : is_u64 i → e.(set_index) = set_index_for i →
  data_index_in_set e i = Some (i mod 8).
Proof.
  intros Hi He. unfold data_index_in_set, start_index. rewrite He, Z.eqb_refl. f_equal.
  unfold set_index_for, NUM_DATA, u64_mul, is_u64 in *. rewrite wrap64_small by (unfold is_u64; Z.div_mod_to_equations; lia).
  rewrite u64_sub_exact; unfold is_u64; Z.div_mod_to_equations; lia.
Qed.

Lemma set_data_only b e : bytes_ok b →
  data_only (slot b, set_index_for (index b)) e →
  data_only (slot b, set_index_for (index b)) (set_data_present (index b) true e).
Proof.
  intros Hb (Hi & Hd & Hc). cbn in Hi. unfold set_data_present.
  rewrite position_in_set by (done || by apply index_range). split_and!; cbn; try done.
  all: apply lor_byte; [done|]. all: pose proof (Z.mod_pos_bound (index b) 8 ltac:(lia)).
  all: rewrite Z.shiftl_1_l; split; [lia|apply Z.pow_lt_mono_r; lia].
Qed.

Lemma load_erasure_data_only bs : map_Forall data_only db.(cf_erasure_meta) →
  map_Forall data_only (load_erasure_set db bs) ∧
  ∀ b, b ∈ bs → (slot b, set_index_for (index b)) ∈ dom (load_erasure_set db bs).
Proof.
  intros Hdb. induction bs as [|b bs IH] using rev_ind; [split; [done|set_solver]|].
  unfold load_erasure_set in *. rewrite foldl_app. cbn. destruct IH as [IH1 IH2].
  destruct (foldl _ ∅ bs !! (slot b, set_index_for (index b))) as [e|] eqn:He.
  - split; [done|]. intros b' [Hb'|Hb']%elem_of_app; [by apply IH2|].
    apply list_elem_of_singleton in Hb' as ->. by eapply elem_of_dom_2.
  - split.
    + apply map_Forall_insert_2; [|done].
      destruct (db.(cf_erasure_meta) !! _) as [e|] eqn:Hd; cbn; [by apply (Hdb _ _ Hd)|].
      unfold data_only. cbn. lia.
    + intros b' [Hb'|Hb']%elem_of_app; rewrite dom_insert; [apply IH2 in Hb'; set_solver|].
      apply list_elem_of_singleton in Hb' as ->. set_solver.
Qed.

(** ** Inserting well-formed blobs *)

Definition blob_ok (b : Blob) : Prop :=
  bytes_ok b ∧ is_ok (stored_bytes (E:=BlocktreeError) b) = true ∧ (slot b = 0 ∨ parent b < slot b).

(** What a batch makes of the slot of a blob *)
Definition entry_ok (s : Z) (e : SlotMeta * option SlotMeta) : Prop :=
  e.2 = db.(cf_meta) !! s ∧
  e.1.(next_slots) = match e.2 with Some old => old.(next_slots) | None => [] end ∧
  (s ≠ 0 → e.2 = None ∨ (∃ old, e.2 = Some old ∧ is_orphan old = true) →
   e.1.(parent_slot) < s ≤ u64_max).

Lemma working_entry_shape b : blob_ok b → entry_ok (slot b) (working_entry db b).
Proof.
  intros (Hb & _ & Hpar). pose proof (slot_range b Hb) as Hr. unfold entry_ok, working_entry.
  destruct (db.(cf_meta) !! slot b) as [m|] eqn:Hm; cbn.
  - destruct (is_orphan m) eqn:Ho; cbn; split_and!; try done.
    + intros ? _. unfold is_u64, u64_max in *. lia.
    + intros _ [?|(old & [= <-] & ?)]; [done|congruence].
  - split_and!; [done..|]. intros ? _. unfold is_u64, u64_max in *. lia.
Qed.

Lemma entries_chain_ok w : work_ok db w → w.(chained_slots) = ∅ →
  forest (λ s, db.(cf_meta) !! s) → map_Forall entry_ok w.(working_set) →
  chain_ok w ∧ parents_ok w.
Proof.
  intros Hw Hch Hf He. split; [split; [done|]|].
  - intros s m c. unfold final_meta, find_slot_meta_in_cached_state. rewrite Hch, !lookup_empty.
    enough (∀ m0, db.(cf_meta) !! s = Some m0 → c ∈ m0.(next_slots) →
      s < c ≤ u64_max ∧ is_Some (match (match w.(working_set) !! c with Some (m, _) => Some m | None => None end) with
        Some m => Some m | None => db.(cf_meta) !! c end)) as Hdb.
    { destruct (w.(working_set) !! s) as [[m0 backup]|] eqn:Hs; [|apply Hdb].
      intros [= <-]. destruct (He _ _ Hs) as (Hb & Hn & _). cbn in *. rewrite Hn.
      destruct backup as [old|]; [by apply Hdb|set_solver]. }
    intros m0 Hm0 Hc. destruct (Hf _ _ _ Hm0 Hc). split; [done|]. by destruct (w.(working_set) !! c) as [[]|].
  - intros s m backup Hs. apply (He _ _ Hs).
Qed.

Context (slot_order : gset Z → list Z) (set_order : gset (Z * Z) → list (Z * Z)).
Context (Hslots : ∀ X, slot_order X ≡ₚ elements X) (Hsets : ∀ X, set_order X ≡ₚ elements X).
Context (reconstruct : list (list Z) → list bool → option (list (list Z))).
Context (Hforest : forest (λ s, db.(cf_meta) !! s)).
Context (Hdata : map_Forall data_only db.(cf_erasure_meta)).

(** The first batch of blobs *)
Lemma first_batch bs : Forall blob_ok bs →
  let w0 := with_erasure (λ _, load_erasure_set db bs) work_new in
  ∃ w1, insert_data_blob_batch db bs w0 = (Ok tt, w1) ∧ insert_step db bs w0 w1 ∧
    chain_ok w1 ∧ parents_ok w1 ∧ map_Forall data_only w1.(erasure_set).
Proof.
  intros Hbs w0. rewrite Forall_forall in Hbs.
  destruct (load_erasure_data_only bs Hdata) as [Hload Hkeys].
  assert (work_ok db w0) as Hw0 by (destruct (work_new_ok db); by split).
  assert (Forall bytes_ok bs) as Hbytes by (rewrite Forall_forall; intros b Hb; by apply Hbs).
  pose proof (insert_batch_spec db Hstore bs w0 Hw0 eq_refl) as Hspec.
  destruct (insert_data_blob_batch db bs w0) as [[[]|e|] w1] eqn:H1.
  - destruct Hspec as [Hs1 _]. { intros b Hb. by apply Hbs. }
    destruct (batch_entries entry_ok data_only) with bs w0 w1 as [He Hd]; [| |done| |done..|].
    + intros s m backup c r l. done.
    + apply set_data_only.
    + intros b Hb. by apply working_entry_shape, Hbs.
    + exists w1. destruct (entries_chain_ok w1) as [? ?]; [apply Hs1..|done|done|]. by split_and!.
  - destruct Hspec. intros b Hb. by apply Hbs.
  - destruct Hspec as (b & Hb & [Hp|Hn]).
    + intros b Hb. by apply Hbs.
    + destruct (Hbs b Hb) as (_ & Hok & _). by rewrite Hp in Hok.
    + apply Hkeys, elem_of_dom in Hb as [e He]. cbn in Hn. congruence.
Qed.

Lemma insert_steps_total bs : Forall blob_ok bs →
  ∃ fuel0 w w', chain_ok w ∧ (∀ b, b ∈ bs → stored_or_refused db w b) ∧
    (∀ k bytes, w.(prev_inserted) !! k = Some bytes →
       ∃ b, b ∈ bs ∧ k = (slot b, index b) ∧ stored_bytes (E:=BlocktreeError) b = Ok bytes) ∧
    map_Forall data_only w.(erasure_set) ∧ w'.(write_batch) = final_batch slot_order set_order w ∧
    ∀ fuel, (fuel0 ≤ fuel)%nat →
      insert_steps db slot_order reconstruct set_order fuel bs work_new = (Ok tt, w').
Proof.
  intros Hbs. destruct (first_batch bs Hbs) as (w1 & H1 & Hs1 & Hc1 & Hp1 & Hd1).
  destruct (chain_slots_total (slot_order (dom w1.(working_set))) w1 Hc1 Hp1)
    as (fuel0 & w2 & Hc2 & H2). { intros s. by rewrite Hslots, elem_of_elements. }
  pose proof (chain_slots_step _ Hstore _ _ _ _ (proj1 Hc1) (H2 fuel0 (le_n _))) as Hs2.
  eexists fuel0, w2, _. split_and!; [done| | | | |].
  - intros b Hb. eapply stored_or_refused_le; [done|by eapply chain_step_le|by apply Hs1].
  - intros k bytes. rewrite (cs_prev _ _ _ Hs2). intros [H|?]%(step_from _ _ _ _ Hs1); [|done].
    cbn in H. by rewrite lookup_empty in H.
  - by rewrite (cs_erasure _ _ _ Hs2).
  - instantiate (1 := with_batch (λ _, final_batch slot_order set_order w2) w2). done.
  - intros fuel Hle. unfold insert_steps.
    rewrite (bind_eval _ _ work_new tt (with_erasure (λ _, load_erasure_set db bs) work_new) eq_refl).
    rewrite (bind_eval _ _ _ _ _ H1), (bind_eval getM _ w1 w1 w1 eq_refl).
    rewrite (bind_eval _ _ w1 [] w1).
    2:{ apply recover_sets_none; [done|]. intros k. by rewrite Hsets, elem_of_elements. }
    cbn [insert_data_blob_batch]. rewrite (bind_eval (mret tt) _ w1 tt w1 eq_refl).
    unfold handle_chaining.
    rewrite (bind_eval _ _ w1 tt (with_batch (λ b, b ++ omap (λ s, PutMeta s <$> w2.(chained_slots) !! s)
      (slot_order (dom w2.(chained_slots)))) w2)).
    2:{ rewrite (bind_eval getM _ w1 w1 w1 eq_refl), (bind_eval _ _ _ _ _ (H2 fuel Hle)). done. }
    unfold modifyM. unfold_monad. unfold with_batch, final_batch. cbn. by rewrite <- !app_assoc.
Qed.

End Chain.
(** A ledger without coding blobs *)
Record ledger_ok (db : Database) : Prop := {
  lo_store : store_ok db;
  lo_forest : forest (λ s, db.(cf_meta) !! s);
  lo_data : map_Forall data_only db.(cf_erasure_meta)
}.

Lemma insertion_ends db slot_order set_order reconstruct has_senders bs
    (Hslots : ∀ X, slot_order X ≡ₚ elements X) (Hsets : ∀ X, set_order X ≡ₚ elements X)
    (Hdb : ledger_ok db) (Hbs : Forall blob_ok bs) :
  ∃ fuel0 out,
    (∀ fuel, (fuel0 ≤ fuel)%nat →
       insert_data_blobs db slot_order reconstruct set_order fuel has_senders bs = Ok out) ∧
    ledger_ok out.(new_db) ∧ db.(cf_data) ⊆ out.(new_db).(cf_data) ∧
    (∀ k bytes, out.(new_db).(cf_data) !! k = Some bytes →
       db.(cf_data) !! k = Some bytes ∨
       ∃ b, b ∈ bs ∧ k = (slot b, index b) ∧ stored_bytes (E:=BlocktreeError) b = Ok bytes) ∧
    ∀ b, b ∈ bs →
      is_Some (out.(new_db).(cf_data) !! (slot b, index b)) ∨
      ∃ m, out.(new_db).(cf_meta) !! slot b = Some m ∧
        (m.(last_index) ≤ index b ∨ is_last_in_slot b = true ∧ index b < m.(received)).
Proof.
  destruct Hdb as [Hst Hf Hd].
  destruct (insert_steps_total db Hst slot_order set_order Hslots Hsets reconstruct Hf Hd bs Hbs)
    as (fuel0 & w & w' & [Hw Hfw] & Hdone & Hfrom & Hdw & Hbatch & Hrun).
  destruct (final_store db slot_order set_order w Hst Hslots Hw) as (Hst' & Hsub & Hpost).
  destruct (final_batch_spec db Hst slot_order set_order Hslots w Hw) as (Hd' & Hm' & He').
  eexists fuel0, _. split; [|split; [|split; [|split]]].
  - intros fuel Hle. unfold insert_data_blobs. rewrite (Hrun fuel Hle). reflexivity.
  - cbn [new_db]. rewrite Hbatch. split; [done| |].
    + intros s m c. rewrite !Hm'. apply Hfw.
    + intros k e [?|?]%He'; [by apply Hdw|by apply Hd].
  - cbn [new_db]. by rewrite Hbatch.
  - cbn [new_db]. rewrite Hbatch, Hd'. intros k bytes [?|[_ ?]]%lookup_union_Some_raw; auto.
  - cbn [new_db]. rewrite Hbatch. auto.
Qed.


(** ** A slot that is its own parent *)

(** The first blob of a slot that names the slot itself as its parent stops the
    insertion with a panic: the metadata is borrowed twice. *)
Theorem self_parent_panics db slot_order set_order reconstruct fuel has_senders b
    (Hslots : ∀ X, slot_order X ≡ₚ elements X) (Hsets : ∀ X, set_order X ≡ₚ elements X)
    (Hdb : ledger_ok db) (Hnew : db.(cf_meta) !! slot b = None)
    (Hbytes : bytes_ok b) (Hstored : is_ok (stored_bytes (E:=BlocktreeError) b) = true)
    (Hslot : slot b ≠ 0) (Hself : parent b = slot b) :
  insert_data_blobs db slot_order reconstruct set_order fuel has_senders [b] = Panic.
Proof.
  destruct Hdb as [Hst Hf Hd]. unfold insert_data_blobs, insert_steps.
  set (w0 := with_erasure (λ _, load_erasure_set db [b]) work_new).
  rewrite (bind_eval _ _ work_new tt w0 eq_refl).
  destruct (load_erasure_data_only db Hst [b] Hd) as [Hload Hkeys].
  assert (work_ok db w0) as Hw0 by (destruct (work_new_ok db); by split).
  pose proof (insert_batch_spec db Hst [b] w0 Hw0 eq_refl) as Hspec.
  assert (∀ b0, b0 ∈ [b] → bytes_ok b0) as Hix by (by intros b0 ->%list_elem_of_singleton).
  specialize (Hspec Hix).
  destruct (insert_data_blob_batch db [b] w0) as [[[]|e|] w1] eqn:H1; [|done|].
  2:{ destruct Hspec as (b0 & ->%list_elem_of_singleton & [Hp|Hn]); [by rewrite Hp in Hstored|].
      assert (b ∈ [b]) as [e He]%Hkeys%elem_of_dom by set_solver. cbn in Hn. cbn in He. congruence. }
  destruct Hspec as [Hs1 _].
  destruct (batch_entries db Hst (λ s e, s = slot b ∧ e.2 = None ∧ e.1.(parent_slot) = s) data_only)
    with [b] w0 w1 as [He Hd1]; [|by apply set_data_only|by constructor| |done..|].
  { by intros s m backup c r l. }
  { intros b0 ->%list_elem_of_singleton. unfold working_entry. by rewrite Hnew. }
  rewrite (bind_eval _ _ _ _ _ H1), (bind_eval getM _ w1 w1 w1 eq_refl).
  rewrite (bind_eval _ _ w1 [] w1).
  2:{ apply recover_sets_none; [done..|]. intros k. by rewrite Hsets, elem_of_elements. }
  cbn [insert_data_blob_batch]. rewrite (bind_eval (mret tt) _ w1 tt w1 eq_refl).
  assert (∃ m, w1.(working_set) !! slot b = Some (m, None) ∧ m.(parent_slot) = slot b) as (m & Hm & Hp).
  { pose proof (wo_slots _ _ (step_ok _ _ _ _ Hs1) (slot b)) as Hws.
    destruct (w1.(working_set) !! slot b) as [[m bk]|] eqn:Hm.
    - destruct (He _ _ Hm) as (_ & Hbk & Hpar). cbn in *. subst. by exists m.
    - exfalso. destruct (step_done _ _ _ _ Hs1 b ltac:(set_solver)) as [Hb|(m & bk & ? & _)]; [|congruence].
      specialize (Hst (slot b)). rewrite Hnew in Hst. destruct Hb as [bytes Hb]. unfold find_blob in Hb.
      rewrite Hws, Hst in Hb. done. }
  assert (slot_order (dom w1.(working_set)) = [slot b]) as Hord.
  { assert (dom w1.(working_set) = ({[slot b]} : gset Z)) as ->.
    { apply set_eq. intros s. rewrite elem_of_dom, elem_of_singleton. split; [|intros ->; by eexists].
      intros [e He1]. by apply (He _ _ He1). }
    apply Permutation_singleton_r. rewrite Hslots. by rewrite elements_singleton. }
  assert (handle_chaining db slot_order fuel w1 = (Panic, w1)) as Hpanic.
  { unfold handle_chaining. rewrite (bind_eval getM _ w1 w1 w1 eq_refl), Hord. cbn [chain_slots].
    unfold handle_chaining_for_slot, link_to_parent, find_slot_meta_else_create. unfold_monad. rewrite Hm. cbn.
    destruct (Z.eqb_spec (slot b) 0); [done|]. cbn. rewrite Hp.
    unfold find_slot_meta_in_cached_state. rewrite Hm, Z.eqb_refl. done. }
  unfold_monad. by rewrite Hpanic.
Qed.

(** ** An example *)

Definition first_blob : Blob :=
  set_is_last_in_slot (set_parent 0 (set_slot 1 (blob_header.set_index 0 (set_size 3 Blob_default)))).
Definition selfish_blob : Blob := set_parent 1 first_blob.

Definition empty_db : Database := mkDatabase ∅ ∅ ∅ ∅ ∅ ∅.

Lemma empty_ledger_ok : ledger_ok empty_db.
Proof.
  split.
  - intros s. cbn. rewrite lookup_empty. intros i. apply lookup_empty.
  - intros s m c. cbn. by rewrite lookup_empty.
  - intros k e. cbn. by rewrite lookup_empty.
Qed.

Lemma write_le_bytes r n b : bytes_ok b → bytes_ok (write_le r n b).
Proof.
  unfold bytes_ok, write_le. cbn [blob_bytes]. intros Hb.
  rewrite !Forall_app. split_and!; [by apply Forall_take|apply le_enc_bytes|by apply Forall_drop].
Qed.

Lemma first_blob_bytes : bytes_ok first_blob.
Proof. do 4 apply write_le_bytes. apply set_size_bytes, default_bytes. Qed.

Lemma selfish_blob_bytes : bytes_ok selfish_blob.
Proof. apply write_le_bytes, first_blob_bytes. Qed.

Lemma elements_slots (X : gset Z) : elements X ≡ₚ elements X.
Proof. done. Qed.
Lemma elements_sets (X : gset (Z * Z)) : elements X ≡ₚ elements X.
Proof. done. Qed.


Lemma self_parent_panics_witness :
  insert_data_blobs empty_db elements (λ _ _, None) elements 10 true [selfish_blob] = Panic.
Proof.
  apply (self_parent_panics empty_db elements elements (λ _ _, None) 10 true selfish_blob).
  - apply elements_slots.
  - apply elements_sets.
  - apply empty_ledger_ok.
  - apply lookup_empty.
  - apply selfish_blob_bytes.
  - vm_compute. reflexivity.
  - vm_compute. discriminate.
  - vm_compute. reflexivity.
Defined.

End chain_proofs.
