(* ===== verification/BlockStoreReads.v ===== *)
(** * The block store: reading

    Missing indexes, roots, and the entries of a slot. *)

From stdpp Require Import sorting.
From S2P Require Import Prelude Interface Codec Message Entry BlockStore BlockStoreProofs BlockStoreChain.

Import transaction blob blob_header meta entry blocktree store_proofs chain_proofs.

(** ** The header of a blob *)

Module header_proofs.
Import entry_proofs.

Lemma length_write_le (r : range) n b : (r.1 + r.2 ≤ length b.(blob_bytes))%nat →
  length (write_le r n b).(blob_bytes) = length b.(blob_bytes).
Proof.
  intros Hr. unfold write_le. cbn [blob_bytes].
  rewrite !length_app, length_take, length_le_enc, length_drop. lia.
Qed.

Lemma read_write_same (r : range) n b : (r.1 + r.2 ≤ length b.(blob_bytes))%nat →
  0 ≤ n < 256 ^ Z.of_nat r.2 → read_le r (write_le r n b) = n.
Proof.
  intros Hr Hn. unfold read_le, write_le. cbn [blob_bytes].
  rewrite drop_app_length' by (rewrite length_take; lia).
  rewrite take_app_length' by (by rewrite length_le_enc). by apply le_val_enc.
Qed.

Lemma read_write_other (r r' : range) n b : (r.1 + r.2 ≤ length b.(blob_bytes))%nat →
  (r'.1 + r'.2 ≤ r.1 ∨ r.1 + r.2 ≤ r'.1)%nat → read_le r' (write_le r n b) = read_le r' b.
Proof.
  intros Hr Hd. unfold read_le, write_le. cbn [blob_bytes]. f_equal. destruct Hd as [Hd|Hd].
  - rewrite drop_app_le by (rewrite length_take; lia).
    rewrite take_app_le by (rewrite length_drop, length_take; lia).
    rewrite skipn_firstn_comm, take_take, Nat.min_l by lia. done.
  - rewrite app_assoc, drop_app_ge by (rewrite length_app, length_take, length_le_enc; lia).
    rewrite drop_drop. do 2 f_equal. rewrite length_app, length_take, length_le_enc. lia.
Qed.

(** Past the end of the range nothing changes. *)
Lemma drop_write_le (r : range) n b k : (r.1 + r.2 ≤ length b.(blob_bytes))%nat →
  (r.1 + r.2 ≤ k)%nat → drop k (write_le r n b).(blob_bytes) = drop k b.(blob_bytes).
Proof.
  intros Hr Hk. unfold write_le. cbn [blob_bytes].
  rewrite app_assoc, drop_app_ge by (rewrite length_app, length_take, length_le_enc; lia).
  rewrite drop_drop. f_equal. rewrite length_app, length_take, length_le_enc. lia.
Qed.

Lemma full_length b (r : range) : Z.of_nat (length b.(blob_bytes)) = BLOB_SIZE →
  (r.1 + r.2 ≤ 112)%nat → (r.1 + r.2 ≤ length b.(blob_bytes))%nat.
Proof. change BLOB_SIZE with 65408. lia. Qed.

Section Carry.
Context `{!Ranged Transaction, !Bincode Transaction}.
Context `{!Bincode (list Entry), !BincodeLaws (list Entry)}.

(** Writing in the header before the size keeps what a blob carries. *)
Lemma carries_write (r : range) n b es : (r.1 + r.2 ≤ 93)%nat →
  carries b es → carries (write_le r n b) es.
Proof.
  intros Hr (Hl & Hs & Hd). pose proof (full_length b r Hl ltac:(lia)) as Hlen.
  assert (blob_size (write_le r n b) = blob_size b) as Hsize.
  { unfold blob_size. assert (data_size (write_le r n b) = data_size b) as ->; [|done].
    unfold data_size. change SIZE_RANGE.1 with 93%nat. by rewrite drop_write_le. }
  split_and!; [by rewrite length_write_le|by rewrite Hsize|].
  rewrite Hsize. unfold blob_data. rewrite drop_write_le; [done..|].
  change (Z.to_nat BLOB_HEADER_SIZE) with 112%nat. lia.
Qed.

(** What is stored of a blob gives back what it carries. *)
Lemma carries_stored {E} b es : carries b es → ∃ bytes, stored_bytes (E:=E) b = Ok bytes ∧
  (112 ≤ length bytes)%nat ∧ drop 112 bytes = serialize es.
Proof.
  intros (Hl & Hs & Hd). unfold stored_bytes. change BLOB_HEADER_SIZE with 112.
  unfold blob_data in Hd. change (Z.to_nat BLOB_HEADER_SIZE) with 112%nat in Hd.
  pose proof (f_equal length Hd) as Hlen. rewrite length_take, length_drop in Hlen.
  change BLOB_SIZE with 65408 in Hl. rewrite Hs in *. unfold serialized_size in *.
  rewrite u64_add_exact by lia.
  destruct (Z.ltb_spec (Z.of_nat (length b.(blob_bytes))) (112 + Z.of_nat (length (serialize es)))); [lia|].
  eexists. split; [done|]. rewrite length_take. split; [lia|].
  rewrite skipn_firstn_comm. rewrite <- Hd at 2. f_equal. lia.
Qed.

Lemma from_serializable_header {E} (es : list Entry) :
  serialized_size es ≤ BLOB_DATA_SIZE → Forall is_u8 (serialize es) →
  ∃ b, from_serializable (E:=E) es = Ok b ∧ carries b es ∧ bytes_ok b ∧ flags b = 0.
Proof.
  intros Hsize Hbytes. destruct (from_serializable_carries (E:=E) es Hsize) as (b & Hb & Hc).
  exists b. split_and!; [done..| |].
  all: unfold from_serializable in Hb; rewrite serialize_into_fits in Hb.
  2,4: unfold serialized_size in Hsize; change BLOB_DATA_SIZE with 65184 in Hsize;
    unfold blob_data, Blob_default; cbn [blob_bytes]; rewrite length_drop, length_replicate;
    change BLOB_SIZE with 65408; change BLOB_HEADER_SIZE with 112; lia.
  all: injection Hb as <-.
  - apply set_size_bytes. unfold bytes_ok, with_blob_data. cbn [blob_bytes].
    rewrite !Forall_app. split_and!; [apply Forall_take, default_bytes|done|].
    apply Forall_drop. unfold blob_data. apply Forall_drop, default_bytes.
  - unfold set_size. set (d := with_blob_data _ _).
    assert (flags d = 0) as Hd.
    { unfold flags, read_le, d, with_blob_data, Blob_default. cbn [blob_bytes].
      change FLAGS_RANGE with (89, 4)%nat. cbn [fst snd]. change (Z.to_nat BLOB_HEADER_SIZE) with 112%nat.
      rewrite take_replicate, Nat.min_l by (change BLOB_SIZE with 65408; lia). reflexivity. }
    rewrite <- Hd. unfold flags.
    change (read_le FLAGS_RANGE (write_le SIZE_RANGE (u64_add (serialized_size es) BLOB_HEADER_SIZE)
      (mkBlob d.(blob_bytes) (u64_add (serialized_size es) BLOB_HEADER_SIZE))) = read_le FLAGS_RANGE d).
    rewrite read_write_other; [done| |cbn; lia]. cbn [blob_bytes].
    unfold d, with_blob_data, Blob_default. cbn [blob_bytes].
    rewrite length_app, take_replicate, length_replicate. change BLOB_SIZE with 65408.
    change (Z.to_nat BLOB_HEADER_SIZE) with 112%nat. change SIZE_RANGE with (93, 8)%nat. cbn [fst snd]. lia.
Qed.
End Carry.
End header_proofs.

(** ** Writing entries and reading them back *)

Module ledger_proofs.
Import entry_proofs header_proofs.

(** How entries are spread over slots: a slot ends with its last tick. *)
Definition after (rem : Z) (e : Entry) : Z := if is_tick e then rem - 1 else rem.

Definition cons_first {A} (x : A) (ls : list (list A)) : list (list A) :=
  match ls with [] => [[x]] | l :: ls' => (x :: l) :: ls' end.

Fixpoint slot_groups (ticks rem : Z) (es : list Entry) : list (list Entry) :=
  match es with
  | [] => [[]]
  | e :: es' =>
      if rem =? 0 then [] :: cons_first e (slot_groups ticks (after ticks e) es')
      else cons_first e (slot_groups ticks (after rem e) es')
  end.

Lemma slot_groups_nonempty ticks rem es : slot_groups ticks rem es ≠ [].
Proof. destruct es as [|e es]; [done|]. cbn. case_match; [done|]. by destruct (slot_groups _ _ es). Qed.

Lemma mjoin_cons_first {A} (x : A) ls : mjoin (cons_first x ls) = x :: mjoin ls.
Proof. by destruct ls. Qed.

Lemma slot_groups_join ticks es : ∀ rem, mjoin (slot_groups ticks rem es) = es.
Proof.
  induction es as [|e es IH]; intros rem; [done|]. cbn [slot_groups].
  case_match; rewrite ?mjoin_cons, mjoin_cons_first, IH; done.
Qed.

(** The place of every entry: its slot, its index, whether it ends the slot *)
Fixpoint place (ticks s i rem : Z) (es : list Entry) : list (Z * Z * bool * Entry) :=
  match es with
  | [] => []
  | e :: es' =>
      let '(s, i, rem) := if rem =? 0 then (s + 1, 0, ticks) else (s, i, rem) in
      (s, i, is_tick e && (rem =? 1), e) :: place ticks s (i + 1) (after rem e) es'
  end.

Lemma cons_first_lookup {A} (x : A) ls k g : ls ≠ [] →
  cons_first x ls !! k = Some g ↔
  ∃ g0, ls !! k = Some g0 ∧ g = if decide (k = 0%nat) then x :: g0 else g0.
Proof.
  destruct ls as [|l ls]; [done|]. intros _. destruct k as [|k]; cbn; naive_solver.
Qed.

(** An index in the group [k] of a run that starts at index [i] *)
Definition at_index (i : Z) (k : nat) (j : nat) : Z := (if decide (k = 0%nat) then i else 0) + Z.of_nat j.

Definition placed (s i : Z) (gs : list (list Entry)) (x : Z * Z * bool * Entry) : Prop :=
  ∃ k g j, gs !! k = Some g ∧ g !! j = Some x.2 ∧ x.1.1.1 = s + Z.of_nat k ∧
    x.1.1.2 = at_index i k j ∧ (x.1.2 = true → S j = length g).

(** Shifting by the entry that is first *)
Lemma placed_cons s i e gs x : gs ≠ [] → placed s (i + 1) gs x → placed s i (cons_first e gs) x.
Proof.
  intros Hne (k & g & j & Hg & Hj & Hs & Hi & Hl).
  exists k, (if decide (k = 0%nat) then e :: g else g), (if decide (k = 0%nat) then S j else j).
  split; [apply cons_first_lookup; eauto|]. unfold at_index in *. case_decide; cbn; split_and!; auto; lia.
Qed.

Lemma placed_head s i e gs l : gs ≠ [] → (l = true → head gs = Some []) →
  placed s i (cons_first e gs) (s, i, l, e).
Proof.
  intros Hne Hl. destruct gs as [|g gs]; [done|]. exists 0%nat, (e :: g), 0%nat. cbn.
  unfold at_index. rewrite decide_True by done. split_and!; try done; try lia.
  intros H%Hl. cbn in H. by simplify_eq.
Qed.

Lemma placed_next s i gs x : placed (s + 1) 0 gs x → placed s i ([] :: gs) x.
Proof.
  intros (k & g & j & Hg & Hj & Hs & Hi & Hl). exists (S k), g, j. cbn.
  unfold at_index in *. rewrite decide_False by done.
  assert ((if decide (k = 0%nat) then 0 else 0) = 0) as H0 by by case_decide.
  rewrite H0 in Hi. split_and!; try done; lia.
Qed.

(** A slot that is complete has no further entry. *)
Lemma groups_full ticks es : head (slot_groups ticks 0 es) = Some [].
Proof. by destruct es. Qed.

Lemma place_placed ticks es : 0 < ticks → ∀ s i rem, 0 ≤ rem →
  ∀ x, x ∈ place ticks s i rem es → placed s i (slot_groups ticks rem es) x.
Proof.
  intros Ht. induction es as [|e es IH]; intros s i rem Hrem x; cbn [place slot_groups]; [set_solver|].
  assert (∀ r s' i', 0 < r → x ∈ (s', i', is_tick e && (r =? 1), e) :: place ticks s' (i' + 1) (after r e) es →
    placed s' i' (cons_first e (slot_groups ticks (after r e) es)) x) as Hstep.
  { intros r s' i' Hr [->|Hx]%elem_of_cons.
    - apply placed_head; [apply slot_groups_nonempty|].
      intros [Htk Hr1%Z.eqb_eq]%andb_true_iff. subst r. unfold after. rewrite Htk. apply groups_full.
    - apply placed_cons; [apply slot_groups_nonempty|]. apply IH; [|done].
      unfold after. case_match; lia. }
  destruct (Z.eqb_spec rem 0) as [->|]; intros Hx.
  - apply placed_next. by apply Hstep.
  - apply Hstep; [lia|done].
Qed.

(** Every entry has a place. *)
Lemma groups_place ticks es : ∀ s i rem k g j e,
  slot_groups ticks rem es !! k = Some g → g !! j = Some e →
  ∃ l, (s + Z.of_nat k, at_index i k j, l, e) ∈ place ticks s i rem es.
Proof.
  induction es as [|e0 es IH]; intros s i rem k g j e; cbn [place slot_groups].
  { destruct k; [|done]. intros [= <-]. done. }
  assert (∀ r s' i' k, cons_first e0 (slot_groups ticks (after r e0) es) !! k = Some g → g !! j = Some e →
    ∃ l, (s' + Z.of_nat k, at_index i' k j, l, e) ∈
      (s', i', is_tick e0 && (r =? 1), e0) :: place ticks s' (i' + 1) (after r e0) es) as Hstep.
  { intros r s' i' k' (g0 & Hg0 & ->)%cons_first_lookup Hj; [|apply slot_groups_nonempty].
    case_decide as Hk; [subst k'|].
    - destruct j as [|j]; cbn in Hj.
      + simplify_eq. eexists. apply elem_of_cons. left. unfold at_index. rewrite decide_True by done.
        repeat f_equal; lia.
      + destruct (IH s' (i' + 1) (after r e0) 0%nat g0 j e Hg0 Hj) as [l Hl].
        exists l. apply elem_of_cons. right. unfold at_index in *. rewrite decide_True in * by done.
        by replace (i' + Z.of_nat (S j)) with (i' + 1 + Z.of_nat j) by lia.
    - destruct (IH s' (i' + 1) (after r e0) k' g0 j e Hg0 Hj) as [l Hl].
      exists l. apply elem_of_cons. right. unfold at_index in *. by rewrite decide_False in * by done. }
  destruct (Z.eqb_spec rem 0) as [->|].
  - destruct k as [|k]; cbn [lookup]; [intros [= <-]; done|]. intros Hg Hj.
    destruct (Hstep ticks (s + 1) 0 k Hg Hj) as [l Hl]. exists l.
    replace (s + Z.of_nat (S k)) with (s + 1 + Z.of_nat k) by lia.
    assert (at_index i (S k) j = at_index 0 k j) as ->; [|done].
    unfold at_index. rewrite (decide_False (P := S k = 0%nat)) by done. by case_decide.
  - apply Hstep.
Qed.

Section Ledger.
Context `{!Ranged Transaction, !Bincode Transaction}.
Context `{!Bincode (list Entry), !BincodeLaws (list Entry)}.
(** An entry that fits a blob of its own; bincode's encoding of it is bytes. *)
Definition entry_fits (e : Entry) : Prop :=
  in_range [e] ∧ serialized_size [e] ≤ BLOB_DATA_SIZE ∧ Forall is_u8 (serialize [e]).

(** The blob of an entry at its place *)
Definition made (b : Blob) (x : Z * Z * bool * Entry) : Prop :=
  let '(s, i, l, e) := x in
  slot b = s ∧ index b = i ∧ is_last_in_slot b = l ∧ blob_ok b ∧ carries b [e].

Lemma made_blob b0 s i p (l : bool) e : carries b0 [e] → bytes_ok b0 → flags b0 = 0 →
  is_u64 s → is_u64 i → is_u64 p → s = 0 ∨ p < s →
  made (set_parent p (set_slot s (blob_header.set_index i (if l then set_is_last_in_slot b0 else b0))))
    (s, i, l, e).
Proof.
  intros Hc Hb Hf Hs Hi Hp Hps.
  set (b1 := if l then set_is_last_in_slot b0 else b0).
  assert (carries b1 [e] ∧ bytes_ok b1 ∧ is_last_in_slot b1 = l) as (Hc1 & Hb1 & Hl1).
  { unfold b1. destruct l.
    - unfold set_is_last_in_slot, set_flags. rewrite Hf.
      split_and!; [by apply carries_write; [cbn; lia|]|by apply write_le_bytes|].
      unfold is_last_in_slot, flags. rewrite read_write_same; [done| |by vm_compute].
      apply full_length; [apply Hc|cbn; lia].
    - split_and!; [done..|]. unfold is_last_in_slot. by rewrite Hf. }
  clearbody b1. unfold set_parent, set_slot, blob_header.set_index.
  set (b2 := write_le INDEX_RANGE i b1). assert (carries b2 [e]) as Hc2 by (by apply carries_write; [cbn; lia|]).
  set (b3 := write_le SLOT_RANGE s b2). assert (carries b3 [e]) as Hc3 by (by apply carries_write; [cbn; lia|]).
  set (b4 := write_le PARENT_RANGE p b3). assert (carries b4 [e]) as Hc4 by (by apply carries_write; [cbn; lia|]).
  assert (∀ b (r : range), carries b [e] → (r.1 + r.2 ≤ 112)%nat → (r.1 + r.2 ≤ length b.(blob_bytes))%nat) as Hlen.
  { intros b r Hcb. by apply full_length, Hcb. }
  assert (slot b4 = s) as Hs4.
  { unfold slot, b4. rewrite read_write_other by (apply Hlen; [done|cbn; lia] || (cbn; lia)).
    unfold b3. apply read_write_same; [apply Hlen; [done|cbn; lia]|exact Hs]. }
  assert (index b4 = i) as Hi4.
  { unfold index, b4, b3. rewrite !read_write_other by (apply Hlen; [done|cbn; lia] || (cbn; lia)).
    unfold b2. apply read_write_same; [apply Hlen; [done|cbn; lia]|exact Hi]. }
  assert (parent b4 = p) as Hp4.
  { unfold parent, b4. apply read_write_same; [apply Hlen; [done|cbn; lia]|exact Hp]. }
  assert (flags b4 = flags b1) as Hf4.
  { unfold flags, b4, b3, b2. by rewrite !read_write_other by (apply Hlen; [done|cbn; lia] || (cbn; lia)). }
  destruct (carries_stored (E:=BlocktreeError) b4 [e] Hc4) as (bytes & Hst & _).
  split_and!; [done..| | |done].
  - unfold is_last_in_slot in *. by rewrite Hf4.
  - split; [by repeat apply write_le_bytes|]. rewrite Hst, Hs4, Hp4. by split.
Qed.

Lemma entry_blobs_spec ticks es : 0 < ticks ≤ u64_max →
  Forall entry_fits es → ∀ s i rem,
  0 ≤ s → s + Z.of_nat (length es) ≤ u64_max → 0 ≤ i → i + Z.of_nat (length es) ≤ u64_max →
  Z.of_nat (length es) ≤ u64_max → 0 ≤ rem ≤ u64_max →
  ∃ bs, entry_blobs ticks s (if s =? 0 then 0 else s - 1) i rem es = Ok bs ∧
    Forall2 made bs (place ticks s i rem es).
Proof.
  intros Ht. induction 1 as [|e es (_ & He & Hbytes) Hes IH]; intros s i rem Hs Hs' Hi Hi' Hn Hrem.
  { exists []. split; [done|constructor]. }
  cbn [length] in *. cbn [entry_blobs place].
  destruct (from_serializable_header (E:=BlocktreeError) [e] He Hbytes) as (b0 & Hb0 & Hc0 & Hok0 & Hf0).
  assert (∀ s i rem, 0 ≤ s → s + Z.of_nat (length es) ≤ u64_max → 0 ≤ i →
    i + 1 + Z.of_nat (length es) ≤ u64_max → 0 < rem ≤ u64_max →
    ∃ bs, (b ← from_serializable [e];
      (let '(b, remaining) :=
         if is_tick e then
           let remaining := u64_sub rem 1 in
           (if remaining =? 0 then set_is_last_in_slot b else b, remaining)
         else (b, rem) in
       let b := set_parent (if s =? 0 then 0 else s - 1) (set_slot s (blob_header.set_index i b)) in
       blobs ← entry_blobs ticks s (if s =? 0 then 0 else s - 1) (u64_add i 1) remaining es;
       Ok (b :: blobs))) = Ok bs ∧
     Forall2 made bs ((s, i, is_tick e && (rem =? 1), e) :: place ticks s (i + 1) (after rem e) es))
    as Hstep.
  { clear s i rem Hs Hs' Hi Hi' Hrem. intros s i rem Hs Hs' Hi Hi' Hrem. rewrite Hb0. cbn [mbind res_bind].
    rewrite (u64_sub_exact rem 1), (u64_add_exact i 1) by (unfold is_u64, u64_max in *; lia).
    destruct (IH s (i + 1) (after rem e)) as (bs & Hbs & Hall); [lia..| |].
    { unfold after. case_match; lia. }
    pose proof (made_blob b0 s i (if s =? 0 then 0 else s - 1) (is_tick e && (rem =? 1)) e Hc0 Hok0 Hf0) as Hm.
    exists (set_parent (if s =? 0 then 0 else s - 1) (set_slot s (blob_header.set_index i
       (if is_tick e && (rem =? 1) then set_is_last_in_slot b0 else b0))) :: bs). split.
    - unfold after in Hbs. destruct (is_tick e); cbn [andb] in *; rewrite Hbs; [|done].
      cbn [mbind res_bind]. do 6 f_equal. destruct (Z.eqb_spec (rem - 1) 0), (Z.eqb_spec rem 1); (done || lia).
    - constructor; [|done]. apply Hm; unfold is_u64, u64_max in *; destruct (Z.eqb_spec s 0); lia. }
  destruct (Z.eqb_spec rem 0) as [->|].
  - rewrite (u64_add_exact s 1) by (unfold u64_max in *; lia).
    rewrite (u64_sub_exact (s + 1) 1) by (unfold is_u64, u64_max in *; lia).
    destruct (Hstep (s + 1) 0 ticks) as (bs & Hbs & Hall); [unfold u64_max in *; lia..|].
    exists bs. split; [|done]. rewrite <- Hbs. destruct (Z.eqb_spec (s + 1) 0); [lia|]. done.
  - apply Hstep; unfold u64_max in *; lia.
Qed.

Lemma group_length ticks rem es k g :
  slot_groups ticks rem es !! k = Some g → (length g ≤ length es)%nat.
Proof.
  rewrite <- (slot_groups_join ticks es rem) at 2. generalize (slot_groups ticks rem es). intros ls.
  revert k. induction ls as [|l ls IH]; intros k; [done|]. rewrite mjoin_cons, length_app.
  destruct k as [|k]; cbn; [intros [= ->]; lia|]. intros ?%IH. lia.
Qed.

Definition holds_entry (bytes : list Z) (e : Entry) : Prop :=
  (112 ≤ length bytes)%nat ∧ drop 112 bytes = serialize [e].

Lemma deserialize_blobs_spec run g : Forall2 holds_entry run g →
  Forall (λ e, in_range [e]) g → deserialize_blobs run = Ok g.
Proof.
  induction 1 as [|bytes e run g [Hl Hd] Hall IH]; intros Hr; [done|].
  apply Forall_cons in Hr as [He Hr]. cbn [deserialize_blobs]. change BLOB_HEADER_SIZE with 112.
  destruct (Z.ltb_spec (Z.of_nat (length bytes)) 112); [lia|]. change (Z.to_nat 112) with 112%nat.
  rewrite Hd, <- (app_nil_r (serialize [e])), deserialize_serialize by done.
  cbn. by rewrite (IH Hr).
Qed.

(** Reading a slot that has exactly the blobs of [g] *)
Lemma read_group db s g : Forall (λ e, in_range [e]) g → Z.of_nat (length g) ≤ u64_max →
  (∀ j e, g !! j = Some e → ∃ bytes, db.(cf_data) !! (s, Z.of_nat j) = Some bytes ∧ holds_entry bytes e) →
  (∀ i, is_Some (db.(cf_data) !! (s, i)) → 0 ≤ i < Z.of_nat (length g)) →
  get_slot_entries db s 0 None = Ok g.
Proof.
  intros Hr Hlen Hat Hbound.
  assert (∀ i, find_blob db ∅ (s, i) = db.(cf_data) !! (s, i)) as Hfind.
  { intros i. unfold find_blob. by rewrite lookup_empty. }
  destruct (consecutive_blobs db ∅ s 0) as (run & Hrun & Hfound & Hend).
  { intros i. unfold has_blob. rewrite Hfind. intros Hi%Hbound. lia. }
  { unfold u64_max. lia. }
  assert (length run = length g) as Hl.
  { destruct (Nat.lt_trichotomy (length run) (length g)) as [Hlt|[?|Hlt]]; [|done|].
    - apply lookup_lt_is_Some in Hlt as [e He]. destruct (Hat _ _ He) as (bytes & Hb & _).
      destruct Hend. unfold has_blob. rewrite Hfind. by eexists.
    - assert (is_Some (run !! length g)) as Hs by by apply lookup_lt_is_Some.
      rewrite <- (Nat2Z.id (length g)), <- (Z.sub_0_r (Z.of_nat (length g))) in Hs.
      rewrite <- Hfound, Hfind in Hs by lia. apply Hbound in Hs. lia. }
  unfold get_slot_entries, get_slot_entries_with_blob_count. rewrite Hrun. cbn [mbind res_bind].
  rewrite (deserialize_blobs_spec run g); [done| |done].
  apply Forall2_same_length_lookup. split; [done|]. intros j bytes e Hb He.
  destruct (Hat _ _ He) as (bytes' & Hb' & Hh). specialize (Hfound (Z.of_nat j)).
  rewrite Hfind, Z.sub_0_r, Nat2Z.id, Hb in Hfound. apply lookup_lt_Some in Hb.
  rewrite Hb' in Hfound. specialize (Hfound ltac:(lia)). by simplify_eq.
Qed.

(** The blobs of the groups, inserted in new slots, are all there. *)
Lemma groups_stored db start ticks rem es bs :
  0 < ticks → 0 ≤ rem → Z.of_nat (length es) ≤ u64_max →
  store_ok db → Forall2 made bs (place ticks start 0 rem es) →
  (∀ s i bytes, start ≤ s → db.(cf_data) !! (s, i) = Some bytes →
     ∃ b, b ∈ bs ∧ (s, i) = (slot b, index b) ∧ stored_bytes (E:=BlocktreeError) b = Ok bytes) →
  (∀ b, b ∈ bs → is_Some (db.(cf_data) !! (slot b, index b)) ∨
     ∃ m, db.(cf_meta) !! slot b = Some m ∧
       (m.(last_index) ≤ index b ∨ is_last_in_slot b = true ∧ index b < m.(received))) →
  ∀ k g, slot_groups ticks rem es !! k = Some g →
    (∀ j e, g !! j = Some e → ∃ bytes,
       db.(cf_data) !! (start + Z.of_nat k, Z.of_nat j) = Some bytes ∧ holds_entry bytes e) ∧
    (∀ i, is_Some (db.(cf_data) !! (start + Z.of_nat k, i)) → 0 ≤ i < Z.of_nat (length g)).
Proof.
  intros Ht Hrem Hn Hst Hmade Hfrom Hdone k g Hg. set (s := start + Z.of_nat k).
  assert (∀ j, at_index 0 k j = Z.of_nat j) as Hat by (intros j; unfold at_index; case_decide; lia).
  (* what is stored in the slot *)
  assert (∀ i bytes, db.(cf_data) !! (s, i) = Some bytes → ∃ j e, i = Z.of_nat j ∧ g !! j = Some e ∧
    holds_entry bytes e ∧ (flagged bytes = true → S j = length g)) as Hstored.
  { intros i bytes Hi. destruct (Hfrom s i bytes ltac:(lia) Hi) as (b & Hb & [= Hsl Hix] & Hsb).
    apply list_elem_of_lookup in Hb as [n Hb].
    destruct (Forall2_lookup_l _ _ _ _ _ Hmade Hb) as ([[[s0 i0] l] e] & Hx & (Hs0 & Hi0 & Hl & Hok & Hc)).
    apply list_elem_of_lookup_2, place_placed in Hx as (k' & g' & j & Hg' & Hj & Hs' & Hi' & Hl'); [|done..].
    cbn in *. assert (k' = k) as -> by lia. rewrite Hat in Hi'. rewrite Hg in Hg'. injection Hg' as <-.
    destruct (carries_stored (E:=BlocktreeError) b [e] Hc) as (bytes' & Hsb' & H112 & Hdrop).
    rewrite Hsb in Hsb'. injection Hsb' as <-. exists j, e. split_and!; [congruence|done|done|].
    rewrite (stored_flagged b bytes (proj1 Hok) Hsb), Hl. done. }
  assert (∀ i, is_Some (db.(cf_data) !! (s, i)) → 0 ≤ i < Z.of_nat (length g)) as Hbound.
  { intros i [bytes (j & e & -> & Hj%lookup_lt_Some & _)%Hstored]. lia. }
  split; [|done]. intros j e Hj.
  enough (is_Some (db.(cf_data) !! (s, Z.of_nat j))) as [bytes Hb].
  { exists bytes. split; [done|]. destruct (Hstored _ _ Hb) as (j' & e' & ? & ? & ? & _).
    assert (j' = j) as -> by lia. by simplify_eq. }
  destruct (groups_place ticks es start 0 rem k g j e Hg Hj) as [l Hx].
  pose proof (list_elem_of_lookup_1 _ _ Hx) as [n Hxn].
  destruct (Forall2_lookup_r _ _ _ _ _ Hmade Hxn) as (b & Hb & (Hsl & Hix & Hl & _ & _)).
  rewrite Hat in Hix. apply list_elem_of_lookup_2 in Hb.
  apply place_placed in Hx as (k' & g' & j' & Hg' & Hj' & Hs' & Hi' & Hl'); [|done..].
  cbn in *. assert (k' = k) as -> by lia. rewrite Hg in Hg'. injection Hg' as <-.
  rewrite !Hat in Hi'. assert (j' = j) as -> by lia.
  assert (Z.of_nat (length g) ≤ u64_max) as Hgn.
  { pose proof (group_length _ _ _ _ _ Hg). lia. }
  apply lookup_lt_Some in Hj.
  destruct (Hdone b Hb) as [Hst'|(m & Hm & Hr)]; [by rewrite Hsl, Hix in Hst'|].
  rewrite Hsl in Hm. pose proof (Hst s) as Hsok. fold s in Hm. rewrite Hm in Hsok.
  assert (∀ i, blobs_of db ∅ s i = db.(cf_data) !! (s, i)) as HD.
  { intros i. unfold blobs_of, find_blob. by rewrite lookup_empty. }
  destruct Hr as [Hlast|[Hlast Hrec]].
  - destruct (ok_last _ _ Hsok) as [Hmax|[Hl0 Hl1]]; [lia|].
    destruct (ok_highest _ _ Hsok) as [?|[bytes Hh]]; [lia|]. rewrite Hl1, Z.add_simpl_r in Hh.
    pose proof (proj2 (ok_flagged _ _ Hsok _ _ Hh) eq_refl) as Hfl. rewrite HD in Hh.
    destruct (Hstored _ _ Hh) as (j1 & e1 & Hj1 & _ & _ & Hend). specialize (Hend Hfl).
    assert (j1 = j) as -> by lia. rewrite <- Hj1. by eexists.
  - rewrite Hl in Hlast. specialize (Hl' Hlast).
    destruct (ok_highest _ _ Hsok) as [?|Hh]; [lia|]. rewrite HD in Hh.
    pose proof (Hbound _ Hh). by replace (Z.of_nat j) with (m.(received) - 1) by lia.
Qed.

(** C29. Entries survive the ledger.  Entries that fit a blob each, written from the
    start of a slot that the ledger has not seen, are all stored, spread over the
    slots so that a slot ends with its last tick; reading each of these slots gives
    back its entries in order. *)
Theorem entries_survive_ledger db slot_order set_order reconstruct has_senders
    (start ticks n0 : Z) (es : list Entry)
    (Hslots : ∀ X, slot_order X ≡ₚ elements X) (Hsets : ∀ X, set_order X ≡ₚ elements X)
    (Hdb : ledger_ok db) (Hnew : ∀ s, start ≤ s → db.(cf_meta) !! s = None)
    (Hticks : 0 ≤ n0 < ticks) (Hmax : ticks ≤ u64_max)
    (Hstart : 0 ≤ start) (Hend : start + Z.of_nat (length es) ≤ u64_max)
    (Hfit : Forall entry_fits es) :
  ∃ fuel0 out,
    (∀ fuel, (fuel0 ≤ fuel)%nat →
       write_entries db slot_order reconstruct set_order fuel has_senders start n0 0 ticks es = Ok out) ∧
    ledger_ok out.(new_db) ∧
    mjoin (slot_groups ticks (ticks - n0) es) = es ∧
    ∀ k g, slot_groups ticks (ticks - n0) es !! k = Some g →
      get_slot_entries out.(new_db) (start + Z.of_nat k) 0 None = Ok g.
Proof.
  destruct (entry_blobs_spec ticks es ltac:(lia) Hfit start 0 (ticks - n0)) as (bs & Hbs & Hmade); [lia..|].
  assert (Forall blob_ok bs) as Hok.
  { apply Forall_forall. intros b [n Hb]%list_elem_of_lookup.
    destruct (Forall2_lookup_l _ _ _ _ _ Hmade Hb) as ([[[s i] l] e] & _ & (_ & _ & _ & Hok & _)). done. }
  destruct (insertion_ends db slot_order set_order reconstruct has_senders bs Hslots Hsets Hdb Hok)
    as (fuel0 & out & Hrun & Hout & _ & Hfrom & Hdone).
  exists fuel0, out. split_and!; [|done|apply slot_groups_join|].
  - intros fuel Hle. unfold write_entries. destruct (Z.ltb_spec n0 ticks); [cbn [negb]|lia].
    rewrite (u64_sub_exact ticks n0) by (unfold is_u64, u64_max in *; lia).
    assert ((if start =? 0 then start else u64_sub start 1) = if start =? 0 then 0 else start - 1) as ->.
    { destruct (Z.eqb_spec start 0); [done|]. apply u64_sub_exact; unfold is_u64, u64_max in *; lia. }
    rewrite Hbs. cbn [mbind res_bind]. by apply Hrun.
  - intros k g Hg.
    destruct (groups_stored out.(new_db) start ticks (ticks - n0) es bs) with k g as [Hat Hbound];
      [lia..|apply Hout|done| |done|done|].
    { intros s i bytes Hs [Hold|?]%Hfrom; [|done].
      pose proof (lo_store _ Hdb s) as Hn. rewrite Hnew in Hn by done. by rewrite Hn in Hold. }
    assert (g ⊆ es) as Hsub.
    { rewrite <- (slot_groups_join ticks es (ticks - n0)). intros e He.
      apply list_elem_of_join. exists g. split; [done|]. by eapply list_elem_of_lookup_2. }
    apply read_group; [|pose proof (group_length _ _ _ _ _ Hg); lia|done|done].
    apply Forall_forall. intros e He. rewrite Forall_forall in Hfit. by apply Hfit, Hsub.
Qed.

End Ledger.

End ledger_proofs.

(** ** Missing indexes *)

Module missing_proofs.

Lemma filter_all {A} (P : A → Prop) `{∀ x, Decision (P x)} (l : list A) :
  (∀ x, x ∈ l → P x) → filter P l = l.
Proof.
  induction l as [|x l IH]; intros Hl; [done|].
  rewrite filter_cons_True by (apply Hl; set_solver). f_equal. apply IH. set_solver.
Qed.

Lemma StronglySorted_filter {A} (R : relation A) (P : A → Prop) `{∀ x, Decision (P x)} l :
  StronglySorted R l → StronglySorted R (filter P l).
Proof.
  induction 1 as [|x l Hl IH Hx]; [constructor|]. rewrite filter_cons. case_decide; [|done].
  constructor; [done|]. rewrite Forall_forall in *. intros y [_ Hy]%list_elem_of_filter. by apply Hx.
Qed.

Section Missing.
Context {A : Type} (column : gmap (Z * Z) A) (s : Z).

(** The reference: the indexes of the range at which the column has nothing *)
Definition missing_in (first last : Z) : list Z :=
  filter (λ i, column !! (s, i) = None) (range_list first last).

Lemma elem_of_range_list i first last : i ∈ range_list first last ↔ first ≤ i < last.
Proof. unfold range_list. rewrite elem_of_seqZ. lia. Qed.

Lemma range_list_split first mid last : first ≤ mid ≤ last →
  range_list first last = range_list first mid ++ range_list mid last.
Proof.
  intros H. unfold range_list. replace (last - first) with ((mid - first) + (last - mid)) by lia.
  rewrite seqZ_app by lia. do 2 f_equal. lia.
Qed.

Lemma missing_split first mid last : first ≤ mid ≤ last →
  missing_in first last = missing_in first mid ++ missing_in mid last.
Proof. intros H. unfold missing_in. by rewrite (range_list_split _ _ _ H), filter_app. Qed.

Lemma missing_all first last : (∀ i, first ≤ i < last → column !! (s, i) = None) →
  missing_in first last = range_list first last.
Proof.
  intros H. unfold missing_in. apply filter_all. intros i Hi. by apply H, elem_of_range_list.
Qed.

Lemma range_list_nil first last : last ≤ first → range_list first last = [].
Proof. intros H. unfold range_list. by rewrite seqZ_nil by lia. Qed.

(** What [push_missing] does when every index of its range is missing *)
Lemma push_missing_spec missing first last max : (length missing < max)%nat →
  (∀ i, first ≤ i < last → column !! (s, i) = None) →
  (push_missing missing first last max).1 =
    missing ++ take (max - length missing) (missing_in first last) ∧
  if (push_missing missing first last max).2
  then (max - length missing ≤ length (missing_in first last))%nat
  else (length (missing_in first last) < max - length missing)%nat.
Proof.
  intros Hlen Hall. rewrite (missing_all _ _ Hall). unfold push_missing. cbn. split; [done|].
  rewrite length_app, length_take. unfold range_list. rewrite length_seqZ.
  case_bool_decide as Hb; lia.
Qed.

Lemma missing_loop_spec cursor : ∀ prev last max missing,
  0 ≤ prev → prev ≤ last → last ≤ u64_max → (length missing < max)%nat →
  StronglySorted key_le cursor → NoDup cursor → Forall (key_le (s, prev)) cursor →
  (∀ k, key_le (s, prev) k → is_Some (column !! k) ↔ k ∈ cursor) →
  missing_loop cursor s prev last max missing =
    missing ++ take (max - length missing) (missing_in prev last).
Proof.
  induction cursor as [|[cs ci] cursor IH]; intros prev last max missing Hp Hle Hmax Hlen Hsort Hnd Hge Hin.
  { cbn [missing_loop]. apply push_missing_spec; [done|]. intros i Hi.
    apply eq_None_not_Some. rewrite Hin; [set_solver|]. right. cbn. lia. }
  cbn [missing_loop]. apply StronglySorted_inv in Hsort as [Hsort Hhd].
  apply NoDup_cons in Hnd as [Hnotin Hnd]. apply Forall_cons in Hge as [Hge0 Hge].
  (* nothing before the first key of the cursor *)
  assert (∀ i, prev ≤ i → s < cs ∨ cs = s ∧ i < ci → column !! (s, i) = None) as Hbefore.
  { intros i Hi Hlt. apply eq_None_not_Some. rewrite Hin by (right; cbn; lia).
    intros [[= <- <-]|Hk]%elem_of_cons; [lia|].
    rewrite Forall_forall in Hhd. specialize (Hhd _ Hk). unfold key_le in Hhd. cbn in Hhd. lia. }
  unfold key_le in Hge0. cbn in Hge0.
  destruct (Z.ltb_spec s cs) as [Hs|Hs].
  - rewrite Z.min_id.
    destruct (push_missing_spec missing prev last max Hlen) as [H1 _]; [intros i Hi; apply Hbefore; lia|].
    destruct (push_missing missing prev last max) as [l full]. cbn in H1. subst l. by destruct full.
  - assert (cs = s) as -> by lia. assert (prev ≤ ci) as Hci by lia.
    destruct (push_missing_spec missing prev (ci `min` last) max Hlen) as [H1 H2];
      [intros i Hi; apply Hbefore; lia|].
    destruct (push_missing missing prev (ci `min` last) max) as [l full]. cbn in H1, H2. subst l.
    rewrite (missing_split prev (ci `min` last) last) by lia. destruct full.
    { f_equal. rewrite take_app_le by lia. done. }
    rewrite (take_ge (missing_in prev (ci `min` last))) by lia.
    destruct (Z.leb_spec last ci) as [Hl|Hl].
    { rewrite Z.min_r by lia. unfold missing_in at 3. rewrite (range_list_nil last last) by lia.
      rewrite filter_nil, app_nil_r, take_ge; [done|]. rewrite Z.min_r in H2 by lia. lia. }
    rewrite Z.min_l in * by lia. rewrite u64_add_exact by (unfold u64_max in *; lia).
    rewrite IH; [|lia..|by rewrite length_app; lia|done|done| |].
    + rewrite length_app, <- app_assoc, take_app_ge by lia. do 3 f_equal; [lia|].
      rewrite (missing_split ci (ci + 1) last) by lia.
      assert (missing_in ci (ci + 1) = []) as ->; [|done].
      unfold missing_in, range_list. replace (ci + 1 - ci) with 1 by lia.
      rewrite seqZ_cons, (seqZ_nil _ (Z.pred 1)) by lia.
      assert (is_Some (column !! (s, ci))) as [a Ha].
      { apply Hin; [right; cbn; lia|set_solver]. }
      by rewrite filter_cons_False by (rewrite Ha; done).
    + apply Forall_forall. intros [ks ki] Hk. rewrite Forall_forall in Hhd, Hge.
      specialize (Hhd _ Hk). unfold key_le in *. cbn in *.
      assert ((ks, ki) ≠ (s, ci)) as Hne by (intros [= -> ->]; done).
      destruct (decide (ks = s)) as [->|]; [|lia]. assert (ki ≠ ci) by congruence. lia.
    + intros k Hk. rewrite Hin; [|unfold key_le in *; cbn in *; lia]. rewrite elem_of_cons.
      split; [|by auto]. intros [->|?]; [|done]. unfold key_le in Hk. cbn in Hk. lia.
Qed.

Global Instance key_le_trans : Transitive key_le.
Proof. intros [a b] [c d] [e f]. unfold key_le. cbn. lia. Qed.
Global Instance key_le_total : Total key_le.
Proof. intros [a b] [c d]. unfold key_le. cbn. lia. Qed.

Lemma missing_found start_index end_index max_missing :
  0 ≤ start_index → end_index ≤ u64_max →
  find_missing_indexes column s start_index end_index max_missing =
    take max_missing (missing_in start_index end_index).
Proof.
  intros Hstart Hend. unfold find_missing_indexes.
  destruct (Z.leb_spec end_index start_index) as [Hle|Hlt]; cbn [orb].
  { unfold missing_in. rewrite range_list_nil by lia. by rewrite filter_nil, take_nil. }
  destruct (Nat.eqb_spec max_missing 0) as [->|Hm]; [done|].
  rewrite missing_loop_spec; cbn [length]; [by rewrite Nat.sub_0_r|lia..|lia| | | |].
  - unfold seek. apply StronglySorted_filter, (StronglySorted_merge_sort _).
  - unfold seek. apply NoDup_filter. rewrite merge_sort_Permutation. apply NoDup_fst_map_to_list.
  - apply Forall_forall. intros k Hk. unfold seek in Hk. by apply list_elem_of_filter in Hk as [? _].
  - intros k Hk. unfold seek. rewrite list_elem_of_filter, merge_sort_Permutation.
    rewrite list_elem_of_fmap. split.
    + intros [a Ha]. split; [done|]. exists (k, a). by rewrite elem_of_map_to_list.
    + intros (_ & [k' a] & -> & Ha%elem_of_map_to_list). by eexists.
Qed.

(** Missing blobs are found: the result has the first [max_missing] indexes of
    the range, in order, that the column does not have, and no other. *)
Theorem find_missing_indexes_spec start_index end_index max_missing
    (Hstart : 0 ≤ start_index) (Hend : end_index ≤ u64_max) :
  find_missing_indexes column s start_index end_index max_missing =
    take max_missing (missing_in start_index end_index).
Proof. by apply missing_found. Qed.
End Missing.
End missing_proofs.

(** ** Roots and orphans *)

Module root_proofs.

(** The slots from [new_root] down to, and without, [prev_root] *)
Inductive root_path (db : Database) (prev_root : Z) : Z → list Z → Prop :=
| path_end : root_path db prev_root prev_root []
| path_step s m l : s ≠ prev_root → db.(cf_meta) !! s = Some m →
    root_path db prev_root m.(parent_slot) l → root_path db prev_root s (s :: l).

Lemma root_chain_path db prev_root s l : root_path db prev_root s l →
  ∀ fuel, (length l ≤ fuel)%nat → root_chain db fuel s prev_root = Ok l.
Proof.
  induction 1 as [|s m l Hs Hm Hp IH]; intros fuel Hf.
  - destruct fuel; cbn; by rewrite Z.eqb_refl.
  - cbn in Hf. destruct fuel as [|fuel]; [lia|]. cbn. destruct (Z.eqb_spec s prev_root); [done|].
    rewrite Hm. cbn. rewrite IH by lia. done.
Qed.

Lemma write_roots slots : ∀ db, ∀ s,
  is_root (write db (PutRoot <$> slots)) s = bool_decide (s ∈ slots) || is_root db s.
Proof.
  induction slots as [|s0 slots IH]; intros db s; [done|]. rewrite fmap_cons.
  change (write db (PutRoot s0 :: (PutRoot <$> slots))) with
    (write (apply_op db (PutRoot s0)) (PutRoot <$> slots)). rewrite IH. destruct db. unfold is_root. cbn.
  destruct (decide (s = s0)) as [->|].
  - rewrite lookup_insert_eq, (bool_decide_true (s0 ∈ s0 :: slots)) by set_solver. apply orb_true_r.
  - rewrite lookup_insert_ne by done. f_equal. apply bool_decide_ext. set_solver.
Qed.

(** Setting a root marks the slots between the old and the new root, and keeps
    the roots that there were. *)
Lemma set_root_spec db new_root prev_root l fuel : new_root ≠ 0 →
  root_path db prev_root new_root l → (length l ≤ fuel)%nat →
  ∃ db', set_root db fuel new_root prev_root = Ok db' ∧
    ∀ s, is_root db' s = true ↔ is_root db s = true ∨ s ∈ l.
Proof.
  intros Hnew Hpath Hf. unfold set_root. destruct (Z.eqb_spec new_root 0); [done|].
  rewrite (root_chain_path _ _ _ _ Hpath) by done. cbn. eexists. split; [done|].
  intros s. rewrite write_roots, orb_true_iff, bool_decide_eq_true. tauto.
Qed.

(** The limit of [get_orphans] is passed by one. *)
Lemma orphans_limit cursor : ∀ max results, (length results ≤ S max)%nat →
  orphans_loop cursor (Some max) results = results ++ take (S max - length results) cursor.
Proof.
  induction cursor as [|s cursor IH]; intros max results Hr; cbn [orphans_loop].
  { by rewrite take_nil, app_nil_r. }
  destruct (Nat.ltb_spec max (length results)).
  - replace (S max - length results)%nat with 0%nat by lia. cbn. by rewrite app_nil_r.
  - rewrite IH by (rewrite length_app; cbn; lia). rewrite length_app, <- app_assoc. cbn.
    replace (S max - length results)%nat with (S (max - length results)) by lia. cbn.
    do 3 f_equal. lia.
Qed.
End root_proofs.

(** ** Examples *)

Module ledger_demo.
Import entry_proofs ledger_proofs missing_proofs entry_demo.

#[local] Existing Instance demo_transaction_ranged.
#[local] Existing Instance demo_transaction_bincode.
#[local] Existing Instance demo_entries_bincode.
#[local] Existing Instance demo_entries_laws.

Lemma demo_fits : Forall entry_fits demo_entries.
Proof.
  unfold demo_entries. repeat (apply Forall_cons; split); [..|by constructor].
  all: split; [split; [repeat constructor; done|done]|].
  all: split; [vm_compute; discriminate|]; apply (bool_decide_unpack _); vm_compute; exact I.
Qed.

(** Two slots of one tick each *)
Lemma entries_survive_ledger_witness :
  ∃ fuel0 out,
    (∀ fuel, (fuel0 ≤ fuel)%nat →
       write_entries empty_db elements (λ _ _, None) elements fuel true 5 0 0 1 demo_entries = Ok out) ∧
    get_slot_entries out.(new_db) 5 0 None = Ok (take 2 demo_entries) ∧
    get_slot_entries out.(new_db) 6 0 None = Ok (drop 2 demo_entries).
Proof.
  destruct (entries_survive_ledger empty_db elements elements (λ _ _, None) true 5 1 0 demo_entries
    elements_slots elements_sets empty_ledger_ok ltac:(intros; apply lookup_empty)
    ltac:(lia) ltac:(unfold u64_max; lia) ltac:(lia) ltac:(vm_compute; discriminate) demo_fits)
    as (fuel0 & out & Hrun & _ & _ & Hread).
  exists fuel0, out. split; [exact Hrun|]. split.
  - exact (Hread 0%nat (take 2 demo_entries) eq_refl).
  - exact (Hread 1%nat (drop 2 demo_entries) eq_refl).
Defined.

Definition demo_column : gmap (Z * Z) unit :=
  list_to_map [((3, 9), tt); ((4, 1), tt); ((4, 2), tt); ((4, 6), tt); ((5, 3), tt)].

Lemma find_missing_indexes_spec_witness :
  find_missing_indexes demo_column 4 0 8 4 = [0; 3; 4; 5].
Proof.
  etransitivity; [apply (find_missing_indexes_spec demo_column 4 0 8 4); vm_compute; congruence|].
  vm_compute. reflexivity.
Defined.

(** Three ticks that follow one another, the first two in one blob: the iterator
    of [read_ledger] verifies the second blob against the first entry of the first
    blob, and stops before it. *)
Definition tick_at (h : Hash) : Entry := mkEntry 1 (poh.hash_of demo_sha h) [].
Definition tick1 : Entry := tick_at 9.
Definition tick2 : Entry := tick_at tick1.(entry_hash).
Definition tick3 : Entry := tick_at tick2.(entry_hash).

Definition two_blobs : Database :=
  mkDatabase ∅ (list_to_map [((0, 0), replicate 112 0 ++ serialize [tick1; tick2]);
                             ((0, 1), replicate 112 0 ++ serialize [tick3])]) ∅ ∅ ∅ ∅.

Lemma read_ledger_stops :
  EntrySlice_verify (E:=Empty_set) demo_sha 9 [tick1; tick2; tick3] = Ok true ∧
  (e1 ← EntryIterator_next two_blobs demo_sha;
   e2 ← EntryIterator_next two_blobs demo_sha;
   e3 ← EntryIterator_next two_blobs demo_sha;
   mret [e1; e2; e3]) (read_ledger two_blobs) =
  (Ok [Some tick1; Some tick2; None],
   ([(0, 1)], Some tick1.(entry_hash), [])).
Proof. vm_compute. done. Qed.

End ledger_demo.
