(* ===== verification/BlockStoreErasure.v ===== *)
(** * The block store: erasure sets

    The presence bits of a set, the shards that recovery hands to the
    Reed-Solomon crate, and what it gives back. *)

From S2P Require Import Prelude Interface Codec Message Entry BlockStore BlockStoreProofs BlockStoreChain BlockStoreReads.

Import blob blob_header meta blocktree store_proofs chain_proofs header_proofs.

(** ** Making coding blobs (core/src/expunge.rs)

    [encode] is the crate's [encode_sep]: the parity shards of some data shards.
    Locks are not modelled, so a shared blob is its blob. *)

Module coding_generator.

Definition ID_RANGE : range := (24, 32)%nat.
Definition GENESIS_RANGE : range := (57, 32)%nat.

(** [dst.set_f(&src.f())] for a field of bytes *)
Definition copy_range (r : range) (src dst : Blob) : Blob :=
  mkBlob (take r.1 dst.(blob_bytes) ++ take r.2 (drop r.1 src.(blob_bytes)) ++
          drop (r.1 + r.2) dst.(blob_bytes)) dst.(meta_size).

Definition set_coding (b : Blob) : Blob := set_flags (Z.lor (flags b) BLOB_FLAG_IS_CODING) b.

(** The session's dimensions *)
Record Session := mkSession { data_shard_count : nat; parity_shard_count : nat }.
Definition Session_default : Session := mkSession (Z.to_nat NUM_DATA) (Z.to_nat NUM_CODING).

Record CodingGenerator := mkCodingGenerator { leftover : list Blob; session : Session }.

Section Generate.
Context (encode : list (list Z) → nat → option (list (list Z))).

Definition max_data_size (data_blobs : list Blob) : Z :=
  foldl (λ max b, Z.max b.(meta_size) max) 0 data_blobs.

(** A coding blob before its shard is written *)
Definition blank_coding (size : Z) (data_blob : Blob) : Blob :=
  let b := copy_range GENESIS_RANGE data_blob Blob_default in
  let b := blob_header.set_index (index data_blob) b in
  let b := set_slot (slot data_blob) b in
  let b := copy_range ID_RANGE data_blob b in
  let b := set_size size b in
  set_coding b.

(** The shard of a coding blob: [data_mut()[..max_data_size]] *)
Definition write_shard (b : Blob) (shard : list Z) : Blob :=
  with_blob_data (shard ++ drop (length shard) (blob_data b)) b.

(** One set; a slice that is out of range panics. *)
Definition code_set {E} (num_coding : nat) (data_blobs : list Blob) : res E (list Blob) :=
  let size := max_data_size data_blobs in
  if existsb (λ b, Z.of_nat (length b.(blob_bytes)) <? size) data_blobs then Panic
  else
  let data_ptrs := (λ b, take (Z.to_nat size) b.(blob_bytes)) <$> data_blobs in
  if (length data_blobs <? num_coding)%nat then Panic
  else
  let coding_blobs := blank_coding size <$> take num_coding data_blobs in
  if existsb (λ b, Z.of_nat (length (blob_data b)) <? size) coding_blobs then Panic
  else
  match encode data_ptrs num_coding with
  | Some parity => Ok (zip_with write_shard coding_blobs parity)
  | None => Ok []
  end.

(** The loop over [chunks(num_data)]; the result is [next_coding] and the
    leftover. *)
Fixpoint code_chunks {E} (fuel num_data num_coding : nat) (data kept : list Blob)
    : res E (list Blob * list Blob) :=
  match fuel with
  | O => Ok ([], kept)
  | S fuel' =>
      match data with
      | [] => Ok ([], kept)
      | _ =>
          let data_blobs := take num_data data in
          if (length data_blobs <? num_data)%nat then Ok ([], data_blobs)
          else
          coding ← code_set num_coding data_blobs;
          '(rest, kept) ← code_chunks fuel' num_data num_coding (drop num_data data) [];
          Ok (coding ++ rest, kept)
      end
  end.

(** The leftover is dropped when the blobs are of another slot. *)
Definition kept_blobs (next_data : list Blob) (g : CodingGenerator) : list Blob :=
  match g.(leftover), next_data with
  | b :: _, b' :: _ => if slot b =? slot b' then g.(leftover) else []
  | _, _ => g.(leftover)
  end.

Definition next {E} (next_data : list Blob) (g : CodingGenerator)
    : res E (list Blob) * CodingGenerator :=
  let num_data := data_shard_count g.(session) in
  let num_coding := parity_shard_count g.(session) in
  if (num_data =? 0)%nat then (Panic, g)
  else
  let kept := kept_blobs next_data g in
  let data := kept ++ next_data in
  match code_chunks (length data) num_data num_coding data kept with
  | Ok (coding, kept) => (Ok coding, mkCodingGenerator kept g.(session))
  | Err e => (Err e, mkCodingGenerator kept g.(session))
  | Panic => (Panic, mkCodingGenerator kept g.(session))
  end.

(** The blobs are coded in order, set by set; what does not fill a set is kept. *)
Definition coded {E} (num_data num_coding : nat) (data coding kept : list Blob) : Prop :=
  (length kept < num_data)%nat ∧ ∃ sets codings,
    data = mjoin sets ++ kept ∧ Forall (λ c, length c = num_data) sets ∧
    Forall2 (λ c r, code_set (E:=E) num_coding c = Ok r) sets codings ∧ coding = mjoin codings.

Lemma code_chunks_spec {E} num_data num_coding : (0 < num_data)%nat →
  ∀ fuel data kept, (length data ≤ fuel)%nat → (data = [] → kept = []) →
  ∀ coding kept', code_chunks (E:=E) fuel num_data num_coding data kept = Ok (coding, kept') →
  coded (E:=E) num_data num_coding data coding kept'.
Proof.
  intros Hn. induction fuel as [|fuel IH]; intros data kept Hf Hl coding kept'.
  { destruct data; [|cbn in Hf; lia]. rewrite (Hl eq_refl). intros [= <- <-].
    split; [cbn; lia|]. exists [], []. by repeat constructor. }
  destruct data as [|b data]; cbn [code_chunks].
  { rewrite (Hl eq_refl). intros [= <- <-]. split; [cbn; lia|]. exists [], []. by repeat constructor. }
  remember (b :: data) as bs eqn:Hbs. rewrite length_take.
  destruct (Nat.ltb_spec (num_data `min` length bs)%nat num_data) as [Hlt|Hge].
  { intros [= <- <-]. split; [rewrite length_take; lia|]. exists [], [].
    split_and!; [|constructor|constructor|done]. cbn. rewrite take_ge; [done|lia]. }
  intros (c & Hc & ([rest l] & Hr & [= <- <-])%res_bind_ok)%res_bind_ok.
  apply IH in Hr as (Hl' & sets & codings & Hd & Hall & Hcod & ->); [| |done].
  - split; [done|]. exists (take num_data bs :: sets), (c :: codings).
    rewrite !mjoin_cons, <- app_assoc, <- Hd, take_drop.
    split_and!; [done| |by constructor|done]. constructor; [rewrite length_take; lia|done].
  - rewrite length_drop. subst bs. cbn in *. lia.
Qed.

(** After a call the generator has fewer blobs than a set, and what it had and
    what it was given has been coded. *)
Lemma next_spec {E} next_data g coding g' : (0 < data_shard_count g.(session))%nat →
  next (E:=E) next_data g = (Ok coding, g') →
  g'.(session) = g.(session) ∧
  coded (E:=E) (data_shard_count g.(session)) (parity_shard_count g.(session))
    (kept_blobs next_data g ++ next_data) coding g'.(leftover).
Proof.
  intros Hn. unfold next. destruct (Nat.eqb_spec (data_shard_count g.(session)) 0); [lia|].
  destruct (code_chunks _ _ _ (kept_blobs next_data g ++ next_data) _) as [[c l]|e|] eqn:Hc; [|done..].
  intros [= <- <-]. split; [done|]. cbn.
  eapply code_chunks_spec; [done| | |exact Hc]; [done|]. by intros [-> _]%app_nil.
Qed.
End Generate.
End coding_generator.

Module erasure_proofs.

(** ** Presence bits *)

Lemma bit_present_spec bits p : 0 ≤ p → bit_present bits p = Z.testbit bits p.
Proof.
  intros Hp. unfold bit_present. destruct (Z.testbit bits p) eqn:Hb.
  - apply negb_true_iff, Z.eqb_neq. intros H0.
    assert (Z.testbit (Z.land bits (Z.shiftl 1 p)) p = false) as Hf by (rewrite H0; apply Z.bits_0).
    rewrite Z.land_spec, Hb, Z.shiftl_spec, Z.sub_diag in Hf by done. done.
  - apply negb_false_iff, Z.eqb_eq. apply Z.bits_inj'. intros n Hn.
    rewrite Z.land_spec, Z.bits_0, Z.shiftl_spec by done.
    destruct (decide (n = p)) as [->|]; [by rewrite Hb|].
    assert (Z.testbit 1 (n - p) = false) as ->; [|by rewrite andb_false_r].
    destruct (decide (n < p)); [apply Z.testbit_neg_r; lia|]. apply Z.bits_above_log2; cbn; lia.
Qed.

Lemma bit_set_spec bits p b q : 0 ≤ p → 0 ≤ q →
  Z.testbit (bit_set bits p b) q = if decide (q = p) then b else Z.testbit bits q.
Proof.
  intros Hp Hq. unfold bit_set.
  assert (Z.testbit (Z.shiftl 1 p) q = bool_decide (q = p)) as Hshift.
  { rewrite Z.shiftl_spec by done. case_bool_decide as He; [subst; by rewrite Z.sub_diag|].
    destruct (decide (q < p)); [apply Z.testbit_neg_r; lia|]. apply Z.bits_above_log2; cbn; lia. }
  destruct b; rewrite ?Z.lor_spec, ?Z.ldiff_spec, Hshift.
  - case_decide; [rewrite bool_decide_true by done; apply orb_true_r|].
    rewrite bool_decide_false by done. apply orb_false_r.
  - case_decide; [rewrite bool_decide_true by done; apply andb_false_r|].
    rewrite bool_decide_false by done. apply andb_true_r.
Qed.

Lemma list_empty_if {A} (l : list A) : (∀ x, x ∉ l) → l = [].
Proof. destruct l as [|x l]; [done|]. intros H. destruct (H x). set_solver. Qed.

Lemma filter_ext_in {A} (P Q : A → Prop) `{∀ x, Decision (P x), ∀ x, Decision (Q x)} (l : list A) :
  (∀ x, x ∈ l → P x ↔ Q x) → filter P l = filter Q l.
Proof.
  induction l as [|x l IH]; intros Hl; [done|]. rewrite !filter_cons, IH by set_solver.
  specialize (Hl x ltac:(set_solver)). by repeat case_decide; naive_solver.
Qed.

(** The number of bits that are set in a byte *)
Lemma count_ones_list z : 0 ≤ z < 2 ^ 8 →
  count_ones z = Z.of_nat (length (filter (λ j, Z.testbit z (Z.of_nat j) = true) (seq 0 8))).
Proof.
  intros Hz. unfold count_ones. change (seq 0 64) with (seq 0 8 ++ seq 8 56).
  rewrite fmap_app, Zsum_app.
  assert (∀ l : list nat, Zsum ((λ i : nat, if Z.testbit z (Z.of_nat i) then 1 else 0) <$> l) =
    Z.of_nat (length (filter (λ j, Z.testbit z (Z.of_nat j) = true) l))) as Hcount.
  { induction l as [|i l IH]; [done|]. rewrite fmap_cons, filter_cons. cbn [Zsum]. rewrite IH.
    destruct (Z.testbit z (Z.of_nat i)); [rewrite decide_True by done; cbn [length]; lia|].
    by rewrite decide_False by done. }
  rewrite !Hcount.
  assert (filter (λ j, Z.testbit z (Z.of_nat j) = true) (seq 8 56) = []) as ->; [|cbn [length]; lia].
  apply list_empty_if. intros i [Hbit [Hi _]%elem_of_seq]%list_elem_of_filter.
  destruct (Z.eq_dec z 0) as [->|]; [by rewrite Z.bits_0 in Hbit|].
  rewrite Z.bits_above_log2 in Hbit; [done|lia|].
  eapply Z.lt_le_trans; [apply (Z.log2_lt_pow2 z 8); lia|lia].
Qed.

(** ** The shards of a set *)

Section Recover.
Context (db : Database) (e : ErasureMeta) (s : Z) (prev : gmap (Z * Z) (list Z)).
Context (Hset : 0 ≤ e.(set_index)) (Hend : 8 * e.(set_index) + 8 ≤ u64_max).

Definition first_index : Z := 8 * e.(set_index).

Lemma start_index_exact : start_index e = first_index.
Proof. unfold start_index, u64_mul, NUM_DATA, first_index. rewrite wrap64_small; unfold is_u64, u64_max in *; lia. Qed.

Lemma end_indexes_exact : end_indexes e = (first_index + 8, first_index + 8).
Proof.
  unfold end_indexes. rewrite start_index_exact. unfold NUM_DATA, NUM_CODING, first_index in *.
  rewrite u64_add_exact by (unfold u64_max in *; lia). done.
Qed.

Lemma position_exact (j : nat) : (j < 8)%nat →
  data_index_in_set e (first_index + Z.of_nat j) = Some (Z.of_nat j).
Proof.
  intros Hj. unfold first_index. rewrite position_in_set.
  - f_equal. rewrite Z.mul_comm, Z.add_comm, Z.mod_add by lia. apply Z.mod_small. lia.
  - unfold is_u64, u64_max in *. lia.
  - unfold set_index_for, NUM_DATA. rewrite Z.mul_comm, Z.add_comm, Z.div_add by lia.
    rewrite Z.div_small by lia. lia.
Qed.

Definition has_data (j : nat) : bool := Z.testbit e.(em_data) (Z.of_nat j).
Definition has_coding (j : nat) : bool := Z.testbit e.(em_coding) (Z.of_nat j).

Lemma is_data_present_exact j : (j < 8)%nat → is_data_present e (first_index + Z.of_nat j) = has_data j.
Proof. intros Hj. unfold is_data_present. rewrite position_exact by done. apply bit_present_spec. lia. Qed.

Lemma is_coding_present_exact j : (j < 8)%nat →
  is_coding_present e (first_index + Z.of_nat j) = has_coding j.
Proof. intros Hj. unfold is_coding_present. rewrite position_exact by done. apply bit_present_spec. lia. Qed.

(** The shards of the set: eight of data, eight of coding *)
Context (shard : nat → list Z) (size : Z).
Context (Hdata : ∀ j : nat, (j < 8)%nat → has_data j = true →
  ∃ bytes, find_blob db prev (s, first_index + Z.of_nat j) = Some bytes ∧ resize size bytes = shard j).
Context (Hcoding : ∀ j : nat, (j < 8)%nat → has_coding j = true →
  ∃ bytes, db.(cf_coding) !! (s, first_index + Z.of_nat j) = Some bytes ∧ (112 ≤ length bytes)%nat ∧
    drop 112 bytes = shard (8 + j)).

Definition blank : list Z := replicate (Z.to_nat size) 0.
Definition data_block (j : nat) : list Z := if has_data j then shard j else blank.
Definition coding_block (j : nat) : list Z := if has_coding j then shard (8 + j) else blank.

(** The flags after the coding blobs from [j] on *)
Lemma coding_blocks_spec (n : nat) : ∀ j blobs present, (j + n = 8)%nat →
  ∃ present', coding_blocks db s size e None (seqZ (first_index + Z.of_nat j) (Z.of_nat n)) blobs present =
      Ok (blobs ++ (coding_block <$> seq j n), present') ∧ length present' = length present ∧
    ∀ m, present' !! m = if decide (8 + j ≤ m < 16)%nat
                         then (if has_coding (m - 8) then present !! m
                               else (λ _, false) <$> present !! m)
                         else present !! m.
Proof.
  induction n as [|n IH]; intros j blobs present Hj.
  { exists present. cbn. rewrite app_nil_r. split_and!; [done..|]. intros m. by rewrite decide_False by lia. }
  rewrite Nat2Z.inj_succ, <- Z.add_1_l, seqZ_cons by lia. cbn [coding_blocks].
  rewrite is_coding_present_exact by lia.
  replace (Z.succ (first_index + Z.of_nat j)) with (first_index + Z.of_nat (S j)) by lia.
  replace (Z.pred (1 + Z.of_nat n)) with (Z.of_nat n) by lia. cbn [seq]. rewrite fmap_cons.
  destruct (has_coding j) eqn:Hc.
  - destruct (Hcoding j ltac:(lia) Hc) as (bytes & Hb & Hl & Hd). rewrite Hb. cbn [unwrap mbind res_bind].
    change BLOB_HEADER_SIZE with 112.
    destruct (Z.ltb_spec (Z.of_nat (length bytes)) 112); [lia|]. change (Z.to_nat 112) with 112%nat.
    destruct (IH (S j) (blobs ++ [drop 112 bytes]) present) as (p & Hp & Hlen & Hflag); [lia|].
    exists p. rewrite Hp, <- app_assoc. unfold coding_block at 2. rewrite Hc, Hd. split_and!; [done..|].
    intros m. rewrite Hflag. repeat case_decide; try lia; try done.
    assert (m = 8 + j)%nat as -> by lia. replace (8 + j - 8)%nat with j by lia. by rewrite Hc.
  - unfold coding_index_in_set. rewrite position_exact by lia. cbn [fmap option_fmap option_map unwrap mbind res_bind].
    rewrite u64_add_exact by (unfold NUM_DATA; lia). unfold NUM_DATA.
    replace (Z.to_nat (Z.of_nat j + 8)) with (8 + j)%nat by lia.
    destruct (IH (S j) (blobs ++ [blank]) (<[(8 + j)%nat := false]> present)) as (p & Hp & Hlen & Hflag); [lia|].
    exists p. fold blank. rewrite Hp, <- app_assoc. unfold coding_block at 2. rewrite Hc.
    rewrite Hlen, length_insert. split_and!; [done..|]. intros m. rewrite Hflag.
    destruct (decide (m = 8 + j)%nat) as [->|Hm].
    + rewrite decide_False, decide_True by lia. replace (8 + j - 8)%nat with j by lia. rewrite Hc.
      destruct (present !! (8 + j)%nat) eqn:Hl; cbn.
      * apply list_lookup_insert_eq. by eapply lookup_lt_Some.
      * rewrite list_insert_ge; [done|]. by apply lookup_ge_None.
    + rewrite list_lookup_insert_ne by lia. repeat case_decide; try lia; done.
Qed.

Lemma data_blocks_spec (n : nat) : ∀ j blobs present, (j + n = 8)%nat →
  length blobs = (8 + j)%nat →
  ∃ present', data_blocks db s size e prev (seqZ (first_index + Z.of_nat j) (Z.of_nat n)) blobs present =
      Ok (take j blobs ++ (data_block <$> seq j n) ++ drop j blobs, present') ∧
    length present' = length present ∧
    ∀ m, present' !! m = if decide (j ≤ m < 8)%nat
                         then (if has_data m then present !! m else (λ _, false) <$> present !! m)
                         else present !! m.
Proof.
  induction n as [|n IH]; intros j blobs present Hj Hlb.
  { exists present. cbn. rewrite take_drop. split_and!; [done..|]. intros m. by rewrite decide_False by lia. }
  rewrite Nat2Z.inj_succ, <- Z.add_1_l, seqZ_cons by lia. cbn [data_blocks].
  rewrite is_data_present_exact, position_exact by lia. cbn [unwrap mbind res_bind]. rewrite Nat2Z.id.
  replace (Z.succ (first_index + Z.of_nat j)) with (first_index + Z.of_nat (S j)) by lia.
  replace (Z.pred (1 + Z.of_nat n)) with (Z.of_nat n) by lia. cbn [seq]. rewrite fmap_cons.
  assert (∀ x : list Z, length (vec_insert j x blobs) = (8 + S j)%nat ∧
    take (S j) (vec_insert j x blobs) = take j blobs ++ [x] ∧
    drop (S j) (vec_insert j x blobs) = drop j blobs) as Hins.
  { intros x. unfold vec_insert. rewrite length_app, length_take. cbn [length]. rewrite length_drop.
    split_and!; [lia| |].
    - rewrite (cons_middle x), app_assoc, take_app_length'; [done|]. rewrite length_app, length_take. cbn. lia.
    - rewrite (cons_middle x), app_assoc, drop_app_length'; [done|]. rewrite length_app, length_take. cbn. lia. }
  destruct (has_data j) eqn:Hd.
  - destruct (Hdata j ltac:(lia) Hd) as (bytes & Hb & Hr). rewrite Hb. cbn [unwrap mbind res_bind]. rewrite Hr.
    destruct (Hins (shard j)) as (Hl & Ht & Hdr).
    destruct (IH (S j) (vec_insert j (shard j) blobs) present) as (p & Hp & Hlen & Hflag); [lia|done|].
    exists p. rewrite Hp, Ht, Hdr, <- app_assoc. unfold data_block at 2. rewrite Hd. split_and!; [done..|].
    intros m. rewrite Hflag. repeat case_decide; try lia; try done.
    assert (m = j) as -> by lia. by rewrite Hd.
  - destruct (Hins blank) as (Hl & Ht & Hdr). fold blank.
    destruct (IH (S j) (vec_insert j blank blobs) (<[j := false]> present)) as (p & Hp & Hlen & Hflag); [lia|done|].
    exists p. rewrite Hp, Ht, Hdr, <- app_assoc. unfold data_block at 2. rewrite Hd.
    rewrite Hlen, length_insert. split_and!; [done..|]. intros m. rewrite Hflag.
    destruct (decide (m = j)) as [->|Hm].
    + rewrite decide_False, decide_True by lia. rewrite Hd. destruct (present !! j) eqn:Hl'; cbn.
      * apply list_lookup_insert_eq. by eapply lookup_lt_Some.
      * rewrite list_insert_ge; [done|]. by apply lookup_ge_None.
    + rewrite list_lookup_insert_ne by lia. repeat case_decide; try lia; done.
Qed.

(** What recovery hands to the crate *)
Definition set_blocks : list (list Z) := (data_block <$> seq 0 8) ++ (coding_block <$> seq 0 8).
Definition set_present : list bool := (has_data <$> seq 0 8) ++ (has_coding <$> seq 0 8).

Lemma set_present_length : length set_present = 16%nat.
Proof. unfold set_present. by rewrite length_app, !length_fmap, !length_seq. Qed.

Lemma set_present_lookup m : (m < 16)%nat →
  set_present !! m = Some (if decide (m < 8)%nat then has_data m else has_coding (m - 8)).
Proof.
  intros Hm. unfold set_present. case_decide as H8.
  - rewrite lookup_app_l by (rewrite length_fmap, length_seq; lia).
    rewrite list_lookup_fmap, lookup_seq_lt by lia. done.
  - rewrite lookup_app_r by (rewrite length_fmap, length_seq; lia).
    rewrite length_fmap, length_seq, list_lookup_fmap, lookup_seq_lt by lia. done.
Qed.

Context (reconstruct : list (list Z) → list bool → option (list (list Z))).
Context (Hsize : e.(em_size) = size) (Hpos : 0 < size).

Lemma recover_blocks :
  recover db reconstruct s e prev None =
  reconstruct_blobs reconstruct set_blocks set_present size first_index s.
Proof.
  unfold recover. rewrite end_indexes_exact, start_index_exact, Hsize. unfold range_list.
  replace (first_index + 8 - first_index) with (Z.of_nat 8) by lia.
  change (replicate (Z.to_nat ERASURE_SET_SIZE) true) with (replicate 16 true).
  destruct (coding_blocks_spec 8 0 [] (replicate 16 true)) as (p1 & H1 & Hl1 & Hf1); [done|].
  change (Z.of_nat 0) with 0 in H1. rewrite Z.add_0_r in H1.
  rewrite H1. cbn [mbind res_bind]. destruct (Z.eqb_spec size 0); [lia|].
  destruct (data_blocks_spec 8 0 ([] ++ (coding_block <$> seq 0 8)) p1) as (p2 & H2 & Hl2 & Hf2); [done..|].
  change (Z.of_nat 0) with 0 in H2. rewrite Z.add_0_r in H2.
  rewrite H2. cbn [mbind res_bind take drop app]. f_equal.
  apply list_eq. intros m. rewrite Hf2, Hf1. destruct (decide (m < 16)%nat) as [Hm|Hm].
  - rewrite set_present_lookup, lookup_replicate_2 by done.
    destruct (decide (m < 8)%nat).
    + rewrite (decide_True (P := (0 ≤ m < 8)%nat)) by lia. rewrite decide_False by lia. cbn. by destruct (has_data m).
    + rewrite (decide_False (P := (0 ≤ m < 8)%nat)) by lia. rewrite decide_True by lia.
      cbn. by destruct (has_coding (m - 8)).
  - rewrite !decide_False by lia. rewrite lookup_ge_None_2 by (rewrite length_replicate; lia).
    symmetry. apply lookup_ge_None_2. rewrite set_present_length. lia.
Qed.

(** ** What the crate gives back *)

(** The crate's promise: from eight shards of a codeword it finds all sixteen. *)
Context (codeword : list (list Z) → Prop).
Context (Hcrate : ∀ shards blocks present, codeword shards →
  length shards = 16%nat → length blocks = 16%nat → length present = 16%nat →
  (∀ n, present !! n = Some true → blocks !! n = shards !! n) →
  (8 ≤ length (filter (λ b, b = true) present))%nat → reconstruct blocks present = Some shards).

Definition shards : list (list Z) := shard <$> seq 0 16.

Context (Hword : codeword shards) (Hroom : size ≤ 65296).
Context (Hshard : ∀ j : nat, (j < 16)%nat → Z.of_nat (length (shard j)) = size ∧ Forall is_u8 (shard j)).
Context (Hbits : 0 ≤ e.(em_data) < 2 ^ 8) (Hcbits : 0 ≤ e.(em_coding) < 2 ^ 8).

Definition missing_data : list nat := filter (λ j, has_data j = false) (seq 0 8).
Definition missing_coding : list nat := filter (λ j, has_coding j = false) (seq 0 8).

Lemma missing_count (P : nat → bool) l :
  (length (filter (λ j, P j = true) l) + length (filter (λ j, P j = false) l) = length l)%nat.
Proof.
  induction l as [|x l IH]; [done|]. rewrite !filter_cons. destruct (P x) eqn:HP.
  - rewrite decide_True, decide_False by congruence. cbn. lia.
  - rewrite decide_False, decide_True by congruence. cbn. lia.
Qed.

Lemma num_data_missing : num_data e = 8 - Z.of_nat (length missing_data).
Proof.
  unfold num_data, missing_data. rewrite count_ones_list by done.
  pose proof (missing_count has_data (seq 0 8)) as Hm. rewrite length_seq in Hm. unfold has_data in *. lia.
Qed.

Lemma num_coding_missing : num_coding e = 8 - Z.of_nat (length missing_coding).
Proof.
  unfold num_coding, missing_coding. rewrite count_ones_list by done.
  pose proof (missing_count has_coding (seq 0 8)) as Hm. rewrite length_seq in Hm. unfold has_coding in *. lia.
Qed.

Lemma present_count :
  Z.of_nat (length (filter (λ b, b = true) set_present)) = num_data e + num_coding e.
Proof.
  assert (∀ (P : nat → bool) l, length (filter (λ b, b = true) (P <$> l)) =
    length (filter (λ j, P j = true) l)) as Hf.
  { intros P l. induction l as [|x l IH]; [done|]. rewrite fmap_cons, !filter_cons.
    case_decide; cbn [length]; by rewrite IH. }
  unfold set_present. rewrite filter_app, length_app, !Hf. rewrite num_data_missing, num_coding_missing.
  pose proof (missing_count has_data (seq 0 8)) as Hm. pose proof (missing_count has_coding (seq 0 8)) as Hm'.
  rewrite length_seq in Hm, Hm'. unfold missing_data, missing_coding. lia.
Qed.

(** The erasures, in order *)
Lemma erasures_list :
  filter (λ n, set_present !! n = Some false) (seq 0 (length set_present)) =
  missing_data ++ (Nat.add 8 <$> missing_coding).
Proof.
  rewrite set_present_length. change (seq 0 16) with (seq 0 8 ++ (Nat.add 8 <$> seq 0 8)). rewrite filter_app. f_equal.
  - apply filter_ext_in. intros j [_ Hj]%elem_of_seq.
    rewrite set_present_lookup by lia. rewrite decide_True by lia. split; [by intros [= ->]|by intros ->].
  - unfold missing_coding. assert (∀ l : list nat, (∀ j, j ∈ l → (j < 8)%nat) →
      filter (λ n, set_present !! n = Some false) (Nat.add 8 <$> l) =
      Nat.add 8 <$> filter (λ j, has_coding j = false) l) as Hl.
    { induction l as [|j l IH]; intros Hl; [done|]. rewrite fmap_cons, !filter_cons.
      rewrite IH by set_solver. pose proof (Hl j ltac:(set_solver)).
      rewrite set_present_lookup by lia. rewrite (decide_False (P := (8 + j < 8)%nat)) by lia.
      replace (8 + j - 8)%nat with j by lia.
      destruct (has_coding j); [by rewrite !decide_False by congruence|by rewrite !decide_True by done]. }
    apply Hl. intros j [_ Hj]%elem_of_seq. lia.
Qed.

Lemma le_enc_value n l : length l = n → Forall is_u8 l →
  le_enc n (foldr (λ byte acc, byte + 256 * acc) 0 l) = l.
Proof.
  intros <-. induction 1 as [|x l Hx Hl IH]; [done|]. cbn [length le_enc foldr]. unfold is_u8 in Hx.
  rewrite (Z.mul_comm 256), Z.mod_add, Z.div_add by lia.
  rewrite Z.mod_small, Z.div_small by lia. by rewrite Z.add_0_l, IH.
Qed.

Lemma default_length : Z.of_nat (length Blob_default.(blob_bytes)) = 65408.
Proof. unfold Blob_default. cbn [blob_bytes]. rewrite length_replicate. change BLOB_SIZE with 65408. lia. Qed.

#[local] Opaque Blob_default.

(** A data shard gives its blob back byte for byte. *)
Definition padded (bytes : list Z) : list Z := bytes ++ drop (length bytes) Blob_default.(blob_bytes).

Lemma recovered_data (j : nat) : (j < 8)%nat →
  ∃ b, recovered_blob shards size first_index s j = Ok (inl b) ∧ b.(blob_bytes) = padded (shard j) ∧
    b.(meta_size) = data_size b.
Proof.
  intros Hj. unfold recovered_blob, shards. rewrite list_lookup_fmap, lookup_seq_lt by lia.
  cbn [fmap option_fmap option_map unwrap mbind res_bind].
  destruct (Z.ltb_spec (Z.of_nat j) NUM_DATA); [|unfold NUM_DATA in *; lia].
  destruct (Hshard j ltac:(lia)) as [Hl Hu].
  unfold Blob_new. change BLOB_SIZE with 65408. cbn [Nat.add].
  destruct (Z.leb_spec (Z.of_nat (length (shard j))) 65408); [|lia]. cbn [negb mbind res_bind].
  set (b := mkBlob (padded (shard j)) (data_size (mkBlob (padded (shard j)) 0))).
  assert (bytes_ok b) as Hb.
  { unfold bytes_ok, b, padded. cbn [blob_bytes]. apply Forall_app. split; [done|]. apply Forall_drop, default_bytes. }
  assert (Z.of_nat (length (padded (shard j))) = 65408) as Hpl.
  { unfold padded. rewrite length_app, length_drop. pose proof default_length. lia. }
  assert (is_u64 (data_size b)) as Hd by (by apply (read_u64_range SIZE_RANGE)).
  assert (set_size (u64_sub (data_size b) BLOB_HEADER_SIZE) b = b) as Hsame.
  2:{ exists b. split; [|done].
      change (Ok (E:=BlocktreeError) (inl (B:=Blob) (set_size (u64_sub (data_size b) BLOB_HEADER_SIZE) b)) =
        Ok (inl b)). by rewrite Hsame. }
  unfold set_size. assert (u64_add (u64_sub (data_size b) BLOB_HEADER_SIZE) BLOB_HEADER_SIZE = data_size b) as ->.
  { unfold u64_add, u64_sub. rewrite wrap64_add_l. replace (data_size b - _ + _) with (data_size b) by lia.
    by apply wrap64_small. }
  unfold set_data_size. cbn [blob_bytes meta_size]. unfold b at 4. f_equal. unfold data_size.
  change SIZE_RANGE.1 with 93%nat. change SIZE_RANGE.2 with 8%nat. cbn [Nat.add].
  change (blob_bytes b) with (padded (shard j)) in *.
  assert (length (take 8 (drop 93 (padded (shard j)))) = 8%nat) as H8
    by (rewrite length_take, length_drop; lia).
  rewrite (le_enc_value 8) by (done || by apply Forall_take, Forall_drop).
  rewrite <- (take_drop 93 (padded (shard j))) at 4. f_equal.
  rewrite <- (take_drop 8 (drop 93 (padded (shard j)))) at 2. by rewrite drop_drop.
Qed.

(** A coding shard becomes the blob of its place. *)
Definition coding_blob (b : Blob) (j : nat) : Prop :=
  slot b = s ∧ index b = first_index + Z.of_nat j ∧ blob_size b = size ∧
  take (Z.to_nat size) (blob_data b) = shard (8 + j).

Context (Hslot : is_u64 s).

Lemma recovered_coding (j : nat) : (j < 8)%nat →
  ∃ b, recovered_blob shards size first_index s (8 + j) = Ok (inr b) ∧ coding_blob b j.
Proof.
  intros Hj. unfold recovered_blob, shards. rewrite list_lookup_fmap, lookup_seq_lt by lia.
  cbn [fmap option_fmap option_map unwrap mbind res_bind]. rewrite Nat.add_0_l.
  destruct (Z.ltb_spec (Z.of_nat (8 + j)) NUM_DATA); [unfold NUM_DATA in *; lia|].
  destruct (Hshard (8 + j) ltac:(lia)) as [Hl Hu].
  assert (Z.of_nat (length (blob_data Blob_default)) = 65296) as Hroom'.
  { unfold blob_data. rewrite length_drop. pose proof default_length. change (Z.to_nat BLOB_HEADER_SIZE) with 112%nat. lia. }
  rewrite Hroom', Hl, Z.eqb_refl. destruct (Z.ltb_spec 65296 size); [lia|]. cbn [orb negb].
  eexists. split; [reflexivity|]. unfold NUM_DATA.
  rewrite u64_add_exact by (unfold first_index, u64_max in *; lia).
  rewrite u64_sub_exact by (unfold first_index, is_u64, u64_max in *; lia).
  replace (Z.of_nat (8 + j) + first_index - 8) with (first_index + Z.of_nat j) by lia.
  set (b0 := with_blob_data _ _).
  assert (Z.of_nat (length b0.(blob_bytes)) = 65408) as Hb0.
  { unfold b0, with_blob_data. cbn [blob_bytes]. pose proof default_length.
    rewrite !length_app, length_take, length_drop. change (Z.to_nat BLOB_HEADER_SIZE) with 112%nat. lia. }
  assert (blob_data b0 = shard (8 + j) ++ drop (length (shard (8 + j))) (blob_data Blob_default)) as Hd0.
  { unfold b0, blob_data at 1, with_blob_data. cbn [blob_bytes].
    apply drop_app_length'. rewrite length_take. pose proof default_length.
    change (Z.to_nat BLOB_HEADER_SIZE) with 112%nat. lia. }
  clearbody b0. unfold set_slot, blob_header.set_index.
  set (b1 := write_le SLOT_RANGE s b0). set (b2 := write_le INDEX_RANGE (first_index + Z.of_nat j) b1).
  assert (Z.of_nat (length b1.(blob_bytes)) = 65408) as Hb1 
    by (unfold b1; rewrite length_write_le; [done|by apply full_length; [exact Hb0|cbn; lia]]).
  assert (Z.of_nat (length b2.(blob_bytes)) = 65408) as Hb2 
    by (unfold b2; rewrite length_write_le; [done|by apply full_length; [exact Hb1|cbn; lia]]).
  assert (blob_data b2 = blob_data b0) as Hd2.
  { unfold blob_data, b2, b1. change (Z.to_nat BLOB_HEADER_SIZE) with 112%nat.
    rewrite !drop_write_le by (apply full_length; [exact Hb1 || exact Hb0|cbn; lia] || (cbn; lia)). done. }
  set (b3 := set_size size b2).
  assert (∀ r : range, (r.1 + r.2 ≤ 93)%nat → read_le r b3 = read_le r b2) as Hread.
  { intros r Hr. change (read_le r (write_le SIZE_RANGE (u64_add size BLOB_HEADER_SIZE)
      (mkBlob b2.(blob_bytes) (u64_add size BLOB_HEADER_SIZE))) = read_le r b2).
    rewrite read_write_other; [done| |left; cbn; lia].
    apply (full_length (mkBlob b2.(blob_bytes) _)); [exact Hb2|cbn; lia]. }
  assert (Z.of_nat (length b2.(blob_bytes)) = BLOB_SIZE) as HbZ by (rewrite Hb2; done).
  split_and!.
  - unfold slot. rewrite Hread by (cbn; lia). unfold b2.
    rewrite read_write_other by (apply full_length; [exact Hb1|cbn; lia] || (cbn; lia)).
    unfold b1. apply read_write_same; [apply full_length; [exact Hb0|cbn; lia]|exact Hslot].
  - unfold index. rewrite Hread by (cbn; lia). unfold b2.
    apply read_write_same; [apply full_length; [exact Hb1|cbn; lia]|].
    unfold first_index, u64_max in *. change (256 ^ Z.of_nat INDEX_RANGE.2) with 18446744073709551616. lia.
  - unfold blob_size, b3, set_size. change BLOB_HEADER_SIZE with 112. rewrite u64_add_exact by lia.
    rewrite entry_proofs.data_size_set; [|exact HbZ|unfold is_u64; lia]. cbn [meta_size set_data_size].
    rewrite Z.eqb_refl, andb_true_r. destruct (Z.ltb_spec 112 (size + 112)); lia.
  - unfold b3. rewrite entry_proofs.blob_data_set_size by exact HbZ. rewrite Hd2, Hd0.
    rewrite take_app_length'; [done|]. lia.
Qed.

Lemma reconstruct_all ds cs : (∀ j, j ∈ ds → (j < 8)%nat) → (∀ j, j ∈ cs → (j < 8)%nat) →
  ∃ data coding, reconstruct_erasures shards size first_index s (ds ++ (Nat.add 8 <$> cs)) = Ok (data, coding) ∧
    Forall2 (λ b j, b.(blob_bytes) = padded (shard j) ∧ b.(meta_size) = data_size b) data ds ∧
    Forall2 coding_blob coding cs.
Proof.
  intros Hds Hcs. induction ds as [|j ds IH]; cbn [app].
  - induction cs as [|j cs IH]; [exists [], []; by repeat constructor|].
    rewrite fmap_cons. cbn [reconstruct_erasures].
    destruct (recovered_coding j) as (b & Hb & Hc); [apply Hcs; set_solver|].
    destruct IH as (data & coding & Hr & Hd & Hcod); [set_solver|].
    rewrite Hb, Hr. cbn. exists data, (b :: coding). split_and!; [done..|by constructor].
  - cbn [reconstruct_erasures]. destruct (recovered_data j) as (b & Hb & Hp & Hm); [apply Hds; set_solver|].
    destruct IH as (data & coding & Hr & Hd & Hcod); [set_solver|].
    rewrite Hb, Hr. cbn. exists (b :: data), coding. split_and!; [done|by constructor|done].
Qed.


End Recover.
End erasure_proofs.

(** ** An example: a set of which only the coding blobs are there *)

Module erasure_demo.
Import erasure_proofs.

(** The repetition code stands in for the Reed-Solomon code. *)
Definition repetition (shards : list (list Z)) : Prop := ∃ x, shards = replicate 16 x.

Fixpoint first_present (blocks : list (list Z)) (present : list bool) : option (list Z) :=
  match blocks, present with
  | b :: blocks', p :: present' => if p : bool then Some b else first_present blocks' present'
  | _, _ => None
  end.

Definition repeat_reconstruct (blocks : list (list Z)) (present : list bool)
    : option (list (list Z)) :=
  replicate 16 <$> first_present blocks present.

Lemma first_present_spec blocks : ∀ present x, length blocks = length present →
  (∀ n, present !! n = Some true → blocks !! n = Some x) →
  (0 < length (filter (λ b, b = true) present))%nat → first_present blocks present = Some x.
Proof.
  induction blocks as [|b blocks IH]; intros [|[] present] x Hl Hp Hn; cbn in *; try done; try lia.
  - specialize (Hp 0%nat eq_refl). cbn in Hp. congruence.
  - apply IH; [lia|intros n; apply (Hp (S n))|done].
Qed.

Lemma repetition_crate : ∀ shards blocks present, repetition shards →
  length shards = 16%nat → length blocks = 16%nat → length present = 16%nat →
  (∀ n, present !! n = Some true → blocks !! n = shards !! n) →
  (8 ≤ length (filter (λ b, b = true) present))%nat → repeat_reconstruct blocks present = Some shards.
Proof.
  intros ? blocks present [x ->] _ Hb Hp Hagree Hn. unfold repeat_reconstruct.
  rewrite (first_present_spec blocks present x); [done|congruence| |lia].
  intros n Hn'. rewrite Hagree by done. apply lookup_replicate_2.
  apply lookup_lt_Some in Hn'. lia.
Qed.

Definition demo_shard : list Z := replicate 120 7.
Definition demo_set : ErasureMeta := mkErasureMeta 0 120 0 255.
Definition demo_db : Database :=
  mkDatabase ∅ ∅ (list_to_map ((λ i, ((1, i), replicate 112 0 ++ demo_shard)) <$> seqZ 0 8)) ∅ ∅ ∅.

End erasure_demo.
