(* ===== verification/Gossip.v ===== *)
(** * Gossip: the replicated table and its protocols

    runtime/src/bloom.rs (Bloom filters), core/src/connectionInfo.rs (contact
    information), core/src/propagationValue.rs (replicated values),
    core/src/connectionInfoTable.rs (the table), core/src/pushToGossip.rs,
    core/src/pullFromGossip.rs (the two overlays) and core/src/gossip.rs, which
    ties them together.

    The bits of a filter are a list of booleans.  The tables of the code are
    finite maps; where the code iterates over one, the order of the iteration is
    a parameter.  The clock, the random choices (shuffles, weighted sampling,
    the keys of a filter), SHA-256, Ed25519, the hash function of the filters
    and the logarithm are parameters too. *)

From Stdlib Require Import Floats.SpecFloat.
From S2P Require Import Prelude Interface Float Message Entry.

Import transaction.

(** ** Bloom filters (runtime/src/bloom.rs) *)

Module bloom.

(** [BloomHashIndex]: for types that are byte strings, the FNV hash of the bytes
    with the given key *)
Class BloomHashIndex (T : Type) := hash_at_index : T → Z → Z.

Record Bloom := mkBloom { keys : list Z; bits : list bool }.

Definition Bloom_new (num_bits : Z) (keys : list Z) : Bloom :=
  mkBloom keys (replicate (Z.to_nat num_bits) false).

(** [min_num_bits] and [num_keys] are the roundings of the two logarithmic
    formulas; [gen] is the random generator. *)
Definition Bloom_random (min_num_bits : Z → Z) (num_keys : Z → Z → nat) (gen : nat → list Z)
    (num max_bits : Z) : Bloom :=
  let num_bits := Z.max 1 (Z.min (min_num_bits num) max_bits) in
  Bloom_new num_bits (gen (num_keys num_bits num)).

Definition clear (b : Bloom) : Bloom := mkBloom b.(keys) (replicate (length b.(bits)) false).

Section Bloom.
Context {T : Type} `{BloomHashIndex T} {E : Type}.

(** The remainder by the length 0 panics. *)
Definition pos (b : Bloom) (key : T) (k : Z) : res E nat :=
  match length b.(bits) with
  | O => Panic
  | S _ => Ok (Z.to_nat (hash_at_index key k mod Z.of_nat (length b.(bits))))
  end.

Fixpoint add_keys (ks : list Z) (key : T) (b : Bloom) : res E Bloom :=
  match ks with
  | [] => Ok b
  | k :: ks' =>
      p ← pos b key k;
      add_keys ks' key (mkBloom b.(keys) (<[p := true]> b.(bits)))
  end.
Definition add (key : T) (b : Bloom) : res E Bloom := add_keys b.(keys) key b.

Fixpoint contains_keys (ks : list Z) (b : Bloom) (key : T) : res E bool :=
  match ks with
  | [] => Ok true
  | k :: ks' =>
      p ← pos b key k;
      bit ← unwrap (b.(bits) !! p);
      if (bit : bool) then contains_keys ks' b key else Ok false
  end.
Definition contains (b : Bloom) (key : T) : res E bool := contains_keys b.(keys) b key.

(** A loop of [bloom.add(..)] *)
Fixpoint add_all (l : list T) (b : Bloom) : res E Bloom :=
  match l with
  | [] => Ok b
  | x :: l' => b' ← add x b; add_all l' b'
  end.
End Bloom.
End bloom.
Export bloom (BloomHashIndex, hash_at_index, Bloom, mkBloom).

(** ** Signing (interface/src/signature.rs)

    [Signable] with its two provided methods.  Ed25519 is the parameter [verify]
    of a signature, a key and a message, and [sign_message] of a key pair. *)

Module signable.
Class Signable (A : Type) := {
  pubkey : A → Pubkey;
  signable_data : A → list Z;
  get_signature : A → Signature;
  set_signature : Signature → A → A
}.

Class Ed25519 (K : Type) := {
  sign_message : K → list Z → Signature;
  sig_verify : Signature → Pubkey → list Z → bool
}.

Section Signable.
Context {K A : Type} `{Ed25519 K, Signable A}.
Definition sign (keypair : K) (a : A) : A :=
  set_signature (sign_message keypair (signable_data a)) a.
Definition verify (a : A) : bool := sig_verify (get_signature a) (pubkey a) (signable_data a).
End Signable.
End signable.

(** ** Contact information (core/src/connectionInfo.rs) *)

Module contact_info.

(** [std::net]: an address as its 32-bit or 128-bit number *)
Inductive IpAddr := V4 (a : Z) | V6 (a : Z).
Record SocketAddr := mkSocketAddr { ip : IpAddr; port : Z }.

Global Instance IpAddr_eq_dec : EqDecision IpAddr.
Proof. solve_decision. Defined.
Global Instance SocketAddr_eq_dec : EqDecision SocketAddr.
Proof. solve_decision. Defined.

Definition is_unspecified (a : IpAddr) : bool :=
  match a with V4 n => n =? 0 | V6 n => n =? 0 end.
Definition is_multicast (a : IpAddr) : bool :=
  match a with
  | V4 n => Z.shiftr n 28 =? 14
  | V6 n => Z.shiftr n 120 =? 255
  end.

Definition socketaddr_any : SocketAddr := mkSocketAddr (V4 0) 0.

Record ContactInfo := mkContactInfo {
  ci_id : Pubkey;
  ci_signature : Signature;
  ci_gossip : SocketAddr;
  tvu : SocketAddr;
  tpu : SocketAddr;
  tpu_via_blobs : SocketAddr;
  storage_addr : SocketAddr;
  rpc : SocketAddr;
  rpc_pubsub : SocketAddr;
  ci_wallclock : Z
}.

Definition ContactInfo_default : ContactInfo :=
  mkContactInfo Pubkey_default Signature_default socketaddr_any socketaddr_any socketaddr_any
    socketaddr_any socketaddr_any socketaddr_any socketaddr_any 0.

Definition ContactInfo_new (id : Pubkey)
    (gossip tvu tpu tpu_via_blobs storage_addr rpc rpc_pubsub : SocketAddr) (now : Z)
    : ContactInfo :=
  mkContactInfo id Signature_default gossip tvu tpu tpu_via_blobs storage_addr rpc rpc_pubsub now.

(** 127.0.0.1 *)
Definition localhost (p : Z) : SocketAddr := mkSocketAddr (V4 2130706433) p.

Definition new_localhost (id : Pubkey) (now : Z) : ContactInfo :=
  ContactInfo_new id (localhost 1234) (localhost 1235) (localhost 1236) (localhost 1237)
    (localhost 1238) (localhost 1239) (localhost 1240) now.

Definition new_gossip_entry_point (timestamp : Z) (gossip_addr : SocketAddr) : ContactInfo :=
  let daddr := mkSocketAddr (V4 0) 0 in
  ContactInfo_new Pubkey_default gossip_addr daddr daddr daddr daddr daddr daddr timestamp.

(** [PartialEq] and [Ord] look at the keys only. *)
Definition contact_eq (a b : ContactInfo) : bool := a.(ci_id) =? b.(ci_id).
Definition contact_cmp (a b : ContactInfo) : comparison := a.(ci_id) ?= b.(ci_id).

Definition is_valid_ip (a : IpAddr) : bool := negb (is_unspecified a || is_multicast a).
Definition is_valid_address (a : SocketAddr) : bool :=
  negb (a.(port) =? 0) && is_valid_ip a.(ip).

Definition client_facing_addr (c : ContactInfo) : SocketAddr * SocketAddr := (c.(rpc), c.(tpu)).
Definition valid_client_facing_addr (c : ContactInfo) : option (SocketAddr * SocketAddr) :=
  if is_valid_address c.(rpc) && is_valid_address c.(tpu) then Some (c.(rpc), c.(tpu)) else None.

(** The struct that is serialized to be signed *)
Definition SignData : Type :=
  Pubkey * (SocketAddr * SocketAddr * SocketAddr * SocketAddr * SocketAddr * SocketAddr *
  SocketAddr) * Z.

Definition with_signature (s : Signature) (c : ContactInfo) : ContactInfo :=
  mkContactInfo c.(ci_id) s c.(ci_gossip) c.(tvu) c.(tpu) c.(tpu_via_blobs) c.(storage_addr)
    c.(rpc) c.(rpc_pubsub) c.(ci_wallclock).
Definition with_wallclock (now : Z) (c : ContactInfo) : ContactInfo :=
  mkContactInfo c.(ci_id) c.(ci_signature) c.(ci_gossip) c.(tvu) c.(tpu) c.(tpu_via_blobs)
    c.(storage_addr) c.(rpc) c.(rpc_pubsub) now.

Global Instance ContactInfo_signable `{Bincode SignData} : signable.Signable ContactInfo := {|
  signable.pubkey := ci_id;
  signable.signable_data me :=
    serialize (me.(ci_id),
      (me.(ci_gossip), me.(tvu), me.(tpu), me.(tpu_via_blobs), me.(storage_addr), me.(rpc),
       me.(rpc_pubsub)), me.(ci_wallclock));
  signable.get_signature := ci_signature;
  signable.set_signature := with_signature
|}.
End contact_info.

(** ** Replicated values (core/src/propagationValue.rs) *)

Module crds_value.
Import contact_info.

Record EpochSlots := mkEpochSlots {
  es_from : Pubkey;
  root : Z;
  slots : gset Z;
  es_signature : Signature;
  es_wallclock : Z
}.
Definition EpochSlots_new (from : Pubkey) (root : Z) (slots : gset Z) (wallclock : Z) : EpochSlots :=
  mkEpochSlots from root slots Signature_default wallclock.

Record Vote := mkVote {
  vote_from : Pubkey;
  vote_transaction : Transaction;
  vote_signature : Signature;
  vote_wallclock : Z
}.
Definition Vote_new (from : Pubkey) (tx : Transaction) (wallclock : Z) : Vote :=
  mkVote from tx Signature_default wallclock.

Inductive CrdsValue :=
| ContactInfoValue (c : ContactInfo)
| VoteValue (v : Vote)
| EpochSlotsValue (e : EpochSlots).

Inductive CrdsValueLabel :=
| ContactInfoLabel (p : Pubkey)
| VoteLabel (p : Pubkey)
| EpochSlotsLabel (p : Pubkey).

Global Instance CrdsValueLabel_eq_dec : EqDecision CrdsValueLabel.
Proof. solve_decision. Defined.
Global Instance CrdsValueLabel_countable : Countable CrdsValueLabel.
Proof.
  refine (inj_countable'
    (λ l, match l with
          | ContactInfoLabel p => (0%nat, p) | VoteLabel p => (1%nat, p)
          | EpochSlotsLabel p => (2%nat, p) end)
    (λ x, match x with
          | (0%nat, p) => ContactInfoLabel p | (1%nat, p) => VoteLabel p
          | (_, p) => EpochSlotsLabel p end) _).
  by intros [].
Defined.

Definition label_pubkey (l : CrdsValueLabel) : Pubkey :=
  match l with ContactInfoLabel p => p | VoteLabel p => p | EpochSlotsLabel p => p end.

Definition wallclock (v : CrdsValue) : Z :=
  match v with
  | ContactInfoValue c => c.(ci_wallclock)
  | VoteValue v => v.(vote_wallclock)
  | EpochSlotsValue e => e.(es_wallclock)
  end.
Definition label (v : CrdsValue) : CrdsValueLabel :=
  match v with
  | ContactInfoValue c => ContactInfoLabel c.(ci_id)
  | VoteValue v => VoteLabel v.(vote_from)
  | EpochSlotsValue e => EpochSlotsLabel e.(es_from)
  end.
Definition contact_info (v : CrdsValue) : option ContactInfo :=
  match v with ContactInfoValue c => Some c | _ => None end.
Definition vote (v : CrdsValue) : option Vote :=
  match v with VoteValue v => Some v | _ => None end.
Definition epoch_slots (v : CrdsValue) : option EpochSlots :=
  match v with EpochSlotsValue e => Some e | _ => None end.
Definition record_labels (key : Pubkey) : list CrdsValueLabel :=
  [ContactInfoLabel key; VoteLabel key; EpochSlotsLabel key].

(** The structs that are serialized to be signed *)
Definition SlotsSignData : Type := Z * gset Z * Z.
Definition VoteSignData : Type := Transaction * Z.

Section Signing.
Context `{!Bincode SignData, !Bincode SlotsSignData, !Bincode VoteSignData}.

Global Instance EpochSlots_signable : signable.Signable EpochSlots := {|
  signable.pubkey := es_from;
  signable.signable_data e := serialize (e.(root), e.(slots), e.(es_wallclock));
  signable.get_signature := es_signature;
  signable.set_signature s e := mkEpochSlots e.(es_from) e.(root) e.(slots) s e.(es_wallclock)
|}.
Global Instance Vote_signable : signable.Signable Vote := {|
  signable.pubkey := vote_from;
  signable.signable_data v := serialize (v.(vote_transaction), v.(vote_wallclock));
  signable.get_signature := vote_signature;
  signable.set_signature s v := mkVote v.(vote_from) v.(vote_transaction) s v.(vote_wallclock)
|}.

Context {K : Type} `{signable.Ed25519 K}.

(** [CrdsValue] overrides [sign] and [verify] to forward to the value inside. *)
Definition sign (keypair : K) (v : CrdsValue) : CrdsValue :=
  match v with
  | ContactInfoValue c => ContactInfoValue (signable.sign keypair c)
  | VoteValue v => VoteValue (signable.sign keypair v)
  | EpochSlotsValue e => EpochSlotsValue (signable.sign keypair e)
  end.
Definition verify (v : CrdsValue) : bool :=
  match v with
  | ContactInfoValue c => signable.verify c
  | VoteValue v => signable.verify v
  | EpochSlotsValue e => signable.verify e
  end.
Definition value_pubkey (v : CrdsValue) : Pubkey :=
  match v with
  | ContactInfoValue c => signable.pubkey c
  | VoteValue v => signable.pubkey v
  | EpochSlotsValue e => signable.pubkey e
  end.
Definition get_signature (v : CrdsValue) : Signature :=
  match v with
  | ContactInfoValue c => signable.get_signature c
  | VoteValue v => signable.get_signature v
  | EpochSlotsValue e => signable.get_signature e
  end.
End Signing.
End crds_value.

(** ** The table (core/src/connectionInfoTable.rs) *)

Module crds.
Import crds_value.

Record VersionedCrdsValue := mkVersioned {
  value : CrdsValue;
  insert_timestamp : Z;
  local_timestamp : Z;
  value_hash : Hash
}.

Inductive CrdsError := InsertFailed.

(** [table : IndexMap<CrdsValueLabel, VersionedCrdsValue>] *)
Notation Crds := (gmap CrdsValueLabel VersionedCrdsValue).
Definition Crds_default : Crds := ∅.

(** [PartialOrd] of the versions *)
Definition partial_cmp (a b : VersionedCrdsValue) : option comparison :=
  if bool_decide (label a.(value) ≠ label b.(value)) then None
  else if wallclock a.(value) =? wallclock b.(value) then Some (a.(value_hash) ?= b.(value_hash))
  else Some (wallclock a.(value) ?= wallclock b.(value)).
Definition gt (a b : VersionedCrdsValue) : bool :=
  match partial_cmp a b with Some Gt => true | _ => false end.

Section Crds.
Context (sha256 : list Z → Hash) `{Bincode CrdsValue}.

Definition new_versioned (local_timestamp : Z) (v : CrdsValue) : VersionedCrdsValue :=
  mkVersioned v local_timestamp local_timestamp (sha256 (serialize v)).

Definition insert_versioned (new_value : VersionedCrdsValue)
    : M Crds CrdsError (option VersionedCrdsValue) :=
  table ← getM;
  let l := label new_value.(value) in
  let do_insert :=
    match table !! l with Some current => gt new_value current | None => true end in
  if do_insert then putM (<[l := new_value]> table);; mret (table !! l)
  else throw InsertFailed.

Definition insert (v : CrdsValue) (local_timestamp : Z)
    : M Crds CrdsError (option VersionedCrdsValue) :=
  insert_versioned (new_versioned local_timestamp v).
End Crds.

Definition lookup (c : Crds) (l : CrdsValueLabel) : option CrdsValue := value <$> c !! l.
Definition lookup_versioned (c : Crds) (l : CrdsValueLabel) : option VersionedCrdsValue := c !! l.

Definition update_label_timestamp (l : CrdsValueLabel) (now : Z) (c : Crds) : Crds :=
  alter (λ e, mkVersioned e.(value) e.(insert_timestamp) (Z.max e.(local_timestamp) now)
                e.(value_hash)) l c.
Definition update_record_timestamp (p : Pubkey) (now : Z) (c : Crds) : Crds :=
  foldl (λ c l, update_label_timestamp l now c) c (record_labels p).

(** [order] lists the table as the code iterates over it. *)
Definition find_old_labels (order : Crds → list (CrdsValueLabel * VersionedCrdsValue)) (c : Crds)
    (min_ts : Z) : list CrdsValueLabel :=
  omap (λ '(k, v), if v.(local_timestamp) <=? min_ts then Some k else None) (order c).

Definition remove (l : CrdsValueLabel) (c : Crds) : Crds := delete l c.
End crds.

(** ** Weights (core/src/gossip.rs), in binary32 *)

Module weights.
Notation f32 := spec_float.
Definition f32_of_Z (z : Z) : f32 := binary_normalize 24 128 z 0 false.
Definition f32_mul : f32 → f32 → f32 := SFmul 24 128.
Definition f32_sub : f32 → f32 → f32 := SFsub 24 128.

(** [f32::min] and [f32::max]: a NaN gives the other argument. *)
Definition fmin (x y : f32) : f32 :=
  match x, y with
  | S754_nan, _ => y
  | _, S754_nan => x
  | _, _ => if SFltb x y then x else y
  end.
Definition fmax (x y : f32) : f32 :=
  match x, y with
  | S754_nan, _ => y
  | _, S754_nan => x
  | _, _ => if SFltb x y then y else x
  end.
Definition is_infinite (x : f32) : bool :=
  match x with S754_infinity _ => true | _ => false end.

(** [f64::from(u32::max_value()).min(balance as f64) as f32], then [ln] *)
Definition get_stake (ln : f32 → f32) (id : Pubkey) (stakes : gmap Pubkey Z) : f32 :=
  let balance := f64_of_Z (default 0 (stakes !! id)) in
  let bal := fmin (f64_of_Z u32_max) balance in
  fmax (f32_of_Z 1) (ln (f32_of_Z (f64_as_u64 bal))).

Definition get_weight (max_weight : f32) (time_since_last_selected : Z) (stake : f32) : f32 :=
  let weight := f32_mul (f32_of_Z time_since_last_selected) stake in
  let weight := if is_infinite weight then max_weight else weight in
  fmax (f32_of_Z 1) (fmin weight max_weight).

(** [f32::from(u16::max_value()) - 1.0] *)
Definition max_weight : f32 := f32_sub (f32_of_Z u16_max) (f32_of_Z 1).
End weights.

(** [CrdsGossipError] (core/src/gossipErrorType.rs) *)
Inductive CrdsGossipError :=
| NoPeers
| PushMessageTimeout
| PushMessagePrune
| PushMessageOldVersion
| BadPruneDestination
| PruneMessageTimeout.
Global Instance CrdsGossipError_eq_dec : EqDecision CrdsGossipError.
Proof. solve_decision. Defined.

Definition CRDS_GOSSIP_BLOOM_SIZE : Z := 1000.

(** The parameters of the overlays: hashing, and the choices of the run.
    [values_order], [active_order], [pending_order] and [pushed_order] list the
    maps as they are iterated; [sample] is the weighted sampling, [None] when it
    fails; [random_bloom] is [Bloom::random(_, 0.1, _)]. *)
Class GossipEnv := {
  sha256 : list Z → Hash;
  crds_bincode :: Bincode crds_value.CrdsValue;
  bloom_hash :: BloomHashIndex Z;
  ln : weights.f32 → weights.f32;
  values_order : crds.Crds → list (crds_value.CrdsValueLabel * crds.VersionedCrdsValue);
  active_order : gmap Pubkey Bloom → list (Pubkey * Bloom);
  pending_order : gmap crds_value.CrdsValueLabel Hash → list (crds_value.CrdsValueLabel * Hash);
  pushed_order : gmap Hash Z → list (Hash * Z);
  shuffle : ∀ {A}, list A → list A;
  sample : list (weights.f32 * contact_info.ContactInfo) → option nat;
  min_num_bits : Z → Z;
  num_keys : Z → Z → nat;
  gen_keys : nat → list Z
}.

Definition random_bloom `{GossipEnv} (num max_bits : Z) : Bloom :=
  bloom.Bloom_random min_num_bits num_keys gen_keys num max_bits.

(** ** Push (core/src/pushToGossip.rs) *)

Module push.
Import contact_info crds_value crds weights.

Definition CRDS_GOSSIP_NUM_ACTIVE : Z := 30.
Definition CRDS_GOSSIP_PUSH_FANOUT : Z := 6.
Definition CRDS_GOSSIP_PUSH_MSG_TIMEOUT_MS : Z := 5000.
Definition CRDS_GOSSIP_PRUNE_MSG_TIMEOUT_MS : Z := 500.

Record CrdsGossipPush := mkPush {
  max_bytes : Z;
  active_set : gmap Pubkey Bloom;
  push_messages : gmap CrdsValueLabel Hash;
  pushed_once : gmap Hash Z;
  num_active : Z;
  push_fanout : Z;
  msg_timeout : Z;
  prune_timeout : Z
}.

Definition CrdsGossipPush_default : CrdsGossipPush :=
  mkPush blob.BLOB_DATA_SIZE ∅ ∅ ∅ CRDS_GOSSIP_NUM_ACTIVE CRDS_GOSSIP_PUSH_FANOUT
    CRDS_GOSSIP_PUSH_MSG_TIMEOUT_MS CRDS_GOSSIP_PRUNE_MSG_TIMEOUT_MS.

Definition with_active (a : gmap Pubkey Bloom) (p : CrdsGossipPush) : CrdsGossipPush :=
  mkPush p.(max_bytes) a p.(push_messages) p.(pushed_once) p.(num_active) p.(push_fanout)
    p.(msg_timeout) p.(prune_timeout).
Definition with_messages (m : gmap CrdsValueLabel Hash) (p : CrdsGossipPush) : CrdsGossipPush :=
  mkPush p.(max_bytes) p.(active_set) m p.(pushed_once) p.(num_active) p.(push_fanout)
    p.(msg_timeout) p.(prune_timeout).
Definition with_pushed (o : gmap Hash Z) (p : CrdsGossipPush) : CrdsGossipPush :=
  mkPush p.(max_bytes) p.(active_set) p.(push_messages) o p.(num_active) p.(push_fanout)
    p.(msg_timeout) p.(prune_timeout).

Definition num_pending (p : CrdsGossipPush) : nat := size p.(push_messages).

Section Push.
Context `{GossipEnv}.

Definition process_push_message (v : CrdsValue) (now : Z)
    : M (CrdsGossipPush * Crds) CrdsGossipError (option VersionedCrdsValue) :=
  '(self, table) ← getM;
  if u64_add (wallclock v) self.(msg_timeout) <? now then throw PushMessageTimeout
  else if u64_add now self.(msg_timeout) <? wallclock v then throw PushMessageTimeout
  else
  let l := label v in
  let new_value := new_versioned sha256 now v in
  let h := new_value.(value_hash) in
  match self.(pushed_once) !! h with
  | Some _ => throw PushMessagePrune
  | None =>
      match insert_versioned new_value table with
      | (Ok old, table') =>
          putM (with_pushed (<[h := now]> self.(pushed_once))
                  (with_messages (<[l := h]> self.(push_messages)) self), table');;
          mret old
      | (Err _, _) => throw PushMessageOldVersion
      | (Panic, _) => panic
      end
  end.

(** Has one of the peers no filter, or one that contains the key? *)
Fixpoint peers_failed (active : gmap Pubkey Bloom) (peers : list Pubkey) (origin : Pubkey)
    (failed : bool) : res CrdsGossipError bool :=
  match peers with
  | [] => Ok failed
  | p :: peers' =>
      f ← match active !! p with
          | None => Ok true
          | Some filter => bloom.contains filter origin
          end;
      peers_failed active peers' origin (failed || f)
  end.

(** The loop over the pending messages *)
Fixpoint collect_values (self : CrdsGossipPush) (table : Crds) (peers : list Pubkey) (now : Z)
    (pending : list (CrdsValueLabel * Hash)) (total_bytes : Z) (values : list CrdsValue)
    : res CrdsGossipError (list CrdsValue) :=
  match pending with
  | [] => Ok values
  | (l, h) :: pending' =>
      failed ← peers_failed self.(active_set) peers (label_pubkey l) false;
      if (failed : bool) then collect_values self table peers now pending' total_bytes values
      else
      match lookup_versioned table l with
      | None => collect_values self table peers now pending' total_bytes values
      | Some version =>
          if negb (version.(value_hash) =? h)
          then collect_values self table peers now pending' total_bytes values
          else
          let v := version.(value) in
          if (now <? wallclock v) || (u64_add (wallclock v) self.(msg_timeout) <? now)
          then collect_values self table peers now pending' total_bytes values
          else
          let total_bytes := u64_add total_bytes (serialized_size v) in
          if self.(max_bytes) <? total_bytes then Ok values
          else collect_values self table peers now pending' total_bytes (values ++ [v])
      end
  end.

Definition select_peers (self : CrdsGossipPush) : list Pubkey :=
  let nodes := shuffle (seq 0 (size self.(active_set))) in
  fst <$> take (Z.to_nat self.(push_fanout)) (omap (λ n, active_order self.(active_set) !! n) nodes).

Definition new_push_messages (table : Crds) (now : Z)
    : M CrdsGossipPush CrdsGossipError (list Pubkey * list CrdsValue) :=
  self ← getM;
  let peers := select_peers self in
  values ← liftM (collect_values self table peers now (pending_order self.(push_messages)) 0 []);
  putM (with_messages (foldl (λ m v, delete (label v) m) self.(push_messages) values) self);;
  mret (peers, values).

Fixpoint process_prune_msg (peer : Pubkey) (origins : list Pubkey)
    : M CrdsGossipPush CrdsGossipError unit :=
  match origins with
  | [] => mret tt
  | origin :: origins' =>
      self ← getM;
      match self.(active_set) !! peer with
      | Some p =>
          p' ← liftM (bloom.add origin p);
          putM (with_active (<[peer := p']> self.(active_set)) self)
      | None => mret tt
      end;;
      process_prune_msg peer origins'
  end.

Definition compute_need (num_active active_set_len ratio : Z) : res CrdsGossipError Z :=
  if ratio =? 0 then Panic
  else
  let num := active_set_len / ratio in
  Ok (Z.min num_active (u64_add (u64_sub num_active active_set_len) num)).

Definition push_option (timestamp : Z) (self_id : Pubkey) (stakes : gmap Pubkey Z)
    (kv : CrdsValueLabel * VersionedCrdsValue) : option (f32 * ContactInfo) :=
  match contact_info kv.2.(value) with
  | Some info =>
      if negb (info.(ci_id) =? self_id) && is_valid_address info.(ci_gossip) then
        let since := (u64_sub timestamp kv.2.(local_timestamp) / 1024) mod two32 in
        Some (get_weight max_weight since (get_stake ln info.(ci_id) stakes), info)
      else None
  | None => None
  end.
Definition push_options (timestamp : Z) (table : Crds) (self_id : Pubkey) (stakes : gmap Pubkey Z)
    : list (f32 * ContactInfo) :=
  omap (push_option timestamp self_id stakes) (values_order table).

(** The [while] loop: every round removes an option, so that one round more than
    there are options is enough. *)
Fixpoint choose_items (rounds : nat) (active : gmap Pubkey Bloom) (network_size need : Z)
    (options : list (f32 * ContactInfo)) (new_items : gmap Pubkey Bloom)
    : option (res CrdsGossipError (gmap Pubkey Bloom)) :=
  match rounds with
  | O => None
  | S rounds' =>
      if Z.of_nat (size new_items) <? need then
        match sample options with
        | None => Some (Ok new_items)
        | Some index =>
            match options !! index with
            | None => Some Panic
            | Some (_, item) =>
                let options := delete index options in
                if bool_decide (is_Some (active !! item.(ci_id))) ||
                   bool_decide (is_Some (new_items !! item.(ci_id)))
                then choose_items rounds' active network_size need options new_items
                else
                let size := Z.max CRDS_GOSSIP_BLOOM_SIZE network_size in
                let bloom := random_bloom size (1024 * 8 * 4) in
                choose_items rounds' active network_size need options
                  (<[item.(ci_id) := bloom]> new_items)
            end
        end
      else Some (Ok new_items)
  end.

Definition refresh_push_active_set (timestamp : Z) (table : Crds) (stakes : gmap Pubkey Z)
    (self_id : Pubkey) (network_size ratio : Z) : M CrdsGossipPush CrdsGossipError unit :=
  self ← getM;
  let active := self.(active_set) in
  need ← liftM (compute_need self.(num_active) (Z.of_nat (size active)) ratio);
  let options := push_options timestamp table self_id stakes in
  match options with
  | [] => mret tt
  | _ =>
      new_items ← liftM (default Panic
        (choose_items (S (length options)) active network_size need options ∅));
      let keys := shuffle (fst <$> active_order active) in
      let num := Z.of_nat (length keys) / ratio in
      let kept := foldl (λ a k, delete k a) active (take (Z.to_nat num) keys) in
      putM (with_active (new_items ∪ kept) self)
  end.

Definition purge_old_pending_push_messages (table : Crds) (min_time : Z) (self : CrdsGossipPush)
    : CrdsGossipPush :=
  let old_msgs := omap (λ '(k, h),
    match lookup_versioned table k with
    | Some versioned =>
        if (wallclock versioned.(value) <? min_time) || negb (versioned.(value_hash) =? h)
        then Some k else None
    | None => Some k
    end) (pending_order self.(push_messages)) in
  with_messages (foldl (λ m k, delete k m) self.(push_messages) old_msgs) self.

Definition purge_old_pushed_once_messages (min_time : Z) (self : CrdsGossipPush) : CrdsGossipPush :=
  let old_msgs :=
    omap (λ '(k, v), if v <? min_time then Some k else None) (pushed_order self.(pushed_once)) in
  with_pushed (foldl (λ m k, delete k m) self.(pushed_once) old_msgs) self.
End Push.
End push.

(** ** Pull (core/src/pullFromGossip.rs) *)

Module pull.
Import contact_info crds_value crds weights.

Definition CRDS_GOSSIP_PULL_CRDS_TIMEOUT_MS : Z := 15000.

Record CrdsGossipPull := mkPull {
  pull_request_time : gmap Pubkey Z;
  purged_values : list (Hash * Z);
  max_bytes : Z;
  crds_timeout : Z
}.

Definition CrdsGossipPull_default : CrdsGossipPull :=
  mkPull ∅ [] blob.BLOB_DATA_SIZE CRDS_GOSSIP_PULL_CRDS_TIMEOUT_MS.

Definition with_request_time (t : gmap Pubkey Z) (p : CrdsGossipPull) : CrdsGossipPull :=
  mkPull t p.(purged_values) p.(max_bytes) p.(crds_timeout).
Definition with_purged (l : list (Hash * Z)) (p : CrdsGossipPull) : CrdsGossipPull :=
  mkPull p.(pull_request_time) l p.(max_bytes) p.(crds_timeout).

Definition mark_pull_request_creation_time (from : Pubkey) (now : Z) (self : CrdsGossipPull)
    : CrdsGossipPull :=
  with_request_time (<[from := now]> self.(pull_request_time)) self.

Definition record_old_hash (h : Hash) (timestamp : Z) (self : CrdsGossipPull) : CrdsGossipPull :=
  with_purged (self.(purged_values) ++ [(h, timestamp)]) self.

(** [self.purged_values.push_back(..)] of a value that was replaced *)
Definition record_old (old : option VersionedCrdsValue) (self : CrdsGossipPull) : CrdsGossipPull :=
  match old with
  | Some val => with_purged (self.(purged_values) ++ [(val.(value_hash), val.(local_timestamp))]) self
  | None => self
  end.

Section Pull.
Context `{GossipEnv}.

Definition pull_option (self : CrdsGossipPull) (self_id : Pubkey) (now : Z)
    (stakes : gmap Pubkey Z) (kv : CrdsValueLabel * VersionedCrdsValue)
    : option (f32 * ContactInfo) :=
  match contact_info kv.2.(value) with
  | Some item =>
      if negb (item.(ci_id) =? self_id) && is_valid_address item.(ci_gossip) then
        let req_time := default 0 (self.(pull_request_time) !! item.(ci_id)) in
        let since := (u64_sub now req_time / 1024) mod two32 in
        Some (get_weight max_weight since (get_stake ln item.(ci_id) stakes), item)
      else None
  | None => None
  end.
Definition pull_options (self : CrdsGossipPull) (table : Crds) (self_id : Pubkey) (now : Z)
    (stakes : gmap Pubkey Z) : list (f32 * ContactInfo) :=
  omap (pull_option self self_id now stakes) (values_order table).

Definition build_crds_filter (self : CrdsGossipPull) (table : Crds)
    : res CrdsGossipError Bloom :=
  let num := Z.max CRDS_GOSSIP_BLOOM_SIZE
               (Z.of_nat (length (values_order table) + length self.(purged_values))) in
  let bloom := random_bloom num (4 * 1024 * 8 - 1) in
  bloom ← bloom.add_all ((λ kv, value_hash kv.2) <$> values_order table) bloom;
  bloom.add_all (fst <$> self.(purged_values)) bloom.

Definition new_pull_request (self : CrdsGossipPull) (table : Crds) (self_id : Pubkey) (now : Z)
    (stakes : gmap Pubkey Z) : res CrdsGossipError (Pubkey * Bloom * CrdsValue) :=
  let options := pull_options self table self_id now stakes in
  match options with
  | [] => Err NoPeers
  | _ =>
      filter ← build_crds_filter self table;
      random ← unwrap (sample options);
      self_info ← unwrap (lookup table (ContactInfoLabel self_id));
      '(_, item) ← unwrap (options !! random);
      Ok (item.(ci_id), filter, self_info)
  end.

(** The loop of [filter_crds_values]; [max_bytes] is an [isize]. *)
Fixpoint filter_values (values : list VersionedCrdsValue) (filter : Bloom) (max_bytes : Z)
    (ret : list CrdsValue) : res CrdsGossipError (list CrdsValue) :=
  match values with
  | [] => Ok ret
  | v :: values' =>
      found ← bloom.contains filter v.(value_hash);
      if (found : bool) then filter_values values' filter max_bytes ret
      else
      let max_bytes := max_bytes - serialized_size v.(value) in
      if max_bytes <? 0 then Ok ret
      else filter_values values' filter max_bytes (ret ++ [v.(value)])
  end.
Definition filter_crds_values (self : CrdsGossipPull) (table : Crds) (filter : Bloom)
    : res CrdsGossipError (list CrdsValue) :=
  filter_values (snd <$> values_order table) filter self.(max_bytes) [].

(** [old.ok()] of an insertion *)
Definition insert_ok (v : CrdsValue) (now : Z) (table : Crds)
    : option (option VersionedCrdsValue) * Crds :=
  match insert sha256 v now table with
  | (Ok old, table') => (Some old, table')
  | (_, table') => (None, table')
  end.

Definition process_pull_request (caller : CrdsValue) (filter : Bloom) (now : Z)
    : M (CrdsGossipPull * Crds) CrdsGossipError (list CrdsValue) :=
  '(self, table) ← getM;
  rv ← liftM (filter_crds_values self table filter);
  let key := label_pubkey (label caller) in
  let '(old, table) := insert_ok caller now table in
  putM (record_old (mjoin old) self, update_record_timestamp key now table);;
  mret rv.

Fixpoint insert_response (response : list CrdsValue) (now : Z) (failed : Z)
    (self : CrdsGossipPull) (table : Crds) : Z * CrdsGossipPull * Crds :=
  match response with
  | [] => (failed, self, table)
  | r :: response' =>
      let owner := label_pubkey (label r) in
      match insert_ok r now table with
      | (Some old, table) =>
          insert_response response' now failed (record_old old self)
            (update_record_timestamp owner now table)
      | (None, table) => insert_response response' now (failed + 1) self table
      end
  end.
Definition process_pull_response (from : Pubkey) (response : list CrdsValue) (now : Z)
    (self : CrdsGossipPull) (table : Crds) : Z * CrdsGossipPull * Crds :=
  let '(failed, self, table) := insert_response response now 0 self table in
  (failed, self, update_record_timestamp from now table).

(** [old.iter().filter(..).filter_map(..)]: look up, remove and record *)
Fixpoint purge_labels (labels : list CrdsValueLabel) (table : Crds) (purged : list (Hash * Z))
    : list (Hash * Z) * Crds :=
  match labels with
  | [] => (purged, table)
  | l :: labels' =>
      let rv := (λ val, (val.(value_hash), val.(local_timestamp))) <$> lookup_versioned table l in
      purge_labels labels' (remove l table) (purged ++ option_list rv)
  end.
Definition purge_active (self_id : Pubkey) (min_ts : Z) (self : CrdsGossipPull) (table : Crds)
    : CrdsGossipPull * Crds :=
  let old := find_old_labels values_order table min_ts in
  let '(purged, table) :=
    purge_labels (filter (λ l, label_pubkey l ≠ self_id) old) table [] in
  (with_purged (self.(purged_values) ++ purged) self, table).

(** The number of values at the front that are older *)
Fixpoint older_count (l : list (Hash * Z)) (min_ts : Z) : nat :=
  match l with
  | [] => 0
  | v :: l' => if v.2 <? min_ts then S (older_count l' min_ts) else 0
  end.
Definition purge_purged (min_ts : Z) (self : CrdsGossipPull) : CrdsGossipPull :=
  with_purged (drop (older_count self.(purged_values) min_ts) self.(purged_values)) self.
End Pull.
End pull.

(** ** Gossip (core/src/gossip.rs) *)

Module gossip.
Import contact_info crds_value crds push pull.

Record CrdsGossip := mkGossip {
  g_crds : Crds;
  g_id : Pubkey;
  g_push : CrdsGossipPush;
  g_pull : CrdsGossipPull
}.
Definition CrdsGossip_default : CrdsGossip :=
  mkGossip Crds_default Pubkey_default CrdsGossipPush_default CrdsGossipPull_default.
Definition set_self (id : Pubkey) (g : CrdsGossip) : CrdsGossip :=
  mkGossip g.(g_crds) id g.(g_push) g.(g_pull).
Definition with_crds (c : Crds) (g : CrdsGossip) : CrdsGossip :=
  mkGossip c g.(g_id) g.(g_push) g.(g_pull).
Definition with_push (p : CrdsGossipPush) (g : CrdsGossip) : CrdsGossip :=
  mkGossip g.(g_crds) g.(g_id) p g.(g_pull).
Definition with_pull (p : CrdsGossipPull) (g : CrdsGossip) : CrdsGossip :=
  mkGossip g.(g_crds) g.(g_id) g.(g_push) p.

Section Gossip.
Context `{GossipEnv}.

(** One message after the other; the results are collected. *)
Fixpoint push_all (values : list CrdsValue) (now : Z) (push : CrdsGossipPush) (table : Crds)
    : list (res CrdsGossipError (option VersionedCrdsValue)) * CrdsGossipPush * Crds :=
  match values with
  | [] => ([], push, table)
  | v :: values' =>
      let '(r, (push, table)) := process_push_message v now (push, table) in
      let '(rs, push, table) := push_all values' now push table in
      (r :: rs, push, table)
  end.

(** The origins to prune, and the replaced values that the pull overlay records *)
Fixpoint collect_prunes (results : list (res CrdsGossipError (option VersionedCrdsValue)))
    (labels : list CrdsValueLabel) (pull : CrdsGossipPull) : list Pubkey * CrdsGossipPull :=
  match results, labels with
  | r :: results', d :: labels' =>
      match r with
      | Err PushMessagePrune =>
          let '(prunes, pull) := collect_prunes results' labels' pull in
          (label_pubkey d :: prunes, pull)
      | Ok (Some val) =>
          collect_prunes results' labels'
            (record_old_hash val.(value_hash) val.(local_timestamp) pull)
      | _ => collect_prunes results' labels' pull
      end
  | _, _ => ([], pull)
  end.

Definition process_push_message (values : list CrdsValue) (now : Z) (g : CrdsGossip)
    : list Pubkey * CrdsGossip :=
  let labels := label <$> values in
  let '(results, push, table) := push_all values now g.(g_push) g.(g_crds) in
  let '(prunes, pull) := collect_prunes results labels g.(g_pull) in
  (prunes, mkGossip table g.(g_id) push pull).

Definition new_push_messages (now : Z)
    : M CrdsGossip CrdsGossipError (Pubkey * list Pubkey * list CrdsValue) :=
  g ← getM;
  match push.new_push_messages g.(g_crds) now g.(g_push) with
  | (Ok (peers, values), p) => putM (with_push p g);; mret (g.(g_id), peers, values)
  | (Err e, p) => putM (with_push p g);; throw e
  | (Panic, p) => putM (with_push p g);; panic
  end.

Definition process_prune_msg (peer destination : Pubkey) (origin : list Pubkey)
    (wallclock now : Z) : M CrdsGossip CrdsGossipError unit :=
  g ← getM;
  if u64_add wallclock g.(g_push).(prune_timeout) <? now then throw PruneMessageTimeout
  else if g.(g_id) =? destination then
    match push.process_prune_msg peer origin g.(g_push) with
    | (r, p) => putM (with_push p g);; liftM r
    end
  else throw BadPruneDestination.

Definition refresh_push_active_set (timestamp : Z) (stakes : gmap Pubkey Z)
    : M CrdsGossip CrdsGossipError unit :=
  g ← getM;
  match push.refresh_push_active_set timestamp g.(g_crds) stakes g.(g_id)
          (Z.of_nat (size g.(g_pull).(pull_request_time))) CRDS_GOSSIP_NUM_ACTIVE g.(g_push) with
  | (r, p) => putM (with_push p g);; liftM r
  end.

Definition new_pull_request (now : Z) (stakes : gmap Pubkey Z) (g : CrdsGossip)
    : res CrdsGossipError (Pubkey * Bloom * CrdsValue) :=
  pull.new_pull_request g.(g_pull) g.(g_crds) g.(g_id) now stakes.

Definition mark_pull_request_creation_time (from : Pubkey) (now : Z) (g : CrdsGossip)
    : CrdsGossip :=
  with_pull (pull.mark_pull_request_creation_time from now g.(g_pull)) g.

Definition process_pull_request (caller : CrdsValue) (filter : Bloom) (now : Z)
    : M CrdsGossip CrdsGossipError (list CrdsValue) :=
  g ← getM;
  match pull.process_pull_request caller filter now (g.(g_pull), g.(g_crds)) with
  | (r, (p, c)) => putM (with_pull p (with_crds c g));; liftM r
  end.

Definition process_pull_response (from : Pubkey) (response : list CrdsValue) (now : Z)
    (g : CrdsGossip) : Z * CrdsGossip :=
  let '(failed, p, c) := pull.process_pull_response from response now g.(g_pull) g.(g_crds) in
  (failed, with_pull p (with_crds c g)).

Definition purge (now : Z) (g : CrdsGossip) : CrdsGossip :=
  let timeout := g.(g_push).(msg_timeout) in
  let g := if timeout <? now
           then with_push (purge_old_pending_push_messages g.(g_crds) (u64_sub now timeout)
                             g.(g_push)) g else g in
  let g := if u64_mul 5 timeout <? now
           then with_push (purge_old_pushed_once_messages (u64_sub now (u64_mul 5 timeout))
                             g.(g_push)) g else g in
  let crds_timeout := g.(g_pull).(crds_timeout) in
  let g := if crds_timeout <? now
           then let '(p, c) := purge_active g.(g_id) (u64_sub now crds_timeout) g.(g_pull) g.(g_crds)
                in with_pull p (with_crds c g) else g in
  if u64_mul 5 crds_timeout <? now
  then with_pull (purge_purged (u64_sub now (u64_mul 5 crds_timeout)) g.(g_pull)) g else g.
End Gossip.
End gossip.
