(* ===== verification/GossipProofs.v ===== *)
(** * Gossip: theorems

    Bloom filters have no false negatives; tables that saw the same values agree;
    a pull exchange brings a node up to date with its peer; pushed messages
    respect the limits and the prunes; the active set stays within its bound. *)

From Stdlib Require Import Floats.SpecFloat.
From S2P Require Import Prelude Interface Float Message Entry Gossip.

Import contact_info crds_value crds.

(** ** Bloom filters *)

Module bloom_proofs.
Import bloom.
Section Bloom.
Context {T : Type} `{BloomHashIndex T} {E : Type}.

Definition wf (b : Bloom) : Prop := b.(bits) ≠ [].

(** The bit of a key under one hash function *)
Definition bit_of (n : nat) (key : T) (k : Z) : nat :=
  Z.to_nat (hash_at_index key k mod Z.of_nat n).

Definition marked (b : Bloom) (i : nat) : Prop := b.(bits) !! i = Some true.

Lemma bit_of_lt n key k : (0 < n)%nat → (bit_of n key k < n)%nat.
Proof.
  intros Hn. unfold bit_of. pose proof (Z.mod_pos_bound (hash_at_index key k) (Z.of_nat n)). lia.
Qed.

Lemma pos_ok b key k : wf b → pos (E:=E) b key k = Ok (bit_of (length b.(bits)) key k).
Proof. unfold wf, pos, bit_of. by destruct b.(bits). Qed.

Lemma wf_length b : wf b ↔ (0 < length b.(bits))%nat.
Proof. unfold wf. destruct b.(bits); cbn; split; try done; lia. Qed.

Lemma add_keys_spec key ks : ∀ b, wf b →
  ∃ b', add_keys (E:=E) ks key b = Ok b' ∧ b'.(keys) = b.(keys) ∧
    length b'.(bits) = length b.(bits) ∧
    ∀ i, marked b' i ↔ marked b i ∨ ∃ k, k ∈ ks ∧ i = bit_of (length b.(bits)) key k.
Proof.
  induction ks as [|k ks IH]; intros b Hb; cbn [add_keys].
  { exists b. split_and!; [done..|]. intros i. split; [by left|]. intros [?|(k & Hk & _)]; [done|].
    by apply not_elem_of_nil in Hk. }
  rewrite pos_ok by done. cbn [mbind res_bind]. set (p := bit_of _ key k).
  pose proof (proj1 (wf_length b) Hb) as Hlen. pose proof (bit_of_lt _ key k Hlen) as Hp. fold p in Hp.
  destruct (IH (mkBloom b.(keys) (<[p := true]> b.(bits)))) as (b' & Hadd & Hk & Hl & Hm).
  { apply wf_length. cbn. by rewrite length_insert. }
  exists b'. cbn in Hk, Hl. rewrite length_insert in Hl. split_and!; [done..|].
  intros i. rewrite Hm. cbn. rewrite length_insert. unfold marked at 1. cbn.
  assert (<[p := true]> b.(bits) !! i = Some true ↔ marked b i ∨ i = p) as ->.
  { unfold marked. destruct (decide (i = p)) as [->|Hne].
    - rewrite list_lookup_insert_eq by done. tauto.
    - rewrite list_lookup_insert_ne by done. tauto. }
  setoid_rewrite elem_of_cons. split.
  - intros [[?|?]|(k' & ? & ?)]; [by left|right; exists k; auto|right; exists k'; auto].
  - intros [?|(k' & [->|?] & ?)]; [by left; left|by left; right|right; exists k'; auto].
Qed.

Lemma contains_keys_spec key b ks : wf b →
  ∃ r, contains_keys (E:=E) ks b key = Ok r ∧
    (r = true ↔ ∀ k, k ∈ ks → marked b (bit_of (length b.(bits)) key k)).
Proof.
  intros Hb. induction ks as [|k ks (r & Hr & IH)]; cbn [contains_keys].
  { exists true. split; [done|]. split; [|done]. intros _ k Hk. by apply not_elem_of_nil in Hk. }
  rewrite pos_ok by done. cbn [mbind res_bind].
  destruct (lookup_lt_is_Some_2 b.(bits) (bit_of (length b.(bits)) key k)) as [bit Hbit].
  { by apply bit_of_lt, wf_length. }
  rewrite Hbit. cbn. destruct bit.
  - exists r. split; [done|]. rewrite IH. setoid_rewrite elem_of_cons. split.
    + intros Hall k' [->|?]; [done|auto].
    + auto.
  - exists false. split; [done|]. split; [done|]. intros Hall.
    specialize (Hall k ltac:(set_solver)). unfold marked in Hall. congruence.
Qed.

Lemma add_all_spec l : ∀ b, wf b →
  ∃ b', add_all (E:=E) l b = Ok b' ∧ wf b' ∧ b'.(keys) = b.(keys) ∧
    length b'.(bits) = length b.(bits) ∧
    ∀ i, marked b' i ↔
      marked b i ∨ ∃ y k, y ∈ l ∧ k ∈ b.(keys) ∧ i = bit_of (length b.(bits)) y k.
Proof.
  induction l as [|x l IH]; intros b Hb; cbn [add_all].
  { exists b. split_and!; [done..|]. intros i. split; [by left|].
    intros [?|(y & k & Hy & _)]; [done|]. by apply not_elem_of_nil in Hy. }
  destruct (add_keys_spec x b.(keys) b Hb) as (b1 & H1 & Hk1 & Hl1 & Hm1).
  unfold add. rewrite H1. cbn [mbind res_bind].
  assert (wf b1) as Hb1 by (apply wf_length; rewrite Hl1; by apply wf_length).
  destruct (IH b1 Hb1) as (b2 & H2 & Hw2 & Hk2 & Hl2 & Hm2).
  exists b2. rewrite Hk2, Hl2. split_and!; [done..|]. intros i. rewrite Hm2, Hm1, Hl1, Hk1.
  setoid_rewrite elem_of_cons. split.
  - intros [[?|(k & ? & ?)]|(y & k & ? & ? & ?)]; [by left|right; exists x, k; auto|right; exists y, k; auto].
  - intros [?|(y & k & [->|?] & ? & ?)]; [by left; left|left; right; exists k; auto|right; exists y, k; auto].
Qed.

Lemma new_unmarked n ks i : ¬ marked (Bloom_new n ks) i.
Proof. unfold marked, Bloom_new. cbn. intros [? _]%lookup_replicate. done. Qed.

Lemma random_wf min_bits nk gen num max_bits : wf (Bloom_random min_bits nk gen num max_bits).
Proof. apply wf_length. unfold Bloom_random, Bloom_new. cbn. rewrite length_replicate. lia. Qed.

(** What a filter answers after keys were added to a fresh one: it contains a
    key exactly when each of its bits was set by a key that was added. *)
Lemma filter_contains min_bits nk gen num max_bits l b :
  add_all (E:=E) l (Bloom_random min_bits nk gen num max_bits) = Ok b →
  wf b ∧ ∀ key, ∃ r, contains (E:=E) b key = Ok r ∧
    (r = true ↔ ∀ k, k ∈ b.(keys) → ∃ y k', y ∈ l ∧ k' ∈ b.(keys) ∧
       bit_of (length b.(bits)) key k = bit_of (length b.(bits)) y k').
Proof.
  intros Hadd. destruct (add_all_spec l _ (random_wf min_bits nk gen num max_bits))
    as (b' & Hb' & Hw & Hk & Hl & Hm).
  rewrite Hb' in Hadd. injection Hadd as <-. split; [done|]. intros key.
  destruct (contains_keys_spec key b' b'.(keys) Hw) as (r & Hr & Hiff). exists r. split; [done|].
  rewrite Hiff. apply forall_proper. intros k. apply forall_proper. intros _. rewrite Hm, Hk, Hl.
  split; [|by right]. intros [Hnew|?]; [|done]. by apply new_unmarked in Hnew.
Qed.

(** No false negatives *)
Lemma filter_member min_bits nk gen num max_bits l b key :
  add_all (E:=E) l (Bloom_random min_bits nk gen num max_bits) = Ok b → key ∈ l →
  contains (E:=E) b key = Ok true.
Proof.
  intros Hadd Hin. destruct (filter_contains _ _ _ _ _ _ _ Hadd) as [_ Hc].
  destruct (Hc key) as (r & -> & Hr). f_equal. apply Hr. eauto.
Qed.
End Bloom.
End bloom_proofs.

(** ** The table *)

Module crds_proofs.
Import crds.
Section Crds.
Context (sha : list Z → Hash) `{Bincode CrdsValue}.

Notation hash_of v := (sha (serialize v)).

(** The version of a value: later wallclocks win, then greater hashes. *)
Definition version (v : CrdsValue) : Z * Hash := (wallclock v, hash_of v).
Definition version_lt (a b : Z * Hash) : Prop := a.1 < b.1 ∨ a.1 = b.1 ∧ a.2 < b.2.
Definition version_le (a b : Z * Hash) : Prop := a.1 < b.1 ∨ a.1 = b.1 ∧ a.2 ≤ b.2.

Global Instance version_le_preorder : PreOrder version_le.
Proof. split; [intros [a b]|intros [a b] [c d] [e f]]; unfold version_le; cbn; lia. Qed.
Lemma version_total a b : version_le a b ∨ version_lt b a.
Proof. destruct a, b. unfold version_le, version_lt. cbn. lia. Qed.
Lemma version_lt_le a b : version_lt a b → version_le a b.
Proof. unfold version_lt, version_le. lia. Qed.
Lemma version_lt_not a b : version_lt a b → ¬ version_le b a.
Proof. unfold version_lt, version_le. lia. Qed.
Lemma version_antisym a b : version_le a b → version_le b a → a = b.
Proof. destruct a, b. unfold version_le. cbn. intros. f_equal; lia. Qed.

(** Entries are filed under their label with their hash. *)
Definition table_ok (c : Crds) : Prop :=
  ∀ l e, c !! l = Some e → label e.(value) = l ∧ e.(value_hash) = hash_of e.(value).

(** [c'] has for every label of [c] the same or a later version *)
Definition table_le (c c' : Crds) : Prop :=
  ∀ l v, lookup c l = Some v → ∃ v', lookup c' l = Some v' ∧ version_le (version v) (version v').

Global Instance table_le_preorder : PreOrder table_le.
Proof.
  split.
  - intros c l v Hv. by exists v.
  - intros c1 c2 c3 H12 H23 l v Hv. destruct (H12 _ _ Hv) as (v2 & Hv2 & Hle).
    destruct (H23 _ _ Hv2) as (v3 & Hv3 & Hle'). exists v3. split; [done|]. by etrans.
Qed.

Lemma lookup_entry c l v : table_ok c → lookup c l = Some v →
  label v = l ∧ ∃ e, c !! l = Some e ∧ e.(value) = v ∧ e.(value_hash) = hash_of v.
Proof.
  intros Hc (e & He & ->)%fmap_Some. destruct (Hc _ _ He). split; [done|]. by exists e.
Qed.

Lemma gt_spec now v e : label e.(value) = label v → e.(value_hash) = hash_of e.(value) →
  gt (new_versioned sha now v) e = true ↔ version_lt (version e.(value)) (version v).
Proof.
  intros Hl Hh. unfold gt, partial_cmp, version_lt, version. cbn. rewrite bool_decide_eq_false_2 by congruence.
  destruct (Z.eqb_spec (wallclock v) (wallclock (value e))) as [Heq|Hne].
  - rewrite Hh. destruct (Z.compare_spec (hash_of v) (hash_of (value e))); split; try done; lia.
  - destruct (Z.compare_spec (wallclock v) (wallclock (value e))); split; try done; lia.
Qed.

Lemma insert_eval v now c :
  insert sha v now c =
    if match c !! label v with Some e => gt (new_versioned sha now v) e | None => true end
    then (Ok (c !! label v), <[label v := new_versioned sha now v]> c) else (Err InsertFailed, c).
Proof.
  unfold insert, insert_versioned. rewrite (bind_eval getM _ c c c eq_refl).
  change (label (value (new_versioned sha now v))) with (label v). by case_match.
Qed.

(** An insertion keeps the better version of the two. *)
Lemma insert_spec c now v : table_ok c →
  table_ok (insert sha v now c).2 ∧
  (∀ l, l ≠ label v → (insert sha v now c).2 !! l = c !! l) ∧
  match c !! label v with
  | Some e =>
      (version_lt (version e.(value)) (version v) ∧ (insert sha v now c).1 = Ok (Some e) ∧
         (insert sha v now c).2 !! label v = Some (new_versioned sha now v)) ∨
      (version_le (version v) (version e.(value)) ∧
         insert sha v now c = (Err InsertFailed, c))
  | None =>
      (insert sha v now c).1 = Ok None ∧
      (insert sha v now c).2 !! label v = Some (new_versioned sha now v)
  end.
Proof.
  intros Hc. rewrite insert_eval.
  assert (table_ok (<[label v := new_versioned sha now v]> c)) as Hins.
  { intros l e. destruct (decide (l = label v)) as [->|Hne].
    - rewrite lookup_insert_eq. by intros [= <-].
    - rewrite lookup_insert_ne by done. apply Hc. }
  destruct (c !! label v) as [e|] eqn:He.
  - destruct (Hc _ _ He) as [Hl Hh]. pose proof (gt_spec now v e Hl Hh) as Hgt.
    destruct (gt _ e) eqn:Hb; cbn [fst snd].
    + split_and!; [done|intros l Hl'; by rewrite lookup_insert_ne|].
      left. split_and!; [by apply Hgt|done|by rewrite lookup_insert_eq].
    + split_and!; [done..|]. right. split; [|done].
      destruct (version_total (version v) (version (value e))) as [?|?%Hgt]; [done|congruence].
  - cbn [fst snd]. split_and!; [done|intros l Hl'; by rewrite lookup_insert_ne|done|by rewrite lookup_insert_eq].
Qed.

Lemma insert_table_ok c now v : table_ok c → table_ok (insert sha v now c).2.
Proof. intros Hc. apply (insert_spec c now v Hc). Qed.

(** After an insertion the table has at least the version that was inserted,
    and at least what it had. *)
Lemma insert_gives c now v : table_ok c →
  (∃ v', lookup (insert sha v now c).2 (label v) = Some v' ∧ version_le (version v) (version v')) ∧
  table_le c (insert sha v now c).2.
Proof.
  intros Hc. destruct (insert_spec c now v Hc) as (_ & Hother & Hspec).
  destruct (c !! label v) as [e|] eqn:He.
  - destruct Hspec as [(Hlt & _ & Hnew)|(Hle & ->)].
    + split.
      * exists v. split; [|done]. unfold lookup. by rewrite Hnew.
      * intros l w. destruct (decide (l = label v)) as [->|Hne].
        -- unfold lookup. rewrite He, Hnew. intros [= <-]. exists v. split; [done|]. by apply version_lt_le.
        -- unfold lookup. rewrite Hother by done. by exists w.
    + cbn. split; [|done]. exists e.(value). unfold lookup. by rewrite He.
  - destruct Hspec as [_ Hnew]. split.
    + exists v. split; [|done]. unfold lookup. by rewrite Hnew.
    + intros l w. destruct (decide (l = label v)) as [->|Hne].
      * unfold lookup. by rewrite He.
      * unfold lookup. rewrite Hother by done. by exists w.
Qed.

(** Everything in the table after an insertion was there or is the new value. *)
Lemma insert_from c now v l w : table_ok c → lookup (insert sha v now c).2 l = Some w →
  lookup c l = Some w ∨ w = v ∧ l = label v.
Proof.
  intros Hc. destruct (insert_spec c now v Hc) as (_ & Hother & Hspec). unfold lookup.
  destruct (decide (l = label v)) as [->|Hne]; [|rewrite Hother by done; by left].
  destruct (c !! label v) as [e|] eqn:He.
  - destruct Hspec as [(_ & _ & ->)|(_ & ->)]; [|cbn; rewrite He; by left]. cbn. intros [= <-]. by right.
  - destruct Hspec as [_ ->]. cbn. intros [= <-]. by right.
Qed.

(** A history of insertions with their local times *)
Definition insert_all (xs : list (CrdsValue * Z)) (c : Crds) : Crds :=
  foldl (λ c x, (insert sha x.1 x.2 c).2) c xs.

Lemma insert_all_spec xs : ∀ c, table_ok c →
  table_ok (insert_all xs c) ∧ table_le c (insert_all xs c) ∧
  (∀ x, x ∈ xs → ∃ v', lookup (insert_all xs c) (label x.1) = Some v' ∧
     version_le (version x.1) (version v')) ∧
  (∀ l w, lookup (insert_all xs c) l = Some w →
     lookup c l = Some w ∨ label w = l ∧ w ∈ xs.*1).
Proof.
  induction xs as [|[v now] xs IH]; intros c Hc; cbn [insert_all foldl].
  { split_and!; [done..| |by left]. intros x Hx. by apply not_elem_of_nil in Hx. }
  destruct (insert_gives c now v Hc) as [Hgot Hle].
  destruct (IH _ (insert_table_ok c now v Hc)) as (Hok & Hle' & Hall & Hfrom). split_and!; [done|by etrans| |].
  - intros x [->|Hx]%elem_of_cons; [|by apply Hall]. cbn. destruct Hgot as (v1 & Hv1 & Hge).
    destruct (Hle' _ _ Hv1) as (v2 & Hv2 & Hge'). exists v2. split; [done|]. by etrans.
  - intros l w [Hold|[? ?]]%Hfrom; [|right; set_solver].
    destruct (insert_from c now v l w Hc Hold) as [?|[-> ->]]; [by left|]. right. set_solver.
Qed.

(** The hash tells the values apart. *)
Definition hash_injective (vs : list CrdsValue) : Prop :=
  ∀ v w, v ∈ vs → w ∈ vs → hash_of v = hash_of w → v = w.

(** The winner for a label among the values of a list *)
Definition winner (l : CrdsValueLabel) (vs : list CrdsValue) (w : CrdsValue) : Prop :=
  w ∈ vs ∧ label w = l ∧ ∀ v, v ∈ vs → label v = l → version_le (version v) (version w).

Lemma insert_all_winner xs l w :
  hash_injective xs.*1 →
  lookup (insert_all xs Crds_default) l = Some w ↔ winner l xs.*1 w.
Proof.
  intros Hinj. destruct (insert_all_spec xs Crds_default) as (Hok & _ & Hall & Hfrom); [done|].
  assert (∀ v, v ∈ xs.*1 → label v = l → ∃ v', lookup (insert_all xs Crds_default) l = Some v' ∧
    version_le (version v) (version v')) as Hgot.
  { intros v ([v' t] & -> & Hx)%list_elem_of_fmap <-. by apply (Hall (v', t)). }
  split.
  - intros Hw. destruct (Hfrom _ _ Hw) as [?|[Hl Hin]]; [done|]. split_and!; [done..|].
    intros v Hv Hlv. destruct (Hgot v Hv Hlv) as (v' & Hv' & Hle). congruence.
  - intros (Hin & Hl & Hmax). destruct (Hgot w Hin Hl) as (v' & Hv' & Hle). rewrite Hv'. f_equal.
    destruct (Hfrom _ _ Hv') as [?|[Hl' Hin']]; [done|].
    pose proof (version_antisym _ _ (Hmax v' Hin' Hl') Hle) as [= _ Heq]. by apply Hinj.
Qed.

(** C17. Tables converge.  Two nodes that were given the same values, in whatever
    order, however often and at whatever local times, have the same values in
    their tables: for every label the value with the latest wallclock and, among
    these, the greatest hash, and nothing for a label that no value has. *)
Theorem crds_converges (xs ys : list (CrdsValue * Z))
    (Hsame : ∀ v, v ∈ xs.*1 ↔ v ∈ ys.*1) (Hinj : hash_injective xs.*1) :
  ∀ l, lookup (insert_all xs Crds_default) l = lookup (insert_all ys Crds_default) l ∧
    (∀ w, lookup (insert_all xs Crds_default) l = Some w ↔ winner l xs.*1 w) ∧
    (lookup (insert_all xs Crds_default) l = None ↔ ∀ v, v ∈ xs.*1 → label v ≠ l).
Proof.
  intros l.
  assert (hash_injective ys.*1) as Hinj' by (intros v w Hv Hw; apply Hinj; by apply Hsame).
  assert (∀ w, winner l xs.*1 w ↔ winner l ys.*1 w) as Hwin.
  { intros w. unfold winner. setoid_rewrite Hsame. done. }
  split_and!.
  - apply option_eq. intros w. by rewrite !insert_all_winner.
  - intros w. by apply insert_all_winner.
  - destruct (insert_all_spec xs Crds_default) as (_ & _ & Hall & Hfrom); [done|]. split.
    + intros Hnone v ([v' t] & -> & Hx)%list_elem_of_fmap <-. destruct (Hall _ Hx) as (? & Hv & _).
      cbn in Hv, Hnone. congruence.
    + intros Hno. destruct (lookup (insert_all xs _) l) as [w|] eqn:Hw; [|done].
      destruct (Hfrom _ _ Hw) as [?|[Hl Hin]]; [done|]. by destruct (Hno w Hin).
Qed.

(** Timestamps do not change the values. *)
Lemma update_label_lookup l now c l' :
  lookup (update_label_timestamp l now c) l' = lookup c l'.
Proof.
  unfold lookup, update_label_timestamp. destruct (decide (l' = l)) as [->|Hne].
  - rewrite lookup_alter_eq. by destruct (c !! l).
  - by rewrite lookup_alter_ne.
Qed.
Lemma update_label_ok l now c : table_ok c → table_ok (update_label_timestamp l now c).
Proof.
  intros Hc l' e. unfold update_label_timestamp. destruct (decide (l' = l)) as [->|Hne].
  - rewrite lookup_alter_eq. destruct (c !! l) as [e'|] eqn:He; [|done]. cbn. intros [= <-]. cbn. by apply Hc.
  - rewrite lookup_alter_ne by done. apply Hc.
Qed.
Lemma update_record_lookup p now c l : lookup (update_record_timestamp p now c) l = lookup c l.
Proof. unfold update_record_timestamp. cbn [foldl record_labels]. by rewrite !update_label_lookup. Qed.
Lemma update_record_ok p now c : table_ok c → table_ok (update_record_timestamp p now c).
Proof. intros Hc. unfold update_record_timestamp. cbn [foldl record_labels]. by repeat apply update_label_ok. Qed.
End Crds.
End crds_proofs.

(** ** Weights *)

Module weight_proofs.
Import weights.

Definition at_least_one (w : f32) : Prop := SFleb (f32_of_Z 1) w = true.

Lemma ltb_leb x y : SFltb x y = true → SFleb x y = true.
Proof. unfold SFltb, SFleb. by destruct (SFcompare x y) as [[]|]. Qed.

Lemma fmax_one x : at_least_one (fmax (f32_of_Z 1) x).
Proof.
  unfold at_least_one, fmax. set (one := f32_of_Z 1). vm_compute in one. unfold one.
  destruct x; try done; case_match; try done; by apply ltb_leb.
Qed.

Lemma fmin_max x : SFleb (fmin x max_weight) max_weight = true.
Proof.
  unfold fmin. set (m := max_weight). vm_compute in m. unfold m.
  destruct x; try done; case_match; try done; by apply ltb_leb.
Qed.

(** Every weight is between 1 and 65534, whatever the time, the stake and the
    result of the logarithm. *)
Lemma get_weight_range since stake :
  at_least_one (get_weight max_weight since stake) ∧
  SFleb (get_weight max_weight since stake) max_weight = true.
Proof.
  unfold get_weight. split; [apply fmax_one|].
  pose proof (fmin_max (if is_infinite (f32_mul (f32_of_Z since) stake) then max_weight
                        else f32_mul (f32_of_Z since) stake)) as Hm.
  set (x := fmin _ max_weight) in *. clearbody x. unfold fmax.
  set (one := f32_of_Z 1). vm_compute in one. unfold one.
  destruct x; try done; case_match; done.
Qed.
End weight_proofs.

(** ** What the environment promises *)

Class GossipLaws (env : GossipEnv) := {
  values_perm c : values_order c ≡ₚ map_to_list c;
  active_perm m : active_order m ≡ₚ map_to_list m;
  pending_perm m : pending_order m ≡ₚ map_to_list m;
  pushed_perm m : pushed_order m ≡ₚ map_to_list m;
  shuffle_perm A (l : list A) : shuffle l ≡ₚ l;
  sample_lt l i : sample l = Some i → (i < length l)%nat;
  sample_some l : l ≠ [] → Forall (λ x, weight_proofs.at_least_one x.1) l → is_Some (sample l)
}.

(** ** Pull *)

Module pull_proofs.
Import weights pull bloom_proofs crds_proofs.
Section Pull.
Context {env : GossipEnv} {laws : GossipLaws env}.

Notation hash_of v := (sha256 (serialize (v : CrdsValue))).
Notation table_ok := (table_ok sha256).
Notation version := (version sha256).
Notation table_le := (table_le sha256).

Lemma elem_of_values c l e : (l, e) ∈ values_order c ↔ c !! l = Some e.
Proof. by rewrite values_perm, elem_of_map_to_list. Qed.

Lemma add_all_app {T} `{BloomHashIndex T} {E} (l1 l2 : list T) : ∀ b,
  (b' ← bloom.add_all (E:=E) l1 b; bloom.add_all l2 b') = bloom.add_all (E:=E) (l1 ++ l2) b.
Proof.
  induction l1 as [|x l1 IH]; intros b; [done|]. cbn [app bloom.add_all].
  destruct (bloom.add x b); cbn; [apply IH|done..].
Qed.

(** The hashes that a node puts in its filter *)
Definition known (self : CrdsGossipPull) (table : Crds) : list Hash :=
  ((λ kv, value_hash kv.2) <$> values_order table) ++ (fst <$> self.(purged_values)).

Lemma elem_of_known self table h :
  h ∈ known self table ↔ (∃ l e, table !! l = Some e ∧ h = e.(value_hash)) ∨
                          h ∈ fst <$> self.(purged_values).
Proof.
  unfold known. rewrite elem_of_app, list_elem_of_fmap. apply or_iff_compat_r. split.
  - intros ([l e] & -> & He%elem_of_values). by exists l, e.
  - intros (l & e & He & ->). exists (l, e). by rewrite elem_of_values.
Qed.

Lemma build_filter_ok self table : ∃ f, build_crds_filter self table = Ok f ∧ wf f ∧
  (∀ h, h ∈ known self table → bloom.contains (E:=CrdsGossipError) f h = Ok true).
Proof.
  unfold build_crds_filter. rewrite add_all_app.
  match goal with |- context [bloom.add_all _ ?b0] => set (b := b0) end.
  destruct (add_all_spec (E:=CrdsGossipError) (known self table) b) as (f & Hf & Hw & _); [apply random_wf|].
  exists f. unfold known in Hf. split_and!; [done..|]. intros h Hh. by eapply filter_member.
Qed.

(** Does the filter claim to have the value? *)
Definition found (f : Bloom) (h : Hash) : bool :=
  match bloom.contains (E:=CrdsGossipError) f h with Ok true => true | _ => false end.
Lemma contains_found f h : wf f → bloom.contains f h = Ok (E:=CrdsGossipError) (found f h).
Proof.
  intros Hw. unfold found. destruct (contains_keys_spec (E:=CrdsGossipError) h f (bloom.keys f) Hw) as (r & Hr & _).
  unfold bloom.contains. rewrite Hr. by destruct r.
Qed.

(** The values that the filter does not claim, and how many of them fit *)
Definition unmatched (f : Bloom) (vs : list VersionedCrdsValue) : list CrdsValue :=
  value <$> filter (λ v, found f v.(value_hash) = false) vs.
Fixpoint fitting (max : Z) (vs : list CrdsValue) : list CrdsValue :=
  match vs with
  | [] => []
  | v :: vs' =>
      if max - serialized_size v <? 0 then [] else v :: fitting (max - serialized_size v) vs'
  end.
Definition total_size (vs : list CrdsValue) : Z := Zsum (serialized_size <$> vs).

Lemma total_size_cons v vs : total_size (v :: vs) = serialized_size v + total_size vs.
Proof. done. Qed.
Lemma total_size_app vs ws : total_size (vs ++ ws) = total_size vs + total_size ws.
Proof. unfold total_size. by rewrite fmap_app, Zsum_app. Qed.
Lemma size_nonneg (v : CrdsValue) : 0 ≤ serialized_size v.
Proof. unfold serialized_size. lia. Qed.
Lemma total_size_nonneg vs : 0 ≤ total_size vs.
Proof.
  induction vs as [|v vs IH]; [done|]. rewrite total_size_cons. pose proof (size_nonneg v). lia.
Qed.

Lemma filter_values_spec f vs : wf f → ∀ max ret,
  filter_values vs f max ret = Ok (ret ++ fitting max (unmatched f vs)).
Proof.
  intros Hw. induction vs as [|v vs IH]; intros max ret; cbn [filter_values].
  { by rewrite app_nil_r. }
  rewrite contains_found by done. cbn [mbind res_bind]. unfold unmatched. rewrite filter_cons.
  destruct (found f v.(value_hash)).
  - rewrite decide_False by done. apply IH.
  - rewrite decide_True by done. cbn [fmap list_fmap fitting]. case_match; [by rewrite app_nil_r|].
    rewrite IH, <- app_assoc. done.
Qed.

Lemma fitting_prefix vs : ∀ max, fitting max vs `prefix_of` vs.
Proof.
  induction vs as [|v vs IH]; intros max; cbn [fitting]; [done|]. case_match; [apply prefix_nil|].
  apply prefix_cons, IH.
Qed.
Lemma fitting_size vs : ∀ max, 0 ≤ max → total_size (fitting max vs) ≤ max.
Proof.
  induction vs as [|v vs IH]; intros max Hmax; cbn [fitting]; [done|].
  destruct (Z.ltb_spec (max - serialized_size v) 0) as [_|Hle]; [done|].
  rewrite total_size_cons. specialize (IH _ Hle). lia.
Qed.
Lemma fitting_all vs : ∀ max, total_size vs ≤ max → fitting max vs = vs.
Proof.
  induction vs as [|v vs IH]; intros max Hmax; cbn [fitting]; [done|].
  rewrite total_size_cons in Hmax. pose proof (total_size_nonneg vs).
  destruct (Z.ltb_spec (max - serialized_size v) 0); [lia|]. f_equal. apply IH. lia.
Qed.

Lemma elem_of_unmatched f table v : table_ok table →
  v ∈ unmatched f (snd <$> values_order table) ↔
  lookup table (label v) = Some v ∧ found f (hash_of v) = false.
Proof.
  intros Hok. unfold unmatched. rewrite list_elem_of_fmap. split.
  - intros (e & -> & [Hf ([l e'] & -> & He%elem_of_values)%list_elem_of_fmap]%list_elem_of_filter).
    destruct (Hok _ _ He) as [Hl Hh]. cbn in *. rewrite <- Hh. split; [|done]. unfold lookup. by rewrite Hl, He.
  - unfold lookup. destruct (table !! label v) as [e|] eqn:He; [|by intros [? _]]. cbn. intros [[= Hv] Hf].
    destruct (Hok _ _ He) as [_ Hh]. exists e. split; [done|]. apply list_elem_of_filter.
    split; [by rewrite Hh, Hv|]. apply list_elem_of_fmap. exists (label v, e). by rewrite elem_of_values.
Qed.

(** One insertion of the overlay *)
Lemma insert_ok_snd v now table : (insert_ok v now table).2 = (insert sha256 v now table).2.
Proof. unfold insert_ok. by destruct (insert sha256 v now table) as [[]]. Qed.

Lemma insert_response_spec response now : ∀ failed self table failed' self' table',
  table_ok table →
  insert_response response now failed self table = (failed', self', table') →
  table_ok table' ∧ table_le table table' ∧
  (∀ v, v ∈ response → ∃ v', lookup table' (label v) = Some v' ∧
     version_le (version v) (version v')) ∧
  (∀ l v, lookup table' l = Some v → lookup table l = Some v ∨ v ∈ response) ∧
  failed ≤ failed' ≤ failed + Z.of_nat (length response).
Proof.
  induction response as [|r response IH]; intros failed self table failed' self' table' Hok; cbn [insert_response].
  { intros [= <- <- <-]. split_and!; [done..| |by left|cbn; lia|cbn; lia].
    intros v Hv. by apply not_elem_of_nil in Hv. }
  pose proof (insert_ok_snd r now table) as Hsnd. pose proof (insert_gives sha256 table now r Hok) as [Hgot Hle].
  pose proof (λ l w, insert_from sha256 table now r l w Hok) as Hfrom.
  pose proof (insert_table_ok sha256 table now r Hok) as Hok1.
  destruct (insert_ok r now table) as [old table1] eqn:Hins. cbn in Hsnd. subst table1.
  set (table1 := (insert sha256 r now table).2) in *.
  assert (∀ t failed1 self1, table_ok t → (∀ l, lookup t l = lookup table1 l) →
    (failed ≤ failed1 ≤ failed + 1) →
    insert_response response now failed1 self1 t = (failed', self', table') →
    table_ok table' ∧ table_le table table' ∧
    (∀ v, v ∈ r :: response → ∃ v', lookup table' (label v) = Some v' ∧
       version_le (version v) (version v')) ∧
    (∀ l v, lookup table' l = Some v → lookup table l = Some v ∨ v ∈ r :: response) ∧
    failed ≤ failed' ≤ failed + Z.of_nat (length (r :: response))) as Hrest.
  { intros t failed1 self1 Ht Heq Hfl Hrun. destruct (IH _ _ _ _ _ _ Ht Hrun) as (H1 & H2 & H3 & H4 & H5).
    assert (table_le table1 table') as Hle1.
    { intros l v Hv. apply H2. by rewrite Heq. }
    split_and!; [done|by etrans| | |cbn [length]; lia..].
    - intros v [->|Hv]%elem_of_cons; [|by apply H3]. destruct Hgot as (v1 & Hv1 & Hge).
      destruct (Hle1 _ _ Hv1) as (v2 & Hv2 & Hge2). exists v2. split; [done|]. by etrans.
    - intros l v [Hv|?]%H4; [|right; set_solver]. rewrite Heq in Hv.
      apply Hfrom in Hv as [?|[-> _]]; [by left|right; set_solver]. }
  destruct old as [old|].
  - apply Hrest; [by apply update_record_ok|intros l; apply update_record_lookup|lia].
  - apply Hrest; [done..|lia].
Qed.

Lemma process_pull_request_spec caller f now pb tb : table_ok tb → wf f →
  ∃ pb' tb',
    process_pull_request caller f now (pb, tb) =
      (Ok (fitting pb.(max_bytes) (unmatched f (snd <$> values_order tb))), (pb', tb')) ∧
    table_ok tb' ∧ table_le tb tb' ∧
    ∃ v', lookup tb' (label caller) = Some v' ∧ version_le (version caller) (version v').
Proof.
  intros Hok Hw. unfold process_pull_request. rewrite (bind_eval getM _ (pb, tb) _ _ eq_refl).
  unfold filter_crds_values. rewrite filter_values_spec by done. cbn [app].
  rewrite (bind_eval (liftM _) _ _ _ (pb, tb) eq_refl).
  pose proof (insert_ok_snd caller now tb) as Hsnd.
  destruct (insert_ok caller now tb) as [old t1] eqn:Hins. cbn in Hsnd. subst t1.
  destruct (insert_gives sha256 tb now caller Hok) as [(v' & Hv' & Hge) Hle].
  eexists _, _. split_and!; [done| | |].
  - by apply update_record_ok, insert_table_ok.
  - intros l v Hv. rewrite update_record_lookup. by apply Hle.
  - exists v'. by rewrite update_record_lookup.
Qed.

Lemma process_pull_response_spec from response now self table : table_ok table →
  ∃ failed self' table', process_pull_response from response now self table = (failed, self', table') ∧
  table_ok table' ∧ table_le table table' ∧
  (∀ v, v ∈ response → ∃ v', lookup table' (label v) = Some v' ∧
     version_le (version v) (version v')) ∧
  (∀ l v, lookup table' l = Some v → lookup table l = Some v ∨ v ∈ response).
Proof.
  intros Hok. unfold process_pull_response.
  destruct (insert_response response now 0 self table) as [[failed self'] t1] eqn:Hrun.
  destruct (insert_response_spec _ _ _ _ _ _ _ _ Hok Hrun) as (H1 & H2 & H3 & H4 & _).
  eexists _, _, _. split_and!; [done|by apply update_record_ok| | |].
  - intros l v Hv. rewrite update_record_lookup. by apply H2.
  - intros v Hv. rewrite update_record_lookup. by apply H3.
  - intros l v. rewrite update_record_lookup. apply H4.
Qed.


End Pull.
End pull_proofs.

(** ** Push *)

Module push_proofs.
Import weights push bloom_proofs crds_proofs pull_proofs.
Section Push.
Context {env : GossipEnv} {laws : GossipLaws env}.

Notation hash_of v := (sha256 (serialize (v : CrdsValue))).
Notation table_ok := (table_ok sha256).
Notation version := (version sha256).
Notation table_le := (table_le sha256).

Definition filters_ok (active : gmap Pubkey Bloom) : Prop := map_Forall (λ _, wf) active.

(** No selected peer has pruned the origin. *)
Definition wanted (active : gmap Pubkey Bloom) (peers : list Pubkey) (origin : Pubkey) : bool :=
  forallb (λ p, match active !! p with Some b => negb (found b origin) | None => false end) peers.

Lemma peers_failed_spec active peers origin : filters_ok active → ∀ failed,
  peers_failed active peers origin failed = Ok (failed || negb (wanted active peers origin)).
Proof.
  intros Hw. induction peers as [|p peers IH]; intros failed; cbn; [by rewrite orb_false_r|].
  destruct (active !! p) as [b|] eqn:Hb.
  - rewrite contains_found by (by eapply Hw). cbn [mbind res_bind]. rewrite IH. f_equal.
    unfold wanted. destruct failed, (found b origin); done.
  - cbn. rewrite IH. f_equal. unfold wanted. by destruct failed.
Qed.

Lemma wanted_spec active peers origin : wanted active peers origin = true ↔
  ∀ p, p ∈ peers → ∃ b, active !! p = Some b ∧ found b origin = false.
Proof.
  unfold wanted. rewrite forallb_forall. setoid_rewrite <- list_elem_of_In.
  apply forall_proper. intros p. apply forall_proper. intros _. destruct (active !! p) as [b|].
  - rewrite negb_true_iff. split; [by exists b|]. by intros (? & [= <-] & ?).
  - split; [done|]. by intros (? & ? & _).
Qed.

(** What becomes of a pending message *)
Definition to_send (self : CrdsGossipPush) (table : Crds) (peers : list Pubkey) (now : Z)
    (m : CrdsValueLabel * Hash) : option CrdsValue :=
  if wanted self.(active_set) peers (label_pubkey m.1) then
    e ← table !! m.1;
    let v := e.(value) in
    if (e.(value_hash) =? m.2) && (wallclock v <=? now) &&
       (now <=? u64_add (wallclock v) self.(msg_timeout))
    then Some v else None
  else None.

(** Sizes that do not overflow when they are added up *)
Definition sizes_ok (table : Crds) : Prop :=
  map_Forall (λ _ e, serialized_size e.(value) < 2 ^ 63) table.

Lemma collect_values_spec self table peers now pending :
  filters_ok self.(active_set) → sizes_ok table → self.(max_bytes) < 2 ^ 63 →
  ∀ total values, 0 ≤ total ≤ self.(max_bytes) →
  collect_values self table peers now pending total values =
    Ok (values ++ fitting (self.(max_bytes) - total) (omap (to_send self table peers now) pending)).
Proof.
  intros Hw Hs Hmax. induction pending as [|[l h] pending IH]; intros total values Ht; cbn [collect_values].
  { by rewrite app_nil_r. }
  rewrite peers_failed_spec by done. cbn [mbind res_bind orb omap list_omap]. unfold to_send at 1. cbn [fst snd].
  destruct (wanted _ peers _); cbn [negb]; [|by apply IH].
  unfold lookup_versioned. destruct (table !! l) as [e|] eqn:He; cbn [mbind option_bind]; [|by apply IH].
  destruct (Z.eqb_spec e.(value_hash) h) as [_|_]; cbn [negb andb]; [|by apply IH].
  rewrite (Z.leb_antisym now (wallclock (value e))), (Z.leb_antisym (u64_add _ _) now).
  destruct (now <? wallclock (value e)); cbn [orb negb andb]; [by apply IH|].
  destruct (u64_add (wallclock (value e)) (msg_timeout self) <? now); cbn [orb negb andb]; [by apply IH|].
  pose proof (size_nonneg (value e)) as H0. pose proof (Hs _ _ He) as H1. cbn in H1.
  rewrite u64_add_exact by lia. cbn [fitting].
  destruct (Z.ltb_spec self.(max_bytes) (total + serialized_size (value e))) as [Hlt|Hge].
  - rewrite (proj2 (Z.ltb_lt _ _)) by lia. by rewrite app_nil_r.
  - rewrite (proj2 (Z.ltb_ge _ _)) by lia. rewrite IH by lia. rewrite <- app_assoc. cbn [app].
    by replace (max_bytes self - (total + serialized_size (value e)))
      with (max_bytes self - total - serialized_size (value e)) by lia.
Qed.

(** The selected peers are different members of the active set, at most
    [push_fanout] of them. *)
Lemma omap_lookup_seq {A} (l : list A) : omap (λ n, l !! n) (seq 0 (length l)) = l.
Proof.
  induction l as [|x l IH] using rev_ind; [done|]. rewrite length_app. cbn [length].
  rewrite Nat.add_1_r, seq_S. cbn [Nat.add]. rewrite omap_app. f_equal.
  - rewrite <- IH at 2. apply list_omap_ext, Forall2_same_length_lookup. split; [done|].
    intros i n m Hn Hm. assert (n = m) as -> by congruence. apply lookup_seq in Hn as [-> ?].
    by rewrite lookup_app_l.
  - cbn. by rewrite list_lookup_middle.
Qed.

Lemma select_peers_spec self :
  NoDup (select_peers self) ∧ Z.of_nat (length (select_peers self)) ≤ Z.max 0 self.(push_fanout) ∧
  ∀ p, p ∈ select_peers self → is_Some (self.(active_set) !! p).
Proof.
  unfold select_peers. set (order := active_order self.(active_set)).
  assert (size self.(active_set) = length order) as ->.
  { unfold order. by rewrite active_perm, length_map_to_list. }
  set (chosen := omap _ _).
  assert (chosen ≡ₚ order) as Hp.
  { transitivity (omap (λ n, order !! n) (seq 0 (length order))); [|by rewrite omap_lookup_seq].
    apply omap_Permutation, shuffle_perm. }
  assert (NoDup chosen.*1) as Hnd.
  { rewrite Hp. unfold order. rewrite active_perm. apply NoDup_fst_map_to_list. }
  split_and!.
  - rewrite fmap_take. eapply sublist_NoDup; [done|]. apply sublist_take.
  - rewrite length_fmap, length_take. lia.
  - intros p ([q b] & -> & Hq)%list_elem_of_fmap. apply elem_of_take in Hq as (i & Hi & _).
    apply list_elem_of_lookup_2 in Hi. rewrite Hp in Hi. unfold order in Hi.
    rewrite active_perm in Hi. apply elem_of_map_to_list in Hi. by exists b.
Qed.

Lemma delete_all_lookup {A} (vs : list CrdsValueLabel) : ∀ (m : gmap CrdsValueLabel A) l,
  foldl (λ m k, delete k m) m vs !! l = if bool_decide (l ∈ vs) then None else m !! l.
Proof.
  induction vs as [|v vs IH]; intros m l; cbn [foldl]; [done|]. rewrite IH.
  destruct (decide (l = v)) as [->|Hne].
  - rewrite lookup_delete_eq, (bool_decide_eq_true_2 (v ∈ v :: vs)) by set_solver. by case_bool_decide.
  - rewrite lookup_delete_ne by done. by erewrite (bool_decide_ext (l ∈ v :: vs) (l ∈ vs)) by set_solver.
Qed.

Lemma to_send_some self table peers now m v : table_ok table →
  to_send self table peers now m = Some v ↔
    wanted self.(active_set) peers (label_pubkey m.1) = true ∧ lookup table m.1 = Some v ∧
    label v = m.1 ∧ m.2 = hash_of v ∧ wallclock v ≤ now ≤ u64_add (wallclock v) self.(msg_timeout).
Proof.
  intros Hok. unfold to_send. destruct (wanted _ _ _); [|by split; [|intros [? _]]].
  unfold lookup. destruct (table !! m.1) as [e|] eqn:He; cbn [mbind option_bind fmap option_fmap option_map].
  2:{ split; [done|]. by intros (_ & ? & _). }
  destruct (Hok _ _ He) as [Hl Hh].
  destruct (Z.eqb_spec e.(value_hash) m.2); cbn [andb].
  2:{ split; [done|]. intros (_ & [= <-] & _ & Hm & _). congruence. }
  destruct (Z.leb_spec (wallclock (value e)) now); cbn [andb].
  2:{ split; [done|]. intros (_ & [= <-] & _ & _ & ? & _). lia. }
  destruct (Z.leb_spec now (u64_add (wallclock (value e)) (msg_timeout self))).
  - split; [intros [= <-]|by intros (_ & [= <-] & _)]. split_and!; [done..|congruence|done|done].
  - split; [done|]. intros (_ & [= <-] & _ & _ & _ & ?). lia.
Qed.

Lemma fitting_subset vs max v : v ∈ fitting max vs → v ∈ vs.
Proof. destruct (fitting_prefix vs max) as [rest Hr]. rewrite Hr at 2. set_solver. Qed.

Lemma elem_of_to_send self table peers now v : table_ok table →
  v ∈ omap (to_send self table peers now) (pending_order self.(push_messages)) ↔
    self.(push_messages) !! label v = Some (hash_of v) ∧ lookup table (label v) = Some v ∧
    wanted self.(active_set) peers (label_pubkey (label v)) = true ∧
    wallclock v ≤ now ≤ u64_add (wallclock v) self.(msg_timeout).
Proof.
  intros Hok. rewrite list_elem_of_omap. split.
  - intros ([l h] & Hm & (Hw & Hl & Hlab & Hh & Ht)%to_send_some); [|done]. cbn in *. subst.
    by rewrite pending_perm, elem_of_map_to_list in Hm.
  - intros (Hm & Hl & Hw & Ht). exists (label v, hash_of v). split.
    + by rewrite pending_perm, elem_of_map_to_list.
    + by apply to_send_some.
Qed.

Lemma new_push_messages_eval self table now :
  filters_ok self.(active_set) → sizes_ok table → 0 ≤ self.(max_bytes) < 2 ^ 63 →
  let peers := select_peers self in
  let values := fitting self.(max_bytes)
    (omap (to_send self table peers now) (pending_order self.(push_messages))) in
  new_push_messages table now self =
    (Ok (peers, values),
     with_messages (foldl (λ m k, delete k m) self.(push_messages) (label <$> values)) self).
Proof.
  intros Hw Hs Hmax peers values. unfold new_push_messages.
  rewrite (bind_eval getM _ self self self eq_refl). fold peers.
  rewrite collect_values_spec by (done || lia). rewrite Z.sub_0_r. cbn [app]. fold values.
  rewrite (bind_eval (liftM _) _ self values self eq_refl).
  rewrite foldl_fmap. done.
Qed.

(** What is pushed.  Sending never panics and picks at most [push_fanout]
    different peers of the active set.  Every value sent was pending in exactly
    this version, is the one in the table, is recent, comes from an origin that
    none of the selected peers has pruned, and together the values stay within the
    message size; when all such values fit, all of them are sent.  Exactly the
    values sent leave the queue. *)
Theorem push_messages_spec (self : CrdsGossipPush) (table : Crds) (now : Z)
    (Hok : table_ok table) (Hfilters : filters_ok self.(active_set)) (Hsizes : sizes_ok table)
    (Hmax : 0 ≤ self.(max_bytes) < 2 ^ 63) :
  let eligible peers v :=
    self.(push_messages) !! label v = Some (hash_of v) ∧ lookup table (label v) = Some v ∧
    wallclock v ≤ now ≤ u64_add (wallclock v) self.(msg_timeout) ∧
    ∀ p, p ∈ peers → ∃ b, self.(active_set) !! p = Some b ∧
      bloom.contains (E:=CrdsGossipError) b (label_pubkey (label v)) = Ok false in
  ∃ peers values self',
    new_push_messages table now self = (Ok (peers, values), self') ∧
    NoDup peers ∧ Z.of_nat (length peers) ≤ Z.max 0 self.(push_fanout) ∧
    (∀ p, p ∈ peers → is_Some (self.(active_set) !! p)) ∧
    (∀ v, v ∈ values → eligible peers v) ∧
    total_size values ≤ self.(max_bytes) ∧
    (∃ all, (∀ v, v ∈ all ↔ eligible peers v) ∧ (total_size all ≤ self.(max_bytes) → values = all)) ∧
    ∀ l, self'.(push_messages) !! l =
      if bool_decide (l ∈ label <$> values) then None else self.(push_messages) !! l.
Proof.
  intros eligible. pose proof (new_push_messages_eval self table now Hfilters Hsizes Hmax) as Heval.
  cbv zeta in Heval. set (peers := select_peers self) in *.
  set (all := omap _ _) in Heval. set (values := fitting _ all) in Heval.
  assert (∀ v, v ∈ all ↔ eligible peers v) as Hall.
  { intros v. unfold all. rewrite elem_of_to_send by done. unfold eligible. rewrite wanted_spec.
    assert (∀ p, (∃ b, active_set self !! p = Some b ∧ found b (label_pubkey (label v)) = false) ↔
      ∃ b, active_set self !! p = Some b ∧ bloom.contains (E:=CrdsGossipError) b (label_pubkey (label v)) = Ok false) as Heq.
    { intros p. split; intros (b & Hb & Hf); exists b; (split; [done|]).
      - rewrite contains_found by (by eapply Hfilters). by rewrite Hf.
      - rewrite contains_found in Hf by (by eapply Hfilters). congruence. }
    setoid_rewrite Heq. tauto. }
  destruct (select_peers_spec self) as (Hnd & Hlen & Hin).
  eexists peers, values, _. split_and!; [done..| | | |].
  - intros v Hv. apply Hall. by eapply fitting_subset.
  - apply fitting_size; lia.
  - exists all. split; [done|]. intros. by apply fitting_all.
  - intros l. cbn [push_messages with_messages]. apply delete_all_lookup.
Qed.

(** *** Prunes *)

(** A filter after more keys were added *)
Definition grown (b b' : Bloom) : Prop :=
  bloom.keys b' = bloom.keys b ∧ length (bloom.bits b') = length (bloom.bits b) ∧
  ∀ i, marked b i → marked b' i.
Global Instance grown_preorder : PreOrder grown.
Proof.
  split; [by intros b|]. intros b1 b2 b3 (Hk & Hl & Hm) (Hk' & Hl' & Hm').
  split_and!; [congruence..|auto].
Qed.
Lemma grown_wf b b' : wf b → grown b b' → wf b'.
Proof. intros Hw (_ & Hl & _). apply wf_length. rewrite Hl. by apply wf_length. Qed.

Lemma found_spec b o : wf b → found b o = true ↔
  ∀ k, k ∈ bloom.keys b → marked b (bit_of (length (bloom.bits b)) o k).
Proof.
  intros Hw. pose proof (contains_found b o Hw) as Hc.
  destruct (contains_keys_spec (E:=CrdsGossipError) o b (bloom.keys b) Hw) as (r & Hr & Hiff).
  unfold bloom.contains in Hc. rewrite Hr in Hc. injection Hc as ->. done.
Qed.
Lemma grown_found b b' o : wf b → grown b b' → found b o = true → found b' o = true.
Proof.
  intros Hw Hg. pose proof (grown_wf _ _ Hw Hg) as Hw'. rewrite !found_spec by done.
  destruct Hg as (-> & -> & Hm). auto.
Qed.

Lemma add_grown o b : wf b →
  ∃ b', bloom.add (E:=CrdsGossipError) o b = Ok b' ∧ grown b b' ∧ found b' o = true.
Proof.
  intros Hw. destruct (add_keys_spec (E:=CrdsGossipError) o (bloom.keys b) b Hw) as (b' & Hb' & Hk & Hl & Hm).
  exists b'. assert (grown b b') as Hg.
  { split_and!; [done..|]. intros i Hi. apply Hm. by left. }
  split_and!; [done..|]. apply found_spec; [by eapply grown_wf|]. intros k Hin. apply Hm. right.
  rewrite Hk in Hin. rewrite Hl. by exists k.
Qed.

(** Filters only grow and no peer leaves. *)
Definition filters_grow (a a' : gmap Pubkey Bloom) : Prop :=
  filters_ok a' ∧ ∀ p b, a !! p = Some b → ∃ b', a' !! p = Some b' ∧ grown b b'.
Lemma filters_grow_refl a : filters_ok a → filters_grow a a.
Proof. intros Ha. split; [done|]. intros p b Hb. by exists b. Qed.
Lemma filters_grow_trans a1 a2 a3 : filters_grow a1 a2 → filters_grow a2 a3 → filters_grow a1 a3.
Proof.
  intros [_ H12] [Hok H23]. split; [done|]. intros p b (b2 & Hb2 & Hg)%H12.
  destruct (H23 _ _ Hb2) as (b3 & Hb3 & Hg'). exists b3. split; [done|]. by etrans.
Qed.

Lemma prune_spec peer origins : ∀ self, filters_ok self.(active_set) →
  ∃ a, process_prune_msg peer origins self = (Ok tt, with_active a self) ∧
    filters_grow self.(active_set) a ∧ dom a = dom self.(active_set) ∧
    ∀ b o, a !! peer = Some b → o ∈ origins → found b o = true.
Proof.
  induction origins as [|o origins IH]; intros self Hok; cbn [process_prune_msg].
  { exists self.(active_set). split_and!; [by destruct self|by apply filters_grow_refl|done|].
    intros b o _ Ho. by apply not_elem_of_nil in Ho. }
  rewrite (bind_eval getM _ self self self eq_refl).
  destruct (self.(active_set) !! peer) as [b|] eqn:Hb.
  - destruct (add_grown o b) as (b' & Hadd & Hg & Hfound); [by eapply Hok|].
    set (self1 := with_active (<[peer := b']> self.(active_set)) self).
    assert (filters_grow self.(active_set) self1.(active_set)) as Hg1.
    { split.
      - apply map_Forall_insert_2; [|done]. eapply grown_wf; [|done]. by eapply Hok.
      - intros p c Hc. cbn. destruct (decide (p = peer)) as [->|Hne].
        + rewrite lookup_insert_eq. exists b'. split; [done|]. congruence.
        + rewrite lookup_insert_ne by done. by exists c. }
    rewrite (bind_eval _ _ self tt self1) by (cbn; by rewrite Hadd).
    destruct (IH self1 (proj1 Hg1)) as (a & Hrun & Hga & Hdom & Hall). exists a.
    split_and!; [done|by eapply filters_grow_trans| |].
    { rewrite Hdom. cbn. apply dom_insert_lookup_L. by exists b. }
    intros c o' Hc [->|?]%elem_of_cons; [|by eapply Hall].
    destruct (proj2 Hga peer b') as (c' & Hc' & Hgc); [by apply lookup_insert_eq|].
    assert (c' = c) as -> by congruence. eapply grown_found; [|done..]. apply (proj1 Hg1 peer). by apply lookup_insert_eq.
  - rewrite (bind_eval (mret tt) _ self tt self eq_refl).
    destruct (IH self Hok) as (a & Hrun & Hga & Hdom & Hall). exists a. split_and!; [done..|].
    intros c o' Hc _. apply elem_of_dom_2 in Hc. rewrite Hdom in Hc. apply elem_of_dom in Hc as [? ?].
    congruence.
Qed.


(** Receiving a pushed value, on every branch *)
Lemma process_push_message_spec v now self table : table_ok table →
  let too_old := u64_add (wallclock v) self.(msg_timeout) < now in
  let too_new := u64_add now self.(msg_timeout) < wallclock v in
  match process_push_message v now (self, table) with
  | (Err PushMessageTimeout, s) => (too_old ∨ too_new) ∧ s = (self, table)
  | (Err PushMessagePrune, s) =>
      ¬ too_old ∧ ¬ too_new ∧ is_Some (self.(pushed_once) !! hash_of v) ∧ s = (self, table)
  | (Err PushMessageOldVersion, s) =>
      ¬ too_old ∧ ¬ too_new ∧ self.(pushed_once) !! hash_of v = None ∧ s = (self, table) ∧
      ∃ w, lookup table (label v) = Some w ∧ version_le (version v) (version w)
  | (Ok old, (self', table')) =>
      ¬ too_old ∧ ¬ too_new ∧ self.(pushed_once) !! hash_of v = None ∧ old = table !! label v ∧
      table' = <[label v := new_versioned sha256 now v]> table ∧
      self' = with_pushed (<[hash_of v := now]> self.(pushed_once))
                (with_messages (<[label v := hash_of v]> self.(push_messages)) self) ∧
      (∀ w, lookup table (label v) = Some w → version_lt (version w) (version v))
  | _ => False
  end.
Proof.
  intros Hok too_old too_new. unfold process_push_message.
  rewrite (bind_eval getM _ (self, table) _ _ eq_refl).
  destruct (Z.ltb_spec (u64_add (wallclock v) self.(msg_timeout)) now); [split; [by left|done]|].
  destruct (Z.ltb_spec (u64_add now self.(msg_timeout)) (wallclock v)); [split; [by right|done]|].
  change (value_hash (new_versioned sha256 now v)) with (hash_of v).
  destruct (self.(pushed_once) !! hash_of v) as [t|] eqn:Ho.
  { split_and!; [unfold too_old; lia|unfold too_new; lia|done|done]. }
  change (insert_versioned (new_versioned sha256 now v) table) with (insert sha256 v now table).
  pose proof (insert_eval sha256 v now table) as Heval.
  destruct (insert_spec sha256 table now v Hok) as (_ & _ & Hspec). unfold lookup.
  destruct (table !! label v) as [e|] eqn:He.
  - destruct Hspec as [(Hlt & H1 & H2)|(Hle & Hins)].
    + rewrite Heval in *. destruct (gt _ e); [|done]. cbn.
      split_and!; [unfold too_old; lia|unfold too_new; lia|done..|]. by intros w [= <-].
    + rewrite Hins. cbn. split_and!; [unfold too_old; lia|unfold too_new; lia|done..|]. by exists e.(value).
  - rewrite Heval. cbn. split_and!; [unfold too_old; lia|unfold too_new; lia|done..].
Qed.

(** What can happen to the overlay between two refreshes of the active set *)
Inductive PushOp :=
| ReceivePush (v : CrdsValue) (now : Z)
| ReceivePrune (peer : Pubkey) (origins : list Pubkey)
| SendPush (now : Z)
| PurgePending (min_time : Z)
| PurgeOnce (min_time : Z).

Definition run_op (op : PushOp) (s : CrdsGossipPush * Crds) : CrdsGossipPush * Crds :=
  match op with
  | ReceivePush v now => (process_push_message v now s).2
  | ReceivePrune peer origins => ((process_prune_msg peer origins s.1).2, s.2)
  | SendPush now => ((new_push_messages s.2 now s.1).2, s.2)
  | PurgePending t => (purge_old_pending_push_messages s.2 t s.1, s.2)
  | PurgeOnce t => (purge_old_pushed_once_messages t s.1, s.2)
  end.
Definition run_ops (ops : list PushOp) (s : CrdsGossipPush * Crds) : CrdsGossipPush * Crds :=
  foldl (λ s op, run_op op s) s ops.

Lemma send_active table now self :
  active_set (new_push_messages table now self).2 = active_set self.
Proof.
  unfold new_push_messages. rewrite (bind_eval getM _ self self self eq_refl).
  unfold mbind at 1, M_bind, liftM. by destruct (collect_values _ _ _ _ _ _ _).
Qed.

Lemma run_op_grow op s : filters_ok s.1.(active_set) → table_ok s.2 →
  filters_grow s.1.(active_set) (run_op op s).1.(active_set) ∧ table_ok (run_op op s).2.
Proof.
  destruct s as [self table]. cbn [fst snd]. intros Hf Ht. destruct op; cbn [run_op fst snd].
  - pose proof (process_push_message_spec v now self table Ht) as Hspec. cbv zeta in Hspec.
    destruct (process_push_message v now (self, table)) as [[old|[]|] s'];
      try done; cbn; try (destruct Hspec as (? & ->)); try (destruct Hspec as (_ & _ & _ & ->));
      try (destruct Hspec as (_ & _ & _ & -> & _)); try (split; [by apply filters_grow_refl|done]).
    destruct s' as [self' table']. destruct Hspec as (_ & _ & _ & _ & -> & -> & _).
    split; [by apply filters_grow_refl|]. cbn. intros l e. destruct (decide (l = label v)) as [->|Hne].
    + rewrite lookup_insert_eq. by intros [= <-].
    + rewrite lookup_insert_ne by done. apply Ht.
  - destruct (prune_spec peer origins self Hf) as (a & -> & Hg & _). done.
  - rewrite send_active. split; [by apply filters_grow_refl|done].
  - split; [by apply filters_grow_refl|done].
  - split; [by apply filters_grow_refl|done].
Qed.

Lemma run_ops_grow ops : ∀ s, filters_ok s.1.(active_set) → table_ok s.2 →
  filters_grow s.1.(active_set) (run_ops ops s).1.(active_set) ∧ table_ok (run_ops ops s).2.
Proof.
  induction ops as [|op ops IH]; intros s Hf Ht; cbn; [split; [by apply filters_grow_refl|done]|].
  destruct (run_op_grow op s Hf Ht) as [Hg Ht1]. destruct (IH _ (proj1 Hg) Ht1) as [Hg' Ht'].
  split; [by eapply filters_grow_trans|done].
Qed.

(** C23. Prunes are respected.  Once a peer of the active set has pruned some
    origins, then whatever values, prunes and purges follow, no message that is
    sent to this peer has a value of these origins, until the active set is
    refreshed. *)
Theorem pruned_not_pushed (self : CrdsGossipPush) (table : Crds) (peer : Pubkey)
    (origins : list Pubkey) (ops : list PushOp) (now : Z)
    (Hok : table_ok table) (Hfilters : filters_ok self.(active_set))
    (Hpeer : is_Some (self.(active_set) !! peer)) :
  let '(r, self1) := process_prune_msg peer origins self in
  let '(self2, table2) := run_ops ops (self1, table) in
  r = Ok tt ∧
  (sizes_ok table2 → 0 ≤ self2.(max_bytes) < 2 ^ 63 →
   ∃ peers values self3, new_push_messages table2 now self2 = (Ok (peers, values), self3) ∧
     (peer ∈ peers → ∀ v, v ∈ values → label_pubkey (label v) ∉ origins)).
Proof.
  destruct (prune_spec peer origins self Hfilters) as (a & -> & Hg & _ & Hpruned).
  pose proof (run_ops_grow ops (with_active a self, table) (proj1 Hg) Hok) as [Hgrow Hok2].
  destruct (run_ops ops _) as [self2 table2]. cbn [fst snd] in *. split; [done|]. intros Hs Hmax.
  rewrite new_push_messages_eval by (done || apply Hgrow). eexists _, _, _. split; [done|].
  intros Hin v Hv Ho. apply fitting_subset, elem_of_to_send in Hv as (_ & _ & Hw & _); [|done].
  destruct (proj1 (wanted_spec _ _ _) Hw peer Hin) as (b & Hb & Hnot).
  destruct Hpeer as [b0 Hb0]. destruct (proj2 Hg _ _ Hb0) as (b1 & Hb1 & Hg1).
  destruct (proj2 Hgrow peer b1 Hb1) as (b2 & Hb2 & Hg2). assert (b2 = b) as -> by congruence.
  enough (found b (label_pubkey (label v)) = true) by congruence.
  eapply grown_found; [|done|by apply Hpruned]. by eapply (proj1 Hg).
Qed.


(** *** The active set *)

Definition candidate (table : Crds) (self_id k : Pubkey) : Prop :=
  ∃ c, lookup table (ContactInfoLabel k) = Some (ContactInfoValue c) ∧ c.(ci_id) = k ∧
    k ≠ self_id ∧ is_valid_address c.(ci_gossip) = true.

Lemma push_options_spec timestamp table self_id stakes : table_ok table →
  Forall (λ o, weight_proofs.at_least_one o.1) (push_options timestamp table self_id stakes) ∧
  ∀ k, (∃ o, o ∈ push_options timestamp table self_id stakes ∧ o.2.(ci_id) = k) ↔
    candidate table self_id k.
Proof.
  intros Hok. unfold push_options. set (opt := push_option timestamp self_id stakes).
  assert (∀ l e o, table !! l = Some e → opt (l, e) = Some o ↔
    contact_info e.(value) = Some o.2 ∧ o.2.(ci_id) ≠ self_id ∧ is_valid_address o.2.(ci_gossip) = true ∧
    o.1 = get_weight max_weight ((u64_sub timestamp e.(local_timestamp) / 1024) mod two32)
            (get_stake ln o.2.(ci_id) stakes)) as Hopt.
  { intros l e [w c] He. unfold opt, push_option. cbn [fst snd]. destruct (contact_info (value e)) as [c'|] eqn:Hc.
    - destruct (Z.eqb_spec c'.(ci_id) self_id) as [Hid|Hid]; cbn [negb andb].
      { split; [done|]. intros ([= <-] & ? & _). done. }
      destruct (is_valid_address (ci_gossip c')) eqn:Hv; cbn [negb andb].
      + split; [by intros [= <- <-]|]. by intros ([= <-] & _ & _ & ->).
      + split; [done|]. intros ([= <-] & _ & ? & _). congruence.
    - split; [done|]. by intros [? _]. }
  split.
  - apply Forall_forall. intros o ([l e] & He%elem_of_values & Ho)%list_elem_of_omap.
    apply (Hopt _ _ _ He) in Ho as (_ & _ & _ & ->). apply weight_proofs.get_weight_range.
  - intros k. split.
    + intros (o & ([l e] & He%elem_of_values & Ho)%list_elem_of_omap & <-).
      apply (Hopt _ _ _ He) in Ho as (Hc & Hid & Hv & _). destruct (Hok _ _ He) as [Hl _].
      destruct (value e) as [c| |] eqn:Hval; simplify_eq/=. exists o.2. unfold lookup. by rewrite He; cbn; rewrite Hval.
    + intros (c & Hl & Hid & Hne & Hv). destruct (lookup_entry sha256 table _ _ Hok Hl) as (_ & e & He & Hval & _).
      eexists (_, c). split; [|done]. apply list_elem_of_omap. exists (ContactInfoLabel k, e).
      split; [by apply elem_of_values|]. apply (Hopt _ _ _ He). cbn [fst snd]. rewrite Hval. by subst k.
Qed.

Lemma choose_items_spec rounds active network_size need : ∀ options new_items,
  (length options < rounds)%nat → Forall (λ o, weight_proofs.at_least_one o.1) options →
  ∃ items, choose_items rounds active network_size need options new_items = Some (Ok items) ∧
    (∀ k b, items !! k = Some b → new_items !! k = Some b ∨
       wf b ∧ active !! k = None ∧ ∃ o, o ∈ options ∧ o.2.(ci_id) = k) ∧
    Z.of_nat (size items) ≤ Z.max (Z.of_nat (size new_items)) need ∧
    dom new_items ⊆ dom items ∧
    (Z.of_nat (size items) < need →
       ∀ o, o ∈ options → o.2.(ci_id) ∈ dom active ∪ dom items).
Proof.
  induction rounds as [|rounds IH]; intros options new_items Hr Hpos; [lia|]. cbn [choose_items].
  destruct (Z.ltb_spec (Z.of_nat (size new_items)) need) as [Hlt|Hge].
  2:{ exists new_items. split_and!; [done|by left|lia|done|lia]. }
  destruct (sample options) as [index|] eqn:Hsample.
  2:{ exists new_items. split_and!; [done|by left|lia|done|]. intros _ o Ho.
      destruct (sample_some options) as [? ?]; [intros ->; by apply not_elem_of_nil in Ho|done|congruence]. }
  apply sample_lt in Hsample. destruct (lookup_lt_is_Some_2 _ _ Hsample) as [[w item] Hitem]. rewrite Hitem.
  cbv zeta. set (options' := delete index options).
  assert (length options' < rounds)%nat as Hr' by (unfold options'; rewrite length_delete; [lia|by eexists]).
  assert (options ≡ₚ (w, item) :: options') as Hperm by (by apply delete_Permutation).
  assert (Forall (λ o, weight_proofs.at_least_one o.1) options') as Hpos'.
  { rewrite Hperm in Hpos. by inversion Hpos. }
  destruct (bool_decide (is_Some (active !! item.(ci_id))) || bool_decide (is_Some (new_items !! item.(ci_id)))) eqn:Hknown.
  - destruct (IH options' new_items Hr' Hpos') as (items & Hrun & Hfrom & Hsize & Hdom & Hfull).
    exists items. split_and!; [done| |done|done|].
    + intros k b [?|(? & ? & o & Ho & ?)]%Hfrom; [by left|]. right. split_and!; [done..|]. exists o.
      split; [|done]. rewrite Hperm. set_solver.
    + intros Hsz o Ho. rewrite Hperm in Ho. apply elem_of_cons in Ho as [->|?]; [|by apply Hfull].
      apply orb_true_iff in Hknown as [Hk|Hk]; apply bool_decide_eq_true in Hk;
        apply elem_of_dom in Hk; cbn; set_solver.
  - apply orb_false_iff in Hknown as [Hk1 Hk2]. apply bool_decide_eq_false, eq_None_not_Some in Hk1, Hk2.
    set (b0 := random_bloom _ _).
    destruct (IH options' (<[item.(ci_id) := b0]> new_items) Hr' Hpos') as (items & Hrun & Hfrom & Hsize & Hdom & Hfull).
    exists items. rewrite map_size_insert_None in Hsize by done. split_and!; [done| |lia|set_solver|].
    + intros k b [Hin|(? & ? & o & Ho & ?)]%Hfrom.
      * apply lookup_insert_Some in Hin as [[<- <-]|[_ ?]]; [|by left]. right.
        split_and!; [apply random_wf|done|]. exists (w, item). split; [|done]. rewrite Hperm. set_solver.
      * right. split_and!; [done..|]. exists o. split; [|done]. rewrite Hperm. set_solver.
    + intros Hsz o Ho. rewrite Hperm in Ho. apply elem_of_cons in Ho as [->|?]; [|by apply Hfull].
      cbn. set_solver.
Qed.

Lemma delete_all_dom (ks : list Pubkey) : ∀ (a : gmap Pubkey Bloom),
  dom (foldl (λ a k, delete k a) a ks) = dom a ∖ list_to_set ks ∧
  foldl (λ a k, delete k a) a ks ⊆ a.
Proof.
  induction ks as [|k ks IH]; intros a; cbn [foldl]; [split; [set_solver|done]|].
  destruct (IH (delete k a)) as [Hd Hs]. split.
  - rewrite Hd, dom_delete_L, list_to_set_cons. set_solver.
  - etrans; [done|]. apply delete_subseteq.
Qed.

Lemma compute_need_exact num_active n ratio : 0 ≤ n ≤ num_active → num_active < 2 ^ 63 → 0 < ratio →
  0 ≤ n / ratio ≤ n ∧ compute_need num_active n ratio = Ok (num_active - n + n / ratio).
Proof.
  intros Hn Hmax Hr. assert (0 ≤ n / ratio ≤ n) as Hnum.
  { split; [apply Z.div_pos; lia|]. apply Z.div_le_upper_bound; nia. }
  split; [done|]. unfold compute_need. destruct (Z.eqb_spec ratio 0); [lia|].
  rewrite u64_sub_exact by (unfold is_u64; lia). rewrite u64_add_exact by lia. f_equal. lia.
Qed.

(** The peers that stay when [num] of them are dropped *)
Lemma rotation_spec active num : 0 ≤ num ≤ Z.of_nat (size active) →
  let keys := shuffle (active_order active).*1 in
  let kept := foldl (λ a k, delete k a) active (take (Z.to_nat num) keys) in
  length keys = size active ∧ kept ⊆ active ∧
  Z.of_nat (size kept) = Z.of_nat (size active) - num.
Proof.
  intros Hnum keys kept.
  assert (keys ≡ₚ (map_to_list active).*1) as Hkeys by (unfold keys; by rewrite shuffle_perm, active_perm).
  assert (length keys = size active) as Hlen by (by rewrite Hkeys, length_fmap, length_map_to_list).
  destruct (delete_all_dom (take (Z.to_nat num) keys) active) as [Hkdom Hksub]. fold kept in Hkdom, Hksub.
  split_and!; [done..|]. rewrite <- size_dom, Hkdom, size_difference.
  - rewrite size_dom, size_list_to_set.
    + rewrite length_take. lia.
    + eapply sublist_NoDup; [|apply sublist_take]. rewrite Hkeys. apply NoDup_fst_map_to_list.
  - intros k (i & Hi & _)%elem_of_list_to_set%elem_of_take. apply list_elem_of_lookup_2 in Hi.
    rewrite Hkeys in Hi. apply list_elem_of_fmap in Hi as ([k' b] & -> & Hb%elem_of_map_to_list).
    by apply elem_of_dom_2 in Hb.
Qed.

(** Refreshing the active set keeps it within its bound.  It ends without a
    panic; the set has at most [num_active] peers before and after, never the
    node itself, and every filter can be used.  Of [n] peers, [n / ratio] are
    dropped; the new ones are known peers with a valid address, and when there is
    still room then every such peer was or is in the set. *)
Theorem active_set_refresh (self : CrdsGossipPush) (table : Crds) (timestamp : Z)
    (stakes : gmap Pubkey Z) (self_id : Pubkey) (network_size ratio : Z)
    (Hok : table_ok table) (Hfilters : filters_ok self.(active_set))
    (Hbound : Z.of_nat (size self.(active_set)) ≤ self.(num_active) < 2 ^ 63)
    (Hself : self_id ∉ dom self.(active_set)) (Hratio : 0 < ratio) :
  let n := Z.of_nat (size self.(active_set)) in
  ∃ a, refresh_push_active_set timestamp table stakes self_id network_size ratio self =
         (Ok tt, with_active a self) ∧
    filters_ok a ∧ Z.of_nat (size a) ≤ self.(num_active) ∧ self_id ∉ dom a ∧
    ((∀ k, ¬ candidate table self_id k) ∧ a = self.(active_set) ∨
     Z.of_nat (size (dom self.(active_set) ∩ dom a)) = n - n / ratio ∧
     (∀ k, k ∈ dom a → k ∈ dom self.(active_set) ∨ candidate table self_id k) ∧
     (Z.of_nat (size a) < self.(num_active) →
        ∀ k, candidate table self_id k → k ∈ dom self.(active_set) ∪ dom a)).
Proof.
  intros n. unfold refresh_push_active_set. rewrite (bind_eval getM _ self self self eq_refl).
  set (active := self.(active_set)) in *. fold n. fold n in Hbound.
  destruct (compute_need_exact (num_active self) n ratio) as [Hnum ->]; [lia..|].
  set (need := num_active self - n + n / ratio).
  rewrite (bind_eval (liftM (Ok need)) _ self need self eq_refl).
  destruct (push_options_spec timestamp table self_id stakes Hok) as [Hpos Hcand].
  set (options := push_options timestamp table self_id stakes) in *.
  destruct (decide (options = [])) as [Hnil|Hne].
  { rewrite Hnil. exists active. split_and!; [by destruct self|done|lia|done|]. left. split; [|done].
    intros k (o & Ho & _)%Hcand. rewrite Hnil in Ho. by apply not_elem_of_nil in Ho. }
  destruct (choose_items_spec (S (length options)) active network_size need options ∅) as
    (items & Hrun & Hfrom & Hsize & _ & Hfull); [lia|done|]. rewrite map_size_empty in Hsize.
  destruct (rotation_spec active (n / ratio) Hnum) as (Hlen & Hksub & Hksize).
  set (keys := shuffle (active_order active).*1) in *. set (kept := foldl _ _ _) in Hksub, Hksize.
  pose proof (subseteq_dom _ _ Hksub) as Hkdom.
  assert (∀ k, k ∈ dom items → k ∉ dom active ∧ candidate table self_id k) as Hitems.
  { intros k [b Hb]%elem_of_dom. apply Hfrom in Hb as [?|(_ & Hn & o & ? & ?)]; [done|].
    split; [by apply not_elem_of_dom|]. apply Hcand. by exists o. }
  assert (Z.of_nat (size (items ∪ kept)) = Z.of_nat (size items) + (n - n / ratio)) as Hfinal.
  { rewrite map_size_disj_union; [lia|]. apply map_disjoint_dom. intros k [? _]%Hitems. set_solver. }
  exists (items ∪ kept). rewrite dom_union_L. split_and!.
  - destruct options; [done|]. rewrite Hrun. cbn. by rewrite Hlen.
  - apply map_Forall_union_2; intros k b Hb.
    + by destruct (Hfrom k b Hb) as [?|[? _]].
    + eapply Hfilters. by eapply lookup_weaken.
  - unfold need in Hsize. lia.
  - intros [Hk|Hk]%elem_of_union; [|set_solver]. by apply Hitems in Hk as [_ (? & _ & _ & ? & _)].
  - right. split_and!.
    + fold n in Hksize. rewrite <- Hksize, <- (size_dom kept). do 2 f_equal. apply set_eq. intros k.
      rewrite elem_of_intersection, elem_of_union. split; [|set_solver]. intros [Ha [Hk|?]]; [|done].
      by apply Hitems in Hk as [? _].
    + intros k [Hk|Hk]%elem_of_union; [right; by apply Hitems|left; set_solver].
    + intros Hroom k (o & Ho & <-)%Hcand.
      assert (ci_id o.2 ∈ dom active ∪ dom items) by (apply Hfull; [unfold need; lia|done]). set_solver.
Qed.

End Push.
End push_proofs.

(** ** Requests and purging *)

Module gossip_proofs.
Import weights push pull gossip bloom_proofs crds_proofs pull_proofs push_proofs.
Section Gossip.
Context {env : GossipEnv} {laws : GossipLaws env}.

Notation hash_of v := (sha256 (serialize (v : CrdsValue))).
Notation table_ok := (table_ok sha256).

Lemma pull_options_spec self table self_id now stakes : table_ok table →
  Forall (λ o, weight_proofs.at_least_one o.1) (pull_options self table self_id now stakes) ∧
  ∀ o, o ∈ pull_options self table self_id now stakes → candidate table self_id o.2.(ci_id).
Proof.
  intros Hok. unfold pull_options.
  assert (∀ o, o ∈ omap (pull_option self self_id now stakes) (values_order table) →
    weight_proofs.at_least_one o.1 ∧ candidate table self_id o.2.(ci_id)) as Hall.
  { intros [w c] ([l e] & He%elem_of_values & Ho)%list_elem_of_omap. unfold pull_option in Ho. cbn [fst snd] in *.
    destruct (contact_info (value e)) as [c'|] eqn:Hc; [|done].
    destruct (Z.eqb_spec c'.(ci_id) self_id); cbn [negb andb] in Ho; [done|].
    destruct (is_valid_address (ci_gossip c')) eqn:Hv; [|done]. injection Ho as <- <-.
    split; [apply weight_proofs.get_weight_range|]. destruct (Hok _ _ He) as [Hl _].
    destruct (value e) as [c''| |] eqn:Hval; simplify_eq/=. exists c'. unfold lookup. by rewrite He; cbn; rewrite Hval. }
  split; [apply Forall_forall|]; intros o Ho; by apply Hall.
Qed.

Lemma pull_options_nil self table self_id now stakes : table_ok table →
  pull_options self table self_id now stakes = [] → ∀ k, ¬ candidate table self_id k.
Proof.
  intros Hok Hnil k (c & Hl & Hid & Hne & Hv).
  destruct (lookup_entry sha256 table _ _ Hok Hl) as (_ & e & He & Hval & _).
  enough (∃ o, pull_option self self_id now stakes (ContactInfoLabel k, e) = Some o) as [o Ho].
  { assert (o ∈ pull_options self table self_id now stakes) as Hin.
    { apply list_elem_of_omap. eexists. split; [by apply elem_of_values|done]. }
    rewrite Hnil in Hin. by apply not_elem_of_nil in Hin. }
  unfold pull_option. cbn [snd]. rewrite Hval. cbn [contact_info].
  destruct (Z.eqb_spec c.(ci_id) self_id); [congruence|]. rewrite Hv. cbn. eauto.
Qed.

(** A node that knows its own contact information makes a request to a known
    peer with a valid address, with a filter that has everything the node knows;
    without such a peer the request fails with an error, and it never panics. *)
Lemma new_pull_request_spec self table self_id now stakes self_info : table_ok table →
  lookup table (ContactInfoLabel self_id) = Some self_info →
  match pull.new_pull_request self table self_id now stakes with
  | Ok (peer, filter, info) =>
      candidate table self_id peer ∧ build_crds_filter self table = Ok filter ∧ info = self_info ∧
      ∀ h, h ∈ known self table → bloom.contains (E:=CrdsGossipError) filter h = Ok true
  | Err e => e = NoPeers ∧ ∀ k, ¬ candidate table self_id k
  | Panic => False
  end.
Proof.
  intros Hok Hself. unfold pull.new_pull_request.
  destruct (pull_options_spec self table self_id now stakes Hok) as [Hpos Hcand].
  pose proof (pull_options_nil self table self_id now stakes Hok) as Hnil.
  set (options := pull_options self table self_id now stakes) in *.
  destruct (build_filter_ok self table) as (f & Hf & _ & Hknown).
  destruct (decide (options = [])) as [->|Hne]; [by auto|].
  destruct (sample_some options Hne Hpos) as [i Hi]. pose proof (sample_lt _ _ Hi) as Hlt.
  destruct (lookup_lt_is_Some_2 _ _ Hlt) as [[w item] Hitem].
  assert (candidate table self_id item.(ci_id)) as Hc by (apply (Hcand (w, item)); by eapply list_elem_of_lookup_2).
  destruct options; [done|]. rewrite Hf. cbn [mbind res_bind]. rewrite Hi. cbn [unwrap mbind res_bind].
  rewrite Hself. cbn [unwrap mbind res_bind]. by rewrite Hitem.
Qed.

Lemma purge_labels_spec ls : NoDup ls → ∀ table purged,
  (purge_labels ls table purged).1 =
    purged ++ omap (λ l, (λ e, (e.(value_hash), e.(local_timestamp))) <$> table !! l) ls ∧
  ∀ l, (purge_labels ls table purged).2 !! l = if bool_decide (l ∈ ls) then None else table !! l.
Proof.
  induction 1 as [|l ls Hl Hls IH]; intros table purged; cbn [purge_labels].
  { split; [by rewrite app_nil_r|]. done. }
  destruct (IH (remove l table) (purged ++ option_list ((λ e, (e.(value_hash), e.(local_timestamp))) <$> lookup_versioned table l)))
    as [H1 H2]. split.
  - rewrite H1, <- app_assoc. f_equal. cbn [omap list_omap]. unfold lookup_versioned.
    assert (omap (λ l0, (λ e, (value_hash e, local_timestamp e)) <$> remove l table !! l0) ls =
            omap (λ l0, (λ e, (value_hash e, local_timestamp e)) <$> table !! l0) ls) as ->.
    { apply list_omap_ext, Forall2_same_length_lookup. split; [done|]. intros i x y Hx Hy.
      assert (x = y) as -> by congruence. unfold remove. rewrite lookup_delete_ne; [done|].
      intros ->. apply Hl. by eapply list_elem_of_lookup_2. }
    destruct (table !! l); done.
  - intros l'. rewrite H2. unfold remove. destruct (decide (l' = l)) as [->|Hne].
    + rewrite lookup_delete_eq, (bool_decide_eq_true_2 (l ∈ l :: ls)) by set_solver. by case_bool_decide.
    + rewrite lookup_delete_ne by done. by erewrite (bool_decide_ext (l' ∈ l :: ls) (l' ∈ ls)) by set_solver.
Qed.

Lemma purge_active_spec self_id min_ts self table :
  let '(self', table') := purge_active self_id min_ts self table in
  (∀ l, table' !! l = e ← table !! l;
     if bool_decide (label_pubkey l ≠ self_id ∧ e.(local_timestamp) ≤ min_ts) then None else Some e) ∧
  ∃ gone, self' = with_purged (self.(purged_values) ++ gone) self ∧
    ∀ l e, table !! l = Some e → table' !! l = None → (e.(value_hash), e.(local_timestamp)) ∈ gone.
Proof.
  unfold purge_active. set (old := find_old_labels values_order table min_ts).
  assert (NoDup old ∧ ∀ l, l ∈ old ↔ ∃ e, table !! l = Some e ∧ e.(local_timestamp) ≤ min_ts) as [Hnd Hold].
  { unfold old, find_old_labels. split.
    - assert (NoDup (values_order table).*1) as Hn by (rewrite values_perm; apply NoDup_fst_map_to_list).
      revert Hn. induction (values_order table) as [|[k e] l IH]; cbn; [constructor|].
      intros [Hk Hn]%NoDup_cons. destruct (local_timestamp e <=? min_ts); [|by apply IH]. constructor; [|by apply IH].
      intros ([k' e'] & Hin & Heq)%list_elem_of_omap. apply Hk.
      destruct (local_timestamp e' <=? min_ts); [|done]. injection Heq as <-.
      apply list_elem_of_fmap. by exists (k', e').
    - intros l. rewrite list_elem_of_omap. split.
      + intros ([k e] & He%elem_of_values & Heq). destruct (Z.leb_spec (local_timestamp e) min_ts); [|done].
        injection Heq as <-. by exists e.
      + intros (e & He & Hle). exists (l, e). split; [by apply elem_of_values|].
        by destruct (Z.leb_spec (local_timestamp e) min_ts); [|lia]. }
  set (ls := filter _ old). assert (NoDup ls) as Hls by (by apply NoDup_filter).
  destruct (purge_labels_spec ls Hls table []) as [H1 H2].
  destruct (purge_labels ls table []) as [gone table']. cbn [fst snd app] in *.
  assert (∀ l, table' !! l = e ← table !! l;
    if bool_decide (label_pubkey l ≠ self_id ∧ e.(local_timestamp) ≤ min_ts) then None else Some e) as Hlook.
  { intros l. rewrite H2. destruct (table !! l) as [e|] eqn:He; cbn; [|by case_bool_decide].
    erewrite (bool_decide_ext (l ∈ ls)); [done|]. unfold ls. rewrite list_elem_of_filter, Hold.
    apply and_iff_compat_l. split; [|by exists e]. intros (e' & ? & ?). by simplify_eq. }
  split; [done|]. exists gone. split; [done|]. intros l e He Hgone. rewrite H1.
  apply list_elem_of_omap. exists l. rewrite He. split; [|done].
  rewrite H2, He in Hgone. by case_bool_decide.
Qed.

Lemma drop_older l min_ts x : x ∈ l → min_ts ≤ x.2 → x ∈ drop (older_count l min_ts) l.
Proof.
  intros Hin Hx. induction l as [|y l IH]; cbn [older_count]; [by apply not_elem_of_nil in Hin|].
  destruct (Z.ltb_spec y.2 min_ts); [|done]. cbn. apply IH.
  apply elem_of_cons in Hin as [->|?]; [lia|done].
Qed.

Lemma purge_table now g :
  g_crds (purge now g) = (if g.(g_pull).(crds_timeout) <? now
    then (purge_active g.(g_id) (u64_sub now g.(g_pull).(crds_timeout)) g.(g_pull) g.(g_crds)).2
    else g.(g_crds)) ∧
  purged_values (g_pull (purge now g)) =
    let pv := if g.(g_pull).(crds_timeout) <? now
      then purged_values (purge_active g.(g_id) (u64_sub now g.(g_pull).(crds_timeout)) g.(g_pull) g.(g_crds)).1
      else g.(g_pull).(purged_values) in
    if u64_mul 5 g.(g_pull).(crds_timeout) <? now
    then drop (older_count pv (u64_sub now (u64_mul 5 g.(g_pull).(crds_timeout)))) pv else pv.
Proof.
  unfold purge.
  destruct (msg_timeout (g_push g) <? now); cbn [g_push with_push g_pull g_crds g_id];
    destruct (u64_mul 5 (msg_timeout (g_push g)) <? now); cbn [g_push with_push g_pull g_crds g_id];
    destruct (crds_timeout (g_pull g) <? now); cbn [g_push with_push g_pull g_crds g_id];
    try (destruct (purge_active _ _ _ _) as [p c]; cbn [g_push with_push with_pull with_crds g_pull g_crds g_id]);
    by destruct (u64_mul 5 (crds_timeout (g_pull g)) <? now).
Qed.

(** Purging.  The table keeps the records of the node itself and every entry
    heard of within the timeout, unchanged, and no other entry; a removed entry
    leaves its hash among the purged values, so that the next pull request does
    not ask for it again, as long as it was heard of within five timeouts. *)
Theorem gossip_purge_spec (g : CrdsGossip) (now : Z)
    (Hnow : is_u64 now) (Htimeout : 0 ≤ g.(g_pull).(crds_timeout))
    (H5 : 5 * g.(g_pull).(crds_timeout) < two64) :
  let timeout := g.(g_pull).(crds_timeout) in
  (∀ l, g_crds (purge now g) !! l = e ← g.(g_crds) !! l;
     if bool_decide (label_pubkey l ≠ g.(g_id) ∧ timeout < now ∧ e.(local_timestamp) ≤ now - timeout)
     then None else Some e) ∧
  ∀ l e, g.(g_crds) !! l = Some e → g_crds (purge now g) !! l = None →
    now - 5 * timeout ≤ e.(local_timestamp) →
    e.(value_hash) ∈ (purged_values (g_pull (purge now g))).*1.
Proof.
  intros timeout. destruct (purge_table now g) as [-> ->]. fold timeout. unfold is_u64 in Hnow.
  assert (u64_mul 5 timeout = 5 * timeout) as -> by (apply wrap64_small; unfold is_u64; lia).
  destruct (Z.ltb_spec timeout now) as [Hlt|Hge].
  - rewrite u64_sub_exact by (unfold is_u64; lia).
    pose proof (purge_active_spec g.(g_id) (now - timeout) g.(g_pull) g.(g_crds)) as Hspec.
    destruct (purge_active _ _ _ _) as [p c]. destruct Hspec as (Hlook & gone & -> & Hgone). cbn [fst snd].
    split.
    + intros l. rewrite Hlook. destruct (g_crds g !! l) as [e|]; cbn; [|done].
      erewrite bool_decide_ext; [done|]. tauto.
    + intros l e He Hno Hrecent. cbn [purged_values with_purged]. apply list_elem_of_fmap.
      exists (value_hash e, local_timestamp e). split; [done|]. specialize (Hgone _ _ He Hno).
      destruct (Z.ltb_spec (5 * timeout) now); [|set_solver].
      rewrite u64_sub_exact by (unfold is_u64; lia). apply drop_older; [set_solver|done].
  - split.
    + intros l. destruct (g_crds g !! l); cbn; [|done]. rewrite bool_decide_eq_false_2; [done|]. lia.
    + intros l e He Hno. congruence.
Qed.

End Gossip.
End gossip_proofs.

(** ** A concrete environment *)

Module gossip_demo.
Import push pull bloom_proofs crds_proofs pull_proofs push_proofs gossip_proofs.

Definition demo_serialize (v : CrdsValue) : list Z :=
  match v with
  | ContactInfoValue c => [0; c.(ci_id); c.(ci_wallclock)]
  | VoteValue v => [1; v.(vote_from); v.(vote_wallclock)]
  | EpochSlotsValue e => [2; e.(es_from); e.(root); e.(es_wallclock)]
  end.

#[local] Instance demo_env : GossipEnv := {|
  sha256 l := foldl (λ a b, a * 1000 + b) 7 l;
  crds_bincode := {| serialize := demo_serialize; deserialize _ := None;
                     serialize_into _ buf := (None, buf) |};
  bloom_hash x k := x * k;
  ln x := x;
  values_order := map_to_list;
  active_order := map_to_list;
  pending_order := map_to_list;
  pushed_order := map_to_list;
  shuffle _ l := l;
  sample l := match l with [] => None | _ => Some 0%nat end;
  min_num_bits _ := 64;
  num_keys _ _ := 2%nat;
  gen_keys n := seqZ 11 (Z.of_nat n)
|}.

#[local] Instance demo_laws : GossipLaws demo_env.
Proof.
  split; try done.
  - intros [|x l] i; cbn; [done|]. intros [= <-]. lia.
  - intros [|x l]; cbn; [done|]. by eexists.
Qed.

Definition contact (id now : Z) : CrdsValue := ContactInfoValue (new_localhost id now).

Ltac split_elements :=
  repeat match goal with
  | H : _ ∈ _ :: _ |- _ => apply elem_of_cons in H as [->|H]
  | H : _ ∈ [] |- _ => by apply not_elem_of_nil in H
  end.

(** Two orders of the same values *)
Lemma crds_converges_witness :
  lookup (insert_all sha256 [(contact 1 10, 0); (contact 1 20, 1); (contact 2 5, 2)] Crds_default)
    (ContactInfoLabel 1) = Some (contact 1 20) ∧
  lookup (insert_all sha256 [(contact 1 20, 7); (contact 2 5, 7); (contact 1 10, 8); (contact 1 20, 9)]
    Crds_default) (ContactInfoLabel 1) = Some (contact 1 20).
Proof.
  assert (hash_injective sha256 ([(contact 1 10, 0); (contact 1 20, 1); (contact 2 5, 2)]).*1) as Hinj.
  { intros v w Hv Hw. cbn in Hv, Hw. split_elements; vm_compute; done. }
  destruct (crds_converges sha256 [(contact 1 10, 0); (contact 1 20, 1); (contact 2 5, 2)]
    [(contact 1 20, 7); (contact 2 5, 7); (contact 1 10, 8); (contact 1 20, 9)]) with (ContactInfoLabel 1)
    as (Hsame & _); [|done|].
  - intros v. cbn. set_solver.
  - rewrite <- Hsame. done.
Defined.

Definition table_of (vs : list CrdsValue) : Crds :=
  insert_all sha256 ((λ v, (v, 100)) <$> vs) Crds_default.
Lemma table_of_ok vs : table_ok sha256 (table_of vs).
Proof. by apply insert_all_spec. Qed.

Definition demo_pull : CrdsGossipPull := CrdsGossipPull_default.


Definition demo_push : CrdsGossipPush :=
  with_active {[ 2 := random_bloom 10 64; 3 := random_bloom 10 64 ]} CrdsGossipPush_default.
Lemma demo_filters : filters_ok demo_push.(active_set).
Proof. apply map_Forall_insert_2; [apply random_wf|]. apply map_Forall_singleton. apply random_wf. Qed.

Definition pending_push : CrdsGossipPush :=
  with_messages {[ ContactInfoLabel 5 := sha256 (serialize (contact 5 90)) ]} demo_push.

(** All entries of a small table, by computation *)
Lemma table_entries (c : Crds) (P : VersionedCrdsValue → Prop) :
  Forall P (map_to_list c).*2 → map_Forall (λ _, P) c.
Proof.
  intros Hall l e He. rewrite Forall_forall in Hall. apply Hall. apply list_elem_of_fmap.
  exists (l, e). by rewrite elem_of_map_to_list.
Qed.
Lemma demo_sizes : sizes_ok (table_of [contact 5 90]).
Proof. apply table_entries. repeat constructor. Qed.

(** The contact information of node 5 is pending and is pushed to two peers. *)
Lemma push_messages_spec_witness :
  ∃ peers values self', push.new_push_messages (table_of [contact 5 90]) 100 pending_push = (Ok (peers, values), self') ∧
    NoDup peers ∧ values = [contact 5 90].
Proof.
  destruct (push_messages_spec pending_push (table_of [contact 5 90]) 100 (table_of_ok _) demo_filters demo_sizes)
    as (peers & values & self' & Hrun & Hnd & _); [vm_compute; split; congruence|].
  exists peers, values, self'. split_and!; [done..|]. vm_compute in Hrun. injection Hrun as _ <- _. done.
Defined.

(** After peer 2 pruned origin 5, its contact information is not sent to it. *)
Lemma pruned_not_pushed_witness :
  let s := run_ops [ReceivePush (contact 5 90) 95]
             ((push.process_prune_msg 2 [5] demo_push).2, table_of []) in
  ∃ peers values self3, push.new_push_messages s.2 100 s.1 = (Ok (peers, values), self3) ∧
    (2 ∈ peers → ∀ v, v ∈ values → label_pubkey (label v) ∉ [5]).
Proof.
  pose proof (pruned_not_pushed demo_push (table_of []) 2 [5] [ReceivePush (contact 5 90) 95] 100
    (table_of_ok _) demo_filters ltac:(by eexists)) as Hp.
  destruct (push.process_prune_msg 2 [5] demo_push) as [r self1] eqn:H1.
  intros s. cbn [snd] in s. unfold s. destruct (run_ops _ _) as [self2 table2] eqn:H2. destruct Hp as [_ Hp].
  apply Hp; vm_compute in H1; injection H1 as _ <-; vm_compute in H2; injection H2 as <- <-.
  - apply table_entries. repeat constructor.
  - vm_compute. split; congruence.
Defined.

(** Three peers are found for an empty active set. *)
Lemma active_set_refresh_witness :
  ∃ a, push.refresh_push_active_set 2000 (table_of [contact 1 10; contact 2 20; contact 3 30; contact 4 40]) ∅ 1 0 30
         CrdsGossipPush_default = (Ok tt, with_active a CrdsGossipPush_default) ∧
    Z.of_nat (size a) ≤ 30 ∧ 1 ∉ dom a ∧ size a = 3%nat.
Proof.
  destruct (active_set_refresh CrdsGossipPush_default (table_of [contact 1 10; contact 2 20; contact 3 30; contact 4 40])
    2000 ∅ 1 0 30 (table_of_ok _)) as (a & Hrun & _ & Hsize & Hself & _);
    [done|vm_compute; split; congruence|set_solver|lia|].
  exists a. split_and!; [done..|]. vm_compute in Hrun. injection Hrun as <-. vm_compute. done.
Defined.

Definition demo_gossip : gossip.CrdsGossip :=
  gossip.mkGossip (table_of [contact 1 10; contact 2 20]) 1 CrdsGossipPush_default CrdsGossipPull_default.

(** Both entries are old: the node's own stays. *)
Lemma gossip_purge_spec_witness :
  lookup (gossip.g_crds (gossip.purge 20000 demo_gossip)) (ContactInfoLabel 1) = Some (contact 1 10) ∧
  lookup (gossip.g_crds (gossip.purge 20000 demo_gossip)) (ContactInfoLabel 2) = None.
Proof.
  destruct (gossip_purge_spec demo_gossip 20000) as [Hlook _]; [done..|].
  unfold lookup. rewrite !Hlook. vm_compute. done.
Defined.
End gossip_demo.
