(* ===== verification/DataPlane.v ===== *)
(** * The data plane: broadcasting and retransmitting blobs

    The layers of core/src/clusterMessage.rs ([describe_data_plane], [localize],
    [next_layer_peers], [compute_retransmit_peers], [sort_by_stake],
    [create_broadcast_orders]), the flags of core/src/packet.rs and the decisions
    of core/src/retransmitStage.rs.  Sockets are left out: what is sent is the
    list of the receivers, with the forwarded flag of the blob. *)

From stdpp Require Import sorting.
From S2P Require Import Prelude Interface Float Message Entry Gossip.

Import contact_info.

Module data_plane.

Definition DATA_PLANE_FANOUT : Z := 200.

(** *** Layers *)

Record Locality := mkLocality {
  neighbor_bounds : Z * Z;
  layer_ix : Z;
  layer_bounds : Z * Z;
  next_layer_bounds : option (Z * Z);
  next_layer_peers : list Z
}.
Definition Locality_default : Locality := mkLocality (0, 0) 0 (0, 0) None [].

(** The [while] loop: the number of layers and the indexes.  Without fuel the
    result is [None]; one round per remaining node is enough. *)
Fixpoint layer_loop (fuel : nat) (fanout remaining_nodes layer_capacity num_layers : Z)
    (layer_indices : list Z) : option (Z * list Z) :=
  if negb (0 <? remaining_nodes) then Some (num_layers, layer_indices)
  else
  match fuel with
  | O => None
  | S fuel' =>
      let e := List.last layer_indices 0 in
      if layer_capacity <? remaining_nodes then
        layer_loop fuel' fanout (u64_sub remaining_nodes layer_capacity)
          (u64_mul layer_capacity fanout) (u64_add num_layers 1)
          (layer_indices ++ [u64_add layer_capacity e])
      else Some (num_layers, layer_indices ++ [u64_add layer_capacity e])
  end.

Definition describe_data_plane {E} (fuel : nat) (nodes fanout : Z) : option (res E (Z * list Z)) :=
  if nodes =? 0 then Some (Ok (0, []))
  else if nodes <=? fanout then Some (Ok (1, [0]))
  else
  '(num_layers, layer_indices) ←
    layer_loop fuel fanout (u64_sub nodes fanout) (u64_mul fanout fanout) 2 [0; fanout];
  Some (if num_layers =? u64_sub (Z.of_nat (length layer_indices)) 1
        then Ok (num_layers, layer_indices) else Panic).

(** [(start..end).step_by(step)] *)
Definition step_range (first last step : Z) : list Z :=
  (λ k, first + k * step) <$> seqZ 0 ((last - first + step - 1) / step).

Definition next_peers (index hood_ix start fanout : Z) : list Z :=
  let fanout_nodes := u64_mul fanout fanout in
  let start := u64_add start (u64_mul hood_ix fanout_nodes) in
  let e := u64_add start fanout_nodes in
  (λ x, u64_add x (index mod fanout)) <$> step_range start e fanout.

Definition localize_item {E} (layer_indices : list Z) (fanout select_index : Z) (curr_index : nat)
    : res E (option Locality) :=
  let e := (length layer_indices - 1)%nat in
  let next := (e `min` (curr_index + 1))%nat in
  layer_start ← unwrap (layer_indices !! curr_index);
  next_start ← unwrap (layer_indices !! next);
  if (layer_start <=? select_index) && (select_index <? next_start) then
    if fanout =? 0 then Panic
    else
    let hood_ix := u64_sub select_index layer_start / fanout in
    '(bounds, peers) ←
      (if (next =? e)%nat then Ok (None, [])
       else
       next_end ← unwrap (layer_indices !! (next + 1)%nat);
       Ok (Some (next_start, next_end), next_peers select_index hood_ix next_start fanout));
    if (curr_index =? 0)%nat then
      Ok (Some (mkLocality (0, fanout) 0 (0, fanout) bounds peers))
    else if (curr_index =? e)%nat then
      let end_z := Z.of_nat e in
      Ok (Some (mkLocality (u64_sub end_z fanout, end_z) end_z (u64_sub end_z fanout, end_z)
                  None []))
    else
      Ok (Some (mkLocality
        (u64_add (u64_mul hood_ix fanout) layer_start,
         u64_add (u64_mul (u64_add hood_ix 1) fanout) layer_start)
        (Z.of_nat curr_index) (layer_start, next_start) bounds peers))
  else Ok None.

(** [find_map] *)
Fixpoint localize_from {E} (layer_indices : list Z) (fanout select_index : Z) (ixs : list nat)
    : res E Locality :=
  match ixs with
  | [] => Ok Locality_default
  | i :: ixs' =>
      r ← localize_item layer_indices fanout select_index i;
      match r with
      | Some l => Ok l
      | None => localize_from layer_indices fanout select_index ixs'
      end
  end.
Definition localize {E} (layer_indices : list Z) (fanout select_index : Z) : res E Locality :=
  localize_from layer_indices fanout select_index (seq 0 (length layer_indices)).

(** *** Peers *)

(** [peers[first..last]] *)
Definition slice {E A} (l : list A) (first last : Z) : res E (list A) :=
  if (last <? first) || (Z.of_nat (length l) <? last) then Panic
  else Ok (take (Z.to_nat (last - first)) (drop (Z.to_nat first) l)).

(** The loop over [next_layer_peers] stops at the first index without a peer. *)
Fixpoint children_of {A} (peers : list A) (ixs : list Z) : list A :=
  match ixs with
  | [] => []
  | ix :: ixs' =>
      match peers !! Z.to_nat ix with
      | Some p => p :: children_of peers ixs'
      | None => []
      end
  end.

(** [compute_retransmit_peers] after the peers were sorted *)
Definition retransmit_peers_at {E A} (fuel : nat) (my_index : Z) (peers : list A) (fanout : Z)
    : option (res E (list A * list A)) :=
  plane ← describe_data_plane fuel (Z.of_nat (length peers)) fanout;
  Some ('(num_layers, layer_indices) ← plane;
        if num_layers <=? 1 then Ok (peers, [])
        else
        locality ← localize layer_indices fanout my_index;
        let upper_bound := Z.min locality.(neighbor_bounds).2 (Z.of_nat (length peers)) in
        neighbors ← slice peers locality.(neighbor_bounds).1 upper_bound;
        Ok (neighbors, children_of peers locality.(next_layer_peers))).

(** Stakes in descending order, then keys in descending order *)
Definition stake_before (a b : Z * ContactInfo) : Prop :=
  b.1 < a.1 ∨ b.1 = a.1 ∧ b.2.(ci_id) ≤ a.2.(ci_id).
Global Instance stake_before_dec : RelDecision stake_before.
Proof. intros a b. unfold stake_before. apply _. Defined.

(** [Vec::dedup]; contact informations are equal when their keys are. *)
Fixpoint dedup (l : list (Z * ContactInfo)) : list (Z * ContactInfo) :=
  match l with
  | [] => []
  | x :: l' =>
      match dedup l' with
      | [] => [x]
      | y :: r => if (x.1 =? y.1) && contact_eq x.2 y.2 then x :: r else x :: y :: r
      end
  end.

Definition sort_by_stake (peers : list ContactInfo) (stakes : option (gmap Pubkey Z))
    : list (Z * ContactInfo) :=
  let stake_of c :=
    match stakes with Some stakes => default 0 (stakes !! c.(ci_id)) | None => 0 end in
  dedup (merge_sort stake_before ((λ c, (stake_of c, c)) <$> peers)).

(** The loop of [sorted_peers_and_index]: the index is that of the last entry
    with the key of the node. *)
Fixpoint split_self (self_id : Pubkey) (i : Z) (l : list (Z * ContactInfo)) (index : Z)
    : Z * list ContactInfo :=
  match l with
  | [] => (index, [])
  | (_, peer) :: l' =>
      if peer.(ci_id) =? self_id then split_self self_id (i + 1) l' i
      else
        let '(index, peers) := split_self self_id (i + 1) l' index in
        (index, peer :: peers)
  end.
Definition sorted_peers_and_index (self : ContactInfo) (retransmit_peers : list ContactInfo)
    (stakes : option (gmap Pubkey Z)) : Z * list ContactInfo :=
  split_self self.(ci_id) 0 (sort_by_stake (retransmit_peers ++ [self]) stakes) 0.

Definition compute_retransmit_peers {E} (fuel : nat) (self : ContactInfo)
    (retransmit_peers : list ContactInfo) (stakes : option (gmap Pubkey Z)) (fanout : Z)
    : option (res E (list ContactInfo * list ContactInfo)) :=
  let '(my_index, peers) := sorted_peers_and_index self retransmit_peers stakes in
  retransmit_peers_at fuel my_index peers fanout.

(** *** Broadcast *)

(** [x] is the random start. *)
Definition create_broadcast_orders {E T} (x : Z) (contains_last_tick : bool) (blobs : list T)
    (broadcast_table : list ContactInfo) : res E (list (T * list ContactInfo)) :=
  match blobs with
  | [] => Ok []
  | _ =>
      let n := Z.of_nat (length broadcast_table) in
      if n =? 0 then Panic
      else
      orders ← foldr (λ '(i, blob) acc,
          acc ← acc;
          peer ← unwrap (broadcast_table !! Z.to_nat (u64_add x (Z.of_nat i) mod n));
          Ok ((blob, [peer]) :: acc)) (Ok []) (imap pair blobs);
      if contains_last_tick then
        blob ← unwrap (last blobs);
        Ok (orders ++ [(blob, broadcast_table)])
      else Ok orders
  end.

(** *** Retransmission *)

(** The receivers of a blob that is sent with a forwarded flag *)
Definition retransmit_to (peers : list ContactInfo) (slot_leader_pubkey : option Pubkey)
    (forwarded : bool) : list (ContactInfo * bool) :=
  (λ c, (c, forwarded)) <$>
    filter (λ c, c.(ci_id) ≠ default Pubkey_default slot_leader_pubkey) peers.

(** One blob of [retransmit]; [forward] is [blob.meta.forward]. *)
Definition retransmit_blob (neighbors children : list ContactInfo) (leader : option Pubkey)
    (forward : bool) : list (ContactInfo * bool) :=
  if forward
  then retransmit_to neighbors leader true ++ retransmit_to children leader false
  else retransmit_to children leader true.
End data_plane.

(** ** The layers *)

Module layer_proofs.
Import data_plane.
Section Layers.
Context (f : Z) (Hf : 0 < f).

(** Where the layers start: 0, f, f + f^2, ... *)
Fixpoint bound (k : nat) : Z :=
  match k with
  | O => 0
  | S k' => bound k' + f ^ Z.of_nat (S k')
  end.
Definition indices (m : nat) : list Z := bound <$> seq 0 (S m).

Lemma pow_pos k : 0 < f ^ Z.of_nat k.
Proof. apply Z.pow_pos_nonneg; lia. Qed.
Lemma pow_S k : f ^ Z.of_nat (S k) = f ^ Z.of_nat k * f.
Proof. rewrite Nat2Z.inj_succ, Z.pow_succ_r by lia. lia. Qed.
Lemma bound_S k : bound (S k) = bound k + f ^ Z.of_nat (S k).
Proof. done. Qed.
Lemma bound_1 : bound 1 = f.
Proof. cbn. lia. Qed.
Lemma bound_lt k : bound k < bound (S k).
Proof. rewrite bound_S. pose proof (pow_pos (S k)). lia. Qed.
Lemma bound_mono j k : (j ≤ k)%nat → bound j ≤ bound k.
Proof. induction 1 as [|k _ IH]; [done|]. pose proof (bound_lt k). lia. Qed.
Lemma bound_nonneg k : 0 ≤ bound k.
Proof. change 0 with (bound 0). apply bound_mono. lia. Qed.
Lemma bound_ge k : Z.of_nat k ≤ bound k.
Proof. induction k as [|k IH]; [done|]. pose proof (bound_lt k). lia. Qed.
Lemma bound_div k : bound k mod f = 0.
Proof.
  induction k as [|k IH]; [by apply Z.mod_0_l; lia|]. rewrite bound_S, pow_S, Z.add_comm, Z.mul_comm.
  by rewrite Z.mul_comm, Z.add_comm, Z.mod_add by lia.
Qed.

Lemma indices_lookup m k : (k ≤ m)%nat → indices m !! k = Some (bound k).
Proof. intros. unfold indices. rewrite list_lookup_fmap, lookup_seq_lt by lia. done. Qed.
Lemma indices_length m : length (indices m) = S m.
Proof. unfold indices. by rewrite length_fmap, length_seq. Qed.
Lemma indices_S m : indices (S m) = indices m ++ [bound (S m)].
Proof. unfold indices. rewrite (seq_S (S m)), fmap_app. done. Qed.
Lemma indices_last m : List.last (indices m) 0 = bound m.
Proof.
  destruct m as [|m]; [done|]. rewrite indices_S. by rewrite List.last_last.
Qed.

Lemma layer_loop_spec nodes (Hmax : nodes * (f + 1) < two64) : ∀ fuel t,
  bound t < nodes → f ^ Z.of_nat t ≤ nodes → nodes - bound t ≤ Z.of_nat fuel →
  ∃ m, layer_loop fuel f (nodes - bound t) (f ^ Z.of_nat (S t)) (Z.of_nat (S t)) (indices t) =
         Some (Z.of_nat m, indices m) ∧ (t < m)%nat ∧ nodes ≤ bound m ≤ nodes * (f + 1).
Proof.
  induction fuel as [|fuel IH]; intros t Ht Hpow Hfuel; [lia|]. cbn [layer_loop].
  destruct (Z.ltb_spec 0 (nodes - bound t)) as [_|]; [|lia]. cbn [negb]. rewrite indices_last.
  pose proof (pow_pos (S t)) as Hp. pose proof (bound_nonneg t) as H0. rewrite (pow_S t) in Hp |- *.
  assert (f ^ Z.of_nat t * f ≤ nodes * f) as Hcap by nia.
  pose proof (bound_ge t) as Hge_t. assert (2 * nodes ≤ nodes * (f + 1)) as H2 by nia.
  assert (u64_add (f ^ Z.of_nat t * f) (bound t) = bound (S t)) as Hb.
  { rewrite u64_add_exact by nia. rewrite bound_S, pow_S. lia. }
  rewrite Hb, <- indices_S.
  destruct (Z.ltb_spec (f ^ Z.of_nat t * f) (nodes - bound t)) as [Hlt|Hge].
  - rewrite u64_sub_exact by (unfold is_u64; nia). rewrite (u64_add_exact (Z.of_nat (S t)) 1) by lia.
    unfold u64_mul. rewrite wrap64_small by (unfold is_u64; nia).
    destruct (IH (S t)) as (m & Hm & Hlt' & Hbm).
    + rewrite bound_S, pow_S. lia.
    + rewrite pow_S. lia.
    + rewrite bound_S, pow_S. lia.
    + exists m. split_and!; [|lia|lia..]. rewrite <- Hm. rewrite bound_S, !pow_S.
      replace (nodes - (bound t + f ^ Z.of_nat t * f)) with (nodes - bound t - f ^ Z.of_nat t * f) by lia.
      by replace (Z.of_nat (S (S t))) with (Z.of_nat (S t) + 1) by lia.
  - exists (S t). split_and!; [done|lia| |].
    + rewrite bound_S, pow_S. lia.
    + rewrite bound_S, pow_S. lia.
Qed.

Lemma describe_spec {E} nodes fuel : f < nodes → nodes * (f + 1) < 2 ^ 63 → nodes ≤ Z.of_nat fuel →
  ∃ m, describe_data_plane (E:=E) fuel nodes f = Some (Ok (Z.of_nat m, indices m)) ∧
    (2 ≤ m)%nat ∧ nodes ≤ bound m ≤ nodes * (f + 1).
Proof.
  intros Hn Hmax Hfuel. unfold describe_data_plane.
  destruct (Z.eqb_spec nodes 0); [lia|]. destruct (Z.leb_spec nodes f); [lia|].
  assert (2 * nodes ≤ nodes * (f + 1)) by nia. assert (f * f ≤ nodes * (f + 1)) by nia.
  rewrite u64_sub_exact by (unfold is_u64; lia). unfold u64_mul. rewrite wrap64_small by (unfold is_u64; nia).
  destruct (layer_loop_spec nodes ltac:(lia) fuel 1) as (m & Hm & Hlt & Hb).
  { rewrite bound_1. lia. }
  { change (Z.of_nat 1) with 1. rewrite Z.pow_1_r. lia. }
  { rewrite bound_1. lia. }
  exists m. change (f ^ Z.of_nat 2) with (f * (f * 1)) in Hm. rewrite Z.mul_1_r, bound_1 in Hm.
  change (indices 1) with [0; 0 + f ^ 1] in Hm. rewrite Z.pow_1_r, Z.add_0_l in Hm. change (Z.of_nat 2) with 2 in Hm.
  rewrite Hm. cbn [mbind option_bind]. rewrite indices_length.
  pose proof (bound_ge m). rewrite u64_sub_exact by (unfold is_u64; lia).
  destruct (Z.eqb_spec (Z.of_nat m) (Z.of_nat (S m) - 1)); [|lia]. split_and!; [done|lia|lia..].
Qed.

(** The hood of an index in its layer *)
Definition hood (k : nat) (i : Z) : Z := (i - bound k) / f.

Lemma hood_range k i : bound k ≤ i < bound (S k) → 0 ≤ hood k i < f ^ Z.of_nat k.
Proof.
  intros Hi. rewrite bound_S, pow_S in Hi. unfold hood. split; [apply Z.div_pos; lia|].
  apply Z.div_lt_upper_bound; lia.
Qed.

Lemma step_range_spec first : step_range first (first + f * f) f = (λ k, first + k * f) <$> seqZ 0 f.
Proof.
  unfold step_range. do 2 f_equal. replace (first + f * f - first + f - 1) with (f - 1 + f * f) by lia.
  rewrite Z.div_add by lia. rewrite Z.div_small by lia. lia.
Qed.

(** The indexes in the next layer, when they do not overflow *)
Lemma next_peers_spec k i : bound k ≤ i < bound (S k) → bound (S (S k)) + f < two64 →
  next_peers i (hood k i) (bound (S k)) f =
    (λ x, bound (S k) + hood k i * (f * f) + x * f + i mod f) <$> seqZ 0 f.
Proof.
  intros Hi Hmax. pose proof (hood_range k i Hi) as Hh. pose proof (bound_nonneg (S k)) as H0.
  pose proof (pow_pos k) as Hp. rewrite (bound_S (S k)), !pow_S in Hmax.
  set (h := hood k i) in *. set (p := f ^ Z.of_nat k) in *. set (b := bound (S k)) in *.
  assert (0 ≤ h * (f * f)) by nia. assert (0 < f * f) by nia.
  assert (h * (f * f) + f * f ≤ p * f * f) by nia.
  unfold next_peers, u64_mul. rewrite (wrap64_small (f * f)) by (unfold is_u64; lia).
  rewrite (wrap64_small (h * (f * f))) by (unfold is_u64; lia).
  rewrite (u64_add_exact b) by lia. rewrite (u64_add_exact _ (f * f)) by lia.
  rewrite step_range_spec, <- list_fmap_compose. apply list_fmap_ext. intros n x [Hx ?]%lookup_seqZ.
  clearbody b h p. cbn. pose proof (Z.mod_pos_bound i f Hf). assert (0 ≤ x * f ≤ f * f) by nia. rewrite u64_add_exact by lia. done.
Qed.

Definition next_layer (m k : nat) (i : Z) : list Z :=
  if decide (S k = m) then [] else next_peers i (hood k i) (bound (S k)) f.

Lemma localize_item_here {E} m k i : (k < m)%nat → bound k ≤ i < bound (S k) → bound m + f < two64 →
  ∃ l, localize_item (E:=E) (indices m) f i k = Ok (Some l) ∧
    0 ≤ l.(neighbor_bounds).1 ≤ i ∧ l.(neighbor_bounds).1 ≤ l.(neighbor_bounds).2 ∧
    (k = 0%nat → l.(neighbor_bounds) = (0, f)) ∧ l.(next_layer_peers) = next_layer m k i.
Proof.
  intros Hk Hi Hmax. unfold localize_item. rewrite indices_length.
  replace ((S m - 1) `min` (k + 1))%nat with (S k) by lia.
  rewrite (indices_lookup m k), (indices_lookup m (S k)) by lia. cbn [unwrap mbind res_bind].
  rewrite (proj2 (Z.leb_le _ _)), (proj2 (Z.ltb_lt _ _)) by lia. cbn [andb].
  destruct (Z.eqb_spec f 0); [lia|]. pose proof (bound_nonneg k) as H0.
  pose proof (bound_mono (S k) m ltac:(lia)) as Hmono.
  rewrite (u64_sub_exact i (bound k)) by (unfold is_u64; lia). fold (hood k i).
  replace (S m - 1)%nat with m by lia.
  assert (∃ b, (if (S k =? m)%nat then Ok (E:=E) (None, []) else
     next_end ← unwrap (indices m !! (S k + 1)%nat);
     Ok (Some (bound (S k), next_end), next_peers i (hood k i) (bound (S k)) f)) = Ok (b, next_layer m k i)) as [b ->].
  { unfold next_layer. destruct (Nat.eqb_spec (S k) m) as [->|Hne].
    - rewrite decide_True by done. by eexists.
    - rewrite decide_False by done. rewrite indices_lookup by lia. by eexists. }
  cbn [mbind res_bind]. pose proof (hood_range k i Hi) as Hh.
  assert (hood k i * f ≤ i - bound k) by (unfold hood; rewrite Z.mul_comm; apply Z.mul_div_le; lia).
  destruct (Nat.eqb_spec k 0) as [->|Hk0].
  - eexists. split; [done|]. cbn. split_and!; [lia..|done|done].
  - destruct (Nat.eqb_spec k m); [lia|]. eexists. split; [done|]. cbn [neighbor_bounds next_layer_peers fst snd].
    unfold u64_mul. rewrite (u64_add_exact (hood k i) 1), !wrap64_small by (unfold is_u64; nia).
    rewrite !u64_add_exact by nia. split_and!; [nia..|done|done].
Qed.

Lemma localize_item_not {E} m k i : (k ≤ m)%nat → bound (m `min` (k + 1)) ≤ i →
  localize_item (E:=E) (indices m) f i k = Ok None.
Proof.
  intros Hk Hi. unfold localize_item. rewrite indices_length.
  replace (S m - 1)%nat with m by lia.
  rewrite (indices_lookup m k), (indices_lookup m (m `min` (k + 1))) by lia. cbn [unwrap mbind res_bind].
  destruct (Z.ltb_spec i (bound (m `min` (k + 1)))); [lia|]. by rewrite andb_false_r.
Qed.

Lemma localize_from_skip {E} m i c : ∀ a, (a + c ≤ m + 1)%nat →
  (∀ j, (a ≤ j < a + c)%nat → bound (m `min` (j + 1)) ≤ i) → ∀ rest,
  localize_from (E:=E) (indices m) f i (seq a c ++ rest) = localize_from (indices m) f i rest.
Proof.
  induction c as [|c IH]; intros a Ha Hall rest; [done|]. cbn [seq app localize_from].
  rewrite localize_item_not by (lia || apply Hall; lia). cbn [mbind res_bind]. apply IH; [lia|].
  intros j Hj. apply Hall. lia.
Qed.

(** The locality of an index: that of its layer, or nothing after the last one *)
Lemma localize_spec {E} m k i : (k < m)%nat → bound k ≤ i < bound (S k) → bound m + f < two64 →
  ∃ l, localize (E:=E) (indices m) f i = Ok l ∧
    0 ≤ l.(neighbor_bounds).1 ≤ i ∧ l.(neighbor_bounds).1 ≤ l.(neighbor_bounds).2 ∧
    (k = 0%nat → l.(neighbor_bounds) = (0, f)) ∧ l.(next_layer_peers) = next_layer m k i.
Proof.
  intros Hk Hi Hmax. destruct (localize_item_here (E:=E) m k i Hk Hi Hmax) as (l & Hl & Hrest).
  exists l. split; [|done]. unfold localize. rewrite indices_length.
  replace (S m) with (k + (S m - k))%nat by lia. rewrite seq_app.
  rewrite localize_from_skip; [|lia|].
  - cbn [Nat.add]. replace (S m - k)%nat with (S (m - k)) by lia. cbn [seq localize_from]. by rewrite Hl.
  - intros j Hj. transitivity (bound k); [|lia]. apply bound_mono. lia.
Qed.

Lemma localize_after {E} m i : bound m ≤ i →
  localize (E:=E) (indices m) f i = Ok Locality_default.
Proof.
  intros Hi. unfold localize. rewrite indices_length. rewrite <- (app_nil_r (seq 0 (S m))).
  rewrite localize_from_skip; [done|lia|]. intros j Hj. transitivity (bound m); [|done].
  apply bound_mono. lia.
Qed.

End Layers.
End layer_proofs.

(** ** Avalanche *)

Module avalanche_proofs.
Import data_plane layer_proofs.

(** *** The order of the nodes *)

Section Order.
Context (stakes : option (gmap Pubkey Z)).

Definition stake_of (c : ContactInfo) : Z :=
  match stakes with Some stakes => default 0 (stakes !! c.(ci_id)) | None => 0 end.

Lemma stake_before_total : Total stake_before.
Proof. intros a b. unfold stake_before. lia. Qed.
Lemma stake_before_trans : Transitive stake_before.
Proof. intros a b c. unfold stake_before. lia. Qed.

Definition with_stakes (l : list ContactInfo) : list (Z * ContactInfo) := (λ c, (stake_of c, c)) <$> l.

Lemma elem_of_with_stakes l x : x ∈ with_stakes l ↔ x.1 = stake_of x.2 ∧ x.2 ∈ l.
Proof.
  unfold with_stakes. rewrite list_elem_of_fmap. split.
  - by intros (c & -> & Hc).
  - destruct x as [s c]. cbn. intros [-> Hc]. by exists c.
Qed.

Lemma dedup_id l : NoDup ((λ x, x.2.(ci_id)) <$> l) → dedup l = l.
Proof.
  induction l as [|x l IH]; [done|]. intros [Hx Hl]%NoDup_cons. cbn [dedup]. rewrite (IH Hl).
  destruct l as [|y l]; [done|]. unfold contact_eq.
  destruct (Z.eqb_spec x.2.(ci_id) y.2.(ci_id)) as [Heq|]; [|by rewrite andb_false_r].
  destruct Hx. rewrite Heq. cbn. set_solver.
Qed.

Notation ids l := (ci_id <$> l).

Lemma NoDup_ids_inj l c c' : NoDup (ids l) → c ∈ l → c' ∈ l → c.(ci_id) = c'.(ci_id) → c = c'.
Proof.
  intros Hnd [i Hi]%list_elem_of_lookup [j Hj]%list_elem_of_lookup Heq.
  assert (i = j) as ->.
  { apply (NoDup_lookup (ids l) i j c.(ci_id) Hnd); rewrite list_lookup_fmap; [by rewrite Hi|].
    by rewrite Hj, Heq. }
  congruence.
Qed.

(** The sorted list does not depend on the order of the table. *)
Lemma sort_by_stake_perm l l' : l ≡ₚ l' → NoDup (ids l) → sort_by_stake l stakes = sort_by_stake l' stakes.
Proof.
  intros Hp Hnd. unfold sort_by_stake. fold stake_of. f_equal. fold (with_stakes l) (with_stakes l').
  pose proof stake_before_total. pose proof stake_before_trans.
  apply (StronglySorted_unique_strong stake_before);
    [|by apply (StronglySorted_merge_sort _)..|].
  - intros x y Hx Hy. rewrite merge_sort_Permutation in Hx, Hy.
    apply elem_of_with_stakes in Hx as [Hx Hxl], Hy as [Hy Hyl]. intros Hxy Hyx.
    assert (x.2 = y.2) as Heq.
    { apply (NoDup_ids_inj l); [done..|by rewrite Hp|]. unfold stake_before in *. lia. }
    destruct x, y. cbn in *. congruence.
  - rewrite !merge_sort_Permutation. unfold with_stakes. by rewrite Hp.
Qed.

Lemma sort_by_stake_spec l : NoDup (ids l) →
  (sort_by_stake l stakes).*2 ≡ₚ l.
Proof.
  intros Hnd. unfold sort_by_stake. fold stake_of. fold (with_stakes l).
  assert ((with_stakes l).*2 = l) as Hsnd.
  { unfold with_stakes. rewrite <- list_fmap_compose. by apply list_fmap_id. }
  rewrite dedup_id.
  - transitivity ((with_stakes l).*2); [|by rewrite Hsnd]. apply fmap_Permutation, merge_sort_Permutation.
  - assert (((λ x, x.2.(ci_id)) <$> merge_sort stake_before (with_stakes l)) ≡ₚ ids l) as Hp; [|by rewrite Hp].
    etrans; [apply fmap_Permutation, merge_sort_Permutation|]. unfold with_stakes. by rewrite <- list_fmap_compose.
Qed.

(** The nodes of a cluster in the order of the data plane *)
Definition ranked (l : list ContactInfo) : list ContactInfo := (sort_by_stake l stakes).*2.

Lemma split_self_spec self l : ∀ i index j,
  NoDup (ids l.*2) → l.*2 !! j = Some self →
  split_self self.(ci_id) i l index = (i + Z.of_nat j, delete j l.*2).
Proof.
  assert (∀ l i index, self.(ci_id) ∉ ids l.*2 → split_self self.(ci_id) i l index = (index, l.*2)) as Hnone.
  { clear. induction l as [|[s c] l IH]; intros i index Hn; cbn; [done|]. cbn in Hn.
    destruct (Z.eqb_spec c.(ci_id) self.(ci_id)); [set_solver|]. rewrite IH by set_solver. done. }
  induction l as [|[s c] l IH]; intros i index j Hnd Hj; [done|]. cbn in Hnd. apply NoDup_cons in Hnd as [Hc Hnd].
  cbn [split_self]. destruct j as [|j].
  - injection Hj as ->. rewrite Z.eqb_refl, Hnone by done. cbn. f_equal. lia.
  - cbn in Hj. destruct (Z.eqb_spec c.(ci_id) self.(ci_id)) as [Heq|_].
    { destruct Hc. rewrite Heq. apply list_elem_of_fmap_2. by eapply list_elem_of_lookup_2. }
    rewrite (IH _ _ j) by done. cbn. f_equal. lia.
Qed.

(** The view of a node: its index among all nodes, and all the others *)
Lemma sorted_peers_view cluster self view j :
  NoDup (ids cluster) → view ++ [self] ≡ₚ cluster → ranked cluster !! j = Some self →
  sorted_peers_and_index self view stakes = (Z.of_nat j, delete j (ranked cluster)).
Proof.
  intros Hnd Hview Hj. unfold sorted_peers_and_index.
  rewrite (sort_by_stake_perm (view ++ [self]) cluster Hview) by (by rewrite Hview).
  rewrite (split_self_spec self _ 0 0 j); [done| |done].
  fold (ranked cluster). unfold ranked. by rewrite sort_by_stake_spec.
Qed.
End Order.

(** *** Who sends to whom *)

Lemma children_of_elem {A} (peers : list A) ixs : ∀ x ix p,
  ixs !! x = Some ix → (∀ y iy, (y < x)%nat → ixs !! y = Some iy → 0 ≤ iy ≤ ix) →
  peers !! Z.to_nat ix = Some p → p ∈ children_of peers ixs.
Proof.
  induction ixs as [|i ixs IH]; intros x ix p Hx Hle Hp; [done|]. cbn [children_of].
  destruct x as [|x].
  - injection Hx as ->. rewrite Hp. set_solver.
  - assert (is_Some (peers !! Z.to_nat i)) as [q Hq].
    { apply lookup_lt_is_Some_2. apply lookup_lt_Some in Hp.
      specialize (Hle 0%nat i ltac:(lia) eq_refl). lia. }
    rewrite Hq. apply elem_of_cons. right. apply (IH x ix); [done| |done].
    intros y iy Hy Hiy. apply (Hle (S y)); [lia|done].
Qed.

(** The parent of an index of the next layer has it among its children. *)
Lemma parent_child f m k ix : 0 < f → (S k < m)%nat → bound f m + f < two64 →
  bound f (S k) ≤ ix < bound f (S (S k)) →
  ∃ i x, bound f k ≤ i < bound f (S k) ∧ next_layer f m k i !! x = Some ix ∧
    ∀ y iy, (y < x)%nat → next_layer f m k i !! y = Some iy → 0 ≤ iy ≤ ix.
Proof.
  intros Hf Hk Hmax Hix. pose proof (bound_mono f Hf (S (S k)) m ltac:(lia)) as Hmono.
  rewrite (bound_S f (S k)), (pow_S f Hf (S k)), (pow_S f Hf k) in Hix.
  pose proof (pow_pos f Hf k) as Hp. pose proof (bound_nonneg f Hf (S k)) as H0.
  set (o := ix - bound f (S k)). set (h := o / (f * f)). set (r := o mod (f * f)).
  assert (0 < f * f) as Hff by nia.
  assert (o = h * (f * f) + r ∧ 0 ≤ r < f * f) as [Ho Hr].
  { unfold h, r. pose proof (Z.div_mod o (f * f)). pose proof (Z.mod_pos_bound o (f * f)). lia. }
  set (x := r / f). set (p := r mod f).
  assert (r = x * f + p ∧ 0 ≤ p < f) as [Hrx Hpf].
  { unfold x, p. pose proof (Z.div_mod r f). pose proof (Z.mod_pos_bound r f). lia. }
  assert (0 ≤ x < f) as Hx by nia. assert (0 ≤ h < f ^ Z.of_nat k) as Hh.
  { split; [apply Z.div_pos; lia|]. apply Z.div_lt_upper_bound; unfold o; lia. }
  clearbody x p. clearbody h r. set (i := bound f k + h * f + p).
  assert (bound f k ≤ i < bound f (S k)) as Hi by (unfold i; rewrite bound_S, (pow_S f Hf); nia).
  assert (hood f k i = h) as Hhood.
  { unfold hood, i. replace (bound f k + h * f + p - bound f k) with (p + h * f) by lia.
    rewrite Z.div_add, Z.div_small by lia. lia. }
  assert (i mod f = p) as Hmod.
  { unfold i. rewrite <- Z.add_assoc, Z.add_mod, (bound_div f Hf), Z.add_0_l by lia. rewrite Z.mod_mod by lia.
    rewrite Z.add_comm, Z.mod_add, Z.mod_small by lia. done. }
  exists i, (Z.to_nat x).
  assert (next_layer f m k i = (λ y, bound f (S k) + h * (f * f) + y * f + p) <$> seqZ 0 f) as ->.
  { unfold next_layer. rewrite decide_False by lia. rewrite next_peers_spec by (done || lia). by rewrite Hhood, Hmod. }
  split_and!; [lia..| |].
  - rewrite list_lookup_fmap, lookup_seqZ_lt by lia. cbn [fmap option_fmap option_map]. f_equal.
    rewrite Z2Nat.id by lia. unfold o in Ho. lia.
  - intros y iy Hy. rewrite list_lookup_fmap, lookup_seqZ_lt by lia. cbn [fmap option_fmap option_map].
    intros <-%(inj Some). assert (Z.of_nat y * f ≤ x * f) by nia. assert (0 ≤ h * (f * f)) by nia.
    assert (0 ≤ Z.of_nat y * f) by nia. unfold o in Ho. lia.
Qed.

Section Cover.
Context (stakes : option (gmap Pubkey Z)) (fanout : Z) (leader : option Pubkey) (fuel : nat).
Context (cluster : list ContactInfo) (view : ContactInfo → list ContactInfo).

(** What the nodes receive of a blob that the leader sent to [first], with the
    flag that says whether a node is to forward it to its neighbors *)
Inductive receives (first : ContactInfo) : ContactInfo → bool → Prop :=
| receives_first : receives first first true
| receives_from c forward c' forwarded neighbors children :
    receives first c forward →
    compute_retransmit_peers (E:=Empty_set) fuel c (view c) stakes fanout =
      Some (Ok (neighbors, children)) →
    (c', forwarded) ∈ retransmit_blob neighbors children leader forward →
    receives first c' (negb forwarded).

Context (Hf : 0 < fanout) (Hnd : NoDup (ci_id <$> cluster)).
Context (Hview : ∀ c, c ∈ cluster → view c ++ [c] ≡ₚ cluster).
Context (Hleader : default Pubkey_default leader ∉ ci_id <$> cluster).
Context (Hmax : Z.of_nat (length cluster) * (fanout + 1) < 2 ^ 62).
Context (Hfuel : (length cluster ≤ fuel)%nat).

Notation L := (ranked stakes cluster).

Lemma ranked_perm : L ≡ₚ cluster.
Proof. unfold ranked. by apply sort_by_stake_spec. Qed.

Lemma node_plan j c : L !! j = Some c →
  compute_retransmit_peers (E:=Empty_set) fuel c (view c) stakes fanout =
    retransmit_peers_at fuel (Z.of_nat j) (delete j L) fanout.
Proof.
  intros Hj. unfold compute_retransmit_peers. rewrite (sorted_peers_view stakes cluster c (view c) j); [done..| |done].
  apply Hview. rewrite <- ranked_perm. by eapply list_elem_of_lookup_2.
Qed.

Lemma peers_length j : is_Some (L !! j) → length (delete j L) = (length cluster - 1)%nat.
Proof. intros Hj. rewrite length_delete by done. by rewrite ranked_perm. Qed.

Lemma sent first c forward j neighbors children t c' :
  receives first c forward → L !! j = Some c →
  retransmit_peers_at (E:=Empty_set) fuel (Z.of_nat j) (delete j L) fanout = Some (Ok (neighbors, children)) →
  L !! t = Some c' → (forward = true ∧ c' ∈ neighbors) ∨ c' ∈ children → ∃ fwd, receives first c' fwd.
Proof.
  intros Hc Hj Hplan Ht Hin.
  assert (c'.(ci_id) ≠ default Pubkey_default leader) as Hne.
  { intros Heq. apply Hleader. rewrite <- Heq, <- ranked_perm. apply list_elem_of_fmap_2. by eapply list_elem_of_lookup_2. }
  enough (∃ flag, (c', flag) ∈ retransmit_blob neighbors children leader forward) as [flag Hflag].
  { exists (negb flag). eapply receives_from; [done| |done]. by rewrite (node_plan j). }
  assert (∀ peers flag, c' ∈ peers → (c', flag) ∈ retransmit_to peers leader flag) as Hto.
  { intros peers flag Hp. unfold retransmit_to. apply list_elem_of_fmap. exists c'.
    split; [done|]. by apply list_elem_of_filter. }
  unfold retransmit_blob. destruct Hin as [[-> Hn]|Hch].
  - exists true. apply elem_of_app. left. by apply Hto.
  - destruct forward; [exists false|exists true]; [apply elem_of_app; right|]; by apply Hto.
Qed.

Lemma plan_single j : is_Some (L !! j) → Z.of_nat (length cluster) ≤ fanout + 1 →
  retransmit_peers_at (E:=Empty_set) fuel (Z.of_nat j) (delete j L) fanout = Some (Ok (delete j L, [])).
Proof.
  intros Hj Hn. unfold retransmit_peers_at, describe_data_plane. rewrite peers_length by done.
  destruct (Z.eqb_spec (Z.of_nat (length cluster - 1)) 0); [done|].
  destruct (Z.leb_spec (Z.of_nat (length cluster - 1)) fanout); [done|lia].
Qed.

Lemma plan_layered j m k : is_Some (L !! j) → (k < m)%nat →
  describe_data_plane (E:=Empty_set) fuel (Z.of_nat (length cluster - 1)) fanout =
    Some (Ok (Z.of_nat m, indices fanout m)) →
  (2 ≤ m)%nat → bound fanout m + fanout < two64 → fanout ≤ Z.of_nat (length cluster - 1) →
  bound fanout k ≤ Z.of_nat j < bound fanout (S k) →
  ∃ nb, retransmit_peers_at (E:=Empty_set) fuel (Z.of_nat j) (delete j L) fanout =
      Some (Ok (nb, children_of (delete j L) (next_layer fanout m k (Z.of_nat j)))) ∧
    (k = 0%nat → nb = take (Z.to_nat fanout) (delete j L)).
Proof.
  intros Hj Hk Hdesc Hm Hb Hfn Hjk. unfold retransmit_peers_at. rewrite peers_length, Hdesc by done.
  cbn [mbind option_bind res_bind]. destruct (Z.leb_spec (Z.of_nat m) 1); [lia|].
  destruct (localize_spec (E:=Empty_set) fanout Hf m k (Z.of_nat j) Hk Hjk Hb) as (l & Hloc & Hl1 & Hl2 & Hl0 & Hnext).
  rewrite Hloc. cbn [mbind res_bind]. rewrite Hnext. unfold slice. rewrite peers_length by done.
  assert (Z.of_nat j ≤ Z.of_nat (length cluster - 1)) as Hle.
  { destruct Hj as [c Hj%lookup_lt_Some]. rewrite ranked_perm in Hj. lia. }
  destruct (Z.ltb_spec (Z.min l.(neighbor_bounds).2 (Z.of_nat (length cluster - 1))) l.(neighbor_bounds).1); [lia|].
  destruct (Z.ltb_spec (Z.of_nat (length cluster - 1)) (Z.min l.(neighbor_bounds).2 (Z.of_nat (length cluster - 1)))); [lia|].
  cbn [orb mbind res_bind]. eexists. split; [done|]. intros ->. rewrite Hl0 by done. cbn [fst snd].
  rewrite drop_0. f_equal. lia.
Qed.

Lemma others_elem j t c : L !! t = Some c → t ≠ j → c ∈ delete j L.
Proof.
  intros Ht Hne. apply list_elem_of_lookup. destruct (decide (t < j)%nat).
  - exists t. by rewrite list_lookup_delete_lt.
  - exists (t - 1)%nat. rewrite list_lookup_delete_ge by lia. by replace (S (t - 1)) with t by lia.
Qed.

Lemma first_layer_elem j t c : L !! t = Some c → t ≠ j → Z.of_nat j < fanout → Z.of_nat t ≤ fanout →
  c ∈ take (Z.to_nat fanout) (delete j L).
Proof.
  intros Ht Hne Hj Hle. apply elem_of_take. destruct (decide (t < j)%nat).
  - exists t. rewrite list_lookup_delete_lt by done. split; [done|lia].
  - exists (t - 1)%nat. rewrite list_lookup_delete_ge by lia. replace (S (t - 1)) with t by lia. split; [done|lia].
Qed.

(** All the indexes up to the start of the next layer are reached, layer by
    layer. *)
Lemma layers_covered first j0 m :
  L !! j0 = Some first → Z.of_nat j0 < fanout → fanout < Z.of_nat (length cluster - 1) →
  describe_data_plane (E:=Empty_set) fuel (Z.of_nat (length cluster - 1)) fanout =
    Some (Ok (Z.of_nat m, indices fanout m)) →
  (2 ≤ m)%nat → bound fanout m + fanout < two64 →
  ∀ k, (k < m)%nat → ∀ t c, L !! t = Some c → Z.of_nat t ≤ bound fanout (S k) →
    ∃ fwd, receives first c fwd.
Proof.
  intros Hj0 Hj0f Hn Hdesc Hm Hb. induction k as [|k IH]; intros Hk t c Ht Htk.
  - rewrite bound_1 in Htk by done. destruct (decide (t = j0)) as [->|Hne].
    { exists true. assert (c = first) as -> by congruence. constructor. }
    destruct (plan_layered j0 m 0) as (nb & Hplan & Hnb); [by eexists|lia|done..|lia| |].
    { rewrite (bound_1 fanout Hf). cbn [bound]. lia. }
    eapply sent; [constructor|done..|]. left. split; [done|]. rewrite Hnb by done. by apply (first_layer_elem j0 t).
  - destruct (decide (Z.of_nat t ≤ bound fanout (S k))) as [Hle|Hgt]; [by apply (IH ltac:(lia) t)|].
    destruct (parent_child fanout m k (Z.of_nat t - 1)) as (i & x & Hi & Hx & Hbefore); [done|lia|lia|lia|].
    pose proof (bound_nonneg fanout Hf k) as H0.
    destruct (lookup_lt_is_Some_2 L (Z.to_nat i)) as [ci Hci]; [apply lookup_lt_Some in Ht; lia|].
    destruct (IH ltac:(lia) (Z.to_nat i) ci Hci) as [fwd Hrec]; [lia|].
    destruct (plan_layered (Z.to_nat i) m k) as (nb & Hplan & _); [by eexists|lia|done..|lia|lia|].
    eapply sent; [done..|]. right. rewrite Z2Nat.id by lia. eapply children_of_elem; [done..|].
    rewrite list_lookup_delete_ge by lia. by replace (S (Z.to_nat (Z.of_nat t - 1))) with t by lia.
Qed.


End Cover.

End avalanche_proofs.

(** ** A cluster of six nodes with fanout 2 *)

Module avalanche_demo.
Import data_plane avalanche_proofs.

Definition node (id : Z) : ContactInfo := new_localhost id 0.
Definition demo_cluster : list ContactInfo := node <$> [3; 1; 6; 2; 5; 4].
Definition demo_view (c : ContactInfo) : list ContactInfo :=
  filter (λ x, x.(ci_id) ≠ c.(ci_id)) demo_cluster.

Ltac split_nodes :=
  repeat match goal with
  | H : _ ∈ _ :: _ |- _ => apply elem_of_cons in H as [->|H]
  | H : _ ∈ [] |- _ => by apply not_elem_of_nil in H
  end.

Lemma demo_view_ok c : c ∈ demo_cluster → demo_view c ++ [c] ≡ₚ demo_cluster.
Proof.
  intros Hc. unfold demo_cluster in Hc. cbn in Hc.
  split_nodes; vm_compute; solve_Permutation.
Qed.


(** The table that the leader broadcasts to: its peers, without itself *)
Definition demo_broadcast_table (leader : Z) : list ContactInfo :=
  take 2 (sort_by_stake (demo_view (node leader)) None).*2.

(** When the leader is in the first layer of the others, the last node that it
    broadcasts to is in their second layer: of the blobs that it gets from the
    leader, the first layer sees nothing. *)
Lemma leader_in_first_layer_gap :
  node 4 ∈ demo_broadcast_table 6 ∧
  ¬ ∃ forward, receives None 2 (Some 6) 6 demo_view (node 4) (node 5) forward.
Proof.
  split; [vm_compute; set_solver|]. intros [fwd Hrec].
  assert (∀ c b, receives None 2 (Some 6) 6 demo_view (node 4) c b →
    (c, b) ∈ [(node 4, true); (node 3, false); (node 2, false)]) as Hinv.
  { clear. induction 1 as [|c fwd c' flag nb ch Hc IH Hplan Hin]; [set_solver|].
    repeat (apply elem_of_cons in IH as [[= -> ->]|IH]); [..|by apply not_elem_of_nil in IH];
      vm_compute in Hplan; injection Hplan as <- <-; vm_compute in Hin;
      repeat (apply elem_of_cons in Hin as [[= -> ->]|Hin]); try (by apply not_elem_of_nil in Hin).
    - right; left.
    - right; right; left. }
  apply Hinv in Hrec. repeat (apply elem_of_cons in Hrec as [[=]|Hrec]). by apply not_elem_of_nil in Hrec.
Qed.
End avalanche_demo.
