(* ===== verification/Cluster.v ===== *)
(** * Cluster information: the node's side of gossip and repair

    core/src/clusterMessage.rs: the state of a node ([ClusterInfo]), what it reads
    from the gossip table, the messages it makes and the handlers of the messages
    it receives.  Sockets, threads, locks and metrics are left out: a handler
    returns the list of its replies with their addresses.

    [clock n] is the [n]-th reading of the clock in a call; [random] stands for
    the random choice of a peer.  A blocktree is the [Database] of [BlockStore]. *)

From S2P Require Import Prelude Interface Float Message Entry BlockStore Gossip DataPlane.

Import transaction contact_info crds_value crds.

(** ** Reading blobs (core/src/blockBufferPool.rs) *)

Module blob_reads.
Import blob blob_header meta blocktree.

Definition get_data_blob_bytes (db : Database) (slot index : Z) : option (list Z) :=
  db.(cf_data) !! (slot, index).
Definition get_coding_blob_bytes (db : Database) (slot index : Z) : option (list Z) :=
  db.(cf_coding) !! (slot, index).

Definition get_data_blob {E} (db : Database) (slot blob_index : Z) : res E (option Blob) :=
  match get_data_blob_bytes db slot blob_index with
  | None => Ok None
  | Some bytes =>
      b ← Blob_new bytes;
      if negb (blob_header.slot b =? slot) || negb (blob_header.index b =? blob_index) then Panic
      else Ok (Some b)
  end.
End blob_reads.

(** ** The state and the messages *)

Module cluster_info.
Import blob blob_header meta blocktree blob_reads data_plane gossip.

Definition MAX_ORPHAN_REPAIR_RESPONSES : Z := 10.

Inductive RepairType :=
| Orphan (slot : Z)
| HighestBlob (slot blob_index : Z)
| RepairBlob (slot blob_index : Z).

Inductive ClusterInfoError := ClusterNoPeers | NoLeader | BadContactInfo | BadGossipAddress.

Record PruneData := mkPruneData {
  pd_pubkey : Pubkey;
  prunes : list Pubkey;
  pd_signature : Signature;
  destination : Pubkey;
  pd_wallclock : Z
}.
Definition PruneSignData : Type := Pubkey * list Pubkey * Pubkey * Z.

Global Instance PruneData_signable `{Bincode PruneSignData} : signable.Signable PruneData := {|
  signable.pubkey := pd_pubkey;
  signable.signable_data d := serialize (d.(pd_pubkey), d.(prunes), d.(destination), d.(pd_wallclock));
  signable.get_signature := pd_signature;
  signable.set_signature s d :=
    mkPruneData d.(pd_pubkey) d.(prunes) s d.(destination) d.(pd_wallclock)
|}.

Inductive Protocol :=
| PullRequest (filter : Bloom) (caller : CrdsValue)
| PullResponse (from : Pubkey) (data : list CrdsValue)
| PushMessage (from : Pubkey) (data : list CrdsValue)
| PruneMessage (from : Pubkey) (data : PruneData)
| RequestWindowIndex (from : ContactInfo) (slot blob_index : Z)
| RequestHighestWindowIndex (from : ContactInfo) (slot highest_index : Z)
| RequestOrphan (from : ContactInfo) (slot : Z).

(** What is sent: a message or a stored blob, with the address *)
Inductive Reply :=
| SendMessage (to : SocketAddr) (m : Protocol)
| SendBlob (to : SocketAddr) (b : Blob).

Section ClusterInfo.
Context {K : Type} `{!signable.Ed25519 K} {env : GossipEnv}.
Context `{!Bincode SignData, !Bincode SlotsSignData, !Bincode VoteSignData, !Bincode PruneSignData}.
Context `{!Bincode Protocol}.

Record ClusterInfo := mkClusterInfo {
  gossip : CrdsGossip;
  keypair : K;
  gossip_leader_pubkey : Pubkey;
  entrypoint : option ContactInfo
}.
Definition with_gossip (g : CrdsGossip) (c : ClusterInfo) : ClusterInfo :=
  mkClusterInfo g c.(keypair) c.(gossip_leader_pubkey) c.(entrypoint).
Definition with_leader (p : Pubkey) (c : ClusterInfo) : ClusterInfo :=
  mkClusterInfo c.(gossip) c.(keypair) p c.(entrypoint).

Notation C := (M ClusterInfo CrdsGossipError).

(** [self.gossip.f(..)] *)
Definition on_gossip {A} (m : M CrdsGossip CrdsGossipError A) : C A := λ c,
  let '(r, g) := m c.(gossip) in (r, with_gossip g c).
(** [let _ = ..] *)
Definition ignore_err (m : C unit) : C unit := λ c,
  match m c with (Err _, c') => (Ok tt, c') | r => r end.

Definition id (c : ClusterInfo) : Pubkey := c.(gossip).(g_id).

Definition lookup_contact (c : ClusterInfo) (id : Pubkey) : option ContactInfo :=
  crds.lookup c.(gossip).(g_crds) (ContactInfoLabel id) ≫= contact_info.

Definition my_data {E} (c : ClusterInfo) : res E ContactInfo := unwrap (lookup_contact c (id c)).

(** [let _ = self.gossip.crds.insert(value, now)] *)
Definition crds_insert (v : CrdsValue) (now : Z) (c : ClusterInfo) : ClusterInfo :=
  with_gossip (with_crds (crds.insert sha256 v now c.(gossip).(g_crds)).2 c.(gossip)) c.

Definition insert_info (clock : nat → Z) (info : ContactInfo) (c : ClusterInfo) : ClusterInfo :=
  crds_insert (sign c.(keypair) (ContactInfoValue info)) (clock 0%nat) c.

Definition insert_self (clock : nat → Z) (info : ContactInfo) (c : ClusterInfo) : ClusterInfo :=
  if id c =? info.(ci_id)
  then crds_insert (sign c.(keypair) (ContactInfoValue info)) (clock 0%nat) c
  else c.

(** [self.gossip.process_push_message(values, now)] *)
Definition push_values (values : list CrdsValue) (now : Z) : C (list Pubkey) := λ c,
  let '(prunes, g) := gossip.process_push_message values now c.(gossip) in
  (Ok prunes, with_gossip g c).

Definition push_self (clock : nat → Z) (stakes : gmap Pubkey Z) : C unit :=
  c ← getM;
  my ← liftM (my_data c);
  let now := clock 0%nat in
  let entry := sign c.(keypair) (ContactInfoValue (with_wallclock now my)) in
  on_gossip (gossip.refresh_push_active_set (clock 1%nat) stakes);;
  push_values [entry] now;;
  mret tt.

Definition ClusterInfo_new (clock : nat → Z) (info : ContactInfo) (k : K)
    : res CrdsGossipError unit * ClusterInfo :=
  let me := mkClusterInfo CrdsGossip_default k Pubkey_default None in
  let me := with_gossip (set_self info.(ci_id) me.(gossip)) me in
  push_self (λ n, clock (S n)) ∅ (insert_self clock info me).

Definition set_entrypoint (e : ContactInfo) (c : ClusterInfo) : ClusterInfo :=
  mkClusterInfo c.(gossip) c.(keypair) c.(gossip_leader_pubkey) (Some e).

Definition leader_data (c : ClusterInfo) : option ContactInfo :=
  if c.(gossip_leader_pubkey) =? Pubkey_default then None
  else lookup_contact c c.(gossip_leader_pubkey).

Definition set_leader (leader_pubkey : Pubkey) (c : ClusterInfo) : ClusterInfo :=
  if negb (leader_pubkey =? c.(gossip_leader_pubkey)) then with_leader leader_pubkey c else c.

Definition push_epoch_slots (clock : nat → Z) (id : Pubkey) (root : Z) (slots : gset Z) : C unit :=
  c ← getM;
  let now := clock 0%nat in
  let entry := sign c.(keypair) (EpochSlotsValue (EpochSlots_new id root slots now)) in
  push_values [entry] now;;
  mret tt.

Definition push_vote (clock : nat → Z) (vote : Transaction) : C unit :=
  c ← getM;
  let now := clock 0%nat in
  let entry := sign c.(keypair) (VoteValue (Vote_new (id c) vote now)) in
  push_values [entry] now;;
  mret tt.

(** *** Reading the table *)

Definition table_values (c : ClusterInfo) : list VersionedCrdsValue :=
  snd <$> values_order c.(gossip).(g_crds).

Definition get_votes (since : Z) (c : ClusterInfo) : list Transaction * Z :=
  let votes := omap (λ x, v ← vote x.(value); Some (x.(insert_timestamp), v.(vote_transaction)))
    (filter (λ x, since < x.(insert_timestamp)) (table_values c)) in
  let max_ts := match fst <$> votes with [] => since | t :: ts => foldr Z.max t ts end in
  (snd <$> votes, max_ts).

(** [filter(|x| since.map(|since| x.insert_timestamp > since).unwrap_or(true))] *)
Definition newer_than (since : option Z) (x : VersionedCrdsValue) : bool :=
  match since with Some since => since <? x.(insert_timestamp) | None => true end.

Definition get_epoch_state_for_node {E} (pubkey : Pubkey) (since : option Z) (c : ClusterInfo)
    : res E (option (EpochSlots * Z)) :=
  match c.(gossip).(g_crds) !! EpochSlotsLabel pubkey with
  | Some x =>
      if newer_than since x
      then e ← unwrap (epoch_slots x.(value)); Ok (Some (e, x.(insert_timestamp))) else Ok None
  | None => Ok None
  end.
Definition get_gossiped_root_for_node {E} (pubkey : Pubkey) (since : option Z) (c : ClusterInfo)
    : res E (option Z) :=
  match c.(gossip).(g_crds) !! EpochSlotsLabel pubkey with
  | Some x =>
      if newer_than since x then e ← unwrap (epoch_slots x.(value)); Ok (Some e.(root)) else Ok None
  | None => Ok None
  end.
Definition get_contact_info_for_node {E} (pubkey : Pubkey) (c : ClusterInfo)
    : res E (option ContactInfo) :=
  match c.(gossip).(g_crds) !! ContactInfoLabel pubkey with
  | Some x => info ← unwrap (contact_info x.(value)); Ok (Some info)
  | None => Ok None
  end.

Definition purge (now : Z) (c : ClusterInfo) : ClusterInfo :=
  with_gossip (gossip.purge now c.(gossip)) c.

Definition contact_infos (c : ClusterInfo) : list ContactInfo :=
  omap (λ x, contact_info x.(value)) (table_values c).

Definition all_peers (c : ClusterInfo) : list (ContactInfo * Z) :=
  omap (λ x, ci ← contact_info x.(value); Some (ci, x.(local_timestamp))) (table_values c).

Definition rpc_peers {E} (c : ClusterInfo) : res E (list ContactInfo) :=
  me ← my_data c;
  Ok (filter (λ x, x.(ci_id) ≠ me.(ci_id) ∧ is_valid_address x.(rpc) = true) (contact_infos c)).
Definition gossip_peers {E} (c : ClusterInfo) : res E (list ContactInfo) :=
  me ← my_data c;
  Ok (filter (λ x, x.(ci_id) ≠ me.(ci_id) ∧ is_valid_address x.(ci_gossip) = true) (contact_infos c)).
Definition tvu_peers {E} (c : ClusterInfo) : res E (list ContactInfo) :=
  me ← my_data c;
  Ok (filter (λ x, is_valid_address x.(tvu) = true ∧ x.(ci_id) ≠ me.(ci_id)) (contact_infos c)).
Definition storage_peers {E} (c : ClusterInfo) : res E (list ContactInfo) :=
  me ← my_data c;
  Ok (filter (λ x, is_valid_address x.(storage_addr) = true ∧ x.(ci_id) ≠ me.(ci_id))
        (contact_infos c)).
Definition retransmit_peers {E} (c : ClusterInfo) : res E (list ContactInfo) :=
  me ← my_data c;
  Ok (filter (λ x, x.(ci_id) ≠ me.(ci_id) ∧ is_valid_address x.(tvu) = true) (contact_infos c)).
Definition repair_peers {E} (c : ClusterInfo) : res E (list ContactInfo) :=
  me ← my_data c;
  peers ← tvu_peers c;
  Ok (filter (λ x, x.(ci_id) ≠ me.(ci_id) ∧ is_valid_address x.(ci_gossip) = true) peers).
Definition tpu_peers {E} (c : ClusterInfo) : res E (list ContactInfo) :=
  me ← my_data c;
  Ok (filter (λ x, x.(ci_id) ≠ me.(ci_id) ∧ is_valid_address x.(tpu) = true) (contact_infos c)).

Definition is_spy_node (x : ContactInfo) : bool :=
  (negb (is_valid_address x.(tpu)) || negb (is_valid_address x.(ci_gossip))
   || negb (is_valid_address x.(tvu))) && negb (is_valid_address x.(storage_addr)).
Definition is_replicator (x : ContactInfo) : bool :=
  is_valid_address x.(storage_addr) && negb (is_valid_address x.(tpu)).

Definition sorted_tvu_peers {E} (stakes : option (gmap Pubkey Z)) (c : ClusterInfo)
    : res E (list ContactInfo) :=
  peers ← tvu_peers c;
  Ok (snd <$> sort_by_stake peers stakes).

(** [compute_retransmit_peers] with the lookups of [sorted_peers_and_index] *)
Definition compute_retransmit_peers {E} (fuel : nat) (stakes : option (gmap Pubkey Z))
    (c : ClusterInfo) (fanout : Z) : option (res E (list ContactInfo * list ContactInfo)) :=
  match (peers ← retransmit_peers c; self ← my_data c; Ok (peers, self) : res E _) with
  | Ok (peers, self) => data_plane.compute_retransmit_peers fuel self peers stakes fanout
  | Err e => Some (Err e)
  | Panic => Some Panic
  end.

(** *** Making messages *)

(** [to_shared_blob(..)]: the assertion on the length panics. *)
Definition to_shared_blob {E} (m : Protocol) (to : SocketAddr) : res E Reply :=
  if BLOB_SIZE <? serialized_size m then Panic else Ok (SendMessage to m).

Fixpoint to_shared_blobs {E} (reqs : list (SocketAddr * Protocol)) : res E (list Reply) :=
  match reqs with
  | [] => Ok []
  | (to, m) :: reqs' => b ← to_shared_blob m to; bs ← to_shared_blobs reqs'; Ok (b :: bs)
  end.

Definition repair_request (random : Z) (r : RepairType) (c : ClusterInfo)
    : res ClusterInfoError (SocketAddr * Protocol) :=
  valid ← repair_peers c;
  match valid with
  | [] => Err ClusterNoPeers
  | _ =>
      peer ← unwrap (valid !! Z.to_nat (random mod Z.of_nat (length valid)));
      my ← my_data c;
      Ok (peer.(ci_gossip),
          match r with
          | RepairBlob slot blob_index => RequestWindowIndex my slot blob_index
          | HighestBlob slot blob_index => RequestHighestWindowIndex my slot blob_index
          | Orphan slot => RequestOrphan my slot
          end)
  end.

(** The request to the entrypoint, when there is one *)
Definition add_entrypoint (c : ClusterInfo)
    : res CrdsGossipError (list (Pubkey * Bloom * SocketAddr * CrdsValue)) :=
  match c.(entrypoint) with
  | Some e =>
      self_info ← unwrap (crds.lookup c.(gossip).(g_crds) (ContactInfoLabel (id c)));
      f ← pull.build_crds_filter c.(gossip).(g_pull) c.(gossip).(g_crds);
      Ok [(e.(ci_id), f, e.(ci_gossip), self_info)]
  | None => Ok []
  end.

Definition new_pull_requests (clock : nat → Z) (stakes : gmap Pubkey Z)
    : C (list (SocketAddr * Protocol)) :=
  c ← getM;
  let now := clock 0%nat in
  pulls ← liftM (match gossip.new_pull_request now stakes c.(gossip) with
                 | Ok p => Ok [p]
                 | Err _ => Ok []
                 | Panic => Panic
                 end);
  let pr := omap (λ '(peer, f, self_info),
    peer_info ← lookup_contact c peer; Some (peer, f, peer_info.(ci_gossip), self_info)) pulls in
  pr ← liftM (match pr with [] => add_entrypoint c | _ => Ok pr end);
  putM (foldl (λ c '(peer, _, _, _),
    with_gossip (gossip.mark_pull_request_creation_time peer now c.(gossip)) c) c pr);;
  mret ((λ '(_, f, addr, self_info), (addr, PullRequest f self_info)) <$> pr).

Definition new_push_requests (clock : nat → Z) : C (list (SocketAddr * Protocol)) :=
  c ← getM;
  let self_id := c.(gossip).(g_id) in
  '(_, peers, msgs) ← on_gossip (gossip.new_push_messages (clock 0%nat));
  c ← getM;
  mret ((λ info, (info.(ci_gossip), PushMessage self_id msgs)) <$> omap (lookup_contact c) peers).

Definition gossip_request (clock : nat → Z) (stakes : gmap Pubkey Z)
    : C (list (SocketAddr * Protocol)) :=
  pulls ← new_pull_requests clock stakes;
  pushes ← new_push_requests (λ n, clock (S n));
  mret (pulls ++ pushes).

Definition run_gossip (clock : nat → Z) (stakes : gmap Pubkey Z) : C (list Reply) :=
  reqs ← gossip_request clock stakes;
  liftM (to_shared_blobs reqs).

(** *** Repair requests *)

Definition run_window_request {E} (from_addr : SocketAddr) (blocktree : option Database)
    (slot blob_index : Z) : res E (list Reply) :=
  match blocktree with
  | Some db =>
      blob ← get_data_blob db slot blob_index;
      Ok (match blob with Some b => [SendBlob from_addr b] | None => [] end)
  | None => Ok []
  end.

Definition run_highest_window_request {E} (from_addr : SocketAddr) (blocktree : option Database)
    (slot highest_index : Z) : res E (list Reply) :=
  match blocktree with
  | Some db =>
      match db.(cf_meta) !! slot with
      | Some m =>
          if highest_index <? m.(received) then
            blob ← get_data_blob db slot (u64_sub m.(received) 1);
            Ok (match blob with Some b => [SendBlob from_addr b] | None => [] end)
          else Ok []
      | None => Ok []
      end
  | None => Ok []
  end.

(** The [while] loop up the parents of a slot; [None] when the fuel runs out *)
Fixpoint orphan_loop {E} (fuel : nat) (from_addr : SocketAddr) (db : Database) (slot : Z)
    (max_responses : Z) (replies : list Reply) : option (res E (list Reply)) :=
  match db.(cf_meta) !! slot with
  | None => Some (Ok replies)
  | Some m =>
      match fuel with
      | O => None
      | S fuel' =>
          if m.(received) =? 0 then Some (Ok replies)
          else
          match get_data_blob db slot (u64_sub m.(received) 1) with
          | Ok blob =>
              let replies :=
                replies ++ match blob with Some b => [SendBlob from_addr b] | None => [] end in
              if is_parent_set m && (Z.of_nat (length replies) <=? max_responses)
              then orphan_loop fuel' from_addr db m.(parent_slot) max_responses replies
              else Some (Ok replies)
          | Err e => Some (Err e)
          | Panic => Some Panic
          end
      end
  end.
Definition run_orphan {E} (fuel : nat) (from_addr : SocketAddr) (blocktree : option Database)
    (slot max_responses : Z) : option (res E (list Reply)) :=
  match blocktree with
  | Some db => orphan_loop fuel from_addr db slot max_responses []
  | None => Some (Ok [])
  end.

(** *** Handling messages *)

Definition handle_pull_request (clock : nat → Z) (f : Bloom) (caller : CrdsValue)
    (from_addr : SocketAddr) : C (list Reply) :=
  me ← getM;
  let self_id := me.(gossip).(g_id) in
  match contact_info caller with
  | None => mret []
  | Some from =>
      if from.(ci_id) =? self_id then mret []
      else
      data ← on_gossip (gossip.process_pull_request caller f (clock 0%nat));
      let rsp := PullResponse self_id data in
      let to := if is_unspecified from.(ci_gossip).(ip) then from_addr else from.(ci_gossip) in
      b ← liftM (to_shared_blob rsp to);
      mret [b]
  end.

Definition handle_pull_response (clock : nat → Z) (from : Pubkey) (data : list CrdsValue) : C unit :=
  me ← getM;
  putM (with_gossip (gossip.process_pull_response from data (clock 0%nat) me.(gossip)).2 me).

Definition handle_push_message (clock : nat → Z) (from : Pubkey) (data : list CrdsValue)
    : C (list Reply) :=
  me ← getM;
  let self_id := me.(gossip).(g_id) in
  prunes ← push_values data (clock 0%nat);
  match prunes with
  | [] => mret []
  | _ =>
      me ← getM;
      let ci := lookup_contact me from in
      pushes ← new_push_requests (λ n, clock (1 + n)%nat);
      rsp ← match ci with
            | Some ci =>
                let msg := mkPruneData self_id prunes Signature_default from (clock 2%nat) in
                b ← liftM (to_shared_blob (PruneMessage self_id (signable.sign me.(keypair) msg))
                             ci.(ci_gossip));
                mret [b]
            | None => mret []
            end;
      blobs ← liftM (to_shared_blobs pushes);
      mret (rsp ++ blobs)
  end.

Definition get_repair_sender {E} (request : Protocol) : res E ContactInfo :=
  match request with
  | RequestWindowIndex from _ _ => Ok from
  | RequestHighestWindowIndex from _ _ => Ok from
  | RequestOrphan from _ => Ok from
  | _ => Panic
  end.

(** [fuel] is for [run_orphan]. *)
Definition handle_repair (fuel : nat) (clock : nat → Z) (from_addr : SocketAddr)
    (blocktree : option Database) (request : Protocol) : C (option (list Reply)) :=
  me ← getM;
  from ← liftM (get_repair_sender request);
  if from.(ci_id) =? me.(gossip).(g_id) then mret (Some [])
  else
  putM (with_gossip (with_crds (update_record_timestamp from.(ci_id) (clock 0%nat)
                                  me.(gossip).(g_crds)) me.(gossip)) me);;
  me ← getM;
  my_info ← liftM (my_data me);
  match request with
  | RequestWindowIndex _ slot blob_index =>
      r ← liftM (run_window_request from_addr blocktree slot blob_index); mret (Some r)
  | RequestHighestWindowIndex _ slot highest_index =>
      r ← liftM (run_highest_window_request from_addr blocktree slot highest_index); mret (Some r)
  | RequestOrphan _ slot =>
      match run_orphan fuel from_addr blocktree slot MAX_ORPHAN_REPAIR_RESPONSES with
      | Some r => r ← liftM r; mret (Some r)
      | None => mret None
      end
  | _ => panic
  end.

Definition handle_protocol (fuel : nat) (clock : nat → Z) (from_addr : SocketAddr)
    (blocktree : option Database) (request : Protocol) : C (option (list Reply)) :=
  match request with
  | PullRequest f caller =>
      if negb (verify caller) then mret (Some [])
      else r ← handle_pull_request clock f caller from_addr; mret (Some r)
  | PullResponse from data =>
      handle_pull_response clock from (filter (λ v, verify v = true) data);; mret (Some [])
  | PushMessage from data =>
      r ← handle_push_message clock from (filter (λ v, verify v = true) data); mret (Some r)
  | PruneMessage from data =>
      (if signable.verify data then
         ignore_err (on_gossip (gossip.process_prune_msg from data.(destination) data.(prunes)
                                  data.(pd_wallclock) (clock 0%nat)))
       else mret tt);;
      mret (Some [])
  | _ => handle_repair fuel clock from_addr blocktree request
  end.

(** The blob of a request: its bytes up to the size, and the sender *)
Definition handle_blob (fuel : nat) (clock : nat → Z) (blocktree : option Database)
    (from_addr : SocketAddr) (blob : Blob) : C (option (list Reply)) :=
  if Z.of_nat (length blob.(blob_bytes)) <? blob.(meta_size) then panic
  else
  match deserialize (take (Z.to_nat blob.(meta_size)) blob.(blob_bytes)) with
  | Some request => handle_protocol fuel clock from_addr blocktree request
  | None => mret (Some [])
  end.
End ClusterInfo.
End cluster_info.
