(* ===== verification/ClusterProofs.v ===== *)
(** * Cluster information: proofs

    What the handlers of [Cluster] guarantee: only signed values enter the gossip
    table, repair requests are answered from the block store without a panic, and
    what two unchecked fields of a message let its sender do. *)

From S2P Require Import Prelude Interface Float Message Entry BlockStore BlockStoreProofs BlockStoreChain Gossip GossipProofs DataPlane Cluster.

Import transaction contact_info crds_value crds.

(** What holds after a computation: of its first part, and of the rest when that
    part returns *)
Lemma bind_post {S E A B} (P : S → Prop) (m : M S E A) (k : A → M S E B) s :
  match m s with (Ok a, s') => P (k a s').2 | (_, s') => P s' end → P ((m ≫= k) s).2.
Proof. unfold mbind, M_bind. by destruct (m s) as [[] ?]. Qed.

Lemma bind_panic {S E A B} (m : M S E A) (k : A → M S E B) s :
  (m s).1 = Panic → ((m ≫= k) s).1 = Panic.
Proof. unfold mbind, M_bind. destruct (m s) as [[] ?]; by intros [=]. Qed.

(** ** Messages and the table *)

Module cluster_proofs.
Import cluster_info gossip.
Import bloom_proofs crds_proofs pull_proofs push_proofs.
Section ClusterInfo.
Context {K : Type} `{!signable.Ed25519 K} {env : GossipEnv} {laws : GossipLaws env}.
Context `{!Bincode SignData, !Bincode SlotsSignData, !Bincode VoteSignData, !Bincode PruneSignData}.
Context `{!Bincode Protocol}.

Notation table c := (g_crds (cluster_info.gossip (c : ClusterInfo (K:=K)))).
Notation table_ok := (table_ok sha256).

(** Every value of the new table was in the old one or is among [vs]. *)
Definition values_from (vs : list CrdsValue) (t t' : Crds) : Prop :=
  table_ok t' ∧ ∀ l v, crds.lookup t' l = Some v → crds.lookup t l = Some v ∨ v ∈ vs ∧ label v = l.

Lemma values_from_refl vs t : table_ok t → values_from vs t t.
Proof. intros Ht. split; [done|]. by left. Qed.
Lemma values_from_trans vs t1 t2 t3 : values_from vs t1 t2 → values_from vs t2 t3 → values_from vs t1 t3.
Proof. intros [_ H12] [Hok H23]. split; [done|]. intros l v [?%H12|?]%H23; auto. Qed.
Lemma values_from_weaken vs ws t t' : vs ⊆ ws → values_from vs t t' → values_from ws t t'.
Proof. intros Hsub [Hok Hf]. split; [done|]. intros l v [?|[? ?]]%Hf; [by left|right; auto]. Qed.
Lemma values_from_record vs t t' p now :
  values_from vs t t' → values_from vs t (update_record_timestamp p now t').
Proof. intros [Hok Hf]. split; [by apply update_record_ok|]. intros l v. rewrite update_record_lookup. apply Hf. Qed.

Lemma values_from_insert v now t : table_ok t → values_from [v] t (crds.insert sha256 v now t).2.
Proof.
  intros Ht. split; [by apply insert_table_ok|]. intros l w [?|[-> ->]]%insert_from; [by left|right|done].
  split; [set_solver|done].
Qed.

Lemma push_all_from vs now : ∀ push t rs push' t', table_ok t →
  push_all vs now push t = (rs, push', t') → values_from vs t t'.
Proof.
  induction vs as [|v vs IH]; intros push t rs push' t' Ht; cbn [push_all].
  { intros [= <- <- <-]. by apply values_from_refl. }
  destruct (push.process_push_message v now (push, t)) as [r [push1 t1]] eqn:H1.
  destruct (push_all vs now push1 t1) as [[rs1 push2] t2] eqn:H2. intros [= <- <- <-].
  pose proof (process_push_message_spec v now push t Ht) as Hspec. rewrite H1 in Hspec. cbv zeta in Hspec.
  assert (values_from [v] t t1) as Hv.
  { destruct r as [old|[]|]; try done;
      try (destruct Hspec as (_ & [= _ ->]); by apply values_from_refl);
      try (destruct Hspec as (_ & _ & _ & [= _ ->]); by apply values_from_refl);
      try (destruct Hspec as (_ & _ & _ & [= _ ->] & _); by apply values_from_refl).
    destruct Hspec as (_ & _ & _ & _ & -> & _). split.
    - intros l e. destruct (decide (l = label v)) as [->|Hne].
      + rewrite lookup_insert_eq. by intros [= <-].
      + rewrite lookup_insert_ne by done. apply Ht.
    - intros l w. unfold crds.lookup. destruct (decide (l = label v)) as [->|Hne].
      + rewrite lookup_insert_eq. intros [= <-]. right. split; [set_solver|done].
      + rewrite lookup_insert_ne by done. by left. }
  eapply values_from_trans.
  - eapply values_from_weaken; [|done]. set_solver.
  - eapply values_from_weaken; [|by eapply (IH push1 t1); [apply Hv|]]. set_solver.
Qed.

Lemma push_values_from vs now (c : ClusterInfo) : table_ok (table c) →
  values_from vs (table c) (table (push_values vs now c).2).
Proof.
  intros Ht. unfold push_values, gossip.process_push_message.
  destruct (push_all vs now _ _) as [[rs p] t'] eqn:Hp. destruct (collect_prunes _ _ _) as [prunes pl].
  cbn. by eapply push_all_from.
Qed.

(** Sending does not change the table. *)
Lemma new_push_requests_table clock (c : ClusterInfo) : table (new_push_requests clock c).2 = table c.
Proof.
  unfold new_push_requests. rewrite (bind_eval getM _ c c c eq_refl).
  apply (bind_post (λ c', table c' = table c)). unfold on_gossip, gossip.new_push_messages.
  rewrite (bind_eval getM _ _ _ _ eq_refl). by destruct (push.new_push_messages _ _ _) as [[[ps vs]| |] p].
Qed.

Lemma handle_push_from clock from vs (c : ClusterInfo) : table_ok (table c) →
  values_from vs (table c) (table (handle_push_message clock from vs c).2).
Proof.
  intros Ht. unfold handle_push_message. rewrite (bind_eval getM _ c c c eq_refl).
  pose proof (push_values_from vs (clock 0%nat) c Ht) as Hv. revert Hv. set (T := table c). intros Hv.
  apply (bind_post (λ c', values_from vs T (table c'))).
  destruct (push_values vs (clock 0%nat) c) as [[prunes|e|] c1]; [|done..].
  destruct prunes as [|p prunes]; [done|]. rewrite (bind_eval getM _ c1 c1 c1 eq_refl).
  apply (bind_post (λ c', values_from vs T (table c'))).
  pose proof (new_push_requests_table (λ n, clock (1 + n)%nat) c1) as H2.
  destruct (new_push_requests _ c1) as [r c2]. cbn [snd] in *. rewrite <- H2 in Hv.
  destruct r as [pushes|e|]; [|done..].
  apply (bind_post (λ c', values_from vs T (table c'))). destruct (lookup_contact c1 from) as [ci|].
  - match goal with |- context [to_shared_blob ?m ?a] => destruct (to_shared_blob m a) end; cbn; [|done..].
    by destruct (to_shared_blobs pushes).
  - cbn. by destruct (to_shared_blobs pushes).
Qed.

Lemma pull_request_from caller f now p t : table_ok t →
  values_from [caller] t (pull.process_pull_request caller f now (p, t)).2.2.
Proof.
  intros Ht. unfold pull.process_pull_request. rewrite (bind_eval getM _ (p, t) _ _ eq_refl).
  destruct (pull.filter_crds_values p t f) as [rv|e|]; [|by apply values_from_refl..].
  rewrite (bind_eval (liftM (Ok rv)) _ (p, t) _ _ eq_refl).
  pose proof (insert_ok_snd caller now t) as Hsnd. destruct (pull.insert_ok caller now t) as [old t1].
  cbn in Hsnd. subst t1. by apply (values_from_record [caller]), values_from_insert.
Qed.

Lemma handle_pull_request_from clock f caller addr (c : ClusterInfo) : table_ok (table c) →
  values_from [caller] (table c) (table (handle_pull_request clock f caller addr c).2).
Proof.
  intros Ht. unfold handle_pull_request. rewrite (bind_eval getM _ c c c eq_refl).
  destruct (contact_info caller) as [from|]; [|by apply values_from_refl].
  destruct (ci_id from =? g_id (cluster_info.gossip c)); [by apply values_from_refl|].
  pose proof (pull_request_from caller f (clock 0%nat) (g_pull (cluster_info.gossip c)) (table c) Ht) as Hv.
  apply (bind_post (λ c', values_from [caller] (table c) (table c'))).
  unfold on_gossip, gossip.process_pull_request. rewrite (bind_eval getM _ _ _ _ eq_refl).
  destruct (pull.process_pull_request _ _ _ _) as [[rv|e|] [p t']]; cbn in *; [|done..].
  unfold mbind, M_bind, liftM, putM. cbn.
  match goal with |- context [to_shared_blob ?m ?a] => by destruct (to_shared_blob m a) end.
Qed.

Lemma handle_pull_response_from clock from vs (c : ClusterInfo) : table_ok (table c) →
  values_from vs (table c) (table (handle_pull_response clock from vs c).2).
Proof.
  intros Ht. unfold handle_pull_response. rewrite (bind_eval getM _ c c c eq_refl). cbn.
  unfold gossip.process_pull_response.
  destruct (process_pull_response_spec from vs (clock 0%nat) (g_pull (cluster_info.gossip c)) (table c) Ht)
    as (failed & p & t' & Hrun & Hok & _ & _ & Hfrom).
  rewrite Hrun. cbn. split; [done|]. intros l v Hv. destruct (Hfrom l v Hv) as [?|?]; [by left|right].
  split; [done|]. by destruct (lookup_entry sha256 t' l v Hok Hv).
Qed.

Lemma handle_repair_from fuel clock addr bt req (c : ClusterInfo) : table_ok (table c) →
  values_from [] (table c) (table (handle_repair fuel clock addr bt req c).2).
Proof.
  intros Ht. unfold handle_repair. rewrite (bind_eval getM _ c c c eq_refl).
  apply (bind_post (λ c', values_from [] (table c) (table c'))). unfold liftM at 1.
  destruct (get_repair_sender req) as [from|e|]; [|by apply values_from_refl..].
  destruct (ci_id from =? _); [by apply values_from_refl|].
  set (c1 := with_gossip _ c).
  assert (values_from [] (table c) (table c1)) as Hv.
  { apply values_from_record. by apply values_from_refl. }
  rewrite (bind_eval (putM c1) _ c tt c1 eq_refl), (bind_eval getM _ c1 c1 c1 eq_refl). clearbody c1.
  apply (bind_post (λ c', values_from [] (table c) (table c'))). unfold liftM at 1.
  destruct (my_data c1) as [my|e|]; [|done..].
  destruct req; try done.
  - apply (bind_post (λ c', values_from [] (table c) (table c'))). cbn. by destruct (run_window_request _ _ _ _).
  - apply (bind_post (λ c', values_from [] (table c) (table c'))). cbn.
    by destruct (run_highest_window_request _ _ _ _).
  - destruct (run_orphan _ _ _ _ _) as [[r|e|]|]; done.
Qed.

(** The values that a message carries *)
Definition carried (m : Protocol) : list CrdsValue :=
  match m with
  | PullRequest _ caller => [caller]
  | PullResponse _ data => data
  | PushMessage _ data => data
  | _ => []
  end.

Lemma on_prune_table from dest origins wc now (c : ClusterInfo) :
  table (ignore_err (on_gossip (gossip.process_prune_msg from dest origins wc now)) c).2 = table c.
Proof.
  unfold ignore_err, on_gossip, gossip.process_prune_msg. rewrite (bind_eval getM _ _ _ _ eq_refl).
  case_match eqn:H1. revert H1. destruct (_ <? _); [by intros [= <- <-]|]. destruct (_ =? _); [|by intros [= <- <-]].
  destruct (push.process_prune_msg _ _ _) as [[]]; by intros [= <- <-].
Qed.

(** C18. Only signed values enter the table.  Whatever message a node handles,
    with whatever outcome, a value of its table was there before, or the message
    carries it and its signature verifies. *)
Theorem only_signed_values (fuel : nat) (clock : nat → Z) (from_addr : SocketAddr)
    (bt : option blocktree.Database) (m : Protocol) (c : ClusterInfo (K:=K))
    (Hok : table_ok (table c)) :
  let c' := (handle_protocol fuel clock from_addr bt m c).2 in
  table_ok (table c') ∧
  ∀ l v, crds.lookup (table c') l = Some v →
    crds.lookup (table c) l = Some v ∨ v ∈ carried m ∧ verify v = true ∧ label v = l.
Proof.
  intros c'.
  enough (values_from (filter (λ v, verify v = true) (carried m)) (table c) (table c')) as [Hok' Hfrom].
  { split; [done|]. intros l v [?|[[? ?]%list_elem_of_filter ?]]%Hfrom; auto. }
  set (vs := filter _ (carried m)). pose proof (values_from_refl vs _ Hok) as Hrefl.
  assert (values_from vs (table c) (table (handle_repair fuel clock from_addr bt m c).2)) as Hrepair.
  { eapply values_from_weaken; [|by apply handle_repair_from]. set_solver. }
  unfold c', handle_protocol. destruct m as [f caller|from data|from data|from data|from s i|from s i|from s];
    try done.
  - destruct (verify caller) eqn:Hv; cbn [negb]; [|done].
    apply (bind_post (λ c', values_from vs (table c) (table c'))).
    pose proof (handle_pull_request_from clock f caller from_addr c Hok) as Hp.
    assert ([caller] ⊆ vs) as Hsub.
    { unfold vs. intros v Hin. apply list_elem_of_filter. split; [|done]. by apply list_elem_of_singleton in Hin as ->. }
    destruct (handle_pull_request _ _ _ _ c) as [[] c1]; by eapply values_from_weaken.
  - apply (bind_post (λ c', values_from vs (table c) (table c'))).
    pose proof (handle_pull_response_from clock from vs c Hok) as Hp.
    fold vs. change (filter _ data) with vs. by destruct (handle_pull_response _ _ _ c) as [[] c1].
  - apply (bind_post (λ c', values_from vs (table c) (table c'))).
    pose proof (handle_push_from clock from vs c Hok) as Hp.
    change (filter _ data) with vs. by destruct (handle_push_message _ _ _ c) as [[] c1].
  - apply (bind_post (λ c', values_from vs (table c) (table c'))). destruct (signable.verify data); [|done].
    pose proof (on_prune_table from data.(destination) data.(prunes) data.(pd_wallclock) (clock 0%nat) c) as Hp.
    destruct (ignore_err _ c) as [[] c1]; cbn in Hp |- *; by rewrite Hp.
Qed.
End ClusterInfo.
End cluster_proofs.

(** ** Answering repair requests *)

Module repair_proofs.
Import blob blob_header meta blocktree store_proofs chain_proofs blob_reads cluster_info gossip.
Import crds_proofs.

(** Every stored blob is whole and is filed under the slot and the index of its header. *)
Definition headers_ok (db : Database) : Prop :=
  ∀ k bytes, db.(cf_data) !! k = Some bytes →
    112 ≤ Z.of_nat (length bytes) ≤ BLOB_SIZE ∧
    k = (slot (mkBlob bytes 0), index (mkBlob bytes 0)).

(** A blob as it is received: an array of [BLOB_SIZE] bytes *)
Definition full (b : Blob) : Prop := Z.of_nat (length b.(blob_bytes)) = BLOB_SIZE.

Lemma stored_header {E} b bytes : bytes_ok b → full b → stored_bytes (E:=E) b = Ok bytes →
  112 ≤ Z.of_nat (length bytes) ≤ BLOB_SIZE ∧
  (slot b, index b) = (slot (mkBlob bytes 0), index (mkBlob bytes 0)).
Proof.
  intros Hb Hfull Hs. split.
  - pose proof (stored_header_size b Hb) as Hn. unfold full in Hfull. unfold stored_bytes in Hs.
    destruct (Z.ltb_spec (Z.of_nat (length b.(blob_bytes))) (u64_add BLOB_HEADER_SIZE (blob_size b))); [done|].
    injection Hs as <-. rewrite length_take. lia.
  - unfold slot, index. by rewrite !(stored_read b bytes _ Hb Hs) by (cbn; lia).
Qed.

(** The stores that insertions of received blobs reach *)
Inductive inserted : Database → Prop :=
| inserted_none : inserted empty_db
| inserted_more db slot_order set_order reconstruct has_senders bs fuel0 out :
    inserted db →
    (∀ X, slot_order X ≡ₚ elements X) → (∀ X, set_order X ≡ₚ elements X) →
    Forall blob_ok bs → Forall full bs →
    (∀ fuel, (fuel0 ≤ fuel)%nat →
       insert_data_blobs db slot_order reconstruct set_order fuel has_senders bs = Ok out) →
    inserted out.(new_db).

Lemma inserted_ok db : inserted db → ledger_ok db ∧ headers_ok db.
Proof.
  induction 1 as [|db slot_order set_order rc hs bs fuel0 out Hdb [IHl IHh] Ho Hs Hbs Hfull Hrun].
  { split; [apply empty_ledger_ok|]. intros k bytes. cbn. by rewrite lookup_empty. }
  destruct (insertion_ends db slot_order set_order rc hs bs Ho Hs IHl Hbs)
    as (fuel1 & out' & Hrun' & Hl & _ & Hfrom & _).
  assert (out' = out) as ->.
  { specialize (Hrun (max fuel0 fuel1)). specialize (Hrun' (max fuel0 fuel1)).
    rewrite Hrun in Hrun' by lia. specialize (Hrun' ltac:(lia)). congruence. }
  split; [done|]. intros k bytes [?|(b & Hb & -> & Hst)]%Hfrom; [by apply IHh|].
  rewrite Forall_forall in Hbs, Hfull. eapply stored_header; [by apply Hbs|by apply Hfull|done].
Qed.

(** The blob that a read makes of stored bytes *)
Definition blob_of (bytes : list Z) : Blob :=
  let data := bytes ++ drop (length bytes) Blob_default.(blob_bytes) in
  mkBlob data (data_size (mkBlob data 0)).
Definition stored_blob (db : Database) (s i : Z) : option Blob := blob_of <$> db.(cf_data) !! (s, i).
(** The blob of the highest index of a slot *)
Definition highest_blob (db : Database) (s i : Z) (b : Blob) : Prop :=
  stored_blob db s i = Some b ∧ ∀ j, is_Some (db.(cf_data) !! (s, j)) → j ≤ i.

Lemma blob_of_read bytes n (r : range) : 112 ≤ Z.of_nat (length bytes) → (r.1 + r.2 ≤ 112)%nat →
  read_le r (mkBlob (bytes ++ drop (length bytes) Blob_default.(blob_bytes)) n) = read_le r (mkBlob bytes 0).
Proof.
  intros Hlen Hr. unfold read_le. cbn [blob_bytes]. rewrite drop_app_le, take_app_le; [done| |lia].
  rewrite length_drop. lia.
Qed.

Section Reads.
Context (db : Database) (Hdb : inserted db).

Lemma get_data_blob_ok {E} s i : get_data_blob (E:=E) db s i = Ok (stored_blob db s i).
Proof.
  destruct (inserted_ok db Hdb) as [_ Hh].
  unfold get_data_blob, get_data_blob_bytes, stored_blob. destruct (db.(cf_data) !! (s, i)) as [bytes|] eqn:Hb; [|done].
  destruct (Hh _ _ Hb) as [[Hmin Hmax] [= Hs Hi]]. unfold Blob_new.
  destruct (Z.leb_spec (Z.of_nat (length bytes)) BLOB_SIZE); [|lia]. cbn [negb].
  unfold mbind, res_bind. fold (blob_of bytes). unfold slot, index, blob_of. cbv zeta. cbn [blob_bytes].
  rewrite !blob_of_read by (done || cbn; lia). fold (slot (mkBlob bytes 0)) (index (mkBlob bytes 0)).
  by rewrite <- Hs, <- Hi, !Z.eqb_refl.
Qed.

Lemma stored_blob_header s i b : stored_blob db s i = Some b → slot b = s ∧ index b = i.
Proof.
  destruct (inserted_ok db Hdb) as [_ Hh]. unfold stored_blob.
  destruct (db.(cf_data) !! (s, i)) as [bytes|] eqn:Hb; [|done]. cbn. intros [= <-].
  destruct (Hh _ _ Hb) as [[Hmin _] [= Hs Hi]]. unfold slot, index, blob_of in *. cbv zeta.
  rewrite !blob_of_read by (done || cbn; lia). done.
Qed.

Lemma meta_ok s m : db.(cf_meta) !! s = Some m → slot_ok (λ i, db.(cf_data) !! (s, i)) m.
Proof.
  intros Hm. destruct (inserted_ok db Hdb) as [[Hst _ _] _]. specialize (Hst s). rewrite Hm in Hst.
  eapply slot_ok_ext; [|done..|exact Hst]. intros i. unfold blobs_of, find_blob. by rewrite lookup_empty.
Qed.
Lemma no_meta_no_blob s j : db.(cf_meta) !! s = None → db.(cf_data) !! (s, j) = None.
Proof.
  intros Hm. destruct (inserted_ok db Hdb) as [[Hst _ _] _]. specialize (Hst s). rewrite Hm in Hst. apply Hst.
Qed.
Lemma highest_of_meta s m : db.(cf_meta) !! s = Some m → m.(received) ≠ 0 →
  ∃ b, stored_blob db s (u64_sub m.(received) 1) = Some b ∧ highest_blob db s (m.(received) - 1) b.
Proof.
  intros Hm Hr. destruct (meta_ok s m Hm) as [_ _ _ Hrec Hbound [?|[bytes Hb]] _ _]; [done|].
  rewrite u64_sub_exact by (unfold u64_max, is_u64 in *; lia). exists (blob_of bytes). unfold highest_blob, stored_blob.
  rewrite Hb. split_and!; [done..|]. intros j Hj%Hbound. lia.
Qed.
Lemma bound_of_meta s m j : db.(cf_meta) !! s = Some m → m.(received) ≤ j → db.(cf_data) !! (s, j) = None.
Proof.
  intros Hm Hr. apply eq_None_not_Some. intros Hj%(ok_bound _ _ (meta_ok s m Hm)). lia.
Qed.

Lemma no_blobs s m j : db.(cf_meta) !! s = Some m → m.(received) = 0 → db.(cf_data) !! (s, j) = None.
Proof.
  intros Hm Hr. apply eq_None_not_Some. intros Hj%(ok_bound _ _ (meta_ok s m Hm)). lia.
Qed.

Lemma window_answer {E} addr s i :
  run_window_request (E:=E) addr (Some db) s i = Ok (SendBlob addr <$> option_list (stored_blob db s i)).
Proof. unfold run_window_request. rewrite get_data_blob_ok. by destruct (stored_blob db s i). Qed.

Lemma highest_answer {E} addr s h :
  ∃ replies, run_highest_window_request (E:=E) addr (Some db) s h = Ok replies ∧
    ((∃ i b, highest_blob db s i b ∧ h ≤ i ∧ replies = [SendBlob addr b]) ∨
     (replies = [] ∧ ∀ j, h ≤ j → db.(cf_data) !! (s, j) = None)).
Proof.
  unfold run_highest_window_request. destruct (db.(cf_meta) !! s) as [m|] eqn:Hm.
  - destruct (Z.ltb_spec h m.(received)).
    + rewrite get_data_blob_ok. destruct (decide (m.(received) = 0)) as [H0|H0].
      * unfold stored_blob. rewrite (no_blobs s m _ Hm H0). eexists. split; [done|right].
        split; [done|]. intros j _. by apply (no_blobs s m).
      * destruct (highest_of_meta s m Hm H0) as (b & -> & Hb). eexists. split; [done|left].
        exists (m.(received) - 1), b. split_and!; [done|lia|done].
    + eexists. split; [done|right]. split; [done|]. intros j Hj. eapply bound_of_meta; [done|]. lia.
  - eexists. split; [done|right]. split; [done|]. intros j _. by apply no_meta_no_blob.
Qed.

(** The slots up the parents of a slot, at most [n] *)
Fixpoint ancestors (n : nat) (s : Z) : list Z :=
  match n, db.(cf_meta) !! s with
  | S n', Some m =>
      if m.(received) =? 0 then []
      else s :: (if is_parent_set m then ancestors n' m.(parent_slot) else [])
  | _, _ => []
  end.

Definition highest_reply (addr : SocketAddr) (s : Z) (r : Reply) : Prop :=
  ∃ i b, highest_blob db s i b ∧ r = SendBlob addr b.

Lemma orphan_loop_answer {E} addr max n : ∀ s replies fuel,
  Z.of_nat (length replies) + Z.of_nat n = max → (S n < fuel)%nat →
  ∃ more, orphan_loop (E:=E) fuel addr db s max replies = Some (Ok (replies ++ more)) ∧
    Forall2 (highest_reply addr) (ancestors (S n) s) more.
Proof.
  induction n as [|n IH]; intros s replies fuel Hlen Hfuel; (destruct fuel as [|fuel]; [lia|]);
    cbn [orphan_loop]; unfold ancestors; fold ancestors;
    (destruct (db.(cf_meta) !! s) as [m|] eqn:Hm; [|exists []; by rewrite app_nil_r]);
    (destruct (Z.eqb_spec m.(received) 0) as [H0|H0]; [exists []; by rewrite app_nil_r|]);
    destruct (highest_of_meta s m Hm H0) as (b & Hb & Hh); rewrite get_data_blob_ok, Hb.
  - destruct (Z.leb_spec (Z.of_nat (length (replies ++ [SendBlob addr b]))) max) as [Hle|_].
    { rewrite length_app in Hle. cbn in Hle. lia. }
    rewrite andb_false_r. exists [SendBlob addr b]. split; [done|].
    assert ((if is_parent_set m then [] else []) = @nil Z) as -> by by destruct (is_parent_set m).
    constructor; [|constructor]. by eexists _, _.
  - destruct (is_parent_set m); cbn [andb].
    + destruct (Z.leb_spec (Z.of_nat (length (replies ++ [SendBlob addr b]))) max) as [_|Hgt];
        [|rewrite length_app in Hgt; cbn in Hgt; lia].
      destruct (IH m.(parent_slot) (replies ++ [SendBlob addr b]) fuel) as (more & Hrun & Hall);
        [rewrite length_app; cbn [length]; lia|lia|].
      exists (SendBlob addr b :: more). rewrite Hrun, <- app_assoc. split; [done|].
      constructor; [by eexists _, _|done].
    + exists [SendBlob addr b]. split; [done|]. constructor; [by eexists _, _|constructor].
Qed.

Lemma ancestors_length n : ∀ s, (length (ancestors n s) ≤ n)%nat.
Proof.
  induction n as [|n IH]; intros s; cbn [ancestors]; [done|]. destruct (db.(cf_meta) !! s) as [m|]; [|cbn; lia].
  destruct (_ =? 0); [cbn; lia|]. destruct (is_parent_set m); cbn [length]; [specialize (IH m.(parent_slot))|]; lia.
Qed.
End Reads.

Section Served.
Context {K : Type} `{!signable.Ed25519 K} {env : GossipEnv} {laws : GossipLaws env}.
Context `{!Bincode SignData, !Bincode SlotsSignData, !Bincode VoteSignData, !Bincode PruneSignData}.
Context `{!Bincode Protocol}.

Notation table c := (g_crds (cluster_info.gossip (c : ClusterInfo (K:=K)))).

(** The answer that a repair request asks for *)
Definition answers (db : Database) (addr : SocketAddr) (req : Protocol) (replies : list Reply) : Prop :=
  match req with
  | RequestWindowIndex _ s i => replies = SendBlob addr <$> option_list (stored_blob db s i)
  | RequestHighestWindowIndex _ s h =>
      (∃ i b, highest_blob db s i b ∧ h ≤ i ∧ replies = [SendBlob addr b]) ∨
      (replies = [] ∧ ∀ j, h ≤ j → db.(cf_data) !! (s, j) = None)
  | RequestOrphan _ s =>
      Forall2 (highest_reply db addr) (ancestors db (Z.to_nat MAX_ORPHAN_REPAIR_RESPONSES + 1) s) replies
  | _ => False
  end.

Lemma repairs_answered (fuel : nat) (clock : nat → Z) (addr : SocketAddr) (db : Database)
    (req : Protocol) (from : ContactInfo) (c : ClusterInfo (K:=K))
    (Hdb : inserted db) (Hfuel : (12 ≤ fuel)%nat)
    (Hself : is_Some (lookup_contact c (cluster_info.id c)))
    (Hfrom : get_repair_sender (E:=CrdsGossipError) req = Ok from)
    (Hother : ci_id from ≠ cluster_info.id c) :
  ∃ replies c', handle_protocol fuel clock addr (Some db) req c = (Ok (Some replies), c') ∧
    answers db addr req replies ∧
    Z.of_nat (length replies) ≤ MAX_ORPHAN_REPAIR_RESPONSES + 1 ∧
    ∀ l, crds.lookup (table c') l = crds.lookup (table c) l.
Proof.
  assert (handle_protocol fuel clock addr (Some db) req c = handle_repair fuel clock addr (Some db) req c) as ->.
  { by destruct req. }
  unfold handle_repair. rewrite (bind_eval getM _ c c c eq_refl), Hfrom.
  rewrite (bind_eval (liftM (Ok from)) _ c from c eq_refl).
  destruct (Z.eqb_spec (ci_id from) (g_id (cluster_info.gossip c))); [done|].
  set (c1 := with_gossip _ c).
  assert (∀ l, crds.lookup (table c1) l = crds.lookup (table c) l) as Hsame by (intros l; apply update_record_lookup).
  assert (∃ me, my_data (E:=CrdsGossipError) c1 = Ok me) as [me Hme].
  { destruct Hself as [me Hme]. exists me. unfold my_data, lookup_contact in *.
    change (cluster_info.id c1) with (cluster_info.id c). by rewrite Hsame, Hme. }
  rewrite (bind_eval (putM c1) _ c tt c1 eq_refl), (bind_eval getM _ c1 c1 c1 eq_refl), Hme.
  rewrite (bind_eval (liftM (Ok me)) _ c1 me c1 eq_refl). clearbody c1.
  destruct req as [| | | |from0 s i|from0 s h|from0 s]; try done.
  - rewrite (window_answer db Hdb). eexists _, c1. split_and!; [done..| |done].
    destruct (stored_blob db s i); cbn; unfold MAX_ORPHAN_REPAIR_RESPONSES; lia.
  - destruct (highest_answer db Hdb (E:=CrdsGossipError) addr s h) as (replies & -> & Ha).
    exists replies, c1. split_and!; [done..| |done]. unfold MAX_ORPHAN_REPAIR_RESPONSES.
    destruct Ha as [(i & b & _ & _ & ->)|[-> _]]; cbn; lia.
  - destruct (orphan_loop_answer db Hdb (E:=CrdsGossipError) addr MAX_ORPHAN_REPAIR_RESPONSES 10 s [] fuel)
      as (replies & Hrun & Hall); [done|lia|].
    unfold run_orphan. rewrite Hrun. exists replies, c1. split_and!; [done..| |done].
    apply Forall2_length in Hall as <-. pose proof (ancestors_length db 11 s). unfold MAX_ORPHAN_REPAIR_RESPONSES. lia.
Qed.

(** C25. Repair requests are served from the block store.  On a store that insertions
    reached, a node that knows itself answers every repair request of another node
    without a panic: a window request with the blob that was asked for, a highest
    window request with the highest blob of the slot when it reaches the index,
    and an orphan request with the highest blobs of the slot and its ancestors,
    one more than [MAX_ORPHAN_REPAIR_RESPONSES] at most.  The values of the gossip
    table do not change. *)
Theorem repairs_served (fuel : nat) (clock : nat → Z) (addr : SocketAddr) (db : Database)
    (req : Protocol) (from : ContactInfo) (c : ClusterInfo (K:=K))
    (Hdb : inserted db) (Hfuel : (12 ≤ fuel)%nat)
    (Hself : is_Some (lookup_contact c (cluster_info.id c)))
    (Hfrom : get_repair_sender (E:=CrdsGossipError) req = Ok from)
    (Hother : ci_id from ≠ cluster_info.id c) :
  ∃ replies c', handle_protocol fuel clock addr (Some db) req c = (Ok (Some replies), c') ∧
    answers db addr req replies ∧
    Z.of_nat (length replies) ≤ MAX_ORPHAN_REPAIR_RESPONSES + 1 ∧
    ∀ l, crds.lookup (table c') l = crds.lookup (table c) l.
Proof. by eapply repairs_answered. Qed.

(** ** Two unchecked fields *)

(** A prune message is applied to the peer that its [from] field names; the
    signature that is checked is that of [data.pubkey].  So any node can make this
    node stop pushing values to any peer of its active set. *)
Lemma prune_from_is_unchecked fuel clock addr bt victim data b (c : ClusterInfo (K:=K)) :
  let push := g_push (cluster_info.gossip c) in
  push_proofs.filters_ok push.(push.active_set) →
  signable.verify data = true → data.(destination) = cluster_info.id c →
  clock 0%nat ≤ u64_add data.(pd_wallclock) push.(push.prune_timeout) →
  push.(push.active_set) !! victim = Some b →
  ∃ c' b', handle_protocol fuel clock addr bt (PruneMessage victim data) c = (Ok (Some []), c') ∧
    push.active_set (g_push (cluster_info.gossip c')) !! victim = Some b' ∧
    ∀ o, o ∈ data.(prunes) → pull_proofs.found b' o = true.
Proof.
  intros push Hok Hver Hdest Hnow Hb. unfold handle_protocol. rewrite Hver.
  destruct (push_proofs.prune_spec victim data.(prunes) push Hok) as (a & Hrun & [_ Hgrow] & _ & Hall).
  destruct (Hgrow _ _ Hb) as (b' & Hb' & _).
  unfold mbind at 1, M_bind, ignore_err, on_gossip, gossip.process_prune_msg.
  rewrite (bind_eval getM _ _ _ _ eq_refl). fold push.
  destruct (Z.ltb_spec (u64_add data.(pd_wallclock) push.(push.prune_timeout)) (clock 0%nat)); [lia|].
  rewrite Hdest. unfold cluster_info.id. rewrite Z.eqb_refl, Hrun. eexists _, b'. split; [done|].
  split; [done|]. intros o. by apply Hall.
Qed.

(** The filter of a pull request is not checked: one that has keys and no bits
    makes the node that answers divide by zero. *)
Lemma empty_filter_panics fuel clock addr bt f caller from (c : ClusterInfo (K:=K)) :
  verify caller = true → contact_info caller = Some from → ci_id from ≠ cluster_info.id c →
  bloom.bits f = [] → bloom.keys f ≠ [] → table c ≠ ∅ →
  (handle_protocol fuel clock addr bt (PullRequest f caller) c).1 = Panic.
Proof.
  intros Hver Hci Hne Hbits Hkeys Ht. unfold handle_protocol. rewrite Hver. cbn [negb].
  apply bind_panic. unfold handle_pull_request. rewrite (bind_eval getM _ c c c eq_refl), Hci.
  destruct (Z.eqb_spec (ci_id from) (g_id (cluster_info.gossip c))); [done|]. apply bind_panic.
  assert (pull.filter_crds_values (g_pull (cluster_info.gossip c)) (table c) f = Panic) as Hp.
  { unfold pull.filter_crds_values. destruct (values_order (table c)) as [|[l e] vs] eqn:Hvs.
    - exfalso. apply Ht. pose proof (pull_proofs.elem_of_values (table c)) as Hel. rewrite Hvs in Hel.
      apply map_eq. intros l. rewrite lookup_empty. destruct (table c !! l) as [e|] eqn:He; [|done].
      apply Hel in He. by apply not_elem_of_nil in He.
    - cbn. unfold bloom.contains. destruct (bloom.keys f) as [|k ks]; [done|]. cbn. unfold bloom.pos. by rewrite Hbits. }
  unfold on_gossip, gossip.process_pull_request. rewrite (bind_eval getM _ _ _ _ eq_refl).
  unfold pull.process_pull_request. rewrite (bind_eval getM _ _ _ _ eq_refl), Hp. done.
Qed.
End Served.
End repair_proofs.

(** ** Examples *)

Module cluster_demo.
Import blob blob_header meta blocktree store_proofs chain_proofs cluster_info gossip crds_proofs repair_proofs.
Import gossip_demo cluster_proofs.

#[local] Existing Instance demo_env.
#[local] Existing Instance demo_laws.
(** A signature is the key in front of the data. *)
#[local] Instance demo_keys : signable.Ed25519 Z := {|
  signable.sign_message k data := k :: data;
  signable.sig_verify s k data := bool_decide (s = k :: data)
|}.
#[local] Instance no_bincode A : Bincode A :=
  {| serialize _ := []; deserialize _ := None; serialize_into _ buf := (None, buf) |}.

Definition demo_node : ClusterInfo (K:=Z) := mkClusterInfo demo_gossip 1 0 None.

(** Of two pushed values the signed one is taken. *)
Lemma only_signed_values_witness :
  let m := PushMessage 2 [sign 5 (contact 5 90); sign 7 (contact 6 90)] in
  let c' := (handle_protocol 0 (λ _, 100) socketaddr_any None m demo_node).2 in
  crds.lookup (g_crds (cluster_info.gossip c')) (ContactInfoLabel 5) = Some (sign 5 (contact 5 90)) ∧
  crds.lookup (g_crds (cluster_info.gossip c')) (ContactInfoLabel 6) = None.
Proof.
  intros m c'. split; [vm_compute; reflexivity|].
  destruct (only_signed_values 0 (λ _, 100) socketaddr_any None m demo_node (table_of_ok _)) as [_ Hfrom].
  destruct (crds.lookup (g_crds (cluster_info.gossip c')) (ContactInfoLabel 6)) as [v|] eqn:Hv; [|reflexivity].
  destruct (Hfrom _ _ Hv) as [Hold|(Hin & Hver & Hl)]; [vm_compute in Hold; discriminate|].
  cbn [carried m] in Hin. split_elements; vm_compute in Hver, Hl; discriminate.
Defined.

(** The store after the insertion of one blob *)
Definition first_db : Database :=
  match insert_data_blobs empty_db elements (λ _ _, None) elements 10 true [first_blob] with
  | Ok out => out.(new_db)
  | _ => empty_db
  end.
Lemma first_db_inserted : inserted first_db.
Proof.
  assert (Forall blob_ok [first_blob]) as Hb.
  { constructor; [|constructor]. split; [apply first_blob_bytes|].
    split; [vm_compute; reflexivity|right; vm_compute; reflexivity]. }
  destruct (insertion_ends empty_db elements elements (λ _ _, None) true [first_blob]
    elements_slots elements_sets empty_ledger_ok Hb) as (fuel0 & out & Hrun & _).
  assert (inserted out.(new_db)) as Hout.
  { eapply (inserted_more empty_db elements elements); [constructor|done..| |done].
    constructor; [vm_compute; reflexivity|constructor]. }
  assert (∀ n, (10 ≤ n)%nat →
    insert_data_blobs empty_db elements (λ _ _, None) elements n true [first_blob] =
    insert_data_blobs empty_db elements (λ _ _, None) elements 10 true [first_blob]) as Hsame.
  { intros n Hn. do 10 (destruct n as [|n]; [lia|]). vm_compute. reflexivity. }
  unfold first_db. rewrite <- (Hsame (10 + fuel0)%nat), Hrun by lia. done.
Qed.

(** Node 2 asks for the highest blob of slot 1, whose only blob has index 0. *)
Lemma repairs_served_witness :
  ∃ replies c', handle_protocol 12 (λ _, 100) socketaddr_any (Some first_db)
      (RequestHighestWindowIndex (new_localhost 2 90) 1 0) demo_node = (Ok (Some replies), c') ∧
    Z.of_nat (length replies) = 1.
Proof.
  destruct (repairs_served 12 (λ _, 100) socketaddr_any first_db
    (RequestHighestWindowIndex (new_localhost 2 90) 1 0) (new_localhost 2 90) demo_node first_db_inserted)
    as (replies & c' & Hrun & Ha & _); [lia|vm_compute; eexists; reflexivity|reflexivity|vm_compute; congruence|].
  exists replies, c'. split; [exact Hrun|].
  destruct Ha as [(i & b & _ & _ & ->)|[_ Hnone]]; [reflexivity|]. exfalso.
  pose proof (Hnone 0 (Z.le_refl 0)) as H0. vm_compute in H0. discriminate.
Defined.
End cluster_demo.
