(* ===== verification/Repair.v ===== *)
(** * Repair: finding and sending missing blobs

    core/src/fixMissingSpotService.rs ([repair_service]) finds the blobs that a node
    misses and asks for them, and tells gossip which slots are complete.
    core/src/ClusterFixMessageListener.rs ([repairmen]) sends the blobs of rooted
    slots to the peers whose gossip shows that they miss them.

    Threads, sleeping, metrics and the sockets are left out: an operation returns
    what it sends.  The order of a hash map and the shuffle of the rand crates are
    parameters. *)

From stdpp Require Import sorting.
From S2P Require Import Prelude Interface Codec Float Message Entry EpochSchedule BlockStore Gossip DataPlane Cluster.

Import transaction contact_info crds_value crds.

(** ** The repair service *)

Module repair_service.
Import meta blocktree cluster_info.

Definition MAX_REPAIR_LENGTH : nat := 16.
Definition MAX_ORPHANS : nat := 5.

Record RepairSlotRange := mkRange { range_start : Z; range_end : Z }.
Definition RepairSlotRange_default : RepairSlotRange := mkRange 0 u64_max.

(** [SlotMeta { slot, ..SlotMeta::default() }] *)
Definition SlotMeta_default (slot : Z) : SlotMeta := mkSlotMeta slot 0 0 0 0 [] false.

Section Repairs.
Context (db : Database).

Definition generate_repairs_for_slot (slot : Z) (slot_meta : SlotMeta) (max_repairs : nat)
    : list RepairType :=
  if is_full slot_meta then []
  else if slot_meta.(consumed) =? slot_meta.(received) then [HighestBlob slot slot_meta.(received)]
  else RepairBlob slot <$> find_missing_data_indexes db slot slot_meta.(consumed)
         slot_meta.(received) max_repairs.

(** [for slot in repair_range.start..=repair_range.end]; [None] when the fuel runs out *)
Fixpoint range_loop (fuel : nat) (slot last : Z) (max_repairs : nat) (repairs : list RepairType)
    : option (list RepairType) :=
  if last <? slot then Some repairs
  else if (max_repairs <=? length repairs)%nat then Some repairs
  else
  match fuel with
  | O => None
  | S fuel' =>
      let m := default (SlotMeta_default slot) (db.(cf_meta) !! slot) in
      range_loop fuel' (slot + 1) last max_repairs
        (repairs ++ generate_repairs_for_slot slot m (max_repairs - length repairs))
  end.
Definition generate_repairs_in_range (fuel max_repairs : nat) (repair_range : RepairSlotRange)
    : option (list RepairType) :=
  range_loop fuel repair_range.(range_start) repair_range.(range_end) max_repairs [].

Definition generate_repairs_for_orphans (orphans : list Z) (repairs : list RepairType)
    : list RepairType :=
  repairs ++ (Orphan <$> orphans).

(** The loop over [pending_slots], whose last element comes first here *)
Fixpoint fork_loop (fuel : nat) (pending_slots : list Z) (max_repairs : nat)
    (repairs : list RepairType) : option (list RepairType) :=
  if (max_repairs <=? length repairs)%nat then Some repairs
  else
  match pending_slots with
  | [] => Some repairs
  | slot :: pending_slots' =>
      match fuel with
      | O => None
      | S fuel' =>
          match db.(cf_meta) !! slot with
          | Some slot_meta =>
              fork_loop fuel' (reverse slot_meta.(next_slots) ++ pending_slots') max_repairs
                (repairs ++ generate_repairs_for_slot slot slot_meta (max_repairs - length repairs))
          | None => Some repairs
          end
      end
  end.
Definition generate_repairs_for_fork (fuel : nat) (repairs : list RepairType) (max_repairs : nat)
    (slot : Z) : option (list RepairType) :=
  fork_loop fuel [slot] max_repairs repairs.

Definition generate_repairs (fuel : nat) (root : Z) (max_repairs : nat) : option (list RepairType) :=
  repairs ← generate_repairs_for_fork fuel [] max_repairs root;
  Some (generate_repairs_for_orphans (get_orphans db (Some MAX_ORPHANS)) repairs).

(** [slot_meta_iterator(slot)]: the slots from [slot] on, in order *)
Definition slot_meta_iterator (slot : Z) : list (Z * SlotMeta) :=
  omap (λ s, m ← db.(cf_meta) !! s; Some (s, m))
    (filter (λ s, slot ≤ s) (merge_sort Z.le (map_to_list db.(cf_meta)).*1)).

Fixpoint completed_loop (metas : list (Z * SlotMeta)) (last_epoch_slot : Z)
    (slots_in_gossip : gset Z) : gset Z :=
  match metas with
  | [] => slots_in_gossip
  | (current_slot, m) :: metas' =>
      if last_epoch_slot <? current_slot then slots_in_gossip
      else completed_loop metas' last_epoch_slot
             (if is_full m then {[ current_slot ]} ∪ slots_in_gossip else slots_in_gossip)
  end.
Definition get_completed_slots_past_root (slots_in_gossip : gset Z) (root : Z)
    (schedule : epoch_schedule.EpochSchedule) : gset Z :=
  let last_confirmed_epoch := epoch_schedule.get_stakers_epoch schedule root in
  let last_epoch_slot := epoch_schedule.get_last_slot_in_epoch schedule last_confirmed_epoch in
  completed_loop (slot_meta_iterator (u64_add root 1)) last_epoch_slot slots_in_gossip.
End Repairs.

Definition retain_slots_greater_than_root (slot_set : gset Z) (root : Z) : gset Z :=
  filter (λ s, root < s) slot_set.

(** The slots of a message that are past the root; the flag says that one is new. *)
Definition add_completed (latest_known_root : Z) (completed_slots : list Z)
    (state : bool * gset Z) : bool * gset Z :=
  foldl (λ '(should_update, slots) slot,
    if latest_known_root <? slot
    then (should_update || bool_decide (slot ∉ slots), {[ slot ]} ∪ slots)
    else (should_update, slots)) state completed_slots.

Section Service.
Context {K : Type} `{!signable.Ed25519 K} {env : GossipEnv}.
Context `{!Bincode SignData, !Bincode SlotsSignData, !Bincode VoteSignData, !Bincode PruneSignData}.
Context `{!Bincode Protocol}.
Local Notation C := (M (ClusterInfo (K:=K)) CrdsGossipError).

Definition initialize_epoch_slots (clock : nat → Z) (id : Pubkey) (db : Database)
    (slots_in_gossip : gset Z) (root : Z) (schedule : epoch_schedule.EpochSchedule)
    : C (gset Z) :=
  let slots := get_completed_slots_past_root db slots_in_gossip root schedule in
  push_epoch_slots clock id root slots;;
  mret slots.

(** [completed] is what the channel holds.  The result is the new [prev_root] and
    [slots_in_gossip]. *)
Definition update_epoch_slots (clock : nat → Z) (id : Pubkey) (latest_known_root prev_root : Z)
    (slots_in_gossip : gset Z) (completed : list (list Z)) : C (Z * gset Z) :=
  let '(should_update, slots) :=
    foldl (λ state completed_slots, add_completed latest_known_root completed_slots state)
      (negb (latest_known_root =? prev_root), slots_in_gossip) completed in
  if should_update then
    let '(prev_root, slots) :=
      if negb (latest_known_root =? prev_root)
      then (latest_known_root, retain_slots_greater_than_root slots latest_known_root)
      else (prev_root, slots) in
    push_epoch_slots clock id latest_known_root slots;;
    mret (prev_root, slots)
  else mret (prev_root, slots).

(** [.filter_map(|repair_request| cluster_info.repair_request(..).ok())]; [random n] is
    the choice of the peer of the [n]-th request. *)
Fixpoint repair_requests {E} (random : nat → Z) (repairs : list RepairType) (c : ClusterInfo (K:=K))
    : res E (list (SocketAddr * Protocol * RepairType)) :=
  match repairs with
  | [] => Ok []
  | r :: repairs' =>
      match repair_request (random 0%nat) r c with
      | Ok (to, req) => rest ← repair_requests (λ n, random (S n)) repairs' c; Ok ((to, req, r) :: rest)
      | Err _ => repair_requests (λ n, random (S n)) repairs' c
      | Panic => Panic
      end
  end.

(** One turn of the loop of [run] with the strategy [RepairRange] *)
Definition repair_range_step (fuel : nat) (random : nat → Z) (db : Database)
    (repair_range : RepairSlotRange) : C (option (list (SocketAddr * Protocol * RepairType))) :=
  match generate_repairs_in_range db fuel MAX_REPAIR_LENGTH repair_range with
  | Some repairs => c ← getM; reqs ← liftM (repair_requests random repairs c); mret (Some reqs)
  | None => mret None
  end.

(** One turn with the strategy [RepairAll]; [new_root] is the root of the bank forks. *)
Definition repair_all_step (fuel : nat) (clock : nat → Z) (random : nat → Z) (db : Database)
    (new_root : Z) (completed : list (list Z)) (current_root : Z) (epoch_slots : gset Z)
    : C (Z * gset Z * option (list (SocketAddr * Protocol * RepairType))) :=
  c ← getM;
  '(current_root, epoch_slots) ←
    update_epoch_slots clock (id c) new_root current_root epoch_slots completed;
  match generate_repairs db fuel new_root MAX_REPAIR_LENGTH with
  | Some repairs =>
      c ← getM;
      reqs ← liftM (repair_requests random repairs c);
      mret (current_root, epoch_slots, Some reqs)
  | None => mret (current_root, epoch_slots, None)
  end.
End Service.
End repair_service.

(** ** Repairmen *)

Module repairmen.
Import meta blocktree blob_reads cluster_info.

Definition REPAIR_REDUNDANCY : Z := 1.
Definition NUM_BUFFER_SLOTS : Z := 50.
Definition GOSSIP_DELAY_SLOTS : Z := 2.
Definition NUM_SLOTS_PER_UPDATE : Z := 2.

Record BlobIndexesToRepairIterator := mkIterator {
  start_index : Z;
  num_blobs_to_send : Z;
  step_size : Z;
  num_blobs_in_slot : Z;
  blobs_sent : Z
}.
Definition Iterator_new (start_index num_blobs_to_send step_size num_blobs_in_slot : Z)
    : BlobIndexesToRepairIterator :=
  mkIterator start_index num_blobs_to_send step_size num_blobs_in_slot 0.

Definition next {E} : M BlobIndexesToRepairIterator E (option Z) :=
  self ← getM;
  if self.(blobs_sent) =? self.(num_blobs_to_send) then mret None
  else if self.(num_blobs_in_slot) =? 0 then panic
  else
  putM (mkIterator self.(start_index) self.(num_blobs_to_send) self.(step_size)
          self.(num_blobs_in_slot) (u64_add self.(blobs_sent) 1));;
  mret (Some (u64_add self.(start_index) (u64_mul self.(step_size) self.(blobs_sent))
              mod self.(num_blobs_in_slot))).

(** [for blob_index in iterator]: the indexes; [None] when the fuel runs out *)
Fixpoint indexes {E} (fuel : nat) (it : BlobIndexesToRepairIterator) : option (res E (list Z)) :=
  match next it with
  | (Ok None, _) => Some (Ok [])
  | (Ok (Some i), it') =>
      match fuel with
      | O => None
      | S fuel' => (λ r, l ← r; Ok (i :: l)) <$> indexes fuel' it'
      end
  | (Err e, _) => Some (Err e)
  | (Panic, _) => Some Panic
  end.

Definition should_repair_peer (repairman_root repairee_root num_buffer_slots : Z) : bool :=
  u64_add repairee_root num_buffer_slots <? repairman_root.

Definition get_last_ts (pubkey : Pubkey) (peer_roots : gmap Pubkey (Z * Z)) : option Z :=
  fst <$> peer_roots !! pubkey.

(** The division by the number of repairmen and the remainder by the number of
    blobs panic for zero. *)
Definition calculate_my_repairman_index_for_slot {E} (my_pubkey : Pubkey)
    (eligible_repairmen : list Pubkey) (num_blobs_in_slot repair_redundancy : Z)
    : res E (option BlobIndexesToRepairIterator) :=
  let total_blobs := u64_mul num_blobs_in_slot repair_redundancy in
  let total_repairmen_for_slot := Z.min total_blobs (Z.of_nat (length eligible_repairmen)) in
  if total_repairmen_for_slot =? 0 then Panic
  else
  let blobs_per_repairman :=
    Z.min (u64_sub (u64_add total_blobs total_repairmen_for_slot) 1 / total_repairmen_for_slot)
      num_blobs_in_slot in
  match list_find (eq my_pubkey) (take (Z.to_nat total_repairmen_for_slot) eligible_repairmen) with
  | Some (my_position, _) =>
      if num_blobs_in_slot =? 0 then Panic
      else Ok (Some (Iterator_new (Z.of_nat my_position mod num_blobs_in_slot) blobs_per_repairman
                       total_repairmen_for_slot num_blobs_in_slot))
  | None => Ok None
  end.

Definition find_eligible_repairmen (my_pubkey : Pubkey) (repairee_root : Z)
    (repairman_roots : gmap Pubkey (Z * Z)) (num_buffer_slots : Z) : list Pubkey :=
  let repairmen := omap (λ '(repairman_pubkey, (_, repairman_root)),
    if should_repair_peer repairman_root repairee_root (u64_sub num_buffer_slots GOSSIP_DELAY_SLOTS)
    then Some repairman_pubkey else None) (map_to_list repairman_roots) in
  merge_sort Z.le (repairmen ++ [my_pubkey]).

Section Listener.
Context {K : Type} `{!signable.Ed25519 K} {env : GossipEnv}.
(** [ChaChaRng::from_seed] and [shuffle] *)
Context (chacha_shuffle : list Z → list Pubkey → list Pubkey).
Context (repairee_order : gmap Pubkey EpochSlots → list (Pubkey * EpochSlots)).

(** The seed is the key of the repairee, its first bytes replaced by the root. *)
Definition shuffle_repairmen (eligible_repairmen : list Pubkey) (repairee_pubkey : Pubkey)
    (repairee_root : Z) : list Pubkey :=
  chacha_shuffle (le_enc 8 repairee_root ++ drop 8 (be_enc 32 repairee_pubkey)) eligible_repairmen.

(** The cached root is the state. *)
Definition read_my_gossiped_root {E} (my_pubkey : Pubkey) (c : ClusterInfo (K:=K)) : M Z E Z :=
  new_root ← liftM (get_gossiped_root_for_node my_pubkey None c);
  match new_root with
  | Some new_root => putM new_root;; mret new_root
  | None => getM
  end.

(** The state is [peer_roots] and [my_gossiped_root]. *)
Definition process_potential_repairee {E} (my_pubkey peer_pubkey : Pubkey) (c : ClusterInfo (K:=K))
    : M (gmap Pubkey (Z * Z) * Z) E (option EpochSlots) := λ '(peer_roots, my_gossiped_root),
  let last_cached_repair_ts := get_last_ts peer_pubkey peer_roots in
  match read_my_gossiped_root my_pubkey c my_gossiped_root with
  | (Ok my_root, my_gossiped_root) =>
      match get_epoch_state_for_node peer_pubkey last_cached_repair_ts c with
      | Ok (Some (peer_epoch_slots, updated_ts)) =>
          let peer_entry := default (0, 0) (peer_roots !! peer_pubkey) in
          let peer_root := Z.max peer_epoch_slots.(root) peer_entry.2 in
          let '(result, last_repair_ts) :=
            if should_repair_peer my_root peer_epoch_slots.(root) NUM_BUFFER_SLOTS
            then (Some peer_epoch_slots, updated_ts) else (None, peer_entry.1) in
          (Ok result, (<[peer_pubkey := (last_repair_ts, peer_root)]> peer_roots, my_gossiped_root))
      | Ok None => (Ok None, (peer_roots, my_gossiped_root))
      | Err e => (Err e, (peer_roots, my_gossiped_root))
      | Panic => (Panic, (peer_roots, my_gossiped_root))
      end
  | (Err e, my_gossiped_root) => (Err e, (peer_roots, my_gossiped_root))
  | (Panic, my_gossiped_root) => (Panic, (peer_roots, my_gossiped_root))
  end.

(** What is sent to the repairee for an index: the data blob and the coding blob *)
Definition blobs_at (db : Database) (slot index : Z) : list (list Z) :=
  option_list (get_data_blob_bytes db slot index) ++ option_list (get_coding_blob_bytes db slot index).

(** The loop over the rooted slots, whose state is that of the iterator; sends
    [(repairee_tvu, bytes)].  [None] when the fuel runs out *)
Fixpoint serve_loop (fuel : nat) (my_pubkey : Pubkey) (my_root : Z) (db : Database)
    (repairee_epoch_slots : EpochSlots) (eligible_repairmen : list Pubkey)
    (num_slots_to_repair max_confirmed_repairee_slot : Z) (next_slots : list Z)
    (num_slots_repaired : Z) : option (res BlocktreeError (list (list Z))) :=
  match RootedSlotIterator_next db next_slots with
  | (Ok None, _) => Some (Ok [])
  | (Ok (Some (slot, slot_meta)), next_slots') =>
      if (my_root <? slot) || (num_slots_to_repair <=? num_slots_repaired)
         || (max_confirmed_repairee_slot <? slot) then Some (Ok [])
      else
      match fuel with
      | O => None
      | S fuel' =>
          let continue := serve_loop fuel' my_pubkey my_root db repairee_epoch_slots
            eligible_repairmen num_slots_to_repair max_confirmed_repairee_slot next_slots' in
          if bool_decide (slot ∈ repairee_epoch_slots.(slots)) then continue num_slots_repaired
          else
          match calculate_my_repairman_index_for_slot my_pubkey eligible_repairmen
                  slot_meta.(received) REPAIR_REDUNDANCY with
          | Ok (Some my_repair_indexes) =>
              match indexes (Z.to_nat my_repair_indexes.(num_blobs_to_send)) my_repair_indexes with
              | Some (Ok l) =>
                  (λ r, rest ← r; Ok ((l ≫= blobs_at db slot) ++ rest))
                    <$> continue (u64_add num_slots_repaired 1)
              | Some (Err e) => Some (Err e)
              | Some Panic => Some Panic
              | None => None
              end
          | Ok None => continue num_slots_repaired
          | Err e => Some (Err e)
          | Panic => Some Panic
          end
      end
  | (Err e, _) => Some (Err e)
  | (Panic, _) => Some Panic
  end.

Definition serve_repairs_to_repairee (fuel : nat) (my_pubkey : Pubkey) (my_root : Z) (db : Database)
    (repairee_epoch_slots : EpochSlots) (eligible_repairmen : list Pubkey)
    (num_slots_to_repair : Z) (schedule : epoch_schedule.EpochSchedule)
    : option (res BlocktreeError (list (list Z))) :=
  match RootedSlotIterator_new db (u64_add repairee_epoch_slots.(root) 1) with
  | Ok next_slots =>
      let max_confirmed_repairee_epoch :=
        epoch_schedule.get_stakers_epoch schedule repairee_epoch_slots.(root) in
      serve_loop fuel my_pubkey my_root db repairee_epoch_slots eligible_repairmen
        num_slots_to_repair
        (epoch_schedule.get_last_slot_in_epoch schedule max_confirmed_repairee_epoch) next_slots 0
  | Err _ => Some (Ok [])
  | Panic => Some Panic
  end.

(** The state is [my_gossiped_root]; an error of one repairee is ignored. *)
Fixpoint serve_all (fuel : nat) (my_pubkey : Pubkey) (db : Database)
    (peer_roots : gmap Pubkey (Z * Z)) (repairees : list (Pubkey * EpochSlots))
    (c : ClusterInfo (K:=K)) (schedule : epoch_schedule.EpochSchedule)
    : M Z BlocktreeError (option (list (SocketAddr * list Z))) :=
  match repairees with
  | [] => mret (Some [])
  | (repairee_pubkey, repairee_epoch_slots) :: repairees' =>
      contact_info ← liftM (get_contact_info_for_node repairee_pubkey c);
      match contact_info with
      | None => serve_all fuel my_pubkey db peer_roots repairees' c schedule
      | Some info =>
          let eligible_repairmen :=
            shuffle_repairmen
              (find_eligible_repairmen my_pubkey repairee_epoch_slots.(root) peer_roots
                 NUM_BUFFER_SLOTS) repairee_pubkey repairee_epoch_slots.(root) in
          my_root ← read_my_gossiped_root my_pubkey c;
          match serve_repairs_to_repairee fuel my_pubkey my_root db repairee_epoch_slots
                  eligible_repairmen NUM_SLOTS_PER_UPDATE schedule with
          | None => mret None
          | Some Panic => panic
          | Some r =>
              let sent := match r with Ok sent => (λ bytes, (info.(tvu), bytes)) <$> sent | _ => [] end in
              rest ← serve_all fuel my_pubkey db peer_roots repairees' c schedule;
              mret (app sent <$> rest)
          end
      end
  end.
Definition serve_repairs (fuel : nat) (my_pubkey : Pubkey) (db : Database)
    (peer_roots : gmap Pubkey (Z * Z)) (repairees : gmap Pubkey EpochSlots) (c : ClusterInfo (K:=K))
    (schedule : epoch_schedule.EpochSchedule)
    : M Z BlocktreeError (option (list (SocketAddr * list Z))) :=
  serve_all fuel my_pubkey db peer_roots (repairee_order repairees) c schedule.

(** The peers that need repairs *)
Fixpoint find_repairees {E} (my_pubkey : Pubkey) (peers : list ContactInfo) (c : ClusterInfo (K:=K))
    (peers_needing_repairs : gmap Pubkey EpochSlots)
    : M (gmap Pubkey (Z * Z) * Z) E (gmap Pubkey EpochSlots) :=
  match peers with
  | [] => mret peers_needing_repairs
  | peer :: peers' =>
      r ← process_potential_repairee my_pubkey peer.(ci_id) c;
      find_repairees my_pubkey peers' c
        (match r with
         | Some repairee_epoch_slots => <[peer.(ci_id) := repairee_epoch_slots]> peers_needing_repairs
         | None => peers_needing_repairs
         end)
  end.

(** One turn of [recv_loop] *)
Definition recv_step (fuel : nat) (db : Database) (c : ClusterInfo (K:=K))
    (schedule : epoch_schedule.EpochSchedule)
    : M (gmap Pubkey (Z * Z) * Z) BlocktreeError (option (list (SocketAddr * list Z))) :=
  let my_pubkey := id c in
  peers ← liftM (gossip_peers c);
  peers_needing_repairs ← find_repairees my_pubkey peers c ∅;
  '(peer_roots, my_gossiped_root) ← getM;
  match serve_repairs fuel my_pubkey db peer_roots peers_needing_repairs c schedule my_gossiped_root with
  | (Ok sent, my_gossiped_root) => putM (peer_roots, my_gossiped_root);; mret sent
  | (Err _, my_gossiped_root) => putM (peer_roots, my_gossiped_root);; mret (Some [])
  | (Panic, my_gossiped_root) => putM (peer_roots, my_gossiped_root);; panic
  end.
End Listener.
End repairmen.
