(* ===== verification/RepairProofs.v ===== *)
(** * Repair: proofs

    The repair service asks for exactly the blobs that are missing, what another
    node sends back is always one of them, and the repairmen of a slot share its
    blobs so that each is sent. *)

From stdpp Require Import sorting.
From S2P Require Import Prelude Interface Codec Float Message Entry EpochSchedule BlockStore BlockStoreProofs BlockStoreChain BlockStoreReads Gossip GossipProofs DataPlane Cluster ClusterProofs Repair.

Import transaction contact_info crds_value crds.

(** ** What the repair service asks for *)

Module request_proofs.
Import blob blob_header meta blocktree store_proofs chain_proofs missing_proofs cluster_info.
Import repair_proofs repair_service.

(** Taking the first [n] of a list that is cut to [n] on the way *)
Lemma take_app_cut {A} n (l k r : list A) : (length l ≤ n)%nat →
  take n (l ++ take (n - length l) k ++ r) = take n (l ++ k ++ r).
Proof.
  intros Hl. rewrite !take_app, !take_take, length_take. f_equal. f_equal; [f_equal; lia|]. f_equal.
  destruct (decide (length k ≤ n - length l)%nat).
  - by rewrite Nat.min_r by lia.
  - rewrite Nat.min_l by lia. lia.
Qed.

Section Repairs.
Context (db : Database) (Hdb : inserted db).

(** Index [i] of slot [s] is missing below a blob that is there. *)
Definition gap (s i : Z) : Prop :=
  0 ≤ i ∧ db.(cf_data) !! (s, i) = None ∧ ∃ j, i < j ∧ is_Some (db.(cf_data) !! (s, j)).
(** Slot [s] has its first [h] blobs, none of which is the last one. *)
Definition open_end (s h : Z) : Prop :=
  0 ≤ h ∧ (∀ i, is_Some (db.(cf_data) !! (s, i)) ↔ 0 ≤ i < h) ∧
  ∀ i bytes, db.(cf_data) !! (s, i) = Some bytes → flagged bytes = false.
(** What can be asked for to complete slot [s] *)
Definition lacks (s : Z) (r : RepairType) : Prop :=
  match r with
  | RepairBlob s' i => s' = s ∧ gap s i
  | HighestBlob s' h => s' = s ∧ open_end s h
  | Orphan _ => False
  end.

(** The requests for a slot, without a limit *)
Definition slot_repairs (s : Z) (m : SlotMeta) : list RepairType :=
  if is_full m then []
  else if m.(consumed) =? m.(received) then [HighestBlob s m.(received)]
  else RepairBlob s <$> missing_in db.(cf_data) s m.(consumed) m.(received).

Lemma repairs_for_slot_take s m max : (0 < max)%nat → 0 ≤ m.(consumed) → m.(received) ≤ u64_max →
  generate_repairs_for_slot db s m max = take max (slot_repairs s m).
Proof.
  intros Hmax Hc Hr. unfold generate_repairs_for_slot, slot_repairs.
  destruct (is_full m); [by rewrite take_nil|]. destruct (_ =? _); [destruct max; [lia|]; cbn; by rewrite take_nil|].
  unfold find_missing_data_indexes. by rewrite missing_found, fmap_take.
Qed.

Lemma elem_of_missing s a b i : i ∈ missing_in db.(cf_data) s a b ↔ a ≤ i < b ∧ db.(cf_data) !! (s, i) = None.
Proof.
  unfold missing_in. rewrite list_elem_of_filter. unfold range_list. rewrite elem_of_seqZ.
  split; intros [? ?]; (split; [|done || lia]); try done; lia.
Qed.

Section Slot.
Context (s : Z) (m : SlotMeta) (Hm : db.(cf_meta) !! s = Some m).

Lemma consumed_received : 0 ≤ m.(consumed) ≤ m.(received).
Proof.
  destruct (meta_ok db Hdb s m Hm) as [Hc Hp _ Hr Hb _ _ _]. split; [done|].
  destruct (decide (m.(consumed) = 0)); [lia|]. pose proof (Hb _ (Hp (m.(consumed) - 1) ltac:(lia))). lia.
Qed.

Lemma full_iff : is_full m = true ↔ m.(last_index) ≠ u64_max ∧ m.(consumed) = m.(received).
Proof.
  destruct (meta_ok db Hdb s m Hm) as [_ _ _ _ _ _ Hl _]. unfold is_full.
  destruct (Z.eqb_spec m.(last_index) u64_max) as [->|Hne]; [split; [done|]; by intros [? _]|].
  destruct Hl as [|[Hl Hr]]; [done|]. rewrite u64_add_exact by (unfold u64_max in Hl; lia).
  rewrite Z.eqb_eq. split; [intros ->; split; [done|lia]|intros [_ ->]; lia].
Qed.

Lemma lacks_iff r : r ∈ slot_repairs s m ↔ lacks s r.
Proof.
  destruct (meta_ok db Hdb s m Hm) as [Hc Hp Hg Hr Hb Hh Hl Hf] eqn:Hok. clear Hok.
  pose proof consumed_received as Hcr. pose proof full_iff as Hfull. unfold slot_repairs.
  assert (m.(consumed) = m.(received) → ∀ i, is_Some (db.(cf_data) !! (s, i)) ↔ 0 ≤ i < m.(received)) as Hrun.
  { intros He i. split; [apply Hb|]. rewrite <- He. apply Hp. }
  assert (∀ h, open_end s h → m.(consumed) = m.(received) ∧ h = m.(received)) as Hopen.
  { intros h (Hh0 & Hrange & _).
    assert (h ≤ m.(received)) by (destruct (decide (h = 0)); [lia|]; pose proof (Hb (h - 1)) as Hx; rewrite Hrange in Hx; lia).
    assert (¬ 0 ≤ m.(consumed) < h) as Hn by (rewrite <- Hrange, Hg; by intros [? ?]).
    destruct Hh as [|Hh]; [lia|]. apply Hrange in Hh. lia. }
  assert (∀ i, gap s i → m.(consumed) ≤ i < m.(received)) as Hgap.
  { intros i (Hi & Hnone & j & Hij & Hj%Hb). split; [|lia].
    destruct (decide (i < m.(consumed))); [|lia]. destruct (Hp i ltac:(lia)) as [? ?]. congruence. }
  destruct (is_full m) eqn:Hisf.
  { destruct (proj1 Hfull eq_refl) as [Hlast He]. split; [by intros ?%not_elem_of_nil|].
    destruct r as [o|s' h|s' i]; cbn; [done| |].
    - intros [-> Ho]. destruct (Hopen _ Ho) as [_ ->]. destruct Ho as (_ & Hrange & Hflag).
      destruct Hl as [|[Hl Hlr]]; [done|]. destruct (Hrange m.(last_index)) as [_ [bytes Hbytes]]; [lia|].
      apply Hflag in Hbytes as Hfalse. apply Hf in Hbytes. destruct Hbytes as [_ Ht]. rewrite Ht in Hfalse by done. done.
    - intros [-> Hi%Hgap]. lia. }
  assert (m.(consumed) = m.(received) → m.(last_index) = u64_max) as Hopen_last.
  { intros He. destruct (decide (m.(last_index) = u64_max)) as [|Hn]; [done|]. by pose proof (proj2 Hfull (conj Hn He)). }
  destruct (Z.eqb_spec m.(consumed) m.(received)) as [He|Hne].
  - rewrite list_elem_of_singleton. destruct r as [o|s' h|s' i]; cbn; [done| |].
    + split; [|intros [-> [_ ->]%Hopen]; done]. intros [= -> ->]. split; [done|]. split; [lia|]. split; [by apply Hrun|].
      intros i bytes Hi. destruct (flagged bytes) eqn:Hfl; [|done]. apply (Hf i bytes Hi) in Hfl.
      rewrite Hopen_last in Hfl by done. pose proof (Hb i ltac:(by eexists)). lia.
    + split; [done|]. intros [_ Hi%Hgap]. lia.
  - rewrite list_elem_of_fmap. setoid_rewrite elem_of_missing. destruct r as [o|s' h|s' i]; cbn.
    + by split; [intros (? & ? & _)|].
    + split; [by intros (? & ? & _)|]. intros [_ [? _]%Hopen]. done.
    + split.
      * intros (i' & [= -> ->] & Hi & Hnone). split; [done|]. split_and!; [lia|done|]. exists (m.(received) - 1).
        destruct Hh as [|Hh]; [lia|]. split; [|done]. destruct (decide (i' = m.(received) - 1)) as [->|]; [|lia].
        destruct Hh. congruence.
      * intros [-> Hi]. exists i. split; [done|]. split; [by apply Hgap|apply Hi].
Qed.
End Slot.

(** A slot without metadata has no blobs. *)
Lemma lacks_default s r : db.(cf_meta) !! s = None →
  r ∈ slot_repairs s (SlotMeta_default s) ↔ lacks s r.
Proof.
  intros Hm. assert (∀ i, db.(cf_data) !! (s, i) = None) as Hnone by (intros i; by apply no_meta_no_blob).
  change (slot_repairs s (SlotMeta_default s)) with [HighestBlob s 0]. rewrite list_elem_of_singleton.
  destruct r as [o|s' h|s' i]; cbn; [done| |].
  - split.
    + intros [= -> ->]. split; [done|]. split_and!; [done| |].
      * intros i. rewrite Hnone. split; [by intros [? ?]|lia].
      * intros i bytes. by rewrite Hnone.
    + intros (-> & Hh & Hrange & _). destruct (decide (h = 0)) as [->|]; [done|].
      destruct (proj2 (Hrange 0)) as [? Hx]; [lia|]. by rewrite Hnone in Hx.
  - split; [done|]. intros (_ & _ & _ & j & _ & [? Hj]). by rewrite Hnone in Hj.
Qed.

Definition meta_at (s : Z) : SlotMeta := default (SlotMeta_default s) (db.(cf_meta) !! s).
Lemma lacks_at s r : r ∈ slot_repairs s (meta_at s) ↔ lacks s r.
Proof.
  unfold meta_at. destruct (db.(cf_meta) !! s) as [m|] eqn:Hm; [by apply lacks_iff|by apply lacks_default].
Qed.
Lemma repairs_at_take s max : (0 < max)%nat →
  generate_repairs_for_slot db s (meta_at s) max = take max (slot_repairs s (meta_at s)).
Proof.
  intros Hmax. unfold meta_at. destruct (db.(cf_meta) !! s) as [m|] eqn:Hm.
  - change (default (SlotMeta_default s) (Some m)) with m. pose proof (consumed_received s m Hm). destruct (meta_ok db Hdb s m Hm) as [? _ _ ? _ _ _ _].
    apply repairs_for_slot_take; [done|lia..].
  - apply repairs_for_slot_take; [done|cbn; done|cbn; unfold u64_max; lia].
Qed.

(** The requests for a list of slots, cut at the limit, have what each slot lacks
    and all of it when the limit is not reached. *)
Definition asks (slots : list Z) (max : nat) (repairs : list RepairType) : Prop :=
  repairs = take max (slots ≫= λ s, slot_repairs s (meta_at s)).

Lemma asks_spec slots max repairs : asks slots max repairs →
  (length repairs ≤ max)%nat ∧
  (∀ r, r ∈ repairs → ∃ s, s ∈ slots ∧ lacks s r) ∧
  ((length repairs < max)%nat → ∀ s r, s ∈ slots → lacks s r → r ∈ repairs).
Proof.
  unfold asks. intros ->. rewrite length_take. split; [lia|]. split.
  - intros r (i & Hi%list_elem_of_lookup_2 & _)%elem_of_take. apply list_elem_of_bind in Hi as (s & Hr & Hs). exists s. split; [done|]. by apply lacks_at.
  - intros Hlen s r Hs Hr%lacks_at. rewrite take_ge by lia. apply list_elem_of_bind. by exists s.
Qed.

(** ** Repairs of a range *)

Lemma slot_repairs_some s : is_full (meta_at s) = false → slot_repairs s (meta_at s) ≠ [].
Proof.
  intros Hfull. unfold slot_repairs. rewrite Hfull.
  destruct (Z.eqb_spec (meta_at s).(consumed) (meta_at s).(received)) as [|Hne]; [done|].
  intros Hnil%fmap_nil_inv. assert ((meta_at s).(consumed) ∈ @nil Z) as []%not_elem_of_nil.
  rewrite <- Hnil. apply elem_of_missing. unfold meta_at in *.
  destruct (db.(cf_meta) !! s) as [m|] eqn:Hm; [|done].
  change (default (SlotMeta_default s) (Some m)) with m in *.
  pose proof (consumed_received s m Hm). destruct (meta_ok db Hdb s m Hm) as [_ _ Hg _ _ _ _ _]. split; [lia|done].
Qed.

(** The slots from [slot] on that have metadata *)
Definition metas_from (slot : Z) : gset Z := filter (λ s, slot ≤ s) (dom db.(cf_meta)).
Lemma metas_from_step slot :
  metas_from slot = (if decide (slot ∈ dom db.(cf_meta)) then {[ slot ]} else ∅) ∪ metas_from (slot + 1).
Proof.
  apply set_eq. intros s. unfold metas_from. rewrite elem_of_union, !elem_of_filter. case_decide; [rewrite elem_of_singleton|].
  - split; [|intros [->|[? ?]]; [done|split; [lia|done]]]. intros [Hle Hs].
    destruct (decide (s = slot)); [by left|right]. split; [lia|done].
  - split; [|intros [?%not_elem_of_empty|[? ?]]; [done|split; [lia|done]]]. intros [Hle Hs]. right.
    destruct (decide (s = slot)) as [->|]; [done|]. split; [lia|done].
Qed.

Lemma range_loop_asks fuel : ∀ slot last max repairs, (length repairs ≤ max)%nat →
  (size (metas_from slot) + (max - length repairs) ≤ fuel)%nat →
  range_loop db fuel slot last max repairs =
    Some (take max (repairs ++ (seqZ slot (last - slot + 1) ≫= λ s, slot_repairs s (meta_at s)))).
Proof.
  induction fuel as [|fuel IH]; intros slot last max repairs Hlen Hfuel; cbn [range_loop];
    (destruct (Z.ltb_spec last slot); [rewrite seqZ_nil by lia; cbn; by rewrite app_nil_r, take_ge|]);
    (destruct (Nat.leb_spec max (length repairs)); [by rewrite take_app_length' by lia|]).
  { lia. }
  fold (meta_at slot). rewrite repairs_at_take by lia.
  rewrite (seqZ_cons slot (last - slot + 1)) by lia. cbn [mbind list_bind].
  set (new := slot_repairs slot (meta_at slot)).
  replace (Z.succ slot) with (slot + 1) by lia.
  replace (Z.pred (last - slot + 1)) with (last - (slot + 1) + 1) by lia.
  rewrite IH.
  - by rewrite <- app_assoc, take_app_cut.
  - rewrite length_app, length_take. lia.
  - rewrite length_app, length_take. rewrite metas_from_step in Hfuel.
    assert (slot ∉ metas_from (slot + 1)) as Hnotin by (unfold metas_from; rewrite elem_of_filter; lia).
    case_decide as Hd.
    + rewrite size_union, size_singleton in Hfuel by set_solver. lia.
    + rewrite (left_id_L ∅ (∪)) in Hfuel.
      assert (new ≠ []) as Hnew.
      { apply slot_repairs_some. unfold meta_at. by rewrite (not_elem_of_dom_1 _ _ Hd). }
      destruct new; [done|]. cbn [length]. lia.
Qed.

(** Repairing a range ends whatever the range is: every turn passes a slot that has
    metadata or makes a request. *)
Lemma range_repairs_spec fuel max range :
  (size (dom db.(cf_meta)) + max ≤ fuel)%nat →
  ∃ repairs, generate_repairs_in_range db fuel max range = Some repairs ∧
    (length repairs ≤ max)%nat ∧
    (∀ r, r ∈ repairs → ∃ s, range.(range_start) ≤ s ≤ range.(range_end) ∧ lacks s r) ∧
    ((length repairs < max)%nat → ∀ s r, range.(range_start) ≤ s ≤ range.(range_end) →
       lacks s r → r ∈ repairs).
Proof.
  intros Hfuel. unfold generate_repairs_in_range. rewrite range_loop_asks; [|cbn; lia|].
  2:{ cbn. assert (size (metas_from range.(range_start)) ≤ size (dom db.(cf_meta)))%nat; [|lia].
      apply subseteq_size. unfold metas_from. set_solver. }
  eexists. split; [done|]. rewrite app_nil_l.
  destruct (asks_spec (seqZ range.(range_start) (range.(range_end) - range.(range_start) + 1)) max _ eq_refl)
    as (Hlen & Hsound & Hall).
  split; [done|]. split.
  - intros r (s & Hs & Hr)%Hsound. apply elem_of_seqZ in Hs. exists s. split; [lia|done].
  - intros Hlt s r Hs. apply Hall; [done|]. apply elem_of_seqZ. lia.
Qed.

(** ** Repairs of a fork *)

Definition child (s c : Z) : Prop := ∃ m, db.(cf_meta) !! s = Some m ∧ c ∈ m.(next_slots).

(** The order in which the slots of a stack and their descendants are visited *)
Inductive walk : list Z → list Z → Prop :=
| walk_nil : walk [] []
| walk_pop s m stack l : db.(cf_meta) !! s = Some m →
    walk (reverse m.(next_slots) ++ stack) l → walk (s :: stack) (s :: l).

Lemma walk_app stack1 l1 stack2 l2 : walk stack1 l1 → walk stack2 l2 → walk (stack1 ++ stack2) (l1 ++ l2).
Proof.
  intros H1 H2. induction H1 as [|s m stack l Hm Hw IH]; [done|]. cbn. eapply walk_pop; [done|].
  by rewrite app_assoc.
Qed.
Lemma walk_all ss : (∀ s, s ∈ ss → ∃ l, walk [s] l) → ∃ l, walk ss l.
Proof.
  induction ss as [|s ss IH]; intros Hall; [exists []; constructor|].
  destruct (Hall s) as [l1 H1]; [set_solver|]. destruct IH as [l2 H2]; [set_solver|].
  exists (l1 ++ l2). by apply (walk_app [s]).
Qed.
Lemma walk_exists (n : nat) : ∀ s, is_Some (db.(cf_meta) !! s) → u64_max - s < Z.of_nat n → ∃ l, walk [s] l.
Proof.
  destruct (inserted_ok db Hdb) as [[_ Hf _] _].
  induction n as [|n IH]; intros s [m Hm] Hs.
  - destruct m.(next_slots) as [|c cs] eqn:Hn.
    + exists [s]. eapply walk_pop; [done|]. rewrite Hn. constructor.
    + destruct (Hf s m c Hm) as [? _]; [rewrite Hn; set_solver|]. lia.
  - destruct (walk_all (reverse m.(next_slots))) as [l Hl].
    { intros c Hc. rewrite elem_of_reverse in Hc. destruct (Hf s m c Hm Hc) as [? ?]. apply IH; [done|lia]. }
    exists (s :: l). eapply walk_pop; [done|]. by rewrite app_nil_r.
Qed.

Lemma walk_reach stack l : walk stack l → ∀ s, s ∈ l ↔ ∃ r, r ∈ stack ∧ rtc child r s.
Proof.
  induction 1 as [|s0 m stack l Hm Hw IH]; intros s.
  { split; [by intros ?%not_elem_of_nil|]. by intros (r & ?%not_elem_of_nil & _). }
  rewrite elem_of_cons, IH. split.
  - intros [->|(r & Hin & Hrtc)]; [|rewrite elem_of_app, elem_of_reverse in Hin; destruct Hin as [Hr|Hr]].
    + exists s0. split; [set_solver|done].
    + exists s0. split; [set_solver|]. eapply rtc_l; [by exists m|done].
    + exists r. split; [set_solver|done].
  - intros (r & [->|Hr]%elem_of_cons & Hrtc); [|right; exists r; split; [set_solver|done]].
    apply rtc_inv in Hrtc as [->|(c & (m' & Hm' & Hc) & Hrtc)]; [by left|right]. exists c. split; [|done].
    rewrite elem_of_app, elem_of_reverse. left. congruence.
Qed.

Lemma fork_loop_asks stack l : walk stack l → ∀ fuel max repairs,
  (length l ≤ fuel)%nat → (length repairs ≤ max)%nat →
  fork_loop db fuel stack max repairs =
    Some (take max (repairs ++ (l ≫= λ s, slot_repairs s (meta_at s)))).
Proof.
  induction 1 as [|s m stack l Hm Hw IH]; intros fuel max repairs Hfuel Hlen.
  - destruct fuel; cbn [fork_loop]; (destruct (Nat.leb_spec max (length repairs)));
      cbn; by rewrite app_nil_r, take_ge.
  - destruct fuel as [|fuel]; [cbn in Hfuel; lia|]. cbn [fork_loop].
    destruct (Nat.leb_spec max (length repairs)); [by rewrite take_app_length' by lia|].
    assert (meta_at s = m) as Hat by (unfold meta_at; by rewrite Hm).
    rewrite Hm, <- Hat, repairs_at_take by lia. rewrite Hat at 1. cbn in Hfuel. rewrite IH.
    + cbn [mbind list_bind]. by rewrite <- app_assoc, take_app_cut.
    + lia.
    + rewrite length_app, length_take. lia.
Qed.

(** C21. Repairs ask for what is missing.  On a store that insertions reached, the
    search for repairs from a root ends.  It asks for at most [max_repairs] blobs of
    the slots that descend from the root: an index below a blob that is there, or
    what follows the first blobs of a slot whose last one is not known.  When it
    asks for less than [max_repairs], it asks for everything that these slots lack.
    The orphans follow. *)
Theorem repairs_found (root : Z) (max_repairs : nat) (Hroot : is_Some (db.(cf_meta) !! root)) :
  ∃ fuel0 repairs,
    (∀ fuel, (fuel0 ≤ fuel)%nat → generate_repairs db fuel root max_repairs =
       Some (repairs ++ (Orphan <$> get_orphans db (Some MAX_ORPHANS)))) ∧
    (length repairs ≤ max_repairs)%nat ∧
    (∀ r, r ∈ repairs → ∃ s, rtc child root s ∧ lacks s r) ∧
    ((length repairs < max_repairs)%nat → ∀ s r, rtc child root s → lacks s r → r ∈ repairs).
Proof.
  destruct (walk_exists (S (Z.to_nat (u64_max - root))) root Hroot) as [l Hl]; [lia|].
  assert (∀ s, s ∈ l ↔ rtc child root s) as Hreach.
  { intros s. rewrite (walk_reach _ _ Hl). split; [by intros (r & ->%list_elem_of_singleton & ?)|].
    intros ?. exists root. split; [set_solver|done]. }
  destruct (asks_spec l max_repairs _ eq_refl) as (Hlen & Hsound & Hall).
  eexists (length l), _. split; [|split; [exact Hlen|split]].
  - intros fuel Hfuel. unfold generate_repairs, generate_repairs_for_fork.
    by rewrite (fork_loop_asks _ _ Hl fuel max_repairs []) by (done || cbn; lia).
  - intros r (s & Hs & Hr)%Hsound. exists s. by rewrite <- Hreach.
  - intros Hlt s r Hs. apply Hall; [done|]. by apply Hreach.
Qed.
End Repairs.
End request_proofs.

(** ** Repairs make progress *)

Module progress_proofs.
Import blob blob_header meta blocktree cluster_info gossip.
Import repair_proofs repair_service request_proofs.
Section Progress.
Context {K : Type} `{!signable.Ed25519 K} {env : GossipEnv} {laws : GossipLaws env}.
Context `{!Bincode SignData, !Bincode SlotsSignData, !Bincode VoteSignData, !Bincode PruneSignData}.
Context `{!Bincode Protocol}.

(** The blobs that would help with a request *)
Definition helps (db : Database) (r : RepairType) (j : Z) : Prop :=
  match r with
  | RepairBlob s i => j = i ∧ is_Some (db.(cf_data) !! (s, j))
  | HighestBlob s h => h ≤ j ∧ is_Some (db.(cf_data) !! (s, j))
  | Orphan _ => False
  end.

(** C20. Repairs make progress.  Whoever is asked for something that slot [s] lacks
    answers with blobs of the slot that the sender of the request does not have,
    and with nothing only when its store has none that would help. *)
Theorem repair_progress (mine theirs : Database) (s : Z) (r : RepairType) (random : Z)
    (me peer : ClusterInfo (K:=K)) (from : ContactInfo) (to addr : SocketAddr) (req : Protocol)
    (fuel : nat) (clock : nat → Z)
    (Hmine : inserted mine) (Htheirs : inserted theirs) (Hlacks : lacks mine s r)
    (Hreq : repair_request random r me = Ok (to, req))
    (Hme : my_data (E:=ClusterInfoError) me = Ok from) (Hother : ci_id from ≠ cluster_info.id peer)
    (Hpeer : is_Some (lookup_contact peer (cluster_info.id peer))) (Hfuel : (12 ≤ fuel)%nat) :
  ∃ replies peer', handle_protocol fuel clock addr (Some theirs) req peer = (Ok (Some replies), peer') ∧
    (∀ reply, reply ∈ replies → ∃ b, reply = SendBlob addr b ∧ slot b = s ∧
       mine.(cf_data) !! (slot b, index b) = None) ∧
    (replies = [] ↔ ∀ j, ¬ helps theirs r j).
Proof.
  unfold repair_request in Hreq. apply res_bind_ok in Hreq as (valid & _ & Hreq).
  destruct valid as [|v valid]; [done|]. apply res_bind_ok in Hreq as (p & _ & Hreq).
  rewrite Hme in Hreq. injection Hreq as _ <-.
  match goal with |- context [handle_protocol _ _ _ _ ?q _] => set (req := q) end.
  destruct (repairs_answered fuel clock addr theirs req from peer Htheirs Hfuel Hpeer)
    as (replies & peer' & Hrun & Ha & _); [by destruct r|done|].
  exists replies, peer'. split; [done|]. destruct r as [o|s' h|s' i]; [done|..]; destruct Hlacks as [-> Hlacks]; cbn in Ha.
  - destruct Hlacks as (_ & Hrange & _). destruct Ha as [(i & b & [Hb _] & Hle & ->)|[-> Hnone]].
    + destruct (stored_blob_header theirs Htheirs s i b Hb) as [Hs Hi]. split.
      * intros reply ->%list_elem_of_singleton. exists b. split_and!; [done..|]. rewrite Hs, Hi.
        apply eq_None_not_Some. rewrite Hrange. lia.
      * split; [done|]. intros Hh. destruct (Hh i). split; [done|]. unfold stored_blob in Hb.
        by destruct (theirs.(cf_data) !! (s, i)).
    + split; [by intros ? ?%not_elem_of_nil|]. split; [|done]. intros _ j [Hj [? Hx]]. by rewrite Hnone in Hx.
  - subst replies. destruct Hlacks as (_ & Hnone & _). destruct (stored_blob theirs s i) as [b|] eqn:Hb; cbn.
    + destruct (stored_blob_header theirs Htheirs s i b Hb) as [Hs Hi]. split.
      * intros reply ->%list_elem_of_singleton. exists b. split_and!; [done..|]. by rewrite Hs, Hi.
      * split; [done|]. intros Hh. destruct (Hh i). split; [done|]. unfold stored_blob in Hb.
        by destruct (theirs.(cf_data) !! (s, i)).
    + split; [by intros ? ?%not_elem_of_nil|]. split; [|done]. intros _ j [-> [? Hx]].
      unfold stored_blob in Hb. by rewrite Hx in Hb.
Qed.
End Progress.
End progress_proofs.

(** ** Repairmen share a slot *)

Module repairmen_proofs.
Import repairmen.

Lemma filter_none {A} (P : A → Prop) `{∀ x, Decision (P x)} (l : list A) :
  (∀ x, x ∈ l → ¬ P x) → filter P l = [].
Proof.
  induction l as [|x l IH]; intros Hn; [done|]. rewrite filter_cons_False by (apply Hn; set_solver).
  apply IH. intros y Hy. apply Hn. set_solver.
Qed.

Lemma bind_positions {A B} (l : list A) : ∀ (f : A → list B) (g : nat → list B),
  (∀ i x, l !! i = Some x → f x = g i) → l ≫= f = seq 0 (length l) ≫= g.
Proof.
  induction l as [|x l IH]; intros f g Hfg; [done|]. cbn [length seq mbind list_bind].
  rewrite (Hfg 0%nat x eq_refl). f_equal. rewrite (IH f (g ∘ S)).
  - rewrite <- fmap_S_seq. clear. induction (seq 0 (length l)) as [|i s IH]; [done|]. cbn. by rewrite IH.
  - intros i y Hy. by apply (Hfg (S i)).
Qed.

Lemma bind_none {A B} (l : list A) (f : A → list B) : (∀ x, x ∈ l → f x = []) → l ≫= f = [].
Proof.
  induction l as [|x l IH]; intros Hf; [done|]. cbn. rewrite Hf, IH by set_solver. done.
Qed.
Lemma bind_cong {A B} (l : list A) (f g : A → list B) : (∀ x, x ∈ l → f x = g x) → l ≫= f = l ≫= g.
Proof.
  induction l as [|x l IH]; intros Hf; [done|]. cbn. rewrite Hf, IH by set_solver. done.
Qed.
Lemma fmap_seqZ_bind {A} (n : Z) (h : Z → list Z) (f : Z → A) :
  f <$> (seqZ 0 n ≫= h) = seq 0 (Z.to_nat n) ≫= λ p, f <$> h (Z.of_nat p).
Proof.
  unfold seqZ. induction (seq 0 (Z.to_nat n)) as [|p l IH]; [done|]. cbn. rewrite fmap_app, Z.add_0_r. by f_equal.
Qed.

Section Count.
Context (K : Z) (HK : 0 < K).

(** How many numbers of a list are [b] modulo [K] *)
Definition at_rem (b : Z) (l : list Z) : nat := length (filter (λ x, x mod K = b) l).
Definition hits (M b : Z) : nat := at_rem b (seqZ 0 M).

Lemma hits_split M1 M2 b : 0 ≤ M1 ≤ M2 →
  hits M2 b = (hits M1 b + at_rem b (seqZ M1 (M2 - M1)))%nat.
Proof.
  intros HM. unfold hits, at_rem. replace M2 with (M1 + (M2 - M1)) at 1 by lia.
  rewrite seqZ_app by lia. by rewrite filter_app, length_app, Z.add_0_l.
Qed.

Lemma hits_block q b : 0 ≤ q → 0 ≤ b < K →
  at_rem b (seqZ (q * K) K) = 1%nat.
Proof.
  unfold at_rem.
  intros Hq Hb. assert (∀ x j, x = q * K + j → 0 ≤ j < K → x mod K = j) as Hmod.
  { intros x j -> Hj. rewrite Z.add_comm, Z.mod_add by lia. by apply Z.mod_small. }
  replace (seqZ (q * K) K) with (seqZ (q * K) (b + (1 + (K - b - 1)))) by (f_equal; lia). rewrite seqZ_app by lia.
  rewrite (seqZ_cons (q * K + b)) by lia. rewrite filter_app, (filter_none _ (seqZ (q * K) b)).
  2:{ intros x Hx%elem_of_seqZ. rewrite (Hmod x (x - q * K)) by lia. lia. }
  rewrite filter_cons_True by (apply Hmod; lia). rewrite filter_none; [done|].
  intros x Hx%elem_of_seqZ. rewrite (Hmod x (x - q * K)) by lia. lia.
Qed.

Lemma hits_multiple (q : nat) b : 0 ≤ b < K → hits (Z.of_nat q * K) b = q.
Proof.
  intros Hb. induction q as [|q IH]; [done|].
  rewrite (hits_split (Z.of_nat q * K)) by nia. rewrite IH.
  replace (Z.of_nat (S q) * K - Z.of_nat q * K) with K by lia. rewrite hits_block by lia. lia.
Qed.

Lemma hits_bounds (r : nat) M b : 0 ≤ b < K → Z.of_nat r * K ≤ M →
  (r ≤ hits M b)%nat ∧ (M ≤ Z.of_nat (S r) * K → (hits M b ≤ S r)%nat).
Proof.
  intros Hb HM. split.
  - rewrite <- (hits_multiple r b Hb), (hits_split (Z.of_nat r * K) M) by nia. lia.
  - intros HM'. rewrite <- (hits_multiple (S r) b Hb). rewrite (hits_split M (Z.of_nat (S r) * K)) by nia. lia.
Qed.
End Count.

(** The numbers below [n * p] as [n] progressions *)
Lemma progressions n p : 0 < n → 0 ≤ p →
  (seqZ 0 n ≫= λ a, (λ i, a + n * i) <$> seqZ 0 p) ≡ₚ seqZ 0 (n * p).
Proof.
  intros Hn Hp. apply NoDup_Permutation.
  - apply NoDup_bind; [| |apply NoDup_seqZ].
    + intros a1 a2 x Ha1%elem_of_seqZ Ha2%elem_of_seqZ (i1 & -> & _)%list_elem_of_fmap (i2 & He & _)%list_elem_of_fmap.
      assert (a1 mod n = a2 mod n) as Hm.
      { rewrite <- (Z.mod_add a1 i1 n), <- (Z.mod_add a2 i2 n) by lia. f_equal. lia. }
      by rewrite !Z.mod_small in Hm by lia.
    + intros a _. apply NoDup_fmap; [|apply NoDup_seqZ]. intros x y. nia.
  - apply NoDup_seqZ.
  - intros x. rewrite list_elem_of_bind, elem_of_seqZ. split.
    + intros (a & (i & -> & Hi%elem_of_seqZ)%list_elem_of_fmap & Ha%elem_of_seqZ). nia.
    + intros Hx. exists (x mod n). pose proof (Z.mod_pos_bound x n Hn). pose proof (Z.div_mod x n).
      split; [|apply elem_of_seqZ; lia]. apply list_elem_of_fmap. exists (x / n). split; [lia|].
      apply elem_of_seqZ. split; [apply Z.div_pos; lia|]. apply Z.div_lt_upper_bound; lia.
Qed.

(** What the iterator gives *)
Lemma indexes_spec {E} (n : nat) start num step blobs sent :
  0 < blobs → 0 ≤ start → 0 ≤ step → 0 ≤ sent → sent + Z.of_nat n = num → num < two64 →
  start + step * (num - 1) < two64 →
  indexes (E:=E) n (mkIterator start num step blobs sent) =
    Some (Ok ((λ i, (start + step * i) mod blobs) <$> seqZ sent (Z.of_nat n))).
Proof.
  revert sent. induction n as [|n IH]; intros sent Hb Hs Hst Hse Hn Hnum Hov; cbn [indexes];
    unfold next; rewrite (bind_eval getM _ _ _ _ eq_refl); cbn [blobs_sent num_blobs_to_send].
  - rewrite (proj2 (Z.eqb_eq sent num)) by lia. by rewrite seqZ_nil by lia.
  - rewrite (proj2 (Z.eqb_neq sent num)) by lia. cbn [num_blobs_in_slot].
    rewrite (proj2 (Z.eqb_neq blobs 0)) by lia.
    rewrite (bind_eval (putM _) _ _ tt _ eq_refl). cbn [start_index step_size num_blobs_in_slot].
    rewrite (u64_add_exact sent 1) by lia. unfold mret, M_ret.
    unfold u64_mul. rewrite (wrap64_small (step * sent)) by (unfold is_u64; nia).
    rewrite u64_add_exact by nia. rewrite IH by lia. cbn.
    rewrite (seqZ_cons sent) by lia. cbn. by replace (Z.pred (Z.of_nat (S n))) with (Z.of_nat n) by lia.
Qed.

(** The indexes that a repairman sends *)
Definition assigned (eligible : list Pubkey) (blobs redundancy : Z) (me : Pubkey) : list Z :=
  match calculate_my_repairman_index_for_slot (E:=Empty_set) me eligible blobs redundancy with
  | Ok (Some it) =>
      match indexes (E:=Empty_set) (Z.to_nat it.(num_blobs_to_send)) it with
      | Some (Ok l) => l
      | _ => []
      end
  | _ => []
  end.
Definition senders (eligible : list Pubkey) (blobs redundancy b : Z) : nat :=
  length (filter (λ i, i = b) (eligible ≫= assigned eligible blobs redundancy)).

Section Cover.
Context (eligible : list Pubkey) (K r : Z).
Context (Hnd : NoDup eligible) (HK : 0 < K) (Hr : 0 < r ≤ Z.of_nat (length eligible)).
Context (Hov : K * r + Z.of_nat (length eligible) < two64).

Let N : Z := Z.min (K * r) (Z.of_nat (length eligible)).
Let P : Z := (K * r + N - 1) / N.

Lemma shares : 0 < N ∧ K * r ≤ N * P < K * r + N ∧ 0 < P ≤ K.
Proof.
  assert (0 < K * r) by nia. assert (0 < N) as HN by (unfold N; lia). split; [done|].
  assert (K * r ≤ N * P < K * r + N) as HP.
  { unfold P. pose proof (Z.div_mod (K * r + N - 1) N ltac:(lia)). pose proof (Z.mod_pos_bound (K * r + N - 1) N HN). lia. }
  split; [done|]. split; [nia|].
  unfold P. apply Z.lt_succ_r, Z.div_lt_upper_bound; [done|]. unfold N in *. nia.
Qed.

Lemma assigned_at p x : eligible !! p = Some x →
  assigned eligible K r x =
    if decide (Z.of_nat p < N) then (λ i, (Z.of_nat p + N * i) mod K) <$> seqZ 0 P else [].
Proof.
  intros Hp. destruct shares as (HN & HNP & HP). unfold assigned, calculate_my_repairman_index_for_slot.
  assert (0 < K * r) by nia.
  unfold u64_mul. rewrite wrap64_small by (unfold is_u64; lia). fold N.
  rewrite (proj2 (Z.eqb_neq N 0)) by lia.
  rewrite u64_add_exact by (unfold N; lia). rewrite u64_sub_exact by (unfold is_u64, N; lia).
  fold P. rewrite (Z.min_l P K) by lia.
  destruct (list_find (eq x) (take (Z.to_nat N) eligible)) as [[q y]|] eqn:Hfind.
  - apply list_find_Some in Hfind as (Hq & <- & _). apply lookup_take_Some in Hq as [Hq Hlt].
    pose proof (NoDup_lookup _ _ _ _ Hnd Hp Hq) as <-. rewrite decide_True by lia.
    rewrite (proj2 (Z.eqb_neq K 0)) by lia. unfold Iterator_new. cbn [num_blobs_to_send].
    pose proof (Z.mod_pos_bound (Z.of_nat p) K HK). pose proof (Z.mod_le (Z.of_nat p) K).
    rewrite indexes_spec by (lia || nia). rewrite Z2Nat.id by lia.
    apply list_fmap_ext. intros _ i _. by rewrite Zplus_mod_idemp_l.
  - apply list_find_None in Hfind. rewrite decide_False; [done|]. intros Hlt.
    rewrite Forall_forall in Hfind. apply (Hfind x); [|done]. apply list_elem_of_lookup. exists p.
    apply lookup_take_Some. split; [done|lia].
Qed.

Lemma assigned_all : eligible ≫= assigned eligible K r ≡ₚ (λ x, x mod K) <$> seqZ 0 (N * P).
Proof.
  destruct shares as (HN & HNP & HP).
  rewrite (bind_positions eligible _ (λ p, if decide (Z.of_nat p < N)
    then (λ i, (Z.of_nat p + N * i) mod K) <$> seqZ 0 P else [])) by apply assigned_at.
  replace (length eligible) with (Z.to_nat N + (length eligible - Z.to_nat N))%nat by (unfold N; lia).
  rewrite seq_app, bind_app, (bind_none (seq (0 + Z.to_nat N) _)).
  2:{ intros p Hp%elem_of_seq. rewrite decide_False by lia. done. }
  rewrite app_nil_r, <- (progressions N P), fmap_seqZ_bind by lia. apply reflexive_eq, bind_cong.
  intros p Hp%elem_of_seq. rewrite decide_True by lia. by rewrite <- list_fmap_compose.
Qed.

End Cover.
End repairmen_proofs.

(** ** The slots in gossip *)

Module epoch_slots_proofs.
Import cluster_info gossip repair_service repairmen.

Lemma add_completed_spec root completed : ∀ update slots update' slots',
  add_completed root completed (update, slots) = (update', slots') →
  (∀ s, s ∈ slots' ↔ s ∈ slots ∨ s ∈ completed ∧ root < s) ∧
  (update' = false ↔ update = false ∧ slots' = slots).
Proof.
  induction completed as [|x completed IH]; intros update slots update' slots'; unfold add_completed; cbn [foldl].
  { intros [= <- <-]. split; [|by split; [|intros [? _]]]. intros s. split; [by left|].
    by intros [?|[?%not_elem_of_nil _]]. }
  destruct (Z.ltb_spec root x) as [Hx|Hx]; intros [Hin Hupd]%IH.
  - split.
    + intros s. rewrite Hin, elem_of_union, elem_of_singleton, elem_of_cons. naive_solver.
    + assert (x ∈ slots') as Hxs by (apply Hin; left; by apply elem_of_union_l, elem_of_singleton).
      rewrite Hupd, orb_false_iff, bool_decide_eq_false. split.
      * intros [[-> Hn%dec_stable] ->]. split; [done|]. by apply subseteq_union_1_L, singleton_subseteq_l.
      * intros [-> ->]. split; [by split; [|intros []]|]. symmetry. by apply subseteq_union_1_L, singleton_subseteq_l.
  - split; [|done]. intros s. rewrite Hin, elem_of_cons. split; [naive_solver|]. intros [?|[[->|?] ?]]; [by left|lia|by right].
Qed.

Lemma all_completed_spec root completed : ∀ update slots update' slots',
  foldl (λ state l, add_completed root l state) (update, slots) completed = (update', slots') →
  (∀ s, s ∈ slots' ↔ s ∈ slots ∨ (∃ l, l ∈ completed ∧ s ∈ l) ∧ root < s) ∧
  (update' = false ↔ update = false ∧ slots' = slots).
Proof.
  induction completed as [|l completed IH]; intros update slots update' slots'; cbn [foldl].
  { intros [= <- <-]. split; [|by split; [|intros [? _]]]. intros s. split; [by left|].
    by intros [?|[(l & ?%not_elem_of_nil & _) _]]. }
  destruct (add_completed root l (update, slots)) as [update1 slots1] eqn:H1.
  intros [Hin Hupd]%IH. apply add_completed_spec in H1 as [Hin1 Hupd1]. split.
  - intros s. rewrite Hin, Hin1. setoid_rewrite elem_of_cons. naive_solver.
  - rewrite Hupd, Hupd1. split; [by intros [[? ->] ->]|]. intros [-> ->].
    assert (slots1 = slots) as ->; [|done]. apply set_eq. intros s. split; [|intros; apply Hin1; by left].
    intros Hs. apply Hin. by left.
Qed.

Section Gossip.
Context {K : Type} `{!signable.Ed25519 K} {env : GossipEnv}.
Context `{!Bincode SignData, !Bincode SlotsSignData, !Bincode VoteSignData, !Bincode PruneSignData}.

(** The slots in gossip are the completed slots past the root.  An update keeps
    the slots that are past the new root, adds those of the channel that are, and
    tells gossip exactly when the root or the slots changed. *)
Theorem update_epoch_slots_spec (clock : nat → Z) (me : Pubkey) (latest prev : Z) (slots : gset Z)
    (completed : list (list Z)) (c : ClusterInfo (K:=K)) (Hpast : ∀ s, s ∈ slots → prev < s) :
  ∃ slots' c', update_epoch_slots clock me latest prev slots completed c = (Ok (latest, slots'), c') ∧
    (∀ s, s ∈ slots' ↔ (s ∈ slots ∨ ∃ l, l ∈ completed ∧ s ∈ l) ∧ latest < s) ∧
    c' = (if decide (latest = prev ∧ slots' = slots) then c
          else (push_epoch_slots clock me latest slots' c).2).
Proof.
  unfold update_epoch_slots. destruct (foldl _ _ _) as [update slots1] eqn:H1.
  apply all_completed_spec in H1 as [Hin Hupd]. rewrite negb_false_iff, Z.eqb_eq in Hupd.
  assert (∀ slots', push_epoch_slots clock me latest slots' c = (Ok tt, (push_epoch_slots clock me latest slots' c).2)) as Hpush.
  { intros slots'. unfold push_epoch_slots. rewrite (bind_eval getM _ c c c eq_refl).
    unfold push_values. unfold_monad. by destruct (gossip.process_push_message _ _ _). }
  destruct update.
  - assert (¬ (latest = prev ∧ slots1 = slots)) as Hch by (intros Hx; by apply Hupd in Hx).
    destruct (Z.eqb_spec latest prev) as [->|Hne]; cbn [negb].
    + exists slots1, (push_epoch_slots clock me prev slots1 c).2.
      rewrite (bind_eval _ _ _ _ _ (Hpush slots1)), decide_False by done. split_and!; [done| |done].
      intros s. rewrite Hin. split; [|naive_solver]. intros [Hs|[? ?]]; [|by split; [right|]]. split; [by left|by apply Hpast].
    + set (slots2 := retain_slots_greater_than_root slots1 latest).
      exists slots2, (push_epoch_slots clock me latest slots2 c).2.
      rewrite (bind_eval _ _ _ _ _ (Hpush slots2)), decide_False by naive_solver. split_and!; [done| |done].
      intros s. unfold slots2, retain_slots_greater_than_root. rewrite elem_of_filter, Hin. naive_solver.
  - destruct (proj1 Hupd eq_refl) as [-> ->]. exists slots, c. rewrite decide_True by done.
    split_and!; [done| |done]. intros s. rewrite Hin at 1. split; [|naive_solver].
    intros [Hs|[? ?]]; [|by split; [right|]]. split; [by left|by apply Hpast].
Qed.

(** A peer is not repaired twice for the same message: once it was chosen, it is
    not chosen again before gossip has a newer message of it.  Its recorded root
    does not go back. *)
Lemma repairee_once {E} (me peer : Pubkey) (c : ClusterInfo (K:=K)) roots my_root roots' my_root' e :
  process_potential_repairee (E:=E) me peer c (roots, my_root) = (Ok (Some e), (roots', my_root')) →
  (process_potential_repairee (E:=E) me peer c (roots', my_root')).1 = Ok None ∧
  (default (0, 0) (roots !! peer)).2 ≤ (default (0, 0) (roots' !! peer)).2.
Proof.
  unfold process_potential_repairee.
  destruct (read_my_gossiped_root me c my_root) as [[r|x|] g] eqn:Hread; [|done..].
  destruct (get_epoch_state_for_node peer _ c) as [[[e0 ts]|]|x|] eqn:Hstate; [|done..].
  destruct (should_repair_peer r (root e0) NUM_BUFFER_SLOTS); [|done]. intros [= <- <- <-].
  assert ((read_my_gossiped_root (E:=E) me c g).1 = Ok r) as Hread'.
  { unfold read_my_gossiped_root in *. unfold_monad.
    destruct (get_gossiped_root_for_node me None c) as [[new|]|x|]; [|by simplify_eq..].
    by injection Hread as <- <-. }
  destruct (read_my_gossiped_root me c g) as [r' g']. cbn in Hread'. subst r'.
  unfold get_last_ts. rewrite !lookup_insert_eq. cbn [fmap option_fmap option_map fst default].
  split; [|cbn; lia].
  unfold get_epoch_state_for_node in *. destruct (g_crds (cluster_info.gossip c) !! EpochSlotsLabel peer) as [x|]; [|done].
  destruct (newer_than _ x) eqn:Hnew in Hstate; [|done].
  destruct (epoch_slots (value x)); [|done]. cbn in Hstate. injection Hstate as _ <-.
  cbn. by rewrite Z.ltb_irrefl.
Qed.
End Gossip.
End epoch_slots_proofs.

(** ** Examples *)

Module repair_demo.
Import blob blob_header meta blocktree store_proofs chain_proofs cluster_info gossip crds_proofs repair_proofs.
Import gossip_demo cluster_proofs cluster_demo.
Import repair_service repairmen request_proofs progress_proofs repairmen_proofs epoch_slots_proofs.
#[local] Existing Instance demo_env.
#[local] Existing Instance demo_laws.
#[local] Existing Instance demo_keys.
#[local] Existing Instance no_bincode.

(** The only blob is in slot 1, whose parent is slot 0: slot 0 is asked for. *)
Lemma slot_0_lacks : lacks first_db 0 (HighestBlob 0 0).
Proof.
  assert (∀ i, first_db.(cf_data) !! (0, i) = None) as Hnone.
  { intros i. assert (map_to_list first_db.(cf_data) = [((1, 0), default [] (first_db.(cf_data) !! (1, 0)))]) as Hl.
    { vm_compute. reflexivity. }
    destruct (first_db.(cf_data) !! (0, i)) as [bytes|] eqn:Hb; [|done].
    apply elem_of_map_to_list in Hb. rewrite Hl in Hb. by apply list_elem_of_singleton in Hb. }
  split; [done|]. split_and!; [done| |].
  - intros i. rewrite Hnone. split; [by intros [? ?]|lia].
  - intros i bytes. by rewrite Hnone.
Qed.

Lemma repairs_found_witness :
  ∃ fuel0 repairs,
    (∀ fuel, (fuel0 ≤ fuel)%nat → generate_repairs first_db fuel 0 2 =
       Some (repairs ++ (Orphan <$> get_orphans first_db (Some MAX_ORPHANS)))) ∧
    (length repairs = 2%nat ∨ HighestBlob 0 0 ∈ repairs).
Proof.
  destruct (repairs_found first_db first_db_inserted 0 2) as (fuel0 & repairs & Hrun & Hlen & _ & Hall);
    [vm_compute; eexists; reflexivity|].
  exists fuel0, repairs. split; [exact Hrun|].
  destruct (decide (length repairs = 2%nat)) as [?|Hne]; [left; assumption|right].
  apply (Hall ltac:(lia) 0); [apply rtc_refl|apply slot_0_lacks].
Defined.

(** Node 2, whose store is empty, asks node 1 for slot 1. *)
Definition second_node : ClusterInfo (K:=Z) :=
  mkClusterInfo (gossip.mkGossip (table_of [contact 1 10; contact 2 20]) 2 push.CrdsGossipPush_default
    pull.CrdsGossipPull_default) 2 0 None.

Lemma repair_progress_witness :
  ∃ to req replies peer', repair_request 0 (HighestBlob 1 0) second_node = Ok (to, req) ∧
    handle_protocol 12 (λ _, 100) socketaddr_any (Some first_db) req demo_node = (Ok (Some replies), peer') ∧
    replies ≠ [].
Proof.
  assert (lacks empty_db 1 (HighestBlob 1 0)) as Hlacks.
  { split; [reflexivity|]. split; [lia|]. split; intros i; cbn; rewrite lookup_empty.
    - split; [intros [? ?]; discriminate|lia].
    - discriminate. }
  destruct (repair_request 0 (HighestBlob 1 0) second_node) as [[to req]|e|] eqn:Hreq;
    [|vm_compute in Hreq; discriminate..].
  destruct (my_data (E:=ClusterInfoError) second_node) as [from|e|] eqn:Hme; [|vm_compute in Hme; discriminate..].
  destruct (repair_progress empty_db first_db 1 (HighestBlob 1 0) 0 second_node demo_node from to socketaddr_any req
    12 (λ _, 100) inserted_none first_db_inserted Hlacks Hreq Hme) as (replies & peer' & Hrun & _ & Hnil).
  - vm_compute in Hme. injection Hme as <-. vm_compute. discriminate.
  - vm_compute. eexists. reflexivity.
  - lia.
  - exists to, req, replies, peer'. split; [reflexivity|]. split; [exact Hrun|]. intros Hx.
    apply (proj1 Hnil Hx 0). split; [lia|]. vm_compute. eexists. reflexivity.
Defined.


(** With more repairmen than blobs and a redundancy of three, a blob has five
    senders, not three or four. *)
Lemma redundancy_exceeded : senders [1; 2; 3; 4; 5] 2 3 0 = 5%nat.
Proof. vm_compute. reflexivity. Qed.

Lemma update_epoch_slots_spec_witness :
  ∃ slots' c', update_epoch_slots (λ _, 100) 1 5 3 {[ 4; 7 ]} [[6]; [2; 9]] demo_node = (Ok (5, slots'), c') ∧
    7 ∈ slots' ∧ 9 ∈ slots' ∧ 4 ∉ slots'.
Proof.
  destruct (update_epoch_slots_spec (λ _, 100) 1 5 3 {[ 4; 7 ]} [[6]; [2; 9]] demo_node) as (slots' & c' & Hrun & Hin & _).
  { intros s [->%elem_of_singleton| ->%elem_of_singleton]%elem_of_union; lia. }
  exists slots', c'. split; [exact Hrun|]. rewrite !Hin. split; [|split].
  - split; [left; set_solver|lia].
  - split; [right; exists [2; 9]; set_solver|lia].
  - lia.
Defined.
End repair_demo.
