(* ===== verification/BlockhashQueue.v ===== *)
(** The queue of recent block hashes (src/runtime/src/blockhash_queue.rs),
    which decides whether the blockhash of a transaction is recent enough.
    The clock of [timestamp()] is the argument [now].

    The theorems compare the queue, a map that is cleaned up now and then,
    with the list of all the registered hashes. *)
From S2P Require Import Prelude Interface.

Module blockhash_queue.

Record HashAge := mkHashAge { timestamp : Z; age_height : Z }.

Record BlockhashQueue := mkBlockhashQueue {
  hash_height : Z;
  last_hash : option Hash;
  ages : gmap Hash HashAge;
  max_age : Z;
}.

Definition BlockhashQueue_new (max_age : Z) : BlockhashQueue :=
  mkBlockhashQueue 0 None ∅ max_age.

(** [BlockhashQueue::last_hash], which panics on an empty queue. *)
Definition get_last_hash (q : BlockhashQueue) : res Empty_set Hash := unwrap (last_hash q).

Definition check_hash_age (q : BlockhashQueue) (hash : Hash) (max_age : Z) : bool :=
  match ages q !! hash with
  | Some age => u64_sub (hash_height q) (age_height age) <=? max_age
  | None => false
  end.

Definition genesis_hash (now : Z) (q : BlockhashQueue) (hash : Hash) : BlockhashQueue :=
  mkBlockhashQueue (hash_height q) (Some hash)
    (<[hash := mkHashAge now 0]> (ages q)) (max_age q).

Definition check_age (hash_height max_age : Z) (age : HashAge) : bool :=
  u64_sub hash_height (age_height age) <=? max_age.

Definition register_hash (now : Z) (q : BlockhashQueue) (hash : Hash) : BlockhashQueue :=
  let height := u64_add (hash_height q) 1 in
  let kept :=
    if max_age q <=? Z.of_nat (size (ages q))
    then filter (λ '(_, age), check_age height (max_age q) age) (ages q)
    else ages q in
  mkBlockhashQueue height (Some hash) (<[hash := mkHashAge now height]> kept) (max_age q).

(** The entry that the iteration over the map meets first; at most one
    entry has a given height. *)
Definition hash_height_to_timestamp (q : BlockhashQueue) (height : Z) : option Z :=
  match filter (λ a, age_height a = height) (map_to_list (ages q)).*2 with
  | a :: _ => Some (timestamp a)
  | [] => None
  end.

End blockhash_queue.

Module blockhash_queue_proofs.
Import blockhash_queue.

(** A queue that was given the genesis hash and then the hashes [hs], each
    with the time of its registration. *)
Definition registered (max_age : Z) (now : Z) (genesis : Hash) (hs : list (Z * Hash)) :
    BlockhashQueue :=
  foldl (λ q '(now, h), register_hash now q h)
    (genesis_hash now (BlockhashQueue_new max_age) genesis) hs.

(** [all] lists every hash that was registered, the genesis hash first, and
    the [i]-th of them has height [i]. *)
Record queue_inv (q : BlockhashQueue) (all : list Hash) : Prop := {
  inv_height : hash_height q + 1 = Z.of_nat (length all) ∧ length all ≠ 0%nat;
  inv_last : last_hash q = last all;
  inv_age : ∀ h a, ages q !! h = Some a →
    0 ≤ age_height a ∧ all !! Z.to_nat (age_height a) = Some h ∧
    ∀ j, all !! j = Some h → Z.of_nat j ≤ age_height a;
  inv_kept : ∀ h j, all !! j = Some h → hash_height q - Z.of_nat j ≤ max_age q →
    is_Some (ages q !! h);
  inv_size : Z.of_nat (size (ages q)) ≤ max_age q + 1;
}.

Lemma genesis_inv ma now g :
  0 ≤ ma → queue_inv (genesis_hash now (BlockhashQueue_new ma) g) [g].
Proof.
  intros Hma. split; simpl.
  - lia.
  - done.
  - intros h a. rewrite insert_empty. intros [<- <-]%lookup_singleton_Some.
    split_and!; [done..|]. intros [|j]; [simpl; lia|done].
  - intros h [|j]; [|done]. intros [= ->] _. rewrite lookup_insert_eq. eauto.
  - rewrite insert_empty, map_size_singleton. lia.
Qed.

(** A map whose values have distinct keys in a window is no larger than
    the window. *)
Lemma window_size (m : gmap Hash HashAge) lo n :
  0 ≤ n → (∀ h a, m !! h = Some a → lo ≤ age_height a < lo + n) →
  (∀ h h' a a', m !! h = Some a → m !! h' = Some a' → age_height a = age_height a' → h = h') →
  Z.of_nat (size m) ≤ n.
Proof.
  intros Hn Hw Hinj.
  assert (NoDup ((λ p : Hash * HashAge, age_height p.2) <$> map_to_list m)) as Hnd.
  { apply NoDup_fmap_2_strong; [|apply NoDup_map_to_list].
    intros [h a] [h' a'] H1%elem_of_map_to_list H2%elem_of_map_to_list Heq; simpl in Heq.
    assert (h = h') as -> by eauto. congruence. }
  apply (NoDup_submseteq _ (seqZ lo n)) in Hnd as Hsub.
  - apply submseteq_length in Hsub. rewrite length_fmap, length_seqZ in Hsub.
    rewrite <- length_map_to_list. lia.
  - intros x ([h a] & -> & Hin%elem_of_map_to_list)%list_elem_of_fmap.
    apply elem_of_seqZ. by apply Hw in Hin.
Qed.

Definition kept_ages (q : BlockhashQueue) : gmap Hash HashAge :=
  if max_age q <=? Z.of_nat (size (ages q))
  then filter (λ '(_, age), check_age (u64_add (hash_height q) 1) (max_age q) age) (ages q)
  else ages q.

Section register.
Context (q : BlockhashQueue) (all : list Hash) (Hq : queue_inv q all).
Context (Hma : 0 ≤ max_age q) (Hlen : Z.of_nat (length all) < two64).

Lemma next_height : u64_add (hash_height q) 1 = Z.of_nat (length all).
Proof. destruct Hq as [[Hh ?] _ _ _ _]. rewrite u64_add_exact; lia. Qed.

Lemma age_below h a : ages q !! h = Some a → 0 ≤ age_height a < Z.of_nat (length all).
Proof. intros (? & Hl%lookup_lt_Some & _)%(inv_age _ _ Hq). lia. Qed.

Lemma check_age_exact h a :
  ages q !! h = Some a →
  check_age (u64_add (hash_height q) 1) (max_age q) a =
    (Z.of_nat (length all) - age_height a <=? max_age q).
Proof.
  intros Ha%age_below. unfold check_age. rewrite next_height, u64_sub_exact; [done|..];
    unfold is_u64; lia.
Qed.

Lemma kept_ages_subset h a : kept_ages q !! h = Some a → ages q !! h = Some a.
Proof.
  unfold kept_ages. destruct (_ <=? _); [|done]. by intros [? _]%map_lookup_filter_Some.
Qed.

Lemma kept_ages_recent h a :
  ages q !! h = Some a → Z.of_nat (length all) - age_height a ≤ max_age q →
  kept_ages q !! h = Some a.
Proof.
  intros Ha Hr. unfold kept_ages. destruct (_ <=? _); [|done].
  apply map_lookup_filter_Some. split; [done|]. rewrite (check_age_exact h) by done.
  by apply Is_true_true, Z.leb_le.
Qed.

Lemma register_age now h h' a :
  ages (register_hash now q h) !! h' = Some a →
  0 ≤ age_height a ∧ (all ++ [h]) !! Z.to_nat (age_height a) = Some h' ∧
  ∀ j, (all ++ [h]) !! j = Some h' → Z.of_nat j ≤ age_height a.
Proof.
  simpl. fold (kept_ages q). rewrite next_height. destruct (decide (h' = h)) as [->|Hne].
  - rewrite lookup_insert_eq. intros [= <-]; simpl. rewrite Nat2Z.id. split_and!; [lia| |].
    + by apply list_lookup_middle.
    + intros j Hj%lookup_lt_Some. rewrite length_app in Hj; simpl in Hj. lia.
  - rewrite lookup_insert_ne by done. intros Ha%kept_ages_subset.
    pose proof (age_below _ _ Ha). apply (inv_age _ _ Hq) in Ha as (? & Hl & Hmax).
    split_and!; [done|by apply lookup_app_l_Some|]. intros j Hj.
    apply lookup_app_Some in Hj as [?|[? ?%list_lookup_singleton_Some]]; [auto|naive_solver].
Qed.

Lemma register_size now h :
  Z.of_nat (size (ages (register_hash now q h))) ≤ max_age q + 1.
Proof.
  destruct (max_age q <=? Z.of_nat (size (ages q))) eqn:Hsz.
  - apply (window_size _ (Z.of_nat (length all) - max_age q)); [lia| |].
    + intros h' a Ha. pose proof (register_age _ _ _ _ Ha) as (_ & Hl%lookup_lt_Some & _).
      rewrite length_app in Hl; simpl in Hl. split; [|lia]. simpl in Ha. rewrite Hsz in Ha.
      destruct (decide (h' = h)) as [->|Hne].
      * rewrite lookup_insert_eq in Ha. injection Ha as <-; simpl. rewrite next_height. lia.
      * rewrite lookup_insert_ne in Ha by done.
        apply map_lookup_filter_Some in Ha as [Ha Hc].
        rewrite (check_age_exact h') in Hc by done. apply Is_true_true, Z.leb_le in Hc. lia.
    + intros h1 h2 a1 a2 (_ & H1 & _)%register_age (_ & H2 & _)%register_age Heq.
      rewrite Heq in H1. congruence.
  - simpl. rewrite Hsz, map_size_insert. destruct (_ !! _); unfold id; lia.
Qed.

Lemma register_inv now h : queue_inv (register_hash now q h) (all ++ [h]).
Proof.
  split.
  - simpl. rewrite next_height, length_app; simpl. lia.
  - simpl. by rewrite last_snoc.
  - apply register_age.
  - intros h' j Hj Hr. simpl in *. fold (kept_ages q). rewrite next_height in Hr.
    destruct (decide (h' = h)) as [->|Hne]; [rewrite lookup_insert_eq; eauto|].
    rewrite lookup_insert_ne by done.
    apply lookup_app_Some in Hj as [Hj|[_ [_ ?]%list_lookup_singleton_Some]]; [|done].
    destruct (inv_height _ _ Hq) as [Hh _].
    destruct (inv_kept _ _ Hq h' j Hj) as [a Ha]; [lia|].
    destruct (inv_age _ _ Hq _ _ Ha) as (_ & _ & Hmax). specialize (Hmax j Hj).
    exists a. apply kept_ages_recent; [done|lia].
  - apply register_size.
Qed.
End register.

Lemma registered_inv ma now g hs :
  0 ≤ ma → Z.of_nat (length hs) + 1 < two64 →
  queue_inv (registered ma now g hs) (g :: hs.*2) ∧ max_age (registered ma now g hs) = ma.
Proof.
  intros Hma. induction hs as [|[now' h] hs IH] using rev_ind; intros Hlen.
  { split; [by apply genesis_inv|done]. }
  rewrite length_app in Hlen; simpl in Hlen. destruct IH as [IH Hmax]; [lia|].
  unfold registered. rewrite foldl_app. fold (registered ma now g hs). simpl.
  split; [|done]. rewrite fmap_app, app_comm_cons.
  apply (register_inv _ _ IH); [lia|]. rewrite length_cons, length_fmap. lia.
Qed.

(** The queue is a faithful window on the chain: for every age up to
    its [max_age], [check_hash_age] accepts a hash exactly when it is
    among the last [age + 1] hashes registered, the last hash is the most
    recent one, and the queue never holds more than [max_age + 1] hashes. *)
Theorem blockhash_queue_window ma now g hs :
  0 ≤ ma → Z.of_nat (length hs) + 1 < two64 →
  let q := registered ma now g hs in
  (∀ h age, 0 ≤ age ≤ ma →
     check_hash_age q h age = true ↔ h ∈ drop (length hs - Z.to_nat age) (g :: hs.*2)) ∧
  last_hash q = last (g :: hs.*2) ∧
  Z.of_nat (size (ages q)) ≤ ma + 1.
Proof.
  intros Hma Hlen q. destruct (registered_inv ma now g hs Hma Hlen) as [Hq Hmq].
  fold q in Hq, Hmq. set (all := g :: hs.*2) in *.
  assert (length all = S (length hs)) as Hl by (unfold all; simpl; by rewrite length_fmap).
  split_and!; [|by apply Hq|rewrite <- Hmq; apply Hq].
  intros h age Hage. destruct (inv_height _ _ Hq) as [Hh _]. unfold check_hash_age.
  rewrite list_elem_of_lookup. setoid_rewrite lookup_drop.
  destruct (ages q !! h) as [a|] eqn:Ha.
  - destruct (inv_age _ _ Hq _ _ Ha) as (Ha0 & Hla & Hmax).
    pose proof (lookup_lt_Some _ _ _ Hla).
    rewrite u64_sub_exact, Z.leb_le by (unfold is_u64; lia). split.
    + intros Hle. exists (Z.to_nat (age_height a) - (length hs - Z.to_nat age))%nat.
      rewrite <- Hla. f_equal. lia.
    + intros [i Hi]. apply Hmax in Hi. lia.
  - split; [done|]. intros [i Hi]. exfalso.
    destruct (inv_kept _ _ Hq _ _ Hi) as [a Ha']; [lia|congruence].
Qed.

Lemma blockhash_queue_window_witness :
  check_hash_age (registered 2 0 10 [(1, 11); (2, 12); (3, 10); (4, 14)]) 12 2 = true.
Proof.
  apply (blockhash_queue_window 2 0 10 [(1, 11); (2, 12); (3, 10); (4, 14)]); [done..|].
  simpl. set_solver.
Defined.

End blockhash_queue_proofs.
