(* ===== verification/StatusCache.v ===== *)
(** The status cache (src/runtime/src/status_cache.rs), which remembers
    the signatures of recent transactions so that none runs twice.  Only
    20 bytes of each signature are kept, at an offset that is drawn for
    each blockhash; the draw is the argument [rnd] of [insert].

    The theorem [status_cache_spec] relates the cache to the history of
    the insertions: it forgets no status that is recent enough and it
    invents none. *)
From S2P Require Import Prelude Interface.

Module status_cache.

Notation ForkId := Z.

(** [MAX_HASH_AGE_IN_SECONDS] of interface/src/timing.rs *)
Definition MAX_CACHE_ENTRIES : nat := 120.
Definition CACHED_SIGNATURE_SIZE : nat := 20.

Notation ForkStatus T := (list (Z * T)).
Notation SignatureMap T := (gmap (list Z) (ForkStatus T)).

(** [(ForkId, usize, SignatureMap<T>)] *)
Record BlockhashStatus (T : Type) := mkStatus {
  newest_fork : ForkId;
  slice_index : nat;
  sig_map : SignatureMap T;
}.
Arguments mkStatus {T} _ _ _.
Arguments newest_fork {T} _.
Arguments slice_index {T} _.
Arguments sig_map {T} _.

Record StatusCache (T : Type) := mkStatusCache {
  cache : gmap Hash (BlockhashStatus T);
  roots : gset ForkId;
}.
Arguments mkStatusCache {T} _ _.
Arguments cache {T} _.
Arguments roots {T} _.

(** [sig.as_ref()[index..index + CACHED_SIGNATURE_SIZE]], within the 64 bytes
    of a signature. *)
Definition sig_slice (index : nat) (sig : Signature) : list Z :=
  take CACHED_SIGNATURE_SIZE (drop index sig).

Section operations.
Context {T : Type}.
Implicit Types (sc : StatusCache T) (ancestors : gmap ForkId Z).

Definition StatusCache_default : StatusCache T := mkStatusCache ∅ ∅.

Definition is_visible sc ancestors (f : ForkId) : bool :=
  bool_decide (is_Some (ancestors !! f)) || bool_decide (f ∈ roots sc).

Definition get_signature_status sc (sig : Signature) (transaction_blockhash : Hash) ancestors :
    option (ForkId * T) :=
  st ← cache sc !! transaction_blockhash;
  stored_forks ← sig_map st !! sig_slice (slice_index st) sig;
  head (filter (λ e, is_visible sc ancestors e.1) stored_forks).

(** [order] is the order in which the hash map yields its keys. *)
Fixpoint get_signature_status_slow sc (sig : Signature) ancestors (order : list Hash) :
    option (Z * T) :=
  match order with
  | [] => None
  | blockhash :: order =>
      match get_signature_status sc sig blockhash ancestors with
      | Some (forkid, res) =>
          match ancestors !! forkid with
          | Some id => Some (id, res)
          | None => Some (Z.of_nat (size ancestors), res)
          end
      | None => get_signature_status_slow sc sig ancestors order
      end
  end.

(** [self.roots.iter().min()] *)
Definition min_root (roots : gset ForkId) : option ForkId :=
  match elements roots with
  | [] => None
  | f :: fs => Some (foldl Z.min f fs)
  end.

(** The root that [add_root fork] removes. *)
Definition evicted sc (fork : ForkId) : option ForkId :=
  let roots := {[fork]} ∪ roots sc in
  if (MAX_CACHE_ENTRIES <? size roots)%nat then min_root roots else None.

Definition add_root sc (fork : ForkId) : StatusCache T :=
  let roots := {[fork]} ∪ roots sc in
  match evicted sc fork with
  | Some min =>
      mkStatusCache (filter (λ '(_, st), min < newest_fork st) (cache sc)) (roots ∖ {[min]})
  | None => mkStatusCache (cache sc) roots
  end.

Definition insert (rnd : nat) sc (transaction_blockhash : Hash) (sig : Signature)
    (fork : ForkId) (res : T) : StatusCache T :=
  let st := default (mkStatus fork rnd ∅) (cache sc !! transaction_blockhash) in
  let slice := sig_slice (slice_index st) sig in
  let sig_forks := default [] (sig_map st !! slice) in
  mkStatusCache
    (<[transaction_blockhash :=
         mkStatus (Z.max fork (newest_fork st)) (slice_index st)
           (<[slice := sig_forks ++ [(fork, res)]]> (sig_map st))]> (cache sc))
    (roots sc).

Definition clear_signatures sc : StatusCache T :=
  mkStatusCache ((λ st, mkStatus (newest_fork st) (slice_index st) ∅) <$> cache sc) (roots sc).
End operations.

End status_cache.

Module status_cache_proofs.
Import status_cache.

Section proofs.
Context {T : Type}.
Implicit Types (sc : StatusCache T) (anc : gmap ForkId Z).

Inductive cache_op :=
| InsertOp (rnd : nat) (blockhash : Hash) (sig : Signature) (fork : ForkId) (status : T)
| AddRootOp (fork : ForkId).

Definition step sc (op : cache_op) : StatusCache T :=
  match op with
  | InsertOp rnd bh sig f r => insert rnd sc bh sig f r
  | AddRootOp f => add_root sc f
  end.

Definition run (ops : list cache_op) : StatusCache T := foldl step StatusCache_default ops.

(** Every root that a history evicts satisfies [P]. *)
Fixpoint evictions (P : ForkId → Prop) sc (ops : list cache_op) : Prop :=
  match ops with
  | [] => True
  | op :: ops =>
      match op with
      | AddRootOp f => match evicted sc f with Some min => P min | None => True end
      | _ => True
      end ∧ evictions P (step sc op) ops
  end.

(** [sc] has the status of a transaction of [blockhash] whose signature
    has the slice of [sig]. *)
Definition has_status sc (bh : Hash) (sig : Signature) (f : ForkId) (r : T) : Prop :=
  ∃ st l, cache sc !! bh = Some st ∧ f ≤ newest_fork st ∧
    sig_map st !! sig_slice (slice_index st) sig = Some l ∧ (f, r) ∈ l.

Lemma has_status_insert rnd sc bh sig f r :
  has_status (insert rnd sc bh sig f r) bh sig f r.
Proof.
  unfold has_status; simpl. rewrite lookup_insert_eq. eexists _, _. split; [done|]; simpl.
  split; [lia|]. rewrite lookup_insert_eq. split; [done|]. set_solver.
Qed.

Lemma has_status_insert_other rnd sc bh sig f r bh' sig' f' r' :
  has_status sc bh sig f r → has_status (insert rnd sc bh' sig' f' r') bh sig f r.
Proof.
  intros (st & l & Hst & Hf & Hl & Hin). unfold has_status; simpl.
  destruct (decide (bh = bh')) as [<-|Hne]; [|rewrite lookup_insert_ne by done; eauto 10].
  rewrite lookup_insert_eq, Hst. simpl. eexists. set (i := slice_index st) in *.
  destruct (decide (sig_slice i sig = sig_slice i sig')) as [Heq|Hne].
  - eexists. split; [done|]; simpl. fold i. rewrite Heq, lookup_insert_eq, <- Heq, Hl.
    split; [lia|]. split; [done|]. set_solver.
  - exists l. split; [done|]; simpl. fold i. rewrite lookup_insert_ne by done. auto with lia.
Qed.

Lemma has_status_add_root sc bh sig f r g :
  has_status sc bh sig f r → match evicted sc g with Some min => min < f | None => True end →
  has_status (add_root sc g) bh sig f r.
Proof.
  intros (st & l & Hst & Hf & Hl & Hin) He. unfold has_status, add_root.
  destruct (evicted sc g) as [min|]; simpl; [|eauto 10].
  exists st, l. split; [|done]. apply map_lookup_filter_Some. split; [done|lia].
Qed.

Lemma has_status_run sc ops bh sig f r :
  has_status sc bh sig f r → evictions (λ min, min < f) sc ops →
  has_status (foldl step sc ops) bh sig f r.
Proof.
  revert sc. induction ops as [|op ops IH]; intros sc Hs; simpl; [done|]. intros [He Hes].
  apply IH; [|done]. destruct op; simpl.
  - by apply has_status_insert_other.
  - by apply has_status_add_root.
Qed.

Lemma get_signature_status_is_Some sc bh sig f r anc :
  has_status sc bh sig f r → is_visible sc anc f → is_Some (get_signature_status sc sig bh anc).
Proof.
  intros (st & l & Hst & _ & Hl & Hin) Hv. unfold get_signature_status.
  rewrite Hst; simpl. rewrite Hl; simpl.
  assert ((f, r) ∈ filter (λ e, is_visible sc anc e.1) l) as Hm
    by (by apply list_elem_of_filter).
  destruct (filter _ l); [by apply elem_of_nil in Hm|]. simpl. eauto.
Qed.

(** Every stored status was inserted, with a signature of the same slice. *)
Definition justified (ops : list cache_op) sc : Prop :=
  ∀ bh st slice l f r, cache sc !! bh = Some st → sig_map st !! slice = Some l → (f, r) ∈ l →
    ∃ rnd sig, InsertOp rnd bh sig f r ∈ ops ∧ slice = sig_slice (slice_index st) sig.

Lemma justified_weaken ops ops' sc : ops ⊆ ops' → justified ops sc → justified ops' sc.
Proof.
  intros Hsub Hj bh st slice l f r H1 H2 H3.
  destruct (Hj _ _ _ _ _ _ H1 H2 H3) as (rnd & sig & ? & ?). eauto 10.
Qed.

Lemma justified_step ops sc op : justified ops sc → justified (ops ++ [op]) (step sc op).
Proof.
  intros Hj%(justified_weaken _ (ops ++ [op])); [|set_solver].
  destruct op as [rnd bh sig f r|g]; simpl.
  - intros bh' st slice l f' r' Hst Hl Hin. simpl in Hst.
    destruct (decide (bh' = bh)) as [->|Hne];
      [|rewrite lookup_insert_ne in Hst by done; by eapply Hj].
    rewrite lookup_insert_eq in Hst. injection Hst as <-. simpl in *.
    assert (∀ slice l, sig_map (default (mkStatus f rnd ∅) (cache sc !! bh)) !! slice = Some l →
      (f', r') ∈ l → ∃ rnd' sig', InsertOp rnd' bh sig' f' r' ∈ ops ++ [InsertOp rnd bh sig f r] ∧
      slice = sig_slice (slice_index (default (mkStatus f rnd ∅) (cache sc !! bh))) sig') as Hold.
    { intros slice' l' Hl'. destruct (cache sc !! bh) as [st|] eqn:Hst; simpl in *;
        [by eapply Hj|by rewrite lookup_empty in Hl']. }
    set (st := default _ _) in *. apply lookup_insert_Some in Hl as [[<- <-]|[_ Hl]]; [|eauto].
    apply elem_of_app in Hin as [Hin|[= -> ->]%list_elem_of_singleton]; [|set_solver].
    destruct (sig_map st !! _) eqn:Hl; simpl in Hin; [eauto|by apply elem_of_nil in Hin].
  - unfold add_root. destruct (evicted sc g); simpl; [|done].
    intros bh st slice l f r Hst Hl Hin. simpl in Hst.
    apply map_lookup_filter_Some in Hst as [Hst _]. by eapply Hj.
Qed.

Lemma justified_run ops : justified ops (run ops).
Proof.
  induction ops as [|op ops IH] using rev_ind.
  - intros bh st slice l f r Hst. unfold run in Hst; simpl in Hst. by rewrite lookup_empty in Hst.
  - unfold run. rewrite foldl_app. by apply justified_step.
Qed.

(** The cache against the history of its insertions.  A status that
    was inserted is found again by every reader that sees its fork, unless
    a root at or above the fork was evicted since; and a status that is
    found was inserted for the same blockhash, in a fork the reader sees,
    for a signature that has the same 20-byte slice. *)
Theorem status_cache_spec ops1 rnd bh sig f r ops2 anc :
  let sc := run (ops1 ++ InsertOp rnd bh sig f r :: ops2) in
  (evictions (λ min, min < f) (run (ops1 ++ [InsertOp rnd bh sig f r])) ops2 →
     is_visible sc anc f → is_Some (get_signature_status sc sig bh anc)) ∧
  (∀ sig' bh' f' r', get_signature_status sc sig' bh' anc = Some (f', r') →
     is_visible sc anc f' ∧
     ∃ rnd'' sig'' st, InsertOp rnd'' bh' sig'' f' r' ∈ ops1 ++ InsertOp rnd bh sig f r :: ops2 ∧
       cache sc !! bh' = Some st ∧
       sig_slice (slice_index st) sig' = sig_slice (slice_index st) sig'').
Proof.
  intros sc. split.
  - intros He Hv. apply (get_signature_status_is_Some _ _ _ f r); [|done].
    unfold sc, run. rewrite cons_middle, app_assoc, foldl_app.
    apply has_status_run; [|done]. rewrite foldl_app. apply has_status_insert.
  - intros sig' bh' f' r'. unfold get_signature_status.
    destruct (cache sc !! bh') as [st|] eqn:Hst; simpl; [|done].
    destruct (sig_map st !! _) as [l|] eqn:Hl; simpl; [|done]. intros Hh%head_Some_elem_of.
    apply list_elem_of_filter in Hh as [Hv Hin]. split; [done|].
    destruct (justified_run _ _ _ _ _ _ _ Hst Hl Hin) as (rnd' & sig'' & ? & ?). eauto 10.
Qed.
End proofs.

Lemma status_cache_spec_witness :
  is_Some (get_signature_status
    (run [InsertOp 3 50 (seqZ 0 64) 7 (true : bool); AddRootOp 7]) (seqZ 0 64) 50 ∅).
Proof.
  apply (status_cache_spec [] 3 50 (seqZ 0 64) 7 true [AddRootOp 7] ∅); by vm_compute.
Defined.

End status_cache_proofs.
