(* ===== verification/Stake.v ===== *)
(** The stake program (src/controllers/stake_api/src/stake_state.rs and
    stake_instruction.rs) and the bank's cache of stakes
    (src/runtime/src/stakes.rs).

    Module [stake_state] has the account operations, module
    [stake_instruction] the builders and the processor, module [stakes] the
    cache.  The theorems show that redeeming conserves difs and happens once
    per credit, which account the rewards go to, and that the cached stake of
    a vote account is the sum of the stakes delegated to it. *)
From Stdlib Require Import Floats.SpecFloat.
From S2P Require Import Prelude Interface Codec Float SystemProgram VoteState.

Module stake_state.
Import vote_state.

Inductive StakeState :=
| Uninitialized
| Delegate (voter_pubkey : Pubkey) (credits_observed : Z)
| MiningPool.

Definition TICKS_PER_SECOND : f64 := f64_of_Z 10.
Definition TICKS_PER_SLOT : f64 := f64_of_Z 8.

Definition CREDITS_PER_YEAR : f64 :=
  f64_div
    (f64_mul (f64_mul (f64_mul (f64_of_Z 365) (f64_of_Z 24)) (f64_of_Z 3600)) TICKS_PER_SECOND)
    TICKS_PER_SLOT.

(** The literal [0.20]: the double that is nearest to 1/5. *)
Definition STAKE_REWARD_TARGET_RATE : f64 := f64_div (f64_of_Z 1) (f64_of_Z 5).

Definition voter_pubkey (s : StakeState) : option Pubkey :=
  match s with Delegate voter_pubkey _ => Some voter_pubkey | _ => None end.

(** (voter rewards, staker rewards) *)
Definition calculate_rewards (credits_observed stake : Z) (vote_state : VoteState)
    : option (Z * Z) :=
  if vote_state.(credits) <=? credits_observed then None
  else
    let total_rewards :=
      f64_div
        (f64_mul (f64_mul (f64_of_Z stake) STAKE_REWARD_TARGET_RATE)
           (f64_of_Z (u64_sub vote_state.(credits) credits_observed)))
        CREDITS_PER_YEAR in
    if f64_ltb total_rewards (f64_of_Z 1) then None
    else
      let '(voter_rewards, staker_rewards, is_split) :=
        commission_split vote_state total_rewards in
      if (f64_ltb voter_rewards (f64_of_Z 1) || f64_ltb staker_rewards (f64_of_Z 1)) && is_split
      then None
      else Some (f64_as_u64 voter_rewards, f64_as_u64 staker_rewards).

(** [account.difs += n] and [account.difs -= n] on a keyed account. *)
Definition credit (n : Z) (k : KeyedAccount) : KeyedAccount :=
  with_account (with_difs (u64_add k.(account).(difs) n) k.(account)) k.
Definition debit (n : Z) (k : KeyedAccount) : KeyedAccount :=
  with_account (with_difs (u64_sub k.(account).(difs) n) k.(account)) k.

Section StakeAccount.
Context `{!Bincode StakeState, !Bincode VoteState}.

Definition StakeState_from (a : Account) : option StakeState :=
  match state a with Ok s => Some s | _ => None end.

Definition voter_pubkey_from (a : Account) : option Pubkey :=
  s ← StakeState_from a; voter_pubkey s.

Definition initialize_mining_pool (self : KeyedAccount) : res InstructionError unit * KeyedAccount :=
  match keyed_state (T:=StakeState) self with
  | Ok Uninitialized => keyed_set_state MiningPool self
  | Ok _ => (Err InvalidAccountData, self)
  | Err e => (Err e, self)
  | Panic => (Panic, self)
  end.

Definition initialize_delegate (self : KeyedAccount) : res InstructionError unit * KeyedAccount :=
  match keyed_state (T:=StakeState) self with
  | Ok Uninitialized => keyed_set_state (Delegate Pubkey_default 0) self
  | Ok _ => (Err InvalidAccountData, self)
  | Err e => (Err e, self)
  | Panic => (Panic, self)
  end.

Definition delegate_stake (self vote_account : KeyedAccount)
    : res InstructionError unit * KeyedAccount :=
  match signer_key self with
  | None => (Err MissingRequiredSignature, self)
  | Some _ =>
      match keyed_state (T:=StakeState) self with
      | Ok (Delegate _ _) =>
          match keyed_state (T:=VoteState) vote_account with
          | Ok vote_state =>
              keyed_set_state (Delegate (unsigned_key vote_account) vote_state.(credits)) self
          | Err e => (Err e, self)
          | Panic => (Panic, self)
          end
      | Ok _ => (Err InvalidAccountData, self)
      | Err e => (Err e, self)
      | Panic => (Panic, self)
      end
  end.

(** The three accounts that [redeem_vote_credits] holds. *)
Record redeem_accounts := mkRedeem { pool : KeyedAccount; stake : KeyedAccount; vote : KeyedAccount }.

Definition redeem_vote_credits (k : redeem_accounts) : res InstructionError unit * redeem_accounts :=
  match (s1 ← keyed_state (T:=StakeState) k.(pool);
         s2 ← keyed_state (T:=StakeState) k.(stake); Ok (s1, s2)) with
  | Ok (MiningPool, Delegate voter_pubkey credits_observed) =>
      match keyed_state (T:=VoteState) k.(vote) with
      | Ok vote_state =>
          if negb (voter_pubkey =? unsigned_key k.(vote)) then (Err InvalidArgument, k)
          else if vote_state.(credits) <? credits_observed then (Err InvalidAccountData, k)
          else
            match calculate_rewards credits_observed k.(stake).(account).(difs) vote_state with
            | Some (stakers_reward, voters_reward) =>
                if k.(pool).(account).(difs) <? u64_add stakers_reward voters_reward
                then (Err UnbalancedInstruction, k)
                else
                  let pool := debit (u64_add stakers_reward voters_reward) k.(pool) in
                  let stake := credit stakers_reward k.(stake) in
                  let vote := credit voters_reward k.(vote) in
                  let '(r, stake) :=
                    keyed_set_state (Delegate voter_pubkey vote_state.(credits)) stake in
                  (r, mkRedeem pool stake vote)
            | None => (Err (CustomError 1), k)
            end
      | Err e => (Err e, k)
      | Panic => (Panic, k)
      end
  | Ok _ => (Err InvalidAccountData, k)
  | Err e => (Err e, k)
  | Panic => (Panic, k)
  end.

(** [size_of] is [std::mem::size_of::<StakeState>()], which depends on the
    layout that the compiler chooses. *)
Definition create_delegate_stake_account (size_of : Z) (voter_pubkey : Pubkey)
    (vote_state : VoteState) (difs : Z) : res InstructionError Account :=
  let stake_account := Account_new difs 0 size_of stake_program.id in
  match set_state (Delegate voter_pubkey vote_state.(credits)) stake_account with
  | (Ok _, a) => Ok a
  | _ => Panic
  end.
End StakeAccount.

End stake_state.

Module stake_instruction.
Import vote_state stake_state.

Inductive StakeInstruction :=
| InitializeDelegate
| InitializeMiningPool
| DelegateStake
| RedeemVoteCredits.

Section Builders.
Context `{!Bincode StakeInstruction, !Bincode system_instruction.SystemInstruction}.
Context (size_of : Z).

Definition create_delegate_account (from_pubkey staker_pubkey : Pubkey) (difs : Z)
    : list Instruction :=
  [system_instruction.create_account from_pubkey staker_pubkey difs size_of stake_program.id;
   Instruction_new stake_program.id InitializeDelegate
     [AccountMeta_new from_pubkey true; AccountMeta_new staker_pubkey false]].

Definition create_mining_pool_account (from_pubkey staker_pubkey : Pubkey) (difs : Z)
    : list Instruction :=
  [system_instruction.create_account from_pubkey staker_pubkey difs size_of stake_program.id;
   Instruction_new stake_program.id InitializeMiningPool
     [AccountMeta_new from_pubkey true; AccountMeta_new staker_pubkey false]].

Definition redeem_vote_credits (from_pubkey mining_pool_pubkey stake_pubkey vote_pubkey : Pubkey)
    : Instruction :=
  Instruction_new stake_program.id RedeemVoteCredits
    [AccountMeta_new from_pubkey true; AccountMeta_new mining_pool_pubkey false;
     AccountMeta_new stake_pubkey false; AccountMeta_new vote_pubkey false].

Definition delegate_stake (from_pubkey stake_pubkey vote_pubkey : Pubkey) : Instruction :=
  Instruction_new stake_program.id DelegateStake
    [AccountMeta_new from_pubkey true; AccountMeta_new stake_pubkey true;
     AccountMeta_new vote_pubkey false].
End Builders.

Section Processor.
Context `{!Bincode StakeState, !Bincode VoteState, !Bincode StakeInstruction}.

Definition process_instruction (keyed_accounts : list KeyedAccount) (data : list Z)
    : res InstructionError unit * list KeyedAccount :=
  match keyed_accounts with
  | payer :: me :: rest =>
      match deserialize (A:=StakeInstruction) data with
      | None => (Err InvalidInstructionData, keyed_accounts)
      | Some InitializeMiningPool =>
          match rest with
          | [] => let '(r, me) := initialize_mining_pool me in (r, [payer; me])
          | _ => (Err InvalidInstructionData, keyed_accounts)
          end
      | Some InitializeDelegate =>
          match rest with
          | [] => let '(r, me) := initialize_delegate me in (r, [payer; me])
          | _ => (Err InvalidInstructionData, keyed_accounts)
          end
      | Some DelegateStake =>
          match rest with
          | [vote] => let '(r, me) := stake_state.delegate_stake me vote in (r, [payer; me; vote])
          | _ => (Err InvalidInstructionData, keyed_accounts)
          end
      | Some RedeemVoteCredits =>
          match rest with
          | [stake; vote] =>
              let '(r, k) := stake_state.redeem_vote_credits (mkRedeem me stake vote) in
              (r, [payer; k.(stake_state.pool); k.(stake_state.stake); k.(stake_state.vote)])
          | _ => (Err InvalidInstructionData, keyed_accounts)
          end
      end
  | _ => (Err InvalidInstructionData, keyed_accounts)
  end.
End Processor.

End stake_instruction.

Module stakes.
Import vote_state stake_state.

Record Stakes := mkStakes {
  vote_accounts : gmap Pubkey (Z * Account);
  stake_accounts : gmap Pubkey Account;
}.

Definition Stakes_default : Stakes := mkStakes ∅ ∅.

Definition is_stake (a : Account) : bool :=
  vote_program.check_id a.(owner) || stake_program.check_id a.(owner).

Section Operations.
Context `{!Bincode StakeState}.

Definition calculate_stake (s : Stakes) (voter : Pubkey) : Z :=
  u64_sum (difs <$> filter (λ a, voter_pubkey_from a = Some voter) (map_to_list s.(stake_accounts)).*2).

(** The pair (difs, voter) of a stake account that is delegated. *)
Definition stake_of (a : Account) : option (Z * Pubkey) :=
  voter ← voter_pubkey_from a; Some (a.(difs), voter).

Definition store (pubkey : Pubkey) (account : Account) (s : Stakes) : Stakes :=
  if vote_program.check_id account.(owner) then
    if account.(difs) =? 0
    then mkStakes (delete pubkey s.(vote_accounts)) s.(stake_accounts)
    else
      let stake :=
        match s.(vote_accounts) !! pubkey with
        | Some v => v.1
        | None => calculate_stake s pubkey
        end in
      mkStakes (<[pubkey := (stake, account)]> s.(vote_accounts)) s.(stake_accounts)
  else if stake_program.check_id account.(owner) then
    let old_stake := a ← s.(stake_accounts) !! pubkey; stake_of a in
    let stake := stake_of account in
    let votes :=
      if decide (stake = old_stake) then s.(vote_accounts)
      else
        let votes :=
          match old_stake with
          | Some (old_stake, old_voter_pubkey) =>
              alter (λ e, (u64_sub e.1 old_stake, e.2)) old_voter_pubkey s.(vote_accounts)
          | None => s.(vote_accounts)
          end in
        match stake with
        | Some (stake, voter_pubkey) =>
            alter (λ e, (u64_add e.1 stake, e.2)) voter_pubkey votes
        | None => votes
        end in
    mkStakes votes
      (if account.(difs) =? 0 then delete pubkey s.(stake_accounts)
       else <[pubkey := account]> s.(stake_accounts))
  else s.

(** ** The cached stakes *)

(** What a stake account contributes to the stake of [voter]. *)
Definition contribution (voter : Pubkey) (a : Account) : Z :=
  if decide (voter_pubkey_from a = Some voter) then a.(difs) else 0.

Definition delegated (m : gmap Pubkey Account) (voter : Pubkey) : Z :=
  Zsum (contribution voter <$> (map_to_list m).*2).

(** The cache is right: the stake of every vote account is the sum of the
    stakes delegated to it. *)
Definition cached_ok (s : Stakes) : Prop :=
  ∀ k e, s.(vote_accounts) !! k = Some e → e.1 = wrap64 (delegated s.(stake_accounts) k).

Lemma calculate_stake_delegated s k :
  calculate_stake s k = wrap64 (delegated s.(stake_accounts) k).
Proof.
  unfold calculate_stake, delegated. rewrite u64_sum_wrap. f_equal.
  induction (map_to_list s.(stake_accounts)).*2 as [|a l IH]; [done|].
  rewrite filter_cons, fmap_cons. unfold contribution at 1.
  case_decide; cbn [Zsum]; rewrite ?fmap_cons; cbn [Zsum]; by rewrite IH.
Qed.

Lemma delegated_insert_fresh m p a k :
  m !! p = None → delegated (<[p := a]> m) k = contribution k a + delegated m k.
Proof.
  intros Hp. unfold delegated.
  rewrite (Zsum_perm _ (contribution k <$> ((p, a) :: map_to_list m).*2)); [done|].
  by rewrite map_to_list_insert.
Qed.

Lemma delegated_delete m p k :
  delegated (delete p m) k = delegated m k - from_option (contribution k) 0 (m !! p).
Proof.
  destruct (m !! p) as [a|] eqn:Hp; simpl.
  - rewrite <- (insert_delete_id m p a) at 2 by done.
    rewrite delegated_insert_fresh by apply lookup_delete_eq. lia.
  - rewrite delete_id by done. lia.
Qed.

Lemma delegated_insert m p a k :
  delegated (<[p := a]> m) k =
    delegated m k - from_option (contribution k) 0 (m !! p) + contribution k a.
Proof.
  rewrite <- insert_delete_eq, delegated_insert_fresh, delegated_delete by apply lookup_delete_eq.
  lia.
Qed.

Lemma contribution_stake_of k a :
  contribution k a =
    match stake_of a with Some (d, v) => if decide (v = k) then d else 0 | None => 0 end.
Proof.
  unfold contribution, stake_of. destruct (voter_pubkey_from a) as [v|]; simpl.
  - repeat case_decide; congruence.
  - done.
Qed.

(** The adjustment of one vote account by [store]. *)
Definition adjusted (s : Stakes) (old new : option (Z * Pubkey)) : gmap Pubkey (Z * Account) :=
  let votes :=
    match old with
    | Some (d, v) => alter (λ e, (u64_sub e.1 d, e.2)) v s.(vote_accounts)
    | None => s.(vote_accounts)
    end in
  match new with
  | Some (d, v) => alter (λ e, (u64_add e.1 d, e.2)) v votes
  | None => votes
  end.

Definition part (k : Pubkey) (o : option (Z * Pubkey)) : Z :=
  match o with Some (d, v) => if decide (v = k) then d else 0 | None => 0 end.

Lemma wrap64_sub_l a b : wrap64 (wrap64 a - b) = wrap64 (a - b).
Proof. unfold wrap64. by rewrite Zminus_mod_idemp_l. Qed.

Lemma adjusted_lookup s old new k e :
  adjusted s old new !! k = Some e →
  ∃ e0, s.(vote_accounts) !! k = Some e0 ∧ wrap64 e.1 = wrap64 (e0.1 - part k old + part k new) ∧
    (wrap64 e0.1 = e0.1 → wrap64 e.1 = e.1).
Proof.
  unfold adjusted, part.
  assert (∀ m : gmap Pubkey (Z * Account), ∀ f v, alter f v m !! k =
    if decide (v = k) then f <$> m !! k else m !! k) as Halt.
  { intros m f v. case_decide as Hd; [subst; apply lookup_alter_eq|by apply lookup_alter_ne]. }
  destruct old as [[d v]|], new as [[d' v']|]; rewrite ?Halt; repeat case_decide;
    intros He; destruct (vote_accounts s !! k) as [e0|]; simplify_eq/=;
    (eexists; split; [done|]); simpl; unfold u64_add, u64_sub;
    rewrite ?wrap64_idemp, ?wrap64_add_l, ?wrap64_sub_l; (split; [f_equal; lia|auto]).
Qed.

Lemma store_cached_ok p a s : cached_ok s → cached_ok (store p a s).
Proof.
  intros Hs. unfold store. destruct (vote_program.check_id _); [|destruct (stake_program.check_id _)].
  - destruct (difs a =? 0); intros k e; simpl.
    + intros [_ He]%lookup_delete_Some. by apply Hs.
    + intros [[<- <-]|[_ He]]%lookup_insert_Some; [|by apply Hs]. simpl.
      destruct (vote_accounts s !! p) as [v|] eqn:Hp; [by apply Hs|apply calculate_stake_delegated].
  - set (old := _ ≫= stake_of). set (new := stake_of a).
    assert (∀ k, delegated (if difs a =? 0 then delete p (stake_accounts s)
        else <[p := a]> (stake_accounts s)) k = delegated (stake_accounts s) k - part k old + part k new)
      as Hsum.
    { intros k. assert (part k new = contribution k a) as -> by (by rewrite contribution_stake_of).
      assert (part k old = from_option (contribution k) 0 (stake_accounts s !! p)) as ->.
      { unfold old. destruct (stake_accounts s !! p); [|done]; simpl. by rewrite contribution_stake_of. }
      destruct (Z.eqb_spec (difs a) 0) as [H0|_]; [|apply delegated_insert].
      rewrite delegated_delete. unfold contribution at 3. case_decide; lia. }
    intros k e; cbn [vote_accounts stake_accounts]. rewrite Hsum. case_decide as Heq.
    + intros He%Hs. rewrite Heq, Z.sub_add. done.
    + fold (adjusted s old new). intros (e0 & He0 & Hw & Hr)%adjusted_lookup.
      apply Hs in He0. rewrite He0 in Hw, Hr. rewrite <- Hr by apply wrap64_idemp.
      rewrite Hw. replace (_ - _ + _) with (wrap64 (delegated (stake_accounts s) k)
        + (part k new - part k old)) by lia. rewrite wrap64_add_l. f_equal. lia.
  - done.
Qed.

(** Whatever accounts are stored, in whatever order, the cached stake of
    every vote account is the 64-bit sum of the difs of the stake accounts
    that delegate to it. *)
Theorem stakes_cache_invariant (history : list (Pubkey * Account)) :
  let s := foldl (λ s '(p, a), store p a s) Stakes_default history in
  ∀ k stake a, s.(vote_accounts) !! k = Some (stake, a) → stake = calculate_stake s k.
Proof.
  intros s k stake a Hk. rewrite calculate_stake_delegated.
  assert (cached_ok s) as Hs; [|by apply (Hs _ _ Hk)]. clear Hk. unfold s.
  induction history as [|[p b] l IH] using rev_ind; [done|].
  rewrite foldl_app. by apply store_cached_ok.
Qed.
End Operations.

End stakes.

Module stake_proofs.
Import vote_state stake_state.

Global Instance StakeState_ranged : Ranged StakeState := λ s,
  match s with Delegate voter credits => is_key voter ∧ is_u64 credits | _ => True end.

Section Redeem.
Context `{!Bincode StakeState, !BincodeLaws StakeState, !Bincode VoteState, !BincodeLaws VoteState}.

(** Everything that a successful redemption did. *)
Record redeemed (k k' : redeem_accounts) (vs : VoteState) (obs stakers voters : Z) : Prop := {
  red_pool : keyed_state (T:=StakeState) k.(pool) = Ok MiningPool;
  red_stake : keyed_state k.(stake) = Ok (Delegate k.(vote).(key) obs);
  red_vote : keyed_state k.(vote) = Ok vs;
  red_credits : obs ≤ vs.(credits);
  red_rewards : calculate_rewards obs k.(stake).(account).(difs) vs = Some (stakers, voters);
  red_funds : u64_add stakers voters ≤ k.(pool).(account).(difs);
  red_pool' : k'.(pool) = debit (u64_add stakers voters) k.(pool);
  red_vote' : k'.(vote) = credit voters k.(vote);
  red_stake' : keyed_set_state (Delegate k.(vote).(key) vs.(credits)) (credit stakers k.(stake))
    = (Ok tt, k'.(stake));
}.

Lemma redeem_inv k k' :
  redeem_vote_credits k = (Ok tt, k') → ∃ vs obs stakers voters, redeemed k k' vs obs stakers voters.
Proof.
  unfold redeem_vote_credits.
  destruct (keyed_state (pool k)) as [s1| |] eqn:H1; [|done..].
  destruct (keyed_state (stake k)) as [s2| |] eqn:H2; [|done..]. simpl.
  destruct s1; [done..|]. destruct s2 as [|voter obs|]; [done| |done].
  destruct (keyed_state (vote k)) as [vs| |] eqn:H3; [|done..].
  unfold unsigned_key. destruct (Z.eqb_spec voter (key (vote k))) as [->|]; [|done]. simpl.
  destruct (Z.ltb_spec (credits vs) obs) as [|Hc]; [done|].
  destruct (calculate_rewards _ _ _) as [[stakers voters]|] eqn:Hr; [|done].
  destruct (Z.ltb_spec (difs (account (pool k))) (u64_add stakers voters)) as [|Hf]; [done|].
  destruct (keyed_set_state _ _) as [r st'] eqn:Hs. intros [= -> <-].
  exists vs, obs, stakers, voters. by split.
Qed.

Lemma redeemed_stake k k' vs obs stakers voters :
  redeemed k k' vs obs stakers voters →
  difs (account k'.(stake)) = u64_add (difs (account k.(stake))) stakers ∧
  key k'.(stake) = key k.(stake).
Proof.
  intros Hr. destruct (keyed_set_state_signer _ _ _ _ (red_stake' _ _ _ _ _ _ Hr)) as (_ & Hk & Hs).
  apply set_state_frame in Hs as (Hd & _). simpl in *. done.
Qed.

Definition redeem_difs (k : redeem_accounts) : list Z :=
  [difs (account k.(pool)); difs (account k.(stake)); difs (account k.(vote))].

(** Redeeming vote credits pays from the mining pool: when it succeeds,
    the total of the difs of the three accounts is unchanged, the pool had
    the funds, and neither program state of the pool nor of the vote account
    changes. *)
Theorem redeem_conserves k k' :
  redeem_vote_credits k = (Ok tt, k') → Forall is_u64 (redeem_difs k) →
  u64_sum (redeem_difs k') = u64_sum (redeem_difs k) ∧
  difs (account k'.(pool)) ≤ difs (account k.(pool)) ∧
  data (account k'.(pool)) = data (account k.(pool)) ∧
  data (account k'.(vote)) = data (account k.(vote)).
Proof.
  intros (vs & obs & sr & vr & Hr)%redeem_inv Hd.
  destruct (redeemed_stake _ _ _ _ _ _ Hr) as [Hst _]. pose proof (red_funds _ _ _ _ _ _ Hr).
  unfold redeem_difs in *. rewrite Hst, (red_pool' _ _ _ _ _ _ Hr), (red_vote' _ _ _ _ _ _ Hr).
  apply Forall_cons in Hd as [Hp _]. pose proof (wrap64_range (sr + vr)). simpl.
  split_and!; [|rewrite u64_sub_exact; unfold is_u64, u64_add in *; lia|done..].
  unfold u64_add, u64_sub; wrap_lia.
Qed.

(** The rewards go to the wrong accounts.  [calculate_rewards] returns
    the voter's part first and the staker's part second, and
    [redeem_vote_credits] reads them in the other order: with a commission
    of 0, where the whole reward is the staker's, the stake account earns
    nothing and the vote account gets everything that leaves the pool. *)
Theorem redeem_swaps_rewards k k' vs :
  redeem_vote_credits k = (Ok tt, k') → keyed_state k.(vote) = Ok vs → commission vs = 0 →
  Forall is_u64 (redeem_difs k) →
  difs (account k'.(stake)) = difs (account k.(stake)) ∧
  difs (account k'.(vote)) =
    u64_add (difs (account k.(vote))) (difs (account k.(pool)) - difs (account k'.(pool))).
Proof.
  intros (vs' & obs & sr & vr & Hr)%redeem_inv Hv Hc Hd.
  destruct (redeemed_stake _ _ _ _ _ _ Hr) as [Hst _].
  rewrite (red_vote _ _ _ _ _ _ Hr) in Hv. injection Hv as ->.
  pose proof (red_funds _ _ _ _ _ _ Hr) as Hf. pose proof (red_rewards _ _ _ _ _ _ Hr) as Hrw.
  unfold calculate_rewards, commission_split in Hrw. rewrite Hc in Hrw. simpl in Hrw.
  destruct (_ <=? _); [done|]. destruct (f64_ltb _ _); [done|].
  injection Hrw as <- <-.
  unfold redeem_difs in Hd. rewrite !Forall_cons in Hd. destruct Hd as (Hp & Hs & _ & _).
  rewrite Hst, (red_pool' _ _ _ _ _ _ Hr), (red_vote' _ _ _ _ _ _ Hr). simpl.
  set (total := f64_as_u64 (f64_div _ _)) in *.
  pose proof (f64_as_u64_range _ : is_u64 total) as Ht.
  rewrite (u64_add_exact 0 total), Z.add_0_l in * by (unfold is_u64 in Ht; lia).
  rewrite (u64_sub_exact _ total) by (done || (unfold is_u64 in Ht; lia)).
  unfold is_u64 in *. split; [rewrite u64_add_exact; lia|f_equal; lia].
Qed.

(** Credits are redeemed once: after a successful redemption the stake
    account has observed all the credits of the vote account, and redeeming
    again finds nothing to collect. *)
Theorem redeem_once k k' vs :
  redeem_vote_credits k = (Ok tt, k') → keyed_state k.(vote) = Ok vs → is_key (key k.(vote)) →
  keyed_state k'.(stake) = Ok (Delegate (key k.(vote)) (credits vs)) ∧
  redeem_vote_credits k' = (Err (CustomError 1), k').
Proof.
  intros (vs' & obs & sr & vr & Hr)%redeem_inv Hv Hk.
  rewrite (red_vote _ _ _ _ _ _ Hr) in Hv. injection Hv as ->.
  destruct (keyed_set_state_signer _ _ _ _ (red_stake' _ _ _ _ _ _ Hr)) as (_ & _ & Hs).
  assert (keyed_state (T:=StakeState) (stake k') = Ok (Delegate (key (vote k)) (credits vs))) as Hst.
  { eapply state_set_state; [|exact Hs]. split; [done|].
    pose proof (red_vote _ _ _ _ _ _ Hr) as Hvs%state_in_range. by apply Hvs. }
  assert (keyed_state (T:=StakeState) (pool k') = Ok MiningPool) as Hp
    by (rewrite (red_pool' _ _ _ _ _ _ Hr); apply (red_pool _ _ _ _ _ _ Hr)).
  assert (keyed_state (vote k') = Ok vs ∧ key (vote k') = key (vote k)) as [Hv Hkey].
  { rewrite (red_vote' _ _ _ _ _ _ Hr). split; [apply (red_vote _ _ _ _ _ _ Hr)|done]. }
  split; [done|]. unfold redeem_vote_credits. rewrite Hp, Hst; simpl. rewrite Hv.
  unfold unsigned_key, calculate_rewards. by rewrite Hkey, Z.eqb_refl, Z.ltb_irrefl, Z.leb_refl.
Qed.
End Redeem.

(** ** Witnesses *)

Definition StakeState_codec : codec StakeState.
Proof.
  refine (map_codec (option_codec (option_codec (pair_codec key_codec u64_codec)))
    (λ s, match s with
          | Uninitialized => None
          | MiningPool => Some None
          | Delegate v c => Some (Some (v, c))
          end)
    (λ o, match o with
          | None => Some Uninitialized
          | Some None => Some MiningPool
          | Some (Some (v, c)) => Some (Delegate v c)
          end) _ _).
  - by intros [].
  - by intros [[[]|]|] ? [= <-].
Defined.

#[local] Instance StakeState_bincode : Bincode StakeState := codec_bincode StakeState_codec.
#[local] Instance StakeState_laws : BincodeLaws StakeState.
Proof. apply codec_laws. by intros []. Qed.
#[local] Existing Instance vote_state.VoteState_bincode.
#[local] Existing Instance vote_state.VoteState_laws.

Definition demo_vote_state : VoteState := mkVoteState [] 2 9 0 None 1000.
Definition demo_redeem : redeem_accounts :=
  mkRedeem
    (mkKeyedAccount false 7 (mkAccount 5000 0 (serialize MiningPool) stake_program.id false))
    (mkKeyedAccount false 8 (mkAccount 200000000 0 (serialize (Delegate 9 0)) stake_program.id false))
    (mkKeyedAccount false 9 (mkAccount 10 0 (serialize demo_vote_state) vote_program.id false)).

Lemma demo_redeem_difs : Forall is_u64 (redeem_difs demo_redeem).
Proof. repeat constructor; done. Qed.

Definition demo_redeemed : redeem_accounts :=
  Eval vm_compute in (redeem_vote_credits demo_redeem).2.

Lemma demo_redeem_ok : redeem_vote_credits demo_redeem = (Ok tt, demo_redeemed).
Proof. vm_compute. reflexivity. Qed.

Lemma demo_redeem_vote : keyed_state demo_redeem.(vote) = Ok demo_vote_state.
Proof. vm_compute. reflexivity. Qed.

Lemma redeem_conserves_witness :
  redeem_difs demo_redeemed = [3986; 200000000; 1024] ∧
  u64_sum (redeem_difs demo_redeemed) = u64_sum (redeem_difs demo_redeem).
Proof.
  split; [vm_compute; reflexivity|].
  apply (redeem_conserves demo_redeem demo_redeemed demo_redeem_ok demo_redeem_difs).
Defined.

Lemma redeem_swaps_rewards_witness :
  difs (account demo_redeemed.(stake)) = difs (account demo_redeem.(stake)).
Proof.
  apply (redeem_swaps_rewards demo_redeem demo_redeemed demo_vote_state demo_redeem_ok
    demo_redeem_vote eq_refl demo_redeem_difs).
Defined.

Lemma redeem_once_witness :
  redeem_vote_credits demo_redeemed = (Err (CustomError 1), demo_redeemed).
Proof.
  apply (redeem_once demo_redeem demo_redeemed demo_vote_state demo_redeem_ok demo_redeem_vote).
  done.
Defined.

(** A vote account with two stakes delegated to it, one stored before it and
    one after. *)
Definition demo_stakes : list (Pubkey * Account) :=
  [(8, mkAccount 5 0 (serialize (Delegate 9 0)) stake_program.id false);
   (9, mkAccount 10 0 [] vote_program.id false);
   (6, mkAccount 7 0 (serialize (Delegate 9 0)) stake_program.id false)].

Lemma stakes_cache_invariant_witness :
  let s := foldl (λ s '(p, a), stakes.store p a s) stakes.Stakes_default demo_stakes in
  12 = stakes.calculate_stake s 9.
Proof.
  apply (stakes.stakes_cache_invariant demo_stakes 9 12 (mkAccount 10 0 [] vote_program.id false)).
  vm_compute. reflexivity.
Defined.

End stake_proofs.
