(* ===== verification/AppendVec.v ===== *)
(** The append-only account files (src/runtime/src/append_vec.rs), down to
    the bytes of the memory map.  How the compiler lays out [StorageMeta] and
    [AccountBalance] in memory is the parameter [Layout]: the code only
    relies on reading back what it wrote and on the fixed size.

    The theorem [append_vec_roundtrip] shows that what is appended is read
    back at the returned offsets, that appending disturbs nothing, and that
    the scan of a file finds all its accounts in order. *)
From S2P Require Import Prelude Interface Codec.

Module append_vec.

(** [align_up!(addr, mem::size_of::<u64>())] *)
Definition align_up (addr : Z) : Z := Z.land (addr + (8 - 1)) (Z.lnot (8 - 1)).

Record StorageMeta := mkMeta { write_version : Z; meta_pubkey : Pubkey; data_len : Z }.

Record AccountBalance := mkBalance {
  bal_difs : Z;
  bal_owner : Pubkey;
  bal_executable : bool;
  bal_reputations : Z;
}.

Record StoredAccount := mkStored {
  sa_meta : StorageMeta;
  sa_balance : AccountBalance;
  sa_data : list Z;
}.

Definition clone_account (s : StoredAccount) : Account :=
  mkAccount s.(sa_balance).(bal_difs) s.(sa_balance).(bal_reputations) s.(sa_data)
    s.(sa_balance).(bal_owner) s.(sa_balance).(bal_executable).

(** The memory of a value of a type: [mem::size_of], the bytes of a value,
    and the value of some bytes. *)
Class Layout (A : Type) := {
  type_size : Z;
  to_bytes : A → list Z;
  of_bytes : list Z → A;
}.
Arguments type_size A {_}.

Class LayoutLaws (A : Type) `{Ranged A, Layout A} := {
  type_size_pos : 0 < type_size A < two16;
  length_to_bytes : ∀ a : A, Z.of_nat (length (to_bytes a)) = type_size A;
  of_to_bytes : ∀ a : A, in_range a → of_bytes (to_bytes a) = a;
}.

Record AppendVec := mkAppendVec {
  map : list Z;
  append_offset : Z;
  current_len : Z;
  file_size : Z;
}.

(** [AppendVec::new] on a fresh file, which reads as zeros. *)
Definition AppendVec_new (size : Z) : AppendVec :=
  mkAppendVec (replicate (Z.to_nat size) 0) 0 0 size.

Definition reset (v : AppendVec) : AppendVec := mkAppendVec v.(map) 0 0 v.(file_size).

(** [&l[from..to]] *)
Definition slice (from to : Z) (l : list Z) : list Z :=
  take (Z.to_nat (to - from)) (drop (Z.to_nat from) l).

(** [None] is the error; the slice of the map panics when its end wrapped
    around. *)
Definition get_slice (v : AppendVec) (offset size : Z) : res unit (list Z * Z) :=
  let end_ := u64_add offset size in
  if v.(current_len) <? end_ then Err ()
  else if offset <=? end_ then Ok (slice offset end_ v.(map), align_up end_)
  else Panic.

(** [ptr::copy] into the map. *)
Definition append_ptr (v : AppendVec) (offset : Z) (src : list Z) : AppendVec * Z :=
  let pos := align_up offset in
  let end_ := pos + Z.of_nat (length src) in
  (mkAppendVec (take (Z.to_nat pos) v.(map) ++ src ++ drop (Z.to_nat end_) v.(map))
     v.(append_offset) v.(current_len) v.(file_size), end_).

Definition end_of (offset : Z) (vals : list (list Z)) : Z :=
  foldl (λ end_ val, align_up end_ + Z.of_nat (length val)) offset vals.

Definition append_ptrs (v : AppendVec) (offset : Z) (vals : list (list Z)) : AppendVec * Z :=
  foldl (λ '(v, offset) val, append_ptr v offset val) (v, offset) vals.

(** The offset is that of the lock [append_offset], which the caller holds. *)
Definition append_ptrs_locked (v : AppendVec) (vals : list (list Z)) : option (Z * AppendVec) :=
  if v.(file_size) <? end_of v.(append_offset) vals then None
  else
    let pos := align_up v.(append_offset) in
    let '(v, offset) := append_ptrs v v.(append_offset) vals in
    Some (pos, mkAppendVec v.(map) offset offset v.(file_size)).

Section typed.
Context `{!Layout StorageMeta, !Layout AccountBalance}.

Definition get_type {A} `{!Layout A} (v : AppendVec) (offset : Z) : res unit (A * Z) :=
  '(data, next) ← get_slice v offset (type_size A); Ok (of_bytes data, next).

Definition get_account (v : AppendVec) (offset : Z) : res unit (StoredAccount * Z) :=
  '(meta, next) ← get_type (A:=StorageMeta) v offset;
  '(balance, next) ← get_type (A:=AccountBalance) v next;
  '(data, next) ← get_slice v next meta.(data_len);
  Ok (mkStored meta balance data, next).

(** The loop of [accounts]: every turn advances, so the length of the file
    bounds the number of turns. *)
Fixpoint accounts_loop (fuel : nat) (v : AppendVec) (start : Z) : res unit (list StoredAccount) :=
  match fuel with
  | O => Ok []
  | S fuel =>
      match get_account v start with
      | Ok (account, next) => l ← accounts_loop fuel v next; Ok (account :: l)
      | Err _ => Ok []
      | Panic => Panic
      end
  end.

Definition accounts (v : AppendVec) (start : Z) : res unit (list StoredAccount) :=
  accounts_loop (S (Z.to_nat v.(file_size))) v start.

Definition balance_of (a : Account) : AccountBalance :=
  mkBalance a.(difs) a.(owner) a.(executable) a.(reputations).

(** The three chunks of an account.  The copy of the data reads [data_len]
    bytes, which the account must have. *)
Definition account_ptrs (meta : StorageMeta) (account : Account) : list (list Z) :=
  [to_bytes meta; to_bytes (balance_of account); take (Z.to_nat meta.(data_len)) account.(data)].

Fixpoint append_accounts (v : AppendVec) (accounts : list (StorageMeta * Account))
    : list Z * AppendVec :=
  match accounts with
  | [] => ([], v)
  | (meta, account) :: accounts =>
      match append_ptrs_locked v (account_ptrs meta account) with
      | Some (res, v) =>
          let '(rv, v) := append_accounts v accounts in (res :: rv, v)
      | None => ([], v)
      end
  end.

Definition append_account (v : AppendVec) (meta : StorageMeta) (account : Account)
    : option Z * AppendVec :=
  let '(rv, v) := append_accounts v [(meta, account)] in (head rv, v).
End typed.

End append_vec.

Module append_vec_proofs.
Import append_vec.

Lemma align_up_spec x : 0 ≤ x → align_up x = 8 * ((x + 7) / 8).
Proof.
  intros Hx. unfold align_up. rewrite <- Z.ldiff_land.
  change (Z.ldiff (x + (8 - 1)) (8 - 1)) with (Z.ldiff (x + 7) (Z.ones 3)). rewrite Z.ldiff_ones_r by lia.
  rewrite Z.shiftl_mul_pow2, Z.shiftr_div_pow2 by lia. change (2 ^ 3) with 8. lia.
Qed.

Lemma align_up_bounds x : 0 ≤ x → x ≤ align_up x < x + 8 ∧ align_up (align_up x) = align_up x.
Proof.
  intros Hx. assert (0 ≤ (x + 7) / 8) by (apply Z.div_pos; lia).
  rewrite (align_up_spec x) by done. rewrite align_up_spec by lia.
  split; [|f_equal]; Z.div_mod_to_equations; lia.
Qed.

Lemma length_slice from to m :
  0 ≤ from ≤ to → to ≤ Z.of_nat (length m) → Z.of_nat (length (slice from to m)) = to - from.
Proof. intros. unfold slice. rewrite length_take, length_drop. lia. Qed.

(** A slice below [n] only depends on the first [n] bytes. *)
Lemma slice_agree n from to m m' :
  0 ≤ from ≤ to → to ≤ n → take (Z.to_nat n) m = take (Z.to_nat n) m' →
  slice from to m = slice from to m'.
Proof.
  intros Hf Ht Heq. unfold slice. rewrite !take_drop_commute.
  replace (Z.to_nat from + Z.to_nat (to - from))%nat with (Z.to_nat to) by lia.
  replace (Z.to_nat to) with (Z.to_nat to `min` Z.to_nat n)%nat by lia.
  by rewrite <- !take_take, Heq.
Qed.

Lemma append_ptr_spec v offset src v' end_ :
  0 ≤ offset → append_ptr v offset src = (v', end_) → end_ ≤ Z.of_nat (length v.(map)) →
  end_ = align_up offset + Z.of_nat (length src) ∧
  length v'.(map) = length v.(map) ∧
  take (Z.to_nat (align_up offset)) v'.(map) = take (Z.to_nat (align_up offset)) v.(map) ∧
  slice (align_up offset) end_ v'.(map) = src ∧ file_size v' = file_size v.
Proof.
  intros Ho [= <- <-] He. simpl. pose proof (align_up_bounds offset Ho) as [Hb _].
  set (pos := align_up offset) in *.
  assert (length (take (Z.to_nat pos) v.(map)) = Z.to_nat pos) as Hl
    by (rewrite length_take; lia).
  split_and!; [done| | | |done].
  - rewrite !length_app, length_drop, Hl. lia.
  - by rewrite take_app_le, take_take, Nat.min_id by lia.
  - unfold slice. rewrite drop_app_length' by done.
    rewrite take_app_length' by lia. done.
Qed.

(** The chunks [vals] lie one after the other from [offset]. *)
Fixpoint chunks_at (m : list Z) (offset : Z) (vals : list (list Z)) : Prop :=
  match vals with
  | [] => True
  | val :: vals =>
      let pos := align_up offset in
      let end_ := pos + Z.of_nat (length val) in
      slice pos end_ m = val ∧ chunks_at m end_ vals
  end.

Lemma end_of_le offset vals : 0 ≤ offset → offset ≤ end_of offset vals.
Proof.
  revert offset. induction vals as [|val vals IH]; intros offset Ho; [done|].
  unfold end_of in *; simpl. pose proof (align_up_bounds offset Ho).
  specialize (IH (align_up offset + Z.of_nat (length val))). lia.
Qed.

Lemma chunks_at_agree n m m' offset vals :
  0 ≤ offset → end_of offset vals ≤ n → take (Z.to_nat n) m = take (Z.to_nat n) m' →
  chunks_at m offset vals → chunks_at m' offset vals.
Proof.
  intros Ho He Heq. revert offset Ho He.
  induction vals as [|val vals IH]; intros offset Ho He; simpl; [done|]. intros [Hs Hc].
  pose proof (align_up_bounds offset Ho) as [Hb _].
  set (e := align_up offset + Z.of_nat (length val)) in *.
  assert (end_of e vals ≤ n) by exact He. pose proof (end_of_le e vals).
  split; [|apply IH; auto; lia].
  etransitivity; [|exact Hs]. symmetry. apply (slice_agree n); [lia..|done].
Qed.

Lemma append_ptrs_spec vals v offset :
  0 ≤ offset → end_of offset vals ≤ Z.of_nat (length v.(map)) →
  ∃ v', append_ptrs v offset vals = (v', end_of offset vals) ∧
    length v'.(map) = length v.(map) ∧ file_size v' = file_size v ∧
    take (Z.to_nat offset) v'.(map) = take (Z.to_nat offset) v.(map) ∧
    chunks_at v'.(map) offset vals.
Proof.
  revert v offset. induction vals as [|val vals IH]; intros v offset Ho He.
  { exists v. done. }
  pose proof (align_up_bounds offset Ho) as [Hb _].
  destruct (append_ptr v offset val) as [v1 e] eqn:Ha.
  assert (e = align_up offset + Z.of_nat (length val)) as Hee by (by injection Ha as <- <-).
  assert (end_of offset (val :: vals) = end_of e vals) as Heq by (by rewrite Hee).
  rewrite Heq in He |- *. pose proof (end_of_le e vals).
  pose proof Ha as Ha0. apply append_ptr_spec in Ha as (_ & Hl & Ht & Hs & Hf); [|lia..].
  destruct (IH v1 e) as (v' & Hv' & Hl' & Hf' & Ht' & Hc); [lia..|].
  exists v'. unfold append_ptrs in *; cbn [foldl]. rewrite Ha0.
  split_and!; [done|lia|congruence| |].
  - replace (Z.to_nat offset) with (Z.to_nat offset `min` Z.to_nat (align_up offset))%nat by lia.
    rewrite <- !take_take. rewrite <- Ht. rewrite !take_take.
    replace (Z.to_nat offset `min` Z.to_nat (align_up offset))%nat
      with (Z.to_nat offset `min` Z.to_nat e)%nat by lia.
    by rewrite <- !take_take, Ht'.
  - simpl. rewrite <- Hee. split; [|done].
    etransitivity; [|exact Hs]. apply (slice_agree e); [lia..|done].
Qed.

Lemma get_slice_at v pos size :
  0 ≤ pos → 0 ≤ size → pos + size ≤ current_len v < two64 →
  get_slice v pos size = Ok (slice pos (pos + size) v.(map), align_up (pos + size)).
Proof.
  intros Hp Hs Hl. unfold get_slice. rewrite u64_add_exact by lia.
  destruct (Z.ltb_spec (current_len v) (pos + size)); [lia|].
  by rewrite (proj2 (Z.leb_le pos (pos + size))) by lia.
Qed.

Section typed.
Context `{!Ranged StorageMeta, !Layout StorageMeta, !LayoutLaws StorageMeta}.
Context `{!Ranged AccountBalance, !Layout AccountBalance, !LayoutLaws AccountBalance}.

Definition item_ok (i : StorageMeta * Account) : Prop :=
  in_range i.1 ∧ in_range (balance_of i.2) ∧
  0 ≤ data_len i.1 ≤ Z.of_nat (length i.2.(data)).

(** What is read back: the account with [data_len] bytes of its data. *)
Definition stored_of (i : StorageMeta * Account) : StoredAccount :=
  mkStored i.1 (balance_of i.2) (take (Z.to_nat (data_len i.1)) i.2.(data)).

Lemma get_account_at v offset i :
  item_ok i → 0 ≤ offset → chunks_at v.(map) offset (account_ptrs i.1 i.2) →
  end_of offset (account_ptrs i.1 i.2) ≤ current_len v < two64 →
  get_account v (align_up offset) =
    Ok (stored_of i, align_up (end_of offset (account_ptrs i.1 i.2))).
Proof.
  destruct i as [meta a]. intros (Hm & Hb & Hd) Ho Hc He. simpl in *.
  assert (Z.of_nat (length (take (Z.to_nat (data_len meta)) (data a))) = data_len meta) as Hld
    by (rewrite length_take; lia).
  unfold end_of in *. simpl in *. destruct Hc as (Hc1 & Hc2 & Hc3 & _).
  rewrite ?length_to_bytes, Hld in *.
  pose proof (align_up_bounds offset Ho) as [H1 _].
  set (p1 := align_up offset) in *.
  pose proof (type_size_pos (A:=StorageMeta)). pose proof (type_size_pos (A:=AccountBalance)).
  destruct (align_up_bounds (p1 + type_size StorageMeta)) as [H2 _]; [lia|].
  set (p2 := align_up (p1 + type_size StorageMeta)) in *.
  destruct (align_up_bounds (p2 + type_size AccountBalance)) as [H3 _]; [lia|].
  set (p3 := align_up (p2 + type_size AccountBalance)) in *.
  unfold get_account, get_type. rewrite get_slice_at by lia. simpl. rewrite Hc1, of_to_bytes by done.
  fold p2. rewrite get_slice_at by lia. simpl. rewrite Hc2, of_to_bytes by done.
  fold p3. rewrite get_slice_at by lia. simpl. by rewrite Hc3.
Qed.

Lemma account_ptrs_grow offset i :
  0 ≤ offset → offset < end_of offset (account_ptrs i.1 i.2).
Proof.
  intros Ho. unfold end_of, account_ptrs. simpl. rewrite !length_to_bytes.
  pose proof (type_size_pos (A:=StorageMeta)). pose proof (type_size_pos (A:=AccountBalance)).
  pose proof (align_up_bounds offset Ho).
  destruct (align_up_bounds (align_up offset + type_size StorageMeta)); [lia|].
  destruct (align_up_bounds (align_up (align_up offset + type_size StorageMeta)
    + type_size AccountBalance)); lia.
Qed.

#[local] Arguments end_of : simpl never.
#[local] Arguments account_ptrs : simpl never.
#[local] Arguments chunks_at : simpl never.

(** The accounts [items] lie one after the other from [offset] to [end_]. *)
Fixpoint log_at (m : list Z) (offset : Z) (items : list (Z * (StorageMeta * Account)))
    (end_ : Z) : Prop :=
  match items with
  | [] => offset = end_
  | (pos, i) :: items =>
      pos = align_up offset ∧ item_ok i ∧ chunks_at m offset (account_ptrs i.1 i.2) ∧
      log_at m (end_of offset (account_ptrs i.1 i.2)) items end_
  end.

Lemma log_at_le m offset items end_ :
  0 ≤ offset → log_at m offset items end_ → offset + Z.of_nat (length items) ≤ end_.
Proof.
  revert offset. induction items as [|[pos i] items IH]; intros offset Ho; simpl; [lia|].
  intros (_ & _ & _ & Hl). pose proof (account_ptrs_grow offset i Ho). apply IH in Hl; lia.
Qed.

Lemma log_at_snoc m m' offset items e i :
  0 ≤ offset → log_at m offset items e → take (Z.to_nat e) m = take (Z.to_nat e) m' →
  item_ok i → chunks_at m' e (account_ptrs i.1 i.2) →
  log_at m' offset (items ++ [(align_up e, i)]) (end_of e (account_ptrs i.1 i.2)).
Proof.
  intros Ho Hl Heq Hi Hc. revert offset Ho Hl.
  induction items as [|[pos j] items IH]; intros offset Ho Hl; simpl in *; [by subst|].
  destruct Hl as (-> & Hj & Hcj & Hl). pose proof (account_ptrs_grow offset j Ho).
  split_and!; [done..| |apply IH; [lia|done]].
  apply (chunks_at_agree e m); [lia| |done..]. apply log_at_le in Hl; lia.
Qed.

(** The file holds the accounts [items], each at its offset. *)
Record holds (v : AppendVec) (items : list (Z * (StorageMeta * Account))) : Prop := {
  h_log : log_at v.(map) 0 items v.(append_offset);
  h_len : v.(current_len) = v.(append_offset);
  h_map : Z.of_nat (length v.(map)) = v.(file_size);
  h_fits : 0 ≤ v.(append_offset) ≤ v.(file_size) ∧ v.(file_size) < two64 - two32;
}.

Lemma holds_new size : 0 ≤ size < two64 - two32 → holds (AppendVec_new size) [].
Proof. intros. split; simpl; [done..| |lia]. rewrite length_replicate. lia. Qed.

Lemma holds_append v items i pos v' :
  holds v items → item_ok i → append_ptrs_locked v (account_ptrs i.1 i.2) = Some (pos, v') →
  holds v' (items ++ [(pos, i)]) ∧ file_size v' = file_size v.
Proof.
  intros [Hlog Hlen Hmap Hfits] Hi. unfold append_ptrs_locked.
  destruct (Z.ltb_spec (file_size v) (end_of (append_offset v) (account_ptrs i.1 i.2))) as [|Hle];
    [done|].
  destruct (append_ptrs_spec (account_ptrs i.1 i.2) v (append_offset v))
    as (v1 & -> & Hl & Hf & Ht & Hc); [lia..|].
  intros [= <- <-]. pose proof (account_ptrs_grow (append_offset v) i).
  split; [|done]. split; simpl; [|done|lia|lia].
  apply (log_at_snoc v.(map)); [lia|done..].
Qed.

Lemma holds_append_accounts accts v items rv v' :
  holds v items → Forall item_ok accts → append_accounts v accts = (rv, v') →
  holds v' (items ++ zip rv accts) ∧ file_size v' = file_size v ∧
  ((length rv < length accts)%nat → ∃ i, accts !! length rv = Some i ∧
     file_size v' < end_of (append_offset v') (account_ptrs i.1 i.2)).
Proof.
  intros Hh Hok. revert v items rv Hh. induction Hok as [|i accts Hi _ IH]; intros v items rv Hh; simpl.
  { intros [= <- <-]. rewrite app_nil_r. split_and!; [done..|]. simpl; lia. }
  destruct i as [meta a]. destruct (append_ptrs_locked v _) as [[pos v1]|] eqn:Ha.
  - destruct (append_accounts v1 accts) as [rv' v2] eqn:Hr. intros [= <- <-].
    apply (holds_append _ _ (meta, a) _ _ Hh Hi) in Ha as [Hh1 Hf].
    destruct (IH _ _ _ Hh1 Hr) as (Hh2 & Hf2 & Hfull). simpl.
    rewrite <- app_assoc in Hh2. split_and!; [done|congruence|].
    intros Hlt. apply Hfull. lia.
  - intros [= <- <-]. rewrite app_nil_r. split_and!; [done..|]. intros _.
    exists (meta, a). split; [done|]. unfold append_ptrs_locked in Ha.
    destruct (Z.ltb_spec (file_size v) (end_of (append_offset v) (account_ptrs meta a)));
      [done|]. by destruct (append_ptrs _ _ _).
Qed.

Lemma log_at_accounts v items offset fuel :
  log_at v.(map) offset items v.(append_offset) → 0 ≤ offset →
  current_len v = append_offset v → append_offset v < two64 - two32 →
  (length items < fuel)%nat →
  accounts_loop fuel v (align_up offset) = Ok (stored_of <$> items.*2).
Proof.
  intros Hl Ho Hlen Hfit. revert offset fuel Ho Hl.
  induction items as [|[pos i] items IH]; intros offset [|fuel] Ho Hl Hfuel; simpl in *; [lia| |lia|].
  - subst offset. unfold get_account, get_type, get_slice.
    pose proof (type_size_pos (A:=StorageMeta)). pose proof (align_up_bounds (append_offset v) Ho).
    rewrite u64_add_exact by lia. by rewrite (proj2 (Z.ltb_lt _ _)) by lia.
  - destruct Hl as (-> & Hi & Hc & Hl). pose proof (account_ptrs_grow offset i Ho).
    pose proof Hl as Hle. apply log_at_le in Hle; [|lia].
    rewrite (get_account_at v offset i) by (done || lia).
    rewrite IH by (done || lia). done.
Qed.

Lemma log_at_get v items offset pos i :
  log_at v.(map) offset items v.(append_offset) → 0 ≤ offset →
  current_len v = append_offset v → append_offset v < two64 - two32 →
  (pos, i) ∈ items → ∃ next, get_account v pos = Ok (stored_of i, next).
Proof.
  intros Hl Ho Hlen Hfit Hin. revert offset Ho Hl.
  induction items as [|[pos' i'] items IH]; intros offset Ho Hl; simpl in *; [set_solver|].
  destruct Hl as (-> & Hi & Hc & Hl). pose proof (account_ptrs_grow offset i' Ho).
  pose proof Hl as Hle. apply log_at_le in Hle; [|lia].
  apply elem_of_cons in Hin as [[= -> ->]|Hin]; [|eapply IH; [done| |exact Hl]; lia].
  eexists. apply get_account_at; done || lia.
Qed.

(** Batches of accounts appended one after the other, with the offsets that
    were returned. *)
Fixpoint append_batches (v : AppendVec) (batches : list (list (StorageMeta * Account)))
    : list (Z * (StorageMeta * Account)) * AppendVec :=
  match batches with
  | [] => ([], v)
  | b :: batches =>
      let '(rv, v) := append_accounts v b in
      let '(log, v) := append_batches v batches in (zip rv b ++ log, v)
  end.

Lemma holds_batches batches v items log v' :
  holds v items → Forall (Forall item_ok) batches → append_batches v batches = (log, v') →
  holds v' (items ++ log).
Proof.
  intros Hh Hok. revert v items log Hh.
  induction Hok as [|b batches Hb _ IH]; intros v items log Hh; simpl.
  { intros [= <- <-]. by rewrite app_nil_r. }
  destruct (append_accounts v b) as [rv v1] eqn:Ha.
  destruct (append_batches v1 batches) as [log' v2] eqn:Hr. intros [= <- <-].
  apply (holds_append_accounts _ _ _ _ _ Hh Hb) in Ha as (Hh1 & _).
  rewrite app_assoc. by eapply IH.
Qed.

(** C38. The round trip of an account file: after any batches of accounts
    have been appended to a new file, every account can be read at the
    offset that was returned for it, as it was written (the first
    [data_len] bytes of its data), and the scan from offset 0 ends and
    yields exactly the appended accounts in the order of the appends. *)
Theorem append_vec_roundtrip size batches log v :
  0 ≤ size < two64 - two32 → Forall (Forall item_ok) batches →
  append_batches (AppendVec_new size) batches = (log, v) →
  (∀ pos i, (pos, i) ∈ log → ∃ next, get_account v pos = Ok (stored_of i, next)) ∧
  accounts v 0 = Ok (stored_of <$> log.*2).
Proof.
  intros Hs Hok Hr. apply (holds_batches _ _ [] _ _ (holds_new size Hs) Hok) in Hr as [Hl Hlen Hm Hf].
  simpl in Hl. split.
  - intros pos i. apply (log_at_get v log 0); done || lia.
  - unfold accounts. change 0 with (align_up 0) at 1.
    apply log_at_accounts; try done || lia.
    pose proof (log_at_le _ _ _ _ ltac:(done) Hl). lia.
Qed.
End typed.

(** ** Witness: a layout of consecutive little-endian fields *)

Definition meta_codec : codec (Z * (Z * Z)) := pair_codec u64_codec (pair_codec key_codec u64_codec).
Definition balance_codec : codec (Z * (Z * (Z * Z))) :=
  pair_codec u64_codec (pair_codec key_codec (pair_codec u8_codec u64_codec)).

Definition meta_fields (m : StorageMeta) : Z * (Z * Z) :=
  (write_version m, (meta_pubkey m, data_len m)).
Definition balance_fields (b : AccountBalance) : Z * (Z * (Z * Z)) :=
  (bal_difs b, (bal_owner b, (Z.b2z (bal_executable b), bal_reputations b))).

#[local] Instance meta_ranged : Ranged StorageMeta := λ m, valid meta_codec (meta_fields m).
#[local] Instance meta_layout : Layout StorageMeta := {|
  type_size := 48;
  to_bytes m := enc meta_codec (meta_fields m);
  of_bytes l := match dec meta_codec l with
                | Some ((w, (k, n)), _) => mkMeta w k n
                | None => mkMeta 0 0 0
                end;
|}.
#[local] Instance balance_ranged : Ranged AccountBalance :=
  λ b, valid balance_codec (balance_fields b).
#[local] Instance balance_layout : Layout AccountBalance := {|
  type_size := 49;
  to_bytes b := enc balance_codec (balance_fields b);
  of_bytes l := match dec balance_codec l with
                | Some ((d, (o, (e, r))), _) => mkBalance d o (e =? 1) r
                | None => mkBalance 0 0 false 0
                end;
|}.

#[local] Instance meta_laws : LayoutLaws StorageMeta.
Proof.
  split; [done| |].
  - intros m. change (to_bytes m)
      with (le_enc 8 (write_version m) ++ le_enc 32 (meta_pubkey m) ++ le_enc 8 (data_len m)).
    by rewrite !length_app, !length_le_enc.
  - intros [w k n] Hm. pose proof (dec_enc meta_codec _ [] Hm) as Hd. rewrite app_nil_r in Hd.
    unfold of_bytes, to_bytes, meta_layout. by rewrite Hd.
Qed.
#[local] Instance balance_laws : LayoutLaws AccountBalance.
Proof.
  split; [done| |].
  - intros b. change (to_bytes b)
      with (le_enc 8 (bal_difs b) ++ le_enc 32 (bal_owner b) ++
            le_enc 1 (Z.b2z (bal_executable b)) ++ le_enc 8 (bal_reputations b)).
    by rewrite !length_app, !length_le_enc.
  - intros [d o e r] Hb. pose proof (dec_enc balance_codec _ [] Hb) as Hd. rewrite app_nil_r in Hd.
    unfold of_bytes, to_bytes, balance_layout. rewrite Hd. by destruct e.
Qed.

Definition demo_batches : list (list (StorageMeta * Account)) :=
  [[(mkMeta 0 5 3, mkAccount 10 0 [1; 2; 3] 6 false); (mkMeta 1 7 0, mkAccount 0 2 [9] 6 true)];
   [(mkMeta 2 5 1, mkAccount 20 0 [4] 6 false)]].

Lemma append_vec_roundtrip_witness :
  ∃ log v, append_batches (AppendVec_new 400) demo_batches = (log, v) ∧ log.*1 = [0; 112; 216] ∧
    accounts v 0 = Ok (stored_of <$> log.*2).
Proof.
  eexists _, _. split; [vm_compute; reflexivity|]. split; [reflexivity|].
  apply (append_vec_roundtrip 400 demo_batches); [done| |vm_compute; reflexivity].
  repeat constructor; by vm_compute.
Defined.

End append_vec_proofs.
