(* ===== verification/AccountsDB.v ===== *)
(** The accounts database (src/runtime/src/accounts_db.rs): account files
    ([AppendVec]s) that belong to forks, and the index that says where the
    latest write of an account in a fork is.

    Module [accounts_db] has the operations.  Files are created in one of the
    database's directories and a file is chosen among those that have room;
    both choices are random in the code, the second is the parameter [pick].
    Locks are not modelled: the operations run one at a time.

    Module [accounts_db_proofs] shows that the database implements the index
    of module [accounts_index] over the accounts themselves: storing never
    loses or changes an account that the index still refers to, although
    files are reused and dropped, because the count of a file is the number
    of references to it. *)
From S2P Require Import Prelude Interface Codec AccountsIndex AppendVec.

Module accounts_db.
Import accounts_index append_vec.

(** 64 MiB *)
Definition ACCOUNT_DATA_FILE_SIZE : Z := 64 * 1024 * 1024.

Record AccountInfo := mkInfo { info_id : Z; info_offset : Z; info_difs : Z }.

Inductive AccountStorageStatus := StorageAvailable | StorageFull.
Global Instance status_eq_dec : EqDecision AccountStorageStatus.
Proof. solve_decision. Defined.

Record AccountStorageEntry := mkEntry {
  id : Z;
  fork_id : Fork;
  entry_accounts : AppendVec;
  count : Z;
  status : AccountStorageStatus;
}.

Definition AccountStorageEntry_new (fork_id : Fork) (id file_size : Z) : AccountStorageEntry :=
  mkEntry id fork_id (AppendVec_new file_size) 0 StorageAvailable.

Definition with_accounts (v : AppendVec) (e : AccountStorageEntry) : AccountStorageEntry :=
  mkEntry e.(id) e.(fork_id) v e.(count) e.(status).

Definition set_status (status : AccountStorageStatus) (e : AccountStorageEntry)
    : AccountStorageEntry :=
  if bool_decide (status = StorageFull) && (e.(count) =? 0)
  then mkEntry e.(id) e.(fork_id) (reset e.(entry_accounts)) e.(count) StorageAvailable
  else mkEntry e.(id) e.(fork_id) e.(entry_accounts) e.(count) status.

Definition add_account (e : AccountStorageEntry) : AccountStorageEntry :=
  mkEntry e.(id) e.(fork_id) e.(entry_accounts) (u64_add e.(count) 1) e.(status).

Definition remove_account (e : AccountStorageEntry) : AccountStorageEntry :=
  if (e.(count) =? 1) && bool_decide (e.(status) = StorageFull)
  then mkEntry e.(id) e.(fork_id) (reset e.(entry_accounts)) (u64_sub e.(count) 1) StorageAvailable
  else mkEntry e.(id) e.(fork_id) e.(entry_accounts) (u64_sub e.(count) 1) e.(status).

Notation AccountStorage := (gmap Z AccountStorageEntry).

(** [next_id] is not wrapped: 2^64 files are never created. *)
Record AccountsDB := mkDB {
  index : AccountsIndex AccountInfo;
  storage : AccountStorage;
  next_id : Z;
  db_write_version : Z;
  db_file_size : Z;
}.

Definition new_with_file_size (file_size : Z) : AccountsDB :=
  mkDB AccountsIndex_default ∅ 0 0 file_size.

Definition with_index (i : AccountsIndex AccountInfo) (db : AccountsDB) : AccountsDB :=
  mkDB i db.(storage) db.(next_id) db.(db_write_version) db.(db_file_size).
Definition with_storage (s : AccountStorage) (db : AccountsDB) : AccountsDB :=
  mkDB db.(index) s db.(next_id) db.(db_write_version) db.(db_file_size).

Definition entries_of (s : AccountStorage) : list AccountStorageEntry := (map_to_list s).*2.

Definition has_accounts (db : AccountsDB) (fork : Fork) : bool :=
  existsb (λ e, (e.(fork_id) =? fork) && (0 <? e.(count))) (entries_of db.(storage)).

Section operations.
Context `{!Layout StorageMeta, !Layout AccountBalance}.
(** [candidates[thread_rng().gen_range(0, candidates.len())]], by the turn of
    the loop that draws. *)
Context (pick : nat → list Z → Z).

(** The accounts of all the files of a fork, a list per file. *)
Definition scan_account_storage (db : AccountsDB) (fork : Fork)
    : list (res unit (list StoredAccount)) :=
  (λ e, accounts e.(entry_accounts) 0) <$>
    filter (λ e, fork_id e = fork) (entries_of db.(storage)).

(** [store.accounts.get_account(offset)?.0.clone_account()] *)
Definition read_account (s : AccountStorage) (info : AccountInfo) : option Account :=
  store ← s !! info.(info_id);
  match get_account store.(entry_accounts) info.(info_offset) with
  | Ok (stored, _) => Some (clone_account stored)
  | _ => None
  end.

Definition load (s : AccountStorage) (ancestors : Ancestors) (i : AccountsIndex AccountInfo)
    (pubkey : Pubkey) : option (Account * Fork) :=
  '(info, fork) ← get i pubkey ancestors;
  account ← read_account s info;
  Some (account, fork).

Definition load_slow (db : AccountsDB) (ancestors : Ancestors) (pubkey : Pubkey)
    : option (Account * Fork) :=
  load db.(storage) ancestors db.(index) pubkey.

Definition candidates (db : AccountsDB) (fork : Fork) : list Z :=
  id <$> filter (λ e, status e = StorageAvailable ∧ fork_id e = fork) (entries_of db.(storage)).

Definition fork_storage (turn : nat) (db : AccountsDB) (fork : Fork) : Z * AccountsDB :=
  match candidates db fork with
  | [] =>
      let e := AccountStorageEntry_new fork db.(next_id) db.(db_file_size) in
      (db.(next_id),
       mkDB db.(index) (<[db.(next_id) := e]> db.(storage)) (db.(next_id) + 1)
         db.(db_write_version) db.(db_file_size))
  | ids => (pick turn ids, db)
  end.

Definition purge_fork (db : AccountsDB) (fork : Fork) : AccountsDB :=
  if is_root db.(index) fork then db
  else with_storage (filter (λ '(_, e), fork_id e ≠ fork) db.(storage)) db.

(** The metadata of the accounts, with a fresh write version for each. *)
Fixpoint with_meta (version : Z) (accounts : list (Pubkey * Account))
    : list (StorageMeta * Account) * Z :=
  match accounts with
  | [] => ([], version)
  | (pubkey, account) :: accounts =>
      let data_len := if account.(difs) =? 0 then 0 else Z.of_nat (length account.(data)) in
      let '(l, version') := with_meta (u64_add version 1) accounts in
      ((mkMeta version pubkey data_len, account) :: l, version')
  end.

(** One turn of the loop of [store_accounts]: appends to one file, and
    returns the infos of what was appended. *)
Definition store_turn (turn : nat) (db : AccountsDB) (fork : Fork)
    (accounts : list (StorageMeta * Account)) : option (list AccountInfo * AccountsDB) :=
  let '(i, db) := fork_storage turn db fork in
  e ← db.(storage) !! i;
  let '(rvs, v) := append_accounts e.(entry_accounts) accounts in
  let e := with_accounts v e in
  let e := if rvs is [] then set_status StorageFull e else e in
  let infos := zip_with (λ offset '(_, account), mkInfo i offset account.(difs)) rvs accounts in
  let e := foldl (λ e _, add_account e) e infos in
  Some (infos, with_storage (<[i := e]> db.(storage)) db).

(** [None] when the fuel runs out: the loop of the code does not end when an
    account does not fit an empty file. *)
Fixpoint store_loop (fuel turn : nat) (db : AccountsDB) (fork : Fork)
    (accounts : list (StorageMeta * Account)) : option (list AccountInfo * AccountsDB) :=
  match accounts with
  | [] => Some ([], db)
  | _ =>
      match fuel with
      | O => None
      | S fuel =>
          '(infos, db) ← store_turn turn db fork accounts;
          '(infos', db) ← store_loop fuel (S turn) db fork (drop (length infos) accounts);
          Some (infos ++ infos', db)
      end
  end.

Definition store_accounts (fuel : nat) (db : AccountsDB) (fork : Fork)
    (accounts : list (Pubkey * Account)) : option (list AccountInfo * AccountsDB) :=
  let '(l, version) := with_meta db.(db_write_version) accounts in
  store_loop fuel 0
    (mkDB db.(index) db.(storage) db.(next_id) version db.(db_file_size)) fork l.

Fixpoint update_index (i : AccountsIndex AccountInfo) (fork : Fork) (infos : list AccountInfo)
    (accounts : list (Pubkey * Account)) : list (Fork * AccountInfo) * AccountsIndex AccountInfo :=
  match infos, accounts with
  | info :: infos, (key, _) :: accounts =>
      let '(reclaims, i) := insert i fork key info in
      let '(reclaims', i) := update_index i fork infos accounts in
      (reclaims ++ reclaims', i)
  | _, _ => ([], i)
  end.

(** [None] is the failed assertion that a file belongs to one fork. *)
Fixpoint remove_accounts (s : AccountStorage) (reclaims : list (Fork * AccountInfo))
    : option AccountStorage :=
  match reclaims with
  | [] => Some s
  | (fork, info) :: reclaims =>
      match s !! info.(info_id) with
      | Some e =>
          if fork =? fork_id e
          then remove_accounts (<[info.(info_id) := remove_account e]> s) reclaims
          else None
      | None => remove_accounts s reclaims
      end
  end.

Definition forks_where (P : AccountStorageEntry → bool) (s : AccountStorage) : gset Fork :=
  list_to_set (fork_id <$> filter (λ e, P e) (entries_of s)).

Definition remove_dead_accounts (s : AccountStorage) (reclaims : list (Fork * AccountInfo))
    : option (gset Fork * AccountStorage) :=
  s ← remove_accounts s reclaims;
  Some (forks_where (λ e, e.(count) =? 0) s ∖ forks_where (λ e, 0 <? e.(count)) s, s).

Definition cleanup_dead_forks (i : AccountsIndex AccountInfo) (dead : gset Fork)
    : gset Fork * AccountsIndex AccountInfo :=
  let dead := filter (λ fork, fork < last_root i) dead in
  (dead, set_fold (λ fork i, cleanup_dead_fork i fork) i dead).

Definition store (fuel : nat) (db : AccountsDB) (fork : Fork) (accounts : list (Pubkey * Account))
    : option AccountsDB :=
  '(infos, db) ← store_accounts fuel db fork accounts;
  let '(reclaims, i) := update_index db.(index) fork infos accounts in
  '(dead, s) ← remove_dead_accounts db.(storage) reclaims;
  let '(dead, i) := cleanup_dead_forks i dead in
  Some (set_fold (λ fork db, purge_fork db fork) (with_storage s (with_index i db)) dead).

Definition add_root (db : AccountsDB) (fork : Fork) : res Empty_set AccountsDB :=
  i ← accounts_index.add_root db.(index) fork; Ok (with_index i db).
End operations.

End accounts_db.

Module accounts_db_proofs.
Import accounts_index accounts_index_proofs append_vec append_vec_proofs accounts_db.

(** ** The index over other data *)

Definition map_entry {A B} (g : A → B) (e : Fork * A) : Fork * B := (e.1, g e.2).

Definition map_index {A B} (g : A → B) (i : AccountsIndex A) : AccountsIndex B :=
  mkAccountsIndex ((fmap (M:=list) (map_entry g)) <$> account_maps i) (roots i) (last_root i).

(** All the entries of an index. *)
Definition index_refs {A} (i : AccountsIndex A) : list (Fork * A) :=
  mjoin (map_to_list (account_maps i)).*2.

Lemma elem_of_index_refs {A} (i : AccountsIndex A) r :
  r ∈ index_refs i ↔ ∃ k, r ∈ entries i k.
Proof.
  unfold index_refs, entries. rewrite list_elem_of_join. split.
  - intros (l & Hr & ([k l'] & -> & Hin%elem_of_map_to_list)%list_elem_of_fmap).
    exists k. by rewrite Hin.
  - intros [k Hr]. destruct (account_maps i !! k) as [l|] eqn:Hk; [|by apply elem_of_nil in Hr].
    exists l. split; [done|]. apply list_elem_of_fmap. exists (k, l).
    split; [done|]. by apply elem_of_map_to_list.
Qed.

Lemma filter_map_entry {A B} (g : A → B) (P : Fork → Prop)
    {HA : ∀ e : Fork * A, Decision (P e.1)} {HB : ∀ e : Fork * B, Decision (P e.1)}
    (l : list (Fork * A)) :
  filter (λ e, P e.1) (map_entry g <$> l) = map_entry g <$> filter (λ e, P e.1) l.
Proof.
  induction l as [|e l IH]; [done|]. rewrite fmap_cons, !filter_cons. simpl.
  destruct (HA e), (HB (map_entry g e)); simpl in *; by rewrite ?IH.
Qed.

Lemma map_index_insert {A B} (g : A → B) (i : AccountsIndex A) f k v :
  map_index g (insert i f k v).2 = (insert (map_index g i) f k (g v)).2.
Proof.
  unfold insert, map_index; simpl. f_equal. rewrite fmap_insert. f_equal.
  rewrite lookup_fmap. unfold is_purged; simpl.
  rewrite <- (filter_map_entry g (λ f, ¬ (f <? last_root i))).
  f_equal. rewrite fmap_app. f_equal.
  rewrite <- (filter_map_entry g (λ f', f' ≠ f)). f_equal. by destruct (account_maps i !! k).
Qed.

Lemma map_index_ext {A B} (g g' : A → B) (i : AccountsIndex A) :
  (∀ r, r ∈ index_refs i → g r.2 = g' r.2) → map_index g i = map_index g' i.
Proof.
  intros Hg. unfold map_index. f_equal. apply map_fmap_ext. intros k l Hk.
  apply list_fmap_ext. intros n e He. unfold map_entry. f_equal. apply Hg, elem_of_index_refs.
  exists k. unfold entries. rewrite Hk. by apply list_elem_of_lookup_2 in He.
Qed.

Lemma index_refs_insert {A} (i : AccountsIndex A) f k v :
  index_refs (insert i f k v).2 ++ (insert i f k v).1 ≡ₚ index_refs i ++ [(f, v)].
Proof.
  assert (∀ (m : gmap Pubkey (list (Fork * A))) l, mjoin (map_to_list (<[k := l]> m)).*2 ≡ₚ
    l ++ mjoin (map_to_list (delete k m)).*2) as Hins.
  { intros m l. rewrite <- insert_delete_eq.
    rewrite (map_to_list_insert (delete k m) k l) by apply lookup_delete_eq. done. }
  assert (index_refs i ≡ₚ entries i k ++ mjoin (map_to_list (delete k (account_maps i))).*2) as ->.
  { unfold index_refs, entries. destruct (account_maps i !! k) as [l|] eqn:Hk; simpl.
    - by rewrite <- (insert_id _ _ _ Hk) at 1.
    - by rewrite delete_id. }
  pose proof (insert_reclaims i f k v) as Hr. unfold entries in Hr at 2. simpl in Hr.
  rewrite lookup_insert_eq in Hr; simpl in Hr. fold (entries i k) in Hr.
  unfold index_refs; simpl. rewrite Hins. fold (entries i k).
  set (J := mjoin _). transitivity ((entries i k ++ [(f, v)]) ++ J); [|solve_Permutation].
  rewrite Hr. solve_Permutation.
Qed.

(** ** The invariant of the storage *)

Notation ref := (Fork * AccountInfo)%type.

Definition refs_to (n : Z) (rs : list ref) : list ref := filter (λ r, info_id r.2 = n) rs.

Lemma refs_to_perm n rs rs' : rs ≡ₚ rs' → refs_to n rs ≡ₚ refs_to n rs'.
Proof. intros H. unfold refs_to. by rewrite H. Qed.

Lemma refs_to_app n rs rs' : refs_to n (rs ++ rs') = refs_to n rs ++ refs_to n rs'.
Proof. apply filter_app. Qed.

Lemma elem_of_refs_to n rs r : r ∈ refs_to n rs ↔ info_id r.2 = n ∧ r ∈ rs.
Proof. unfold refs_to. by rewrite list_elem_of_filter. Qed.

Lemma refs_to_all n rs : Forall (λ r : ref, info_id r.2 = n) rs → refs_to n rs = rs.
Proof.
  induction 1 as [|r rs Hr _ IH]; [done|]. unfold refs_to in *.
  by rewrite filter_cons_True, IH.
Qed.

Lemma refs_to_none n m rs : Forall (λ r : ref, info_id r.2 = n) rs → m ≠ n → refs_to m rs = [].
Proof.
  induction 1 as [|r rs Hr _ IH]; [done|]. intros Hne. unfold refs_to in *.
  rewrite filter_cons_False by congruence. auto.
Qed.

Section proofs.
Context `{!Ranged StorageMeta, !Layout StorageMeta, !LayoutLaws StorageMeta}.
Context `{!Ranged AccountBalance, !Layout AccountBalance, !LayoutLaws AccountBalance}.
Context (pick : nat → list Z → Z) (pick_in : ∀ turn l, l ≠ [] → pick turn l ∈ l).

(** The file of an entry holds an account for every reference to it, the
    references come from the fork of the file, and [count] counts them. *)
Record entry_ok (fs : Z) (mine : list ref) (n : Z) (e : AccountStorageEntry) : Prop := {
  eo_id : id e = n;
  eo_size : file_size (entry_accounts e) = fs;
  eo_count : count e = Z.of_nat (length mine);
  eo_items : ∃ items, holds (entry_accounts e) items ∧
    ∀ f info, (f, info) ∈ mine → f = fork_id e ∧ ∃ i, (info_offset info, i) ∈ items;
}.

(** [rs] are all the references to the storage: those of the index, and
    those that an operation in progress holds. *)
Record db_inv (db : AccountsDB) (rs : list ref) : Prop := {
  di_entry : ∀ n e, storage db !! n = Some e →
    n < next_id db ∧ entry_ok (db_file_size db) (refs_to n rs) n e;
  di_live : ∀ r, r ∈ rs → is_Some (storage db !! info_id r.2);
  di_size : 0 ≤ db_file_size db < two64 - two32;
}.

Lemma db_inv_perm db rs rs' : rs ≡ₚ rs' → db_inv db rs → db_inv db rs'.
Proof.
  intros Hp [He Hl Hs]. split; [|intros r; rewrite <- Hp; auto|done].
  intros n e Hn. destruct (He n e Hn) as [? [Hid Hsz Hc (items & Hh & Hit)]].
  split; [done|]. pose proof (refs_to_perm n _ _ Hp) as Hr. split; [done..| |].
  - by rewrite <- Hr.
  - exists items. split; [done|]. intros f info. rewrite <- Hr. auto.
Qed.

Lemma new_db_inv fs : 0 ≤ fs < two64 - two32 → db_inv (new_with_file_size fs) [].
Proof. intros. split; [done| |done]. intros r Hr. by apply elem_of_nil in Hr. Qed.

Lemma holds_get v items pos i :
  holds v items → (pos, i) ∈ items → ∃ next, get_account v pos = Ok (stored_of i, next).
Proof. intros [Hl Hlen _ Hf] Hin. apply (log_at_get v items 0); done || lia. Qed.

Lemma holds_reset v items : holds v items → holds (reset v) [].
Proof. intros [_ _ Hm Hf]. split; simpl; done || lia. Qed.

(** Reading through a reference is not affected by what happens to files it
    does not point to. *)
Lemma read_account_ne s n e info :
  info_id info ≠ n → read_account (<[n := e]> s) info = read_account s info.
Proof. intros. unfold read_account. by rewrite lookup_insert_ne. Qed.

Lemma read_account_item s n e items info i :
  s !! n = Some e → info_id info = n → holds (entry_accounts e) items →
  (info_offset info, i) ∈ items → read_account s info = Some (clone_account (stored_of i)).
Proof.
  intros Hs Hid Hh Hi. unfold read_account. rewrite Hid, Hs. simpl.
  by destruct (holds_get _ _ _ _ Hh Hi) as [next ->].
Qed.

(** ** Choosing a file *)

Lemma fork_storage_spec turn db fork rs n db1 :
  db_inv db rs → fork_storage pick turn db fork = (n, db1) →
  db_inv db1 rs ∧ storage db ⊆ storage db1 ∧ index db1 = index db ∧
  db_file_size db1 = db_file_size db ∧ db_write_version db1 = db_write_version db ∧
  ∃ e, storage db1 !! n = Some e ∧ fork_id e = fork ∧ status e = StorageAvailable ∧
    (storage db !! n = Some e ∧ db1 = db ∨
     storage db !! n = None ∧ e = AccountStorageEntry_new fork n (db_file_size db) ∧
     candidates db fork = [] ∧ storage db1 = <[n := e]> (storage db)).
Proof.
  intros Hinv. unfold fork_storage. destruct (candidates db fork) as [|c cs] eqn:Hc.
  - intros [= <- <-]. simpl. set (e := AccountStorageEntry_new _ _ _).
    destruct Hinv as [He Hl Hs].
    assert (storage db !! next_id db = None) as Hn.
    { apply eq_None_not_Some. intros [e' He']. apply He in He' as [? _]. lia. }
    assert (refs_to (next_id db) rs = []) as Hr.
    { destruct (refs_to (next_id db) rs) as [|r l] eqn:Hr; [done|].
      assert (r ∈ refs_to (next_id db) rs) as [Hid Hin]%elem_of_refs_to by (rewrite Hr; set_solver).
      destruct (Hl _ Hin) as [e' He']. rewrite Hid in He'. congruence. }
    split_and!; [|by apply insert_subseteq|done|done|done|].
    + split; simpl; [|intros r Hin; destruct (Hl r Hin) as [e' ?]|done].
      * intros n e' [[<- <-]|[Hne He']]%lookup_insert_Some.
        -- split; [lia|]. rewrite Hr. split; simpl; [done..|]. exists [].
           split; [by apply holds_new|]. intros f info Hin. by apply elem_of_nil in Hin.
        -- apply He in He' as [? ?]. split; [lia|done].
      * destruct (decide (info_id r.2 = next_id db)) as [->|];
          [rewrite lookup_insert_eq|rewrite lookup_insert_ne by done]; eauto.
    + exists e. rewrite lookup_insert_eq. split_and!; [done..|]. right. done.
  - intros [= <- <-]. split_and!; [done..|].
    assert (pick turn (c :: cs) ∈ candidates db fork) as Hin by (rewrite Hc; by apply pick_in).
    unfold candidates, entries_of in Hin.
    apply list_elem_of_fmap in Hin as (e & Hid & [[Hst Hf] Hin]%list_elem_of_filter).
    apply list_elem_of_fmap in Hin as ([n e'] & -> & Hin%elem_of_map_to_list). simpl in *.
    destruct (di_entry _ _ Hinv _ _ Hin) as [_ Heo]. rewrite Hid, (eo_id _ _ _ _ Heo).
    exists e'. auto 10.
Qed.

(** ** Storing accounts *)

(** Replacing an entry by one that also serves the new references [news]. *)
Lemma update_entry db rs n e e' news :
  db_inv db rs → storage db !! n = Some e → Forall (λ r : ref, info_id r.2 = n) news →
  entry_ok (db_file_size db) (refs_to n rs ++ news) n e' →
  db_inv (with_storage (<[n := e']> (storage db)) db) (rs ++ news).
Proof.
  intros [He Hl Hs] Hn Hnews Hok. split; simpl; [| |done].
  - intros m e'' [[<- <-]|[Hne Hm]]%lookup_insert_Some.
    + split; [by apply He in Hn as [? _]|]. by rewrite refs_to_app, (refs_to_all _ news).
    + apply He in Hm as [? ?]. split; [done|].
      by rewrite refs_to_app, (refs_to_none n m news), app_nil_r.
  - intros r Hr. destruct (decide (info_id r.2 = n)) as [->|];
      [rewrite lookup_insert_eq; eauto|rewrite lookup_insert_ne by done].
    apply elem_of_app in Hr as [Hr|Hr]; [auto|]. rewrite Forall_forall in Hnews.
    by apply Hnews in Hr.
Qed.

Lemma add_accounts_count (infos : list AccountInfo) e :
  0 ≤ count e → count e + Z.of_nat (length infos) < two64 →
  foldl (λ e _, add_account e) e infos =
    mkEntry (id e) (fork_id e) (entry_accounts e) (count e + Z.of_nat (length infos)) (status e).
Proof.
  revert e. induction infos as [|x infos IH]; intros [] Hc Hlt; simpl in *.
  - f_equal. lia.
  - rewrite IH; simpl; rewrite u64_add_exact by lia; [f_equal; lia|lia..].
Qed.

(** What [store_turn] and the loop guarantee: the new references are good,
    and the old ones read what they read before. *)
Record stored (db db' : AccountsDB) (rs : list ref) (fork : Fork) (infos : list AccountInfo)
    (accts : list (StorageMeta * Account)) : Prop := {
  st_inv : db_inv db' (rs ++ (pair fork <$> infos));
  st_index : index db' = index db;
  st_size : db_file_size db' = db_file_size db;
  st_old : ∀ r, r ∈ rs → read_account (storage db') r.2 = read_account (storage db) r.2;
  st_new : Forall2 (λ info i, read_account (storage db') info = Some (clone_account (stored_of i)))
    infos accts;
  st_version : db_write_version db' = db_write_version db;
}.

Definition turn_infos (n : Z) (rvs : list Z) (accts : list (StorageMeta * Account)) :=
  zip_with (λ offset '(_, account), mkInfo n offset account.(difs)) rvs accts.

Lemma turn_infos_elem n rvs accts info :
  info ∈ turn_infos n rvs accts → info_id info = n ∧ ∃ i, (info_offset info, i) ∈ zip rvs accts.
Proof.
  unfold turn_infos. revert accts. induction rvs as [|o rvs IH]; intros [|[m a] accts]; simpl;
    try (by intros Hin%elem_of_nil).
  intros [->|Hin]%elem_of_cons; simpl; [set_solver|]. destruct (IH _ Hin) as (? & i & ?). set_solver.
Qed.

Lemma turn_infos_ids fork n rvs accts :
  Forall (λ r : ref, info_id r.2 = n) (pair fork <$> turn_infos n rvs accts).
Proof.
  apply Forall_fmap, Forall_forall. intros info Hin. by apply turn_infos_elem in Hin as [? _].
Qed.

Lemma turn_infos_read s n e all rvs accts :
  s !! n = Some e → holds (entry_accounts e) all → zip rvs accts ⊆ all →
  (length rvs ≤ length accts)%nat →
  Forall2 (λ info i, read_account s info = Some (clone_account (stored_of i)))
    (turn_infos n rvs accts) (take (length rvs) accts).
Proof.
  intros Hs Hh. unfold turn_infos.
  revert accts. induction rvs as [|o rvs IH]; intros [|[m a] accts] Hsub Hlen; simpl in *;
    [constructor..|lia|]. constructor; [|apply IH; [set_solver|lia]].
  apply (read_account_item s n e all); [done..|]. apply Hsub. set_solver.
Qed.

Lemma length_append_accounts v accts rvs v' :
  append_accounts v accts = (rvs, v') → (length rvs ≤ length accts)%nat.
Proof.
  revert v rvs. induction accts as [|[m a] accts IH]; intros v rvs; simpl.
  { by intros [= <- <-]. }
  destruct (append_ptrs_locked _ _) as [[pos v1]|]; [|by intros [= <- <-]; simpl; lia].
  destruct (append_accounts v1 accts) as [rv v2] eqn:Hr. intros [= <- <-]. apply IH in Hr.
  simpl. lia.
Qed.

Lemma length_turn_infos n rvs accts :
  (length rvs ≤ length accts)%nat → length (turn_infos n rvs accts) = length rvs.
Proof. intros. unfold turn_infos. rewrite length_zip_with. lia. Qed.

(** The entry after a turn. *)
Lemma turn_entry_ok fs mine n e accts rvs v fork :
  entry_ok fs mine n e → fork_id e = fork → Forall item_ok accts →
  append_accounts (entry_accounts e) accts = (rvs, v) →
  Z.of_nat (length mine + length accts) < two64 →
  let e1 := with_accounts v e in
  let e2 := if rvs is [] then set_status StorageFull e1 else e1 in
  let infos := turn_infos n rvs accts in
  let e' := foldl (λ e _, add_account e) e2 infos in
  entry_ok fs (mine ++ (pair fork <$> infos)) n e' ∧
  (mine ++ (pair fork <$> infos) ≠ [] → ∃ items, holds (entry_accounts e) items ∧
    (∀ f info, (f, info) ∈ mine → f = fork_id e ∧ ∃ i, (info_offset info, i) ∈ items) ∧
    holds (entry_accounts e') (items ++ zip rvs accts)).
Proof.
  intros [Hid Hsz Hc (items & Hh & Hit)] Hf Hok Ha Hlt e1 e2 infos e'.
  pose proof (length_append_accounts _ _ _ _ Ha) as Hlr.
  pose proof (length_turn_infos n rvs accts Hlr) as Hli. fold infos in Hli.
  destruct (holds_append_accounts _ _ _ _ _ Hh Hok Ha) as (Hh' & Hfs & _).
  assert (count e2 = count e ∧ id e2 = id e ∧ fork_id e2 = fork_id e) as (Hc2 & Hid2 & Hf2).
  { unfold e2, e1, set_status. destruct rvs; [|done]. by destruct (_ && _). }
  assert (file_size (entry_accounts e2) = fs) as Hsz2.
  { unfold e2, e1, set_status. destruct rvs; simpl; [|congruence].
    destruct (count e =? 0); simpl; congruence. }
  assert (e' = mkEntry (id e2) (fork_id e2) (entry_accounts e2)
    (count e2 + Z.of_nat (length infos)) (status e2)) as ->
    by (apply add_accounts_count; lia).
  assert (count e + Z.of_nat (length infos) = Z.of_nat (length (mine ++ (pair fork <$> infos))))
    as Hcount by (rewrite length_app, length_fmap; lia).
  destruct (decide (rvs = [] ∧ count e = 0)) as [[-> Hc0]|Hnot].
  - assert (mine = []) as -> by (apply length_zero_iff_nil; lia).
    split; [|done]. split; simpl; [congruence|done|by rewrite Hc2, Hc0|].
    exists []. split; [|intros f info Hin; by apply elem_of_nil in Hin].
    unfold e2, e1, set_status. simpl. rewrite Hc0. simpl. by eapply holds_reset.
  - assert (entry_accounts e2 = v) as Hv.
    { unfold e2, e1, set_status. destruct rvs; [|done]. simpl.
      destruct (Z.eqb_spec (count e) 0); [by destruct Hnot|done]. }
    split; simpl; [split; simpl; [congruence|done|congruence|]|].
    + rewrite Hv. eexists. split; [exact Hh'|]. rewrite Hf2. intros f info [Hin|Hin]%elem_of_app.
      * apply Hit in Hin as (? & i & ?). split; [done|]. exists i. set_solver.
      * apply list_elem_of_fmap in Hin as (info' & [= -> <-] & Hin).
        apply turn_infos_elem in Hin as (_ & i & ?). split; [done|]. exists i. set_solver.
    + intros _. exists items. by rewrite Hv.
Qed.

Lemma store_turn_spec turn db rs fork accts infos db' :
  db_inv db rs → Forall item_ok accts → Z.of_nat (length rs + length accts) < two64 →
  store_turn pick turn db fork accts = Some (infos, db') →
  stored db db' rs fork infos (take (length infos) accts).
Proof.
  intros Hinv Hok Hlt. unfold store_turn.
  destruct (fork_storage pick turn db fork) as [n db1] eqn:Hfs.
  apply (fork_storage_spec _ _ _ _ _ _ Hinv) in Hfs
    as (Hinv1 & Hsub & Hix & Hsz & Hwv & e & He & Hfork & _). rewrite He. simpl.
  destruct (append_accounts (entry_accounts e) accts) as [rvs v] eqn:Ha. intros [= <- <-].
  fold (turn_infos n rvs accts). set (e2 := if rvs is [] then _ else _).
  set (infos := turn_infos n rvs accts). set (e' := foldl _ e2 infos).
  pose proof (length_append_accounts _ _ _ _ Ha) as Hlr.
  pose proof (length_turn_infos n rvs accts Hlr) as Hli. fold infos in Hli.
  assert (length (refs_to n rs) ≤ length rs)%nat as Hrl by apply length_filter.
  destruct (di_entry _ _ Hinv1 _ _ He) as [_ Heo].
  destruct (turn_entry_ok _ _ _ _ accts rvs v fork Heo Hfork Hok Ha) as [Heo' Hitems]; [lia|].
  fold e2 infos e' in Heo', Hitems. rewrite Hli.
  split; simpl; [|done|done| | |done].
  - apply (update_entry db1 rs n e); [done..|apply turn_infos_ids|done].
  - intros [f info] Hr. simpl. destruct (di_live _ _ Hinv _ Hr) as [e0 He0]. simpl in He0.
    pose proof (lookup_weaken _ _ _ _ He0 Hsub) as He1.
    transitivity (read_account (storage db1) info);
      [|unfold read_account; by rewrite He0, He1].
    destruct (decide (info_id info = n)) as [Hn|]; [|by apply read_account_ne].
    assert ((f, info) ∈ refs_to n rs) as Hin by (by apply elem_of_refs_to).
    destruct Hitems as (items & Hh & Hit & Hh'); 
      [intros [Hnil _]%app_eq_nil; rewrite Hnil in Hin; by apply elem_of_nil in Hin|].
    destruct (Hit _ _ Hin) as (_ & i & Hi).
    rewrite (read_account_item _ n e' (items ++ zip rvs accts) _ i);
      [|by rewrite lookup_insert_eq|done|done|set_solver].
    by rewrite (read_account_item _ n e items _ i).
  - destruct (decide (infos = [])) as [->|Hne].
    { assert (length rvs = 0%nat) as -> by done. constructor. }
    destruct Hitems as (items & Hh & Hit & Hh').
    { intros [_ Hnil]%app_eq_nil. by apply fmap_nil_inv in Hnil. }
    apply (turn_infos_read _ n e' (items ++ zip rvs accts));
      [by rewrite lookup_insert_eq|done|set_solver|done].
Qed.

Lemma store_loop_spec fuel turn db rs fork accts infos db' :
  db_inv db rs → Forall item_ok accts → Z.of_nat (length rs + length accts) < two64 →
  store_loop pick fuel turn db fork accts = Some (infos, db') →
  stored db db' rs fork infos accts.
Proof.
  revert turn db rs accts infos. induction fuel as [|fuel IH];
    intros turn db rs accts infos Hinv Hok Hlt; destruct accts as [|i accts]; try done;
    try (intros [= <- <-]; split; [by rewrite app_nil_r|done..]).
  cbn [store_loop]. set (all := i :: accts) in *.
  destruct (store_turn pick turn db fork all) as [[infos1 db1]|] eqn:Ht; [|done]. simpl.
  destruct (store_loop pick fuel (S turn) db1 fork _) as [[infos2 db2]|] eqn:Hl; [|done].
  intros [= <- <-]. apply (store_turn_spec _ _ _ _ _ _ _ Hinv Hok Hlt) in Ht as [Hi1 Hx1 Hs1 Ho1 Hn1 Hw1].
  pose proof (Forall2_length _ _ _ Hn1) as Hlen1. rewrite length_take in Hlen1.
  apply (IH _ _ (rs ++ (pair fork <$> infos1))) in Hl as [Hi2 Hx2 Hs2 Ho2 Hn2 Hw2];
    [|done|by apply Forall_drop|rewrite length_app, length_fmap, length_drop; lia].
  split; [by rewrite fmap_app, app_assoc|congruence|congruence| | |congruence].
  - intros r Hr. rewrite Ho2 by set_solver. auto.
  - rewrite <- (take_drop (length infos1) all). apply Forall2_app; [|done].
    apply (Forall2_impl_elem _ _ _ _ Hn1). intros info j Hin Hr.
    rewrite <- Hr. apply (Ho2 (fork, info)). set_solver.
Qed.

(** ** Updating the index *)

Definition insert_all {A} (i : AccountsIndex A) (fork : Fork) (l : list (Pubkey * A))
    : AccountsIndex A :=
  foldl (λ i '(k, x), (insert i fork k x).2) i l.

Lemma update_index_cons i fork info infos k a accts :
  update_index i fork (info :: infos) ((k, a) :: accts) =
  let r := update_index (insert i fork k info).2 fork infos accts in
  ((insert i fork k info).1 ++ r.1, r.2).
Proof.
  cbn [update_index]. destruct (insert i fork k info) as [rc i1]; cbn [fst snd].
  by destruct (update_index i1 fork infos accts).
Qed.

Lemma update_index_spec {B} (g : AccountInfo → B) i fork infos accts :
  length infos = length accts →
  let r := update_index i fork infos accts in
  index_refs r.2 ++ r.1 ≡ₚ index_refs i ++ (pair fork <$> infos) ∧
  map_index g r.2 = insert_all (map_index g i) fork (zip accts.*1 (g <$> infos)) ∧
  roots r.2 = roots i ∧ last_root r.2 = last_root i.
Proof.
  revert i accts. induction infos as [|info infos IH]; intros i [|[k a] accts] Hlen;
    try discriminate Hlen; [done|].
  injection Hlen as Hlen. rewrite update_index_cons. cbn zeta.
  destruct (IH (insert i fork k info).2 accts Hlen) as (Hp & Hm & Hr & Hlr).
  pose proof (index_refs_insert i fork k info) as Hpi.
  set (r := update_index _ _ _ _) in *. cbn [fst snd]. split_and!; [|rewrite Hm|done..].
  - rewrite (Permutation_app_comm _ r.1), app_assoc, Hp.
    rewrite <- app_assoc, (Permutation_app_comm _ (insert i fork k info).1), app_assoc, Hpi.
    by rewrite <- app_assoc.
  - by rewrite map_index_insert.
Qed.

(** ** Removing references *)

Lemma remove_one db r rs :
  db_inv db (r :: rs) → Z.of_nat (length (r :: rs)) < two64 →
  ∃ e, storage db !! info_id r.2 = Some e ∧ r.1 = fork_id e ∧
    let s' := <[info_id r.2 := remove_account e]> (storage db) in
    db_inv (with_storage s' db) rs ∧
    ∀ r', r' ∈ rs → read_account s' r'.2 = read_account (storage db) r'.2.
Proof.
  intros Hinv Hlt. destruct Hinv as [He Hl Hs]. set (n := info_id r.2).
  destruct (Hl r) as [e Hn]; [set_solver|]. fold n in Hn. exists e.
  destruct (He n e Hn) as [Hlt' [Hid Hsz Hc (items & Hh & Hit)]].
  assert (refs_to n (r :: rs) = r :: refs_to n rs) as Hrefs
    by (unfold refs_to; by rewrite filter_cons_True).
  rewrite Hrefs in Hc, Hit. simpl in Hc.
  assert (length (refs_to n rs) ≤ length rs)%nat as Hrl by apply length_filter. simpl in Hlt.
  destruct r as [f info]. split; [done|]. split; [by destruct (Hit f info); [set_solver|]|].
  intros s'.
  assert (u64_sub (count e) 1 = Z.of_nat (length (refs_to n rs))) as Hc'
    by (rewrite u64_sub_exact; unfold is_u64; lia).
  assert (entry_ok (db_file_size db) (refs_to n rs) n (remove_account e) ∧
    (refs_to n rs ≠ [] → entry_accounts (remove_account e) = entry_accounts e)) as [Hok Hsame].
  { unfold remove_account. destruct (Z.eqb_spec (count e) 1) as [H1|]; simpl; [destruct (bool_decide _)|].
    - assert (refs_to n rs = []) as Hnil by (apply length_zero_iff_nil; lia).
      rewrite Hnil in *. split; [|done]. split; simpl; [done..|]. exists [].
      split; [by eapply holds_reset|]. intros ? ? Hin. by apply elem_of_nil in Hin.
    - split; [|done]. split; simpl; [done..|]. exists items. split; [done|].
      intros f' info' Hin. apply Hit. set_solver.
    - split; [|done]. split; simpl; [done..|]. exists items. split; [done|].
      intros f' info' Hin. apply Hit. set_solver. }
  split.
  - split; simpl; [| |done].
    + intros m e' [[<- <-]|[Hne Hm]]%lookup_insert_Some; [done|].
      apply He in Hm as [? Hm]. split; [done|]. unfold refs_to in *.
      rewrite filter_cons_False in Hm; [done|]. simpl. done.
    + intros r Hr. destruct (decide (info_id r.2 = n)) as [->|];
        [unfold s'; rewrite lookup_insert_eq; eauto|].
      unfold s'. rewrite lookup_insert_ne by done. apply Hl. set_solver.
  - intros [f' info'] Hr. simpl. destruct (decide (info_id info' = n)) as [Heq|];
      [|by apply read_account_ne].
    assert ((f', info') ∈ refs_to n rs) as Hin by (by apply elem_of_refs_to).
    unfold read_account, s'. rewrite Heq, lookup_insert_eq, Hn. simpl. rewrite Hsame; [done|].
    intros Hnil. rewrite Hnil in Hin. by apply elem_of_nil in Hin.
Qed.

Lemma remove_accounts_spec reclaims db rs :
  db_inv db (rs ++ reclaims) → Z.of_nat (length (rs ++ reclaims)) < two64 →
  ∃ s', remove_accounts (storage db) reclaims = Some s' ∧ db_inv (with_storage s' db) rs ∧
    ∀ r, r ∈ rs → read_account s' r.2 = read_account (storage db) r.2.
Proof.
  revert db. induction reclaims as [|[f info] reclaims IH]; intros db Hinv Hlt.
  { exists (storage db). rewrite app_nil_r in Hinv. split; [done|]. split; [by destruct db|done]. }
  apply (db_inv_perm _ _ ((f, info) :: rs ++ reclaims)) in Hinv; [|solve_Permutation].
  rewrite length_app in Hlt; simpl in Hlt.
  destruct (remove_one _ _ _ Hinv) as (e & He & Hf & Hinv' & Hr);
    [simpl; rewrite length_app; lia|]. simpl in *.
  rewrite He, Hf, Z.eqb_refl.
  destruct (IH _ Hinv') as (s' & Hs' & Hi' & Hr'); [rewrite length_app; lia|]. simpl in Hs'.
  exists s'. split; [done|]. split; [done|]. intros r Hin. rewrite Hr' by done. apply Hr. set_solver.
Qed.

(** ** Dead forks *)

Lemma elem_of_forks_where P s f :
  f ∈ forks_where P s ↔ ∃ n e, s !! n = Some e ∧ fork_id e = f ∧ P e.
Proof.
  unfold forks_where, entries_of. rewrite elem_of_list_to_set, list_elem_of_fmap. split.
  - intros (e & -> & [HP Hin]%list_elem_of_filter).
    apply list_elem_of_fmap in Hin as ([n e'] & -> & Hin%elem_of_map_to_list). eauto 10.
  - intros (n & e & Hn & <- & HP). exists e. split; [done|]. apply list_elem_of_filter.
    split; [done|]. apply list_elem_of_fmap. exists (n, e). by rewrite elem_of_map_to_list.
Qed.

Lemma dead_no_refs db rs f :
  db_inv db rs → f ∉ forks_where (λ e, 0 <? count e) (storage db) → ∀ r, r ∈ rs → r.1 ≠ f.
Proof.
  intros Hinv Hf [f' info] Hr. simpl. intros ->. apply Hf, elem_of_forks_where.
  destruct (di_live _ _ Hinv _ Hr) as [e He]. simpl in He.
  destruct (di_entry _ _ Hinv _ _ He) as [_ [_ _ Hc (items & _ & Hit)]].
  assert ((f, info) ∈ refs_to (info_id info) rs) as Hin by (by apply elem_of_refs_to).
  exists (info_id info), e. split; [done|]. split; [by destruct (Hit _ _ Hin)|].
  apply Is_true_true, Z.ltb_lt. rewrite Hc. destruct (refs_to _ rs); [by apply elem_of_nil in Hin|].
  simpl. lia.
Qed.

Lemma purge_fork_spec db rs f :
  db_inv db rs → (∀ r, r ∈ rs → r.1 ≠ f) →
  db_inv (purge_fork db f) rs ∧ index (purge_fork db f) = index db ∧
  ∀ r, r ∈ rs → read_account (storage (purge_fork db f)) r.2 = read_account (storage db) r.2.
Proof.
  intros Hinv Hf. unfold purge_fork. destruct (is_root _ _); [done|]. simpl.
  assert (∀ r, r ∈ rs → ∃ e, storage db !! info_id r.2 = Some e ∧
    filter (λ '(_, e), fork_id e ≠ f) (storage db) !! info_id r.2 = Some e) as Hkeep.
  { intros [f' info] Hr. destruct (di_live _ _ Hinv _ Hr) as [e He]. exists e. simpl in *.
    split; [done|]. apply map_lookup_filter_Some. split; [done|].
    destruct (di_entry _ _ Hinv _ _ He) as [_ [_ _ _ (items & _ & Hit)]].
    destruct (Hit f' info) as [<- _]; [by apply elem_of_refs_to|]. by apply (Hf _ Hr). }
  split_and!; [|done|].
  - destruct Hinv as [He Hl Hs]. split; simpl; [|intros r Hr; destruct (Hkeep r Hr) as (e & _ & ->); eauto|done].
    intros n e [Hn _]%map_lookup_filter_Some. by apply He.
  - intros r Hr. unfold read_account. by destruct (Hkeep r Hr) as (e & -> & ->).
Qed.

Lemma purge_forks_spec dead db rs :
  db_inv db rs → (∀ f r, f ∈ dead → r ∈ rs → r.1 ≠ f) →
  let db' := foldr (λ f db, purge_fork db f) db dead in
  db_inv db' rs ∧ index db' = index db ∧
  ∀ r, r ∈ rs → read_account (storage db') r.2 = read_account (storage db) r.2.
Proof.
  intros Hinv Hf db'. unfold db'. clear db'. induction dead as [|f dead IH]; simpl; [done|].
  destruct IH as (Hi & Hx & Hr); [set_solver|].
  destruct (purge_fork_spec _ rs f Hi) as (Hi' & Hx' & Hr'); [set_solver|].
  split_and!; [done|congruence|]. intros r Hin. by rewrite Hr', Hr.
Qed.

Lemma cleanup_roots {A} (i : AccountsIndex A) dead :
  foldr (λ f i, cleanup_dead_fork i f) i dead =
  mkAccountsIndex (account_maps i) (roots i ∖ list_to_set dead) (last_root i).
Proof.
  induction dead as [|f dead IH]; simpl.
  - destruct i; simpl. f_equal. set_solver.
  - rewrite IH. unfold cleanup_dead_fork; simpl. f_equal. set_solver.
Qed.

(** ** The refinement *)

(** What the database keeps of an account: the data of an account without
    difs is dropped. *)
Definition kept (a : Account) : Account :=
  with_data (if difs a =? 0 then [] else data a) a.

Lemma clone_stored w k a n :
  n = (if difs a =? 0 then 0 else Z.of_nat (length (data a))) →
  clone_account (stored_of (mkMeta w k n, a)) = kept a.
Proof.
  intros ->. unfold clone_account, stored_of, kept, with_data; simpl. f_equal.
  destruct (difs a =? 0); [done|]. by rewrite Nat2Z.id, firstn_all.
Qed.

(** The database implements the abstract index of the accounts: the same
    entries, up to the roots that have no entries any more. *)
Record refines (db : AccountsDB) (ai : AccountsIndex Account) : Prop := {
  rf_inv : db_inv db (index_refs (index db));
  rf_maps : account_maps (map_index (read_account (storage db)) (index db)) =
            account_maps (map_index Some ai);
  rf_last : last_root ai = last_root (index db);
  rf_roots : roots (index db) ⊆ roots ai;
  rf_dead : ∀ f, f ∈ roots ai → f ∉ roots (index db) →
    f < last_root ai ∧ ∀ r, r ∈ index_refs (index db) → r.1 ≠ f;
  rf_version : is_u64 (db_write_version db);
}.

Lemma get_map_index {A B} (g : A → B) (i : AccountsIndex A) k anc :
  get (map_index g i) k anc = (λ p : A * Fork, (g p.1, p.2)) <$> get i k anc.
Proof.
  unfold get; simpl. rewrite lookup_fmap. destruct (account_maps i !! k) as [l|]; [|done]. simpl.
  rewrite <- fmap_reverse.
  assert (∀ l m rv, foldl (get_step (map_index g i) anc) (m, (λ p : A * Fork, (g p.1, p.2)) <$> rv)
      (map_entry g <$> l) =
    let r := foldl (get_step i anc) (m, rv) l in (r.1, (λ p : A * Fork, (g p.1, p.2)) <$> r.2)) as Hf.
  { clear. intros l. induction l as [|[f v] l IH]; intros m rv; [done|].
    rewrite fmap_cons. cbn [foldl].
    replace (get_step (map_index g i) anc _ _) with
      (let r := get_step i anc (m, rv) (f, v) in (r.1, (λ p : A * Fork, (g p.1, p.2)) <$> r.2)).
    - destruct (get_step i anc (m, rv) (f, v)). apply IH.
    - unfold get_step. cbn [map_entry fst snd].
      change (visible (map_index g i) anc f) with (visible i anc f). by destruct (_ && _). }
  exact (f_equal snd (Hf (reverse l) 0 None)).
Qed.

Lemma get_ext {A} (i j : AccountsIndex A) k anc :
  account_maps i = account_maps j →
  (∀ r, r ∈ entries i k → visible i anc r.1 = visible j anc r.1) → get i k anc = get j k anc.
Proof.
  intros Hm Hv. unfold get, entries in *. rewrite <- Hm.
  destruct (account_maps i !! k) as [l|]; [|done]. simpl in *.
  assert (∀ l' acc, l' ⊆ l → foldl (get_step i anc) acc l' = foldl (get_step j anc) acc l') as Hf.
  { intros l'. induction l' as [|e l' IH]; intros acc Hsub; [done|]. simpl.
    unfold get_step at 2 4. rewrite Hv by set_solver. apply IH. set_solver. }
  rewrite Hf; [done|]. intros e. by rewrite elem_of_reverse.
Qed.

Lemma refines_load db ai anc k :
  refines db ai → load_slow db anc k = get ai k anc.
Proof.
  intros [Hinv Hm Hlast Hroots Hdead _].
  assert (get (map_index (read_account (storage db)) (index db)) k anc = get (map_index Some ai) k anc)
    as Heq.
  { apply get_ext; [done|]. intros [f oa] Hr. unfold visible, is_root. simpl.
    destruct (bool_decide (is_Some (anc !! f))); [done|]. simpl. apply bool_decide_ext.
    split; [apply Hroots|]. intros Hf. destruct (decide (f ∈ roots (index db))); [done|exfalso].
    unfold entries in Hr. simpl in Hr. rewrite lookup_fmap in Hr.
    destruct (account_maps (index db) !! k) as [l|] eqn:Hl; simpl in Hr; [|by apply elem_of_nil in Hr].
    apply list_elem_of_fmap in Hr as ([f' info] & [= -> ->] & Hin).
    destruct (Hdead f' Hf) as [_ Hne]; [done|]. apply (Hne (f', info)); [|done].
    apply elem_of_index_refs. exists k. unfold entries. by rewrite Hl. }
  rewrite !get_map_index in Heq. unfold load_slow, load.
  destruct (get (index db) k anc) as [[info f]|], (get ai k anc) as [[a f']|]; simplify_eq/=; [|done].
  by rewrite H.
Qed.

(** ** Storing refines inserting *)

Lemma insert_all_last {A} l (i : AccountsIndex A) fork :
  last_root (insert_all i fork l) = last_root i ∧ roots (insert_all i fork l) = roots i.
Proof. revert i. induction l as [|[k x] l IH]; intros i; [done|]. apply (IH (insert i fork k x).2). Qed.

Lemma insert_all_maps {A} l (i j : AccountsIndex A) fork :
  account_maps i = account_maps j → last_root i = last_root j →
  account_maps (insert_all i fork l) = account_maps (insert_all j fork l).
Proof.
  revert i j. induction l as [|[k x] l IH]; intros i j Hm Hl; [done|].
  apply (IH (insert i fork k x).2 (insert j fork k x).2); [|done].
  unfold insert, is_purged. simpl. by rewrite Hm, Hl.
Qed.

Lemma map_index_insert_all {A B} (g : A → B) l (i : AccountsIndex A) fork :
  map_index g (insert_all i fork l) = insert_all (map_index g i) fork (prod_map (λ k, k) g <$> l).
Proof.
  revert i. induction l as [|[k x] l IH]; intros i; [done|].
  cbn [insert_all foldl]. unfold insert_all in *. rewrite IH. cbn [fmap list_fmap foldl prod_map].
  by rewrite map_index_insert.
Qed.

Lemma index_refs_new {A} (i : AccountsIndex A) f k v r :
  r ∈ index_refs (insert i f k v).2 → r ∈ index_refs i ∨ r.1 = f ∧ last_root i ≤ f.
Proof.
  rewrite !elem_of_index_refs. destruct r as [g u]. intros [k' Hr].
  destruct (decide (k' = k)) as [->|Hne]; [|rewrite entries_insert_ne in Hr by done; eauto].
  apply elem_of_entries_insert in Hr as [? [[? ?]|[-> ->]]]; [eauto|right; auto].
Qed.

Lemma update_index_new i fork infos accts r :
  r ∈ index_refs (update_index i fork infos accts).2 →
  r ∈ index_refs i ∨ r.1 = fork ∧ last_root i ≤ fork.
Proof.
  revert i accts. induction infos as [|info infos IH]; intros i [|[k a] accts]; [by left..|].
  rewrite update_index_cons. cbn [snd]. intros [Hr|[? ?]]%IH; [|by right].
  by apply index_refs_new in Hr.
Qed.

Lemma set_fold_foldr {A} (f : Fork → A → A) (b : A) (X : gset Fork) :
  set_fold f b X = foldr f b (elements X).
Proof. done. Qed.

Definition acct_ok (p : Pubkey * Account) : Prop :=
  in_range (balance_of p.2) ∧ is_u64 (Z.of_nat (length (data p.2))) ∧
  ∀ w n, is_u64 w → is_u64 n → in_range (mkMeta w p.1 n).

Lemma with_meta_ok accts w l w' :
  is_u64 w → Forall acct_ok accts → with_meta w accts = (l, w') →
  Forall item_ok l ∧ (λ i, clone_account (stored_of i)) <$> l = kept <$> accts.*2 ∧ is_u64 w'.
Proof.
  intros Hw Hok. revert w l Hw. induction Hok as [|[k a] accts (Hb & Hd & Hm) _ IH];
    intros w l Hw; simpl; [by intros [= <- <-]|].
  destruct (with_meta (u64_add w 1) accts) as [l' w''] eqn:Hr. intros [= <- <-].
  destruct (IH _ _ (wrap64_range _) Hr) as (Hl & Heq & Hw'). unfold is_u64 in Hd. simpl in *.
  split_and!; [constructor; [|done]|f_equal; [|done]|done].
  - split_and!; simpl; [|done|destruct (difs a =? 0); lia..].
    apply Hm; [done|]. unfold is_u64. destruct (difs a =? 0); lia.
  - by apply clone_stored.
Qed.

Lemma purge_forks_version dead db :
  db_write_version (foldr (λ f db, purge_fork db f) db dead) = db_write_version db.
Proof.
  induction dead as [|f dead IH]; [done|]. simpl. rewrite <- IH. unfold purge_fork.
  by destruct (is_root _ _).
Qed.

(** The storage part of [store]: after the accounts were appended and the
    index was updated, dropping the reclaimed accounts and the dead forks
    does not affect what the index refers to. *)
Lemma store_cleanup db i reclaims :
  db_inv db (index_refs i ++ reclaims) → Z.of_nat (length (index_refs i ++ reclaims)) < two64 →
  ∃ dead s, remove_dead_accounts (storage db) reclaims = Some (dead, s) ∧
    let dead' := filter (λ f, f < last_root i) dead in
    let i' := set_fold (λ f i, cleanup_dead_fork i f) i dead' in
    let db' := set_fold (λ fork db, purge_fork db fork) (with_storage s (with_index i' db)) dead' in
    index db' = mkAccountsIndex (account_maps i) (roots i ∖ dead') (last_root i) ∧
    db_inv db' (index_refs i) ∧ db_write_version db' = db_write_version db ∧
    (∀ r, r ∈ index_refs i → read_account (storage db') r.2 = read_account (storage db) r.2) ∧
    (∀ f, f ∈ dead' → f < last_root i ∧ ∀ r, r ∈ index_refs i → r.1 ≠ f).
Proof.
  intros Hinv Hlt. destruct (remove_accounts_spec _ _ _ Hinv Hlt) as (s & Hs & Hi & Hr).
  unfold remove_dead_accounts. rewrite Hs. simpl. eexists _, s. split; [done|].
  cbv zeta. set (dead := _ ∖ _). set (dead' := filter _ dead). set (i' := set_fold _ i dead').
  assert (i' = mkAccountsIndex (account_maps i) (roots i ∖ dead') (last_root i)) as Hi'.
  { unfold i'. rewrite set_fold_foldr, cleanup_roots. f_equal. set_solver. }
  assert (∀ f, f ∈ dead' → f < last_root i ∧ ∀ r, r ∈ index_refs i → r.1 ≠ f) as Hdead.
  { intros f [Hf Hd]%elem_of_filter. split; [done|].
    apply (dead_no_refs (with_storage s db)); [done|]. simpl. unfold dead in Hd. set_solver. }
  set (db1 := with_storage s (with_index i' db)).
  assert (db_inv db1 (index_refs i)) as Hi1 by (destruct Hi; by split).
  destruct (purge_forks_spec (elements dead') db1 (index_refs i) Hi1) as (Hi2 & Hx2 & Hr2).
  { intros f r Hf. by apply Hdead, elem_of_elements. }
  rewrite set_fold_foldr. split_and!; [by rewrite Hx2|done| | |done].
  - by rewrite purge_forks_version.
  - intros r Hin. rewrite Hr2 by done. by apply Hr.
Qed.

Lemma zip_kept (g : AccountInfo → option Account) infos (l : list (StorageMeta * Account))
    (accts : list (Pubkey * Account)) :
  Forall2 (λ info i, g info = Some (clone_account (stored_of i))) infos l →
  (λ i, clone_account (stored_of i)) <$> l = kept <$> accts.*2 →
  zip accts.*1 (g <$> infos) = prod_map (λ k, k) Some <$> (prod_map (λ k, k) kept <$> accts).
Proof.
  intros Hf. revert accts. induction Hf as [|info i infos l Hi _ IH];
    intros [|[k a] accts] Heq; simplify_eq/=; [done|]. rewrite Hi, IH by done. by rewrite H.
Qed.

Lemma store_accounts_refines fuel db ai fork accts infos db1 :
  refines db ai → Forall acct_ok accts →
  Z.of_nat (length (index_refs (index db)) + length accts) < two64 →
  store_accounts pick fuel db fork accts = Some (infos, db1) →
  ∃ db', store pick fuel db fork accts = Some db' ∧
    refines db' (insert_all ai fork (prod_map (λ k, k) kept <$> accts)) ∧
    (length (index_refs (index db')) ≤ length (index_refs (index db)) + length accts)%nat.
Proof.
  intros [Hinv Hm Hlast Hroots Hdead Hver] Hok Hlt Hsa. unfold store. rewrite Hsa. cbn [mbind option_bind].
  unfold store_accounts in Hsa. destruct (with_meta _ accts) as [l w'] eqn:Hwm.
  destruct (with_meta_ok _ _ _ _ Hver Hok Hwm) as (Hit & Hkept & Hw').
  assert (length l = length accts) as Hll
    by (apply (f_equal length) in Hkept; by rewrite !length_fmap in Hkept).
  apply (store_loop_spec _ _ _ (index_refs (index db))) in Hsa as [Hi1 Hx1 _ Ho1 Hn1 Hv1];
    [|by destruct Hinv; split|done|lia].
  pose proof (Forall2_length _ _ _ Hn1) as Hli. set (g := read_account (storage db1)) in *.
  destruct (update_index_spec g (index db1) fork infos accts) as (Hp & Hmi & Hri & Hlri); [lia|].
  pose proof (update_index_new (index db1) fork infos accts) as Hnew.
  destruct (update_index (index db1) fork infos accts) as [reclaims i] eqn:Hu. simpl in *.
  rewrite Hx1 in *. simpl in *.
  assert (length (index_refs i) + length reclaims = length (index_refs (index db)) + length accts)%nat
    as Hlen by (apply Permutation_length in Hp; rewrite !length_app, length_fmap in Hp; lia).
  destruct (store_cleanup db1 i reclaims) as (dead & s & -> & Hc);
    [by eapply db_inv_perm|rewrite length_app; lia|]. cbn [mbind option_bind].
  eexists. split; [done|]. cbv zeta in Hc. set (dead' := filter _ dead) in *.
  destruct Hc as (Hx & Hi2 & Hv2 & Hr2 & Hd2). set (db' := set_fold _ _ dead') in *.
  assert (index_refs (index db') = index_refs i) as Hrefs by (by rewrite Hx).
  destruct (insert_all_last (prod_map (λ k, k) kept <$> accts) ai fork) as [Hal Har].
  split; [|rewrite Hrefs; lia]. split.
  - by rewrite Hrefs.
  - transitivity (account_maps (map_index g i)).
    { rewrite Hx. unfold g. by rewrite <- (map_index_ext _ _ _ Hr2). }
    rewrite Hmi, map_index_insert_all, (zip_kept g infos l accts Hn1 Hkept).
    apply insert_all_maps; [|done]. by rewrite (map_index_ext g (read_account (storage db))).
  - rewrite Hal, Hx, Hlast. done.
  - rewrite Har, Hx. simpl. set_solver.
  - rewrite Har, Hal, Hrefs, Hx. simpl. intros f Hf Hnf. destruct (decide (f ∈ dead')) as [Hin|Hnin].
    { rewrite Hlast, <- Hlri. by apply Hd2. }
    destruct (Hdead f Hf) as [Hlt' Hne]; [set_solver|]. split; [done|]. intros r Hr.
    apply Hnew in Hr as [Hr|[-> ?]]; [by apply Hne|lia].
  - rewrite Hv2, Hv1. done.
Qed.

Lemma store_refines fuel db ai fork accts db' :
  refines db ai → Forall acct_ok accts →
  Z.of_nat (length (index_refs (index db)) + length accts) < two64 →
  store pick fuel db fork accts = Some db' →
  refines db' (insert_all ai fork (prod_map (λ k, k) kept <$> accts)) ∧
  (length (index_refs (index db')) ≤ length (index_refs (index db)) + length accts)%nat.
Proof.
  intros Href Hok Hlt Hs.
  destruct (store_accounts pick fuel db fork accts) as [[infos db1]|] eqn:Hsa;
    [|unfold store in Hs; by rewrite Hsa in Hs].
  destruct (store_accounts_refines _ _ _ _ _ _ _ Href Hok Hlt Hsa) as (db'' & Hs' & ?).
  rewrite Hs in Hs'. by injection Hs' as ->.
Qed.

Lemma add_root_refines db ai f db' :
  refines db ai → accounts_db.add_root db f = Ok db' → 0 ≤ f →
  ∃ ai', accounts_index.add_root ai f = Ok ai' ∧ refines db' ai'.
Proof.
  intros [Hinv Hm Hlast Hroots Hdead Hver]. unfold accounts_db.add_root, accounts_index.add_root.
  rewrite Hlast. destruct (_ || _) eqn:Hg; [|done]. simpl. intros [= <-] Hf. eexists. split; [done|].
  split; simpl; [by destruct Hinv; split|done|done|set_solver| |done].
  intros f' Hf' Hnf. destruct (Hdead f') as [? ?]; [set_solver|set_solver|]. split; [lia|done].
Qed.

(** ** Histories *)

Inductive db_op :=
| DbStore (fork : Fork) (accounts : list (Pubkey * Account))
| DbAddRoot (fork : Fork).

Definition db_op_ok (op : db_op) : Prop :=
  match op with
  | DbStore f accounts => is_u64 f ∧ Forall acct_ok accounts
  | DbAddRoot f => is_u64 f
  end.

Fixpoint db_run (fuel : nat) (db : AccountsDB) (ops : list db_op) : option AccountsDB :=
  match ops with
  | [] => Some db
  | DbStore f accounts :: ops => db ← store pick fuel db f accounts; db_run fuel db ops
  | DbAddRoot f :: ops =>
      match accounts_db.add_root db f with Ok db => db_run fuel db ops | _ => None end
  end.

(** The same history on the index of the accounts. *)
Definition index_ops (op : db_op) : list (index_op (T:=Account)) :=
  match op with
  | DbStore f accounts => (λ p, InsertOp f p.1 (kept p.2)) <$> accounts
  | DbAddRoot f => [AddRootOp f]
  end.

(** The number of accounts that a history stores. *)
Fixpoint ops_accounts (ops : list db_op) : nat :=
  match ops with
  | [] => 0
  | DbStore _ l :: ops => length l + ops_accounts ops
  | DbAddRoot _ :: ops => ops_accounts ops
  end.

Lemma run_app (i : AccountsIndex Account) ops1 ops2 :
  run i (ops1 ++ ops2) = i ← run i ops1; run i ops2.
Proof.
  revert i. induction ops1 as [|op ops1 IH]; intros i; simpl; [done|].
  destruct (step i op); simpl; auto.
Qed.

Lemma run_inserts (i : AccountsIndex Account) f accounts :
  run i ((λ p, InsertOp f p.1 (kept p.2)) <$> accounts) =
  Ok (insert_all i f (prod_map (λ k, k) kept <$> accounts)).
Proof. revert i. induction accounts as [|[k a] l IH]; intros i; [done|]. apply (IH (insert i f k (kept a)).2). Qed.

Lemma db_run_refines fuel ops db ai db' :
  refines db ai → Forall db_op_ok ops →
  Z.of_nat (length (index_refs (index db)) + ops_accounts ops) < two64 →
  db_run fuel db ops = Some db' →
  ∃ ai', run ai (mjoin (index_ops <$> ops)) = Ok ai' ∧ refines db' ai'.
Proof.
  intros Href Hok. revert db ai Href. induction Hok as [|op ops Hop _ IH]; intros db ai Href Hlt; simpl.
  { intros [= <-]. eauto. }
  destruct op as [f accounts|f]; simpl in Hlt, Hop |- *.
  - destruct Hop as [_ Hacc]. destruct (store pick fuel db f accounts) as [db1|] eqn:Hs; [|done].
    apply (store_refines _ _ _ _ _ _ Href Hacc) in Hs as [Href1 Hlen]; [|lia].
    intros (ai' & Hrun & Href')%(IH _ _ Href1); [|lia]. exists ai'. split; [|done].
    rewrite run_app, run_inserts. done.
  - destruct (accounts_db.add_root db f) as [db1| |] eqn:Ha; [|done..].
    assert (index_refs (index db1) = index_refs (index db)) as Hrefs.
    { unfold accounts_db.add_root, accounts_index.add_root in Ha.
      destruct (_ || _); [|done]. by injection Ha as <-. }
    apply (add_root_refines _ _ _ _ Href) in Ha as (ai1 & Ha & Href1); [|by destruct Hop].
    intros (ai' & Hrun & Href')%(IH _ _ Href1); [|rewrite Hrefs; lia]. exists ai'.
    split; [|done]. simpl. rewrite Ha. done.
Qed.


(** ** Termination of the loop of [store_accounts] *)

#[local] Arguments end_of : simpl never.
#[local] Arguments account_ptrs : simpl never.

(** The room that an account takes in an empty file. *)
Definition item_size (i : StorageMeta * Account) : Z := end_of 0 (account_ptrs i.1 i.2).

Lemma align_up_mono x y : 0 ≤ x ≤ y → align_up x ≤ align_up y.
Proof. intros. rewrite !align_up_spec by lia. Z.div_mod_to_equations. lia. Qed.

Lemma end_of_mono vals x y : 0 ≤ x ≤ y → end_of x vals ≤ end_of y vals.
Proof.
  revert x y. induction vals as [|val vals IH]; intros x y Hxy; [unfold end_of; simpl; lia|].
  apply (IH (align_up x + Z.of_nat (length val)) (align_up y + Z.of_nat (length val))).
  pose proof (align_up_mono x y Hxy). pose proof (align_up_bounds x). lia.
Qed.

(** Only accounts that fit an empty file are ever appended. *)
Lemma append_accounts_fit accts v items rvs v' :
  holds v items → Forall item_ok accts → append_accounts v accts = (rvs, v') →
  Forall (λ i, item_size i ≤ file_size v) (take (length rvs) accts).
Proof.
  intros Hh Hok. revert v items rvs Hh.
  induction Hok as [|[m a] accts Hi _ IH]; intros v items rvs Hh; simpl.
  { intros [= <- <-]. constructor. }
  destruct (append_ptrs_locked v _) as [[pos v1]|] eqn:Ha; [|intros [= <- <-]; constructor].
  destruct (append_accounts v1 accts) as [rv v2] eqn:Hr. intros [= <- <-].
  destruct (holds_append _ _ (m, a) _ _ Hh Hi Ha) as [Hh1 Hf1]. simpl.
  constructor; [|rewrite <- Hf1; by eapply IH].
  unfold append_ptrs_locked in Ha.
  destruct (Z.ltb_spec (file_size v) (end_of (append_offset v) (account_ptrs m a))); [done|].
  pose proof (end_of_mono (account_ptrs m a) 0 (append_offset v)) as Hmono.
  pose proof (h_fits _ _ Hh). unfold item_size. simpl. lia.
Qed.

Lemma append_accounts_nil v i accts v' :
  append_accounts v (i :: accts) = ([], v') → v' = v ∧ file_size v < end_of (append_offset v) (account_ptrs i.1 i.2).
Proof.
  destruct i as [m a]. simpl. unfold append_ptrs_locked.
  destruct (Z.ltb_spec (file_size v) (end_of (append_offset v) (account_ptrs m a))).
  - intros [= <-]. done.
  - destruct (append_ptrs _ _ _) as [v1 o]. by destruct (append_accounts _ _).
Qed.

(** Files that a turn can find too full: available, and written to. *)
Definition dirty (fork : Fork) (e : AccountStorageEntry) : Prop :=
  status e = StorageAvailable ∧ fork_id e = fork ∧ append_offset (entry_accounts e) ≠ 0.
Global Instance dirty_dec fork e : Decision (dirty fork e).
Proof. unfold dirty. apply _. Defined.

Definition n_dirty (fork : Fork) (s : AccountStorage) : nat :=
  length (filter (dirty fork) (entries_of s)).

Definition dirty1 (fork : Fork) (e : AccountStorageEntry) : nat :=
  if decide (dirty fork e) then 1%nat else 0%nat.

Lemma n_dirty_fresh fork s n e :
  s !! n = None → n_dirty fork (<[n := e]> s) = (dirty1 fork e + n_dirty fork s)%nat.
Proof.
  intros Hn. unfold n_dirty, entries_of.
  assert ((map_to_list (<[n := e]> s)).*2 ≡ₚ e :: (map_to_list s).*2) as ->
    by (by rewrite map_to_list_insert).
  rewrite filter_cons. unfold dirty1. by case_decide.
Qed.

Lemma n_dirty_insert fork s n e e' :
  s !! n = Some e → (n_dirty fork (<[n := e']> s) + dirty1 fork e = dirty1 fork e' + n_dirty fork s)%nat.
Proof.
  intros Hn. rewrite <- (insert_id s n e Hn) at 2. rewrite <- !(insert_delete_eq s n).
  rewrite !n_dirty_fresh by apply lookup_delete_eq. lia.
Qed.

(** A turn either stores an account or makes a full file unavailable. *)
Lemma store_turn_progress turn db rs fork i accts :
  db_inv db rs → Forall item_ok (i :: accts) → Z.of_nat (length rs + length (i :: accts)) < two64 →
  ∃ infos db', store_turn pick turn db fork (i :: accts) = Some (infos, db') ∧
    Forall (λ i, item_size i ≤ db_file_size db) (take (length infos) (i :: accts)) ∧
    (length infos ≤ length (i :: accts))%nat ∧
    (infos ≠ [] ∧ (n_dirty fork (storage db') ≤ S (n_dirty fork (storage db)))%nat ∨
     infos = [] ∧ (item_size i ≤ db_file_size db →
       (n_dirty fork (storage db') < n_dirty fork (storage db))%nat)).
Proof.
  intros Hinv Hok Hlt. unfold store_turn.
  destruct (fork_storage pick turn db fork) as [n db1] eqn:Hfs.
  apply (fork_storage_spec _ _ _ _ _ _ Hinv) in Hfs
    as (Hinv1 & _ & _ & Hsz & _ & e & He & Hfork & Hst & Hcase). rewrite He. cbn [mbind option_bind].
  destruct (di_entry _ _ Hinv1 _ _ He) as [_ [_ Hes _ (items & Hh & _)]].
  destruct (append_accounts (entry_accounts e) (i :: accts)) as [rvs v] eqn:Ha.
  fold (turn_infos n rvs (i :: accts)).
  pose proof (length_append_accounts _ _ _ _ Ha) as Hlr.
  pose proof (length_turn_infos n rvs (i :: accts) Hlr) as Hli.
  eexists _, _. split; [done|]. rewrite Hli. split_and!; [|done|].
  { rewrite <- Hsz, <- Hes. by eapply append_accounts_fit. }
  assert (n_dirty fork (storage db1) = n_dirty fork (storage db) ∧ (db1 = db ∨ ¬ dirty fork e)) as [Hd1 Hnew].
  { destruct Hcase as [[_ ->]|(Hnone & -> & _ & ->)]; [auto|].
    assert (¬ dirty fork (AccountStorageEntry_new fork n (db_file_size db))) as Hnd by (by intros (_ & _ & ?)).
    rewrite n_dirty_fresh by done. unfold dirty1. rewrite decide_False by done. auto. }
  cbn [storage with_storage]. destruct rvs as [|r rvs].
  - right. split; [by apply length_zero_iff_nil|]. intros Hfit. apply append_accounts_nil in Ha as [-> Hfull].
    assert (append_offset (entry_accounts e) ≠ 0) as Hoff.
    { intros H0. rewrite H0, Hes, Hsz in Hfull. unfold item_size in Hfit. lia. }
    set (e' := foldl _ _ _). assert (dirty1 fork e' = 0%nat) as He'.
    { unfold dirty1. rewrite decide_False; [done|]. unfold e'. cbn. unfold set_status. cbn.
      by destruct (count e =? 0); intros (? & _ & ?). }
    assert (dirty1 fork e = 1%nat) as Hde by (unfold dirty1; by rewrite decide_True).
    pose proof (n_dirty_insert fork _ _ _ e' He). lia.
  - left. split; [by intros Hnil; rewrite Hnil in Hli|]. set (e' := foldl _ _ _).
    assert (dirty1 fork e' ≤ 1)%nat by (unfold dirty1; case_decide; lia).
    pose proof (n_dirty_insert fork _ _ _ e' He). lia.
Qed.

Lemma store_loop_returns fuel turn db rs fork accts :
  db_inv db rs → Forall item_ok accts → Z.of_nat (length rs + length accts) < two64 →
  Forall (λ i, item_size i ≤ db_file_size db) accts →
  (2 * length accts + n_dirty fork (storage db) ≤ fuel)%nat →
  is_Some (store_loop pick fuel turn db fork accts).
Proof.
  revert turn db rs accts. induction fuel as [|fuel IH];
    intros turn db rs accts Hinv Hok Hlt Hfit Hfuel; destruct accts as [|i accts]; eauto;
    [simpl in Hfuel; lia|].
  destruct (store_turn_progress turn db rs fork i accts Hinv Hok Hlt)
    as (infos & db' & Ht & _ & Hlen & Hprog).
  pose proof (store_turn_spec _ _ _ _ _ _ _ Hinv Hok Hlt Ht) as [Hi1 _ Hs1 _ _ _].
  cbn [store_loop]. rewrite Ht. cbn [mbind option_bind].
  assert (is_Some (store_loop pick fuel (S turn) db' fork (drop (length infos) (i :: accts))))
    as [[infos' db''] ->]; [|eauto].
  apply (IH _ _ (rs ++ (pair fork <$> infos))); [done|by apply Forall_drop| | |].
  - rewrite length_app, length_fmap, length_drop. lia.
  - rewrite Hs1. by apply Forall_drop.
  - rewrite length_drop. apply Forall_cons in Hfit as [Hi _].
    assert (infos ≠ [] → (1 ≤ length infos)%nat) by (destruct infos; simpl; [done|lia]).
    destruct Hprog as [[? ?]|[-> ?]]; simpl in *; naive_solver lia.
Qed.

Lemma store_loop_diverges fuel turn db rs fork accts :
  db_inv db rs → Forall item_ok accts → Z.of_nat (length rs + length accts) < two64 →
  ¬ Forall (λ i, item_size i ≤ db_file_size db) accts →
  store_loop pick fuel turn db fork accts = None.
Proof.
  revert turn db rs accts. induction fuel as [|fuel IH];
    intros turn db rs accts Hinv Hok Hlt Hfit; destruct accts as [|i accts]; try done;
    try (by destruct Hfit).
  destruct (store_turn_progress turn db rs fork i accts Hinv Hok Hlt)
    as (infos & db' & Ht & Hfits & Hlen & _).
  pose proof (store_turn_spec _ _ _ _ _ _ _ Hinv Hok Hlt Ht) as [Hi1 _ Hs1 _ _ _].
  cbn [store_loop]. rewrite Ht. cbn [mbind option_bind].
  rewrite (IH _ _ (rs ++ (pair fork <$> infos))); [done|done|by apply Forall_drop| |].
  - rewrite length_app, length_fmap, length_drop. lia.
  - rewrite Hs1. intros Hrest. destruct Hfit.
    rewrite <- (take_drop (length infos) (i :: accts)). by apply Forall_app.
Qed.

(** The size of an account in a file: two headers and its data, each aligned
    to 8 bytes. *)
Definition account_size (a : Account) : Z :=
  align_up (align_up (type_size StorageMeta) + type_size AccountBalance) +
  (if difs a =? 0 then 0 else Z.of_nat (length (data a))).

Lemma with_meta_sizes accts w l w' fs :
  with_meta w accts = (l, w') →
  Forall (λ i, item_size i ≤ fs) l ↔ Forall (λ p, account_size p.2 ≤ fs) accts.
Proof.
  revert w l. induction accts as [|[k a] accts IH]; intros w l; simpl.
  { intros [= <- <-]. by rewrite !Forall_nil. }
  destruct (with_meta _ accts) as [l' w''] eqn:Hr. intros [= <- <-].
  rewrite !Forall_cons, (IH _ _ Hr). unfold item_size, end_of, account_ptrs, account_size. simpl.
  rewrite !length_to_bytes, length_take.
  destruct (difs a =? 0); simpl; [done|]. by rewrite Nat2Z.id, Nat.min_id.
Qed.

Lemma store_fits db ai fork accts :
  refines db ai → Forall acct_ok accts →
  Z.of_nat (length (index_refs (index db)) + length accts) < two64 →
  (Forall (λ p, account_size p.2 ≤ db_file_size db) accts → ∀ fuel,
     (2 * length accts + n_dirty fork (storage db) ≤ fuel)%nat →
     is_Some (store pick fuel db fork accts)) ∧
  (¬ Forall (λ p, account_size p.2 ≤ db_file_size db) accts → ∀ fuel,
     store pick fuel db fork accts = None).
Proof.
  intros Href Hok Hlt. pose proof (rf_inv _ _ Href) as Hinv.
  destruct (with_meta (db_write_version db) accts) as [l w'] eqn:Hwm.
  destruct (with_meta_ok _ _ _ _ (rf_version _ _ Href) Hok Hwm) as (Hit & Hkept & _).
  assert (length l = length accts) as Hll
    by (apply (f_equal length) in Hkept; by rewrite !length_fmap in Hkept).
  rewrite <- (with_meta_sizes _ _ _ _ (db_file_size db) Hwm).
  set (db0 := mkDB (index db) (storage db) (next_id db) w' (db_file_size db)).
  assert (db_inv db0 (index_refs (index db))) as Hinv0 by (destruct Hinv; by split).
  assert (∀ fuel, store_accounts pick fuel db fork accts = store_loop pick fuel 0 db0 fork l) as Hsa
    by (intros fuel; unfold store_accounts; by rewrite Hwm).
  split; intros Hfit fuel.
  - intros Hfuel. destruct (store_loop_returns fuel 0 db0 _ fork l Hinv0 Hit) as [[infos db1] Hl];
      [lia|done|rewrite Hll; done|]. rewrite <- Hsa in Hl.
    destruct (store_accounts_refines _ _ _ _ _ _ _ Href Hok Hlt Hl) as (db' & -> & _). eauto.
  - unfold store. rewrite Hsa, (store_loop_diverges fuel 0 db0 _ fork l Hinv0 Hit) by (done || lia).
    done.
Qed.

(** [store] returns if and only if every account fits an empty file:
    then a number of turns that is linear in the accounts and in the files
    is enough, and no assertion fails; and if an account is larger than a
    file, the loop never ends. *)
Theorem store_returns_iff_fits db ai fork accts :
  refines db ai → Forall acct_ok accts →
  Z.of_nat (length (index_refs (index db)) + length accts) < two64 →
  (Forall (λ p, account_size p.2 ≤ db_file_size db) accts → ∀ fuel,
     (2 * length accts + n_dirty fork (storage db) ≤ fuel)%nat →
     is_Some (store pick fuel db fork accts)) ∧
  (¬ Forall (λ p, account_size p.2 ≤ db_file_size db) accts → ∀ fuel,
     store pick fuel db fork accts = None).
Proof. apply store_fits. Qed.
End proofs.

(** ** Witnesses *)

#[local] Existing Instances meta_ranged meta_layout meta_laws.
#[local] Existing Instances balance_ranged balance_layout balance_laws.

Definition demo_pick (turn : nat) (l : list Z) : Z := default 0 (head l).

Lemma demo_pick_in turn l : l ≠ [] → demo_pick turn l ∈ l.
Proof. destruct l; [done|]. intros _. simpl. set_solver. Qed.

(** Account 5 written in the rooted fork 0 and in its child 1, account 6
    written and emptied. *)
Definition demo_ops : list db_op :=
  [DbStore 0 [(5, mkAccount 10 0 [1; 2; 3] 7 false); (6, mkAccount 20 0 [4] 7 false)];
   DbAddRoot 0;
   DbStore 1 [(5, mkAccount 9 0 [1; 2; 4] 7 false); (6, mkAccount 0 1 [4] 7 false)]].

Definition demo_db : AccountsDB :=
  Eval vm_compute in
    default (new_with_file_size 300) (db_run demo_pick 9 (new_with_file_size 300) demo_ops).

Lemma demo_db_run : db_run demo_pick 9 (new_with_file_size 300) demo_ops = Some demo_db.
Proof. vm_compute. reflexivity. Qed.

Lemma demo_acct_ok k a :
  0 ≤ k < 256 ^ 32 → in_range (balance_of a) → is_u64 (Z.of_nat (length (data a))) → acct_ok (k, a).
Proof.
  intros Hk Hb Hd. split_and!; [done|done|]. intros w n Hw Hn. unfold is_u64 in *.
  split; [|split]; simpl; [lia|done|lia].
Qed.

Lemma demo_ops_ok : Forall db_op_ok demo_ops.
Proof.
  repeat constructor; try done; apply demo_acct_ok; try done; repeat constructor; by vm_compute.
Qed.


Lemma demo_new_refines : refines (new_with_file_size 300) AccountsIndex_default.
Proof. split; [by apply new_db_inv|done..|set_solver|done]. Qed.

Lemma store_returns_iff_fits_witness :
  is_Some (store demo_pick 2 (new_with_file_size 300) 0 [(5, mkAccount 10 0 [1; 2; 3] 7 false)]) ∧
  ∀ fuel, store demo_pick fuel (new_with_file_size 300) 0
    [(5, mkAccount 10 0 (replicate 200 0) 7 false)] = None.
Proof.
  split.
  - apply (store_returns_iff_fits demo_pick demo_pick_in _ AccountsIndex_default);
      [apply demo_new_refines| |done| |vm_compute; lia].
    + constructor; [|done]. apply demo_acct_ok; by vm_compute.
    + constructor; [by vm_compute|done].
  - apply (store_returns_iff_fits demo_pick demo_pick_in _ AccountsIndex_default);
      [apply demo_new_refines| |done|].
    + constructor; [|done]. apply demo_acct_ok; by vm_compute.
    + intros Hf. apply Forall_cons in Hf as [Hf _]. by vm_compute in Hf.
Defined.

End accounts_db_proofs.
