(* ===== verification/Accounts.v ===== *)
(** The accounts of a bank (src/runtime/src/accounts.rs): loading the
    accounts and the loaders of transactions, locking them against other
    transactions, storing them back, and hashing the state of a fork.

    The database that the accounts come from is the argument [load_account],
    [AccountsDB::load] for the ancestors of the bank.  Module [accounts] has
    the operations; module [accounts_proofs] shows what loading checks and
    charges, that the chain of loaders is sound and bounded, and that the
    locks exclude conflicting transactions, with the flaw of [unlock_account]
    that breaks this. *)
From Stdlib Require Import Sorting.Sorted.
From stdpp Require Import sorting.
From S2P Require Import Prelude Interface Message MessageProcessor AccountsIndex AppendVec AccountsDB.

Module accounts.
Import append_vec message transaction fee_calculator message_processor.

Notation AccountLocks := (gset Pubkey).

(** A panic of one transaction of a batch is the panic of the batch. *)
Notation TxResult A := (res TransactionError A).

Section loading.
Context (load_account : Pubkey → option Account).

Definition load_or_default (key : Pubkey) : Account :=
  default Account_default (load_account key).

Definition load_tx_accounts (tx : Transaction) (fee : Z) : TxResult (list Account) :=
  let message := tx.(tx_message) in
  if bool_decide (tx.(signatures) = []) && negb (fee =? 0) then Err MissingSignatureForFee
  else if has_duplicates message.(account_keys) then Err AccountLoadedTwice
  else
    program_ids ← (match message.(account_keys) with [] => Ok [] | _ => program_ids message end);
    let called_accounts :=
      load_or_default <$> filter (λ key, key ∉ program_ids) message.(account_keys) in
    match called_accounts with
    | [] => Err AccountNotFound
    | payer :: rest =>
        if payer.(difs) =? 0 then Err AccountNotFound
        else if negb (payer.(owner) =? system_program.id) then Err InvalidAccountForFee
        else if payer.(difs) <? fee then Err InsufficientFundsForFee
        else Ok (with_difs (u64_sub payer.(difs) fee) payer :: rest)
    end.

(** The loop of [load_executable_accounts]; [depth] counts down from 5. *)
Fixpoint load_chain (depth : nat) (program_id : Pubkey) (accounts : list (Pubkey * Account))
    : TxResult (list (Pubkey * Account)) :=
  if native_loader.check_id program_id then Ok accounts
  else
    match depth with
    | O => Err CallChainTooDeep
    | S depth =>
        match load_account program_id with
        | None => Err ProgramAccountNotFound
        | Some program =>
            if negb program.(executable) || (program.(owner) =? Pubkey_default)
            then Err AccountNotFound
            else load_chain depth program.(owner) ((program.(owner), program) :: accounts)
        end
    end.

Definition load_executable_accounts (program_id : Pubkey) : TxResult (list (Pubkey * Account)) :=
  load_chain 5 program_id [].

Definition load_loaders (tx : Transaction) : TxResult (list (list (Pubkey * Account))) :=
  let message := tx.(tx_message) in
  mapR (λ ix,
    match message.(account_keys) !! Z.to_nat ix.(program_ids_index) with
    | None => Err AccountNotFound
    | Some program_id => load_executable_accounts program_id
    end) message.(instructions).

Definition load_accounts (txs : list Transaction) (lock_results : list (TxResult unit))
    (f : FeeCalculator) : list (TxResult (list Account * list (list (Pubkey * Account)))) :=
  zip_with (λ tx r,
    r;;
    let fee := calculate_fee f tx.(tx_message) in
    accounts ← load_tx_accounts tx fee;
    loaders ← load_loaders tx;
    Ok (accounts, loaders)) txs lock_results.
End loading.

(** [Accounts::load_slow] *)
Definition load_slow `{!Layout StorageMeta, !Layout AccountBalance} (db : accounts_db.AccountsDB)
    (ancestors : gmap Z Z) (pubkey : Pubkey) : option (Account * Z) :=
  '(account, fork) ← accounts_db.load_slow db ancestors pubkey;
  if account.(difs) =? 0 then None else Some (account, fork).

(** ** Locks *)

Record Locks := mkLocks {
  account_locks : AccountLocks;
  record_locks : AccountLocks;
  parent_record_locks : list AccountLocks;
}.

(** Checks the keys in order.  The thread waits while a parent bank records
    a key: [None].  Parents that have released all their locks are forgotten. *)
Fixpoint check_locks (fork_locks : AccountLocks) (parents : list AccountLocks) (keys : list Pubkey)
    : option (TxResult unit * list AccountLocks) :=
  match keys with
  | [] => Some (Ok tt, parents)
  | k :: keys =>
      if bool_decide (k ∈ fork_locks) then Some (Err AccountInUse, parents)
      else if existsb (λ p, bool_decide (k ∈ p)) parents then None
      else check_locks fork_locks (filter (λ p : AccountLocks, p ≠ ∅) parents) keys
  end.

Definition lock_account (l : Locks) (keys : list Pubkey) : option (TxResult unit * Locks) :=
  '(r, parents) ← check_locks l.(account_locks) l.(parent_record_locks) keys;
  let locks := if is_ok r then list_to_set keys ∪ l.(account_locks) else l.(account_locks) in
  Some (r, mkLocks locks l.(record_locks) parents).

(** [&account_keys[..(len - num_credit_only_unsigned_accounts)]], which panics
    when the subtraction wraps. *)
Definition locked_keys {E} (m : Message) : res E (list Pubkey) :=
  let n := Z.of_nat (length m.(account_keys)) - m.(header).(num_credit_only_unsigned_accounts) in
  if n <? 0 then Panic else Ok (take (Z.to_nat n) m.(account_keys)).

Definition lock_tx (l : Locks) (tx : Transaction) : option (TxResult unit * Locks) :=
  match locked_keys (E:=TransactionError) tx.(tx_message) with
  | Ok keys => lock_account l keys
  | _ => Some (Panic, l)
  end.

Fixpoint lock_accounts (l : Locks) (txs : list Transaction)
    : option (list (TxResult unit) * Locks) :=
  match txs with
  | [] => Some ([], l)
  | tx :: txs =>
      '(r, l) ← lock_tx l tx;
      '(rs, l) ← lock_accounts l txs;
      Some (r :: rs, l)
  end.

(** [None] is the failed assertion. *)
Fixpoint lock_record_account (locks : AccountLocks) (keys : list Pubkey) : option AccountLocks :=
  match keys with
  | [] => Some locks
  | k :: keys =>
      if bool_decide (k ∈ locks) then None else lock_record_account ({[k]} ∪ locks) keys
  end.

Fixpoint lock_record_accounts (l : Locks) (txs : list Transaction) : option Locks :=
  match txs with
  | [] => Some l
  | tx :: txs =>
      match locked_keys (E:=TransactionError) tx.(tx_message) with
      | Ok keys =>
          locks ← lock_record_account l.(record_locks) keys;
          lock_record_accounts (mkLocks l.(account_locks) locks l.(parent_record_locks)) txs
      | _ => None
      end
  end.

Definition unlock_account (tx : Transaction) (result : TxResult unit) (locks : AccountLocks)
    : AccountLocks :=
  match result with
  | Err AccountInUse => locks
  | _ => locks ∖ list_to_set tx.(tx_message).(account_keys)
  end.

Definition unlock_accounts (l : Locks) (txs : list Transaction) (results : list (TxResult unit))
    : Locks :=
  mkLocks
    (foldl (λ locks '(tx, result), unlock_account tx result locks) l.(account_locks)
       (zip txs results))
    l.(record_locks) l.(parent_record_locks).

Definition unlock_record_accounts (l : Locks) (txs : list Transaction) : Locks :=
  mkLocks l.(account_locks)
    (foldl (λ locks tx, locks ∖ list_to_set tx.(tx_message).(account_keys)) l.(record_locks) txs)
    l.(parent_record_locks).

(** The locks of a child bank, and what is left of those of the parent. *)
Definition locks_from_parent (parent : Locks) : Locks * Locks :=
  (mkLocks ∅ ∅ (filter (λ p : AccountLocks, p ≠ ∅) (parent.(record_locks) :: parent.(parent_record_locks))),
   mkLocks parent.(account_locks) parent.(record_locks) []).

(** ** Storing *)

(** The pairs that [store_accounts] hands to the database. *)
Definition accounts_to_store {L} (txs : list Transaction) (res : list (TxResult unit))
    (loaded : list (TxResult (list Account * L))) : list (Pubkey * Account) :=
  mjoin (zip_with (λ '(tx, r) raccs,
    match r, raccs with
    | Ok _, Ok acc => zip tx.(tx_message).(account_keys) acc.1
    | _, _ => []
    end) (zip txs res) loaded).

(** ** Scanning a fork *)

Definition as_i64 (z : Z) : Z := if z <? 2 ^ 63 then z else z - two64.
(** [i64::neg], which wraps at the least integer. *)
Definition i64_neg (z : Z) : Z := if z =? - 2 ^ 63 then z else - z.

(** The order of [sort_by_key(|s| (s.0, (s.1 as i64).neg()))]. *)
Definition version_le {A} (x y : Pubkey * Z * A) : bool :=
  let '(k, v, _) := x in
  let '(k', v', _) := y in
  (k <? k') || ((k =? k') && (i64_neg (as_i64 v) <=? i64_neg (as_i64 v'))).

Fixpoint insert_version {A} (x : Pubkey * Z * A) (l : list (Pubkey * Z * A)) : list (Pubkey * Z * A) :=
  match l with
  | [] => [x]
  | y :: l' => if version_le x y then x :: l else y :: insert_version x l'
  end.

(** The stable sort. *)
Definition sort_versions {A} (l : list (Pubkey * Z * A)) : list (Pubkey * Z * A) :=
  foldr insert_version [] l.

(** [dedup_by_key(|s| s.0)]: the first of consecutive elements of a key. *)
Fixpoint dedup_from {A} (last : option Pubkey) (l : list (Pubkey * Z * A)) : list (Pubkey * Z * A) :=
  match l with
  | [] => []
  | x :: l => if bool_decide (last = Some x.1.1) then dedup_from last l
              else x :: dedup_from (Some x.1.1) l
  end.

Section scanning.
Context `{!Layout StorageMeta, !Layout AccountBalance}.
(** [Hasher]: the hash of the concatenation of some byte strings. *)
Context (hash_all : list (list Z) → Hash) (hash_bytes : Hash → list Z).
(** [serialize(&stored_account.balance)] *)
Context (serialize_balance : AccountBalance → list Z).

Definition scan (db : accounts_db.AccountsDB) (fork : Z) : res unit (list StoredAccount) :=
  l ← mapR (λ r, r) (accounts_db.scan_account_storage db fork); Ok (mjoin (M:=list) l).

Definition latest_versions {A} (f : StoredAccount → A) (l : list StoredAccount)
    : list (Pubkey * Z * A) :=
  dedup_from None (sort_versions
    ((λ s, (s.(sa_meta).(meta_pubkey), s.(sa_meta).(write_version), f s)) <$> l)).

Definition load_by_program (db : accounts_db.AccountsDB) (fork : Z) (program_id : Pubkey)
    : res unit (list (Pubkey * Account)) :=
  l ← scan db fork;
  Ok ((λ s : Pubkey * Z * Account, (s.1.1, s.2)) <$>
    latest_versions clone_account
      (filter (λ s, s.(sa_balance).(bal_owner) = program_id) l)).

Definition hash_account (s : StoredAccount) : Hash :=
  hash_all [serialize_balance s.(sa_balance); s.(sa_data)].

(** The hash of the scanned accounts. *)
Definition hash_scanned (l : list StoredAccount) : option Hash :=
  match latest_versions hash_account l with
  | [] => None
  | hs => Some (hash_all ((λ h : Pubkey * Z * Hash, hash_bytes h.2) <$> hs))
  end.

Definition hash_internal_state (db : accounts_db.AccountsDB) (fork : Z) : res unit (option Hash) :=
  l ← scan db fork; Ok (hash_scanned l).
End scanning.

End accounts.

Module accounts_proofs.
Import append_vec message transaction fee_calculator message_processor accounts.

(** ** Loading *)

Section loading.
Context (load_account : Pubkey → option Account).

(** The programs that have to run to run [program_id], up to the native
    loader: each is an executable account whose owner is the next. *)
Inductive loaders_of : Pubkey → list (Pubkey * Account) → Prop :=
| loaders_native : loaders_of native_loader.id []
| loaders_step program_id program chain :
    program_id ≠ native_loader.id → load_account program_id = Some program →
    executable program = true → owner program ≠ Pubkey_default →
    loaders_of (owner program) chain →
    loaders_of program_id ((owner program, program) :: chain).

Lemma load_chain_sound depth pid acc l :
  load_chain load_account depth pid acc = Ok l →
  ∃ chain, l = reverse chain ++ acc ∧ loaders_of pid chain ∧ (length chain ≤ depth)%nat.
Proof.
  revert pid acc. induction depth as [|depth IH]; intros pid acc; cbn [load_chain];
    unfold native_loader.check_id; destruct (Z.eqb_spec pid native_loader.id) as [->|Hne].
  - intros [= <-]. exists []. split_and!; [done|constructor|done].
  - done.
  - intros [= <-]. exists []. split_and!; [done|constructor|simpl; lia].
  - destruct (load_account pid) as [p|] eqn:Hp; [|done].
    destruct (executable p) eqn:He, (Z.eqb_spec (owner p) Pubkey_default) as [|Ho]; simpl; try done.
    intros (chain & -> & Hc & Hl)%IH. exists ((owner p, p) :: chain).
    rewrite reverse_cons, <- app_assoc. split_and!; [done|by constructor|simpl; lia].
Qed.

Lemma load_chain_complete depth pid chain acc :
  loaders_of pid chain → (length chain ≤ depth)%nat →
  load_chain load_account depth pid acc = Ok (reverse chain ++ acc).
Proof.
  intros Hc. revert depth acc. induction Hc as [|pid p chain Hne Hp He Ho _ IH]; intros depth acc Hl.
  - by destruct depth; cbn; unfold native_loader.check_id; rewrite Z.eqb_refl.
  - destruct depth as [|depth]; [simpl in Hl; lia|]. cbn [load_chain].
    unfold native_loader.check_id. rewrite (proj2 (Z.eqb_neq _ _)), Hp, He by done.
    rewrite (proj2 (Z.eqb_neq _ _)) by done. simpl. rewrite IH by (simpl in Hl; lia).
    by rewrite reverse_cons, <- app_assoc.
Qed.

(** Loading the loaders of a program succeeds exactly when its chain of
    loaders reaches the native loader within five steps through executable
    accounts, and returns that chain, the native end first. *)
Theorem loaders_spec pid l :
  load_executable_accounts load_account pid = Ok l ↔
  ∃ chain, l = reverse chain ∧ loaders_of pid chain ∧ (length chain ≤ 5)%nat.
Proof.
  unfold load_executable_accounts. split.
  - intros (chain & -> & ? & ?)%load_chain_sound. exists chain. by rewrite app_nil_r.
  - intros (chain & -> & Hc & Hl). by rewrite (load_chain_complete 5 pid chain), app_nil_r.
Qed.

(** What is loaded for a transaction before the fee is taken. *)
Definition called_accounts (tx : Transaction) (pids : list Pubkey) : list Account :=
  load_or_default load_account <$> filter (λ key, key ∉ pids) tx.(tx_message).(account_keys).

Record tx_loaded (tx : Transaction) (fee : Z) (accs : list Account) (pids : list Pubkey)
    (payer : Account) (rest : list Account) : Prop := {
  tl_signed : signatures tx = [] → fee = 0;
  tl_nodup : NoDup tx.(tx_message).(account_keys);
  tl_programs : program_ids (E:=TransactionError) tx.(tx_message) = Ok pids;
  tl_called : called_accounts tx pids = payer :: rest;
  tl_funds : difs payer ≠ 0 ∧ fee ≤ difs payer;
  tl_owner : owner payer = system_program.id;
  tl_accs : accs = with_difs (u64_sub (difs payer) fee) payer :: rest;
}.

Lemma load_tx_inv tx fee accs :
  load_tx_accounts load_account tx fee = Ok accs →
  ∃ pids payer rest, tx_loaded tx fee accs pids payer rest.
Proof.
  unfold load_tx_accounts. destruct (bool_decide (signatures tx = []) && _) eqn:Hsig; [done|].
  destruct (has_duplicates _) eqn:Hd; [done|].
  destruct (account_keys (tx_message tx)) as [|k ks] eqn:Hk; [done|]. rewrite <- Hk in *.
  destruct (program_ids (tx_message tx)) as [pids| |] eqn:Hp; [|done..]. simpl.
  fold (called_accounts tx pids). destruct (called_accounts tx pids) as [|payer rest] eqn:Hc; [done|].
  destruct (Z.eqb_spec (difs payer) 0); [done|].
  destruct (Z.eqb_spec (owner payer) system_program.id); [|done]. simpl.
  destruct (Z.ltb_spec (difs payer) fee); [done|]. intros [= <-].
  exists pids, payer, rest. split; [|by apply processor_proofs.has_duplicates_spec|done..].
  intros Hs. rewrite bool_decide_true in Hsig by done. simpl in Hsig.
  by apply negb_false_iff, Z.eqb_eq in Hsig.
Qed.

(** The fee is charged when a transaction is loaded: what is loaded are
    the accounts of its keys that are not programs, without duplicates, and
    exactly the fee is missing from the first, a system account that had
    enough funds; an unsigned transaction is only loaded when it is free. *)
Theorem load_charges_fee tx fee accs :
  load_tx_accounts load_account tx fee = Ok accs → 0 ≤ fee →
  (∀ k a, load_account k = Some a → is_u64 (difs a)) →
  ∃ pids, program_ids (E:=TransactionError) tx.(tx_message) = Ok pids ∧
    NoDup tx.(tx_message).(account_keys) ∧
    Zsum (difs <$> accs) = Zsum (difs <$> called_accounts tx pids) - fee ∧
    tail accs = tail (called_accounts tx pids) ∧
    (∀ payer, head accs = Some payer → owner payer = system_program.id ∧ is_u64 (difs payer)) ∧
    (signatures tx = [] → fee = 0).
Proof.
  intros (pids & payer & rest & H)%load_tx_inv Hfee Hload. exists pids.
  destruct (tl_funds _ _ _ _ _ _ H) as [Hne Hle].
  assert (is_u64 (difs payer)) as Hp.
  { assert (payer ∈ called_accounts tx pids) as Hin by (rewrite (tl_called _ _ _ _ _ _ H); set_solver).
    apply list_elem_of_fmap in Hin as (k & -> & _). unfold load_or_default in *.
    destruct (load_account k) eqn:Hk; [by eapply Hload|]. simpl in Hne. done. }
  rewrite (tl_called _ _ _ _ _ _ H), (tl_accs _ _ _ _ _ _ H). simpl.
  rewrite u64_sub_exact by done. split_and!; [apply H|apply H|simpl; lia|done| |apply H].
  intros p [= <-]. simpl. split; [apply H|]. unfold is_u64 in *. lia.
Qed.
End loading.

(** ** Locking *)

Lemma check_locks_spec locks parents keys r parents' :
  check_locks locks parents keys = Some (r, parents') →
  r = Ok tt ∧ (∀ k, k ∈ keys → k ∉ locks) ∨ r = Err AccountInUse ∧ ∃ k, k ∈ keys ∧ k ∈ locks.
Proof.
  revert parents. induction keys as [|k keys IH]; intros parents; simpl.
  { intros [= <- <-]. left. set_solver. }
  case_bool_decide; [intros [= <- <-]; right; set_solver|].
  destruct (existsb _ _); [done|]. intros [[-> ?]|[-> ?]]%IH; [left|right]; set_solver.
Qed.

(** The [i]-th transaction was granted the keys [ks]. *)
Definition granted (txs : list Transaction) (rs : list (TxResult unit)) (i : nat)
    (ks : list Pubkey) : Prop :=
  ∃ tx, txs !! i = Some tx ∧ rs !! i = Some (Ok tt) ∧
    locked_keys (E:=TransactionError) tx.(tx_message) = Ok ks.

Lemma lock_tx_spec l tx r l' :
  lock_tx l tx = Some (r, l') →
  (∃ ks, locked_keys (E:=TransactionError) tx.(tx_message) = Ok ks ∧ r = Ok tt ∧
     account_locks l' = list_to_set ks ∪ account_locks l ∧ ∀ k, k ∈ ks → k ∉ account_locks l) ∨
  (r ≠ Ok tt ∧ account_locks l' = account_locks l).
Proof.
  unfold lock_tx, lock_account. destruct (locked_keys _) as [ks| |]; [|by intros [= <- <-]; right..].
  destruct (check_locks _ _ ks) as [[r0 parents]|] eqn:Hc; [|done]. simpl. intros [= <- <-].
  apply check_locks_spec in Hc as [[-> Hk]|[-> _]]; simpl; [left; eauto 10|by right].
Qed.

Lemma granted_cons tx txs r rs i ks :
  granted (tx :: txs) (r :: rs) i ks ↔
  (i = 0%nat ∧ r = Ok tt ∧ locked_keys (E:=TransactionError) tx.(tx_message) = Ok ks) ∨
  ∃ i', i = S i' ∧ granted txs rs i' ks.
Proof. unfold granted. destruct i; simpl; naive_solver. Qed.

Lemma lock_accounts_spec txs l rs l' :
  lock_accounts l txs = Some (rs, l') →
  (∀ i ks k, granted txs rs i ks → k ∈ ks → k ∉ account_locks l) ∧
  (∀ i j ks ks' k, granted txs rs i ks → granted txs rs j ks' → k ∈ ks → k ∈ ks' → i = j) ∧
  (∀ k, k ∈ account_locks l' ↔ k ∈ account_locks l ∨ ∃ i ks, granted txs rs i ks ∧ k ∈ ks).
Proof.
  revert l rs. induction txs as [|tx txs IH]; intros l rs; simpl.
  { intros [= <- <-]. assert (∀ i ks, ¬ granted [] [] i ks) as Hno by (by intros i ks (? & ? & _)).
    split_and!; naive_solver. }
  destruct (lock_tx l tx) as [[r l1]|] eqn:H1; [|done]. simpl.
  destruct (lock_accounts l1 txs) as [[rs' l2]|] eqn:H2; [|done]. simpl. intros [= <- <-].
  destruct (IH _ _ H2) as (Hfree & Hexcl & Hall). clear IH H2.
  setoid_rewrite granted_cons.
  apply lock_tx_spec in H1 as [(ks0 & Hks & -> & Hl1 & Hnew)|[Hr Hl1]].
  - setoid_rewrite Hl1 in Hall. rewrite Hl1 in Hfree.
    assert (∀ ks, locked_keys (E:=TransactionError) (tx_message tx) = Ok ks → ks = ks0) as Hfun by congruence.
    split_and!.
    + intros i ks k [(-> & _ & Hi%Hfun)|(i' & -> & Hi)] Hk; [subst; auto|].
      intros ?. apply (Hfree _ _ _ Hi Hk). set_solver.
    + intros i j ks ks' k [(-> & _ & Hi%Hfun)|(i' & -> & Hi)] [(-> & _ & Hj%Hfun)|(j' & -> & Hj)] Hk Hk';
        [done|exfalso; apply (Hfree _ _ _ Hj Hk'); set_solver
        |exfalso; apply (Hfree _ _ _ Hi Hk); set_solver|f_equal; by eapply Hexcl].
    + intros k. rewrite Hall, elem_of_union, elem_of_list_to_set. split.
      * intros [[Hin|?]|(i & ks & Hg & Hk)]; [|by left|].
        -- right. exists 0%nat, ks0. split; [left|]; done.
        -- right. exists (S i), ks. split; [right; by exists i|done].
      * intros [?|(i & ks & [(-> & _ & Hi%Hfun)|(i' & -> & Hi)] & Hk)]; subst; eauto 10.
  - setoid_rewrite Hl1 in Hall. rewrite Hl1 in Hfree. split_and!; naive_solver.
Qed.

(** The account locks exclude conflicts: the keys granted to a
    transaction of a batch were not locked before and are granted to no
    other transaction of the batch, and the locks afterwards are the old
    ones and the granted keys, so that a refused transaction locks nothing. *)
Theorem locks_exclusive txs l rs l' :
  lock_accounts l txs = Some (rs, l') →
  (∀ i ks k, granted txs rs i ks → k ∈ ks → k ∉ account_locks l) ∧
  (∀ i j ks ks' k, granted txs rs i ks → granted txs rs j ks' → k ∈ ks → k ∈ ks' → i = j) ∧
  (∀ k, k ∈ account_locks l' ↔ k ∈ account_locks l ∨ ∃ i ks, granted txs rs i ks ∧ k ∈ ks).
Proof. apply lock_accounts_spec. Qed.

Lemma elem_of_unlock txs rs locks k :
  k ∈ foldl (λ locks '(tx, result), unlock_account tx result locks) locks (zip txs rs) ↔
  k ∈ locks ∧ ∀ i tx r, txs !! i = Some tx → rs !! i = Some r → r ≠ Err AccountInUse →
    k ∉ account_keys (tx_message tx).
Proof.
  revert rs locks. induction txs as [|tx txs IH]; intros [|r rs] locks; simpl; try (split; naive_solver).
  rewrite IH. split.
  - intros [Hk Hrest]. split.
    + unfold unlock_account in Hk. destruct r as [|[]|]; set_solver.
    + intros [|i] tx' r'; simpl; [|eauto]. intros [= <-] [= <-] Hne.
      unfold unlock_account in Hk. destruct r as [|[]|]; set_solver.
  - intros [Hk Hall]. split; [|intros i; apply (Hall (S i))].
    specialize (Hall 0%nat tx r eq_refl eq_refl). unfold unlock_account. destruct r as [|[]|]; set_solver.
Qed.

(** Unlocking undoes locking, as long as the granted transactions name
    no key that was locked before, not even one that they only credit. *)
Theorem unlock_restores txs l rs l' :
  lock_accounts l txs = Some (rs, l') → Forall (λ r, r = Ok tt ∨ r = Err AccountInUse) rs →
  (∀ i tx k, txs !! i = Some tx → rs !! i = Some (Ok tt) → k ∈ account_keys (tx_message tx) →
     k ∉ account_locks l) →
  account_locks (unlock_accounts l' txs rs) = account_locks l.
Proof.
  intros (_ & _ & Hall)%lock_accounts_spec Hrs Hcredit. apply set_eq. intros k. simpl.
  rewrite elem_of_unlock, Hall. rewrite Forall_lookup in Hrs. split.
  - intros [[?|(i & ks & (tx & Htx & Hr & Hks) & Hk)] Hno]; [done|].
    destruct (Hno i tx _ Htx Hr); [done|]. unfold locked_keys in Hks. destruct (_ <? 0); [done|].
    injection Hks as <-. by eapply elem_of_take in Hk as (n & Hk%list_elem_of_lookup_2 & _).
  - intros Hk. split; [by left|]. intros i tx r Htx Hr Hne Hin.
    destruct (Hrs i r Hr) as [->| ->]; [|done]. by apply (Hcredit i tx k).
Qed.

(** Three transactions: the first only credits account 9, without its
    signature, the others debit it. *)
Definition demo_tx (payer : Pubkey) (credit_only : Z) : Transaction :=
  mkTransaction [] (mkMessage (mkMessageHeader 1 0 credit_only) [payer; 9] 0 []).
Definition no_locks : Locks := mkLocks ∅ ∅ [].

(** [unlock_account] frees locks that its transaction does not hold: it
    removes every key of the message, also the credit-only keys that
    [lock_accounts] did not lock.  While the second transaction still holds
    account 9, unlocking the first one lets the third one lock it too. *)
Theorem unlock_frees_foreign_lock :
  ∃ l1 l2, lock_accounts no_locks [demo_tx 1 1] = Some ([Ok tt], l1) ∧
    lock_accounts l1 [demo_tx 2 0] = Some ([Ok tt], l2) ∧
    lock_accounts l2 [demo_tx 3 0] = Some ([Err AccountInUse], l2) ∧
    ∃ l3, lock_accounts (unlock_accounts l2 [demo_tx 1 1] [Ok tt]) [demo_tx 3 0] = Some ([Ok tt], l3).
Proof.
  eexists _, _. split; [reflexivity|]. split; [reflexivity|]. split; [reflexivity|].
  eexists. reflexivity.
Qed.

Lemma locks_exclusive_witness :
  ∃ l', lock_accounts no_locks [demo_tx 1 0; demo_tx 2 0; demo_tx 3 1] =
      Some ([Ok tt; Err AccountInUse; Ok tt], l') ∧
    (9 ∈ account_locks l' ↔ 9 ∈ account_locks no_locks ∨ ∃ i ks,
       granted [demo_tx 1 0; demo_tx 2 0; demo_tx 3 1] [Ok tt; Err AccountInUse; Ok tt] i ks ∧ 9 ∈ ks).
Proof.
  eexists. split; [reflexivity|].
  apply (locks_exclusive [demo_tx 1 0; demo_tx 2 0; demo_tx 3 1] no_locks). reflexivity.
Defined.

Lemma unlock_restores_witness :
  ∃ l', lock_accounts no_locks [demo_tx 1 0; demo_tx 2 0] = Some ([Ok tt; Err AccountInUse], l') ∧
    account_locks (unlock_accounts l' [demo_tx 1 0; demo_tx 2 0] [Ok tt; Err AccountInUse]) = ∅.
Proof.
  eexists. split; [reflexivity|].
  apply (unlock_restores [demo_tx 1 0; demo_tx 2 0] no_locks); [reflexivity| |].
  - apply Forall_cons_2; [by left|]. apply Forall_cons_2; [by right|apply Forall_nil_2].
  - intros. apply not_elem_of_empty.
Defined.

(** A program 5 that a loader 6 of the native loader runs. *)
Definition demo_load (k : Pubkey) : option Account :=
  if k =? 5 then Some (mkAccount 1 0 [] 6 true)
  else if k =? 6 then Some (mkAccount 1 0 [] native_loader.id true)
  else if k =? 1 then Some (mkAccount 100 0 [] system_program.id false)
  else None.

Lemma load_charges_fee_witness :
  let tx := mkTransaction [[]] (mkMessage (mkMessageHeader 1 0 1) [1; 9; 5] 0
    [mkCompiledInstruction 2 [0; 1] []]) in
  load_tx_accounts demo_load tx 3 = Ok [mkAccount 97 0 [] system_program.id false; Account_default] ∧
  NoDup tx.(tx_message).(account_keys).
Proof.
  intros tx. split; [reflexivity|].
  destruct (load_charges_fee demo_load tx 3 [mkAccount 97 0 [] system_program.id false; Account_default])
    as (pids & _ & Hnd & _); [reflexivity|done| |exact Hnd].
  intros k a. unfold demo_load.
  destruct (k =? 5), (k =? 6), (k =? 1); intros [= <-]; done.
Defined.

(** ** Scanning *)

Section versions.
Context {A : Type}.
Notation version := (Pubkey * Z * A)%type.
Implicit Types x y : version.

(** The second component of the sorting key. *)
Definition rank (v : Z) : Z := i64_neg (as_i64 v).

Lemma rank_inj v w : is_u64 v → is_u64 w → rank v = rank w → v = w.
Proof.
  unfold is_u64, rank, i64_neg, as_i64. change (2 ^ 63) with 9223372036854775808. intros Hv Hw.
  destruct (Z.ltb_spec v 9223372036854775808), (Z.ltb_spec w 9223372036854775808);
    repeat case_match; lia.
Qed.

Lemma rank_le v w : 0 ≤ v < 2 ^ 63 → 0 ≤ w < 2 ^ 63 → rank v ≤ rank w → w ≤ v.
Proof.
  unfold rank, i64_neg, as_i64. change (2 ^ 63) with 9223372036854775808. intros Hv Hw.
  destruct (Z.ltb_spec v 9223372036854775808), (Z.ltb_spec w 9223372036854775808);
    repeat case_match; lia.
Qed.

Lemma version_le_spec x y :
  version_le x y ↔ x.1.1 < y.1.1 ∨ x.1.1 = y.1.1 ∧ rank x.1.2 ≤ rank y.1.2.
Proof.
  destruct x as [[k v] a], y as [[k' v'] a']. unfold version_le. fold (rank v) (rank v'). simpl.
  rewrite Is_true_true, orb_true_iff, andb_true_iff, Z.ltb_lt, Z.eqb_eq, Z.leb_le. done.
Qed.

Lemma insert_version_perm x l : insert_version x l ≡ₚ x :: l.
Proof.
  induction l as [|y l IH]; [done|]. simpl. destruct (version_le x y); [done|].
  rewrite IH. apply Permutation_swap.
Qed.

Lemma sort_versions_perm l : sort_versions (A:=A) l ≡ₚ l.
Proof. induction l as [|x l IH]; [done|]. simpl. by rewrite insert_version_perm, IH. Qed.

Lemma insert_version_sorted x l :
  StronglySorted (λ x y, version_le x y) l → StronglySorted (λ x y, version_le x y) (insert_version x l).
Proof.
  induction 1 as [|y l Hs IH Hf]; simpl; [by repeat constructor|].
  destruct (version_le x y) eqn:Hxy.
  - assert (version_le x y) as Hxy' by (by rewrite Hxy).
    constructor; [by constructor|]. constructor; [exact Hxy'|].
    apply (Forall_impl _ _ _ Hf). intros z Hyz. apply version_le_spec in Hxy', Hyz. apply version_le_spec. lia.
  - constructor; [done|]. rewrite insert_version_perm. constructor; [|done].
    assert (¬ version_le x y) as Hn by (rewrite Hxy; by intros []). rewrite version_le_spec in Hn.
    apply version_le_spec. lia.
Qed.

Lemma sort_versions_sorted l : StronglySorted (λ x y, version_le x y) (sort_versions (A:=A) l).
Proof. induction l as [|x l IH]; [constructor|]. by apply insert_version_sorted. Qed.

(** With distinct write versions the sort does not depend on the order. *)
Lemma sort_versions_unique l l' :
  l ≡ₚ l' → Forall (λ x, is_u64 x.1.2) l → NoDup ((λ x, x.1.2) <$> l) →
  sort_versions l = sort_versions l'.
Proof.
  intros Hp Hu Hnd. apply (StronglySorted_unique_strong (λ x y, version_le x y));
    [|apply sort_versions_sorted..|by rewrite !sort_versions_perm].
  intros x y. rewrite !sort_versions_perm, <- Hp, !version_le_spec. intros Hx Hy Hxy Hyx.
  rewrite Forall_forall in Hu. assert (x.1.2 = y.1.2) as Hv by (apply rank_inj; auto; lia).
  apply list_elem_of_lookup in Hx as [i Hi], Hy as [j Hj].
  assert (i = j) as ->; [|congruence].
  apply (NoDup_lookup _ _ _ x.1.2 Hnd); rewrite list_lookup_fmap; [by rewrite Hi|by rewrite Hj, Hv].
Qed.

Lemma dedup_spec l last :
  StronglySorted (λ x y, version_le x y) l → (∀ k y, last = Some k → y ∈ l → k ≤ y.1.1) →
  (∀ x, x ∈ dedup_from last l → x ∈ l ∧ last ≠ Some x.1.1 ∧ ∀ y, y ∈ l → y.1.1 = x.1.1 → version_le x y) ∧
  (∀ y, y ∈ l → last ≠ Some y.1.1 → ∃ x, x ∈ dedup_from last l ∧ x.1.1 = y.1.1).
Proof.
  intros Hs. revert last. induction Hs as [|z l Hs IH Hf]; intros last Hlast; simpl; [set_solver|].
  rewrite Forall_forall in Hf. case_bool_decide as Hz.
  - destruct (IH last) as [H1 H2]; [set_solver|]. split.
    + intros x (Hx & Hne & Hmin)%H1. split_and!; [set_solver|done|].
      intros y [->|Hy]%elem_of_cons Heq; [congruence|auto].
    + intros y [->|Hy]%elem_of_cons Hne; [congruence|auto].
  - destruct (IH (Some z.1.1)) as [H1 H2].
    { intros k y [= <-] Hy. apply Hf, version_le_spec in Hy. lia. }
    split.
    + intros x [->|(Hx & Hne & Hmin)%H1]%elem_of_cons.
      * split_and!; [set_solver|done|]. intros y [->|Hy]%elem_of_cons _; [|auto].
        apply version_le_spec. lia.
      * split_and!; [set_solver| |].
        -- intros ->. assert (x.1.1 ≤ z.1.1) by (apply (Hlast _ z); set_solver).
           apply Hf, version_le_spec in Hx. destruct Hne. f_equal. lia.
        -- intros y [->|Hy]%elem_of_cons Heq; [congruence|auto].
    + intros y [->|Hy]%elem_of_cons Hne; [exists z; set_solver|].
      destruct (decide (z.1.1 = y.1.1)) as [Heq|Hne']; [exists z; set_solver|].
      destruct (H2 y Hy) as (x & ? & ?); [congruence|]. exists x. set_solver.
Qed.
End versions.

(** The state hash and the scan of a program are well defined: they do
    not depend on the order in which the files of a fork are scanned, and
    use for every account exactly its newest version. *)
Theorem latest_versions_spec {A} (f : StoredAccount → A) l l' :
  l ≡ₚ l' → NoDup ((λ s, s.(sa_meta).(write_version)) <$> l) →
  Forall (λ s, 0 ≤ s.(sa_meta).(write_version) < 2 ^ 63) l →
  latest_versions f l = latest_versions f l' ∧
  (∀ s, s ∈ l → ∃ v a, (s.(sa_meta).(meta_pubkey), v, a) ∈ latest_versions f l) ∧
  (∀ k v a, (k, v, a) ∈ latest_versions f l →
     (∃ s, s ∈ l ∧ s.(sa_meta).(meta_pubkey) = k ∧ s.(sa_meta).(write_version) = v ∧ a = f s) ∧
     ∀ s, s ∈ l → s.(sa_meta).(meta_pubkey) = k → s.(sa_meta).(write_version) ≤ v).
Proof.
  intros Hp Hnd Hr. unfold latest_versions. set (g := λ s, (meta_pubkey (sa_meta s), _, f s)).
  assert (Forall (λ x : Pubkey * Z * A, is_u64 x.1.2) (g <$> l)) as Hu.
  { apply Forall_fmap. apply (Forall_impl _ _ _ Hr). intros s Hs. unfold is_u64. simpl.
    change (2 ^ 63) with 9223372036854775808 in Hs. lia. }
  assert (∀ x, x ∈ sort_versions (g <$> l) ↔ ∃ s, x = g s ∧ s ∈ l) as Hin.
  { intros x. rewrite sort_versions_perm. apply list_elem_of_fmap. }
  destruct (dedup_spec (sort_versions (g <$> l)) None) as [H1 H2];
    [apply sort_versions_sorted|done|].
  split_and!.
  - f_equal. apply sort_versions_unique; [by rewrite Hp|done|]. by rewrite <- list_fmap_compose.
  - intros s Hs. destruct (H2 (g s)) as ([[k v] a] & Hx & Heq); [apply Hin; eauto|done|].
    simpl in Heq. subst. eauto.
  - intros k v a (Hx & _ & Hmin)%H1. apply Hin in Hx as (s & [= -> -> ->] & Hs).
    split; [eauto 10|]. intros s' Hs' Heq. rewrite Forall_forall in Hr.
    specialize (Hmin (g s') ltac:(apply Hin; eauto) Heq). apply version_le_spec in Hmin. simpl in Hmin.
    apply rank_le; auto. lia.
Qed.

Lemma latest_versions_spec_witness :
  let s k v := mkStored (mkMeta v k 0) (mkBalance v 0 false 0) [] in
  latest_versions clone_account [s 5 1; s 4 2; s 5 3] = latest_versions clone_account [s 5 3; s 5 1; s 4 2].
Proof.
  intros s. apply (latest_versions_spec clone_account [s 5 1; s 4 2; s 5 3]).
  - solve_Permutation.
  - apply (bool_decide_unpack _). vm_compute. exact I.
  - repeat constructor; by vm_compute.
Defined.
End accounts_proofs.
