(* ===== verification/Bank.v ===== *)
(** The bank (src/runtime/src/bank.rs): the state of a slot, and the
    processing of transactions from the locks to the fees; ticks, freezing,
    the genesis bank, child banks and squashing.

    Class [AccountStore] is what the bank needs of the accounts database,
    and [AccountStoreLaws] what it promises: the theorems on the bank
    (BankProofs.v) are proved against it and BankStore.v discharges it for
    [AccountsDB].  Module [slot_hashes] models the syscall account, module
    [bank] the operations of one bank, and module [bank_forks] the operations
    on several banks that share the database and the status cache. *)
From S2P Require Import Prelude Interface SystemProgram VoteState Message MessageProcessor.
From S2P Require Import EpochSchedule BlockhashQueue StatusCache Stake AppendVec Accounts.

Module account_store.
Import append_vec.

(** The operations of [AccountsDB]; [None] when [store] does not return and
    when the assertion of [add_root] fails. *)
Class AccountStore (S : Type) := {
  as_load : S → gmap Z Z → Pubkey → option (Account * Z);
  as_store : S → Z → list (Pubkey * Account) → option S;
  as_has_accounts : S → Z → bool;
  as_scan : S → Z → res unit (list StoredAccount);
  as_add_root : S → Z → option S;
  as_purge_fork : S → Z → S;
}.

(** The Rust type of an account: what the store relies on. *)
Record typed_account (a : Account) : Prop := {
  ta_difs : is_u64 a.(difs);
  ta_reputations : is_u64 a.(reputations);
  ta_owner : is_key a.(owner);
  ta_length : is_u64 (Z.of_nat (length a.(data)));
}.

Definition typed_entry (p : Pubkey * Account) : Prop := is_key p.1 ∧ typed_account p.2.

(** What is kept of an account: one without difs loses its data. *)
Definition kept (a : Account) : Account := with_data (if difs a =? 0 then [] else data a) a.

(** The last value that a batch of stores gives to a key. *)
Fixpoint last_stored (k : Pubkey) (l : list (Pubkey * Account)) : option Account :=
  match l with
  | [] => None
  | (k', a) :: l =>
      match last_stored k l with
      | Some b => Some b
      | None => if k =? k' then Some a else None
      end
  end.

(** [as_tip s ancestors fork room]: [fork] is among the [ancestors] and no
    older than any fork that they see or than the last root, and [room]
    more accounts can be counted.  There a store is seen at once. *)
Class AccountStoreLaws (S : Type) `{AccountStore S} := {
  as_tip : S → gmap Z Z → Z → nat → Prop;
  as_tip_typed : ∀ s anc fork room k a f,
    as_tip s anc fork room → as_load s anc k = Some (a, f) → typed_account a;
  as_store_load : ∀ s anc fork room l s',
    as_tip s anc fork room → Forall typed_entry l → (length l ≤ room)%nat →
    as_store s fork l = Some s' →
    as_tip s' anc fork (room - length l) ∧
    ∀ k, as_load s' anc k =
      match last_stored k l with
      | Some a => Some (kept a, fork)
      | None => as_load s anc k
      end;
}.
End account_store.

(** ** The slot hashes account (src/interface/src/syscall/slot_hashes.rs) *)

Module slot_hashes.
Definition MAX_SLOT_HASHES : nat := 512.

Notation SlotHashes := (list (Z * Hash)).

Section account.
Context `{!Bincode SlotHashes}.

Definition from (account : Account) : option SlotHashes :=
  match state account with Ok s => Some s | _ => None end.

Definition to (s : SlotHashes) (account : Account) : option unit * Account :=
  match set_state s account with
  | (Ok _, account) => (Some tt, account)
  | (_, account) => (None, account)
  end.

Definition size_of : Z := serialized_size (replicate MAX_SLOT_HASHES (0, Hash_default)).

Definition add (slot : Z) (hash : Hash) (s : SlotHashes) : SlotHashes :=
  take MAX_SLOT_HASHES ((slot, hash) :: s).

Definition create_account (difs : Z) : Account := Account_new difs 0 size_of syscall.id.
End account.
End slot_hashes.

Module bank.
Import account_store message transaction fee_calculator message_processor native_loader_program.
Import processor epoch_schedule blockhash_queue status_cache stakes accounts slot_hashes.

Definition MAX_RECENT_BLOCKHASHES : Z := 120.

(** The fields that are set when the bank is made. *)
Record BankInfo := mkInfo {
  ancestors : gmap Z Z;
  parent_hash : Hash;
  max_tick_height : Z;
  ticks_per_slot : Z;
  slot : Z;
  bank_height : Z;
  collector_id : Pubkey;
  b_fee_calculator : FeeCalculator;
  b_epoch_schedule : EpochSchedule;
  epoch_stakes : gmap Z Stakes;
  instruction_processors : list (Pubkey * ProcessInstruction);
}.

(** The bank; its other fields are behind locks or atomic.  The account
    database and the status cache, which banks share, are in the states below. *)
Record Bank := mkBank {
  info : BankInfo;
  locks : Locks;
  queue : BlockhashQueue;
  parent : option Z;
  hash : Hash;
  transaction_count : Z;
  tick_height : Z;
  b_stakes : Stakes;
  is_delta : bool;
  symbol_cache : SymbolCache;
}.

Definition set_info i b := mkBank i (locks b) (queue b) (parent b) (hash b)
  (transaction_count b) (tick_height b) (b_stakes b) (is_delta b) (symbol_cache b).
Definition set_locks l b := mkBank (info b) l (queue b) (parent b) (hash b)
  (transaction_count b) (tick_height b) (b_stakes b) (is_delta b) (symbol_cache b).
Definition set_queue q b := mkBank (info b) (locks b) q (parent b) (hash b)
  (transaction_count b) (tick_height b) (b_stakes b) (is_delta b) (symbol_cache b).
Definition set_parent p b := mkBank (info b) (locks b) (queue b) p (hash b)
  (transaction_count b) (tick_height b) (b_stakes b) (is_delta b) (symbol_cache b).
Definition set_hash_to h b := mkBank (info b) (locks b) (queue b) (parent b) h
  (transaction_count b) (tick_height b) (b_stakes b) (is_delta b) (symbol_cache b).
Definition set_transaction_count n b := mkBank (info b) (locks b) (queue b) (parent b) (hash b)
  n (tick_height b) (b_stakes b) (is_delta b) (symbol_cache b).
Definition set_tick_height n b := mkBank (info b) (locks b) (queue b) (parent b) (hash b)
  (transaction_count b) n (b_stakes b) (is_delta b) (symbol_cache b).
Definition set_stakes s b := mkBank (info b) (locks b) (queue b) (parent b) (hash b)
  (transaction_count b) (tick_height b) s (is_delta b) (symbol_cache b).
Definition set_is_delta d b := mkBank (info b) (locks b) (queue b) (parent b) (hash b)
  (transaction_count b) (tick_height b) (b_stakes b) d (symbol_cache b).
Definition set_symbol_cache c b := mkBank (info b) (locks b) (queue b) (parent b) (hash b)
  (transaction_count b) (tick_height b) (b_stakes b) (is_delta b) c.

Definition is_frozen (b : Bank) : bool := negb (hash b =? Hash_default).

Definition can_commit (result : TxResult unit) : bool :=
  match result with
  | Ok _ => true
  | Err (TxInstructionError _ _) => true
  | _ => false
  end.

(** ** Checking transactions *)

Definition check_refs (txs : list Transaction) (lock_results : list (TxResult unit))
    : list (TxResult unit) :=
  zip_with (λ tx lock_res,
    if is_ok lock_res && negb (verify_refs tx) then Err InvalidAccountIndex else lock_res)
    txs lock_results.

Definition check_age (b : Bank) (txs : list Transaction) (lock_results : list (TxResult unit))
    (max_age : Z) : list (TxResult unit) :=
  zip_with (λ tx lock_res,
    if is_ok lock_res && negb (check_hash_age (queue b) tx.(tx_message).(recent_blockhash) max_age)
    then Err BlockhashNotFound else lock_res)
    txs lock_results.

Definition check_signatures (b : Bank) (sc : StatusCache (TxResult unit))
    (txs : list Transaction) (lock_results : list (TxResult unit)) : list (TxResult unit) :=
  zip_with (λ tx lock_res,
    match tx.(signatures) with
    | [] => lock_res
    | sig :: _ =>
        if is_ok lock_res && bool_decide (is_Some
             (get_signature_status sc sig tx.(tx_message).(recent_blockhash) (ancestors (info b))))
        then Err DuplicateSignature else lock_res
    end)
    txs lock_results.

Definition check_transactions (b : Bank) (sc : StatusCache (TxResult unit))
    (txs : list Transaction) (lock_results : list (TxResult unit)) (max_age : Z)
    : list (TxResult unit) :=
  check_signatures b sc txs (check_age b txs (check_refs txs lock_results) max_age).

(** ** The operations of one bank

    The state is the database, the status cache and the bank itself.  [Panic]
    also stands for an operation that does not return: the loop of
    [AccountsDB::store], or the wait for a lock of a parent. *)

Record BankState (S : Type) := mkState {
  db : S;
  statuses : StatusCache (TxResult unit);
  self : Bank;
}.
Arguments mkState {S} _ _ _.
Arguments db {S} _.
Arguments statuses {S} _.
Arguments self {S} _.

Section operations.
Context {S : Type} `{!AccountStore S}.
Context `{!Bincode SlotHashes, !Bincode LoaderInstruction, !Bincode stake_state.StakeState}.
(** The dynamic linker, the random index of [StatusCache::insert], and the
    hasher with the encodings that it is given. *)
Context (open_library : list Z → option (option ProcessInstruction)).
Context (gen_range : StatusCache (TxResult unit) → Hash → nat).
Context (hash_all : list (list Z) → Hash) (hash_bytes : Hash → list Z).
Context (serialize_balance : append_vec.AccountBalance → list Z).
Context (serialize_hash : option Hash → list Z).

Notation op := (M (BankState S) TransactionError).

Definition modify_self (f : Bank → Bank) : op unit :=
  λ s, (Ok tt, mkState (db s) (statuses s) (f (self s))).

Definition store_accounts (accounts : list (Pubkey * Account)) : op unit :=
  λ s, match as_store (db s) (slot (info (self s))) accounts with
       | Some d => (Ok tt, mkState d (statuses s) (self s))
       | None => (Panic, s)
       end.

Definition get_account (pubkey : Pubkey) (s : BankState S) : option Account :=
  '(account, _) ← as_load (db s) (ancestors (info (self s))) pubkey;
  if account.(difs) =? 0 then None else Some account.

Definition get_balance (pubkey : Pubkey) (s : BankState S) : Z :=
  from_option difs 0 (get_account pubkey s).

Definition get_reputation (pubkey : Pubkey) (s : BankState S) : Z :=
  from_option reputations 0 (get_account pubkey s).

(** [Stakes::store], guarded by [Stakes::is_stake]. *)
Definition store_stake (p : Pubkey * Account) (st : Stakes) : Stakes :=
  if is_stake p.2 then stakes.store p.1 p.2 st else st.

Definition store (pubkey : Pubkey) (account : Account) : op unit :=
  store_accounts [(pubkey, account)];;
  modify_self (λ b, set_stakes (store_stake (pubkey, account) (b_stakes b)) b).

Definition withdraw (pubkey : Pubkey) (difs : Z) : op unit :=
  s ← getM;
  match get_account pubkey s with
  | Some account =>
      if account.(Interface.difs) <? difs then throw InsufficientFundsForFee
      else store pubkey (with_difs (u64_sub account.(Interface.difs) difs) account)
  | None => throw AccountNotFound
  end.

Definition deposit (pubkey : Pubkey) (difs : Z) : op unit :=
  s ← getM;
  let account := default Account_default (get_account pubkey s) in
  store pubkey (with_difs (u64_add account.(Interface.difs) difs) account).

(** A panic for one transaction unwinds the call for the batch. *)
Definition unwind {A} (l : list (TxResult A)) : op unit :=
  if existsb (λ r, match r with Panic => true | _ => false end) l then panic else mret tt.

Definition lock_accounts (txs : list Transaction) : op (list (TxResult unit)) :=
  s ← getM;
  match accounts.lock_accounts (locks (self s)) txs with
  | Some (results, l) => unwind results;; modify_self (set_locks l);; mret results
  | None => panic
  end.

Definition unlock_accounts (txs : list Transaction) (results : list (TxResult unit)) : op unit :=
  modify_self (λ b, set_locks (accounts.unlock_accounts (locks b) txs results) b).

Definition Loaded : Type := list Account * list (list (Pubkey * Account)).

Definition load_accounts (txs : list Transaction) (results : list (TxResult unit))
    : op (list (TxResult Loaded)) :=
  s ← getM;
  let loaded := accounts.load_accounts
    (λ k, fst <$> as_load (db s) (ancestors (info (self s))) k) txs results
    (b_fee_calculator (info (self s))) in
  unwind loaded;; mret loaded.

(** [process_message] on the loaded accounts of each transaction, which it
    changes in place. *)
Fixpoint execute (b : Bank) (c : SymbolCache) (txs : list Transaction)
    (loaded : list (TxResult Loaded)) : list (TxResult Loaded * TxResult unit) * SymbolCache :=
  match loaded, txs with
  | Ok (accs, loaders) :: loaded, tx :: txs =>
      let '(r, m) := process_message open_library (instruction_processors (info b))
                       tx.(tx_message) (tick_height b) (mkMessageState c loaders accs) in
      let '(l, c) := execute b (ms_cache m) txs loaded in
      ((Ok (ms_accounts m, ms_loaders m), r) :: l, c)
  | Err e :: loaded, tx :: txs =>
      let '(l, c) := execute b c txs loaded in ((Err e, Err e) :: l, c)
  | Panic :: loaded, tx :: txs =>
      let '(l, c) := execute b c txs loaded in ((Panic, Panic) :: l, c)
  | _, _ => ([], c)
  end.

Definition load_and_execute_transactions (txs : list Transaction)
    (lock_results : list (TxResult unit)) (max_age : Z)
    : op (list (TxResult Loaded) * list (TxResult unit)) :=
  s ← getM;
  let sig_results := check_transactions (self s) (statuses s) txs lock_results max_age in
  loaded_accounts ← load_accounts txs sig_results;
  let '(l, c) := execute (self s) (symbol_cache (self s)) txs loaded_accounts in
  unwind l.*2;;
  let tx_count := Z.of_nat (length (filter (λ r, is_ok r) l.*2)) in
  modify_self (λ b, set_transaction_count (wrap64 (transaction_count b + tx_count))
                      (set_symbol_cache c b));;
  mret (l.*1, l.*2).

(** The turns of the closure of [filter_program_errors_and_collect_fee],
    with the fees so far. *)
Fixpoint collect_fees (fees : Z) (txs : list Transaction) (executed : list (TxResult unit))
    : op (list (TxResult unit) * Z) :=
  match txs, executed with
  | tx :: txs, res :: executed =>
      s ← getM;
      let fee := calculate_fee (b_fee_calculator (info (self s))) tx.(tx_message) in
      '(r, fees) ← (match res with
        | Err (TxInstructionError _ _) =>
            match tx.(tx_message).(account_keys) with
            | [] => panic
            | payer :: _ => λ s,
                match withdraw payer fee s with
                | (Ok _, s) => (Ok (Ok tt, u64_add fees fee), s)
                | (Err e, s) => (Ok (Err e, fees), s)
                | (Panic, s) => (Panic, s)
                end
            end
        | Ok _ => mret (Ok tt, u64_add fees fee)
        | _ => mret (res, fees)
        end);
      '(rs, fees) ← collect_fees fees txs executed;
      mret (r :: rs, fees)
  | _, _ => mret ([], fees)
  end.

Definition filter_program_errors_and_collect_fee (txs : list Transaction)
    (executed : list (TxResult unit)) : op (list (TxResult unit)) :=
  '(results, fees) ← collect_fees 0 txs executed;
  s ← getM;
  deposit (collector_id (info (self s))) fees;;
  mret results.

Definition insert_status (slot : Z) (sc : StatusCache (TxResult unit))
    (p : Transaction * TxResult unit) : StatusCache (TxResult unit) :=
  let '(tx, r) := p in
  match tx.(signatures) with
  | sig :: _ =>
      if can_commit r then
        status_cache.insert (gen_range sc tx.(tx_message).(recent_blockhash)) sc
          tx.(tx_message).(recent_blockhash) sig slot r
      else sc
  | [] => sc
  end.

Definition update_transaction_statuses (txs : list Transaction) (res : list (TxResult unit))
    : op unit :=
  λ s, (Ok tt, mkState (db s)
    (foldl (insert_status (slot (info (self s)))) (statuses s) (zip txs res)) (self s)).

Definition store_stakes (stored : list (Pubkey * Account)) (st : Stakes) : Stakes :=
  foldl (λ st p, store_stake p st) st stored.

Definition commit_transactions (txs : list Transaction) (loaded_accounts : list (TxResult Loaded))
    (executed : list (TxResult unit)) : op (list (TxResult unit)) :=
  modify_self (λ b, if existsb can_commit executed then set_is_delta true b else b);;
  let stored := accounts_to_store txs executed loaded_accounts in
  store_accounts stored;;
  modify_self (λ b, set_stakes (store_stakes stored (b_stakes b)) b);;
  update_transaction_statuses txs executed;;
  filter_program_errors_and_collect_fee txs executed.

Definition load_execute_and_commit_transactions (txs : list Transaction)
    (lock_results : list (TxResult unit)) (max_age : Z) : op (list (TxResult unit)) :=
  '(loaded_accounts, executed) ← load_and_execute_transactions txs lock_results max_age;
  commit_transactions txs loaded_accounts executed.

(** The locks are released when the results of the locking are dropped. *)
Definition process_transactions (txs : list Transaction) : op (list (TxResult unit)) :=
  lock_results ← lock_accounts txs;
  results ← load_execute_and_commit_transactions txs lock_results MAX_RECENT_BLOCKHASHES;
  unlock_accounts txs lock_results;;
  mret results.

(** [order] is the order in which the status cache is scanned. *)
Definition get_signature_confirmation_status (order : list Hash) (signature : Signature)
    (s : BankState S) : option (Z * TxResult unit) :=
  get_signature_status_slow (statuses s) signature (ancestors (info (self s))) order.

Definition get_signature_status (order : list Hash) (signature : Signature) (s : BankState S)
    : option (TxResult unit) :=
  snd <$> get_signature_confirmation_status order signature s.

Definition process_transaction (order : list Hash) (tx : Transaction) : op unit :=
  results ← process_transactions [tx];
  r ← liftM (unwrap (head results));
  liftM r;;
  s ← getM;
  match tx.(signatures) with
  | [] => mret tt
  | sig :: _ => r ← liftM (unwrap (get_signature_status order sig s)); liftM r
  end.

(** ** Record locks *)

Definition lock_record_accounts (txs : list Transaction) : op unit :=
  s ← getM;
  match accounts.lock_record_accounts (locks (self s)) txs with
  | Some l => modify_self (set_locks l)
  | None => panic
  end.

Definition unlock_record_accounts (txs : list Transaction) : op unit :=
  modify_self (λ b, set_locks (accounts.unlock_record_accounts (locks b) txs) b).

(** ** Ticks *)

(** The remainder panics when there are no ticks in a slot. *)
Definition register_tick (now : Z) (h : Hash) : op unit :=
  modify_self (λ b, set_tick_height (wrap64 (tick_height b + 1)) b);;
  s ← getM;
  let current_tick_height := tick_height (self s) in
  let tps := ticks_per_slot (info (self s)) in
  if tps =? 0 then panic
  else if current_tick_height mod tps =? u64_sub tps 1
  then modify_self (λ b, set_queue (register_hash now (queue b) h) b)
  else mret tt.

Definition max_tick_height_of (slot ticks_per_slot : Z) : Z :=
  u64_sub (u64_mul (u64_add slot 1) ticks_per_slot) 1.

Definition is_votable (b : Bank) : bool :=
  is_delta b && (tick_height b =? max_tick_height_of (slot (info b)) (ticks_per_slot (info b))).

(** ** Freezing *)

Definition extend_and_hash (h : Hash) (val : list Z) : Hash := hash_all [hash_bytes h ++ val].

Definition hash_internal_state (s : BankState S) : TxResult Hash :=
  let b := info (self s) in
  if negb (as_has_accounts (db s) (slot b)) then Ok (parent_hash b)
  else
    match as_scan (db s) (slot b) with
    | Ok l => Ok (extend_and_hash (parent_hash b)
                    (serialize_hash (hash_scanned hash_all hash_bytes serialize_balance l)))
    | _ => Panic
    end.

Definition update_slot_hashes : op unit :=
  s ← getM;
  let account := default (create_account 1) (get_account vote_state.slot_hashes_id s) in
  slot_hashes ← liftM (unwrap (from account));
  let b := self s in
  match to (add (slot (info b)) (hash b) slot_hashes) account with
  | (Some _, account) => store vote_state.slot_hashes_id account
  | (None, _) => panic
  end.

Definition set_hash : op bool :=
  s ← getM;
  if hash (self s) =? Hash_default then
    h ← liftM (hash_internal_state s);
    modify_self (set_hash_to h);;
    mret true
  else mret false.

Definition freeze : op unit :=
  updated ← set_hash;
  if updated : bool then update_slot_hashes else mret tt.

(** ** Confirmation *)

(** [sort_by(|a, b| b.0.cmp(&a.0))], which is stable. *)
Fixpoint insert_slot (x : Z * Z) (l : list (Z * Z)) : list (Z * Z) :=
  match l with
  | [] => [x]
  | y :: l' => if y.1 <=? x.1 then x :: l else y :: insert_slot x l'
  end.

Fixpoint confirmed_slot (min_slot max_slot supermajority_stake total_stake : Z) (l : list (Z * Z))
    : option Z :=
  match l with
  | [] => None
  | (slot, stake) :: l =>
      if (min_slot <=? slot) && (slot <=? max_slot) then
        let total_stake := u64_add total_stake stake in
        if supermajority_stake <? total_stake then Some slot
        else confirmed_slot min_slot max_slot supermajority_stake total_stake l
      else confirmed_slot min_slot max_slot supermajority_stake total_stake l
  end.

Definition get_confirmation_timestamp (b : Bank) (slots_and_stakes : list (Z * Z))
    (supermajority_stake : Z) : option Z :=
  let max_slot := slot (info b) in
  let min_slot := u64_saturating_sub max_slot MAX_RECENT_BLOCKHASHES in
  slot ← confirmed_slot min_slot max_slot supermajority_stake 0
           (foldr insert_slot [] slots_and_stakes);
  hash_height_to_timestamp (queue b) slot.

(** ** The genesis bank *)

Definition bytes_of_string (s : String.string) : list Z :=
  (λ a, Z.of_N (Ascii.N_of_ascii a)) <$> String.list_ascii_of_string s.

(** [native_loader::create_loadable_account] *)
Definition create_loadable_account (name : list Z) : Account :=
  mkAccount 1 0 name native_loader.id true.

Definition register_native_instruction_processor (name : list Z) (program_id : Pubkey) : op unit :=
  store program_id (create_loadable_account name).

Definition add_instruction_processor (program_id : Pubkey) (process : ProcessInstruction)
    : op unit :=
  modify_self (λ b, let i := info b in
    set_info (mkInfo (ancestors i) (parent_hash i) (max_tick_height i) (ticks_per_slot i) (slot i)
      (bank_height i) (collector_id i) (b_fee_calculator i) (b_epoch_schedule i) (epoch_stakes i)
      (instruction_processors i ++ [(program_id, process)])) b);;
  register_native_instruction_processor [] program_id.

(** [bpf_loader::id()] *)
Definition bpf_loader_id : Pubkey :=
  be_bytes [2; 168; 246; 145; 78; 136; 161; 107; 189; 35; 149; 133; 95; 100; 4; 217; 180; 244; 86;
            183; 130; 27; 176; 20; 87; 73; 66; 140; 0; 0; 0; 0].

Record GenesisBlock := mkGenesis {
  g_accounts : list (Pubkey * Account);
  g_bootstrap_leader_pubkey : Pubkey;
  g_epoch_warmup : bool;
  g_fee_calculator : FeeCalculator;
  g_native_instruction_processors : list (list Z * Pubkey);
  g_slots_per_epoch : Z;
  g_stakers_slot_offset : Z;
  g_ticks_per_slot : Z;
}.

Fixpoint each {A} (f : A → op unit) (l : list A) : op unit :=
  match l with
  | [] => mret tt
  | x :: l => f x;; each f l
  end.

(** [genesis_hash] is [genesis_block.hash()], the hash of its JSON. *)
Definition process_genesis_block (now : Z) (genesis_hash : Hash) (g : GenesisBlock) : op unit :=
  each (λ '(pubkey, account), store pubkey account) g.(g_accounts);;
  modify_self (λ b, set_queue (blockhash_queue.genesis_hash now (queue b) genesis_hash) b);;
  modify_self (set_is_delta true);;
  schedule ← (match EpochSchedule_new g.(g_slots_per_epoch) g.(g_stakers_slot_offset)
                     g.(g_epoch_warmup) with
              | Ok e => mret e
              | _ => panic
              end);
  modify_self (λ b, let i := info b in
    set_info (mkInfo (ancestors i) (parent_hash i)
      (max_tick_height_of (slot i) g.(g_ticks_per_slot)) g.(g_ticks_per_slot) (slot i)
      (bank_height i) g.(g_bootstrap_leader_pubkey) g.(g_fee_calculator) schedule
      (epoch_stakes i) (instruction_processors i)) b);;
  register_native_instruction_processor (bytes_of_string "morgan_system_program")
    system_program.id;;
  register_native_instruction_processor (bytes_of_string "morgan_bpf_loader") bpf_loader_id;;
  register_native_instruction_processor (bytes_of_string "morgan_vote_controller")
    vote_program.id;;
  each (λ '(name, program_id), register_native_instruction_processor name program_id)
    g.(g_native_instruction_processors).

End operations.
End bank.

(** ** Several banks *)

Module bank_forks.
Import account_store message_processor native_loader_program epoch_schedule blockhash_queue.
Import status_cache stakes accounts slot_hashes bank.

(** The banks are named by their slots; they share the database and the status
    cache. *)
Record Forks (S : Type) := mkForks {
  f_db : S;
  f_statuses : StatusCache (TxResult unit);
  banks : gmap Z Bank;
}.
Arguments mkForks {S} _ _ _.
Arguments f_db {S} _.
Arguments f_statuses {S} _.
Arguments banks {S} _.

Section forks.
Context {S : Type} `{!AccountStore S}.
Context `{!Bincode SlotHashes, !Bincode LoaderInstruction, !Bincode stake_state.StakeState}.
Context `{!Bincode system_instruction.SystemInstruction}.
Context (hash_all : list (list Z) → Hash) (hash_bytes : Hash → list Z).
Context (serialize_balance : append_vec.AccountBalance → list Z).
Context (serialize_hash : option Hash → list Z).

Notation fork_op := (M (Forks S) TransactionError).

(** An operation of the bank of a slot. *)
Definition at_bank {A} (n : Z) (m : M (BankState S) TransactionError A) : fork_op A :=
  λ f, match banks f !! n with
       | Some b =>
           let '(r, s) := m (mkState (f_db f) (f_statuses f) b) in
           (r, mkForks (db s) (statuses s) (<[n := self s]> (banks f)))
       | None => (Panic, f)
       end.

Definition insert_bank (n : Z) (b : Bank) : fork_op unit :=
  λ f, (Ok tt, mkForks (f_db f) (f_statuses f) (<[n := b]> (banks f))).

Definition get_bank (n : Z) : fork_op Bank :=
  λ f, (unwrap (banks f !! n), f).

(** The slots of the parents; a bank has fewer ancestors than there are banks. *)
Fixpoint parents_loop (fuel : nat) (bs : gmap Z Bank) (p : option Z) : list Z :=
  match fuel, p with
  | Datatypes.S fuel, Some n =>
      n :: parents_loop fuel bs (b ← bs !! n; parent b)
  | _, _ => []
  end.

Definition parents (bs : gmap Z Bank) (b : Bank) : list Z := parents_loop (size bs) bs (parent b).

Definition ancestors_of (slot : Z) (ps : list Z) : gmap Z Z :=
  foldl (λ m '(i, p), <[p := Z.of_nat i + 1]> m) {[slot := 0]} (imap pair ps).

Definition default_processors : list (Pubkey * ProcessInstruction) :=
  [(system_program.id, system_processor)].

Definition freeze_bank (n : Z) : fork_op unit :=
  at_bank n (freeze hash_all hash_bytes serialize_balance serialize_hash).

Definition new_from_parent (n : Z) (collector_id : Pubkey) (slot : Z) : fork_op unit :=
  freeze_bank n;;
  p ← get_bank n;
  if slot =? bank.slot (info p) then panic
  else
    let '(child_locks, parent_locks) := locks_from_parent (locks p) in
    insert_bank n (set_locks parent_locks p);;
    f ← getM;
    let epoch := get_stakers_epoch (b_epoch_schedule (info p)) slot in
    let epoch_stakes :=
      match epoch_stakes (info p) !! epoch with
      | Some _ => epoch_stakes (info p)
      | None => <[epoch := b_stakes p]> (epoch_stakes (info p))
      end in
    insert_bank slot (mkBank
      (mkInfo (ancestors_of slot (parents_loop (size (banks f)) (banks f) (Some n)))
         (hash p)
         (max_tick_height_of slot (ticks_per_slot (info p))) (ticks_per_slot (info p)) slot
         (u64_add (bank_height (info p)) 1) collector_id (b_fee_calculator (info p))
         (b_epoch_schedule (info p)) epoch_stakes default_processors)
      child_locks (queue p) (Some n) Hash_default (transaction_count p) (tick_height p)
      (b_stakes p) false ∅).

(** [add_root] asserts that the roots increase. *)
Fixpoint add_roots (l : list Z) (d : S) : option S :=
  match l with
  | [] => Some d
  | n :: l => d ← as_add_root d n; add_roots l d
  end.

Definition root_parents (ps : list Z) : fork_op unit :=
  λ f, match add_roots (reverse ps) (f_db f) with
       | Some d => (Ok tt, mkForks d (foldl status_cache.add_root (f_statuses f) ps) (banks f))
       | None => (Panic, f)
       end.

Definition squash (n : Z) : fork_op unit :=
  freeze_bank n;;
  b ← get_bank n;
  f ← getM;
  let ps := parents (banks f) b in
  insert_bank n (set_parent None b);;
  root_parents ps.

Definition confirmed_last_blockhash (bs : gmap Z Bank) (b : Bank) : res Empty_set Hash :=
  match parents bs b with
  | [] => get_last_hash (queue b)
  | ps =>
      n ← unwrap (ps !! Nat.min 3 (length ps - 1));
      p ← unwrap (bs !! n);
      get_last_hash (queue p)
  end.

(** [drop], when the last reference to the bank goes. *)
Definition drop_bank (n : Z) : fork_op unit :=
  λ f, (Ok tt, mkForks (as_purge_fork (f_db f) n) (f_statuses f) (delete n (banks f))).

(** [Bank::default()] with the ancestors of the first bank. *)
Definition Bank_default : Bank :=
  mkBank
    (mkInfo {[0 := 0]} Hash_default 0 0 0 0 Pubkey_default (fee_calculator.mkFeeCalculator 0)
       (mkEpochSchedule 0 0 0 0) ∅ default_processors)
    (mkLocks ∅ ∅ []) (BlockhashQueue_new MAX_RECENT_BLOCKHASHES) None Hash_default 0 0
    Stakes_default false ∅.

(** [Bank::new_with_paths]; the database is the one of [Accounts::new]. *)
Definition new_with_paths (now : Z) (genesis_hash : Hash) (g : GenesisBlock) (d : S)
    : res TransactionError (Forks S) :=
  match process_genesis_block now genesis_hash g (mkState d StatusCache_default Bank_default) with
  | (Ok _, s) =>
      let b := self s in
      let i := info b in
      let epochs := seqZ 0 (get_stakers_epoch (b_epoch_schedule i) (slot i) + 1) in
      let i := mkInfo (ancestors i) (parent_hash i) (max_tick_height i) (ticks_per_slot i) (slot i)
        (bank_height i) (collector_id i) (b_fee_calculator i) (b_epoch_schedule i)
        (foldl (λ m e, <[e := b_stakes b]> m) (epoch_stakes i) epochs)
        (instruction_processors i) in
      Ok (mkForks (db s) (statuses s) {[slot i := set_info i b]})
  | _ => Panic
  end.
End forks.
End bank_forks.
