(* ===== verification/BankProofs.v ===== *)
(** Theorems on the bank (Bank.v), against the interface of the accounts
    database: what a batch of transactions does to the accounts, that
    it conserves the difs, that a failed transaction only pays its fee, that a
    transaction is never processed twice; freezing and the ancestors of
    banks. *)
From S2P Require Import Prelude Interface SystemProgram VoteState Message MessageProcessor.
From S2P Require Import EpochSchedule BlockhashQueue StatusCache Stake AppendVec Accounts Bank.

Module bank_proofs.
Import account_store message transaction fee_calculator message_processor native_loader_program.
Import processor processor_proofs blockhash_queue status_cache stakes accounts accounts_proofs.
Import slot_hashes bank.

Section bank.
Context {S : Type} `{!AccountStore S, !AccountStoreLaws S}.
Context `{!Bincode SlotHashes, !Bincode LoaderInstruction, !Bincode stake_state.StakeState}.
Context (open_library : list Z → option (option ProcessInstruction)).
Context (gen_range : StatusCache (TxResult unit) → Hash → nat).
Implicit Types (s : BankState S) (k : Pubkey) (room : nat).

(** ** Stores *)

(** What a bank sees of the database. *)
Definition loaded s k : option Account :=
  fst <$> as_load (db s) (ancestors (info (self s))) k.

Definition balance s k : Z := from_option difs 0 (loaded s k).

(** The bank is at the tip of its fork. *)
Definition tip s room : Prop :=
  as_tip (db s) (ancestors (info (self s))) (slot (info (self s))) room.

Lemma get_balance_balance k s : get_balance k s = balance s k.
Proof.
  unfold get_balance, get_account, balance, loaded.
  destruct (as_load _ _ k) as [[a f]|]; [|done]. simpl. by destruct (Z.eqb_spec (difs a) 0).
Qed.

Lemma get_account_loaded k s a : get_account k s = Some a → loaded s k = Some a ∧ difs a ≠ 0.
Proof.
  unfold get_account, loaded. destruct (as_load _ _ k) as [[b f]|]; [|done]. simpl.
  destruct (Z.eqb_spec (difs b) 0); [done|]. by intros [= ->].
Qed.

Lemma loaded_get_account k s a : loaded s k = Some a → difs a ≠ 0 → get_account k s = Some a.
Proof.
  unfold get_account, loaded. destruct (as_load _ _ k) as [[b f]|]; [|done]. simpl.
  intros [= ->] Hne. by destruct (Z.eqb_spec (difs a) 0).
Qed.

Lemma get_account_ext k s s' : loaded s' k = loaded s k → get_account k s' = get_account k s.
Proof.
  unfold get_account, loaded.
  destruct (as_load _ _ k) as [[b f]|], (as_load (db s) _ k) as [[c g]|]; try done.
  simpl. by intros [= ->].
Qed.

Lemma loaded_typed s room k a : tip s room → loaded s k = Some a → typed_account a.
Proof.
  unfold loaded. intros Htip Hl. destruct (as_load _ _ k) as [[b f]|] eqn:Hk; [|done].
  simplify_eq/=. by eapply as_tip_typed.
Qed.

Lemma default_typed : typed_account Account_default.
Proof. split; done. Qed.

Lemma with_difs_typed a n : typed_account a → is_u64 n → typed_account (with_difs n a).
Proof. intros [] ?. split; done. Qed.

Lemma kept_difs a : difs (kept a) = difs a.
Proof. by destruct a. Qed.

(** The bank of [s'] is that of [s], up to what a store changes. *)
Definition same_bank s s' : Prop :=
  info (self s') = info (self s) ∧ statuses s' = statuses s.

Lemma store_accounts_frame l s s' :
  store_accounts l s = (Ok tt, s') → self s' = self s ∧ statuses s' = statuses s.
Proof. unfold store_accounts. by destruct (as_store _ _ _); intros [= <-]. Qed.

Lemma store_accounts_spec l s s' room :
  store_accounts l s = (Ok tt, s') → tip s room → Forall typed_entry l → (length l ≤ room)%nat →
  tip s' (room - length l) ∧ self s' = self s ∧ statuses s' = statuses s ∧
  ∀ k, loaded s' k = match last_stored k l with Some a => Some (kept a) | None => loaded s k end.
Proof.
  unfold store_accounts. intros Hs Htip Hty Hroom.
  destruct (as_store _ _ _) as [d|] eqn:Hd; [|done]. injection Hs as <-.
  destruct (as_store_load _ _ _ _ _ _ Htip Hty Hroom Hd) as [Htip' Hload].
  split_and!; [done..|]. intros k. unfold loaded. simpl. rewrite Hload. by destruct (last_stored k l).
Qed.

Lemma store_spec k0 a s s' room :
  bank.store k0 a s = (Ok tt, s') → tip s room → is_key k0 → typed_account a → (1 ≤ room)%nat →
  tip s' (room - 1) ∧ same_bank s s' ∧
  ∀ k, loaded s' k = if k =? k0 then Some (kept a) else loaded s k.
Proof.
  unfold bank.store. intros Hs Htip Hk Ha Hroom. unfold_monad.
  destruct (store_accounts [(k0, a)] s) as [[[]| |] s1] eqn:H1; [|done..].
  unfold modify_self in Hs. injection Hs as <-.
  apply (store_accounts_spec _ _ _ room) in H1 as (Ht & Hb & Hc & Hl); [|done|by apply Forall_singleton|done].
  unfold tip, loaded, same_bank in *. simpl. rewrite Hb in *.
  split_and!; [done..|]. intros k. rewrite Hl. simpl. by destruct (k =? k0).
Qed.

Lemma withdraw_spec k0 fee s s' r room :
  withdraw k0 fee s = (r, s') → r ≠ Panic → tip s room → is_key k0 → 0 ≤ fee → (1 ≤ room)%nat →
  (∃ e, r = Err e ∧ s' = s ∧
     ∀ a, loaded s k0 = Some a → difs a ≠ 0 → difs a < fee) ∨
  (r = Ok tt ∧ tip s' (room - 1) ∧ same_bank s s' ∧
   ∃ a, loaded s k0 = Some a ∧ fee ≤ difs a ∧
     ∀ k, loaded s' k = if k =? k0 then Some (kept (with_difs (difs a - fee) a)) else loaded s k).
Proof.
  unfold withdraw. unfold_monad. intros Hw Hr Htip Hk Hfee Hroom.
  destruct (get_account k0 s) as [a|] eqn:Ha.
  - apply get_account_loaded in Ha as [Ha Hne]. pose proof (loaded_typed _ _ _ _ Htip Ha) as Hty.
    destruct (Z.ltb_spec (difs a) fee).
    { injection Hw as <- <-. left. eexists. split_and!; [done..|]. intros b Hb _. naive_solver. }
    right. destruct r as [[]|e|]; [|exfalso|done].
    + destruct (store_spec _ _ _ _ _ Hw Htip Hk
        (with_difs_typed _ _ Hty (wrap64_range _)) Hroom) as (? & ? & Hl).
      destruct Hty as [Hd _ _ _]. rewrite u64_sub_exact in Hl by done. eauto 10.
    + revert Hw. unfold bank.store, store_accounts, modify_self. unfold_monad.
      by destruct (as_store _ _ _).
  - injection Hw as <- <-. left. eexists. split_and!; [done..|]. intros b Hb Hne.
    by rewrite (loaded_get_account _ _ _ Hb Hne) in Ha.
Qed.

Lemma deposit_spec k0 n s s' room :
  deposit k0 n s = (Ok tt, s') → tip s room → is_key k0 → (1 ≤ room)%nat →
  tip s' (room - 1) ∧ same_bank s s' ∧ (∀ k, k ≠ k0 → loaded s' k = loaded s k) ∧
  balance s' k0 = u64_add (balance s k0) n.
Proof.
  unfold deposit. unfold_monad. intros Hs Htip Hk Hroom.
  assert (typed_account (default Account_default (get_account k0 s))) as Hty.
  { destruct (get_account k0 s) as [a|] eqn:Ha; [|apply default_typed].
    apply get_account_loaded in Ha as [Ha _]. by eapply loaded_typed. }
  destruct (store_spec _ _ _ _ _ Hs Htip Hk
    (with_difs_typed _ _ Hty (wrap64_range _)) Hroom) as (? & ? & Hl).
  split_and!; [done..| |].
  - intros k Hne. rewrite Hl. by destruct (Z.eqb_spec k k0).
  - unfold balance at 1. rewrite Hl, Z.eqb_refl. simpl. rewrite <- get_balance_balance.
    unfold get_balance. by destruct (get_account k0 s).
Qed.

(** ** Checking, loading and executing *)

(** A transaction that passes the checks was granted its locks, names
    accounts and programs it has, uses a recent blockhash, and its signature
    is not in the status cache. *)
Lemma check_transactions_ok b sc txs rs age i :
  check_transactions b sc txs rs age !! i = Some (Ok tt) →
  ∃ tx, txs !! i = Some tx ∧ rs !! i = Some (Ok tt) ∧ verify_refs tx = true ∧
    check_hash_age (queue b) tx.(tx_message).(recent_blockhash) age = true ∧
    ∀ sig, head tx.(signatures) = Some sig →
      status_cache.get_signature_status sc sig tx.(tx_message).(recent_blockhash)
        (ancestors (info b)) = None.
Proof.
  unfold check_transactions, check_signatures, check_age, check_refs.
  intros (tx & r1 & H1 & Htx & (? & r2 & -> & ? & (? & r3 & -> & ? & Hrs)%lookup_zip_with_Some)
    %lookup_zip_with_Some)%lookup_zip_with_Some.
  simplify_eq/=. exists tx.
  destruct (signatures tx) as [|sig sigs]; destruct r3 as [[]| |]; simpl in *;
    destruct (verify_refs tx), (check_hash_age _ _ _); simpl in *; simplify_eq/=;
    try (split_and!; [done..|]; intros; simplify_eq/=).
  case_bool_decide as Hn; [done|]. by apply eq_None_not_Some.
Qed.

Lemma check_transactions_length b sc txs rs age :
  length rs = length txs → length (check_transactions b sc txs rs age) = length txs.
Proof.
  intros. unfold check_transactions, check_signatures, check_age, check_refs.
  rewrite !length_zip_with. lia.
Qed.

(** A program failed. *)
Definition failed {A} (r : TxResult A) : bool :=
  match r with Err (TxInstructionError _ _) => true | _ => false end.

(** Locking, checking and loading do not fail like a program. *)
Lemma lock_accounts_failed l txs rs l' :
  accounts.lock_accounts l txs = Some (rs, l') → Forall (λ r, failed r = false) rs.
Proof.
  revert l rs. induction txs as [|tx txs IH]; intros l rs; simpl; [by intros [= <- _]|].
  destruct (lock_tx l tx) as [[r l1]|] eqn:H1; [|done]. simpl.
  destruct (accounts.lock_accounts l1 txs) as [[rs' l2]|] eqn:H2; [|done]. intros [= <- ->].
  constructor; [|by eapply IH]. revert H1. unfold lock_tx, lock_account.
  destruct (locked_keys _) as [ks| |]; [|by intros [= <- _]..].
  destruct (check_locks _ _ ks) as [[r0 ps]|] eqn:Hc; [|done]. intros [= <- _].
  by apply check_locks_spec in Hc as [[-> _]|[-> _]].
Qed.

Lemma check_transactions_failed b sc txs rs age :
  Forall (λ r, failed r = false) rs →
  Forall (λ r, failed r = false) (check_transactions b sc txs rs age).
Proof.
  intros Hrs. unfold check_transactions, check_signatures, check_age, check_refs.
  revert rs Hrs. induction txs as [|tx txs IH]; intros rs Hrs; [constructor|].
  destruct Hrs as [|r rs Hr Hrs]; [constructor|]. cbn [zip_with]. constructor; [|by apply IH].
  destruct (signatures tx); destruct r; simpl in *; repeat case_match; simplify_eq/=; done.
Qed.

Lemma load_chain_failed load n pid l : failed (load_chain load n pid l) = false.
Proof.
  revert pid l. induction n as [|n IH]; intros pid l; simpl; repeat case_match; auto.
Qed.

Lemma mapR_failed {A B} (f : A → TxResult B) l :
  (∀ x, failed (f x) = false) → failed (mapR f l) = false.
Proof.
  intros Hf. induction l as [|x l IH]; [done|]. simpl. specialize (Hf x).
  destruct (f x) as [b|e|]; simpl; [|by destruct e|done]. by destruct (mapR f l).
Qed.

Lemma load_failed load tx fee :
  failed (load_tx_accounts load tx fee) = false ∧ failed (load_loaders load tx) = false.
Proof.
  split.
  - assert (failed (program_ids (E:=TransactionError) tx.(tx_message)) = false) as Hp.
    { apply mapR_failed. intros ix. unfold program_id. by destruct (_ !! _). }
    unfold load_tx_accounts. destruct (_ && _); [done|]. destruct (has_duplicates _); [done|].
    destruct (account_keys _); simpl; [done|].
    destruct (program_ids _) as [pids|e|]; simpl; [|by destruct e|done]. by repeat case_match.
  - apply mapR_failed. intros ix. destruct (_ !! _); [apply load_chain_failed|done].
Qed.

Definition tx_fee (i : BankInfo) (tx : Transaction) : Z :=
  calculate_fee (b_fee_calculator i) tx.(tx_message).

(** What happened to a transaction: it was refused, or it was loaded and its
    message was processed. *)
Inductive outcome (load : Pubkey → option Account) (i : BankInfo) (tick : Z) (tx : Transaction)
    (check : TxResult unit) : TxResult Loaded * TxResult unit → Prop :=
| refused e :
    failed (Err (A:=unit) e) = false → outcome load i tick tx check (Err e, Err e)
| processed accs loaders c r m :
    check = Ok tt →
    load_tx_accounts load tx (tx_fee i tx) = Ok accs →
    process_message open_library (instruction_processors i) tx.(tx_message) tick
      (mkMessageState c loaders accs) = (r, m) →
    r ≠ Panic →
    outcome load i tick tx check (Ok (ms_accounts m, ms_loaders m), r).

(** [unwind] returns when nothing panicked. *)
Lemma unwind_ok {A} (l : list (TxResult A)) s r s' :
  unwind l s = (Ok r, s') → s' = s ∧ Panic ∉ l.
Proof.
  unfold unwind. destruct (existsb _ l) eqn:He; [done|]. intros [= _ <-]. split; [done|].
  intros Hin. apply not_true_iff_false in He. apply He, existsb_exists. exists Panic.
  split; [by apply list_elem_of_In|done].
Qed.

Lemma execute_outcomes load b txs : ∀ checks c l c',
  execute open_library b c txs
    (accounts.load_accounts load txs checks (b_fee_calculator (info b))) = (l, c') →
  Panic ∉ l.*2 → length checks = length txs → Forall (λ r, failed r = false) checks →
  Forall3 (outcome load (info b) (tick_height b)) txs checks l.
Proof.
  unfold accounts.load_accounts.
  induction txs as [|tx txs IH]; intros [|check checks] c l c'; try done; cbn [zip_with].
  { intros [= <- <-] _ _ _. constructor. }
  match goal with |- context [?x :: zip_with _ txs checks] => destruct x as [[accs loaders]|e|] eqn:Hx end;
    cbn [execute].
  - destruct (process_message _ _ _ _ _) as [r m] eqn:Hm.
    destruct (execute _ _ _ _ _) as [l' c1] eqn:Hl'. intros [= <- <-] Hp Hlen [_ Hck]%Forall_cons.
    rewrite fmap_cons in Hp. constructor; [|eapply IH; [exact Hl'|set_solver|simpl in Hlen; lia|done]].
    destruct check as [[]| |]; simpl in Hx; [|done..].
    destruct (load_tx_accounts _ tx _) eqn:Hload; simpl in Hx; [|done..].
    destruct (load_loaders _ tx); simplify_eq/=. econstructor; [done..|set_solver].
  - destruct (execute _ _ _ _ _) as [l' c1] eqn:Hl'. intros [= <- <-] Hp Hlen [Hc Hck]%Forall_cons.
    rewrite fmap_cons in Hp.
    constructor; [constructor|eapply IH; [exact Hl'|set_solver|simpl in Hlen; lia|done]].
    destruct (load_failed load tx (tx_fee (info b) tx)) as [H1 H2]. unfold tx_fee in H1.
    destruct check as [[]|e'|]; simpl in Hx; [|by injection Hx as ->|done].
    destruct (load_tx_accounts _ tx _); simpl in Hx; [|by injection Hx as ->|done].
    destruct (load_loaders _ tx); simpl in Hx; [done|by injection Hx as ->|done].
  - destruct (execute _ _ _ _ _) as [l' c1]. intros [= <- <-] Hp. rewrite fmap_cons in Hp. set_solver.
Qed.

(** ** Collecting the fees *)

(** The account that pays for the [i]-th transaction, whose program failed. *)
Definition charged (txs : list Transaction) (executed : list (TxResult unit)) (i : nat) k : Prop :=
  ∃ tx r, txs !! i = Some tx ∧ executed !! i = Some r ∧ failed r = true ∧
    head tx.(tx_message).(account_keys) = Some k.

Lemma charged_cons tx r txs executed i k :
  charged (tx :: txs) (r :: executed) (Datatypes.S i) k ↔ charged txs executed i k.
Proof. done. Qed.

(** One turn of [collect_fees]. *)
Lemma collect_fees_cons fees tx txs r executed s rs fees' s' :
  collect_fees fees (tx :: txs) (r :: executed) s = (Ok (rs, fees'), s') →
  ∃ r0 fees1 s1 rs', rs = r0 :: rs' ∧ collect_fees fees1 txs executed s1 = (Ok (rs', fees'), s') ∧
    let fee := tx_fee (info (self s)) tx in
    (failed r = false ∧ s1 = s ∧ r0 = r ∧ fees1 = if is_ok r then u64_add fees fee else fees) ∨
    (failed r = true ∧ ∃ k w, head tx.(tx_message).(account_keys) = Some k ∧
       withdraw k fee s = (w, s1) ∧ w ≠ Panic ∧ r0 = w ∧
       fees1 = if is_ok w then u64_add fees fee else fees).
Proof.
  cbn [collect_fees]. intros (? & ? & [= -> ->] & H)%bind_ok.
  apply bind_ok in H as ([r0 fees1] & s1 & H1 & H).
  apply bind_ok in H as ([rs' fees2] & s2 & H2 & [= <- <- <-]).
  exists r0, fees1, s1, rs'. split_and!; [done..|]. simpl.
  destruct r as [[]|e|]; [left; by injection H1 as <- <- <-| |left; by injection H1 as <- <- <-].
  destruct e; try (left; by injection H1 as <- <- <-). right. split; [done|].
  destruct (account_keys _) as [|k ks]; [done|]. exists k.
  destruct (withdraw k _ _) as [[[]|e'|] s3] eqn:Hw; simplify_eq/=;
    eexists; by split_and!.
Qed.

Lemma tx_fee_u64 i tx : is_u64 (tx_fee i tx).
Proof. apply wrap64_range. Qed.

Definition tx_keyed (tx : Transaction) : Prop := Forall is_key tx.(tx_message).(account_keys).

Lemma head_keyed tx k : tx_keyed tx → head tx.(tx_message).(account_keys) = Some k → is_key k.
Proof. unfold tx_keyed. destruct (account_keys _); [done|]. by intros [? _]%Forall_cons [= ->]. Qed.

(** What the fees of the failed transactions do to the accounts: only
    the charged ones change, and each of them pays. *)
Lemma collect_fees_accounts txs : ∀ executed fees s rs fees' s' room,
  collect_fees fees txs executed s = (Ok (rs, fees'), s') → tip s room →
  (length txs ≤ room)%nat → Forall tx_keyed txs →
  (∃ room', tip s' room' ∧ (room ≤ room' + length txs)%nat) ∧ same_bank s s' ∧
  (∀ k, (∀ i, ¬ charged txs executed i k) → loaded s' k = loaded s k) ∧
  (∀ i k a tx, charged txs executed i k → (∀ j, charged txs executed j k → j = i) →
     txs !! i = Some tx → loaded s k = Some a → difs a ≠ 0 → tx_fee (info (self s)) tx ≤ difs a →
     loaded s' k = Some (kept (with_difs (difs a - tx_fee (info (self s)) tx) a))).
Proof.
  induction txs as [|tx txs IH]; intros executed fees s rs fees' s' room Hc Htip Hroom Hkey.
  { injection Hc as _ _ <-. split_and!; [eauto with lia|done..|]. by intros ???? (? & ? & ? & _). }
  destruct executed as [|r executed].
  { injection Hc as _ _ <-. split_and!; [eauto with lia|done..|]. by intros ???? (? & ? & ? & ? & _). }
  apply Forall_cons in Hkey as [Hk Hkey]. simpl in Hroom.
  apply collect_fees_cons in Hc as (r0 & fees1 & s1 & rs' & -> & Hc & Hcase).
  assert (∃ room1, tip s1 room1 ∧ (room ≤ Datatypes.S room1)%nat ∧ same_bank s s1 ∧
    (∀ k, ¬ charged (tx :: txs) (r :: executed) 0 k → loaded s1 k = loaded s k) ∧
    (∀ k a, charged (tx :: txs) (r :: executed) 0 k → loaded s k = Some a → difs a ≠ 0 →
       tx_fee (info (self s)) tx ≤ difs a →
       loaded s1 k = Some (kept (with_difs (difs a - tx_fee (info (self s)) tx) a))))
    as (room1 & Htip1 & Hroom1 & Hsame & Hother & Hpaid).
  { destruct Hcase as [(Hf & -> & _)|(Hf & k & w & Hh & Hw & Hw' & _)].
    - exists room. split_and!; [done|lia|done..|]. intros k a (? & ? & ? & ? & ? & _). simplify_eq/=. congruence.
    - apply (withdraw_spec _ _ _ _ _ room) in Hw
        as [(e & -> & -> & Hpoor)|(-> & ? & ? & a & Ha & Hle & Hl)];
        [| |done..|by eapply head_keyed|apply tx_fee_u64|lia].
      + exists room. split_and!; [done|lia|done..|]. intros k' a (? & ? & ? & ? & ? & ?) Ha Hne Hle.
        simplify_eq/=. specialize (Hpoor _ Ha Hne). lia.
      + exists (room - 1)%nat. split_and!; [done|lia|done| |].
        * intros k' Hnc. rewrite Hl. destruct (Z.eqb_spec k' k) as [->|]; [|done].
          destruct Hnc. by exists tx, r.
        * intros k' b (? & ? & ? & ? & ? & ?) Hb _ _. simplify_eq/=. by rewrite Hl, Z.eqb_refl. }
  destruct (IH _ _ _ _ _ _ room1 Hc Htip1 ltac:(lia) Hkey)
    as ((room' & ? & ?) & [Hi Hst] & Hun & Hch). destruct Hsame as [Hi1 Hst1].
  split_and!; [exists room'; split; [done|simpl; lia]|split; congruence| |].
  - intros k Hnc. rewrite Hun; [apply Hother, Hnc|]. intros i. apply (Hnc (Datatypes.S i)).
  - intros [|i] k a tx' Hci Huniq Htx Ha Hne Hle.
    + injection Htx as <-. rewrite Hun; [by apply Hpaid|].
      intros j Hj. by specialize (Huniq (Datatypes.S j) Hj).
    + simpl in Htx. rewrite Hi1 in Hch. eapply (Hch i); [done| |done| |done..].
      * intros j Hj. specialize (Huniq (Datatypes.S j) Hj). lia.
      * rewrite Hother; [done|]. intros Hc0. by specialize (Huniq 0%nat Hc0).
Qed.

(** ** Totals *)

Definition total (ks : list Pubkey) s : Z := Zsum (balance s <$> ks).

Lemma total_update ks k s s' :
  NoDup ks → k ∈ ks → (∀ k', k' ≠ k → loaded s' k' = loaded s k') →
  total ks s' = total ks s + (balance s' k - balance s k).
Proof.
  intros Hnd Hin Hl. unfold total. rewrite (Zsum_change (balance s) (balance s') ks [k]).
  - simpl. lia.
  - done.
  - apply NoDup_singleton.
  - set_solver.
  - intros k' Hk'. unfold balance. rewrite Hl; [done|set_solver].
Qed.

(** The fees of the transactions that succeeded. *)
Definition ok_fees (i : BankInfo) (txs : list Transaction) (executed : list (TxResult unit)) : Z :=
  Zsum (zip_with (λ tx r, if is_ok r then tx_fee i tx else 0) txs executed).

Lemma collect_fees_total txs : ∀ executed fees s rs fees' s' room ks,
  collect_fees fees txs executed s = (Ok (rs, fees'), s') → tip s room →
  (length txs ≤ room)%nat → Forall tx_keyed txs → NoDup ks →
  (∀ i k, charged txs executed i k → k ∈ ks) →
  wrap64 (total ks s' + fees') =
    wrap64 (total ks s + fees + ok_fees (info (self s)) txs executed).
Proof.
  induction txs as [|tx txs IH]; intros executed fees s rs fees' s' room ks Hc Htip Hroom Hkey Hnd Hin.
  { injection Hc as _ <- <-. unfold ok_fees. simpl. f_equal; lia. }
  destruct executed as [|r executed].
  { injection Hc as _ <- <-. unfold ok_fees. simpl. f_equal; lia. }
  apply Forall_cons in Hkey as [Hk Hkey]. simpl in Hroom.
  apply collect_fees_cons in Hc as (r0 & fees1 & s1 & rs' & -> & Hc & Hcase).
  assert (∀ i k, charged txs executed i k → k ∈ ks) as Hin' by (intros i k; apply (Hin (Datatypes.S i))).
  unfold ok_fees. cbn [zip_with Zsum]. fold (ok_fees (info (self s)) txs executed).
  destruct Hcase as [(Hf & -> & _ & ->)|(Hf & k & w & Hh & Hw & Hw' & _ & ->)].
  - rewrite (IH _ _ _ _ _ _ room ks Hc Htip ltac:(lia) Hkey Hnd Hin').
    destruct (is_ok r); [|f_equal; lia]. unfold u64_add.
    rewrite <- Z.add_assoc, (Z.add_comm (wrap64 _)), Z.add_assoc, wrap64_add_r. f_equal; lia.
  - assert (is_ok r = false) as -> by (by destruct r as [|[]|]).
    apply (withdraw_spec _ _ _ _ _ room) in Hw
      as [(e & -> & -> & _)|(-> & Htip1 & [Hi _] & a & Ha & Hle & Hl)];
      [| |done..|by eapply head_keyed|apply tx_fee_u64|lia].
    + rewrite (IH _ _ _ _ _ _ room ks Hc Htip ltac:(lia) Hkey Hnd Hin'). simpl. f_equal; lia.
    + rewrite (IH _ _ _ _ _ _ (room - 1)%nat ks Hc Htip1 ltac:(lia) Hkey Hnd Hin'), Hi.
      rewrite (total_update ks k s s1 Hnd).
      * unfold balance. rewrite Hl, Ha, Z.eqb_refl. simpl. unfold u64_add.
        rewrite <- Z.add_assoc, (Z.add_comm (wrap64 _)), Z.add_assoc, wrap64_add_r. f_equal; lia.
      * apply (Hin 0%nat). by exists tx, r.
      * intros k' Hne. rewrite Hl. by destruct (Z.eqb_spec k' k).
Qed.

(** ** The run of a batch *)

Definition max_age := MAX_RECENT_BLOCKHASHES.

(** What was loaded and executed for each transaction of a batch. *)
Definition executed_batch s (txs : list Transaction) : list (TxResult Loaded * TxResult unit) :=
  match accounts.lock_accounts (locks (self s)) txs with
  | Some (rs, _) =>
      (execute open_library (self s) (symbol_cache (self s)) txs
        (accounts.load_accounts (loaded s) txs
           (check_transactions (self s) (statuses s) txs rs max_age)
           (b_fee_calculator (info (self s))))).1
  | None => []
  end.

Lemma execute_ext b b' c txs l :
  info b' = info b → tick_height b' = tick_height b →
  execute open_library b' c txs l = execute open_library b c txs l.
Proof.
  intros Hi Ht. revert c txs. induction l as [|[[accs ls]|e|] l IH]; intros c [|tx txs]; try done;
    simpl; rewrite ?Hi, ?Ht; [|by rewrite IH..].
  destruct (process_message _ _ _ _ _). by rewrite IH.
Qed.

Lemma lock_accounts_length l txs rs l' :
  accounts.lock_accounts l txs = Some (rs, l') → length rs = length txs.
Proof.
  revert l rs. induction txs as [|tx txs IH]; intros l rs; simpl; [by intros [= <- _]|].
  destruct (lock_tx l tx) as [[r l1]|]; [|done]. simpl.
  destruct (accounts.lock_accounts l1 txs) as [[rs' l2]|] eqn:H1; [|done]. intros [= <- ->].
  simpl. by rewrite (IH _ _ H1).
Qed.

(** The states in between differ from their neighbours in parts of the bank
    that the accounts do not depend on. *)
Definition like s s' : Prop := db s' = db s ∧ info (self s') = info (self s).

Record batch_run s txs rs results s' s1 s2 s3 s4 fees lk : Prop := {
  br_locks : accounts.lock_accounts (locks (self s)) txs = Some (rs, lk);
  br_outcomes : Forall3 (outcome (loaded s) (info (self s)) (tick_height (self s))) txs
    (check_transactions (self s) (statuses s) txs rs max_age) (executed_batch s txs);
  br_before : like s s1;
  br_store : store_accounts
    (accounts_to_store txs (executed_batch s txs).*2 (executed_batch s txs).*1) s1 = (Ok tt, s2);
  br_between : like s2 s3;
  br_fees : collect_fees 0 txs (executed_batch s txs).*2 s3 = (Ok (results, fees), s4);
  br_deposit : ∃ s5, deposit (collector_id (info (self s4))) fees s4 = (Ok tt, s5) ∧ like s5 s' ∧
    statuses s' = statuses s5;
  br_statuses : statuses s3 = foldl (insert_status gen_range (slot (info (self s)))) (statuses s)
    (zip txs (executed_batch s txs).*2);
}.

Lemma process_transactions_run txs s results s' :
  process_transactions open_library gen_range txs s = (Ok results, s') →
  ∃ rs s1 s2 s3 s4 fees lk, batch_run s txs rs results s' s1 s2 s3 s4 fees lk.
Proof.
  unfold process_transactions. intros (rs & sl & Hlock & H)%bind_ok.
  apply bind_ok in H as (results' & s6 & Hlec & H).
  unfold lock_accounts in Hlock. apply bind_ok in Hlock as (? & ? & [= <- <-] & Hlock).
  destruct (accounts.lock_accounts _ txs) as [[rs' lk]|] eqn:Hlk; [|done].
  apply bind_ok in Hlock as ([] & s01 & [-> Hnp]%unwind_ok & Hlock).
  apply bind_ok in Hlock as ([] & s02 & [= <-] & [= <- <-]).
  unfold load_execute_and_commit_transactions in Hlec.
  apply bind_ok in Hlec as ([laccs exec] & s7 & Hle & Hcommit).
  unfold load_and_execute_transactions in Hle.
  apply bind_ok in Hle as (? & ? & [= <- <-] & Hle).
  apply bind_ok in Hle as (ld & s8 & Hld & Hle).
  unfold load_accounts in Hld. apply bind_ok in Hld as (? & ? & [= <- <-] & Hld).
  apply bind_ok in Hld as ([] & s9 & [-> _]%unwind_ok & [= <- <-]).
  destruct (execute _ _ _ _ _) as [l c] eqn:Hx.
  apply bind_ok in Hle as ([] & s10 & [-> Hpan]%unwind_ok & Hle).
  apply bind_ok in Hle as ([] & s11 & [= <-] & [= <- <- <-]).
  unfold commit_transactions in Hcommit.
  apply bind_ok in Hcommit as ([] & s12 & [= <-] & Hcommit).
  apply bind_ok in Hcommit as ([] & s2 & Hstore & Hcommit).
  apply bind_ok in Hcommit as ([] & s13 & [= <-] & Hcommit).
  apply bind_ok in Hcommit as ([] & s3 & [= <-] & Hcommit).
  unfold filter_program_errors_and_collect_fee in Hcommit.
  apply bind_ok in Hcommit as ([results'' fees] & s4 & Hfees & Hcommit).
  apply bind_ok in Hcommit as (? & ? & [= <- <-] & Hcommit).
  apply bind_ok in Hcommit as ([] & s5 & Hdep & [= <- <-]).
  apply bind_ok in H as ([] & s14 & [= <-] & [= <- <-]).
  assert (executed_batch s txs = l) as Hl.
  { unfold executed_batch. rewrite Hlk. rewrite (execute_ext (self s)) in Hx by done.
    exact (f_equal fst Hx). }
  destruct (store_accounts_frame _ _ _ Hstore) as [Hself2 Hst2].
  do 7 eexists. split; rewrite ?Hl; [exact Hlk| | |exact Hstore| |exact Hfees| |].
  - apply (execute_outcomes (loaded s) (self s) _ _ (symbol_cache (self s)) _ c); [|done|..].
    + by rewrite (execute_ext (self s)) in Hx.
    + by eapply check_transactions_length, lock_accounts_length.
    + by eapply check_transactions_failed, lock_accounts_failed.
  - split; [done|]. by destruct (existsb _ _).
  - done.
  - by exists s5.
  - simpl. rewrite Hst2, Hself2. simpl. by destruct (existsb _ _).
Qed.

(** ** What a batch stores *)

(** The keys whose accounts are loaded: those that are not programs. *)
Definition called_keys (tx : Transaction) (pids : list Pubkey) : list Pubkey :=
  filter (λ key, key ∉ pids) tx.(tx_message).(account_keys).

(** The form of the messages for which the batch is sound: the keys that are
    not programs come first and are all locked, so that no account that is
    loaded is credit-only. *)
Record plain (tx : Transaction) : Prop := {
  pl_keyed : tx_keyed tx;
  pl_u8 : indices_u8 tx.(tx_message);
  pl_locked : ∀ pids ks, program_ids (E:=TransactionError) tx.(tx_message) = Ok pids →
    locked_keys (E:=TransactionError) tx.(tx_message) = Ok ks → called_keys tx pids `prefix_of` ks;
}.

Lemma locked_keys_prefix m ks :
  locked_keys (E:=TransactionError) m = Ok ks → ks `prefix_of` m.(account_keys).
Proof. unfold locked_keys. destruct (_ <? 0); [done|]. intros [= <-]. apply prefix_take. Qed.

(** What [accounts_to_store] has for one transaction. *)
Definition part (tx : Transaction) (x : TxResult Loaded * TxResult unit) : list (Pubkey * Account) :=
  match x.2, x.1 with
  | Ok _, Ok acc => zip tx.(tx_message).(account_keys) acc.1
  | _, _ => []
  end.

Lemma accounts_to_store_parts txs (outs : list (TxResult Loaded * TxResult unit)) :
  accounts_to_store txs outs.*2 outs.*1 = mjoin (zip_with part txs outs).
Proof.
  unfold accounts_to_store. f_equal. revert outs.
  induction txs as [|tx txs IH]; intros [|[l r] outs]; try done. simpl. f_equal; apply IH.
Qed.

(** The accounts of a processed transaction, before and after. *)
Record tx_processed (load : Pubkey → option Account) (i : BankInfo) (tx : Transaction)
    (called : list Pubkey) (x : TxResult Loaded * TxResult unit) : Prop := {
  tp_called : called `prefix_of` tx.(tx_message).(account_keys);
  tp_nodup : NoDup called;
  tp_payer : ∃ k a, head called = Some k ∧ head tx.(tx_message).(account_keys) = Some k ∧
    load k = Some a ∧ difs a ≠ 0 ∧ tx_fee i tx ≤ difs a;
  tp_ok : x.2 = Ok tt → ∃ accs ls, x.1 = Ok (accs, ls) ∧ length accs = length called ∧
    wrap64 (Zsum (difs <$> accs)) =
      wrap64 (Zsum ((λ k, from_option difs 0 (load k)) <$> called) - tx_fee i tx);
}.

Lemma head_prefix {A} (l k : list A) x : l `prefix_of` k → head l = Some x → head k = Some x.
Proof. intros [l' ->]. by destruct l. Qed.

Lemma outcome_processed load i tick tx check x ks :
  outcome load i tick tx check x → plain tx →
  locked_keys (E:=TransactionError) tx.(tx_message) = Ok ks →
  (∃ e, x = (Err e, Err e)) ∨
  (check = Ok tt ∧ ∃ called, called `prefix_of` ks ∧ tx_processed load i tx called x).
Proof.
  intros [e _|accs loaders c r m Hc Hload Hm Hr] [Hk Hu8 Hpl] Hks; [by left; exists e|right].
  split; [done|]. apply load_tx_inv in Hload as (pids & payer & rest & H).
  pose proof (tl_called _ _ _ _ _ _ _ H) as Hcalled. unfold called_accounts in Hcalled.
  fold (called_keys tx pids) in Hcalled. pose proof (tl_programs _ _ _ _ _ _ _ H) as Hp.
  specialize (Hpl _ _ Hp Hks). pose proof (locked_keys_prefix _ _ Hks) as Hpre.
  exists (called_keys tx pids). split; [done|].
  assert (called_keys tx pids `prefix_of` account_keys (tx_message tx)) as Hck by (by etrans).
  destruct (tl_funds _ _ _ _ _ _ _ H) as [Hne Hle]. split; [done|by apply NoDup_filter, H| |].
  - destruct (called_keys tx pids) as [|k called]; [done|]. injection Hcalled as Hpay _. exists k.
    unfold load_or_default in Hpay. destruct (load k) as [a|] eqn:Ha; simpl in Hpay; subst payer; [|done].
    exists a. split_and!; [done|by eapply head_prefix|done..].
  - simpl. intros ->. apply process_message_ok in Hm as [Hsum Hlen]; [|done]. simpl in *.
    do 2 eexists. split; [done|]. rewrite (tl_accs _ _ _ _ _ _ _ H) in *. split.
    + rewrite Hlen. simpl. by rewrite <- (length_fmap (load_or_default load)), Hcalled.
    + rewrite !u64_sum_wrap in Hsum. rewrite Hsum.
      assert ((λ k, from_option difs 0 (load k)) <$> called_keys tx pids = difs <$> payer :: rest) as ->.
      { rewrite <- Hcalled, <- list_fmap_compose. apply list_fmap_ext. intros _ k _.
        simpl. unfold load_or_default. by destruct (load k). }
      rewrite !fmap_cons. cbn [Zsum]. destruct payer; simpl. unfold u64_sub.
      rewrite wrap64_add_l. f_equal. unfold tx_fee. lia.
Qed.

Lemma fmap_mjoin {A B} (f : A → B) (ls : list (list A)) :
  f <$> mjoin ls = mjoin ((λ l, f <$> l) <$> ls).
Proof. induction ls as [|l ls IH]; [done|]. simpl. rewrite fmap_app. by f_equal. Qed.

Lemma zip_prefix {A B} (l k : list A) (m : list B) :
  l `prefix_of` k → length m = length l → zip k m = zip l m.
Proof.
  intros [l' ->]. revert m. induction l as [|x l IH]; intros [|y m]; try done.
  - by destruct l'.
  - simpl. intros [=]. f_equal. by apply IH.
Qed.

Lemma part_processed load i tx called x :
  tx_processed load i tx called x →
  (is_ok x.2 = false ∧ part tx x = []) ∨
  (is_ok x.2 = true ∧ ∃ accs ls, x.1 = Ok (accs, ls) ∧ part tx x = zip called accs ∧
     length accs = length called ∧
     wrap64 (Zsum (difs <$> accs)) =
       wrap64 (Zsum ((λ k, from_option difs 0 (load k)) <$> called) - tx_fee i tx)).
Proof.
  intros [Hpre _ _ Hok]. unfold part. destruct x as [l r]. destruct r as [[]| |]; [right|by left..].
  split; [done|]. destruct (Hok eq_refl) as (accs & ls & -> & Hlen & Hsum). exists accs, ls.
  split_and!; [done| |done..]. simpl. by apply zip_prefix.
Qed.

(** Every transaction of a batch was refused or processed. *)
Definition settled (load : Pubkey → option Account) (i : BankInfo) (tx : Transaction)
    (x : TxResult Loaded * TxResult unit) : Prop :=
  (∃ e, x = (Err e, Err e)) ∨ ∃ called, tx_processed load i tx called x.

Lemma parts_sum load i txs outs :
  Forall2 (settled load i) txs outs →
  wrap64 (Zsum ((λ p, difs p.2 - from_option difs 0 (load p.1)) <$> mjoin (zip_with part txs outs))) =
  wrap64 (- ok_fees i txs outs.*2).
Proof.
  induction 1 as [|tx x txs outs Hx _ IH]; [done|]. unfold ok_fees. rewrite fmap_cons.
  cbn [zip_with]. rewrite mjoin_cons, fmap_app, Zsum_app. cbn [Zsum].
  fold (ok_fees i txs outs.*2).
  assert (wrap64 (Zsum ((λ p, difs p.2 - from_option difs 0 (load p.1)) <$> part tx x)) =
          wrap64 (- (if is_ok x.2 then tx_fee i tx else 0))) as Hpart.
  { destruct Hx as [[e ->]|[called Hp]]; [done|].
    apply part_processed in Hp as [(-> & ->)|(-> & accs & ls & _ & -> & Hlen & Hsum)]; [done|].
    revert Hsum. rewrite !wrap64_eq. intros [q Hq]. exists q.
    assert (∀ l : list Pubkey, length accs = length l →
      Zsum ((λ p, difs p.2 - from_option difs 0 (load p.1)) <$> zip l accs) =
      Zsum (difs <$> accs) - Zsum ((λ k, from_option difs 0 (load k)) <$> l)) as Hzip.
    { clear. induction accs as [|a accs IH]; intros [|k l]; try done. intros [=].
      rewrite !fmap_cons. simpl zip. rewrite fmap_cons. cbn [Zsum]. rewrite IH by done. simpl. lia. }
    rewrite Hzip by done. lia. }
  revert Hpart IH. rewrite !wrap64_eq. intros [q Hq] [q' Hq']. exists (q + q'). lia.
Qed.

Lemma lock_accounts_granted l txs rs l' i tx :
  accounts.lock_accounts l txs = Some (rs, l') → txs !! i = Some tx → rs !! i = Some (Ok tt) →
  ∃ ks, granted txs rs i ks.
Proof.
  intros Hl Htx Hr. cut (∃ ks, locked_keys (E:=TransactionError) tx.(tx_message) = Ok ks).
  { intros [ks Hks]. exists ks, tx. done. }
  revert l rs i Hl Htx Hr. induction txs as [|tx0 txs IH]; intros l rs i; [done|]. simpl.
  destruct (lock_tx l tx0) as [[r l1]|] eqn:H1; [|done]. simpl.
  destruct (accounts.lock_accounts l1 txs) as [[rs' l2]|] eqn:H2; [|done]. intros [= <- ->].
  destruct i as [|i]; simpl; [|by apply (IH _ _ _ H2)]. intros [= ->] [= ->].
  apply lock_tx_spec in H1 as [(ks & ? & _)|[? _]]; [eauto|done].
Qed.

Lemma batch_settled s txs rs results s' s1 s2 s3 s4 fees lk i tx x :
  batch_run s txs rs results s' s1 s2 s3 s4 fees lk → Forall plain txs →
  txs !! i = Some tx → executed_batch s txs !! i = Some x →
  (∃ e, x = (Err e, Err e)) ∨
  ∃ ks called, granted txs rs i ks ∧ called `prefix_of` ks ∧
    tx_processed (loaded s) (info (self s)) tx called x.
Proof.
  intros Hrun Hplain Htx Hx. pose proof (br_outcomes _ _ _ _ _ _ _ _ _ _ _ Hrun) as Hout.
  destruct (Forall3_lookup_r _ _ _ _ _ _ Hout Hx) as (tx' & check & Htx' & Hcheck & Ho).
  simplify_eq. rewrite Forall_forall in Hplain.
  assert ((∃ e, x = (Err e, Err e)) ∨ check = Ok tt) as [?| ->] by (destruct Ho; eauto); [by left|].
  apply check_transactions_ok in Hcheck as (tx' & Htx' & Hrs & _). simplify_eq.
  destruct (lock_accounts_granted _ _ _ _ _ _ (br_locks _ _ _ _ _ _ _ _ _ _ _ Hrun) Htx Hrs) as [ks Hg].
  pose proof Hg as (tx' & Htx' & _ & Hks). simplify_eq.
  apply (outcome_processed _ _ _ _ _ _ ks) in Ho as [[e ->]|(_ & called & ? & ?)];
    [left; eauto|right; by exists ks, called|by apply Hplain, (list_elem_of_lookup_2 _ i)|done].
Qed.

Lemma last_stored_None k l : k ∉ l.*1 → last_stored k l = None.
Proof.
  induction l as [|[k' a] l IH]; [done|]. rewrite fmap_cons. simpl. intros Hk.
  rewrite IH by set_solver. destruct (Z.eqb_spec k k'); [set_solver|done].
Qed.

Lemma last_stored_Some k a l : NoDup l.*1 → (k, a) ∈ l → last_stored k l = Some a.
Proof.
  induction l as [|[k' b] l IH]; [by intros _ ?%elem_of_nil|]. rewrite fmap_cons. simpl.
  intros [Hk' Hnd]%NoDup_cons [[= <- <-]|Hin]%elem_of_cons.
  - by rewrite last_stored_None, Z.eqb_refl.
  - by rewrite IH.
Qed.

Lemma last_stored_elem k a l : last_stored k l = Some a → (k, a) ∈ l.
Proof.
  induction l as [|[k' b] l IH]; [done|]. simpl. destruct (last_stored k l) as [c|].
  - intros [= ->]. right. by apply IH.
  - destruct (Z.eqb_spec k k') as [->|]; [|done]. intros [= ->]. left.
Qed.

(** The number of stores that a batch may need. *)
Definition batch_room (txs : list Transaction) : nat :=
  (length (mjoin ((λ tx, tx.(tx_message).(account_keys)) <$> txs)) + length txs + 1)%nat.

(** The programs return accounts of the Rust type. *)
Definition executed_typed s (txs : list Transaction) : Prop :=
  ∀ accs ls r, (Ok (accs, ls), r) ∈ executed_batch s txs → Forall typed_account accs.

Lemma parts_length txs outs :
  (length (mjoin (zip_with part txs outs)) ≤
   length (mjoin ((λ tx, tx.(tx_message).(account_keys)) <$> txs)))%nat.
Proof.
  revert outs. induction txs as [|tx txs IH]; intros [|x outs]; cbn [zip_with];
    [simpl; lia..|]. rewrite fmap_cons, !mjoin_cons, !length_app. specialize (IH outs).
  assert (length (part tx x) ≤ length (account_keys (tx_message tx)))%nat; [|lia].
  unfold part. destruct x.2, x.1; simpl; try lia. rewrite length_zip_with. lia.
Qed.

(** The payer of a failed transaction is locked by it and can pay. *)
Lemma charged_granted s txs rs results s' s1 s2 s3 s4 fees lk i k tx :
  batch_run s txs rs results s' s1 s2 s3 s4 fees lk → Forall plain txs →
  charged txs (executed_batch s txs).*2 i k → txs !! i = Some tx →
  (∃ ks, granted txs rs i ks ∧ k ∈ ks) ∧
  ∃ a, loaded s k = Some a ∧ difs a ≠ 0 ∧ tx_fee (info (self s)) tx ≤ difs a.
Proof.
  intros Hrun Hplain (tx' & r & Htx & Hr & Hf & Hh) Htx'. simplify_eq.
  rewrite list_lookup_fmap in Hr. apply fmap_Some in Hr as (x & Hx & ->).
  destruct (batch_settled _ _ _ _ _ _ _ _ _ _ _ _ _ _ Hrun Hplain Htx Hx)
    as [[e ->]|(ks & called & Hg & Hpre & Hp)].
  - exfalso. pose proof (br_outcomes _ _ _ _ _ _ _ _ _ _ _ Hrun) as Hout.
    destruct (Forall3_lookup_r _ _ _ _ _ _ Hout Hx) as (? & ? & _ & _ & Ho).
    inversion Ho. simpl in *. congruence.
  - destruct (tp_payer _ _ _ _ _ Hp) as (k' & a & Hc & Hk & Ha & Hne & Hle). simplify_eq.
    split; [|eauto]. exists ks. split; [done|]. destruct Hpre as [l ->].
    destruct called; [done|]. injection Hc as ->. left.
Qed.

Section run.
Context {s s' : BankState S} {txs : list Transaction} {rs results : list (TxResult unit)}.
Context {s1 s2 s3 s4 : BankState S} {fees : Z} {lk : Locks} {room : nat}.
Hypothesis Hrun : batch_run s txs rs results s' s1 s2 s3 s4 fees lk.
Hypothesis Hplain : Forall plain txs.

Lemma executed_length : length (executed_batch s txs) = length txs.
Proof.
  pose proof (Forall3_length_lr _ _ _ _ (br_outcomes _ _ _ _ _ _ _ _ _ _ _ Hrun)). done.
Qed.

Lemma batch_settles : Forall2 (settled (loaded s) (info (self s))) txs (executed_batch s txs).
Proof.
  apply Forall2_same_length_lookup_2; [by rewrite executed_length|]. intros i tx x Htx Hx.
  destruct (batch_settled _ _ _ _ _ _ _ _ _ _ _ _ _ _ Hrun Hplain Htx Hx)
    as [?|(ks & called & _ & _ & ?)]; [by left|right; eauto].
Qed.

(** The keys that are stored for a transaction are locked by it. *)
Lemma part_granted i l k :
  zip_with part txs (executed_batch s txs) !! i = Some l → k ∈ l.*1 →
  ∃ ks, granted txs rs i ks ∧ k ∈ ks.
Proof.
  intros (tx & x & -> & Htx & Hx)%lookup_zip_with_Some Hk.
  destruct (batch_settled _ _ _ _ _ _ _ _ _ _ _ _ _ _ Hrun Hplain Htx Hx)
    as [[e ->]|(ks & called & Hg & Hpre & Hp)]; [by apply elem_of_nil in Hk|].
  exists ks. split; [done|]. apply part_processed in Hp as [(_ & Hnil)|(_ & accs & ls & _ & Hz & Hl & _)].
  - rewrite Hnil in Hk. by apply elem_of_nil in Hk.
  - rewrite Hz, fst_zip in Hk by lia. destruct Hpre as [l' ->]. set_solver.
Qed.

Lemma part_NoDup i l : zip_with part txs (executed_batch s txs) !! i = Some l → NoDup l.*1.
Proof.
  intros (tx & x & -> & Htx & Hx)%lookup_zip_with_Some.
  destruct (batch_settled _ _ _ _ _ _ _ _ _ _ _ _ _ _ Hrun Hplain Htx Hx)
    as [[e ->]|(ks & called & Hg & Hpre & Hp)]; [constructor|].
  pose proof (tp_nodup _ _ _ _ _ Hp).
  apply part_processed in Hp as [(_ & ->)|(_ & accs & ls & _ & -> & Hl & _)]; [constructor|].
  by rewrite fst_zip by lia.
Qed.

Lemma stored_NoDup :
  NoDup (mjoin (zip_with part txs (executed_batch s txs))).*1.
Proof.
  rewrite fmap_mjoin. apply NoDup_mjoin.
  - intros l (l' & -> & Hl')%list_elem_of_fmap. apply list_elem_of_lookup in Hl' as [i Hi].
    by eapply part_NoDup.
  - intros i j li lj k. rewrite !list_lookup_fmap.
    intros (l1 & Hi & ->)%fmap_Some (l2 & Hj & ->)%fmap_Some Hki Hkj.
    destruct (part_granted _ _ _ Hi Hki) as (ks & Hg & Hk).
    destruct (part_granted _ _ _ Hj Hkj) as (ks' & Hg' & Hk').
    destruct (lock_accounts_spec _ _ _ _ (br_locks _ _ _ _ _ _ _ _ _ _ _ Hrun)) as (_ & Hex & _).
    by eapply Hex.
Qed.

Lemma stored_granted k :
  k ∈ (mjoin (zip_with part txs (executed_batch s txs))).*1 →
  ∃ i ks r, granted txs rs i ks ∧ k ∈ ks ∧ (executed_batch s txs).*2 !! i = Some r ∧ is_ok r = true.
Proof.
  intros ([k' a] & -> & (l & Hin & Hl)%list_elem_of_join)%list_elem_of_fmap.
  apply list_elem_of_lookup in Hl as [i Hi].
  destruct (part_granted i l k' Hi) as (ks & Hg & Hk); [by apply (list_elem_of_fmap_2 fst) in Hin|].
  apply lookup_zip_with_Some in Hi as (tx & x & -> & Htx & Hx). exists i, ks, x.2.
  rewrite list_lookup_fmap, Hx. split_and!; [done..|]. unfold part in Hin.
  destruct x.2; [done|by apply elem_of_nil in Hin..].
Qed.

(** A key is not both stored and charged. *)
Lemma charged_not_stored i k :
  charged txs (executed_batch s txs).*2 i k →
  k ∉ (mjoin (zip_with part txs (executed_batch s txs))).*1.
Proof.
  intros Hc (j & ks & r & Hg & Hk & Hr & Hok)%stored_granted.
  pose proof Hc as (tx & r' & Htx & Hr' & Hf & _).
  destruct (charged_granted _ _ _ _ _ _ _ _ _ _ _ _ _ _ Hrun Hplain Hc Htx)
    as ((ks' & Hg' & Hk') & _).
  destruct (lock_accounts_spec _ _ _ _ (br_locks _ _ _ _ _ _ _ _ _ _ _ Hrun)) as (_ & Hex & _).
  pose proof (Hex _ _ _ _ _ Hg Hg' Hk Hk') as ->. simplify_eq. by destruct r.
Qed.

Notation stored := (mjoin (zip_with part txs (executed_batch s txs))).

Hypothesis Htip : tip s room.
Hypothesis Hroom : (batch_room txs ≤ room)%nat.
Hypothesis Htyped : executed_typed s txs.

Lemma stored_typed : Forall typed_entry stored.
Proof.
  apply Forall_forall. intros [k a] (l & Hin & Hl)%list_elem_of_join.
  apply list_elem_of_lookup in Hl as [i (tx & x & -> & Htx & Hx)%lookup_zip_with_Some].
  unfold part in Hin. destruct x as [[[accs ls]| |] [[]| |]]; simpl in Hin;
    try by apply elem_of_nil in Hin.
  pose proof (elem_of_zip_l _ _ _ _ Hin). pose proof (elem_of_zip_r _ _ _ _ Hin).
  apply list_elem_of_lookup_2 in Hx, Htx. split; simpl.
  - rewrite Forall_forall in Hplain. pose proof (pl_keyed _ (Hplain _ Htx)) as Hk.
    unfold tx_keyed in Hk. rewrite Forall_forall in Hk. auto.
  - specialize (Htyped _ _ _ Hx). rewrite Forall_forall in Htyped. auto.
Qed.

(** The accounts when the batch is stored and the fees of the failed
    transactions are not yet collected. *)
Lemma stored_loaded :
  tip s3 (room - length stored) ∧ info (self s3) = info (self s) ∧
  ∀ k, loaded s3 k = match last_stored k stored with Some a => Some (kept a) | None => loaded s k end.
Proof.
  destruct (br_before _ _ _ _ _ _ _ _ _ _ _ Hrun) as [Hd1 Hi1].
  destruct (br_between _ _ _ _ _ _ _ _ _ _ _ Hrun) as [Hd3 Hi3].
  pose proof (br_store _ _ _ _ _ _ _ _ _ _ _ Hrun) as Hst. rewrite accounts_to_store_parts in Hst.
  apply (store_accounts_spec _ _ _ room) in Hst as (Ht & Hself & _ & Hl).
  - unfold tip, loaded in *. by rewrite Hd3, Hi3, Hself, Hi1, Hd1 in *.
  - unfold tip. by rewrite Hd1, Hi1.
  - apply stored_typed.
  - pose proof (parts_length txs (executed_batch s txs)). unfold batch_room in Hroom. lia.
Qed.

Lemma stored_total ks :
  NoDup ks → (∀ tx k, tx ∈ txs → k ∈ tx.(tx_message).(account_keys) → k ∈ ks) →
  wrap64 (total ks s3 + ok_fees (info (self s)) txs (executed_batch s txs).*2) = wrap64 (total ks s).
Proof.
  intros Hnd Hks. destruct stored_loaded as (_ & _ & Hl). pose proof stored_NoDup as Hnds.
  pose proof (parts_sum _ _ _ _ batch_settles) as Hsum.
  assert (total ks s3 = total ks s + Zsum ((λ p, difs p.2 - balance s p.1) <$> stored)) as ->.
  { unfold total. rewrite (Zsum_change (balance s) (balance s3) ks stored.*1); [|done|done| |].
    - rewrite <- list_fmap_compose. do 2 f_equal. apply list_fmap_ext. intros i [k a] Hi. simpl.
      unfold balance at 1. rewrite Hl, (last_stored_Some k a) by (done || by eapply list_elem_of_lookup_2).
      by destruct a.
    - intros k ([k' a] & -> & (l & Hin & Hl')%list_elem_of_join)%list_elem_of_fmap.
      apply list_elem_of_lookup in Hl' as [i (tx & x & -> & Htx & Hx)%lookup_zip_with_Some].
      apply (Hks tx); [by eapply list_elem_of_lookup_2|]. unfold part in Hin.
      destruct x.2, x.1; try by apply elem_of_nil in Hin. by eapply elem_of_zip_l.
    - intros k Hk. unfold balance. by rewrite Hl, last_stored_None. }
  revert Hsum. rewrite !wrap64_eq. intros [q Hq]. exists q. unfold balance. lia.
Qed.
End run.

Lemma charged_key txs executed i k :
  charged txs executed i k → ∃ tx, tx ∈ txs ∧ k ∈ tx.(tx_message).(account_keys).
Proof.
  intros (tx & r & Htx & _ & _ & Hh). exists tx. split; [by eapply list_elem_of_lookup_2|].
  destruct (account_keys _); [done|]. injection Hh as ->. left.
Qed.


(** The accounts after a batch, apart from the collector's. *)
Lemma batch_loaded txs s results s' room :
  process_transactions open_library gen_range txs s = (Ok results, s') →
  tip s room → (batch_room txs ≤ room)%nat →
  Forall plain txs → executed_typed s txs → is_key (collector_id (info (self s))) →
  ∃ rs lk, accounts.lock_accounts (locks (self s)) txs = Some (rs, lk) ∧
  ∀ k, k ≠ collector_id (info (self s)) →
    (∀ i accs ls, executed_batch s txs !! i = Some (Ok (accs, ls), Ok tt) →
       ∀ tx a, txs !! i = Some tx → (k, a) ∈ zip tx.(tx_message).(account_keys) accs →
       loaded s' k = Some (kept a)) ∧
    (∀ i tx, charged txs (executed_batch s txs).*2 i k → txs !! i = Some tx →
       ∃ a, loaded s k = Some a ∧ tx_fee (info (self s)) tx ≤ difs a ∧
         loaded s' k = Some (kept (with_difs (difs a - tx_fee (info (self s)) tx) a))) ∧
    ((∀ i ks r, granted txs rs i ks → k ∈ ks → (executed_batch s txs).*2 !! i = Some r →
        is_ok r = false) → (∀ i, ¬ charged txs (executed_batch s txs).*2 i k) →
       loaded s' k = loaded s k).
Proof.
  intros (rs & s1 & s2 & s3 & s4 & fees & lk & Hrun)%process_transactions_run
    Htip Hroom Hplain Htyped Hck.
  exists rs, lk. split; [apply (br_locks _ _ _ _ _ _ _ _ _ _ _ Hrun)|]. intros k Hne.
  destruct (lock_accounts_spec _ _ _ _ (br_locks _ _ _ _ _ _ _ _ _ _ _ Hrun)) as (_ & Hex & _).
  destruct (stored_loaded Hrun Hplain Htip Hroom Htyped) as (Ht3 & Hi3 & Hl3).
  pose proof (br_fees _ _ _ _ _ _ _ _ _ _ _ Hrun) as Hfees.
  destruct (br_deposit _ _ _ _ _ _ _ _ _ _ _ Hrun) as (s5 & Hdep & [Hd' Hi'] & _).
  pose proof (parts_length txs (executed_batch s txs)) as Hlen. unfold batch_room in Hroom.
  assert (Forall tx_keyed txs) as Hkeyed by (eapply Forall_impl; [exact Hplain|by intros ? []]).
  destruct (collect_fees_accounts _ _ _ _ _ _ _ _ Hfees Ht3 ltac:(lia) Hkeyed)
    as ((room4 & Ht4 & Hr4) & [Hi4 _] & Hun & Hch).
  rewrite Hi4, Hi3 in Hdep. rewrite Hi3 in Hch.
  destruct (deposit_spec _ _ _ _ _ Hdep Ht4 Hck ltac:(lia)) as (_ & _ & Hother & _).
  assert (loaded s' k = loaded s4 k) as ->.
  { rewrite <- Hother by done. unfold loaded. by rewrite Hd', Hi'. }
  set (stored := mjoin (zip_with part txs (executed_batch s txs))) in *.
  split_and!.
  - intros i accs ls Hx tx a Htx Hin.
    assert ((k, a) ∈ stored) as Hs.
    { apply list_elem_of_join. exists (part tx (Ok (accs, ls), Ok tt)). split; [done|].
      apply (list_elem_of_lookup_2 _ i). apply lookup_zip_with_Some. eauto. }
    rewrite Hun, Hl3, (last_stored_Some k a); [done|by apply (stored_NoDup Hrun)|done|].
    intros j Hc. apply (charged_not_stored Hrun Hplain j k Hc).
    by apply (list_elem_of_fmap_2 fst) in Hs.
  - intros i tx Hc Htx.
    destruct (charged_granted _ _ _ _ _ _ _ _ _ _ _ _ _ _ Hrun Hplain Hc Htx)
      as ((ks & Hg & Hk) & a & Ha & Hd & Hle).
    exists a. split_and!; [done..|]. eapply (Hch i); [done| |done| |done..].
    + intros j Hcj. pose proof Hcj as (txj & ? & Htxj & _).
      destruct (charged_granted _ _ _ _ _ _ _ _ _ _ _ _ _ _ Hrun Hplain Hcj Htxj)
        as ((ks' & Hg' & Hk') & _). by eapply Hex.
    + rewrite Hl3, last_stored_None; [done|]. by apply (charged_not_stored Hrun Hplain i).
  - intros Hno Hnc. rewrite Hun by done. rewrite Hl3. rewrite last_stored_None; [done|].
    intros (i & ks & r & Hg & Hk & Hr & Hok)%(stored_granted Hrun Hplain).
    rewrite (Hno _ _ _ Hg Hk Hr) in Hok. done.
Qed.


(** ** Statuses *)

Lemma store_statuses k a s r s' : bank.store k a s = (r, s') → statuses s' = statuses s.
Proof.
  unfold bank.store, store_accounts, modify_self. unfold_monad.
  destruct (as_store _ _ _); by intros [= <- <-].
Qed.

Lemma withdraw_statuses k fee s r s' : withdraw k fee s = (r, s') → statuses s' = statuses s.
Proof.
  unfold withdraw. unfold_monad. destruct (get_account k s) as [a|]; [|by intros [= <- <-]].
  destruct (_ <? _); [by intros [= <- <-]|apply store_statuses].
Qed.

Lemma collect_fees_statuses txs : ∀ executed fees s rs fees' s',
  collect_fees fees txs executed s = (Ok (rs, fees'), s') →
  statuses s' = statuses s ∧
  ∀ i r, executed !! i = Some r → (i < length txs)%nat → failed r = false → rs !! i = Some r.
Proof.
  induction txs as [|tx txs IH]; intros executed fees s rs fees' s' Hc.
  { injection Hc as _ _ <-. split; [done|]. simpl. lia. }
  destruct executed as [|r executed]; [by injection Hc as _ _ <-|].
  apply collect_fees_cons in Hc as (r0 & fees1 & s1 & rs' & -> & [Hst Hrs]%IH & Hcase). simpl. split.
  - destruct Hcase as [(_ & -> & _)|(_ & k & w & _ & Hw & _)]; [done|].
    by rewrite Hst, (withdraw_statuses _ _ _ _ _ Hw).
  - intros [|i] r'; simpl; [|intros; apply Hrs; [done|lia|done]]. intros [= ->] _ Hf.
    by destruct Hcase as [(_ & _ & -> & _)|(Hf' & _)]; [|congruence].
Qed.

Lemma insert_statuses_has f sc l tx r sig :
  (tx, r) ∈ l → can_commit r = true → head tx.(signatures) = Some sig →
  status_cache_proofs.has_status (foldl (insert_status gen_range f) sc l)
    tx.(tx_message).(recent_blockhash) sig f r.
Proof.
  intros Hin Hc Hs. induction l as [|[tx' r'] l IH] using rev_ind; [by apply elem_of_nil in Hin|].
  rewrite foldl_app. simpl. apply elem_of_app in Hin as [Hin|[= <- <-]%list_elem_of_singleton].
  - specialize (IH Hin). destruct (signatures tx'); [done|]. destruct (can_commit r'); [|done].
    by apply status_cache_proofs.has_status_insert_other.
  - destruct (signatures tx); [done|]. injection Hs as ->. rewrite Hc.
    apply status_cache_proofs.has_status_insert.
Qed.

(** The status of a committed transaction is in the cache. *)
Lemma committed_status txs s results s' i tx r sig :
  process_transactions open_library gen_range txs s = (Ok results, s') →
  txs !! i = Some tx → (executed_batch s txs).*2 !! i = Some r → can_commit r = true →
  head tx.(signatures) = Some sig →
  status_cache_proofs.has_status (statuses s') tx.(tx_message).(recent_blockhash) sig
    (slot (info (self s))) r.
Proof.
  intros (rs & s1 & s2 & s3 & s4 & fees & lk & Hrun)%process_transactions_run Htx Hr Hc Hs.
  destruct (br_deposit _ _ _ _ _ _ _ _ _ _ _ Hrun) as (s5 & Hdep & _ & ->).
  unfold deposit in Hdep. apply bind_ok in Hdep as (? & ? & [= <- <-] & Hdep).
  apply store_statuses in Hdep as ->.
  destruct (collect_fees_statuses _ _ _ _ _ _ _ (br_fees _ _ _ _ _ _ _ _ _ _ _ Hrun)) as [-> _].
  rewrite (br_statuses _ _ _ _ _ _ _ _ _ _ _ Hrun). apply insert_statuses_has; [|done..].
  apply (list_elem_of_lookup_2 _ i). by apply lookup_zip_Some.
Qed.


End bank.
End bank_proofs.
