(* ===== verification/BankStore.v ===== *)
(** The accounts database is an account store for the bank: the instances of
    [AccountStore] and [AccountStoreLaws] (Bank.v) for [AccountsDB], by the
    refinement of AccountsDB.v; and concrete banks on it, which are the
    witnesses of the theorems of BankProofs.v. *)
From S2P Require Import Prelude Interface Codec SystemProgram VoteState Message MessageProcessor.
From S2P Require Import AccountsIndex EpochSchedule BlockhashQueue StatusCache Stake AppendVec.
From S2P Require Import AccountsDB Accounts Bank BankProofs.

Module bank_store.
Import account_store append_vec append_vec_proofs accounts_index accounts_index_proofs.
Import accounts_db_proofs.

Section store.
Context `{!Ranged StorageMeta, !Layout StorageMeta, !LayoutLaws StorageMeta}.
Context `{!Ranged AccountBalance, !Layout AccountBalance, !LayoutLaws AccountBalance}.
Context (pick : nat → list Z → Z) (pick_in : ∀ turn l, l ≠ [] → pick turn l ∈ l).
(** The ranges of the layout are those of the Rust types. *)
Context (typed_balance : ∀ a, typed_account a → in_range (balance_of a)).
Context (typed_meta : ∀ w k n, is_u64 w → is_key k → is_u64 n → in_range (mkMeta w k n)).

(** Enough turns for any batch that fits (lemma [store_returns] below). *)
Definition store_fuel (db : accounts_db.AccountsDB) (l : list (Pubkey * Account)) : nat :=
  (2 * length l + size (accounts_db.storage db))%nat.

Instance accounts_db_store : AccountStore accounts_db.AccountsDB := {|
  as_load := accounts_db.load_slow;
  as_store db fork l := accounts_db.store pick (store_fuel db l) db fork l;
  as_has_accounts := accounts_db.has_accounts;
  as_scan := accounts.scan;
  as_add_root db fork := match accounts_db.add_root db fork with Ok db => Some db | _ => None end;
  as_purge_fork := accounts_db.purge_fork;
|}.

Lemma n_dirty_size fork (s : accounts_db.AccountStorage) : (n_dirty fork s ≤ size s)%nat.
Proof.
  unfold n_dirty, accounts_db.entries_of. etrans; [apply length_filter|].
  by rewrite length_fmap, length_map_to_list.
Qed.

Lemma typed_acct_ok p : typed_entry p → acct_ok p.
Proof.
  intros [Hk Ha]. split_and!; [by apply typed_balance|apply Ha|]. intros w n Hw Hn. by apply typed_meta.
Qed.

Lemma kept_typed a : typed_account a → typed_account (account_store.kept a).
Proof. intros [? ? ? ?]. unfold account_store.kept. by destruct (_ =? 0). Qed.

(** A store in a fork that sees no newer one is seen at once. *)
Lemma get_insert_tip (ai : AccountsIndex Account) w anc f k v k' :
  index_inv ai w → is_u64 f → visible ai anc f → (∀ g, visible ai anc g → g ≤ f) → last_root ai ≤ f →
  get (insert ai f k v).2 k' anc = if k' =? k then Some (v, f) else get ai k' anc.
Proof.
  intros Hinv Hf Hv Hmax Hroot. destruct (Z.eqb_spec k' k) as [->|Hne].
  - pose proof (get_spec _ _ anc k (insert_inv ai w f k v Hf Hinv)) as Hg.
    pose proof (inv_nodup _ _ (insert_inv ai w f k v Hf Hinv) k) as Hnd.
    assert ((f, v) ∈ entries (insert ai f k v).2 k) as Hin by (apply elem_of_entries_insert; auto).
    destruct (get _ k anc) as [[v' f']|]; [|by destruct (Hg _ _ Hin)].
    destruct Hg as (Hin' & Hv' & Hm). specialize (Hm _ _ Hin Hv). specialize (Hmax _ Hv').
    assert (f' = f) as -> by lia.
    apply elem_of_entries_insert in Hin' as [_ [[? _]|[_ ->]]]; done.
  - unfold get. simpl. by rewrite lookup_insert_ne.
Qed.

Record db_tip (db : accounts_db.AccountsDB) (anc : gmap Z Z) (fork : Z) (room : nat)
    (ai : AccountsIndex Account) (w : gmap (Pubkey * Z) Account) : Prop := {
  dt_refines : refines db ai;
  dt_index : index_inv ai w;
  dt_fork : is_u64 fork;
  dt_visible : visible ai anc fork;
  dt_newest : ∀ g, visible ai anc g → g ≤ fork;
  dt_root : last_root ai ≤ fork;
  dt_typed : ∀ k g a, (g, a) ∈ entries ai k → typed_account a;
  dt_room : Z.of_nat (length (index_refs (accounts_db.index db)) + room) < two64;
}.

Lemma insert_all_tip l ai w anc f :
  index_inv ai w → is_u64 f → visible ai anc f → (∀ g, visible ai anc g → g ≤ f) →
  last_root ai ≤ f → Forall (typed_account ∘ snd) l →
  (∀ k g a, (g, a) ∈ entries ai k → typed_account a) →
  (∃ w', index_inv (insert_all ai f l) w') ∧
  (∀ k g a, (g, a) ∈ entries (insert_all ai f l) k → typed_account a) ∧
  ∀ k, get (insert_all ai f l) k anc =
    match last_stored k l with Some a => Some (a, f) | None => get ai k anc end.
Proof.
  revert ai w. induction l as [|[k v] l IH]; intros ai w Hinv Hf Hv Hmax Hroot Hty Hent; [eauto|].
  apply Forall_cons in Hty as [Hv0 Hty]. change (insert_all ai f ((k, v) :: l))
    with (insert_all (insert ai f k v).2 f l).
  destruct (IH (insert ai f k v).2 (<[(k, f) := v]> w)) as (Hinv' & Hent' & Hget);
    [by apply insert_inv|done..| |].
  - intros k' g a. destruct (decide (k' = k)) as [->|]; [|rewrite entries_insert_ne by done; eauto].
    rewrite elem_of_entries_insert. intros [_ [[_ Hin]|[_ ->]]]; [eauto|done].
  - split_and!; [done..|]. intros k'. rewrite Hget, (get_insert_tip ai w) by done. cbn [last_stored].
    destruct (last_stored k' l); [done|]. by destruct (k' =? k).
Qed.

Lemma last_stored_kept k l :
  last_stored k (prod_map (λ k, k) kept <$> l) = account_store.kept <$> last_stored k l.
Proof.
  induction l as [|[k' a] l IH]; [done|]. rewrite fmap_cons. cbn [last_stored prod_map].
  rewrite IH. destruct (last_stored k l); [done|]. simpl. by destruct (k =? k').
Qed.

Definition at_tip (db : accounts_db.AccountsDB) (anc : gmap Z Z) (fork : Z) (room : nat) : Prop :=
  ∃ ai w, db_tip db anc fork room ai w.

Lemma at_tip_typed db anc fork room k a f :
  at_tip db anc fork room → as_load db anc k = Some (a, f) → typed_account a.
Proof.
  intros (ai & w & Ht). simpl. rewrite (refines_load pick pick_in db ai) by apply Ht.
  intros Hg. pose proof (get_spec ai w anc k (dt_index _ _ _ _ _ _ Ht)) as Hs. rewrite Hg in Hs.
  destruct Hs as [Hin _]. by eapply dt_typed.
Qed.

Lemma at_tip_store db anc fork room l db' :
  at_tip db anc fork room → Forall typed_entry l → (length l ≤ room)%nat →
  as_store db fork l = Some db' →
  at_tip db' anc fork (room - length l) ∧
  ∀ k, as_load db' anc k =
    match last_stored k l with
    | Some a => Some (account_store.kept a, fork)
    | None => as_load db anc k
    end.
Proof.
  intros (ai & w & Ht) Hty Hlen Hst. simpl in Hst.
  destruct Ht as [Href0 Hinv0 Hf0 Hv0 Hm0 Hr0 Hty0 Hroom].
  apply (store_refines pick pick_in _ db ai) in Hst as [Href Hrefs];
    [|done|by eapply Forall_impl, typed_acct_ok|lia].
  destruct (insert_all_tip (prod_map (λ k, k) kept <$> l) ai w anc fork Hinv0 Hf0 Hv0 Hm0 Hr0)
    as ([w' Hinv] & Hent & Hget); [|done|].
  { apply Forall_fmap. eapply Forall_impl; [exact Hty|]. intros [k a] [_ Ha]. by apply kept_typed. }
  destruct (insert_all_last (prod_map (λ k, k) kept <$> l) ai fork) as [Hl Hr].
  assert (∀ g, visible (insert_all ai fork (prod_map (λ k, k) kept <$> l)) anc g = visible ai anc g)
    as Hvis by (intros g; unfold visible, is_root; by rewrite Hr).
  split.
  + do 2 eexists. split; [exact Href|exact Hinv|done|by rewrite Hvis| | |exact Hent|lia].
    * intros g. rewrite Hvis. apply Hm0.
    * by rewrite Hl.
  + intros k. simpl. rewrite (refines_load pick pick_in _ _ _ _ Href), Hget, last_stored_kept,
      (refines_load pick pick_in db ai) by done. by destruct (last_stored k l).
Qed.

Instance accounts_db_store_laws : AccountStoreLaws accounts_db.AccountsDB := {|
  as_tip := at_tip;
  as_tip_typed := at_tip_typed;
  as_store_load := at_tip_store;
|}.

(** The fuel of [as_store] is enough whenever the loop ends. *)
Lemma store_returns db anc fork room l :
  as_tip db anc fork room → Forall typed_entry l → (length l ≤ room)%nat →
  is_Some (as_store db fork l) ↔
  Forall (λ p, account_size p.2 ≤ accounts_db.db_file_size db) l.
Proof.
  intros (ai & w & Ht) Hty Hlen. pose proof (dt_room _ _ _ _ _ _ Ht) as Hroom. simpl.
  destruct (store_fits pick pick_in db ai fork l) as [Hfit Hnot];
    [apply Ht|by eapply Forall_impl, typed_acct_ok|lia|].
  destruct (decide (Forall (λ p, account_size p.2 ≤ accounts_db.db_file_size db) l)) as [Hf|Hf].
  - split; [done|]. intros _. apply Hfit; [done|]. unfold store_fuel.
    pose proof (n_dirty_size fork (accounts_db.storage db)). lia.
  - rewrite Hnot by done. by split; [intros []|].
Qed.

Lemma new_db_tip fs anc fork room :
  0 ≤ fs < two64 - two32 → is_u64 fork → is_Some (anc !! fork) →
  (∀ g, is_Some (anc !! g) → g ≤ fork) → Z.of_nat room < two64 →
  as_tip (accounts_db.new_with_file_size fs) anc fork room.
Proof.
  intros Hfs Hf Hin Hmax Hroom. exists AccountsIndex_default, ∅. split.
  - split; [by apply new_db_inv|done..|set_solver|done].
  - apply default_inv.
  - done.
  - unfold visible. by rewrite bool_decide_true.
  - intros g. unfold visible, is_root. simpl. rewrite (bool_decide_false (g ∈ _)) by set_solver.
    rewrite orb_false_r. intros Hg%bool_decide_spec. by apply Hmax.
  - unfold is_u64 in Hf. simpl. lia.
  - intros k g a Hg. by apply elem_of_nil in Hg.
  - simpl. done.
Qed.

End store.
End bank_store.

(** ** Concrete banks *)

Module demo_bank.
Import account_store append_vec append_vec_proofs accounts_db_proofs bank_store.
Import message transaction message_processor native_loader_program bank bank_proofs.
#[local] Existing Instances meta_ranged meta_layout meta_laws.
#[local] Existing Instances balance_ranged balance_layout balance_laws.
#[local] Existing Instances stake_proofs.StakeState_bincode vote_state.slot_hashes_bincode.
#[local] Existing Instances processor_proofs.demo_system_bincode processor_proofs.demo_loader_bincode.

Lemma demo_typed_balance a : typed_account a → in_range (balance_of a).
Proof.
  intros [Hd Hr Ho _]. unfold is_u64, is_key in *.
  split; [done|]. split; [done|]. split; [simpl; destruct (executable a); simpl; lia|done].
Qed.

Lemma demo_typed_meta w k n : is_u64 w → is_key k → is_u64 n → in_range (mkMeta w k n).
Proof. intros Hw Hk Hn. split; [done|]. by split. Qed.

#[local] Instance demo_store : AccountStore accounts_db.AccountsDB := accounts_db_store demo_pick.
#[local] Instance demo_laws : AccountStoreLaws accounts_db.AccountsDB :=
  accounts_db_store_laws demo_pick demo_pick_in demo_typed_balance demo_typed_meta.

(** The system program, two payers and a payee. *)
Definition demo_accounts : list (Pubkey * Account) :=
  [(system_program.id, create_loadable_account [115]);
   (60, mkAccount 100 0 [] 0 false); (61, mkAccount 50 0 [] 0 false);
   (70, mkAccount 1 0 [] 0 false)].

Definition demo_db : accounts_db.AccountsDB :=
  Eval vm_compute in default (accounts_db.new_with_file_size 600)
    (as_store (accounts_db.new_with_file_size 600) 0 demo_accounts).

Lemma demo_db_stored : as_store (accounts_db.new_with_file_size 600) 0 demo_accounts = Some demo_db.
Proof. vm_compute. reflexivity. Qed.

Lemma typed_small d r l o (e : bool) :
  is_u64 d → is_u64 r → is_key o → is_u64 (Z.of_nat (length l)) →
  typed_account (mkAccount d r l o e).
Proof. by split. Qed.

Lemma demo_db_tip : as_tip demo_db {[0 := 0]} 0 996.
Proof.
  destruct (as_store_load (accounts_db.new_with_file_size 600) {[0 := 0]} 0 1000 demo_accounts demo_db)
    as [Htip _]; [| |simpl; lia|apply demo_db_stored|exact Htip].
  - apply new_db_tip; [done|done|done| |done]. intros g [x Hx].
    apply lookup_singleton_Some in Hx as [<- _]. lia.
  - repeat (apply Forall_cons; split; [split; [done|by apply typed_small]|]). constructor.
Qed.
Definition demo_info : BankInfo :=
  mkInfo {[0 := 0]} 0 7 8 0 0 50 (fee_calculator.mkFeeCalculator 10)
    (epoch_schedule.mkEpochSchedule 32 32 0 0) ∅ [(system_program.id, system_processor)].

Definition demo_self : Bank :=
  mkBank demo_info (accounts.mkLocks ∅ ∅ [])
    (blockhash_queue.genesis_hash 0 (blockhash_queue.BlockhashQueue_new 120) 5)
    None 0 0 0 stakes.Stakes_default true ∅.

Definition demo_state : BankState accounts_db.AccountsDB :=
  mkState demo_db status_cache.StatusCache_default demo_self.

(** A transfer of [n] difs to account 70. *)
Definition demo_transfer (from n sig : Z) : Transaction :=
  mkTransaction [replicate 64 sig]
    (mkMessage (mkMessageHeader 1 0 1) [from; 70; system_program.id] 5
       [mkCompiledInstruction 2 [0; 1] (serialize (system_instruction.Transfer n))]).

(** The second transfer cannot be paid; the third transaction is refused, as
    the first one holds the account of its payer. *)
Definition demo_txs : list Transaction :=
  [demo_transfer 60 30 1; mkTransaction [replicate 64 2]
     (mkMessage (mkMessageHeader 1 0 1) [61; 71; system_program.id] 5
       [mkCompiledInstruction 2 [0; 1] (serialize (system_instruction.Transfer 1000))]);
   demo_transfer 60 7 3].

Definition demo_batch := process_transactions (λ _, None) (λ _ _, 0%nat) demo_txs demo_state.

Lemma demo_results : demo_batch.1 = Ok [Ok tt; Ok tt; Err AccountInUse].
Proof. vm_compute. reflexivity. Qed.

Lemma demo_executed :
  (executed_batch (λ _, None) demo_state demo_txs).*2 =
  [Ok tt; Err (TxInstructionError 0 (CustomError 1)); Err AccountInUse].
Proof. vm_compute. reflexivity. Qed.
Lemma demo_plain : Forall plain demo_txs.
Proof.
  repeat apply Forall_cons_2; [..|constructor]; (split;
    [repeat apply Forall_cons_2; [..|constructor]; vm_compute; split; congruence
    |repeat apply Forall_cons_2; [..|constructor];
       repeat apply Forall_cons_2; [..|constructor]; vm_compute; split; congruence|]);
    intros pids ks Hp Hk; vm_compute in Hp, Hk; injection Hp as <-; injection Hk as <-;
    by exists [].
Qed.

Definition typed_b (a : Account) : bool :=
  bool_decide (is_u64 (difs a)) && bool_decide (is_u64 (reputations a)) &&
  ((0 <=? owner a) && (owner a <? 256 ^ 32)) && bool_decide (is_u64 (Z.of_nat (length (data a)))).

Lemma typed_b_spec a : typed_b a = true → typed_account a.
Proof.
  unfold typed_b. rewrite !andb_true_iff. intros [[[H1 H2] [H3 H4]] H5].
  apply bool_decide_eq_true_1 in H1, H2, H5. split; [done|done| |done]. unfold is_key. lia.
Qed.

Definition loaded_typed_b (x : res TransactionError Loaded * res TransactionError unit) : bool :=
  match x.1 with Ok (accs, _) => forallb typed_b accs | _ => true end.

Lemma executed_typed_b open s txs :
  forallb loaded_typed_b (executed_batch open s txs) = true → executed_typed open s txs.
Proof.
  rewrite forallb_forall. intros Hall accs ls r Hin%list_elem_of_In%Hall.
  unfold loaded_typed_b in Hin. simpl in Hin. rewrite forallb_forall in Hin.
  apply Forall_forall. intros a Ha%list_elem_of_In. by apply typed_b_spec, Hin.
Qed.

Lemma demo_typed : executed_typed (λ _, None) demo_state demo_txs.
Proof. apply executed_typed_b. vm_compute. reflexivity. Qed.

Definition demo_keys : list Pubkey := [60; 61; 70; 71; 50; 0].

Lemma demo_keys_all tx k :
  tx ∈ demo_txs → k ∈ tx.(tx_message).(account_keys) → k ∈ demo_keys.
Proof.
  intros Htx Hk. assert (Forall (λ tx, Forall (λ k, k ∈ demo_keys) tx.(tx_message).(account_keys))
    demo_txs) as Hall by (apply (bool_decide_unpack _); vm_compute; exact I).
  rewrite Forall_forall in Hall. specialize (Hall tx Htx). rewrite Forall_forall in Hall. auto.
Qed.

Definition demo_final : BankState accounts_db.AccountsDB := demo_batch.2.

Lemma demo_ran : demo_batch = (Ok [Ok tt; Ok tt; Err AccountInUse], demo_final).
Proof. rewrite <- demo_results. apply surjective_pairing. Qed.



(** The first transfer, sent again. *)
Definition demo_replay :=
  process_transactions (λ _, None) (λ _ _, 0%nat) [demo_transfer 60 30 1] demo_final.

Lemma demo_replay_results : demo_replay.1 = Ok [Err DuplicateSignature].
Proof. vm_compute. reflexivity. Qed.


(** A transfer whose header declares all its keys credit-only. *)
Definition unlocked_transfer (to n sig : Z) : Transaction :=
  mkTransaction [replicate 64 sig]
    (mkMessage (mkMessageHeader 1 0 3) [60; to; system_program.id] 5
       [mkCompiledInstruction 2 [0; 1] (serialize (system_instruction.Transfer n))]).

(** The locks trust the header of a message, which nobody checks.  Two
    transfers that declare their payer credit-only lock nothing and are both
    executed in one batch, each from the same 100 difs of account 60: both
    succeed, both payees get 80 difs, and the difs of the accounts grow
    from 101 to 191. *)
Theorem credit_only_payer_double_spends :
  ∃ s', process_transactions (λ _, None) (λ _ _, 0%nat)
      [unlocked_transfer 70 80 1; unlocked_transfer 72 80 2] demo_state = (Ok [Ok tt; Ok tt], s') ∧
    (λ k, get_balance k demo_state) <$> [60; 70; 72; 50] = [100; 1; 0; 0] ∧
    (λ k, get_balance k s') <$> [60; 70; 72; 50] = [10; 81; 80; 20].
Proof.
  set (run := process_transactions _ _ _ _). exists run.2.
  split; [|split; vm_compute; reflexivity].
  assert (run.1 = Ok [Ok tt; Ok tt]) as Hr by (vm_compute; reflexivity).
  rewrite <- Hr. apply surjective_pairing.
Qed.
End demo_bank.
