(* ===== verification/Replay.v ===== *)
(** * Replaying the ledger

    core/src/blockBufferPoolProcessor.rs: the entries of the ledger are
    verified and executed, slot after slot, on the banks of the forks, from the
    genesis block to the ends of the forks.

    Module [bank_accessors] has what the code reads of a bank through other
    components; module [blocktree_processor] has the operations: groups of
    entries that lock different accounts are executed in parallel, and the
    slots are visited in their order. *)

From stdpp Require Import sorting.
From S2P Require Import Prelude Interface Codec Float SystemProgram VoteState Message MessageProcessor StakingUtils EpochSchedule.
From S2P Require Import BankForks LeaderSchedule Entry BlockStore BlockhashQueue StatusCache Stake AppendVec Accounts Bank.

Module bank_accessors.
Import epoch_schedule stakes bank Bank.bank_forks.

Section accessors.
(** The order in which a [HashMap] of vote accounts is visited. *)
Context (vote_order : gmap Pubkey (Z * Account) → list (Pubkey * (Z * Account))).

Definition vote_accounts (b : Bank) : gmap Pubkey (Z * Account) := stakes.vote_accounts (b_stakes b).

Definition epoch_vote_accounts (b : Bank) (epoch : Z) : option (gmap Pubkey (Z * Account)) :=
  stakes.vote_accounts <$> epoch_stakes (info b) !! epoch.

(** What stakingUtils.rs and the leader schedule read of a bank. *)
Definition bank_view (bs : gmap Z Bank) (b : Bank) : BankView :=
  mkBankView (slot (info b)) (get_epoch_and_slot_index (b_epoch_schedule (info b)))
    (get_slots_in_epoch (b_epoch_schedule (info b))) (length (parents bs b))
    (collector_id (info b)) (vote_order (vote_accounts b))
    (λ epoch, vote_order <$> epoch_vote_accounts b epoch).
End accessors.

(** What treasuryForks.rs reads of a bank. *)
Definition fork_bank (b : Bank) : BankForks.bank_forks.ForkBank :=
  BankForks.bank_forks.mkForkBank (slot (info b)) (dom (ancestors (info b))) (is_frozen b).
End bank_accessors.

Module blocktree_processor.
Import account_store message transaction message_processor native_loader_program.
Import blockhash_queue status_cache stakes accounts slot_hashes entry meta blocktree.
Import leader_schedule_cache bank Bank.bank_forks bank_accessors.

Definition first_err (results : list (TxResult unit)) : TxResult unit :=
  default (Ok tt) (List.find (λ r, negb (is_ok r)) results).

(** An entry with the results of locking its accounts. *)
Definition Locked : Type := Entry * list (TxResult unit).

Record BankForksInfo := mkForksInfo { bank_slot : Z; entry_height : Z }.

(** [OutOfFuel] is not an error of the code: the loop used up its fuel. *)
Inductive BlocktreeProcessorError := LedgerVerificationFailed | OutOfFuel.

(** A slot of [pending_slots]; its bank is the one of the slot. *)
Record Pending := mkPending {
  p_slot : Z;
  p_meta : SlotMeta;
  p_entry_height : Z;
  p_last_entry_hash : Hash;
}.

(** [pending_slots.sort_by(|a, b| b.0.cmp(&a.0))]: the least slot comes last. *)
Definition slot_ge (a b : Pending) : Prop := p_slot b ≤ p_slot a.
#[global] Instance slot_ge_dec a b : Decision (slot_ge a b).
Proof. unfold slot_ge. apply _. Defined.

Section processor.
Context {S : Type} `{!AccountStore S}.
Context `{!Bincode SlotHashes, !Bincode LoaderInstruction, !Bincode stake_state.StakeState}.
Context `{!Bincode system_instruction.SystemInstruction, !Bincode vote_state.VoteState}.
Context `{!Bincode Transaction, !Bincode (list Entry)}.
Context (open_library : list Z → option (option ProcessInstruction)).
Context (gen_range : StatusCache (TxResult unit) → Hash → nat).
Context (hash_all : list (list Z) → Hash) (hash_bytes : Hash → list Z).
Context (serialize_balance : append_vec.AccountBalance → list Z).
Context (serialize_hash : option Hash → list Z).
Context (sha256 : list Z → Hash).
Context (weighted_index : list Z → option (list Z → nat → nat)).
Context (vote_order : gmap Pubkey (Z * Account) → list (Pubkey * (Z * Account))).
(** The clock when a tick of a slot is registered, and the order in which the
    thread pool takes up the entries of a group. *)
Context (clock : Z → Z → Z) (par_order : list Locked → list nat).

Notation op := (M (BankState S) TransactionError).

(** ** Groups of entries *)

(** The closure of [par_execute_entries]. *)
Definition execute_entry (l : Locked) : op (TxResult unit) :=
  results ← load_execute_and_commit_transactions open_library gen_range l.1.(transactions) l.2
    MAX_RECENT_BLOCKHASHES;
  mret (first_err (zip results l.1.(transactions)).*1).

(** The calls of the closure, one after the other. *)
Fixpoint execute_in (order : list nat) (entries : list Locked) (results : gmap nat (TxResult unit))
    : op (gmap nat (TxResult unit)) :=
  match order with
  | [] => mret results
  | i :: order =>
      match entries !! i with
      | Some l => r ← execute_entry l; execute_in order entries (<[i := r]> results)
      | None => panic
      end
  end.

Definition par_execute_entries (entries : list Locked) : op unit :=
  results ← execute_in (par_order entries) entries ∅;
  liftM (first_err (omap (λ i, results !! i) (seq 0 (length entries)))).

(** [drop] of the results of locking *)
Definition drop_locked (l : Locked) : op unit := unlock_accounts l.1.(transactions) l.2.

(** The call, and then the locks of the group are released, also on the way
    out of the function. *)
Definition then_drop {A} (m : op A) (group : list Locked) : op A := λ s,
  let '(r, s) := m s in (r, (each drop_locked group s).2).

(** The inner loop on an entry: the group that it joins. *)
Fixpoint lock_entry (fuel : nat) (entry : Entry) (mt_group : list Locked) : op (list Locked) :=
  match fuel with
  | O => panic
  | Datatypes.S fuel =>
      lock_results ← lock_accounts entry.(transactions);
      let first_lock_err := first_err lock_results in
      if is_ok first_lock_err then mret (mt_group ++ [(entry, lock_results)])
      else if is_empty mt_group then
        then_drop (liftM first_lock_err) [(entry, lock_results)];; mret []
      else
        then_drop (then_drop (par_execute_entries mt_group) mt_group) [(entry, lock_results)];;
        lock_entry fuel entry []
  end.

(** The loop on an entry is left in its second turn at the latest, when the
    group is empty. *)
Fixpoint process_loop (entries : list Entry) (mt_group : list Locked) : op unit :=
  match entries with
  | [] => then_drop (par_execute_entries mt_group) mt_group
  | entry :: entries =>
      if is_tick entry then
        then_drop (par_execute_entries mt_group) mt_group;;
        s ← getM;
        register_tick (clock (slot (info (self s))) (tick_height (self s))) entry.(entry_hash);;
        process_loop entries []
      else
        mt_group ← lock_entry 2 entry mt_group;
        process_loop entries mt_group
  end.

Definition process_entries (entries : list Entry) : op unit := process_loop entries [].

(** ** The slots *)

(** What [process_blocktree] works on: the ledger, the banks and the leader
    schedules, and its local variables. *)
Record Replay := mkReplay {
  ledger : Database;
  forks : Forks S;
  schedules : LeaderScheduleCache;
  pending_slots : list Pending;
  fork_info : list (Z * BankForksInfo);
  root : Z;
}.

Definition with_forks f r := mkReplay (ledger r) f (schedules r) (pending_slots r) (fork_info r) (root r).
Definition with_schedules c r := mkReplay (ledger r) (forks r) c (pending_slots r) (fork_info r) (root r).
Definition with_pending p r := mkReplay (ledger r) (forks r) (schedules r) p (fork_info r) (root r).
Definition with_fork_info i r := mkReplay (ledger r) (forks r) (schedules r) (pending_slots r) i (root r).
Definition with_root n r := mkReplay (ledger r) (forks r) (schedules r) (pending_slots r) (fork_info r) n.

Notation replay_op := (M Replay BlocktreeProcessorError).

Definition modify_replay (f : Replay → Replay) : replay_op unit := λ r, (Ok tt, f r).

(** An operation on the banks, whose errors fail the verification. *)
Definition on_forks {A} (m : M (Forks S) TransactionError A) : replay_op A := λ r,
  let '(x, f) := m (forks r) in (map_err (λ _, LedgerVerificationFailed) x, with_forks f r).

(** A call that returns no error. *)
Definition never {A} (x : res Empty_set A) : res BlocktreeProcessorError A :=
  map_err (λ e : Empty_set, match e with end) x.

Definition on_schedules {A} (m : M LeaderScheduleCache Empty_set A) : replay_op A := λ r,
  let '(x, c) := m (schedules r) in (never x, with_schedules c r).

(** The slots from which no reference to a bank is left: those that are not
    among [held] or the parents of one of them. *)
Definition unreferenced (held : list Z) (bs : gmap Z Bank) : list Z :=
  filter (λ n, n ∉ held ++ (h ← held; from_option (parents bs) [] (bs !! h)))
    (merge_sort Z.le (map_to_list bs).*1).

Definition drop_banks (held : list Z) : M (Forks S) TransactionError unit :=
  f ← getM;
  foldr (λ n m, drop_bank n;; m) (mret tt) (unreferenced held (banks f)).

(** Checks and executes the entries of a slot; the height and the hash after
    them. *)
Definition process_slot (p : Pending) : replay_op (Z * Hash) :=
  r ← getM;
  entries ← liftM (map_err (λ _, LedgerVerificationFailed)
                     (get_slot_entries (ledger r) (p_slot p) 0 None));
  '(entries, entry_height, last_entry_hash) ←
    (if p_slot p =? 0 then
       match entries with
       | [] => throw LedgerVerificationFailed
       | entry0 :: entries =>
           verified ← (if is_tick entry0
                       then liftM (never (Entry_verify sha256 (p_last_entry_hash p) entry0))
                       else mret false);
           if verified : bool
           then mret (entries, u64_add (p_entry_height p) 1, entry0.(entry_hash))
           else throw LedgerVerificationFailed
       end
     else mret (entries, p_entry_height p, p_last_entry_hash p));
  match last entries with
  | None => mret (entry_height, last_entry_hash)
  | Some last_entry =>
      verified ← liftM (never (EntrySlice_verify sha256 last_entry_hash entries));
      if negb verified then throw LedgerVerificationFailed
      else
        on_forks (at_bank (p_slot p) (process_entries entries));;
        mret (u64_add entry_height (wrap64 (Z.of_nat (length entries))), last_entry.(entry_hash))
  end.

(** The work on a root. *)
Definition process_root (slot : Z) : replay_op unit :=
  modify_replay (with_root slot);;
  modify_replay (λ r, with_schedules (leader_schedule_cache.set_root slot (schedules r)) r);;
  on_forks (squash hash_all hash_bytes serialize_balance serialize_hash slot);;
  modify_replay (with_pending []);;
  modify_replay (with_fork_info []);;
  on_forks (drop_banks [slot]).

(** The loop over [meta.next_slots]. *)
Fixpoint process_next_slots (slot : Z) (next_slots : list Z) (entry_height : Z)
    (last_entry_hash : Hash) : replay_op unit :=
  match next_slots with
  | [] => mret tt
  | next_slot :: next_slots =>
      r ← getM;
      next_meta ← liftM (unwrap (cf_meta (ledger r) !! next_slot));
      (if is_full next_meta then
         bank ← on_forks (get_bank slot);
         leader ← on_schedules (cache_slot_leader_at weighted_index next_slot
                    (Some (bank_view vote_order (banks (forks r)) bank)));
         leader ← liftM (unwrap leader);
         on_forks (new_from_parent hash_all hash_bytes serialize_balance serialize_hash
                     slot leader next_slot);;
         modify_replay (λ r, with_pending
           (pending_slots r ++ [mkPending next_slot next_meta entry_height last_entry_hash]) r)
       else
         modify_replay (λ r, with_fork_info
           (fork_info r ++ [(slot, mkForksInfo slot entry_height)]) r));;
      process_next_slots slot next_slots entry_height last_entry_hash
  end.

(** One turn of the loop over [pending_slots], on the slot that is popped. *)
Definition process_pending (p : Pending) : replay_op unit :=
  '(entry_height, last_entry_hash) ← process_slot p;
  on_forks (freeze_bank hash_all hash_bytes serialize_balance serialize_hash (p_slot p));;
  r ← getM;
  (if is_root (ledger r) (p_slot p) then process_root (p_slot p) else mret tt);;
  match (p_meta p).(next_slots) with
  | [] =>
      modify_replay (λ r, with_fork_info
        (fork_info r ++ [(p_slot p, mkForksInfo (p_slot p) entry_height)]) r)
  | next_slots =>
      process_next_slots (p_slot p) next_slots entry_height last_entry_hash;;
      modify_replay (λ r, with_pending (merge_sort slot_ge (pending_slots r)) r)
  end.

Fixpoint process_slots (fuel : nat) : replay_op unit :=
  r ← getM;
  match last (pending_slots r) with
  | None => mret tt
  | Some p =>
      match fuel with
      | O => throw OutOfFuel
      | Datatypes.S fuel =>
          modify_replay (with_pending (removelast (pending_slots r)));;
          process_pending p;;
          process_slots fuel
      end
  end.

(** [now] and [genesis_hash] are the clock and the hash of the genesis block;
    the account database is the one of [Accounts::new].  The banks of the
    result are those of [fork_info]. *)
Definition process_blocktree (fuel : nat) (now : Z) (genesis_hash : Hash) (genesis_block : GenesisBlock)
    (accounts_db : S) (blocktree : Database)
    : res BlocktreeProcessorError
        (BankForks.bank_forks.BankForks * list BankForksInfo * LeaderScheduleCache * Replay) :=
  f ← map_err (λ _, LedgerVerificationFailed) (new_with_paths now genesis_hash genesis_block accounts_db);
  bank ← unwrap (banks f !! 0);
  last_entry_hash ← never (get_last_hash (queue bank));
  m ← unwrap (cf_meta blocktree !! 0);
  blocktree ← match blocktree.set_root blocktree fuel 0 0 with Ok d => Ok d | _ => Panic end;
  match process_slots fuel (mkReplay blocktree f
          (Cache_new (b_epoch_schedule (info bank)) 0) [mkPending 0 m 0 last_entry_hash] [] 0) with
  | (Ok _, r) =>
      heads ← mapR (λ '(n, _), unwrap (banks (forks r) !! n)) (fork_info r);
      bank_forks ← BankForks.bank_forks.new_from_banks (fork_bank <$> heads) (root r);
      Ok (bank_forks, (fork_info r).*2, schedules r, r)
  | (Err e, _) => Err e
  | (Panic, _) => Panic
  end.
End processor.
End blocktree_processor.
