(* ===== verification/ReplayProofs.v ===== *)
(** * Theorems on the replay of the ledger (Replay.v)

    Module [group_proofs] shows that executing the entries in groups gives what
    executing them one after the other gives; module [replay_proofs] shows
    that the ledger that was replayed is one proof of history per fork, that
    the replay visits what descends from the last root, and that it ends. *)

From stdpp Require Import sorting.
From S2P Require Import Prelude Interface Codec Float SystemProgram VoteState Message MessageProcessor StakingUtils EpochSchedule.
From S2P Require Import BankForks LeaderSchedule Entry BlockStore BlockhashQueue StatusCache Stake AppendVec Accounts Bank BankProofs Replay.

Module group_proofs.
Import account_store message transaction message_processor native_loader_program.
Import blockhash_queue status_cache stakes accounts slot_hashes entry bank blocktree_processor.

Section groups.
Context {S : Type} `{!AccountStore S}.
Context `{!Bincode SlotHashes, !Bincode LoaderInstruction, !Bincode stake_state.StakeState}.
Context (open_library : list Z → option (option ProcessInstruction)).
Context (gen_range : StatusCache (TxResult unit) → Hash → nat).

Notation op := (M (BankState S) TransactionError).
Implicit Types (s t : BankState S) (L : Locks).

(** ** Executing does not depend on the locks *)

Definition with_locks L s : BankState S := mkState (db s) (statuses s) (set_locks L (self s)).

Lemma with_locks_twice L L' s : with_locks L (with_locks L' s) = with_locks L s.
Proof. done. Qed.

Lemma with_own_locks s : with_locks (locks (self s)) s = s.
Proof. by destruct s as [? ? []]. Qed.

(** The operation neither reads nor writes the locks. *)
Definition lock_free {A} (m : op A) : Prop := ∀ s L,
  m (with_locks L s) = ((m s).1, with_locks L (m s).2).

Lemma lock_free_bind {A B} (m : op A) (k : A → op B) :
  lock_free m → (∀ a, lock_free (k a)) → lock_free (m ≫= k).
Proof.
  intros Hm Hk s L. unfold mbind, M_bind. rewrite Hm.
  destruct (m s) as [[a|e|] s']; [|done..]. cbn. by rewrite Hk.
Qed.

Lemma lock_free_get {A} (k : BankState S → op A) :
  (∀ s, lock_free (k s)) → (∀ s L s', k (with_locks L s) s' = k s s') → lock_free (s ← getM; k s).
Proof. intros Hk He s L. unfold_monad. by rewrite He, Hk. Qed.

Lemma lock_free_const {A} (r : res TransactionError A) : lock_free (λ s, (r, s)).
Proof. done. Qed.

Lemma lock_free_modify f : (∀ b L, f (set_locks L b) = set_locks L (f b)) → lock_free (modify_self f).
Proof. intros Hf s L. unfold modify_self. cbn. by rewrite Hf. Qed.

Lemma lock_free_store l : lock_free (store_accounts l).
Proof. intros s L. unfold store_accounts. cbn. by destruct (as_store _ _ _). Qed.

Lemma lock_free_withdraw k n : lock_free (withdraw k n).
Proof.
  apply lock_free_get; [|done]. intros s. destruct (get_account k s) as [a|]; [|done].
  destruct (_ <? _); [done|]. apply lock_free_bind; [apply lock_free_store|].
  intros []. by apply lock_free_modify.
Qed.

Lemma lock_free_collect txs : ∀ executed fees, lock_free (collect_fees fees txs executed).
Proof.
  induction txs as [|tx txs IH]; intros executed fees; [done|]. destruct executed as [|r executed]; [done|].
  cbn [collect_fees]. apply lock_free_get; [|done]. intros s. apply lock_free_bind.
  - destruct r as [|[]|]; try done. destruct (account_keys _) as [|k ?]; [done|]. intros s' L.
    rewrite lock_free_withdraw. by destruct (withdraw _ _ s') as [[]].
  - intros [r' fees']. apply lock_free_bind; [apply IH|by intros []].
Qed.

Lemma lock_free_unwind {A} (l : list (TxResult A)) : lock_free (unwind l).
Proof. unfold unwind. by destruct (existsb _ _). Qed.

Lemma lock_free_load txs rs : lock_free (load_accounts txs rs).
Proof.
  apply lock_free_get; [|done]. intros s. apply lock_free_bind; [apply lock_free_unwind|done].
Qed.

Lemma lock_free_load_execute txs rs age :
  lock_free (load_and_execute_transactions open_library txs rs age).
Proof.
  apply lock_free_get.
  - intros s. apply lock_free_bind; [apply lock_free_load|]. intros ld.
    destruct (execute _ _ _ _ _) as [x c]. apply lock_free_bind; [apply lock_free_unwind|]. intros [].
    apply lock_free_bind; [by apply lock_free_modify|done].
  - intros s L s'. unfold mbind, M_bind.
    change (check_transactions (self (with_locks L s)) (statuses (with_locks L s)))
      with (check_transactions (self s) (statuses s)).
    destruct (load_accounts _ _ s') as [[ld| |] s1]; [|done..].
    by rewrite (bank_proofs.execute_ext _ (self s)) by done.
Qed.

Lemma lock_free_commit txs ld executed : lock_free (commit_transactions gen_range txs ld executed).
Proof.
  unfold commit_transactions. apply lock_free_bind.
  { apply lock_free_modify. intros b L. by destruct (existsb _ _). }
  intros []. apply lock_free_bind; [apply lock_free_store|].
  intros []. apply lock_free_bind; [by apply lock_free_modify|].
  intros []. apply lock_free_bind; [done|].
  intros []. apply lock_free_bind; [apply lock_free_collect|]. intros [rs fees].
  apply lock_free_get; [|done]. intros s. apply lock_free_bind; [|done].
  apply lock_free_get; [|done]. intros s'. apply lock_free_bind; [apply lock_free_store|].
  intros []. by apply lock_free_modify.
Qed.

Lemma lock_free_execute l : lock_free (execute_entry open_library gen_range l).
Proof.
  apply lock_free_bind; [|done]. apply lock_free_bind; [apply lock_free_load_execute|].
  intros [ld executed]. apply lock_free_commit.
Qed.

(** ** Locks *)

Definition no_locks : Locks := mkLocks ∅ ∅ [].

(** The keys of the transactions whose locks are released. *)
Fixpoint released (txs : list Transaction) (rs : list (TxResult unit)) : gset Pubkey :=
  match txs, rs with
  | tx :: txs, Err AccountInUse :: rs => released txs rs
  | tx :: txs, _ :: rs => list_to_set tx.(tx_message).(account_keys) ∪ released txs rs
  | _, _ => ∅
  end.

(** Only the account locks are in use, and they are among [X]. *)
Definition within (X : gset Pubkey) L : Prop :=
  account_locks L ⊆ X ∧ record_locks L = ∅ ∧ parent_record_locks L = [].

Lemma within_empty L : within ∅ L → L = no_locks.
Proof.
  destruct L as [a r p]. intros (Ha & Hr & Hp). cbn in *. subst. unfold no_locks. f_equal.
  apply leibniz_equiv. set_solver.
Qed.

Lemma unlock_within txs : ∀ rs X L, within (X ∪ released txs rs) L →
  within X (accounts.unlock_accounts L txs rs).
Proof.
  unfold within, accounts.unlock_accounts. cbn. intros rs X [a r p]. cbn. intros (Ha & -> & ->).
  split; [|done]. revert rs a Ha. induction txs as [|tx txs IH]; intros [|x rs] a Ha; cbn in *;
    [set_solver..|]. apply IH. destruct x as [|[]|]; cbn; set_solver.
Qed.

Lemma locked_keys_incl m ks : locked_keys (E:=TransactionError) m = Ok ks →
  list_to_set (C:=gset Pubkey) ks ⊆ list_to_set (account_keys m).
Proof.
  unfold locked_keys. destruct (_ <? _); [done|]. intros [= <-] k. rewrite !elem_of_list_to_set.
  intros (i & Hi)%list_elem_of_lookup. apply lookup_take_Some in Hi as [Hi _].
  by eapply list_elem_of_lookup_2.
Qed.

Lemma check_locks_alone a ks : ∃ r, check_locks a [] ks = Some (r, []) ∧
  (r = Ok tt ∧ (∀ k, k ∈ ks → k ∉ a) ∨ r = Err AccountInUse ∧ ∃ k, k ∈ ks ∧ k ∈ a).
Proof.
  induction ks as [|k ks (r & Hr & Hc)]; cbn [check_locks].
  { eexists. split; [done|]. left. split; [done|]. by intros k ?%elem_of_nil. }
  case_bool_decide as Hk.
  { eexists. split; [done|]. right. split; [done|]. exists k. split; [left|done]. }
  cbn. exists r. split; [done|]. destruct Hc as [[-> Hn]|[-> (k' & ? & ?)]].
  - left. split; [done|]. by intros k' [->|?]%elem_of_cons; [|apply Hn].
  - right. split; [done|]. exists k'. split; [by right|done].
Qed.

Lemma lock_tx_alone a tx : ∃ r a', lock_tx (mkLocks a ∅ []) tx = Some (r, mkLocks a' ∅ []) ∧
  (r = Err AccountInUse ∧ a' = a ∨
   r ≠ Err AccountInUse ∧ a' ⊆ a ∪ list_to_set tx.(tx_message).(account_keys) ∧ a ⊆ a' ∧
   (∀ e, r ≠ Err e) ∧
   ∀ b, b ⊆ a → ∃ b', lock_tx (mkLocks b ∅ []) tx = Some (r, mkLocks b' ∅ []) ∧ b' ⊆ a').
Proof.
  unfold lock_tx. destruct (locked_keys _) as [ks| |] eqn:Hks.
  2,3: eexists _, a; split; [done|]; right; split_and!; [done|set_solver|done|done|eauto].
  unfold lock_account. cbn [account_locks record_locks parent_record_locks].
  destruct (check_locks_alone a ks) as (r & -> & [[-> Hn]|[-> _]]); cbn; [|eauto 10].
  eexists _, _. split; [done|]. right. pose proof (locked_keys_incl _ _ Hks).
  split_and!; [done|set_solver..|]. intros b Hb.
  destruct (check_locks_alone b ks) as (r & -> & [[-> _]|[-> (k & Hk & Hkb)]]); cbn.
  - eexists. split; [done|]. set_solver.
  - destruct (Hn k Hk). set_solver.
Qed.

Definition all_ok (rs : list (TxResult unit)) : Prop := Forall (λ r, r = Ok tt) rs.

(** Locking when only account locks are in use. *)
Lemma lock_alone txs : ∀ a, ∃ rs a',
  accounts.lock_accounts (mkLocks a ∅ []) txs = Some (rs, mkLocks a' ∅ []) ∧
  a' ⊆ a ∪ released txs rs ∧
  (all_ok rs → ∀ b, b ⊆ a → ∃ b', accounts.lock_accounts (mkLocks b ∅ []) txs =
     Some (rs, mkLocks b' ∅ [])).
Proof.
  induction txs as [|tx txs IH]; intros a; cbn [accounts.lock_accounts].
  { eexists _, _. split; [done|]. split; [set_solver|eauto]. }
  destruct (lock_tx_alone a tx) as (r & a1 & -> & Hr). cbn.
  destruct (IH a1) as (rs & a2 & -> & Ha2 & Hmono). cbn. eexists _, _. split; [done|].
  destruct Hr as [[-> ->]|(Hr & Ha1 & _ & He & Hb)].
  - split; [done|]. by intros [? ?]%Forall_cons.
  - split.
    + destruct r as [|[]|]; cbn; set_solver.
    + intros [-> Hok]%Forall_cons b Hab. destruct (Hb b Hab) as (b1 & -> & Hb1). cbn.
      destruct (Hmono Hok b1 Hb1) as (b2 & ->). cbn. eauto.
Qed.

(** ** Groups *)

(** Executing stops at an error of a transaction, or panics. *)
Definition no_err {A} (m : op A) : Prop := ∀ s e s', m s ≠ (Err e, s').

Lemma no_err_bind {A B} (m : op A) (k : A → op B) : no_err m → (∀ a, no_err (k a)) → no_err (m ≫= k).
Proof.
  intros Hm Hk s e s'. unfold mbind, M_bind. destruct (m s) as [[a|e'|] s1] eqn:H; [apply Hk| |done].
  by destruct (Hm _ _ _ H).
Qed.

Lemma no_err_store k a : no_err (bank.store k a).
Proof.
  apply no_err_bind; [|done]. intros s e s'. unfold store_accounts. by destruct (as_store _ _ _).
Qed.

Lemma no_err_unwind {A} (l : list (TxResult A)) : no_err (unwind l).
Proof. unfold unwind. by destruct (existsb _ _). Qed.

Lemma no_err_collect txs : ∀ executed fees, no_err (collect_fees fees txs executed).
Proof.
  induction txs as [|tx txs IH]; intros executed fees; [done|]. destruct executed as [|r executed]; [done|].
  cbn [collect_fees]. apply no_err_bind; [done|]. intros s. apply no_err_bind.
  - destruct r as [|[]|]; try done. destruct (account_keys _) as [|k ?]; [done|]. intros s1 err s2.
    by destruct (withdraw _ _ s1) as [[]].
  - intros [r' fees']. apply no_err_bind; [apply IH|by intros []].
Qed.

Lemma no_err_execute l : no_err (execute_entry open_library gen_range l).
Proof.
  apply no_err_bind; [|done]. apply no_err_bind.
  - apply no_err_bind; [done|]. intros s. apply no_err_bind.
    + apply no_err_bind; [done|]. intros s'. apply no_err_bind; [apply no_err_unwind|done].
    + intros ld. destruct (execute _ _ _ _ _) as [x c].
      apply no_err_bind; [apply no_err_unwind|done].
  - intros [ld executed]. apply no_err_bind; [done|]. intros [].
    apply no_err_bind.
    { intros s e s'. unfold store_accounts. by destruct (as_store _ _ _). }
    intros []. apply no_err_bind; [done|]. intros []. apply no_err_bind; [done|]. intros [].
    apply no_err_bind; [apply no_err_collect|]. intros [rs fees]. apply no_err_bind; [done|].
    intros s. apply no_err_bind; [|done]. apply no_err_bind; [done|]. intros s'. apply no_err_store.
Qed.

(** The entries one after the other, up to the first error. *)
Definition execute_one (l : Locked) : op unit :=
  r ← execute_entry open_library gen_range l; liftM r.
Definition execute_all (group : list Locked) : op unit := each execute_one group.

(** Two runs agree: both end in the same state, or both fail with the same
    error; the first may panic where the second has stopped with an error. *)
Definition agree (x y : res TransactionError unit * BankState S) : Prop :=
  match x.1, y.1 with
  | Ok _, Ok _ => x.2 = y.2
  | Err e, Err e' => e = e'
  | Panic, Err _ | Panic, Panic => True
  | _, _ => False
  end.

Lemma execute_one_lock_free l : lock_free (execute_one l).
Proof. apply lock_free_bind; [apply lock_free_execute|done]. Qed.

Lemma execute_all_lock_free group : lock_free (execute_all group).
Proof.
  induction group as [|l group IH]; [done|].
  apply lock_free_bind; [apply execute_one_lock_free|by intros []].
Qed.

Lemma execute_all_app g h s : execute_all (g ++ h) s = (execute_all g;; execute_all h) s.
Proof.
  revert s. induction g as [|l g IH]; intros s; [done|]. cbn. unfold mbind, M_bind.
  destruct (execute_one l s) as [[[]| |] s1]; [|done..]. by rewrite IH.
Qed.

Context (clock : Z → Z → Z) (par_order : list Locked → list nat).
(** The thread pool takes up the entries in their order. *)
Context (Horder : ∀ l, par_order l = seq 0 (length l)).

(** All the results, with no stop at an error. *)
Fixpoint results_of (group : list Locked) : op (list (TxResult unit)) :=
  match group with
  | [] => mret []
  | l :: group => r ← execute_entry open_library gen_range l; rs ← results_of group; mret (r :: rs)
  end.

Lemma execute_in_results group : ∀ pre m s,
  execute_in open_library gen_range (seq (length pre) (length group)) (pre ++ group) m s =
  (rs ← results_of group; mret (map_seq (length pre) rs ∪ m)) s.
Proof.
  induction group as [|l group IH]; intros pre m s; cbn [length seq execute_in results_of].
  { unfold_monad. cbn. by rewrite map_empty_union. }
  rewrite lookup_app_r, Nat.sub_diag by lia. cbn. unfold mbind, M_bind.
  destruct (execute_entry _ _ l s) as [[r| |] s1]; [|done..].
  specialize (IH (pre ++ [l]) (<[length pre := r]> m) s1). rewrite <- app_assoc in IH. cbn in IH.
  rewrite length_app, Nat.add_1_r in IH. rewrite IH. unfold mbind, M_bind.
  destruct (results_of group s1) as [[rs| |] s2]; [|done..]. unfold mret, M_ret. do 2 f_equal.
  cbn [map_seq]. rewrite <- insert_union_r, insert_union_l; [done|].
  apply lookup_map_seq_None. lia.
Qed.

Lemma omap_map_seq {A} (rs : list A) : ∀ k (m : gmap nat A),
  (∀ i r, rs !! i = Some r → m !! (k + i)%nat = Some r) →
  omap (λ i, m !! i) (seq k (length rs)) = rs.
Proof.
  induction rs as [|r rs IH]; intros k m Hm; [done|]. cbn.
  pose proof (Hm 0%nat r eq_refl) as H0. rewrite Nat.add_0_r in H0. rewrite H0. f_equal.
  apply IH. intros i r' Hi. replace (Datatypes.S k + i)%nat with (k + Datatypes.S i)%nat by lia. by apply Hm.
Qed.

Lemma results_length group : ∀ s rs s', results_of group s = (Ok rs, s') → length rs = length group.
Proof.
  induction group as [|l group IH]; intros s rs s'; cbn; [by intros [= <- _]|].
  intros (r & s1 & _ & (rs' & s2 & Hr & [= <- <-])%bind_ok)%bind_ok. cbn. by erewrite IH.
Qed.

Lemma par_results group s :
  par_execute_entries open_library gen_range par_order group s =
  (rs ← results_of group; liftM (first_err rs)) s.
Proof.
  unfold par_execute_entries. rewrite Horder. unfold mbind at 1, M_bind at 1.
  rewrite (execute_in_results group [] ∅). unfold mbind, M_bind.
  destruct (results_of group s) as [[rs| |] s1] eqn:Hr; [|done..]. cbn [mret M_ret]. unfold liftM.
  rewrite <- (results_length _ _ _ _ Hr). rewrite omap_map_seq; [done|].
  intros i r Hi. rewrite map_union_empty. cbn. by rewrite lookup_map_seq_0.
Qed.

Lemma no_err_results group : no_err (results_of group).
Proof.
  induction group as [|l group IH]; [done|]. apply no_err_bind; [apply no_err_execute|]. intros r.
  by apply no_err_bind.
Qed.

Lemma par_agrees group s :
  agree (par_execute_entries open_library gen_range par_order group s) (execute_all group s).
Proof.
  rewrite par_results. revert s. induction group as [|l group IH]; intros s; [done|].
  change (execute_all (l :: group)) with (execute_one l;; execute_all group).
  cbn [results_of]. unfold execute_one. unfold mbind, M_bind in *.
  destruct (execute_entry _ _ l s) as [[r|e|] s1] eqn:Hl; [|by destruct (no_err_execute _ _ _ _ Hl)|done].
  specialize (IH s1). destruct (results_of group s1) as [[rs|e|] s2] eqn:Hr.
  - cbn [mret M_ret]. unfold first_err, liftM in *. cbn [List.find].
    destruct r as [[]|e|]; cbn [is_ok negb]; done.
  - by destruct (no_err_results _ _ _ _ Hr).
  - unfold liftM. by destruct r as [[]|e'|].
Qed.

(** ** The loop *)

(** The reference: every entry is locked, executed and unlocked alone. *)
Definition entry_alone (e : Entry) : op unit :=
  lock_results ← lock_accounts e.(transactions);
  then_drop (let first_lock_err := first_err lock_results in
             if is_ok first_lock_err then execute_one (e, lock_results) else liftM first_lock_err)
    [(e, lock_results)].

Fixpoint entries_alone (entries : list Entry) : op unit :=
  match entries with
  | [] => mret tt
  | e :: entries =>
      (if is_tick e then
         s ← getM;
         register_tick (clock (slot (info (self s))) (tick_height (self s))) e.(entry_hash)
       else entry_alone e);;
      entries_alone entries
  end.

Definition unlocked s : Prop := locks (self s) = no_locks.

Definition group_keys (group : list Locked) : gset Pubkey :=
  foldr (λ l X, released l.1.(transactions) l.2 ∪ X) ∅ group.

Lemma group_keys_snoc group l :
  group_keys (group ++ [l]) = group_keys group ∪ released l.1.(transactions) l.2.
Proof.
  unfold group_keys. induction group as [|x group IH]; cbn; [set_solver|]. rewrite IH. set_solver.
Qed.

Lemma drop_group group : ∀ X s, within (X ∪ group_keys group) (locks (self s)) →
  ∃ L, (each drop_locked group s).2 = with_locks L s ∧ within X L.
Proof.
  induction group as [|l group IH]; intros X s Hw; cbn in *.
  - exists (locks (self s)). rewrite with_own_locks. by rewrite (right_id_L ∅ (∪)) in Hw.
  - set (s1 := mkState (db s) (statuses s) (set_locks (accounts.unlock_accounts (locks (self s))
      l.1.(transactions) l.2) (self s))).
    destruct (IH X s1) as (L & HL & Hin).
    + apply unlock_within. by replace (X ∪ group_keys group ∪ released l.1.(transactions) l.2)
        with (X ∪ (released l.1.(transactions) l.2 ∪ group_keys group)) by set_solver.
    + exists L. split; [exact HL|done].
Qed.

Lemma first_err_ok rs : first_err rs = Ok tt → all_ok rs.
Proof.
  unfold first_err, all_ok. induction rs as [|[[]| |] rs IH]; cbn; [constructor| |done..].
  intros H. constructor; auto.
Qed.

(** Locking the accounts of a list of transactions. *)
Lemma lock_accounts_run txs X s : within X (locks (self s)) →
  ∃ rs a', accounts.lock_accounts (locks (self s)) txs = Some (rs, mkLocks a' ∅ []) ∧
    a' ⊆ X ∪ released txs rs ∧
    lock_accounts txs s = (if existsb (λ r, match r with Panic => true | _ => false end) rs
                           then (Panic, s) else (Ok rs, with_locks (mkLocks a' ∅ []) s)).
Proof.
  intros (Ha & Hr & Hp). destruct (locks (self s)) as [a r p] eqn:HL. cbn in *. subst.
  destruct (lock_alone txs a) as (rs & a' & Hl & Ha' & _). exists rs, a'. split; [done|].
  split; [set_solver|]. unfold lock_accounts. unfold_monad. rewrite HL, Hl. unfold unwind.
  by destruct (existsb _ _).
Qed.

Lemma lock_accounts_alone txs X s rs s' : within X (locks (self s)) → 
  lock_accounts txs s = (Ok rs, s') → all_ok rs →
  ∃ L, lock_accounts txs (with_locks no_locks s) = (Ok rs, with_locks L s) ∧ within (released txs rs) L.
Proof.
  intros (Ha & Hr & Hp). destruct (locks (self s)) as [a r p] eqn:HL. cbn in *. subst.
  destruct (lock_alone txs a) as (rs' & a' & Hl & _ & Hmono).
  unfold lock_accounts. unfold_monad. rewrite HL, Hl. unfold unwind.
  destruct (existsb _ _) eqn:Hx; [done|]. cbn. intros [= -> _] Hok.
  destruct (Hmono Hok ∅ ltac:(set_solver)) as (b & Hb).
  destruct (lock_alone txs ∅) as (rs'' & b' & Hb' & Hsub & _). rewrite Hb in Hb'. simplify_eq.
  exists (mkLocks b' ∅ []). unfold no_locks. rewrite Hb, Hx. split; [done|].
  split; [|done]. cbn. set_solver.
Qed.

(** Alone, an entry that can be locked is executed, and leaves no locks. *)
Lemma entry_alone_ok e X s rs s' : within X (locks (self s)) →
  lock_accounts e.(transactions) s = (Ok rs, s') → first_err rs = Ok tt →
  ∀ s0, s0 = with_locks no_locks s → entry_alone e s0 = execute_one (e, rs) s0.
Proof.
  intros Hw Hl Hok s0 ->.
  destruct (lock_accounts_alone _ _ _ _ _ Hw Hl (first_err_ok _ Hok)) as (L & Hrun & HL).
  unfold entry_alone. rewrite (bind_eval _ _ _ _ _ Hrun), Hok. cbn [is_ok]. unfold then_drop.
  rewrite <- (with_locks_twice L no_locks s), execute_one_lock_free.
  destruct (execute_one (e, rs) (with_locks no_locks s)) as [r s1] eqn:Hx. cbn [fst snd].
  assert (s1 = with_locks no_locks s1) as Hs1.
  { change (with_locks no_locks s) with (with_locks no_locks (with_locks no_locks s)) in Hx.
    rewrite execute_one_lock_free in Hx. destruct (execute_one _ _) as [r' s2]. by injection Hx as _ <-. }
  destruct (drop_group [(e, rs)] ∅ (with_locks L s1)) as (L' & HL' & ->%within_empty).
  { cbn. by rewrite (left_id_L ∅ (∪)), (right_id_L ∅ (∪)). }
  rewrite HL', with_locks_twice. by rewrite <- Hs1.
Qed.

Lemma agree_bind (m m' f g : op unit) s s0 :
  agree (m s) (m' s0) →
  (∀ s', m s = (Ok tt, s') → m' s0 = (Ok tt, s') → agree (f s') (g s')) →
  agree ((m;; f) s) ((m';; g) s0).
Proof.
  unfold mbind, M_bind, agree at 1. intros Ha Hf.
  destruct (m s) as [[[]| |] s1], (m' s0) as [[[]| |] s2]; cbn in Ha; try done.
  subst. by apply Hf.
Qed.

(** Executing a group and releasing its locks. *)
Lemma flush_agrees group X s : within (X ∪ group_keys group) (locks (self s)) →
  ∃ r s1, then_drop (par_execute_entries open_library gen_range par_order group) group s = (r, s1) ∧
    agree (r, with_locks no_locks s1) (execute_all group (with_locks no_locks s)) ∧
    (r = Ok tt → within X (locks (self s1))).
Proof.
  intros Hw. unfold then_drop. rewrite execute_all_lock_free.
  pose proof (par_agrees group s) as Ha. destruct (par_execute_entries _ _ _ _ _) as [r s1].
  eexists _, _. split; [done|]. unfold agree in *. cbn in *.
  destruct r as [[]| |], (execute_all group s) as [[[]| |] s2] eqn:Hx; cbn in *; try done. subst s2.
  assert (locks (self s1) = locks (self s)) as HL.
  { pose proof (execute_all_lock_free group s (locks (self s))) as Hf.
    rewrite with_own_locks, Hx in Hf. injection Hf as Hf. by rewrite Hf. }
  rewrite <- HL in Hw. destruct (drop_group group X s1 Hw) as (L & -> & HX). done.
Qed.

Lemma flush_unlocked group s : within (group_keys group) (locks (self s)) →
  agree (then_drop (par_execute_entries open_library gen_range par_order group) group s)
    (execute_all group (with_locks no_locks s)) ∧
  ∀ s', then_drop (par_execute_entries open_library gen_range par_order group) group s = (Ok tt, s') →
    with_locks no_locks s' = s'.
Proof.
  intros Hw. destruct (flush_agrees group ∅ s) as (r & s1 & -> & Ha & HL).
  { by rewrite (left_id_L ∅ (∪)). }
  assert (r = Ok tt → with_locks no_locks s1 = s1) as Hs1.
  { intros Hr. specialize (HL Hr). apply within_empty in HL. rewrite <- HL. apply with_own_locks. }
  split; [|by intros s' [= -> ->]; apply Hs1].
  destruct r as [[]| |]; [|done..]. by rewrite Hs1 in Ha.
Qed.

(** An entry whose accounts cannot all be locked alone. *)
Lemma entry_alone_err e s rs s' : unlocked s →
  lock_accounts e.(transactions) s = (Ok rs, s') → is_ok (first_err rs) = false →
  (entry_alone e s).1 = first_err rs.
Proof.
  intros Hu Hl Hok. unfold entry_alone. rewrite (bind_eval _ _ _ _ _ Hl), Hok. done.
Qed.

Definition is_panic (r : TxResult unit) : bool := match r with Panic => true | _ => false end.

Lemma lock_panic_iff txs : ∀ a rs L', accounts.lock_accounts (mkLocks a ∅ []) txs = Some (rs, L') →
  existsb is_panic rs =
  existsb (λ tx, negb (is_ok (locked_keys (E:=TransactionError) tx.(tx_message)))) txs.
Proof.
  induction txs as [|tx txs IH]; intros a rs L'; cbn [accounts.lock_accounts]; [by intros [= <- _]|].
  destruct (lock_tx_alone a tx) as (r & a1 & Hr & _). rewrite Hr. cbn.
  destruct (lock_alone txs a1) as (rs' & a2 & H2 & _). rewrite H2. cbn. intros [= <- _].
  cbn. rewrite (IH _ _ _ H2). f_equal. unfold lock_tx, lock_account in Hr.
  destruct (locked_keys _) as [ks| |]; [|by simplify_eq..].
  cbn [account_locks record_locks parent_record_locks] in Hr.
  by destruct (check_locks_alone a ks) as (r' & Hc & [[-> _]|[-> _]]); rewrite Hc in Hr; simplify_eq/=.
Qed.

Lemma lock_panics txs X s s' t : within X (locks (self s)) → unlocked t →
  lock_accounts txs s = (Panic, s') → ∃ t', lock_accounts txs t = (Panic, t').
Proof.
  intros (Ha & Hr & Hp) Ht. destruct (locks (self s)) as [a r p] eqn:HL. cbn in *. subst.
  unfold lock_accounts. unfold_monad. rewrite HL, Ht. unfold no_locks.
  destruct (lock_alone txs a) as (rs & a' & Hl & _). destruct (lock_alone txs ∅) as (rs' & a'' & Hl' & _).
  rewrite Hl, Hl'. unfold unwind. fold is_panic.
  rewrite (lock_panic_iff _ _ _ _ Hl), (lock_panic_iff _ _ _ _ Hl').
  destruct (existsb _ _); [by eauto|done].
Qed.

Lemma no_err_lock txs : no_err (lock_accounts txs).
Proof.
  apply no_err_bind; [done|]. intros s. destruct (accounts.lock_accounts _ _) as [[rs L]|]; [|done].
  apply no_err_bind; [apply no_err_unwind|done].
Qed.

Lemma lock_within txs X s rs s' : within X (locks (self s)) → lock_accounts txs s = (Ok rs, s') →
  s' = with_locks (locks (self s')) s ∧ within (X ∪ released txs rs) (locks (self s')).
Proof.
  intros Hw Hl. destruct (lock_accounts_run txs X s Hw) as (rs' & a' & _ & Ha' & Hr).
  rewrite Hr in Hl. destruct (existsb _ _); simplify_eq. done.
Qed.

(** An entry that is looked at with an empty group. *)
Lemma lock_entry_empty fuel e s : unlocked s →
  match lock_entry open_library gen_range par_order (Datatypes.S fuel) e [] s with
  | (Ok g, s') => ∃ rs, g = [(e, rs)] ∧ within (group_keys g) (locks (self s')) ∧
      with_locks no_locks s' = s ∧ entry_alone e s = execute_all g s
  | (Err x, _) => (entry_alone e s).1 = Err x
  | (Panic, _) => (entry_alone e s).1 = Panic
  end.
Proof.
  intros Hu. assert (within ∅ (locks (self s))) as Hw by (by rewrite Hu).
  assert (with_locks no_locks s = s) as Hs by (rewrite <- Hu; apply with_own_locks).
  cbn [lock_entry]. unfold mbind, M_bind.
  destruct (lock_accounts _ s) as [[rs|x|] s1] eqn:Hl.
  - destruct (first_err rs) as [[]|x|] eqn:Hf; cbn [is_ok].
    + destruct (lock_within _ _ _ _ _ Hw Hl) as [Hs1 Hw1]. eexists. split; [done|].
      split; [by cbn; rewrite (right_id_L ∅ (∪)), (left_id_L ∅ (∪)) in *|].
      split; [by rewrite Hs1, with_locks_twice|].
      rewrite (entry_alone_ok e ∅ s rs s1) by done. cbn. unfold mbind, M_bind.
      by destruct (execute_one (e, rs) s) as [[[]| |] s2].
    + rewrite (entry_alone_err e s rs s1); [|done..|by rewrite Hf]. rewrite Hf. done.
    + rewrite (entry_alone_err e s rs s1); [|done..|by rewrite Hf]. rewrite Hf. done.
  - by destruct (no_err_lock _ _ _ _ Hl).
  - unfold entry_alone, mbind, M_bind. by rewrite Hl.
Qed.

Lemma lock_same txs s rs s' t : locks (self t) = locks (self s) →
  lock_accounts txs s = (Ok rs, s') → ∃ t', lock_accounts txs t = (Ok rs, t').
Proof.
  intros HL. unfold lock_accounts. unfold_monad. rewrite HL.
  destruct (accounts.lock_accounts _ _) as [[rs' L]|]; [|done]. unfold unwind.
  destruct (existsb _ _); [done|]. cbn. intros [= -> _]. eauto.
Qed.

Lemma execute_all_unlocked group s t : execute_all group (with_locks no_locks s) = (Ok tt, t) → unlocked t.
Proof.
  rewrite execute_all_lock_free. destruct (execute_all group s) as [r s1]. cbn. by intros [= _ <-].
Qed.

(** An entry that joins the group is executed after it. *)
Lemma join_group group X e rs s s1 (m : op unit) : within X (locks (self s)) →
  lock_accounts e.(transactions) s = (Ok rs, s1) → first_err rs = Ok tt →
  (execute_all group;; entry_alone e;; m) (with_locks no_locks s) =
  (execute_all (group ++ [(e, rs)]);; m) (with_locks no_locks s).
Proof.
  intros Hw Hl Hok. unfold mbind, M_bind. rewrite execute_all_app. unfold mbind, M_bind.
  destruct (execute_all group _) as [[[]| |] t] eqn:Hx; [|done..].
  pose proof (execute_all_unlocked _ _ _ Hx) as Hu.
  destruct (lock_same _ s _ _ (with_locks (locks (self s)) t) eq_refl Hl) as (t' & Ht).
  rewrite (entry_alone_ok e X (with_locks (locks (self s)) t) rs t' Hw Ht Hok t).
  - cbn. unfold mbind, M_bind. by destruct (execute_one (e, rs) t) as [[[]| |] u].
  - rewrite with_locks_twice, <- Hu. symmetry. apply with_own_locks.
Qed.

Lemma register_tick_unlocked now h s s' : unlocked s → register_tick now h s = (Ok tt, s') → unlocked s'.
Proof.
  unfold register_tick. unfold_monad. unfold modify_self. cbn. intros Hu.
  destruct (_ =? 0); [done|]. destruct (_ =? _); by intros [= <-].
Qed.

Lemma unlocked_self s : unlocked s → with_locks no_locks s = s.
Proof. intros <-. apply with_own_locks. Qed.

(** The turn on an entry that is not a tick, with a group that has to be
    executed first. *)
Lemma lock_entry_conflict e group s rs s1 : within (group_keys group) (locks (self s)) →
  group ≠ [] → lock_accounts e.(transactions) s = (Ok rs, s1) → is_ok (first_err rs) = false →
  ∃ r s2, lock_entry open_library gen_range par_order 2 e group s =
    (match r with
     | Ok _ => lock_entry open_library gen_range par_order 1 e [] s2
     | Err x => (Err x, s2)
     | Panic => (Panic, s2)
     end) ∧
    agree (r, s2) (execute_all group (with_locks no_locks s)) ∧ (r = Ok tt → unlocked s2).
Proof.
  intros Hw Hne Hl Hf. cbn [lock_entry]. unfold mbind at 1, M_bind at 1. rewrite Hl, Hf.
  destruct group as [|l0 g0]; [done|]. cbn [is_empty]. set (group := l0 :: g0) in *.
  destruct (lock_within _ _ _ _ _ Hw Hl) as [Hs1 Hw1].
  rewrite (comm_L (∪)) in Hw1. destruct (flush_agrees _ _ _ Hw1) as (r & s2 & Hfl & Ha & HL).
  rewrite Hs1, with_locks_twice in Ha. unfold mbind, M_bind. unfold then_drop at 1. rewrite Hfl.
  set (s3 := (each drop_locked [(e, rs)] s2).2). exists r, s3.
  split; [by destruct r as [[]| |]|].
  assert (r = Ok tt → s3 = with_locks no_locks s2) as Hs3.
  { intros Hr. destruct (drop_group [(e, rs)] ∅ s2) as (L & HL' & ->%within_empty); [|done].
    cbn. rewrite (left_id_L ∅ (∪)), (right_id_L ∅ (∪)). by apply HL. }
  split; [|by intros Hr; rewrite Hs3]. destruct r as [[]| |]; [|done..]. by rewrite Hs3.
Qed.

Lemma lock_entry_next fuel e s entries (IH : ∀ group s, within (group_keys group) (locks (self s)) →
  agree (process_loop open_library gen_range clock par_order entries group s)
    ((execute_all group;; entries_alone entries) (with_locks no_locks s))) : unlocked s →
  agree ((g ← lock_entry open_library gen_range par_order (Datatypes.S fuel) e [];
          process_loop open_library gen_range clock par_order entries g) s)
    ((entry_alone e;; entries_alone entries) s).
Proof.
  intros Hu. pose proof (lock_entry_empty fuel e s Hu) as He. unfold mbind, M_bind.
  destruct (lock_entry _ _ _ _ _ _ _) as [[g|x|] s1].
  - destruct He as (rs & -> & Hw & Hs1 & ->). specialize (IH _ _ Hw). by rewrite Hs1 in IH.
  - destruct (entry_alone e s) as [y t]. cbn in He. by subst y.
  - destruct (entry_alone e s) as [y t]. cbn in He. by subst y.
Qed.

Lemma process_loop_agrees entries : ∀ group s, within (group_keys group) (locks (self s)) →
  agree (process_loop open_library gen_range clock par_order entries group s)
    ((execute_all group;; entries_alone entries) (with_locks no_locks s)).
Proof.
  induction entries as [|e entries IH]; intros group s Hw.
  { cbn [process_loop entries_alone]. destruct (flush_unlocked group s Hw) as [Ha _].
    revert Ha. generalize (then_drop (par_execute_entries open_library gen_range par_order group) group s).
    intros x. unfold mbind, M_bind. by destruct (execute_all group _) as [[[]| |] t]. }
  cbn [process_loop entries_alone]. destruct (is_tick e).
  { destruct (flush_unlocked group s Hw) as [Ha Hu]. apply agree_bind; [done|].
    intros s' Hs' _. apply Hu in Hs'. assert (unlocked s') as Hu' by (by rewrite <- Hs').
    unfold mbind, M_bind. cbn [getM]. destruct (register_tick _ _ s') as [[[]| |] s2] eqn:Ht; [|done..].
    apply register_tick_unlocked in Ht; [|done]. specialize (IH [] s2).
    rewrite unlocked_self in IH by done. apply IH. by rewrite Ht. }
  destruct (lock_accounts e.(transactions) s) as [[rs|x|] s1] eqn:Hl.
  - destruct (is_ok (first_err rs)) eqn:Hf.
    + assert (first_err rs = Ok tt) as Hok by (by destruct (first_err rs) as [[]| |]).
      destruct (lock_within _ _ _ _ _ Hw Hl) as [Hs1 Hw1].
      rewrite (join_group group _ e rs s s1) by done.
      cbn [lock_entry]. unfold mbind at 1 2, M_bind at 1 2. rewrite Hl, Hf. cbn [mret M_ret].
      assert (with_locks no_locks s = with_locks no_locks s1) as -> by (by rewrite Hs1).
      apply IH. by rewrite group_keys_snoc.
    + destruct group as [|l0 g0].
      { rewrite unlocked_self by (by apply within_empty). apply lock_entry_next; [done|].
        by apply within_empty. }
      destruct (lock_entry_conflict e _ s rs s1 Hw ltac:(done) Hl Hf) as (r & s2 & Hr & Ha & Hu).
      unfold mbind at 1, M_bind at 1. rewrite Hr. unfold mbind at 1, M_bind at 1.
      unfold agree in Ha. cbn [fst snd] in Ha.
      destruct r as [[]|x|], (execute_all _ _) as [[[]| |] t]; try done.
      cbn in Ha. subst t. apply (lock_entry_next 0); [done|auto].
  - by destruct (no_err_lock _ _ _ _ Hl).
  - unfold mbind, M_bind. cbn [lock_entry]. unfold mbind, M_bind. rewrite Hl.
    destruct (execute_all group _) as [[[]| |] t] eqn:Hx; [|done..].
    destruct (lock_panics _ _ _ _ t Hw (execute_all_unlocked _ _ _ Hx) Hl) as (t' & Ht).
    unfold entry_alone, mbind, M_bind. by rewrite Ht.
Qed.


End groups.
End group_proofs.

(** ** What the operations leave as it is *)

Module frame_proofs.
Import account_store message transaction message_processor native_loader_program.
Import blockhash_queue status_cache stakes accounts slot_hashes entry bank blocktree_processor.

Section frames.
Context {S : Type} `{!AccountStore S}.
Context `{!Bincode SlotHashes, !Bincode LoaderInstruction, !Bincode stake_state.StakeState}.
Context (open_library : list Z → option (option ProcessInstruction)).
Context (gen_range : StatusCache (TxResult unit) → Hash → nat).
Notation op := (M (BankState S) TransactionError).
Implicit Types (s : BankState S) (b : Bank).

(** The part of a bank that transactions do not change. *)
Definition clockwork b : BankInfo * Z * BlockhashQueue * option Z :=
  (info b, tick_height b, queue b, parent b).

Definition leaves {A} (m : op A) : Prop := ∀ s, clockwork (self (m s).2) = clockwork (self s).

Lemma leaves_bind {A B} (m : op A) (k : A → op B) : leaves m → (∀ a, leaves (k a)) → leaves (m ≫= k).
Proof.
  intros Hm Hk s. unfold mbind, M_bind. specialize (Hm s).
  destruct (m s) as [[a| |] s1]; cbn in *; [|done..]. by rewrite Hk.
Qed.

Lemma leaves_modify f : (∀ b, clockwork (f b) = clockwork b) → leaves (modify_self f).
Proof. intros Hf s. apply Hf. Qed.

Lemma leaves_store_accounts l : leaves (store_accounts l).
Proof. intros s. unfold store_accounts. by destruct (as_store _ _ _). Qed.

Lemma leaves_store k a : leaves (bank.store k a).
Proof. apply leaves_bind; [apply leaves_store_accounts|]. intros []. by apply leaves_modify. Qed.

Lemma leaves_unwind {A} (l : list (TxResult A)) : leaves (unwind l).
Proof. unfold unwind. by destruct (existsb _ _). Qed.

Lemma leaves_withdraw k n : leaves (withdraw k n).
Proof.
  apply leaves_bind; [done|]. intros s. destruct (get_account k s) as [a|]; [|done].
  destruct (_ <? _); [done|]. apply leaves_store.
Qed.

Lemma leaves_collect txs : ∀ executed fees, leaves (collect_fees fees txs executed).
Proof.
  induction txs as [|tx txs IH]; intros executed fees; [done|]. destruct executed as [|r executed]; [done|].
  cbn [collect_fees]. apply leaves_bind; [done|]. intros s0. apply leaves_bind.
  - destruct r as [|[]|]; try done. destruct (account_keys _) as [|k ?]; [done|]. intros s.
    specialize (leaves_withdraw k (fee_calculator.calculate_fee (b_fee_calculator (info (self s0))) (tx_message tx)) s) as Hw.
    by destruct (withdraw _ _ s) as [[]].
  - intros [r' fees']. apply leaves_bind; [apply IH|by intros []].
Qed.

Lemma leaves_execute l : leaves (execute_entry open_library gen_range l).
Proof.
  apply leaves_bind; [|done]. apply leaves_bind.
  - apply leaves_bind; [done|]. intros s. apply leaves_bind.
    + apply leaves_bind; [done|]. intros s'. apply leaves_bind; [apply leaves_unwind|done].
    + intros ld. destruct (execute _ _ _ _ _) as [x c].
      apply leaves_bind; [apply leaves_unwind|]. intros []. apply leaves_bind; [by apply leaves_modify|done].
  - intros [ld executed]. apply leaves_bind.
    { apply leaves_modify. intros b. by destruct (existsb _ _). }
    intros []. apply leaves_bind; [apply leaves_store_accounts|].
    intros []. apply leaves_bind; [by apply leaves_modify|]. intros []. apply leaves_bind; [done|]. intros [].
    apply leaves_bind; [apply leaves_collect|]. intros [rs fees]. apply leaves_bind; [done|].
    intros s. apply leaves_bind; [|done]. apply leaves_bind; [done|]. intros s'. apply leaves_store.
Qed.

Lemma leaves_lock txs : leaves (lock_accounts txs).
Proof.
  apply leaves_bind; [done|]. intros s. destruct (accounts.lock_accounts _ _) as [[rs L]|]; [|done].
  apply leaves_bind; [apply leaves_unwind|]. intros []. apply leaves_bind; [by apply leaves_modify|done].
Qed.

Lemma leaves_each {A} (f : A → op unit) l : (∀ x, leaves (f x)) → leaves (each f l).
Proof. intros Hf. induction l as [|x l IH]; [done|]. apply leaves_bind; [done|by intros []]. Qed.

Context (clock : Z → Z → Z) (par_order : list Locked → list nat).

Lemma leaves_par group : leaves (par_execute_entries open_library gen_range par_order group).
Proof.
  apply leaves_bind; [|done]. generalize (par_order group), (∅ : gmap nat (TxResult unit)).
  intros order. induction order as [|i order IH]; intros m; [done|]. cbn [execute_in].
  destruct (group !! i) as [l|]; [|done]. apply leaves_bind; [apply leaves_execute|by intros r].
Qed.

Lemma leaves_then_drop {A} (m : op A) group : leaves m → leaves (then_drop m group).
Proof.
  intros Hm s. unfold then_drop. specialize (Hm s). destruct (m s) as [r s1]. cbn in *.
  rewrite (leaves_each drop_locked group); [done|]. intros l. by apply leaves_modify.
Qed.

Lemma leaves_lock_entry fuel e : ∀ group, leaves (lock_entry open_library gen_range par_order fuel e group).
Proof.
  induction fuel as [|fuel IH]; intros group; [done|]. cbn [lock_entry].
  apply leaves_bind; [apply leaves_lock|]. intros rs. destruct (is_ok _); [done|].
  destruct (is_empty group).
  - apply leaves_bind; [|done]. by apply leaves_then_drop.
  - apply leaves_bind; [|by intros []]. apply leaves_then_drop, leaves_then_drop, leaves_par.
Qed.

(** Every tick is counted. *)
Lemma process_entries_ticks entries s s' :
  process_entries open_library gen_range clock par_order entries s = (Ok tt, s') → 
  info (self s') = info (self s) ∧ parent (self s') = parent (self s) ∧
  wrap64 (tick_height (self s')) = wrap64 (tick_height (self s) + entry_proofs.tick_count entries).
Proof.
  unfold process_entries. generalize (@nil Locked).
  assert (∀ A (m : op A) s r s1, leaves m → m s = (r, s1) →
    info (self s1) = info (self s) ∧ parent (self s1) = parent (self s) ∧
    tick_height (self s1) = tick_height (self s)) as Hleaves.
  { intros A m s0 r s1 Hm H. specialize (Hm s0). rewrite H in Hm. by injection Hm. }
  revert s. induction entries as [|e entries IH]; intros s group; cbn [process_loop].
  { intros (? & ? & ->)%(Hleaves _ _ _ _ _ (leaves_then_drop _ _ (leaves_par group))).
    rewrite Z.add_0_r. done. }
  unfold entry_proofs.tick_count. rewrite filter_cons. destruct (is_tick e).
  - intros ([] & s1 & (Hi1 & Hp1 & Ht1)%Hleaves & H)%bind_ok; [|apply leaves_then_drop, leaves_par].
    apply bind_ok in H as (? & ? & [= <- <-] & H). apply bind_ok in H as ([] & s2 & Ht & H).
    apply IH in H as (Hi2 & Hp2 & Ht2).
    assert (info (self s2) = info (self s1) ∧ parent (self s2) = parent (self s1) ∧
      tick_height (self s2) = wrap64 (tick_height (self s1) + 1)) as (Hi3 & Hp3 & Ht3).
    { unfold register_tick, modify_self in Ht. unfold_monad. cbn in Ht.
      destruct (_ =? 0); [done|]. destruct (_ =? _); by injection Ht as <-. }
    split_and!; [congruence..|]. rewrite Ht2, Ht3, Ht1, wrap64_add_l.
    rewrite decide_True by done. unfold entry_proofs.tick_count. cbn [length]. f_equal. lia.
  - intros (group' & s1 & (Hi1 & Hp1 & Ht1)%Hleaves & H)%bind_ok; [|apply leaves_lock_entry].
    apply IH in H as (Hi2 & Hp2 & Ht2). rewrite decide_False by done.
    split_and!; [congruence..|]. by rewrite Ht2, Ht1.
Qed.
End frames.
End frame_proofs.
