(* ===== verification/ReplayChain.v ===== *)
(** * The walk over the ledger (Replay.v)

    What [process_blocktree] has established when it returns: each fork of the
    result is one proof of history that starts at the genesis block, its bank
    has counted the ticks of that chain, the forks are those that descend from
    the last root through full slots, and the walk ends. *)

From stdpp Require Import sorting.
From S2P Require Import Prelude Interface Codec Float SystemProgram VoteState Message MessageProcessor StakingUtils EpochSchedule.
From S2P Require Import BankForks LeaderSchedule Entry BlockStore BlockhashQueue StatusCache Stake AppendVec Accounts Bank BankProofs Replay ReplayProofs.

Module replay_proofs.
Import account_store message transaction message_processor native_loader_program.
Import blockhash_queue status_cache stakes accounts slot_hashes entry meta blocktree.
Import leader_schedule_cache bank Bank.bank_forks bank_accessors blocktree_processor.
Import poh_proofs entry_proofs frame_proofs.

Section replay.
Context {S : Type} `{!AccountStore S}.
Context `{!Bincode SlotHashes, !Bincode LoaderInstruction, !Bincode stake_state.StakeState}.
Context `{!Bincode system_instruction.SystemInstruction, !Bincode vote_state.VoteState}.
Context `{!Bincode Transaction, !Bincode (list Entry)}.
Context (open_library : list Z → option (option ProcessInstruction)).
Context (gen_range : StatusCache (TxResult unit) → Hash → nat).
Context (hash_all : list (list Z) → Hash) (hash_bytes : Hash → list Z).
Context (serialize_balance : append_vec.AccountBalance → list Z).
Context (serialize_hash : option Hash → list Z).
Context (sha256 : list Z → Hash).
Context (weighted_index : list Z → option (list Z → nat → nat)).
Context (vote_order : gmap Pubkey (Z * Account) → list (Pubkey * (Z * Account))).
Context (clock : Z → Z → Z) (par_order : list Locked → list nat).

Notation fork_op := (M (Forks S) TransactionError).
Notation replay_op := (M (Replay (S:=S)) BlocktreeProcessorError).
Implicit Types (f : Forks S) (r : Replay (S:=S)).

(** ** The banks *)

(** The bank of a slot has counted [t] ticks. *)
Definition bank_at f (n t : Z) : Prop :=
  ∃ b, banks f !! n = Some b ∧ slot (info b) = n ∧ wrap64 (tick_height b) = wrap64 t.

Lemma at_bank_leaves {A} n (m : M (BankState S) TransactionError A) f x f' : leaves m →
  at_bank n m f = (x, f') → ∀ k t, bank_at f k t → bank_at f' k t.
Proof.
  intros Hm. unfold at_bank. destruct (banks f !! n) as [b|] eqn:Hb; [|by intros [= _ <-]].
  specialize (Hm (mkState (f_db f) (f_statuses f) b)). destruct (m _) as [y s]. cbn in Hm.
  intros [= _ <-] k t (c & Hc & Hs & Ht). unfold bank_at. cbn.
  injection Hm as Hi Htick _ _. destruct (decide (k = n)) as [->|Hne].
  - exists (self s). rewrite lookup_insert_eq. simplify_eq. by rewrite Hi, Htick.
  - exists c. by rewrite lookup_insert_ne.
Qed.

Lemma leaves_freeze : leaves (S:=S) (freeze hash_all hash_bytes serialize_balance serialize_hash).
Proof.
  apply leaves_bind.
  - apply leaves_bind; [done|]. intros s. destruct (_ =? _); [|done].
    apply leaves_bind; [done|]. intros h. apply leaves_bind; [by apply leaves_modify|done].
  - intros []; [|done]. apply leaves_bind; [done|]. intros s. apply leaves_bind; [done|]. intros l.
    cbv zeta beta. case_match. case_match; [apply leaves_store|done].
Qed.

Lemma freeze_keeps n f x f' : freeze_bank hash_all hash_bytes serialize_balance serialize_hash n f = (x, f') →
  ∀ k t, bank_at f k t → bank_at f' k t.
Proof. apply at_bank_leaves, leaves_freeze. Qed.

Lemma entries_count n es f f' :
  at_bank n (process_entries open_library gen_range clock par_order es) f = (Ok tt, f') →
  ∀ k t, bank_at f k t → bank_at f' k (if decide (k = n) then t + tick_count es else t).
Proof.
  unfold at_bank. destruct (banks f !! n) as [b|] eqn:Hb; [|done].
  destruct (process_entries _ _ _ _ _ _) as [x s] eqn:Hp. intros [= -> <-] k t (c & Hc & Hs & Ht).
  apply process_entries_ticks in Hp as (Hi & _ & Htick). cbn in *. unfold bank_at. cbn.
  destruct (decide (k = n)) as [->|Hne].
  - exists (self s). rewrite lookup_insert_eq. simplify_eq. rewrite Hi, Htick.
    split_and!; [done..|]. by rewrite <- wrap64_add_l, Ht, wrap64_add_l.
  - exists c. by rewrite lookup_insert_ne.
Qed.

Lemma insert_like n (b c : Bank) f k t : banks f !! n = Some b → info c = info b →
  tick_height c = tick_height b → bank_at f k t →
  bank_at (mkForks (f_db f) (f_statuses f) (<[n := c]> (banks f))) k t.
Proof.
  intros Hb Hi Ht (d & Hd & Hs & Htick). unfold bank_at. cbn. destruct (decide (k = n)) as [->|Hne].
  - exists c. rewrite lookup_insert_eq. simplify_eq. by rewrite Hi, Ht.
  - exists d. by rewrite lookup_insert_ne.
Qed.

Lemma new_from_parent_banks n leader c f f' :
  new_from_parent hash_all hash_bytes serialize_balance serialize_hash n leader c f = (Ok tt, f') →
  (∀ k t, k ≠ c → bank_at f k t → bank_at f' k t) ∧ (∀ t, bank_at f n t → bank_at f' c t).
Proof.
  unfold new_from_parent. intros ([] & f1 & Hf & H)%bind_ok.
  pose proof (freeze_keeps _ _ _ _ Hf) as Hk. unfold get_bank in H.
  apply bind_ok in H as (p & f2 & [= Hp <-] & H). apply unwrap_ok in Hp.
  destruct (_ =? _); [done|]. destruct (locks_from_parent _) as [cl pl].
  apply bind_ok in H as ([] & f3 & [= <-] & H). apply bind_ok in H as (f4 & f5 & [= <- <-] & [= <-]).
  split.
  - intros k t Hne Hb. apply Hk in Hb. apply (insert_like n p (set_locks pl p)) in Hb; [|done..].
    destruct Hb as (d & Hd & Hs & Ht). exists d. cbn in *. by rewrite lookup_insert_ne.
  - intros t (d & Hd & Hs & Ht)%Hk. simplify_eq. eexists. cbn. rewrite lookup_insert_eq.
    split; [done|]. by cbn.
Qed.

Lemma squash_banks n f f' :
  squash hash_all hash_bytes serialize_balance serialize_hash n f = (Ok tt, f') →
  ∀ k t, bank_at f k t → bank_at f' k t.
Proof.
  unfold squash. intros ([] & f1 & Hf & H)%bind_ok k t Hb%(freeze_keeps _ _ _ _ Hf). unfold get_bank in H.
  apply bind_ok in H as (b & f2 & [= Hp <-] & H). apply unwrap_ok in Hp.
  apply bind_ok in H as (f3 & f4 & [= <- <-] & H). apply bind_ok in H as ([] & f5 & [= <-] & H).
  unfold root_parents in H. destruct (add_roots _ _) as [d|]; [|done]. injection H as <-.
  by apply (insert_like n b (set_parent None b)).
Qed.

Lemma drop_banks_held n f f' : drop_banks [n] f = (Ok tt, f') → ∀ t, bank_at f n t → bank_at f' n t.
Proof.
  unfold drop_banks. intros (f1 & f2 & [= <- <-] & H)%bind_ok t.
  assert (n ∉ unreferenced [n] (banks f)) as Hn.
  { unfold unreferenced. rewrite list_elem_of_filter. intros [Hn _]. apply Hn. cbn. set_solver. }
  revert Hn H. generalize (unreferenced [n] (banks f)). intros l. revert f.
  induction l as [|x l IH]; intros f Hn; cbn [foldr]; [by intros [= <-]|].
  apply not_elem_of_cons in Hn as [Hne Hn]. intros ([] & f1 & [= <-] & H)%bind_ok (b & Hb & Hs & Ht).
  apply (IH _ Hn H). exists b. cbn. by rewrite lookup_delete_ne.
Qed.

(** ** Chains of the ledger *)

(** Every slot is listed by its parent, once. *)
Record ledger_tree (D : Database) : Prop := {
  lt_child : ∀ s m c, cf_meta D !! s = Some m → c ∈ next_slots m →
    c ≠ 0 ∧ ∃ mc, cf_meta D !! c = Some mc ∧ parent_slot mc = s;
  lt_nodup : ∀ s m, cf_meta D !! s = Some m → NoDup (next_slots m)
}.

Definition full_child (D : Database) (s c : Z) : Prop :=
  ∃ m mc, cf_meta D !! s = Some m ∧ c ∈ next_slots m ∧ cf_meta D !! c = Some mc ∧ is_full mc = true.

(** The slots that are reached from [s] through full slots. *)
Definition reach (D : Database) : Z → Z → Prop := rtc (full_child D).

(** The entries of the slots on the way from slot 0, in their order. *)
Inductive ledger_path (D : Database) : Z → list Entry → Prop :=
| path_first es : get_slot_entries D 0 0 None = Ok es → ledger_path D 0 es
| path_next s es c es' : ledger_path D s es → full_child D s c →
    get_slot_entries D c 0 None = Ok es' → ledger_path D c (es ++ es').

(** The entries up to a slot are a proof of history that starts at [h0] with a
    tick. *)
Definition history (D : Database) (h0 : Hash) (n : Z) (es : list Entry) : Prop :=
  ledger_path D n es ∧ EntrySlice_verify (E:=Empty_set) sha256 h0 es = Ok true ∧
  ∃ e0 rest, es = e0 :: rest ∧ is_tick e0 = true.

Lemma verify_app es es' : ∀ h,
  EntrySlice_verify (E:=Empty_set) sha256 h es = Ok true →
  EntrySlice_verify (E:=Empty_set) sha256 (last_hash h es) es' = Ok true →
  EntrySlice_verify (E:=Empty_set) sha256 h (es ++ es') = Ok true.
Proof.
  induction es as [|e es IH]; intros h; cbn [app EntrySlice_verify]; [done|].
  destruct (Entry_verify _ _ _) as [[]| |]; cbn; [|done..]. intros Hes Hes'. apply IH; [done|].
  revert Hes'. unfold last_hash. rewrite last_cons. by destruct (last es).
Qed.

Lemma last_hash_app h es es' : last_hash h (es ++ es') = last_hash (last_hash h es) es'.
Proof. unfold last_hash. rewrite last_app. by destruct (last es'). Qed.

Section walk.
Context (D : Database) (Htree : ledger_tree D) (h0 : Hash).

Definition pending_ok f (p : Pending) : Prop :=
  cf_meta D !! p_slot p = Some (p_meta p) ∧
  (p_slot p = 0 ∧ p_entry_height p = 0 ∧ p_last_entry_hash p = h0 ∧ bank_at f 0 0 ∨
   ∃ s es, p_slot p ≠ 0 ∧ history D h0 s es ∧ full_child D s (p_slot p) ∧
     p_entry_height p = wrap64 (Z.of_nat (length es)) ∧ p_last_entry_hash p = last_hash h0 es ∧
     bank_at f (p_slot p) (tick_count es - 1)).

Definition head_ok f (x : Z * BankForksInfo) : Prop :=
  ∃ es, history D h0 x.1 es ∧ x.2 = mkForksInfo x.1 (wrap64 (Z.of_nat (length es))) ∧
    bank_at f x.1 (tick_count es - 1).

Lemma on_forks_ok {A} (m : fork_op A) r a r' : on_forks m r = (Ok a, r') →
  ∃ f', m (forks r) = (Ok a, f') ∧ r' = with_forks f' r.
Proof. unfold on_forks. destruct (m (forks r)) as [[x| |] f']; intros [= <- <-]. eauto. Qed.

Lemma map_err_ok {E F A} (g : E → F) (x : res E A) a : map_err g x = Ok a → x = Ok a.
Proof. by destruct x; cbn; intros [= <-]. Qed.

Definition run_entries (n : Z) (entries : list Entry) (entry_height : Z) (last_entry_hash : Hash)
    : replay_op (Z * Hash) :=
  match last entries with
  | None => mret (entry_height, last_entry_hash)
  | Some last_entry =>
      verified ← liftM (never (EntrySlice_verify sha256 last_entry_hash entries));
      if negb verified then throw LedgerVerificationFailed
      else
        on_forks (at_bank n (process_entries open_library gen_range clock par_order entries));;
        mret (u64_add entry_height (wrap64 (Z.of_nat (length entries))), last_entry.(entry_hash))
  end.

Lemma run_entries_ok n es' x lh r h lh' r' t :
  run_entries n es' (wrap64 x) lh r = (Ok (h, lh'), r') → bank_at (forks r) n t →
  EntrySlice_verify (E:=Empty_set) sha256 lh es' = Ok true ∧
  h = wrap64 (x + Z.of_nat (length es')) ∧ lh' = last_hash lh es' ∧
  ∃ f', r' = with_forks f' r ∧ bank_at f' n (t + tick_count es') ∧
    ∀ k t, k ≠ n → bank_at (forks r) k t → bank_at f' k t.
Proof.
  unfold run_entries. destruct (last es') as [e|] eqn:Hlast.
  - intros (v & r1 & [= Hv <-] & H)%bind_ok Hb. apply map_err_ok in Hv. destruct v; [|done].
    apply bind_ok in H as ([] & r2 & (f' & Hp & ->)%on_forks_ok & [= <- <- <-]).
    pose proof (entries_count _ _ _ _ Hp) as Hc. split_and!; [done|by unfold u64_add; wrap_lia|
      by unfold last_hash; rewrite Hlast|]. exists f'. split; [done|]. split.
    + apply Hc in Hb. by rewrite decide_True in Hb.
    + intros k t' Hne Hk%Hc. by rewrite decide_False in Hk.
  - apply last_None in Hlast as ->. intros [= <- <- <-] Hb. cbn. rewrite !Z.add_0_r.
    split_and!; [done..|]. exists (forks r). split; [by destruct r|done].
Qed.

Lemma history_first e0 rest : get_slot_entries D 0 0 None = Ok (e0 :: rest) → is_tick e0 = true →
  Entry_verify (E:=Empty_set) sha256 h0 e0 = Ok true →
  EntrySlice_verify (E:=Empty_set) sha256 e0.(entry_hash) rest = Ok true →
  history D h0 0 (e0 :: rest).
Proof.
  intros He Ht Hv Hr. split; [by constructor|]. split; [|by eauto]. cbn. by rewrite Hv.
Qed.

Lemma history_next n es c es' : history D h0 n es → full_child D n c →
  get_slot_entries D c 0 None = Ok es' →
  EntrySlice_verify (E:=Empty_set) sha256 (last_hash h0 es) es' = Ok true →
  history D h0 c (es ++ es').
Proof.
  intros (Hp & Hv & e0 & rest & -> & Ht) Hc He Hv'. split; [by eapply path_next|].
  split; [by apply verify_app|]. by exists e0, (rest ++ es').
Qed.

Lemma tick_count_cons e es : is_tick e = true → tick_count (e :: es) = tick_count es + 1.
Proof. intros He. unfold tick_count. rewrite filter_cons, decide_True by done. cbn [length]. lia. Qed.

Lemma process_slot_ok p r h lh r' :
  ledger r = D → pending_ok (forks r) p →
  process_slot open_library gen_range sha256 clock par_order p r = (Ok (h, lh), r') →
  ∃ es f', history D h0 (p_slot p) es ∧ h = wrap64 (Z.of_nat (length es)) ∧ lh = last_hash h0 es ∧
    r' = with_forks f' r ∧ bank_at f' (p_slot p) (tick_count es - 1) ∧
    ∀ k t, k ≠ p_slot p → bank_at (forks r) k t → bank_at f' k t.
Proof.
  intros HD [Hm Hp]. unfold process_slot. intros (? & ? & [= <- <-] & H)%bind_ok. rewrite HD in H.
  apply bind_ok in H as (es & ? & [= Hes <-] & H). apply map_err_ok in Hes.
  destruct Hp as [(H0 & Hh & Hl & Hb)|(n & es0 & H0 & Hhist & Hc & Hh & Hl & Hb)].
  - rewrite H0, Hh, Hl in *. cbn [Z.eqb] in H. destruct es as [|e0 rest]; [done|].
    apply bind_ok in H as (((es' & eh) & lh') & r1 & H1 & H).
    destruct (is_tick e0) eqn:Ht; [|done]. apply bind_ok in H1 as (v & ? & [= Hv <-] & H1).
    apply map_err_ok in Hv. destruct v; [|done]. injection H1 as <- <- <- <-.
    fold (run_entries 0 rest (u64_add 0 1) e0.(entry_hash)) in H.
    destruct (run_entries_ok 0 rest 1 _ _ _ _ _ _ H Hb) as (Hv' & -> & -> & f' & -> & Hb' & Hk).
    exists (e0 :: rest), f'. split; [by apply history_first|]. split; [by cbn [length]; f_equal; lia|].
    split; [exact (eq_sym (last_hash_app h0 [e0] rest))|].
    split; [done|]. split; [|done]. rewrite tick_count_cons by done. by replace (tick_count rest + 1 - 1)
      with (0 + tick_count rest) by lia.
  - rewrite (proj2 (Z.eqb_neq _ _)) in H by done. rewrite Hh, Hl in *.
    apply bind_ok in H as (? & ? & [= <- <-] & H).
    fold (run_entries (p_slot p) es (wrap64 (Z.of_nat (length es0))) (last_hash h0 es0)) in H.
    destruct (run_entries_ok _ _ _ _ _ _ _ _ _ H Hb) as (Hv' & -> & -> & f' & -> & Hb' & Hk).
    exists (es0 ++ es), f'. split; [by eapply history_next|]. rewrite length_app, last_hash_app.
    split; [by f_equal; lia|]. split_and!; [done..| |done]. rewrite tick_count_app.
    by replace (tick_count es0 + tick_count es - 1) with (tick_count es0 - 1 + tick_count es) by lia.
Qed.

(** ** The walk *)

Definition pend r : list Z := p_slot <$> pending_slots r.

(** A fork ends at the slot, or goes on in a slot that is not full. *)
Definition ends (n : Z) : Prop :=
  ∃ m, cf_meta D !! n = Some m ∧
    (next_slots m = [] ∨ ∃ c mc, c ∈ next_slots m ∧ cf_meta D !! c = Some mc ∧ is_full mc = false).

(** The slots [V] have been processed, of which [W] from the root on. *)
Record walk_base (V W : list Z) r : Prop := {
  w_ledger : ledger r = D;
  w_nodup : NoDup (V ++ pend r);
  w_known : ∀ x, x ∈ V → is_Some (cf_meta D !! x);
  w_parents : ∀ x, x ∈ V ++ pend r →
    x = 0 ∨ ∃ mx, cf_meta D !! x = Some mx ∧ parent_slot mx ∈ V;
  w_pending : Forall (pending_ok (forks r)) (pending_slots r);
  w_heads : Forall (head_ok (forks r)) (fork_info r);
  w_sub : ∀ x, x ∈ W → x ∈ V;
  w_root : root r ∈ W ++ pend r;
  w_reach : ∀ x, x ∈ W ++ pend r → reach D (root r) x;
  w_rooted : is_root D (root r) = true ∧ reach D 0 (root r);
  w_unrooted : ∀ x, x ∈ W → x ≠ root r → is_root D x = false;
  w_heads_in : ∀ x, x ∈ fork_info r → x.1 ∈ W
}.

(** All children of the slots [W] are known, but for the slots [l]. *)
Definition covered (W l : list Z) r : Prop := ∀ v c, v ∈ W → full_child D v c → c ∈ W ++ pend r ∨ c ∈ l.

Definition ends_but (l : list Z) (n : Z) : Prop :=
  ∃ m, cf_meta D !! n = Some m ∧
    (next_slots m = [] ∨
     ∃ c mc, c ∈ next_slots m ∧ c ∉ l ∧ cf_meta D !! c = Some mc ∧ is_full mc = false).

Record walk (V W l : list Z) r : Prop := {
  wk_base : walk_base V W r;
  wk_covered : covered W l r;
  wk_ends : ∀ n, n ∈ (fork_info r).*1 ↔ n ∈ W ∧ ends_but l n
}.

(** The bank of every slot that is still of use is unchanged by what only
    touches the banks of other slots. *)
Lemma base_forks V W r f' n : walk_base V W r → n ∉ pend r → n ∉ (fork_info r).*1 →
  (∀ k t, k ≠ n → bank_at (forks r) k t → bank_at f' k t) →
  walk_base V W (with_forks f' r).
Proof.
  intros [] Hn Hh Hk. split; try done.
  - change (Forall (pending_ok f') (pending_slots r)). rewrite Forall_forall in *. intros p Hp.
    destruct (w_pending0 p Hp) as [Hm Hc]. split; [done|].
    assert (p_slot p ≠ n) as Hne by (intros <-; apply Hn; by apply list_elem_of_fmap_2).
    destruct Hc as [(? & ? & ? & ?)|(s & es & ? & ? & ? & ? & ? & ?)].
    + left. split_and!; [done..|]. apply Hk; [congruence|done].
    + right. exists s, es. split_and!; [done..|]. by apply Hk.
  - change (Forall (head_ok f') (fork_info r)). rewrite Forall_forall in *. intros x Hx.
    destruct (w_heads0 x Hx) as (es & ? & ? & ?). exists es. split_and!; [done..|].
    apply Hk; [|done]. intros <-. apply Hh. by apply list_elem_of_fmap_2.
Qed.

Lemma base_schedules V W r c : walk_base V W r → walk_base V W (with_schedules c r).
Proof. by intros []. Qed.

Lemma walk_perm V W l r ps : walk V W l r → ps ≡ₚ pending_slots r → walk V W l (with_pending ps r).
Proof.
  intros [[] Hc He] Hp.
  assert (p_slot <$> ps ≡ₚ pend r) as Hs by (by apply fmap_Permutation).
  split; [split; unfold pend in *; cbn in *|..]; try done.
  - by rewrite Hs.
  - intros x. rewrite Hs. auto.
  - by rewrite Hp.
  - by rewrite Hs.
  - intros x. rewrite Hs. auto.
  - unfold covered, pend. cbn. intros v c Hv Hvc. rewrite Hs. by apply Hc with v.
Qed.

(** ** The children of a slot *)

Section children.
Context (V W : list Z) (s : Z) (m : SlotMeta) (es : list Entry).
Context (Hs : s ∈ W) (Hm : cf_meta D !! s = Some m) (Hhist : history D h0 s es).

Lemma child_of n mn c : cf_meta D !! n = Some mn → c ∈ next_slots mn → c ∈ next_slots m → n = s.
Proof.
  intros Hn Hc Hc'. destruct (lt_child _ Htree _ _ _ Hn Hc) as (_ & mc & H1 & Hp1).
  destruct (lt_child _ Htree _ _ _ Hm Hc') as (_ & mc' & H2 & Hp2). congruence.
Qed.

(** A child that is not full is listed as the end of a fork. *)
Lemma walk_not_full c l r mc : walk V W (c :: l) r → c ∉ l → c ∈ next_slots m →
  cf_meta D !! c = Some mc → is_full mc = false → bank_at (forks r) s (tick_count es - 1) →
  walk V W l (with_fork_info (fork_info r ++ [(s, mkForksInfo s (wrap64 (Z.of_nat (length es))))]) r).
Proof.
  intros [[] Hcov He] Hcl Hc Hmc Hfull Hb. split; [split|..]; try done.
  - cbn. apply Forall_app. split; [done|]. constructor; [|done]. by exists es.
  - cbn. by intros x [?|[= ->]%list_elem_of_singleton]%elem_of_app; [auto|].
  - intros v c' Hv Hvc. destruct (Hcov v c' Hv Hvc) as [|[->|]%elem_of_cons]; [by left| |by right].
    destruct Hvc as (? & ? & _ & _ & ? & ?). congruence.
  - cbn. intros n. rewrite fmap_app, elem_of_app, He. cbn. rewrite list_elem_of_singleton. split.
    + intros [[Hn (mn & Hmn & [|(c' & mc' & ? & [? ?]%not_elem_of_cons & ? & ?)])]| ->]; (split; [done|]).
      * exists mn. auto.
      * exists mn. split; [done|]. right. by exists c', mc'.
      * exists m. split; [done|]. right. by exists c, mc.
    + intros [Hn (mn & Hmn & [|(c' & mc' & Hc' & ? & ? & ?)])].
      * left. split; [done|]. exists mn. auto.
      * destruct (decide (c' = c)) as [->|Hne]; [right; by eapply child_of|].
        left. split; [done|]. exists mn. split; [done|]. right. exists c', mc'.
        rewrite not_elem_of_cons. done.
Qed.

(** A full child gets a bank, and will be processed. *)
Lemma walk_full c l r mc f' : walk V W (c :: l) r → c ∉ V ++ pend r → c ∈ next_slots m →
  cf_meta D !! c = Some mc → is_full mc = true →
  (∀ k t, k ≠ c → bank_at (forks r) k t → bank_at f' k t) → bank_at f' c (tick_count es - 1) →
  walk V W l (with_pending (pending_slots r ++
    [mkPending c mc (wrap64 (Z.of_nat (length es))) (last_hash h0 es)]) (with_forks f' r)).
Proof.
  intros [Hbase Hcov He] Hnew Hc Hmc Hfull Hk Hb. rewrite not_elem_of_app in Hnew. destruct Hnew as [HcV Hcp].
  destruct (lt_child _ Htree _ _ _ Hm Hc) as (Hc0 & mc' & Hmc' & Hpar).
  assert (mc' = mc) as -> by congruence. clear Hmc'.
  assert (full_child D s c) as Hfc by (by exists m, mc).
  assert (c ∉ (fork_info r).*1) as Hch by (intros [x [-> Hx]]%list_elem_of_fmap; by apply HcV, (w_sub _ _ _ Hbase), (w_heads_in _ _ _ Hbase)).
  pose proof (base_forks V W r f' c Hbase Hcp Hch Hk) as [].
  assert (pend (with_pending (pending_slots r ++ [mkPending c mc (wrap64 (Z.of_nat (length es)))
    (last_hash h0 es)]) (with_forks f' r)) = pend r ++ [c]) as Hpend by (unfold pend; cbn; by rewrite fmap_app).
  split; [split|..]; rewrite ?Hpend; try done.
  - rewrite app_assoc. apply NoDup_app. split; [done|]. split; [|apply NoDup_singleton].
    intros x Hx ->%list_elem_of_singleton. apply elem_of_app in Hx. tauto.
  - intros x. rewrite app_assoc, elem_of_app. intros [?| ->%list_elem_of_singleton]; [by apply w_parents0|].
    right. exists mc. split; [done|]. rewrite Hpar. by apply w_sub0.
  - cbn. apply Forall_app. split; [done|]. constructor; [|done]. split; [done|]. right. by exists s, es.
  - rewrite app_assoc, elem_of_app. by left.
  - intros x. rewrite app_assoc, elem_of_app. intros [?| ->%list_elem_of_singleton]; [by apply w_reach0|].
    apply rtc_r with s; [|done]. apply w_reach0, elem_of_app. by left.
  - intros v c' Hv Hvc. rewrite Hpend, app_assoc, elem_of_app, list_elem_of_singleton.
    destruct (Hcov v c' Hv Hvc) as [|[->|]%elem_of_cons]; auto.
  - intros n. change (n ∈ (fork_info r).*1 ↔ n ∈ W ∧ ends_but l n). rewrite He.
    split; intros [Hn (mn & Hmn & Hc')]; (split; [done|]); exists mn; (split; [done|]);
      (destruct Hc' as [|(c' & mc' & ? & Hl & ? & ?)]; [by left|right]); exists c', mc'.
    + rewrite not_elem_of_cons in Hl. by destruct Hl.
    + rewrite not_elem_of_cons. split_and!; [done|congruence|done..].
Qed.

Lemma next_slots_walk l : ∀ r r', walk V W l r → NoDup l →
  (∀ c, c ∈ l → c ∈ next_slots m ∧ c ∉ V ++ pend r) → bank_at (forks r) s (tick_count es - 1) →
  process_next_slots hash_all hash_bytes serialize_balance serialize_hash weighted_index vote_order
    s l (wrap64 (Z.of_nat (length es))) (last_hash h0 es) r = (Ok tt, r') →
  walk V W [] r'.
Proof.
  induction l as [|c l IH]; intros r r' Hw Hnd Hl Hb; cbn [process_next_slots]; [by intros [= <-]|].
  apply NoDup_cons in Hnd as [Hcl Hnd]. destruct (Hl c) as [Hc Hnew]; [left|].
  intros (? & ? & [= <- <-] & H)%bind_ok. rewrite (w_ledger _ _ _ (wk_base _ _ _ _ Hw)) in H.
  apply bind_ok in H as (mc & ? & [= Hmc <-] & H). apply unwrap_ok in Hmc.
  apply bind_ok in H as ([] & r1 & H1 & H). destruct (is_full mc) eqn:Hfull.
  - apply bind_ok in H1 as (b & r2 & (f1 & Hf1 & ->)%on_forks_ok & H1).
    unfold get_bank in Hf1. injection Hf1 as Hb1 <-.
    apply bind_ok in H1 as (leader & r3 & Hsch & H1). unfold on_schedules in Hsch.
    destruct (cache_slot_leader_at _ _ _ _) as [x sch]. injection Hsch as Hx <-.
    apply bind_ok in H1 as (lead & r4 & [= Hlead <-] & H1).
    apply bind_ok in H1 as ([] & r5 & (f2 & Hf2 & ->)%on_forks_ok & [= <-]).
    cbn in Hf2. destruct (new_from_parent_banks _ _ _ _ _ Hf2) as [Hk Hchild].
    assert (walk V W (c :: l) (with_schedules sch r)) as Hw'.
    { destruct Hw as [? ? ?]. split; [by apply base_schedules|done..]. }
    pose proof (walk_full c l (with_schedules sch r) mc f2 Hw' Hnew Hc Hmc Hfull Hk (Hchild _ Hb)) as Hw2.
    apply (IH _ _ Hw2 Hnd); [| |exact H].
    + intros c' Hc'. destruct (Hl c') as [? Hn']; [by right|]. split; [done|].
      unfold pend. cbn. rewrite fmap_app, app_assoc, not_elem_of_app. split; [done|]. cbn.
      rewrite list_elem_of_singleton. congruence.
    + apply Hk; [|done]. intros ->. apply Hnew, elem_of_app. left.
      by apply (w_sub _ _ _ (wk_base _ _ _ _ Hw)).
  - injection H1 as <-. eapply IH; [by eapply walk_not_full| done| |done|exact H].
    intros c' Hc'. apply Hl. by right.
Qed.
End children.

(** ** A turn of the loop *)

(** The slot [s] has been executed; its children are still to be listed. *)
Record opened (V W : list Z) (s : Z) (m : SlotMeta) (es : list Entry) r : Prop := {
  op_base : walk_base V W r;
  op_covered : covered W (next_slots m) r;
  op_ends : ∀ n, n ∈ (fork_info r).*1 ↔ n ∈ W ∧ n ≠ s ∧ ends n;
  op_in : s ∈ W;
  op_fresh : ∀ c, c ∈ next_slots m → c ∉ V ++ pend r;
  op_bank : bank_at (forks r) s (tick_count es - 1)
}.

Lemma fresh_children V r s m : cf_meta D !! s = Some m → s ∉ V →
  (∀ x, x ∈ V ++ pend r → x = 0 ∨ ∃ mx, cf_meta D !! x = Some mx ∧ parent_slot mx ∈ V) →
  ∀ c, c ∈ next_slots m → c ∉ V ++ pend r.
Proof.
  intros Hm Hs Hp c Hc Hin. destruct (lt_child _ Htree _ _ _ Hm Hc) as (H0 & mc & Hmc & Hpar).
  destruct (Hp c Hin) as [|(mx & ? & ?)]; [done|]. simplify_eq.
Qed.

Section turn.
Context (V W : list Z) (ps : list Pending) (p : Pending).

Lemma pend_snoc r : pending_slots r = ps ++ [p] → pend r = (p_slot <$> ps) ++ [p_slot p].
Proof. unfold pend. intros ->. by rewrite fmap_app. Qed.

Lemma pop_fresh r : walk_base V W r → pending_slots r = ps ++ [p] →
  cf_meta D !! p_slot p = Some (p_meta p) ∧ p_slot p ∉ V ∧ p_slot p ∉ p_slot <$> ps.
Proof.
  intros [] Hps. rewrite (pend_snoc r Hps) in *. rewrite Hps in *.
  apply Forall_app in w_pending0 as [_ [[? _] _]%Forall_cons].
  rewrite app_assoc in w_nodup0. apply NoDup_app in w_nodup0 as (_ & Hd & _). split; [done|].
  split; intros Hin; apply (Hd (p_slot p)); try (by left); apply elem_of_app; auto.
Qed.

Lemma pop_base r : walk_base V W r → pending_slots r = ps ++ [p] → is_root D (p_slot p) = false →
  walk_base (V ++ [p_slot p]) (W ++ [p_slot p]) (with_pending ps r).
Proof.
  intros Hbase Hps Hroot. destruct (pop_fresh r Hbase Hps) as (Hm & HV & Hin).
  pose proof Hbase as []. rewrite (pend_snoc r Hps) in *.
  assert ((V ++ [p_slot p]) ++ (p_slot <$> ps) ≡ₚ V ++ (p_slot <$> ps) ++ [p_slot p]) as HpV by solve_Permutation.
  assert ((W ++ [p_slot p]) ++ (p_slot <$> ps) ≡ₚ W ++ (p_slot <$> ps) ++ [p_slot p]) as HpW by solve_Permutation.
  assert (∀ x, x ∈ V ++ [p_slot p] ↔ x ∈ V ∨ x = p_slot p) as HinV
    by (intros x; by rewrite elem_of_app, list_elem_of_singleton).
  split; cbn; try done.
  - by rewrite HpV.
  - intros x [?| ->]%HinV; auto.
  - intros x. rewrite HpV. intros [|(mx & ? & ?)]%w_parents0; [by left|]. right. exists mx.
    rewrite HinV. auto.
  - rewrite Hps in w_pending0. by apply Forall_app in w_pending0 as [? _].
  - intros x. rewrite elem_of_app, HinV, list_elem_of_singleton. intros [?| ->]; auto.
  - by rewrite HpW.
  - intros x. rewrite HpW. apply w_reach0.
  - intros x. rewrite elem_of_app, list_elem_of_singleton. intros [?| ->]; auto.
  - intros x Hx. apply elem_of_app. auto.
Qed.

(** A slot that is not rooted. *)
Lemma pop_opened r f es : walk V W [] r → pending_slots r = ps ++ [p] → is_root D (p_slot p) = false →
  (∀ k t, k ≠ p_slot p → bank_at (forks r) k t → bank_at f k t) →
  bank_at f (p_slot p) (tick_count es - 1) →
  opened (V ++ [p_slot p]) (W ++ [p_slot p]) (p_slot p) (p_meta p) es
    (with_forks f (with_pending ps r)).
Proof.
  intros [Hbase Hcov He] Hps Hroot Hk Hb. destruct (pop_fresh r Hbase Hps) as (Hm & HV & Hin).
  pose proof (pop_base r Hbase Hps Hroot) as Hbase'.
  assert (p_slot p ∉ (fork_info r).*1) as Hh.
  { intros (x & Hx & Hx2)%list_elem_of_fmap. apply HV. rewrite Hx.
    by apply (w_sub _ _ _ Hbase), (w_heads_in _ _ _ Hbase). }
  assert (p_slot p ∉ W) as HW by (intros ?; by apply HV, (w_sub _ _ _ Hbase)).
  split; [by apply (base_forks _ _ (with_pending ps r) f (p_slot p))|..]; cbn.
  - intros v c. rewrite elem_of_app, list_elem_of_singleton. intros [Hv| ->] Hvc.
    + left. destruct (Hcov v c Hv Hvc) as [Hc|Hc%elem_of_nil]; [|done].
      rewrite (pend_snoc r Hps) in Hc. unfold pend. cbn. revert Hc. rewrite !elem_of_app. tauto.
    + right. destruct Hvc as (m & mc & Hm' & ? & _). by simplify_eq.
  - intros n. rewrite He, elem_of_app, list_elem_of_singleton. unfold ends_but, ends. split.
    + intros [Hn (m & Hmn & Hc)]. split; [by left|]. split; [by intros ->|]. exists m. split; [done|].
      destruct Hc as [|(c & mc & ? & _ & ? & ?)]; [by left|]. right. by exists c, mc.
    + intros [[Hn| ->] [Hne (m & Hmn & Hc)]]; [|done]. split; [done|]. exists m. split; [done|].
      destruct Hc as [|(c & mc & ? & ? & ?)]; [by left|]. right. exists c, mc.
      split_and!; [done|apply not_elem_of_nil|done..].
  - apply elem_of_app. right. by left.
  - intros c Hc. pose proof (w_parents _ _ _ Hbase) as Hpar.
    rewrite <- app_assoc, not_elem_of_app. 
    pose proof (fresh_children V r (p_slot p) (p_meta p) Hm HV Hpar c Hc) as Hf.
    rewrite (pend_snoc r Hps) in Hf. unfold pend. cbn.
    rewrite !not_elem_of_app, not_elem_of_cons in *. naive_solver.
  - done.
Qed.

(** A rooted slot: everything before it is forgotten. *)
Lemma root_opened r r' es : walk V W [] r → pending_slots r = ps ++ [p] → is_root D (p_slot p) = true →
  ledger r' = D → pending_slots r' = [] → fork_info r' = [] → root r' = p_slot p →
  bank_at (forks r') (p_slot p) (tick_count es - 1) →
  opened (V ++ [p_slot p]) [p_slot p] (p_slot p) (p_meta p) es r'.
Proof.
  intros [Hbase Hcov He] Hps Hroot HD Hp' Hi' Hr' Hb. destruct (pop_fresh r Hbase Hps) as (Hm & HV & Hin).
  pose proof Hbase as []. assert (pend r' = []) as Hpend by (unfold pend; by rewrite Hp').
  rewrite (pend_snoc r Hps) in *.
  assert (∀ x, x ∈ V ++ [p_slot p] ↔ x ∈ V ∨ x = p_slot p) as HinV
    by (intros x; by rewrite elem_of_app, list_elem_of_singleton).
  split; [split|..]; rewrite ?HD, ?Hpend, ?Hp', ?Hi', ?Hr', ?app_nil_r; try done.
  - apply NoDup_app. split_and!; [by apply NoDup_app in w_nodup0 as [? _]| |apply NoDup_singleton].
    by intros x Hx ->%list_elem_of_singleton.
  - intros x [?| ->]%HinV; auto.
  - intros x [Hx| ->]%HinV; [|destruct (w_parents0 (p_slot p)) as [|(mx & ? & ?)]].
    + destruct (w_parents0 x) as [|(mx & ? & ?)]; [apply elem_of_app; by left|by left|].
      right. exists mx. rewrite HinV. auto.
    + apply elem_of_app. right. apply elem_of_app. right. by left.
    + by left.
    + right. exists mx. rewrite HinV. auto.
  - intros x ->%list_elem_of_singleton. apply HinV. by right.
  - by left.
  - by intros x ->%list_elem_of_singleton.
  - split; [done|]. destruct w_rooted0 as [_ H0]. transitivity (root r); [done|].
    apply w_reach0. rewrite !elem_of_app. right. right. by left.
  - by intros x ->%list_elem_of_singleton.
  - by intros x ?%elem_of_nil.
  - intros v c ->%list_elem_of_singleton (m & mc & Hm' & ? & _). right. by simplify_eq.
  - intros n. rewrite list_elem_of_singleton. cbn. split; [by intros ?%elem_of_nil|by intros [-> [? _]]].
  - by left.
  - intros c Hc. pose proof (fresh_children V r (p_slot p) (p_meta p) Hm HV) as Hf.
    rewrite (pend_snoc r Hps) in Hf. specialize (Hf w_parents0 c Hc).
    rewrite !not_elem_of_app, not_elem_of_cons in *. naive_solver.
Qed.
End turn.

(** The children of the slot, or the end of the fork. *)
Lemma opened_done V W s m es r r' : opened V W s m es r → cf_meta D !! s = Some m → history D h0 s es →
  match next_slots m with
  | [] => modify_replay (λ r, with_fork_info
      (fork_info r ++ [(s, mkForksInfo s (wrap64 (Z.of_nat (length es))))]) r)
  | ns =>
      process_next_slots hash_all hash_bytes serialize_balance serialize_hash weighted_index vote_order
        s ns (wrap64 (Z.of_nat (length es))) (last_hash h0 es);;
      modify_replay (λ r, with_pending (merge_sort slot_ge (pending_slots r)) r)
  end r = (Ok tt, r') → walk V W [] r'.
Proof.
  intros [Hbase Hcov He Hin Hfr Hb] Hm Hhist. destruct (next_slots m) as [|c0 ns] eqn:Hns.
  - intros [= <-]. pose proof Hbase as []. split; [split|..]; try done.
    + cbn. apply Forall_app. split; [done|]. constructor; [|done]. by exists es.
    + cbn. by intros x [?|[= ->]%list_elem_of_singleton]%elem_of_app; [auto|].
    + intros n. cbn. rewrite fmap_app, elem_of_app, He. cbn. rewrite list_elem_of_singleton.
      unfold ends, ends_but. split.
      * intros [(Hn & Hne & m' & Hmn & Hc)| ->]; (split; [done|]); [|by exists m; auto].
        exists m'. split; [done|]. destruct Hc as [|(c & mc & ? & ? & ?)]; [by left|]. right. exists c, mc.
        split_and!; [done|apply not_elem_of_nil|done..].
      * intros [Hn (m' & Hmn & Hc)]. destruct (decide (n = s)) as [->|Hne]; [by right|]. left.
        split_and!; [done..|]. exists m'. split; [done|].
        destruct Hc as [|(c & mc & ? & _ & ? & ?)]; [by left|]. right. by exists c, mc.
  - rewrite <- Hns in *. intros ([] & r1 & H1 & [= <-])%bind_ok.
    apply walk_perm; [|apply merge_sort_Permutation].
    apply (next_slots_walk V W s m es Hin Hm Hhist (next_slots m) r r1); [|by eapply lt_nodup|by auto..].
    split; [done|done|]. intros n. rewrite He. split.
    + intros (Hn & Hne & m' & Hmn & Hc). split; [done|]. exists m'. split; [done|].
      destruct Hc as [|(c & mc & Hc & ? & ?)]; [by left|]. right. exists c, mc. split_and!; [done| |done..].
      intros Hc'. apply Hne. by eapply child_of.
    + intros [Hn (m' & Hmn & Hc)]. split; [done|].
      assert (n ≠ s) as Hne.
      { intros ->. simplify_eq. destruct Hc as [|(c & mc & ? & ? & _)]; [congruence|done]. }
      split; [done|]. exists m'. split; [done|].
      destruct Hc as [|(c & mc & ? & ? & ? & ?)]; [by left|]. right. by exists c, mc.
Qed.

Lemma process_root_ok n r r' :
  process_root hash_all hash_bytes serialize_balance serialize_hash n r = (Ok tt, r') →
  ledger r' = ledger r ∧ pending_slots r' = [] ∧ fork_info r' = [] ∧ root r' = n ∧
  ∀ t, bank_at (forks r) n t → bank_at (forks r') n t.
Proof.
  unfold process_root. intros ([] & ? & [= <-] & H)%bind_ok.
  apply bind_ok in H as ([] & ? & [= <-] & H).
  apply bind_ok in H as ([] & ? & (f1 & Hf1 & ->)%on_forks_ok & H).
  apply bind_ok in H as ([] & ? & [= <-] & H). apply bind_ok in H as ([] & ? & [= <-] & H).
  apply on_forks_ok in H as (f2 & Hf2 & ->). cbn in *. split_and!; [done..|].
  intros t Hb. eapply drop_banks_held; [exact Hf2|]. by eapply squash_banks.
Qed.

Lemma turn_ok V W ps p r r' : walk V W [] r → pending_slots r = ps ++ [p] →
  process_pending open_library gen_range hash_all hash_bytes serialize_balance serialize_hash sha256
    weighted_index vote_order clock par_order p (with_pending ps r) = (Ok tt, r') →
  ∃ W', walk (V ++ [p_slot p]) W' [] r'.
Proof.
  intros Hw Hps. pose proof Hw as [Hbase _ _]. pose proof Hbase as [].
  assert (pending_ok (forks r) p) as Hp.
  { rewrite Hps in w_pending0. by apply Forall_app in w_pending0 as [_ [? _]%Forall_cons]. }
  unfold process_pending. intros ([h lh] & r1 & H1 & H)%bind_ok.
  destruct (process_slot_ok p (with_pending ps r) h lh r1 w_ledger0 Hp H1)
    as (es & f1 & Hhist & -> & -> & -> & Hb & Hk).
  apply bind_ok in H as ([] & r2 & (f2 & Hf2 & ->)%on_forks_ok & H). cbn in Hf2.
  pose proof (freeze_keeps _ _ _ _ Hf2) as Hfr.
  apply bind_ok in H as (? & ? & [= <- <-] & H). apply bind_ok in H as ([] & r3 & H3 & H).
  cbn [ledger with_forks with_pending] in H3. rewrite w_ledger0 in H3.
  destruct (pop_fresh _ _ _ _ r Hbase Hps) as (Hm & _ & _).
  destruct (is_root D (p_slot p)) eqn:Hroot.
  - apply process_root_ok in H3 as (HD & Hp3 & Hi3 & Hr3 & Hb3). exists [p_slot p].
    eapply opened_done; [|exact Hm|exact Hhist|exact H].
    eapply root_opened; [exact Hw|exact Hps|done|by rewrite HD|done..|]. apply Hb3. by apply Hfr.
  - injection H3 as <-. exists (W ++ [p_slot p]).
    eapply opened_done; [|exact Hm|exact Hhist|exact H].
    apply (pop_opened V W ps p r f2 es); auto.
Qed.

Lemma last_removelast {A} (l : list A) x : last l = Some x → l = removelast l ++ [x].
Proof.
  intros (l' & ->)%last_Some. by rewrite removelast_last.
Qed.

Lemma process_slots_ok fuel : ∀ V W r r', walk V W [] r →
  process_slots open_library gen_range hash_all hash_bytes serialize_balance serialize_hash sha256
    weighted_index vote_order clock par_order fuel r = (Ok tt, r') →
  ∃ V W, walk V W [] r' ∧ pending_slots r' = [].
Proof.
  induction fuel as [|fuel IH]; intros V W r r' Hw; cbn [process_slots];
    intros (? & ? & [= <- <-] & H)%bind_ok; destruct (last (pending_slots r)) as [p|] eqn:Hl;
    try (injection H as <-; apply last_None in Hl; by eauto); [done|].
  apply bind_ok in H as ([] & ? & [= <-] & H). apply bind_ok in H as ([] & r1 & H1 & H).
  destruct (turn_ok V W (removelast (pending_slots r)) p r r1 Hw (last_removelast _ _ Hl) H1) as (W' & Hw').
  by eapply IH.
Qed.

(** ** The walk ends *)

Definition no_fuel_err {A} (m : replay_op A) : Prop := ∀ r r', m r ≠ (Err OutOfFuel, r').

Lemma no_fuel_bind {A B} (m : replay_op A) (k : A → replay_op B) :
  no_fuel_err m → (∀ a, no_fuel_err (k a)) → no_fuel_err (m ≫= k).
Proof.
  intros Hm Hk r r'. unfold mbind, M_bind. destruct (m r) as [[a|e|] r1] eqn:H; [apply Hk| |done].
  intros [= -> ->]. by eapply Hm.
Qed.

Lemma no_fuel_forks {A} (m : fork_op A) : no_fuel_err (on_forks m).
Proof. intros r r'. unfold on_forks. by destruct (m (forks r)) as [[]]. Qed.

Lemma no_fuel_never {A} (x : res Empty_set A) : no_fuel_err (liftM (never x)).
Proof. by destruct x as [|[]|]. Qed.

Lemma no_fuel_slot p : no_fuel_err (process_slot open_library gen_range sha256 clock par_order p).
Proof.
  apply no_fuel_bind; [done|]. intros r. apply no_fuel_bind.
  { by destruct (get_slot_entries _ _ _ _). }
  intros es. apply no_fuel_bind.
  - destruct (_ =? 0); [|done]. destruct es as [|e0 es]; [done|]. apply no_fuel_bind.
    + destruct (is_tick e0); [apply no_fuel_never|done].
    + by intros [].
  - intros [[es' h] lh]. destruct (last es'); [|done]. apply no_fuel_bind; [apply no_fuel_never|].
    intros []; [|done]. apply no_fuel_bind; [apply no_fuel_forks|done].
Qed.

Lemma no_fuel_children s ns h lh : no_fuel_err (process_next_slots hash_all hash_bytes serialize_balance
  serialize_hash weighted_index vote_order s ns h lh).
Proof.
  induction ns as [|c ns IH]; [done|]. cbn [process_next_slots]. apply no_fuel_bind; [done|]. intros r.
  apply no_fuel_bind; [by destruct (_ !! c)|]. intros mc. apply no_fuel_bind; [|by intros []].
  destruct (is_full mc); [|done]. apply no_fuel_bind; [apply no_fuel_forks|]. intros b.
  apply no_fuel_bind.
  { intros r1 r2. unfold on_schedules. destruct (cache_slot_leader_at _ _ _ _) as [[|[]|] ?]; done. }
  intros leader. apply no_fuel_bind; [by destruct leader|]. intros lead.
  apply no_fuel_bind; [apply no_fuel_forks|done].
Qed.

Lemma no_fuel_pending p : no_fuel_err (process_pending open_library gen_range hash_all hash_bytes
  serialize_balance serialize_hash sha256 weighted_index vote_order clock par_order p).
Proof.
  apply no_fuel_bind; [apply no_fuel_slot|]. intros [h lh].
  apply no_fuel_bind; [apply no_fuel_forks|]. intros []. apply no_fuel_bind; [done|]. intros r.
  apply no_fuel_bind.
  - destruct (is_root _ _); [|done]. apply no_fuel_bind; [done|]. intros []. apply no_fuel_bind; [done|].
    intros []. apply no_fuel_bind; [apply no_fuel_forks|]. intros []. apply no_fuel_bind; [done|].
    intros []. apply no_fuel_bind; [done|]. intros []. apply no_fuel_forks.
  - intros []. destruct (next_slots (p_meta p)) as [|c ns]; [done|].
    apply no_fuel_bind; [apply no_fuel_children|done].
Qed.

Lemma known_length (V : list Z) : NoDup V → (∀ x, x ∈ V → is_Some (cf_meta D !! x)) →
  (length V ≤ size (cf_meta D))%nat.
Proof.
  intros Hnd Hk. rewrite <- (size_list_to_set (C:=gset Z)) by done. rewrite <- size_dom.
  apply subseteq_size. intros x Hx%elem_of_list_to_set. apply elem_of_dom. auto.
Qed.

Lemma process_slots_ends fuel : ∀ V W r r', walk V W [] r →
  (size (cf_meta D) ≤ length V + fuel)%nat →
  process_slots open_library gen_range hash_all hash_bytes serialize_balance serialize_hash sha256
    weighted_index vote_order clock par_order fuel r ≠ (Err OutOfFuel, r').
Proof.
  induction fuel as [|fuel IH]; intros V W r r' Hw Hlen; cbn [process_slots]; unfold mbind at 1, M_bind at 1;
    cbn [getM]; destruct (last (pending_slots r)) as [p|] eqn:Hl; try done.
  - exfalso. apply last_removelast in Hl. pose proof (wk_base _ _ _ _ Hw) as Hb.
    destruct (pop_fresh _ _ _ _ r Hb Hl) as (Hm & HV & _).
    pose proof (known_length (V ++ [p_slot p])) as Hk. rewrite length_app in Hk. cbn in Hk.
    enough (length V + 1 ≤ size (cf_meta D))%nat by lia. apply Hk.
    + apply NoDup_app. split_and!; [|by intros x ? ->%list_elem_of_singleton|apply NoDup_singleton].
      by pose proof (w_nodup _ _ _ Hb) as [? _]%NoDup_app.
    + intros x [?| ->%list_elem_of_singleton]%elem_of_app; [by apply (w_known _ _ _ Hb)|by eauto].
  - unfold mbind, M_bind, modify_replay.
    destruct (process_pending _ _ _ _ _ _ _ _ _ _ _ _ _) as [[[]|e|] r1] eqn:H1; [| |done].
    + destruct (turn_ok V W _ p r r1 Hw (last_removelast _ _ Hl) H1) as (W' & Hw').
      apply (IH _ _ _ _ Hw'). rewrite length_app. cbn. lia.
    + intros [= -> ->]. by eapply no_fuel_pending.
Qed.
End walk.

Lemma covered_closed D h0 V W r n : walk_base D h0 V W r → covered D W [] r → pend r = [] →
  reach D (root r) n → n ∈ W.
Proof.
  intros Hbase Hcov Hp. pose proof (w_root _ _ _ _ _ Hbase) as Hr. rewrite Hp, app_nil_r in Hr.
  unfold reach. revert Hr. generalize (root r). intros x Hx Hrtc. revert Hx.
  induction Hrtc as [|x y z Hxy _ IH]; [done|]. intros Hx. apply IH.
  destruct (Hcov x y Hx Hxy) as [Hy|Hy%elem_of_nil]; [|done]. by rewrite Hp, app_nil_r in Hy.
Qed.

(** ** The start *)

Lemma leaves_run {A} (m : M (BankState S) TransactionError A) s x s' : leaves m → m s = (x, s') →
  clockwork (self s') = clockwork (self s).
Proof. intros Hm H. specialize (Hm s). by rewrite H in Hm. Qed.

Lemma genesis_bank now gh g (d : S) f b :
  new_with_paths now gh g d = Ok f → banks f !! 0 = Some b →
  slot (info b) = 0 ∧ tick_height b = 0 ∧ blockhash_queue.last_hash (queue b) = Some gh.
Proof.
  unfold new_with_paths. destruct (process_genesis_block _ _ _ _) as [[[]| |] s] eqn:Hp; [|done..].
  intros [= <-]. cbn. intros [_ <-]%lookup_singleton_Some. cbn.
  unfold process_genesis_block in Hp. apply bind_ok in Hp as ([] & s1 & H1 & Hp).
  apply leaves_run in H1; [|apply leaves_each; intros []; apply leaves_store].
  apply bind_ok in Hp as ([] & s2 & [= <-] & Hp). apply bind_ok in Hp as ([] & s3 & [= <-] & Hp).
  apply bind_ok in Hp as (es & s4 & Hes & Hp). apply bind_ok in Hp as ([] & s5 & [= <-] & Hp).
  apply leaves_run in Hp.
  2: { do 3 (apply leaves_bind; [apply leaves_store|intros _]). apply leaves_each. intros []. apply leaves_store. }
  destruct (epoch_schedule.EpochSchedule_new _ _ _); [|done..]. injection Hes as _ <-.
  injection Hp as -> -> -> _. injection H1 as Hi Ht _ _. cbn. by rewrite Hi, Ht.
Qed.

Definition rooted (D : Database) (n : Z) : Prop := n = 0 ∨ is_root D n = true.

Lemma put_root_tree D : ledger_tree D → ledger_tree (write D [PutRoot 0]).
Proof. destruct D. by intros []. Qed.

Lemma put_root_path D n es : ledger_path (write D [PutRoot 0]) n es → ledger_path D n es.
Proof. destruct D. induction 1; [by apply path_first|by eapply path_next]. Qed.

Lemma put_root_reach D a b : reach (write D [PutRoot 0]) a b ↔ reach D a b.
Proof. destruct D. done. Qed.

Lemma put_root_ends D n : ends (write D [PutRoot 0]) n ↔ ends D n.
Proof. destruct D. done. Qed.

Lemma put_root_rooted D n : is_root (write D [PutRoot 0]) n = true ↔ rooted D n.
Proof.
  destruct D as [ms ds cs es os rs]. unfold rooted, is_root. cbn.
  destruct (decide (n = 0)) as [->|Hne]; [rewrite lookup_insert_eq; tauto|].
  rewrite lookup_insert_ne by done. tauto.
Qed.

Notation process_blocktree := (process_blocktree open_library gen_range hash_all hash_bytes
  serialize_balance serialize_hash sha256 weighted_index vote_order clock par_order).

Lemma start_walk D0 f b gh now g d m c :
  new_with_paths now gh g d = Ok f → banks f !! 0 = Some b → cf_meta D0 !! 0 = Some m →
  walk (write D0 [PutRoot 0]) gh [] [] []
    (mkReplay (write D0 [PutRoot 0]) f c [mkPending 0 m 0 gh] [] 0).
Proof.
  intros Hf Hb Hm. destruct (genesis_bank _ _ _ _ _ _ Hf Hb) as (Hs & Ht & _).
  split; [split|..]; cbn; try done.
  - apply NoDup_singleton.
  - by intros x ?%elem_of_nil.
  - intros x ->%list_elem_of_singleton. by left.
  - constructor; [|done]. split; [by destruct D0|]. left. cbn. split_and!; [done..|].
    exists b. by rewrite Ht.
  - by left.
  - intros x ->%list_elem_of_singleton. constructor.
  - split; [|constructor]. apply put_root_rooted. by left.
  - by intros x ?%elem_of_nil.
  - by intros x ?%elem_of_nil.
  - by intros v c' ?%elem_of_nil.
  - intros n. rewrite elem_of_nil. naive_solver.
Qed.

(** What is known when the processor returns. *)
Lemma process_blocktree_walk fuel now gh g d D0 bf infos cache r : ledger_tree D0 →
  process_blocktree fuel now gh g d D0 = Ok (bf, infos, cache, r) →
  ∃ V W, walk (write D0 [PutRoot 0]) gh V W [] r ∧ pending_slots r = [] ∧
    infos = (fork_info r).*2 ∧ BankForks.bank_forks.forks_root bf = root r.
Proof.
  intros Htree. unfold process_blocktree.
  intros (f & Hf%map_err_ok & H)%res_bind_ok. apply res_bind_ok in H as (b & Hb%unwrap_ok & H).
  apply res_bind_ok in H as (lh & Hlh%map_err_ok%unwrap_ok & H).
  apply res_bind_ok in H as (m & Hm%unwrap_ok & H). cbn [blocktree.set_root Z.eqb] in H.
  apply res_bind_ok in H as (D & [= <-] & H).
  destruct (genesis_bank _ _ _ _ _ _ Hf Hb) as (_ & _ & Hq). rewrite Hq in Hlh. injection Hlh as <-.
  destruct (process_slots _ _ _ _ _ _ _ _ _ _ _ _ _) as [[[]| |] r'] eqn:Hrun; [|done..].
  apply res_bind_ok in H as (heads & _ & H). apply res_bind_ok in H as (bf' & Hbf & [= <- <- <- <-]).
  destruct (process_slots_ok _ (put_root_tree _ Htree) gh fuel [] [] _ _
    (start_walk D0 f b gh now g d m _ Hf Hb Hm) Hrun) as (V & W & Hw & Hp).
  exists V, W. split_and!; [done..|]. unfold BankForks.bank_forks.new_from_banks in Hbf.
  by apply res_bind_ok in Hbf as (? & _ & [= <-]).
Qed.

(** C8. A ledger that is replayed without an error is verified.  For every fork of
    the result the entries of all its slots, from slot 0 on, are one proof of
    history that starts with a tick at the hash of the genesis block; the
    height that is returned is their number, and the bank of the fork is the
    one of its last slot and has counted their ticks, the first one aside. *)
Theorem replay_verified fuel now gh g d D0 bf infos cache r i : ledger_tree D0 →
  process_blocktree fuel now gh g d D0 = Ok (bf, infos, cache, r) → i ∈ infos →
  ∃ es b, ledger_path D0 (bank_slot i) es ∧
    EntrySlice_verify (E:=Empty_set) sha256 gh es = Ok true ∧
    (∃ e0 rest, es = e0 :: rest ∧ is_tick e0 = true) ∧
    entry_height i = wrap64 (Z.of_nat (length es)) ∧
    banks (forks r) !! bank_slot i = Some b ∧ slot (info b) = bank_slot i ∧
    wrap64 (tick_height b) = wrap64 (tick_count es - 1).
Proof.
  intros Htree H Hi. destruct (process_blocktree_walk _ _ _ _ _ _ _ _ _ _ Htree H)
    as (V & W & [Hbase _ _] & _ & -> & _).
  apply list_elem_of_fmap in Hi as ([n i'] & -> & Hx).
  pose proof (w_heads _ _ _ _ _ Hbase) as Hh. rewrite Forall_forall in Hh.
  destruct (Hh _ Hx) as (es & (Hp & Hv & Ht) & Hi & b & Hb & Hs & Htick). cbn in *. subst i'. cbn.
  exists es, b. split_and!; [by apply put_root_path|done..].
Qed.

(** C10. The forks of the result are all that the ledger has after its last root.
    The root is the root of the result, it is reached from slot 0 through full
    slots, and no slot that is reached from it is rooted again; a slot is the
    head of a fork exactly when it is reached from the root through full slots
    and has no child, or a child that is not full. *)
Theorem replay_covers fuel now gh g d D0 bf infos cache r : ledger_tree D0 →
  process_blocktree fuel now gh g d D0 = Ok (bf, infos, cache, r) →
  let root := BankForks.bank_forks.forks_root bf in
  rooted D0 root ∧ reach D0 0 root ∧
  (∀ n, reach D0 root n → n ≠ root → ¬ rooted D0 n) ∧
  ∀ n, n ∈ (bank_slot <$> infos) ↔ reach D0 root n ∧ ends D0 n.
Proof.
  intros Htree H. destruct (process_blocktree_walk _ _ _ _ _ _ _ _ _ _ Htree H)
    as (V & W & [Hbase Hcov He] & Hp & -> & ->). cbn zeta.
  pose proof Hbase as []. assert (pend r = []) as Hpend by (unfold pend; by rewrite Hp).
  rewrite Hpend, app_nil_r in *.
  assert (∀ n, n ∈ W ↔ reach D0 (root r) n) as HW.
  { intros n. split; [intros ?; by apply put_root_reach, w_reach0|]. intros Hr%put_root_reach.
    by eapply covered_closed. }
  destruct w_rooted0 as [Hr1 Hr2]. split; [by apply put_root_rooted|].
  split; [by apply put_root_reach|]. split.
  - intros n Hn Hne Hro%put_root_rooted. rewrite w_unrooted0 in Hro; [done|by apply HW|done].
  - intros n. rewrite <- HW, <- put_root_ends.
    assert (n ∈ bank_slot <$> (fork_info r).*2 ↔ n ∈ (fork_info r).*1) as ->.
    { rewrite !list_elem_of_fmap. rewrite Forall_forall in w_heads0. split.
      - intros (i & -> & (x & -> & Hx)%list_elem_of_fmap). destruct (w_heads0 x Hx) as (es & _ & -> & _). by exists x.
      - intros (x & -> & Hx). destruct (w_heads0 x Hx) as (es & _ & Hi & _). exists x.2. rewrite Hi.
        split; [done|]. rewrite list_elem_of_fmap. by exists x. }
    rewrite He. unfold ends, ends_but. split; intros (Hn & m & Hm & Hc); (split; [done|]); exists m;
      (split; [done|]); destruct Hc as [|(c & mc & ?)]; auto; right; exists c, mc; [naive_solver|].
    split_and!; [naive_solver|apply not_elem_of_nil|naive_solver..].
Qed.

End replay.
End replay_proofs.
