(* ===== verification/ReplayDemo.v ===== *)
(** * A ledger that is replayed

    A small ledger with two forks on a concrete bank; it shows that the
    hypotheses of the theorems on the replay (ReplayProofs.v, ReplayChain.v)
    can hold. *)

From S2P Require Import Prelude Interface Codec Float SystemProgram VoteState Message MessageProcessor StakingUtils EpochSchedule.
From S2P Require Import BankForks LeaderSchedule Entry BlockStore BlockhashQueue StatusCache Stake AppendVec AccountsDB Accounts Bank BankProofs BankStore.
From S2P Require Import Replay ReplayProofs ReplayChain.

Module replay_demo.
Import account_store append_vec append_vec_proofs accounts_db_proofs bank_store.
Import message transaction entry meta blocktree bank Bank.bank_forks blocktree_processor.
Import group_proofs replay_proofs entry_demo.
#[local] Existing Instances meta_ranged meta_layout meta_laws.
#[local] Existing Instances balance_ranged balance_layout balance_laws.
#[local] Existing Instances stake_proofs.StakeState_bincode vote_state.slot_hashes_bincode.
#[local] Existing Instances processor_proofs.demo_system_bincode processor_proofs.demo_loader_bincode.
#[local] Existing Instances vote_state.VoteState_bincode demo_transaction_bincode demo_entries_bincode.
#[local] Instance demo_store : AccountStore accounts_db.AccountsDB := accounts_db_store demo_pick.

(** A payer, and the vote account of the only node. *)
Definition demo_genesis : GenesisBlock :=
  mkGenesis
    [(60, mkAccount 100 0 [] 0 false); (61, mkAccount 100 0 [] 0 false);
     (7, mkAccount 1 0 (serialize (vote_state.mkVoteState [] 2 9 0 None 0)) vote_program.id false)]
    50 false (fee_calculator.mkFeeCalculator 10) [] 32 32 2.

Definition transfer (from to n sig : Z) : Transaction :=
  mkTransaction [replicate 64 sig]
    (mkMessage (mkMessageHeader 1 0 1) [from; to; system_program.id] 5
       [mkCompiledInstruction 2 [0; 1] (serialize (system_instruction.Transfer n))]).

Definition next_of (h : Hash) (txs : list Transaction) : Entry :=
  match Entry_new (E:=Empty_set) demo_sha h 1 txs with Ok e => e | _ => mkEntry 0 0 [] end.

(** Slot 0 has two ticks, slot 1 two transfers and two ticks, slot 2 has
    nothing yet. *)
Definition e0 : Entry := next_of 5 [].
Definition e1 : Entry := next_of e0.(entry_hash) [].
Definition e2 : Entry := next_of e1.(entry_hash) [transfer 60 70 30 1].
Definition e3 : Entry := next_of e2.(entry_hash) [transfer 61 71 20 2].
Definition e4 : Entry := next_of e3.(entry_hash) [transfer 60 71 10 3].
Definition e5 : Entry := next_of e4.(entry_hash) [].
Definition e6 : Entry := next_of e5.(entry_hash) [].

Definition blob_of (es : list Entry) : list Z := replicate 112 0 ++ serialize es.

Definition demo_ledger : Database :=
  mkDatabase
    (list_to_map [(0, mkSlotMeta 0 1 1 0 0 [1; 2] true); (1, mkSlotMeta 1 2 2 1 0 [] true);
                  (2, mkSlotMeta 2 0 0 u64_max 0 [] true)])
    (list_to_map [((0, 0), blob_of [e0; e1]); ((1, 0), blob_of [e2; e3; e4]); ((1, 1), blob_of [e5; e6])])
    ∅ ∅ ∅ ∅.

Definition in_order (l : list Locked) : list nat := seq 0 (length l).

Definition run (fuel : nat) :=
  process_blocktree (λ _, None) (λ _ _, 0%nat) (λ l, demo_sha (mjoin l)) (be_enc 32)
    (λ b, le_enc 8 b.(bal_difs)) (λ o, from_option (be_enc 32) [] o) demo_sha
    leader_schedule_demo.round_robin map_to_list (λ _ _, 0) in_order
    fuel 0 5 demo_genesis (accounts_db.new_with_file_size 100000) demo_ledger.

Lemma demo_tree : ledger_tree demo_ledger.
Proof.
  split.
  - intros s m c Hm%elem_of_list_to_map Hc; [|apply (bool_decide_unpack _); vm_compute; exact I].
    repeat (apply elem_of_cons in Hm as [Hm|Hm]; [injection Hm as -> ->; cbn in Hc|]);
      [..|by apply elem_of_nil in Hm].
    + repeat (apply elem_of_cons in Hc as [->|Hc]); [..|by apply elem_of_nil in Hc].
      all: split; [done|]; eexists; split; [vm_compute; reflexivity|done].
    + by apply elem_of_nil in Hc.
    + by apply elem_of_nil in Hc.
  - intros s m Hm%elem_of_list_to_map; [|apply (bool_decide_unpack _); vm_compute; exact I].
    repeat (apply elem_of_cons in Hm as [Hm|Hm]; [injection Hm as -> ->|]); [..|by apply elem_of_nil in Hm];
      apply (bool_decide_unpack _); vm_compute; exact I.
Qed.

Definition demo_infos : list BankForksInfo := [mkForksInfo 0 2; mkForksInfo 1 7].

Lemma demo_replay_run : ∃ bf cache r, run 3 = Ok (bf, demo_infos, cache, r) ∧
  BankForks.bank_forks.forks_root bf = 0.
Proof.
  assert (match run 3 with
          | Ok (bf, infos, _, _) => infos = demo_infos ∧ BankForks.bank_forks.forks_root bf = 0
          | _ => False
          end) as H by (vm_compute; done).
  destruct (run 3) as [[[[bf infos] cache] r]| |]; [|done..]. destruct H as [-> Hr]. by exists bf, cache, r.
Qed.

Lemma replay_verified_witness :
  ∃ r, (∃ bf cache, run 3 = Ok (bf, demo_infos, cache, r)) ∧
  ∃ es b, ledger_path demo_ledger 1 es ∧ EntrySlice_verify (E:=Empty_set) demo_sha 5 es = Ok true ∧
    wrap64 (Z.of_nat (length es)) = 7 ∧ banks (forks r) !! 1 = Some b ∧
    wrap64 (tick_height b) = wrap64 (entry_proofs.tick_count es - 1).
Proof.
  destruct demo_replay_run as (bf & cache & r & Hrun & _). exists r. split; [by exists bf, cache|].
  destruct (replay_verified (λ _, None) (λ _ _, 0%nat) (λ l, demo_sha (mjoin l)) (be_enc 32)
    (λ b, le_enc 8 b.(bal_difs)) (λ o, from_option (be_enc 32) [] o) demo_sha
    leader_schedule_demo.round_robin map_to_list (λ _ _, 0) in_order
    3 0 5 demo_genesis (accounts_db.new_with_file_size 100000) demo_ledger bf demo_infos cache r
    (mkForksInfo 1 7) demo_tree Hrun) as (es & b & Hp & Hv & _ & Hh & Hb & _ & Ht); [right; left|].
  exists es, b. split; [exact Hp|]. split; [exact Hv|]. split; [exact (eq_sym Hh)|].
  split; [exact Hb|exact Ht].
Defined.

Lemma replay_covers_witness : reach demo_ledger 0 1 ∧ ends demo_ledger 1 ∧
  reach demo_ledger 0 0 ∧ ends demo_ledger 0 ∧ ¬ reach demo_ledger 0 2.
Proof.
  destruct demo_replay_run as (bf & cache & r & Hrun & Hroot).
  destruct (replay_covers (λ _, None) (λ _ _, 0%nat) (λ l, demo_sha (mjoin l)) (be_enc 32)
    (λ b, le_enc 8 b.(bal_difs)) (λ o, from_option (be_enc 32) [] o) demo_sha
    leader_schedule_demo.round_robin map_to_list (λ _ _, 0) in_order
    3 0 5 demo_genesis (accounts_db.new_with_file_size 100000) demo_ledger bf demo_infos cache r
    demo_tree Hrun) as (_ & _ & _ & Hn). rewrite Hroot in Hn.
  destruct (proj1 (Hn 1)) as [H1 H1']; [right; left|]. destruct (proj1 (Hn 0)) as [H0 H0']; [left|].
  split; [exact H1|]. split; [exact H1'|]. split; [exact H0|]. split; [exact H0'|].
  intros H2. assert (2 ∈ bank_slot <$> demo_infos) as Hin.
  { apply Hn. split; [exact H2|]. exists (mkSlotMeta 2 0 0 u64_max 0 [] true). split; [vm_compute; reflexivity|].
    by left. }
  revert Hin. apply (bool_decide_unpack _). vm_compute. exact I.
Defined.


End replay_demo.
