(* ===== verification/ReplayStage.v ===== *)
(** * The replay stage

    core/src/repeatStage.rs: the loop of a validator.  It makes banks for the
    slots that chain to what it has, replays the entries of these slots as they
    arrive, chooses the bank to vote for, moves the root, and starts a bank of
    its own when it is the leader.

    The state is what the thread works on; what it hands to other threads is
    logged: the slots that are full, the slots that are rooted, the votes, and
    the leader that is announced.  [bank_forks] is the set of the slots of its
    banks, its working bank and its root; the banks are those of Bank.v. *)

From S2P Require Import Prelude Interface Codec Float SystemProgram VoteState Message MessageProcessor StakingUtils EpochSchedule.
From S2P Require Import ForkSelection BankForks LeaderSchedule Entry Recorder BlockStore BlockhashQueue StatusCache Stake AppendVec Accounts Bank Replay.

Module replay_stage.
Import account_store message transaction message_processor native_loader_program.
Import blockhash_queue status_cache stakes accounts slot_hashes entry meta blocktree.
Import leader_schedule_cache leader_schedule_utils locktower poh_recorder.
Import bank Bank.bank_forks bank_accessors blocktree_processor.

Record ForkProgress := mkProgress {
  last_entry : Hash;
  num_blobs : Z;
  started_ms : Z;
}.

(** [OutOfFuel] is not an error of the code. *)
Inductive StageError :=
| VerificationFailed
| TransactionErr (e : TransactionError)
| BlocktreeErr (e : BlocktreeError)
| SendError
| StageOutOfFuel.

(** The votes that a bank is a candidate for, stably sorted by their weight. *)
Fixpoint insert_weight (x : Z * Z) (l : list (Z * Z)) : list (Z * Z) :=
  match l with
  | [] => [x]
  | y :: l' => if x.1 <=? y.1 then x :: l else y :: insert_weight x l'
  end.
Definition sort_by_weight (l : list (Z * Z)) : list (Z * Z) := foldr insert_weight [] l.

Section stage.
Context {S : Type} `{!AccountStore S}.
Context `{!Bincode SlotHashes, !Bincode LoaderInstruction, !Bincode stake_state.StakeState}.
Context `{!Bincode system_instruction.SystemInstruction, !Bincode vote_state.VoteState}.
Context `{!Bincode vote_state.VoteInstruction, !Bincode Message}.
Context `{!Bincode Transaction, !Bincode (list Entry)}.
Context (open_library : list Z → option (option ProcessInstruction)).
Context (gen_range : StatusCache (TxResult unit) → Hash → nat).
Context (hash_all : list (list Z) → Hash) (hash_bytes : Hash → list Z).
Context (serialize_balance : append_vec.AccountBalance → list Z).
Context (serialize_hash : option Hash → list Z).
Context (sha256 : list Z → Hash).
Context (weighted_index : list Z → option (list Z → nat → nat)).
Context (vote_order : gmap Pubkey (Z * Account) → list (Pubkey * (Z * Account))).
Context (clock : Z → Z → Z) (par_order : list Locked → list nat).
(** The orders in which the sets of slots and of their children are visited. *)
Context (slot_order : gset Z → list Z) (children_order : gmap Z (list Z) → list (Z * list Z)).
(** The keys of the node: its own, and the one of its vote account. *)
Context {K : Type} (kp_pubkey : K → Pubkey) (sign_message : K → list Z → Signature).
Context (my_pubkey : Pubkey) (node_keypair : K) (vote_account : Pubkey) (voting_keypair : option K).

Record Stage := mkStage {
  st_ledger : Database;
  st_forks : Forks S;
  bank_slots : gset Z;
  st_working_bank : Z;
  st_root : Z;
  st_schedules : LeaderScheduleCache;
  st_locktower : Locktower;
  progress : gmap Z ForkProgress;
  st_poh : PohRecorder;
  st_ticks_per_slot : Z;
  slot_full : list (Z * Pubkey);
  rooted_slots : list (list Z);
  root_receiver : bool;
  pushed_votes : list Transaction;
  announced_leader : option Pubkey;
}.

Definition set_ledger d s := mkStage d (st_forks s) (bank_slots s) (st_working_bank s) (st_root s)
  (st_schedules s) (st_locktower s) (progress s) (st_poh s) (st_ticks_per_slot s) (slot_full s)
  (rooted_slots s) (root_receiver s) (pushed_votes s) (announced_leader s).
Definition set_forks f s := mkStage (st_ledger s) f (bank_slots s) (st_working_bank s) (st_root s)
  (st_schedules s) (st_locktower s) (progress s) (st_poh s) (st_ticks_per_slot s) (slot_full s)
  (rooted_slots s) (root_receiver s) (pushed_votes s) (announced_leader s).
Definition set_banks bs w r s := mkStage (st_ledger s) (st_forks s) bs w r
  (st_schedules s) (st_locktower s) (progress s) (st_poh s) (st_ticks_per_slot s) (slot_full s)
  (rooted_slots s) (root_receiver s) (pushed_votes s) (announced_leader s).
Definition set_schedules c s := mkStage (st_ledger s) (st_forks s) (bank_slots s) (st_working_bank s)
  (st_root s) c (st_locktower s) (progress s) (st_poh s) (st_ticks_per_slot s) (slot_full s)
  (rooted_slots s) (root_receiver s) (pushed_votes s) (announced_leader s).
Definition set_locktower t s := mkStage (st_ledger s) (st_forks s) (bank_slots s) (st_working_bank s)
  (st_root s) (st_schedules s) t (progress s) (st_poh s) (st_ticks_per_slot s) (slot_full s)
  (rooted_slots s) (root_receiver s) (pushed_votes s) (announced_leader s).
Definition set_progress p s := mkStage (st_ledger s) (st_forks s) (bank_slots s) (st_working_bank s)
  (st_root s) (st_schedules s) (st_locktower s) p (st_poh s) (st_ticks_per_slot s) (slot_full s)
  (rooted_slots s) (root_receiver s) (pushed_votes s) (announced_leader s).
Definition set_poh p s := mkStage (st_ledger s) (st_forks s) (bank_slots s) (st_working_bank s)
  (st_root s) (st_schedules s) (st_locktower s) (progress s) p (st_ticks_per_slot s) (slot_full s)
  (rooted_slots s) (root_receiver s) (pushed_votes s) (announced_leader s).
Definition set_ticks_per_slot n s := mkStage (st_ledger s) (st_forks s) (bank_slots s)
  (st_working_bank s) (st_root s) (st_schedules s) (st_locktower s) (progress s) (st_poh s) n
  (slot_full s) (rooted_slots s) (root_receiver s) (pushed_votes s) (announced_leader s).
Definition set_slot_full l s := mkStage (st_ledger s) (st_forks s) (bank_slots s)
  (st_working_bank s) (st_root s) (st_schedules s) (st_locktower s) (progress s) (st_poh s)
  (st_ticks_per_slot s) l (rooted_slots s) (root_receiver s) (pushed_votes s) (announced_leader s).
Definition set_rooted_slots l s := mkStage (st_ledger s) (st_forks s) (bank_slots s)
  (st_working_bank s) (st_root s) (st_schedules s) (st_locktower s) (progress s) (st_poh s)
  (st_ticks_per_slot s) (slot_full s) l (root_receiver s) (pushed_votes s) (announced_leader s).
Definition set_pushed l s := mkStage (st_ledger s) (st_forks s) (bank_slots s)
  (st_working_bank s) (st_root s) (st_schedules s) (st_locktower s) (progress s) (st_poh s)
  (st_ticks_per_slot s) (slot_full s) (rooted_slots s) (root_receiver s) l (announced_leader s).
Definition set_announced l s := mkStage (st_ledger s) (st_forks s) (bank_slots s)
  (st_working_bank s) (st_root s) (st_schedules s) (st_locktower s) (progress s) (st_poh s)
  (st_ticks_per_slot s) (slot_full s) (rooted_slots s) (root_receiver s) (pushed_votes s) l.

Notation stage_op := (M Stage StageError).

Definition modify_stage (f : Stage → Stage) : stage_op unit := λ s, (Ok tt, f s).

Definition on_banks {A} (m : M (Forks S) TransactionError A) : stage_op A := λ s,
  let '(x, f) := m (st_forks s) in (map_err TransactionErr x, set_forks f s).
Definition on_cache {A} (m : M LeaderScheduleCache Empty_set A) : stage_op A := λ s,
  let '(x, c) := m (st_schedules s) in (map_err (λ e : Empty_set, match e with end) x, set_schedules c s).
Definition on_poh_recorder {A} (m : M PohRecorder Empty_set A) : stage_op A := λ s,
  let '(x, p) := m (st_poh s) in (map_err (λ e : Empty_set, match e with end) x, set_poh p s).
Definition pure {A} (x : res Empty_set A) : stage_op A :=
  liftM (map_err (λ e : Empty_set, match e with end) x).

(** ** Reading the banks *)

(** [bank_forks.get(slot)], for a slot of the forks *)
Definition the_bank (n : Z) : stage_op Bank := on_banks (get_bank n).

Definition view_of (s : Stage) (b : Bank) : BankView := bank_view vote_order (banks (st_forks s)) b.

Definition frozen (s : Stage) (n : Z) : bool :=
  match banks (st_forks s) !! n with Some b => is_frozen b | None => false end.

(** The forks as treasuryForks.rs has them. *)
Definition forks_of (s : Stage) : BankForks.bank_forks.BankForks :=
  BankForks.bank_forks.mkBankForks
    (fork_bank <$> filter (λ kb, kb.1 ∈ bank_slots s) (banks (st_forks s)))
    (from_option fork_bank (BankForks.bank_forks.mkForkBank 0 ∅ false)
       (banks (st_forks s) !! st_working_bank s))
    (st_root s).

Definition frozen_slots (s : Stage) : list Z :=
  filter (λ n, frozen s n = true) (slot_order (bank_slots s)).
Definition active_slots (s : Stage) : list Z :=
  filter (λ n, frozen s n = false) (slot_order (bank_slots s)).

(** [BankForks::insert], which asserts that the slot is new. *)
Definition insert_fork (n : Z) : stage_op unit :=
  s ← getM;
  modify_stage (set_banks ({[n]} ∪ bank_slots s) (st_working_bank s) (st_root s));;
  if bool_decide (n ∈ bank_slots s) then panic
  else modify_stage (λ s, set_banks (bank_slots s) n (st_root s) s).

(** ** New banks *)

Fixpoint new_children (parent_id : Z) (children : list Z) : stage_op unit :=
  match children with
  | [] => mret tt
  | child_id :: children =>
      s ← getM;
      (if bool_decide (child_id ∈ bank_slots s) then mret tt
       else
         parent_bank ← the_bank parent_id;
         leader ← on_cache (cache_slot_leader_at weighted_index child_id
                    (Some (view_of s parent_bank)));
         leader ← liftM (unwrap leader);
         on_banks (new_from_parent hash_all hash_bytes serialize_balance serialize_hash
                     parent_id leader child_id);;
         insert_fork child_id);;
      new_children parent_id children
  end.

Fixpoint new_forks (next_slots : list (Z * list Z)) : stage_op unit :=
  match next_slots with
  | [] => mret tt
  | (parent_id, children) :: next_slots => new_children parent_id children;; new_forks next_slots
  end.

Definition generate_new_bank_forks : stage_op unit :=
  s ← getM;
  new_forks (children_order (get_slots_since (st_ledger s) (frozen_slots s))).

(** ** Replaying the entries *)

(** [progress.entry(slot).or_insert(ForkProgress::new(bank.last_blockhash()))] *)
Definition progress_of (now n : Z) : stage_op ForkProgress :=
  bank ← the_bank n;
  h ← pure (get_last_hash (queue bank));
  s ← getM;
  let p := default (mkProgress h 0 now) (progress s !! n) in
  modify_stage (set_progress (<[n := p]> (progress s)));;
  mret p.

Definition load_blocktree_entries (now n : Z) : stage_op (list Entry * nat) :=
  p ← progress_of now n;
  s ← getM;
  liftM (map_err BlocktreeErr (get_slot_entries_with_blob_count (st_ledger s) n (num_blobs p) None)).

Definition verify_and_process_entries (n : Z) (entries : list Entry) (last_entry : Hash)
    : stage_op unit :=
  verified ← pure (EntrySlice_verify sha256 last_entry entries);
  if negb verified then throw VerificationFailed
  else on_banks (at_bank n (process_entries open_library gen_range clock par_order entries)).

(** A [Result] that is kept as a value. *)
Definition attempt {A} (m : stage_op A) : stage_op (StageError + A) := λ s,
  match m s with
  | (Ok a, s) => (Ok (inr a), s)
  | (Err e, s) => (Ok (inl e), s)
  | (Panic, s) => (Panic, s)
  end.

(** The progress is updated whatever the result is. *)
Definition replay_entries_into_bank (now n : Z) (entries : list Entry) (num : nat) : stage_op unit :=
  p ← progress_of now n;
  result ← attempt (verify_and_process_entries n entries (last_entry p));
  modify_stage (λ s, set_progress (<[n := mkProgress
    (from_option entry_hash (last_entry p) (last entries))
    (wrap64 (num_blobs p + Z.of_nat num)) (started_ms p)]> (progress s)) s);;
  match result with inl e => throw e | inr tt => mret tt end.

(** A failure to replay is only counted. *)
Definition replay_blocktree_into_bank (now n : Z) : stage_op unit :=
  '(entries, num) ← load_blocktree_entries now n;
  _ ← attempt (replay_entries_into_bank now n entries num);
  mret tt.

Definition process_completed_bank (n : Z) : stage_op unit :=
  on_banks (freeze_bank hash_all hash_bytes serialize_balance serialize_hash n);;
  bank ← the_bank n;
  modify_stage (λ s, set_slot_full (slot_full s ++ [(slot (info bank), collector_id (info bank))]) s).

Fixpoint replay_banks (now : Z) (active_banks : list Z) : stage_op unit :=
  match active_banks with
  | [] => mret tt
  | n :: active_banks =>
      bank ← the_bank n;
      modify_stage (set_ticks_per_slot (ticks_per_slot (info bank)));;
      (if collector_id (info bank) =? my_pubkey then mret tt
       else replay_blocktree_into_bank now n);;
      bank ← the_bank n;
      (if bank.tick_height bank =? max_tick_height_of n (ticks_per_slot (info bank))
       then process_completed_bank n else mret tt);;
      replay_banks now active_banks
  end.

Definition replay_active_banks (now : Z) : stage_op unit :=
  s ← getM;
  replay_banks now (active_slots s).

(** ** Choosing the bank to vote for *)

Definition confirm_forks (stake_lockouts : gmap Z StakeLockout) : stage_op unit :=
  modify_stage (λ s, set_progress (filter (λ kp, negb
    (is_slot_confirmed (st_locktower s) kp.1 stake_lockouts &&
     (if bool_decide (kp.1 ∈ bank_slots s) then frozen s kp.1 else true)) = true) (progress s)) s).

(** The filters of [generate_votable_banks] on one bank. *)
Definition votable_bank (descendants ancestors : gmap Z (gset Z)) (n : Z) : stage_op (option (Z * Z)) :=
  bank ← the_bank n;
  s ← getM;
  let lt := st_locktower s in
  if negb (is_votable bank) then mret None
  else if negb (is_recent_epoch lt (view_of s bank)) then mret None
  else if has_voted lt n then mret None
  else
    is_locked_out ← pure (is_locked_out lt n descendants);
    if is_locked_out : bool then mret None
    else
      stake_lockouts ← pure (collect_vote_lockouts lt n (vote_order (vote_accounts bank)) ancestors);
      let vote_threshold := check_vote_stake_threshold lt n stake_lockouts in
      confirm_forks stake_lockouts;;
      mret (if vote_threshold then Some (calculate_weight lt stake_lockouts, n) else None).

Fixpoint votable_banks (descendants ancestors : gmap Z (gset Z)) (frozen_banks : list Z)
    : stage_op (list (Z * Z)) :=
  match frozen_banks with
  | [] => mret []
  | n :: frozen_banks =>
      x ← votable_bank descendants ancestors n;
      l ← votable_banks descendants ancestors frozen_banks;
      mret (match x with Some x => x :: l | None => l end)
  end.

Definition generate_votable_banks : stage_op (list (Z * Z)) :=
  s ← getM;
  let f := forks_of s in
  votable ← votable_banks (BankForks.bank_forks.descendants f) (BankForks.bank_forks.ancestors f)
              (frozen_slots s);
  mret (sort_by_weight votable).

(** ** Voting *)

Definition handle_new_root : stage_op unit :=
  modify_stage (λ s, set_progress (filter (λ kp, kp.1 ∈ bank_slots s) (progress s)) s).

(** [bank_forks.set_root(new_root)]: the bank of the root is squashed, and the
    banks that do not descend from it are given up. *)
Definition set_forks_root (new_root : Z) : stage_op unit :=
  modify_stage (λ s, set_banks (bank_slots s) (st_working_bank s) new_root s);;
  on_banks (squash hash_all hash_bytes serialize_balance serialize_hash new_root);;
  s ← getM;
  match BankForks.bank_forks.prune_non_root (E:=Empty_set) new_root (forks_of s) with
  | (Ok _, f) =>
      modify_stage (set_banks (dom (BankForks.bank_forks.banks f)) (st_working_bank s) new_root)
  | _ => panic
  end.

(** [fuel] bounds the chain to the old root. *)
Definition advance_root (fuel : nat) (new_root : Z) : stage_op unit :=
  s ← getM;
  if negb (bool_decide (new_root ∈ bank_slots s)) then panic
  else
    root_bank ← the_bank new_root;
    let rooted := parents (banks (st_forks s)) root_bank ++ [slot (info root_bank)] in
    match blocktree.set_root (st_ledger s) fuel new_root (st_root s) with
    | Ok d =>
        modify_stage (set_ledger d);;
        modify_stage (λ s, set_schedules (leader_schedule_cache.set_root new_root (st_schedules s)) s);;
        set_forks_root new_root;;
        handle_new_root;;
        s ← getM;
        if root_receiver s then modify_stage (set_rooted_slots (rooted_slots s ++ [rooted]))
        else throw SendError
    | Err blocktree.OutOfFuel => throw StageOutOfFuel
    | _ => panic
    end.

(** The vote transaction, signed by the node and by the voter. *)
Definition vote_transaction (voter : K) (recent : list vote_state.Vote) (blockhash : Hash)
    : res Empty_set Transaction :=
  let vote_ix := vote_instruction.vote (kp_pubkey node_keypair) vote_account (kp_pubkey voter) recent in
  m ← message.new [vote_ix];
  tx ← partial_sign kp_pubkey sign_message [node_keypair] blockhash (new_unsigned m);
  partial_sign kp_pubkey sign_message [voter] blockhash tx.

Definition handle_votable_bank (fuel : nat) (n : Z) : stage_op unit :=
  bank ← the_bank n;
  s ← getM;
  let '(new_root, lt) := record_vote (E:=Empty_set) n (hash bank) (st_locktower s) in
  modify_stage (set_locktower lt);;
  new_root ← pure new_root;
  (match new_root with Some new_root => advance_root fuel new_root | None => mret tt end);;
  bank ← the_bank n;
  s ← getM;
  lt ← pure (update_epoch (view_of s bank) (st_locktower s));
  modify_stage (set_locktower lt);;
  match voting_keypair with
  | Some voter =>
      blockhash ← pure (get_last_hash (queue bank));
      vote_tx ← pure (vote_transaction voter (recent_votes lt) blockhash);
      modify_stage (λ s, set_pushed (pushed_votes s ++ [vote_tx]) s)
  | None => mret tt
  end.

(** ** Leading *)

(** Whether the ledger has received a part of the slot. *)
Definition has_received (s : Stage) (n : Z) : bool :=
  match cf_meta (st_ledger s) !! n with Some m => 0 <? m.(received) | None => false end.

(** The next slot that this node leads, after the slot of a bank. *)
Definition leader_slot_after (fuel : nat) (n : Z) (s : Stage) : option Z :=
  match banks (st_forks s) !! n with
  | Some b =>
      match (next_leader_slot (E:=Empty_set) weighted_index fuel my_pubkey n
               (view_of s b) (Some (has_received s)) (st_schedules s)).1 with
      | Ok (Some o) => o
      | _ => None
      end
  | None => None
  end.

Definition reset_poh_recorder (fuel : nat) (n : Z) : stage_op unit :=
  bank ← the_bank n;
  s ← getM;
  o ← on_cache (next_leader_slot weighted_index fuel my_pubkey n (view_of s bank)
                  (Some (has_received s)));
  match o with
  | None => throw StageOutOfFuel
  | Some next_leader_slot =>
      blockhash ← pure (get_last_hash (queue bank));
      on_poh_recorder (poh_recorder.reset (λ slot, leader_slot_after fuel slot s)
        (bank.tick_height bank) blockhash n next_leader_slot (st_ticks_per_slot s))
  end.

Definition start_leader (poh_slot : Z) (reached_leader_tick : bool) : stage_op unit :=
  s ← getM;
  if bool_decide (poh_slot ∈ bank_slots s) then mret tt
  else
    let parent_slot := start_slot (st_poh s) in
    if negb (bool_decide (parent_slot ∈ bank_slots s)) then panic
    else
      parent ← the_bank parent_slot;
      if negb (is_frozen parent) then panic
      else
        leader ← on_cache (cache_slot_leader_at weighted_index poh_slot (Some (view_of s parent)));
        match leader with
        | None => mret tt
        | Some next_leader =>
            modify_stage (set_announced (Some next_leader));;
            if (next_leader =? my_pubkey) && reached_leader_tick then
              on_banks (new_from_parent hash_all hash_bytes serialize_balance serialize_hash
                          parent_slot my_pubkey poh_slot);;
              insert_fork poh_slot;;
              tpu_bank ← the_bank poh_slot;
              on_poh_recorder (set_bank (mkTickBank (slot (info tpu_bank))
                (ticks_per_slot (info tpu_bank)) (bank.tick_height tpu_bank)))
            else mret tt
        end.

(** ** One turn of the loop *)

(** The banks that nothing refers to any more go at the end of the turn: those
    that are neither in the forks, nor the working bank of the forks or of the
    recorder, nor among the parents of one of these. *)
Definition drop_unused : stage_op unit :=
  s ← getM;
  on_banks (drop_banks (elements (bank_slots s) ++ [st_working_bank s] ++
    from_option (λ w, [tb_slot (wb_bank w)]) [] (working_bank (st_poh s)))).

(** The first half: whether the recorder still works on a bank of this node. *)
Definition replay_and_vote (fuel : nat) (now : Z) : stage_op bool :=
  generate_new_bank_forks;;
  s ← getM;
  let is_tpu_bank_active := bool_decide (is_Some (working_bank (st_poh s))) in
  replay_active_banks now;;
  s ← getM;
  (if st_ticks_per_slot s =? 0 then
     n ← liftM (unwrap (head (frozen_slots s)));
     bank ← the_bank n;
     modify_stage (set_ticks_per_slot (ticks_per_slot (info bank)))
   else mret tt);;
  votable ← generate_votable_banks;
  match last votable with
  | Some (_, n) => handle_votable_bank fuel n;; reset_poh_recorder fuel n;; mret false
  | None => mret is_tpu_bank_active
  end.

(** The second half. *)
Definition try_to_lead (is_tpu_bank_active : bool) : stage_op unit :=
  if is_tpu_bank_active then mret tt
  else
    s ← getM;
    let '(reached_leader_tick, _) := reached_leader_tick (st_poh s) in
    if negb (0 <? st_ticks_per_slot s) then panic
    else
      poh_slot ← pure (tick_height_to_slot (st_ticks_per_slot s)
                         (u64_add (poh_recorder.tick_height (st_poh s)) 1));
      start_leader poh_slot reached_leader_tick.

Definition turn (fuel : nat) (now : Z) : stage_op unit :=
  is_tpu_bank_active ← replay_and_vote fuel now;
  try_to_lead is_tpu_bank_active;;
  drop_unused.
End stage.
End replay_stage.
