(* ===== verification/ReplayStageProofs.v ===== *)
(** * The votes of the replay stage (ReplayStage.v)

    What the loop of a validator keeps: its banks know only true ancestors, the
    banks it may vote for are exactly those that pass every filter, and all its
    votes lie on one fork, whatever the ledger and the other threads do. *)

From stdpp Require Import sorting.
From S2P Require Import Prelude Interface Codec Float SystemProgram VoteState Message MessageProcessor StakingUtils EpochSchedule.
From S2P Require Import ForkSelection BankForks LeaderSchedule Entry Recorder BlockStore BlockStoreProofs BlockhashQueue StatusCache Stake AppendVec Accounts Bank Replay ReplayProofs ReplayChain ReplayStage.

(** ** Hoare triples

    [Q] holds if the operation returns a value, and [R] if it fails. *)

Module hoare.
Section hoare.
Context {S E : Type}.

Definition hoare {A} (P : S → Prop) (m : M S E A) (Q : A → S → Prop) (R : S → Prop) : Prop :=
  ∀ s, P s → match m s with (Ok a, s') => Q a s' | (_, s') => R s' end.

Definition keeps (I : S → Prop) {A} (m : M S E A) : Prop := hoare I m (λ _, I) I.

Lemma hoare_bind {A B} (P : S → Prop) (m : M S E A) Q (k : A → M S E B) Q' R :
  hoare P m Q R → (∀ a, hoare (Q a) (k a) Q' R) → hoare P (m ≫= k) Q' R.
Proof.
  intros Hm Hk s Hs. specialize (Hm s Hs). unfold mbind, M_bind.
  destruct (m s) as [[a| |] s']; [by apply Hk|done..].
Qed.

Lemma hoare_conseq {A} (P P' : S → Prop) (m : M S E A) (Q Q' : A → S → Prop) (R R' : S → Prop) :
  hoare P m Q R → (∀ s, P' s → P s) → (∀ a s, Q a s → Q' a s) → (∀ s, R s → R' s) → hoare P' m Q' R'.
Proof.
  intros Hm HP HQ HR s Hs. specialize (Hm s (HP s Hs)). destruct (m s) as [[a| |] s']; auto.
Qed.

Lemma hoare_keeps {A B} (I P : S → Prop) (m : M S E A) (k : A → M S E B) Q (R : S → Prop) :
  keeps I m → (∀ s, P s → I s) → (∀ s, I s → R s) → (∀ a, hoare I (k a) Q R) → hoare P (m ≫= k) Q R.
Proof.
  intros Hm HP HR Hk. eapply hoare_bind; [|exact Hk]. eapply hoare_conseq; [exact Hm|done|done|done].
Qed.

(** Reading the state. *)
Lemma hoare_get {B} (P : S → Prop) (k : S → M S E B) Q (R : S → Prop) :
  (∀ s, P s → hoare (λ s', s' = s) (k s) Q R) → hoare P (getM ≫= k) Q R.
Proof. intros Hk s Hs. exact (Hk s Hs s eq_refl). Qed.

Lemma keeps_bind (I : S → Prop) {A B} (m : M S E A) (k : A → M S E B) :
  keeps I m → (∀ a, keeps I (k a)) → keeps I (m ≫= k).
Proof. apply hoare_bind. Qed.

Lemma keeps_ret (I : S → Prop) {A} (a : A) : keeps I (mret a).
Proof. by intros s Hs. Qed.

Lemma keeps_get (I : S → Prop) : keeps I getM.
Proof. by intros s Hs. Qed.

Lemma keeps_throw (I : S → Prop) {A} (e : E) : keeps (A:=A) I (throw e).
Proof. by intros s Hs. Qed.

Lemma keeps_panic (I : S → Prop) {A} : keeps (A:=A) I panic.
Proof. by intros s Hs. Qed.

Lemma keeps_lift (I : S → Prop) {A} (x : res E A) : keeps I (liftM x).
Proof. intros s Hs. unfold liftM. by destruct x. Qed.
End hoare.

Create HintDb keeps discriminated.
#[export] Hint Resolve keeps_bind keeps_ret keeps_get keeps_throw keeps_panic keeps_lift : keeps.
End hoare.

(** ** The banks that may be voted for *)

Module votable_proofs.
Import stakes entry bank Bank.bank_forks bank_accessors locktower replay_stage.

Section votable.
Context {S : Type} `{!Bincode vote_state.VoteState}.
Context (vote_order : gmap Pubkey (Z * Account) → list (Pubkey * (Z * Account))).
(** A [HashMap] is visited in some order. *)
Context (slot_order : gset Z → list Z) (slot_order_perm : ∀ X, slot_order X ≡ₚ elements X).
Implicit Types (s : Stage (S:=S)).

(** The bank of slot [n] passes every filter, and has weight [w]. *)
Definition passes (ds as' : gmap Z (gset Z)) s (n w : Z) : Prop :=
  ∃ b sl, banks (st_forks s) !! n = Some b ∧ is_votable b = true ∧
    is_recent_epoch (st_locktower s) (view_of vote_order s b) = true ∧
    has_voted (st_locktower s) n = false ∧
    is_locked_out (E:=Empty_set) (st_locktower s) n ds = Ok false ∧
    collect_vote_lockouts (E:=Empty_set) (st_locktower s) n (vote_order (vote_accounts b)) as' = Ok sl ∧
    check_vote_stake_threshold (st_locktower s) n sl = true ∧
    w = calculate_weight (st_locktower s) sl.

Definition candidate s (n w : Z) : Prop :=
  n ∈ bank_slots s ∧ frozen s n = true ∧
  passes (BankForks.bank_forks.descendants (forks_of s)) (BankForks.bank_forks.ancestors (forks_of s)) s n w.

Lemma on_banks_get n s b s' : the_bank n s = (Ok b, s') → banks (st_forks s) !! n = Some b ∧ s' = s.
Proof.
  unfold the_bank, on_banks, get_bank. destruct (banks (st_forks s) !! n) as [c|]; [|done].
  intros [= <- <-]. by destruct s.
Qed.

Lemma pure_ok {A} (x : res Empty_set A) s a s' : pure x s = (Ok a, s') → x = Ok a ∧ s' = s.
Proof. unfold pure, liftM. destruct x as [y| |]; by intros [= <- <-]. Qed.

Lemma votable_bank_ok ds as' n s x s' : votable_bank vote_order ds as' n s = (Ok x, s') →
  (∃ pr, s' = set_progress pr s) ∧ ∀ y, x = Some y ↔ y.2 = n ∧ passes ds as' s n y.1.
Proof.
  unfold votable_bank. intros (b & ? & [Hb ->]%on_banks_get & H)%bind_ok.
  apply bind_ok in H as (? & ? & [= <- <-] & H).
  assert ((∀ w, ¬ passes ds as' s n w) → (mret None : M (Stage (S:=S)) StageError (option (Z * Z))) s = (Ok x, s') →
    (∃ pr, s' = set_progress pr s) ∧ ∀ y, x = Some y ↔ y.2 = n ∧ passes ds as' s n y.1) as Hnone.
  { intros Hn [= <- <-]. split; [exists (progress s); by destruct s|]. intros y. split; [done|].
    by intros [_ Hp%Hn]. }
  destruct (is_votable b) eqn:H1; cbn in H; [|apply Hnone; [|done]; intros w (c & sl & Hc & ? & _); congruence].
  destruct (is_recent_epoch _ _) eqn:H2; cbn in H;
    [|apply Hnone; [|done]; intros w (c & sl & Hc & _ & ? & _); congruence].
  destruct (has_voted _ _) eqn:H3; cbn in H;
    [apply Hnone; [|done]; intros w (c & sl & Hc & _ & _ & ? & _); congruence|].
  apply bind_ok in H as (lo & ? & [H4 ->]%pure_ok & H). destruct lo.
  { apply Hnone; [|done]. intros w (c & sl & Hc & _ & _ & _ & ? & _). congruence. }
  apply bind_ok in H as (sl & ? & [H5 ->]%pure_ok & H).
  apply bind_ok in H as ([] & ? & [= <-] & [= <- <-]). split; [by eexists|].
  intros [w k]. cbn. split.
  - destruct (check_vote_stake_threshold _ _ _) eqn:H6; [|done]. intros [= <- <-]. split; [done|]. by exists b, sl.
  - intros [-> (c & sl' & Hc & _ & _ & _ & _ & H5' & H6 & ->)]. simplify_eq. rewrite H5 in H5'. simplify_eq.
    by rewrite H6.
Qed.

Lemma votable_banks_ok ds as' l : ∀ s vs s', votable_banks vote_order ds as' l s = (Ok vs, s') →
  (∃ pr, s' = set_progress pr s) ∧ ∀ w n, (w, n) ∈ vs ↔ n ∈ l ∧ passes ds as' s n w.
Proof.
  induction l as [|k l IH]; intros s vs s'; cbn [votable_banks].
  { intros [= <- <-]. split; [exists (progress s); by destruct s|]. intros w n. rewrite !elem_of_nil. tauto. }
  intros (x & s1 & [[pr ->] Hx]%votable_bank_ok & H)%bind_ok.
  apply bind_ok in H as (vs1 & s2 & [[pr2 ->] Hvs]%IH & [= <- <-]). split; [by eexists|]. intros w n.
  rewrite elem_of_cons.
  assert ((w, n) ∈ match x with Some x => x :: vs1 | None => vs1 end ↔ x = Some (w, n) ∨ (w, n) ∈ vs1) as ->.
  { destruct x as [y|]; rewrite ?elem_of_cons; [|naive_solver]. split; intros [?|?]; auto; left; congruence. }
  rewrite Hx, Hvs. cbn. change (passes ds as' (set_progress pr s) n w) with (passes ds as' s n w). naive_solver.
Qed.

Lemma insert_weight_perm x l : insert_weight x l ≡ₚ x :: l.
Proof.
  induction l as [|y l IH]; cbn [insert_weight]; [done|]. destruct (_ <=? _); [done|].
  rewrite IH. apply Permutation_swap.
Qed.

Lemma sort_by_weight_perm l : sort_by_weight l ≡ₚ l.
Proof. induction l as [|x l IH]; cbn; [done|]. by rewrite insert_weight_perm, IH. Qed.

Lemma sort_by_weight_sorted l : StronglySorted (λ x y : Z * Z, x.1 ≤ y.1) (sort_by_weight l).
Proof.
  induction l as [|x l IH]; [constructor|].
  change (sort_by_weight (x :: l)) with (insert_weight x (sort_by_weight l)).
  revert IH. generalize (sort_by_weight l). clear l. intros l.
  induction 1 as [|y l Hs IH Hy]; cbn; [repeat constructor|]. destruct (Z.leb_spec x.1 y.1).
  - constructor; [by constructor|]. constructor; [done|]. eapply Forall_impl; [done|]. cbn. lia.
  - constructor; [done|]. rewrite insert_weight_perm. constructor; [lia|done].
Qed.

Lemma sorted_last (l : list (Z * Z)) x : StronglySorted (λ x y : Z * Z, x.1 ≤ y.1) l → last l = Some x →
  ∀ y, y ∈ l → y.1 ≤ x.1.
Proof.
  induction 1 as [|y l Hs IH Hy]; [done|]. rewrite last_cons. destruct (last l) as [z|] eqn:Hl.
  - intros [= ->] k [->|Hk]%elem_of_cons; [|by apply IH]. rewrite Forall_forall in Hy. apply Hy.
    by apply last_Some_elem_of.
  - apply last_None in Hl as ->. by intros [= ->] k ->%list_elem_of_singleton.
Qed.

Lemma frozen_slots_elem s n : n ∈ frozen_slots slot_order s ↔ n ∈ bank_slots s ∧ frozen s n = true.
Proof. unfold frozen_slots. rewrite list_elem_of_filter, slot_order_perm, elem_of_elements. tauto. Qed.

Lemma votable_elems s l s' : generate_votable_banks vote_order slot_order s = (Ok l, s') →
  (∀ w n, (w, n) ∈ l ↔ candidate s n w) ∧ StronglySorted (λ x y : Z * Z, x.1 ≤ y.1) l ∧
  ∃ pr, s' = set_progress pr s.
Proof.
  unfold generate_votable_banks. intros (? & ? & [= <- <-] & H)%bind_ok.
  apply bind_ok in H as (vs & s1 & [[pr ->] Hvs]%votable_banks_ok & [= <- <-]).
  split_and!; [|apply sort_by_weight_sorted|by eexists].
  intros w n. rewrite sort_by_weight_perm, Hvs, frozen_slots_elem. unfold candidate. tauto.
Qed.

(** C14. The banks that may be voted for are exactly the frozen banks of the forks
    that pass every filter; the last one, for which the stage votes, has the
    greatest weight. *)
Theorem votable_banks_spec s l s' : generate_votable_banks vote_order slot_order s = (Ok l, s') →
  (∀ w n, (w, n) ∈ l ↔ candidate s n w) ∧
  (∀ w n, last l = Some (w, n) → candidate s n w ∧ ∀ w' n', candidate s n' w' → w' ≤ w) ∧
  ∃ pr, s' = set_progress pr s.
Proof.
  intros (Hl & Hsort & Hs)%votable_elems. split_and!; [done| |done].
  intros w n Hlast. split; [by apply Hl, last_Some_elem_of|].
  intros w' n' Hc%Hl. exact (sorted_last _ _ Hsort Hlast _ Hc).
Qed.
End votable.
End votable_proofs.

Module stage_proofs.
Import account_store message transaction message_processor native_loader_program.
Import blockhash_queue status_cache stakes accounts slot_hashes entry meta blocktree.
Import leader_schedule_cache locktower poh_recorder.
Import bank Bank.bank_forks bank_accessors blocktree_processor frame_proofs replay_stage hoare.
Import locktower_proofs votable_proofs.

Section stage.
Context {S : Type} `{!AccountStore S}.
Context `{!Bincode SlotHashes, !Bincode LoaderInstruction, !Bincode stake_state.StakeState}.
Context `{!Bincode system_instruction.SystemInstruction, !Bincode vote_state.VoteState}.
Context `{!Bincode vote_state.VoteInstruction, !Bincode Message}.
Context `{!Bincode Transaction, !Bincode (list Entry)}.
Context (open_library : list Z → option (option ProcessInstruction)).
Context (gen_range : StatusCache (TxResult unit) → Hash → nat).
Context (hash_all : list (list Z) → Hash) (hash_bytes : Hash → list Z).
Context (serialize_balance : append_vec.AccountBalance → list Z).
Context (serialize_hash : option Hash → list Z).
Context (sha256 : list Z → Hash).
Context (weighted_index : list Z → option (list Z → nat → nat)).
Context (vote_order : gmap Pubkey (Z * Account) → list (Pubkey * (Z * Account))).
Context (clock : Z → Z → Z) (par_order : list Locked → list nat).
Context (slot_order : gset Z → list Z) (children_order : gmap Z (list Z) → list (Z * list Z)).
Context {K : Type} (kp_pubkey : K → Pubkey) (sign_message : K → list Z → Signature).
Context (my_pubkey : Pubkey) (node_keypair : K) (vote_account : Pubkey) (voting_keypair : option K).

Notation freeze_bank := (freeze_bank hash_all hash_bytes serialize_balance serialize_hash).
Notation new_from_parent := (new_from_parent hash_all hash_bytes serialize_balance serialize_hash).
Notation squash := (squash hash_all hash_bytes serialize_balance serialize_hash).
Notation process_entries := (process_entries open_library gen_range clock par_order).
Notation stage := (Stage (S:=S)).
Implicit Types (f : Forks S) (s : stage).

(** ** The banks know true ancestors *)

(** [chains p c]: the block of slot [c] builds on the one of slot [p]. *)
Context (chains : Z → Z → Prop).
Notation anc := (tc chains).

Record bank_sound (n : Z) (b : Bank) : Prop := {
  bs_slot : slot (info b) = n;
  bs_parent : ∀ p, parent b = Some p → chains p n;
  bs_ancestors : ∀ a, a ∈ dom (ancestors (info b)) → a = n ∨ anc a n
}.

Definition forks_sound f : Prop := ∀ n b, banks f !! n = Some b → bank_sound n b.

(** Operations of a bank that leave its place among the banks. *)
Definition stays {A} (m : M (BankState S) TransactionError A) : Prop :=
  ∀ u : BankState S, info (self (m u).2) = info (self u) ∧ parent (self (m u).2) = parent (self u).

Lemma leaves_stays {A} (m : M (BankState S) TransactionError A) : leaves m → stays m.
Proof. intros Hm u. specialize (Hm u). by injection Hm. Qed.

Lemma stays_bind {A B} (m : M (BankState S) TransactionError A) (k : A → M (BankState S) TransactionError B) :
  stays m → (∀ a, stays (k a)) → stays (m ≫= k).
Proof.
  intros Hm Hk u. unfold mbind, M_bind. specialize (Hm u). destruct (m u) as [[a| |] u1]; cbn in *; [|done..].
  destruct (Hk a u1) as [-> ->]. done.
Qed.

Lemma stays_process_entries es : stays (process_entries es).
Proof.
  unfold process_entries. generalize (@nil Locked).
  induction es as [|e es IH]; intros group; cbn [process_loop].
  { apply leaves_stays, leaves_then_drop, leaves_par. }
  destruct (is_tick e).
  - apply stays_bind; [apply leaves_stays, leaves_then_drop, leaves_par|]. intros [].
    apply stays_bind; [done|]. intros u0. apply stays_bind; [|done].
    intros u. unfold register_tick, modify_self. unfold_monad. cbn.
    destruct (_ =? 0); [done|]. by destruct (_ =? _).
  - apply stays_bind; [apply leaves_stays, leaves_lock_entry|done].
Qed.

Lemma sound_like n b c : bank_sound n b → info c = info b → (parent c = parent b ∨ parent c = None) →
  bank_sound n c.
Proof. intros [] Hi Hp. split; rewrite ?Hi; [done| |done]. intros p Hc. destruct Hp; [|congruence]. apply bs_parent0. congruence. Qed.

Lemma sound_insert f n c : forks_sound f → bank_sound n c → ∀ d st,
  forks_sound (mkForks d st (<[n := c]> (banks f))).
Proof. intros Hf Hc d st k b. cbn. rewrite lookup_insert_Some. intros [[<- <-]|[_ Hb]]; eauto. Qed.

Lemma at_bank_sound {A} n (m : M (BankState S) TransactionError A) : stays m →
  keeps forks_sound (at_bank n m).
Proof.
  intros Hm f Hf. unfold at_bank. destruct (banks f !! n) as [b|] eqn:Hb; [|done].
  destruct (Hm (mkState (f_db f) (f_statuses f) b)) as [Hi Hp]. destruct (m _) as [x s]. cbn in *.
  assert (forks_sound (mkForks (db s) (statuses s) (<[n := self s]> (banks f)))).
  { apply sound_insert; [done|]. eapply sound_like; eauto. }
  by destruct x.
Qed.

Lemma freeze_sound n : keeps forks_sound (freeze_bank n).
Proof.
  apply at_bank_sound, leaves_stays, replay_proofs.leaves_freeze.
Qed.

Lemma parents_anc bs fuel : (∀ k b, bs !! k = Some b → bank_sound k b) → ∀ p n a, chains p n →
  a ∈ parents_loop fuel bs (Some p) → anc a n.
Proof.
  intros Hbs. induction fuel as [|fuel IH]; intros p n a Hp; cbn [parents_loop]; [by intros ?%elem_of_nil|].
  intros [->|Ha]%elem_of_cons; [by apply tc_once|].
  destruct (bs !! p) as [b|] eqn:Hb; cbn in Ha; [|by destruct fuel; apply elem_of_nil in Ha].
  destruct (parent b) as [q|] eqn:Hq; [|by destruct fuel; apply elem_of_nil in Ha].
  apply tc_r with p; [|done]. apply (IH q p); [|done]. by apply (Hbs p b Hb).
Qed.

Lemma ancestors_dom n ps a : a ∈ dom (ancestors_of n ps) → a = n ∨ a ∈ ps.
Proof.
  unfold ancestors_of. assert (∀ l m, a ∈ dom (foldl (λ (m : gmap Z Z) '(i, p), <[p := Z.of_nat i + 1]> m) m l) →
    a ∈ dom m ∨ a ∈ l.*2) as Hl.
  { induction l as [|[i q] l IH]; intros m; cbn [foldl]; [by left|]. intros [Ha|Ha]%IH; [|by right; right].
    rewrite dom_insert in Ha. apply elem_of_union in Ha as [->%elem_of_singleton|?]; [right; left|by left]. }
  intros [Ha|Ha]%Hl; [left; rewrite dom_singleton in Ha; by apply elem_of_singleton in Ha|]. right.
  apply list_elem_of_fmap in Ha as ([i q] & -> & Hq). apply elem_of_lookup_imap in Hq as (j & x & [= <- <-] & Hx).
  by eapply list_elem_of_lookup_2.
Qed.

Lemma new_from_parent_sound n leader c : chains n c → keeps forks_sound (new_from_parent n leader c).
Proof.
  intros Hc. eapply hoare_bind; [apply freeze_sound|]. intros [] f Hf.
  unfold get_bank, insert_bank. unfold_monad. cbn. destruct (banks f !! n) as [p|] eqn:Hp; cbn; [|done].
  destruct (_ =? _); [done|]. cbn.
  assert (∀ pl, forks_sound (mkForks (f_db f) (f_statuses f) (<[n := set_locks pl p]> (banks f)))) as Hf1.
  { intros pl. apply sound_insert; [done|]. apply (sound_like n p); auto. }
  eapply (sound_insert _ c _ (Hf1 _)). split; cbn.
  - done.
  - by intros q [= <-].
  - intros a [->|Ha]%ancestors_dom; [by left|]. right. eapply parents_anc; [eapply Hf1|exact Hc|exact Ha].
Qed.

Lemma squash_sound n : keeps forks_sound (squash n).
Proof.
  eapply hoare_bind; [apply freeze_sound|]. intros [] f Hf.
  unfold get_bank, insert_bank, root_parents. unfold_monad. cbn.
  destruct (banks f !! n) as [b|] eqn:Hb; cbn; [|done].
  assert (∀ d st, forks_sound (mkForks d st (<[n := set_parent None b]> (banks f)))) as Hf1.
  { intros d st. apply sound_insert; [done|]. apply (sound_like n b); auto. }
  by destruct (add_roots _ _).
Qed.

Lemma drop_banks_sound held : keeps forks_sound (drop_banks held).
Proof.
  apply keeps_bind; [apply keeps_get|]. intros f. generalize (unreferenced held (banks f)). clear f. intros l.
  induction l as [|n l IH]; [apply keeps_ret|]. apply keeps_bind; [|by intros []].
  intros f Hf k b. cbn. intros [_ Hb]%lookup_delete_Some. eauto.
Qed.

(** ** Operations of the stage *)

(** What the operations of the stage keep: [G] is on the ledger, the tower and
    the votes that have been sent. *)
Definition inv_of (F : Forks S → Prop) (G : Database → Locktower → list Transaction → Prop) s : Prop :=
  F (st_forks s) ∧ G (st_ledger s) (st_locktower s) (pushed_votes s).

Notation inv := (inv_of forks_sound).

Section operations.
Context (F : Forks S → Prop) (G : Database → Locktower → list Transaction → Prop).

Lemma on_banks_keeps {A} (m : M (Forks S) TransactionError A) :
  keeps F m → keeps (inv_of F G) (on_banks m).
Proof.
  intros Hm s [Hs HG]. unfold on_banks. specialize (Hm _ Hs). destruct (m (st_forks s)) as [[a| |] f]; by split.
Qed.

Lemma modify_keeps g : (∀ s, st_forks (g s) = st_forks s ∧ st_ledger (g s) = st_ledger s ∧
  st_locktower (g s) = st_locktower s ∧ pushed_votes (g s) = pushed_votes s) →
  keeps (inv_of F G) (modify_stage g).
Proof.
  intros Hg s [Hs HG]. destruct (Hg s) as (H1 & H2 & H3 & H4). unfold inv_of. cbn.
  by rewrite H1, H2, H3, H4.
Qed.

Lemma on_cache_keeps {A} (m : M LeaderScheduleCache Empty_set A) : keeps (inv_of F G) (on_cache (S:=S) m).
Proof. intros s Hs. unfold on_cache. destruct (m _) as [[a|e|] c]; [done|done|done]. Qed.

Lemma on_poh_keeps {A} (m : M PohRecorder Empty_set A) : keeps (inv_of F G) (on_poh_recorder (S:=S) m).
Proof. intros s Hs. unfold on_poh_recorder. destruct (m _) as [[a|e|] c]; [done|done|done]. Qed.

Lemma pure_keeps {A} (x : res Empty_set A) : keeps (inv_of F G) (pure (S:=S) x).
Proof. apply keeps_lift. Qed.

Lemma the_bank_keeps n : keeps (inv_of F G) (the_bank (S:=S) n).
Proof. apply on_banks_keeps. intros f Hf. unfold get_bank. by destruct (banks f !! n). Qed.

Lemma attempt_keeps {A} (m : M stage StageError A) : keeps (inv_of F G) m → keeps (inv_of F G) (attempt m).
Proof. intros Hm s Hs. unfold attempt. specialize (Hm s Hs). by destruct (m s) as [[a|e|] s']. Qed.

End operations.

Section operations.
Context (G : Database → Locktower → list Transaction → Prop).

Ltac keep :=
  repeat first
    [ match goal with |- ∀ _, _ => intro end
    | apply keeps_bind
    | apply keeps_ret | apply keeps_get | apply keeps_throw | apply keeps_panic
    | apply the_bank_keeps | apply on_cache_keeps | apply on_poh_keeps | apply pure_keeps
    | apply keeps_lift
    | apply attempt_keeps
    | apply modify_keeps; by intros []
    | match goal with |- keeps _ (match ?x with _ => _ end) => destruct x end
    | apply on_banks_keeps, freeze_sound | apply on_banks_keeps, squash_sound
    | apply on_banks_keeps, at_bank_sound, stays_process_entries
    | apply on_banks_keeps, drop_banks_sound
    | assumption ].

(** The links of a ledger. *)
Definition links (D : Database) (p c : Z) : Prop := ∃ m, cf_meta D !! p = Some m ∧ c ∈ next_slots m.

Lemma new_children_keeps p cs : (∀ c, c ∈ cs → chains p c) →
  keeps (inv G) (new_children hash_all hash_bytes serialize_balance serialize_hash weighted_index
    vote_order p cs).
Proof.
  induction cs as [|c cs IH]; intros Hc; cbn [new_children]; keep.
  - apply on_banks_keeps, new_from_parent_sound, Hc. left.
  - apply IH. intros c' ?. apply Hc. by right.
Qed.

Lemma replay_banks_keeps now l :
  keeps (inv G) (replay_banks open_library gen_range hash_all hash_bytes serialize_balance
    serialize_hash sha256 clock par_order my_pubkey now l).
Proof. induction l as [|n l IH]; cbn [replay_banks]; keep. Qed.

Lemma votable_bank_keeps ds as' n : keeps (inv G) (votable_bank (S:=S) vote_order ds as' n).
Proof. unfold votable_bank. keep. Qed.

Lemma generate_votable_keeps : keeps (inv G) (generate_votable_banks (S:=S) vote_order slot_order).
Proof.
  unfold generate_votable_banks. apply keeps_bind; [keep|]. intros s. apply keeps_bind; [|keep].
  generalize (frozen_slots slot_order s). intros l. induction l as [|n l IH]; cbn [votable_banks]; [keep|].
  apply keeps_bind; [apply votable_bank_keeps|keep].
Qed.

Lemma set_forks_root_keeps r :
  keeps (inv G) (set_forks_root hash_all hash_bytes serialize_balance serialize_hash r).
Proof. unfold set_forks_root. keep. Qed.

Lemma reset_poh_keeps fuel n :
  keeps (inv G) (reset_poh_recorder (S:=S) weighted_index vote_order my_pubkey fuel n).
Proof. unfold reset_poh_recorder. keep. Qed.

Lemma drop_unused_keeps : keeps (inv G) (drop_unused (S:=S)).
Proof. unfold drop_unused. keep. Qed.
End operations.

(** A [HashMap] is visited in some order. *)
Context (slot_order_perm : ∀ X, slot_order X ≡ₚ elements X).
Context (children_order_perm : ∀ m, children_order m ≡ₚ map_to_list m).

(** ** Voting on one fork *)

Lemma forks_known s : forks_sound (st_forks s) → knows anc (BankForks.bank_forks.descendants (forks_of s)).
Proof.
  intros Hs a b ds Hds Hb.
  assert (b ∈ default ∅ (BankForks.bank_forks.descendants (forks_of s) !! a)) as Hin by (by rewrite Hds).
  change (BankForks.bank_forks.descendants (forks_of s)) with
    (foldl bank_forks_proofs.add_bank ∅ (BankForks.bank_forks.bank_values (forks_of s))) in Hin.
  apply bank_forks_proofs.add_banks_lookup in Hin as (bk & Hbk & -> & Ha & Hne).
  apply bank_forks_proofs.elem_of_bank_values in Hbk as (n & Hn). cbn in Hn.
  apply lookup_fmap_Some in Hn as (c & <- & [Hc _]%map_lookup_filter_Some).
  destruct (Hs n c Hc) as [Hslot _ Hanc]. cbn in *. rewrite Hslot in *. by destruct (Hanc a Ha).
Qed.

Lemma slots_since D l p cs : get_slots_since D l !! p = Some cs → ∀ c, c ∈ cs → links D p c.
Proof.
  unfold get_slots_since. assert (∀ r : gmap Z (list Z), (∀ p cs, r !! p = Some cs → ∀ c, c ∈ cs → links D p c) →
    ∀ p cs, foldl (λ (r : gmap Z (list Z)) (x : Z), match cf_meta D !! x with Some m => <[x := m.(next_slots)]> r | None => r end) r l !! p
      = Some cs → ∀ c, c ∈ cs → links D p c) as Hl; [|apply Hl; intros ??; by rewrite lookup_empty].
  induction l as [|x l IH]; intros r Hr; cbn [foldl]; [done|]. apply IH. destruct (cf_meta D !! x) as [m|] eqn:Hm; [|done].
  intros p' cs'. rewrite lookup_insert_Some. intros [[-> <-]|[_ ?]]; [|by eauto]. intros c Hc. by exists m.
Qed.

Lemma new_forks_keeps G l : (∀ p cs c, (p, cs) ∈ l → c ∈ cs → chains p c) →
  keeps (inv G) (new_forks hash_all hash_bytes serialize_balance serialize_hash weighted_index vote_order l).
Proof.
  induction l as [|[p cs] l IH]; intros Hl; cbn [new_forks]; [apply keeps_ret|].
  apply keeps_bind; [apply new_children_keeps; intros; eapply Hl; [left|done]|].
  intros _. apply IH. intros ? ? ? ?. apply Hl. by right.
Qed.

Lemma generate_new_keeps G : (∀ D lt ps, G D lt ps → ∀ p c, links D p c → chains p c) →
  keeps (inv G) (generate_new_bank_forks hash_all hash_bytes serialize_balance serialize_hash
    weighted_index vote_order slot_order children_order).
Proof.
  intros HG s Hs. unfold generate_new_bank_forks. unfold mbind at 1, M_bind at 1. cbn [getM].
  apply (new_forks_keeps G); [|done]. intros p cs c Hin Hc. rewrite children_order_perm in Hin.
  apply elem_of_map_to_list in Hin. eapply HG; [apply Hs|]. by eapply slots_since.
Qed.

(** The tower, and the votes sent since [p0]: the votes of a transaction are
    votes of the tower. *)
Definition voting (p0 : list Transaction) (D : Database) (lt : Locktower) (ps : list Transaction) : Prop :=
  one_fork anc (lt_lockouts lt) ∧
  (ps = p0 ∨ ∃ voter h tx,
    ps = p0 ++ [tx] ∧
    vote_transaction kp_pubkey sign_message node_keypair vote_account voter (recent_votes lt) h = Ok tx ∧
    ∀ v, v ∈ recent_votes lt → vote_state.vote_slot v ∈ vote_state.slot <$> vote_state.votes (lt_lockouts lt)).

(** Nothing has been sent yet, and the recent votes are in the tower. *)
Definition unsent (p0 : list Transaction) (D : Database) (lt : Locktower) (ps : list Transaction) : Prop :=
  one_fork anc (lt_lockouts lt) ∧ ps = p0 ∧
  ∀ v, v ∈ recent_votes lt → vote_state.vote_slot v ∈ vote_state.slot <$> vote_state.votes (lt_lockouts lt).

Lemma set_ledger_keeps G D : (∀ D' lt ps, G D' lt ps → G D lt ps) → keeps (inv G) (modify_stage (S:=S) (set_ledger D)).
Proof. intros HG s [Hs H]. split; [done|]. cbn. by eapply HG. Qed.

Lemma advance_root_keeps p0 fuel r :
  keeps (inv (unsent p0)) (advance_root (S:=S) hash_all hash_bytes serialize_balance serialize_hash fuel r).
Proof.
  unfold advance_root. apply keeps_bind; [apply keeps_get|]. intros s0. destruct (negb _); [apply keeps_panic|].
  apply keeps_bind; [apply the_bank_keeps|]. intros b. destruct (blocktree.set_root _ _ _ _) as [D|[]|];
    try apply keeps_panic; [|apply keeps_throw].
  apply keeps_bind; [by apply set_ledger_keeps|]. intros _. apply keeps_bind; [by apply modify_keeps; intros []|].
  intros _. apply keeps_bind; [apply set_forks_root_keeps|]. intros _.
  apply keeps_bind; [by apply modify_keeps; intros []|]. intros _. apply keeps_bind; [apply keeps_get|].
  intros s1. destruct (root_receiver s1); [by apply modify_keeps; intros []|apply keeps_throw].
Qed.

Lemma record_vote_one_fork lt n h ds x lt' : one_fork anc (lt_lockouts lt) → knows anc ds →
  is_locked_out (E:=Empty_set) lt n ds = Ok false → record_vote (E:=Empty_set) n h lt = (x, lt') →
  one_fork anc (lt_lockouts lt') ∧
  ∀ v, v ∈ recent_votes lt' → vote_state.vote_slot v ∈ vote_state.slot <$> vote_state.votes (lt_lockouts lt').
Proof.
  intros Hof Hk Hl [= _ <-]. cbn. split.
  - destruct (not_locked_out anc lt n ds Hk Hl) as [Hv Hr]. cbn zeta in Hv, Hr.
    rewrite <- (unchecked_hash n h) in Hv, Hr. by apply one_fork_vote.
  - intros v [Hv _]%list_elem_of_filter. apply list_elem_of_fmap in Hv as (u & -> & Hu).
    apply list_elem_of_fmap_2. apply list_elem_of_lookup in Hu as [i Hi]. rewrite lookup_drop in Hi.
    by eapply list_elem_of_lookup_2.
Qed.

Lemma update_epoch_votes v lt lt' : update_epoch (E:=Empty_set) v lt = Ok lt' →
  lt_lockouts lt' = lt_lockouts lt ∧ recent_votes lt' = recent_votes lt.
Proof.
  unfold update_epoch. destruct (negb _); [|by intros [= <-]]. destruct (negb _); [done|].
  by intros (es & _ & [= <-])%res_bind_ok.
Qed.

Lemma unsent_voting p0 D lt ps : unsent p0 D lt ps → voting p0 D lt ps.
Proof. intros (? & -> & _). split; [done|by left]. Qed.

(** Sending the vote. *)
Lemma send_vote_ok p0 n :
  hoare (inv (unsent p0))
    (bank ← the_bank n;
     s ← getM;
     lt ← pure (update_epoch (view_of vote_order s bank) (st_locktower s));
     modify_stage (set_locktower lt);;
     match voting_keypair with
     | Some voter =>
         blockhash ← pure (get_last_hash (queue bank));
         vote_tx ← pure (vote_transaction kp_pubkey sign_message node_keypair vote_account voter
                           (recent_votes lt) blockhash);
         modify_stage (λ s, set_pushed (pushed_votes s ++ [vote_tx]) s)
     | None => mret tt
     end)
    (λ _, inv (voting p0)) (inv (voting p0)).
Proof.
  assert (∀ s, inv (unsent p0) s → inv (voting p0) s) as Huv.
  { intros s [Hs Hu]. split; [done|by apply unsent_voting]. }
  eapply (hoare_keeps (inv (unsent p0))); [apply the_bank_keeps|done|done|]. intros b.
  apply hoare_get. intros s Hs ? ->.
  unfold pure, liftM, modify_stage. unfold_monad.
  destruct (update_epoch _ _) as [lt|[]|] eqn:Hlt; cbn -[vote_transaction]; [|by apply Huv].
  apply update_epoch_votes in Hlt as [Hl Hr].
  assert (inv (unsent p0) (set_locktower lt s)) as Hs1.
  { destruct Hs as [? (? & ? & ?)]. split; [done|]. unfold unsent. cbn. by rewrite Hl, Hr. }
  destruct voting_keypair as [voter|]; [|by apply Huv].
  destruct (get_last_hash (queue b)) as [h|[]|]; cbn -[vote_transaction]; [|by apply Huv].
  destruct (vote_transaction kp_pubkey sign_message node_keypair vote_account voter (recent_votes lt) h) as [tx|[]|] eqn:Htx; cbn; [|by apply Huv].
  destruct Hs1 as [Hf (Hof & Hps & Hrec)]. split; [done|]. cbn in *. split; [done|]. right.
  exists voter, h, tx. by rewrite Hps.
Qed.

Lemma handle_votable_ok p0 fuel n lt ds :
  one_fork anc (lt_lockouts lt) → knows anc ds → is_locked_out (E:=Empty_set) lt n ds = Ok false →
  hoare (inv (λ _ lt' ps, lt' = lt ∧ ps = p0))
    (handle_votable_bank (S:=S) hash_all hash_bytes serialize_balance serialize_hash vote_order
       kp_pubkey sign_message node_keypair vote_account voting_keypair fuel n)
    (λ _, inv (voting p0)) (inv (voting p0)).
Proof.
  intros Hof Hk Hl. unfold handle_votable_bank.
  assert (∀ s, inv (unsent p0) s → inv (voting p0) s) as Huv.
  { intros s [Hs Hu]. split; [done|by apply unsent_voting]. }
  eapply (hoare_keeps (inv (λ _ lt' ps, lt' = lt ∧ ps = p0))); [apply the_bank_keeps|done| |].
  { intros s [Hs [Ht Hp]]. split; [done|]. unfold voting. rewrite Ht, Hp. split; [done|by left]. }
  intros b. apply hoare_get. intros s [Hs [<- <-]].
  destruct (record_vote _ _ _) as [x lt'] eqn:Hrec.
  destruct (record_vote_one_fork _ _ _ _ _ _ Hof Hk Hl Hrec) as [Hof' Hr'].
  eapply hoare_bind with (Q := λ _, inv (unsent (pushed_votes s))).
  { intros ? ->. split; [done|]. by split. }
  intros _. eapply (hoare_keeps (inv (unsent (pushed_votes s)))); [apply pure_keeps|done|done|]. intros r.
  eapply (hoare_keeps (inv (unsent (pushed_votes s)))); [|done|done|intros _; apply send_vote_ok].
  destruct r; [apply advance_root_keeps|apply keeps_ret].
Qed.

(** ** A turn of the loop *)

Notation replay_and_vote := (replay_and_vote open_library gen_range hash_all hash_bytes serialize_balance
  serialize_hash sha256 weighted_index vote_order clock par_order slot_order children_order kp_pubkey
  sign_message my_pubkey node_keypair vote_account voting_keypair).
Notation start_leader := (start_leader hash_all hash_bytes serialize_balance serialize_hash weighted_index
  vote_order my_pubkey).
Notation try_to_lead := (try_to_lead hash_all hash_bytes serialize_balance serialize_hash weighted_index
  vote_order my_pubkey).
Notation turn := (turn open_library gen_range hash_all hash_bytes serialize_balance
  serialize_hash sha256 weighted_index vote_order clock par_order slot_order children_order kp_pubkey
  sign_message my_pubkey node_keypair vote_account voting_keypair).

Definition before (p0 : list Transaction) (D : Database) (lt : Locktower) (ps : list Transaction) : Prop :=
  (∀ p c, links D p c → chains p c) ∧ one_fork anc (lt_lockouts lt) ∧ ps = p0.

Lemma before_voting p0 s : inv (before p0) s → inv (voting p0) s.
Proof. intros [Hs (_ & Hof & Hp)]. split; [done|]. split; [done|by left]. Qed.

Lemma vote_ok p0 fuel (a : bool) :
  hoare (inv (before p0))
    (votable ← generate_votable_banks vote_order slot_order;
     match last votable with
     | Some (_, n) =>
         handle_votable_bank hash_all hash_bytes serialize_balance serialize_hash vote_order kp_pubkey
           sign_message node_keypair vote_account voting_keypair fuel n;;
         reset_poh_recorder weighted_index vote_order my_pubkey fuel n;;
         mret false
     | None => mret a
     end)
    (λ _, inv (voting p0)) (inv (voting p0)).
Proof.
  intros s Hs. unfold mbind at 1, M_bind at 1.
  pose proof (generate_votable_keeps _ s Hs) as Hv.
  destruct (generate_votable_banks _ _ s) as [[l| |] s1] eqn:Hg; [|by apply before_voting..].
  destruct (votable_elems _ _ slot_order_perm _ _ _ Hg) as (Hl & _ & pr & ->).
  destruct (last l) as [[w n]|] eqn:Hlast; [|by apply before_voting].
  apply last_Some_elem_of, Hl in Hlast as (_ & _ & b & sl & _ & _ & _ & _ & Hlo & _).
  destruct Hs as [Hsound (_ & Hof & Hp0)].
  assert (hoare (inv (λ _ lt' ps, lt' = st_locktower s ∧ ps = p0))
    (handle_votable_bank hash_all hash_bytes serialize_balance serialize_hash vote_order kp_pubkey
       sign_message node_keypair vote_account voting_keypair fuel n;;
     reset_poh_recorder weighted_index vote_order my_pubkey fuel n;;
     mret false) (λ _, inv (voting p0)) (inv (voting p0))) as Hh.
  { eapply hoare_bind; [eapply handle_votable_ok; [exact Hof|by apply forks_known|exact Hlo]|]. intros [].
    apply keeps_bind; [apply reset_poh_keeps|]. intros _. apply keeps_ret. }
  apply Hh. by split.
Qed.

Lemma replay_and_vote_ok p0 fuel now :
  hoare (inv (before p0)) (replay_and_vote fuel now) (λ _, inv (voting p0)) (inv (voting p0)).
Proof.
  pose proof (before_voting p0) as Hbv. unfold replay_stage.replay_and_vote.
  eapply (hoare_keeps (inv (before p0))); [apply generate_new_keeps; by intros D lt ps (Hl & _)|done..|]. intros _.
  eapply (hoare_keeps (inv (before p0))); [apply keeps_get|done..|]. intros s.
  eapply (hoare_keeps (inv (before p0))); [|done..|].
  { apply keeps_bind; [apply keeps_get|]. intros s1. apply replay_banks_keeps. }
  intros _. eapply (hoare_keeps (inv (before p0))); [apply keeps_get|done..|]. intros s1.
  eapply (hoare_keeps (inv (before p0))); [|done..|intros _; apply vote_ok].
  destruct (_ =? _); [|apply keeps_ret]. apply keeps_bind; [apply keeps_lift|]. intros n.
  apply keeps_bind; [apply the_bank_keeps|]. intros b. apply modify_keeps. by intros [].
Qed.

(** Starting a bank touches neither the tower nor the votes. *)
Lemma lead_keeps G a : keeps (inv_of (λ _, True) G) (try_to_lead a).
Proof.
  assert (∀ A (m : M (Forks S) TransactionError A), keeps (inv_of (λ _, True) G) (on_banks m)) as Hb.
  { intros A m. apply on_banks_keeps. intros f _. by destruct (m f) as [[]]. }
  unfold replay_stage.try_to_lead, replay_stage.start_leader, insert_fork.
  repeat first
    [ match goal with |- ∀ _, _ => intro end
    | apply keeps_bind | apply keeps_ret | apply keeps_get | apply keeps_panic | apply on_cache_keeps
    | apply on_poh_keeps | apply pure_keeps | apply Hb | apply modify_keeps; by intros []
    | match goal with |- keeps _ (match ?x with _ => _ end) => destruct x end ].
Qed.

Lemma new_from_parent_child n leader c f f' : new_from_parent n leader c f = (Ok tt, f') →
  ∃ b, banks f' !! c = Some b ∧ parent b = Some n.
Proof.
  intros ([] & f1 & _ & H)%bind_ok. unfold get_bank in H.
  apply bind_ok in H as (p & f2 & [= Hp <-] & H). destruct (_ =? _); [done|].
  destruct (locks_from_parent _) as [cl pl].
  apply bind_ok in H as ([] & f3 & [= <-] & H). apply bind_ok in H as (f4 & f5 & [= <- <-] & [= <-]).
  eexists. cbn. rewrite lookup_insert_eq. done.
Qed.

Lemma on_banks_ok {A} (m : M (Forks S) TransactionError A) s a s' : on_banks m s = (Ok a, s') →
  ∃ f, m (st_forks s) = (Ok a, f) ∧ s' = set_forks f s.
Proof. unfold on_banks. destruct (m (st_forks s)) as [[x| |] f]; intros [= <- <-]. eauto. Qed.

Lemma drop_banks_lookup held f f' n : drop_banks held f = (Ok tt, f') → n ∈ held → banks f' !! n = banks f !! n.
Proof.
  unfold drop_banks. intros (f1 & f2 & [= <- <-] & H)%bind_ok Hn.
  assert (n ∉ unreferenced held (banks f)) as Hu.
  { unfold unreferenced. rewrite list_elem_of_filter. intros [Hu _]. apply Hu, elem_of_app. by left. }
  revert Hu H. generalize (unreferenced held (banks f)). intros l. revert f.
  induction l as [|x l IH]; intros f Hl; cbn [foldr]; [by intros [= <-]|].
  apply not_elem_of_cons in Hl as [Hne Hl]. intros ([] & f1 & [= <-] & H)%bind_ok.
  rewrite (IH _ Hl H). cbn. by rewrite lookup_delete_ne.
Qed.

Lemma start_leader_banks c (reached : bool) s s' : forks_sound (st_forks s) →
  start_leader c reached s = (Ok tt, s') → forks_sound (st_forks s') ∨
  ∃ p b, banks (st_forks s') !! c = Some b ∧ parent b = Some p ∧ c ∈ bank_slots s' ∧
    (chains p c → forks_sound (st_forks s')).
Proof.
  intros Hs (? & ? & [= <- <-] & H)%bind_ok. case_bool_decide; [left; by injection H as <-|].
  cbv zeta in H. destruct (negb _); [done|].
  apply bind_ok in H as (b & s1 & [_ ->]%on_banks_get & H). destruct (negb _); [done|].
  apply bind_ok in H as (leader & s1 & Hc & H). unfold on_cache in Hc.
  destruct (cache_slot_leader_at _ _ _ _) as [x cache]. injection Hc as _ <-.
  destruct leader as [leader|]; [|left; by injection H as <-].
  apply bind_ok in H as ([] & ? & [= <-] & H). destruct (_ && _); [|left; by injection H as <-].
  apply bind_ok in H as ([] & ? & (f1 & Hf1 & ->)%on_banks_ok & H). cbn in Hf1.
  apply bind_ok in H as ([] & s2 & Hi & H).
  assert (st_forks s2 = f1 ∧ c ∈ bank_slots s2) as [Hf2 Hc2].
  { unfold insert_fork in Hi. apply bind_ok in Hi as (? & ? & [= <- <-] & Hi).
    apply bind_ok in Hi as ([] & ? & [= <-] & Hi). case_bool_decide; [done|].
    injection Hi as <-. cbn. set_solver. }
  apply bind_ok in H as (tb & s3 & [_ ->]%on_banks_get & H). unfold on_poh_recorder in H.
  destruct (set_bank _ _) as [y poh]. injection H as _ <-. right.
  destruct (new_from_parent_child _ _ _ _ _ Hf1) as (b' & Hb' & Hp').
  eexists _, b'. cbn. rewrite Hf2. split_and!; [done..|]. intros Hch.
  pose proof (new_from_parent_sound _ my_pubkey _ Hch _ Hs) as Hk. by rewrite Hf1 in Hk.
Qed.

(** The parents of the banks are those of their blocks. *)
Definition bank_links s : Prop := ∀ n b p, banks (st_forks s) !! n = Some b → parent b = Some p → chains p n.

Lemma turn_sound p0 fuel now s s' : inv (before p0) s → turn fuel now s = (Ok tt, s') → bank_links s' →
  forks_sound (st_forks s').
Proof.
  intros Hs (a & s1 & H1 & H)%bind_ok Hlinks.
  pose proof (replay_and_vote_ok p0 fuel now s Hs) as Hv. rewrite H1 in Hv. destruct Hv as [Hs1 _].
  apply bind_ok in H as ([] & s2 & H2 & H). unfold drop_unused in H.
  apply bind_ok in H as (? & ? & [= <- <-] & (f & Hf & ->)%on_banks_ok).
  cut (forks_sound (st_forks s2)).
  { intros Hs2. epose proof (drop_banks_sound _ _ Hs2) as Hd. by erewrite Hf in Hd. }
  destruct a; [by injection H2 as <-|].
  apply bind_ok in H2 as (? & ? & [= <- <-] & H2). destruct (reached_leader_tick _) as [reached grace].
  destruct (negb _); [done|]. apply bind_ok in H2 as (c & ? & [_ ->]%pure_ok & H2).
  destruct (start_leader_banks _ _ _ _ Hs1 H2) as [|(p & b & Hb & Hp & Hc & Hsound)]; [done|].
  apply Hsound. eapply Hlinks; [|exact Hp]. cbn. rewrite (drop_banks_lookup _ _ _ c Hf), Hb; [done|].
  apply elem_of_app. left. by apply elem_of_elements.
Qed.

Lemma turn_votes p0 fuel now s x s' : inv (before p0) s → turn fuel now s = (x, s') →
  voting p0 (st_ledger s') (st_locktower s') (pushed_votes s').
Proof.
  intros Hs H. assert (hoare (inv (before p0)) (turn fuel now) (λ _, inv_of (λ _, True) (voting p0))
    (inv_of (λ _, True) (voting p0))) as Ht.
  { eapply hoare_bind with (Q := λ _, inv_of (λ _, True) (voting p0)).
    - eapply hoare_conseq; [apply replay_and_vote_ok|done|intros ? s0 [_ Hv]; by split|intros s0 [_ Hv]; by split].
    - intros a. apply keeps_bind; [apply lead_keeps|]. intros _. unfold drop_unused.
      apply keeps_bind; [apply keeps_get|]. intros s0. apply on_banks_keeps. intros f _.
      by destruct (drop_banks _ f) as [[]]. }
  specialize (Ht s Hs). rewrite H in Ht. by destruct x as [[]| |]; apply Ht.
Qed.

(** What other threads may do between two turns: the ledger, the recorder and
    the channels are theirs, and they execute transactions and register ticks
    in the banks; they change neither the tower nor the place of a bank. *)
Definition others s s' : Prop :=
  st_locktower s' = st_locktower s ∧
  ∀ n b', banks (st_forks s') !! n = Some b' →
    ∃ b, banks (st_forks s) !! n = Some b ∧ info b' = info b ∧ parent b' = parent b.

(** The states of a validator at the start of a turn. *)
Inductive running : stage → Prop :=
| run_start s : forks_sound (st_forks s) → one_fork anc (lt_lockouts (st_locktower s)) → running s
| run_turn fuel now s s' : running s → (∀ p c, links (st_ledger s) p c → chains p c) →
    turn fuel now s = (Ok tt, s') → bank_links s' → running s'
| run_others s s' : running s → others s s' → running s'.

Lemma running_ok s : running s → forks_sound (st_forks s) ∧ one_fork anc (lt_lockouts (st_locktower s)).
Proof.
  induction 1 as [s Hs Hof|fuel now s s' _ [Hs Hof] Hl Ht Hb|s s' _ [Hs Hof] [Ht Ho]]; [done| |].
  - assert (inv (before (pushed_votes s)) s) as Hi by done.
    split; [by eapply turn_sound|]. by apply (turn_votes _ _ _ _ _ _ Hi Ht).
  - rewrite Ht. split; [|done]. intros n b' Hb'. destruct (Ho n b' Hb') as (b & Hb & Hi & Hp).
    eapply sound_like; [by apply Hs|done|by left].
Qed.

(** C12. A validator votes on one fork.  Whatever its ledger holds, whatever the
    other threads do between the turns of its loop, and however a turn ends,
    the votes of its tower are ancestors of one another in the order of their
    slots and descend from the root, in the ancestry of the blocks; and a turn
    sends at most one transaction, whose votes are votes of that tower. *)
Theorem stage_votes_one_fork fuel now s x s' : running s → (∀ p c, links (st_ledger s) p c → chains p c) →
  turn fuel now s = (x, s') →
  let tower := lt_lockouts (st_locktower s') in
  (∀ u v, u ∈ vote_state.votes tower → v ∈ vote_state.votes tower →
     vote_state.slot u < vote_state.slot v → anc (vote_state.slot u) (vote_state.slot v)) ∧
  (∀ r v, vote_state.root_slot tower = Some r → v ∈ vote_state.votes tower → anc r (vote_state.slot v)) ∧
  (pushed_votes s' = pushed_votes s ∨ ∃ voter recent h tx,
     pushed_votes s' = pushed_votes s ++ [tx] ∧
     vote_transaction kp_pubkey sign_message node_keypair vote_account voter recent h = Ok tx ∧
     ∀ v, v ∈ recent → vote_state.vote_slot v ∈ vote_state.slot <$> vote_state.votes tower).
Proof.
  intros [Hs Hof]%running_ok Hl Ht. cbn zeta.
  assert (inv (before (pushed_votes s)) s) as Hi by done.
  destruct (turn_votes _ _ _ _ _ _ Hi Ht) as [[Hok Hc Hroot] Hp]. split_and!.
  - intros u v [i Hu]%list_elem_of_lookup [j Hv]%list_elem_of_lookup Hlt.
    destruct (Nat.lt_trichotomy i j) as [Hij|[->|Hij]]; [by eapply Hc|simplify_eq; lia|].
    pose proof (vote_state.tl_slots _ (vote_state.tower_votes _ Hok) j i v u Hij Hv Hu). lia.
  - done.
  - destruct Hp as [|(voter & h & tx & ? & ? & ?)]; [by left|right]. eauto 10.
Qed.
End stage.
End stage_proofs.

(** ** Replaying a slot as it arrives *)

Module slot_proofs.
Import account_store message transaction message_processor native_loader_program.
Import blockhash_queue status_cache stakes accounts slot_hashes entry meta blocktree.
Import bank Bank.bank_forks blocktree_processor replay_stage.
Import poh_proofs entry_proofs frame_proofs.

Section slot.
Context {S : Type} `{!AccountStore S}.
Context `{!Bincode SlotHashes, !Bincode LoaderInstruction, !Bincode stake_state.StakeState}.
Context `{!Bincode Transaction, !Bincode (list Entry)}.
Context (open_library : list Z → option (option ProcessInstruction)).
Context (gen_range : StatusCache (TxResult unit) → Hash → nat).
Context (sha256 : list Z → Hash).
Context (clock : Z → Z → Z) (par_order : list Locked → list nat).
Notation process_entries := (process_entries open_library gen_range clock par_order).
Implicit Types (s : Stage (S:=S)).

Lemma deserialize_app l1 : ∀ l2 es1 es2, deserialize_blobs l1 = Ok es1 → deserialize_blobs l2 = Ok es2 →
  deserialize_blobs (l1 ++ l2) = Ok (es1 ++ es2).
Proof.
  induction l1 as [|x l1 IH]; intros l2 es1 es2; cbn [app deserialize_blobs]; [by intros [= <-]|].
  destruct (_ <? _); [done|]. intros (es & Hes & (rest & Hr & [= <-])%res_bind_ok)%res_bind_ok H2.
  rewrite Hes. cbn. rewrite (IH _ _ _ Hr H2). cbn. by rewrite app_assoc.
Qed.

(** The blobs from an index on, up to the first one that is missing. *)
Definition run_from (D : Database) (n start : Z) (run : list (list Z)) : Prop :=
  (∀ i, start ≤ i < start + Z.of_nat (length run) → find_blob D ∅ (n, i) = run !! Z.to_nat (i - start)) ∧
  find_blob D ∅ (n, start + Z.of_nat (length run)) = None.

Lemma run_length D n run run' : run_from D n 0 run → run_from D n 0 run' → (length run ≤ length run')%nat.
Proof.
  intros [H _] [_ He']. destruct (decide (length run ≤ length run')%nat) as [|Hlt]; [done|exfalso].
  specialize (H (0 + Z.of_nat (length run')) ltac:(lia)). rewrite He' in H. symmetry in H.
  apply lookup_ge_None in H. lia.
Qed.

Lemma run_unique D n run run' : run_from D n 0 run → run_from D n 0 run' → run = run'.
Proof.
  intros H H'. pose proof (run_length _ _ _ _ H H'). pose proof (run_length _ _ _ _ H' H).
  apply list_eq_same_length with (length run); [lia|done|]. intros i x y Hi Hx Hy.
  destruct H as [H _], H' as [H' _]. specialize (H (Z.of_nat i) ltac:(lia)). specialize (H' (Z.of_nat i) ltac:(lia)).
  rewrite Z.sub_0_r, Nat2Z.id in H, H'. congruence.
Qed.

Lemma run_extend D n blobs run : (∀ i, (i < length blobs)%nat → cf_data D !! (n, Z.of_nat i) = blobs !! i) →
  run_from D n (Z.of_nat (length blobs)) run → run_from D n 0 (blobs ++ run).
Proof.
  intros Hb [Hr He]. unfold run_from. rewrite length_app. split.
  - intros i Hi. rewrite Z.sub_0_r. destruct (decide (i < Z.of_nat (length blobs))).
    + rewrite lookup_app_l by lia. rewrite <- Hb by lia. by rewrite Z2Nat.id by lia.
    + rewrite lookup_app_r by lia. rewrite Hr by lia. f_equal. lia.
  - by replace (0 + Z.of_nat (length blobs + length run)) with (Z.of_nat (length blobs) + Z.of_nat (length run)) by lia.
Qed.

Lemma run_bound D n blobs : (∀ i, is_Some (cf_data D !! (n, i)) → 0 ≤ i < u64_max) →
  (∀ i, (i < length blobs)%nat → cf_data D !! (n, Z.of_nat i) = blobs !! i) →
  Z.of_nat (length blobs) ≤ u64_max.
Proof.
  intros Hr Hb. destruct (decide (length blobs = 0)%nat) as [->|Hne]; [done|].
  specialize (Hr (Z.of_nat (length blobs - 1))). rewrite Hb in Hr by lia.
  enough (Z.of_nat (length blobs - 1) < u64_max) by lia. apply Hr, lookup_lt_is_Some. lia.
Qed.

Lemma load_run D n start es m : (∀ i, is_Some (cf_data D !! (n, i)) → 0 ≤ i < u64_max) → 0 ≤ start ≤ u64_max →
  get_slot_entries_with_blob_count D n start None = Ok (es, m) →
  ∃ run, run_from D n start run ∧ deserialize_blobs run = Ok es ∧ m = length run.
Proof.
  intros Hi Hs H. unfold get_slot_entries_with_blob_count in H.
  destruct (store_proofs.consecutive_blobs D ∅ n start) as (run & Hrun & Hl & He); [done|done|].
  rewrite Hrun in H. cbn [mbind res_bind] in H. apply res_bind_ok in H as (es' & Hes & [= <- <-]). exists run. split_and!; [|done..].
  split; [done|]. by apply eq_None_not_Some.
Qed.

Section synced.
Context (n : Z) (h0 : Hash) (t0 : Z).

(** The entries [es] are those of the blobs that have been replayed; they are a
    proof of history that starts at [h0], and the bank has counted their
    ticks. *)
Record synced s (es : list Entry) : Prop := {
  sy_verified : EntrySlice_verify (E:=Empty_set) sha256 h0 es = Ok true;
  sy_bank : ∃ b, banks (st_forks s) !! n = Some b ∧ wrap64 (tick_height b) = wrap64 (t0 + tick_count es);
  sy_progress :
    (progress s !! n = None ∧ es = [] ∧
      ∃ b, banks (st_forks s) !! n = Some b ∧ get_last_hash (queue b) = Ok h0) ∨
    ∃ p blobs, progress s !! n = Some p ∧ last_entry p = last_hash h0 es ∧
      num_blobs p = Z.of_nat (length blobs) ∧ deserialize_blobs blobs = Ok es ∧
      ∀ i, (i < length blobs)%nat → cf_data (st_ledger s) !! (n, Z.of_nat i) = blobs !! i
}.

Lemma progress_of_synced now s es p s' : synced s es → progress_of now n s = (Ok p, s') →
  s' = set_progress (<[n := p]> (progress s)) s ∧ last_entry p = last_hash h0 es ∧
  ∃ blobs, num_blobs p = Z.of_nat (length blobs) ∧ deserialize_blobs blobs = Ok es ∧
    ∀ i, (i < length blobs)%nat → cf_data (st_ledger s) !! (n, Z.of_nat i) = blobs !! i.
Proof.
  intros [_ _ Hp] (b & ? & [Hb ->]%votable_proofs.on_banks_get & H)%bind_ok.
  apply bind_ok in H as (h & ? & [Hh ->]%votable_proofs.pure_ok & H).
  apply bind_ok in H as (? & ? & [= <- <-] & H). cbv zeta in H.
  apply bind_ok in H as ([] & ? & [= <-] & [= <- <-]).
  destruct Hp as [(Hn & -> & b' & Hb' & Hh')|(p & blobs & Hn & ? & ?)]; rewrite Hn; cbn.
  - split; [done|]. split; [unfold last_hash; cbn; congruence|]. exists []. split_and!; [done..|]. cbn. lia.
  - split; [done|]. split; [done|]. by exists blobs.
Qed.

Lemma progress_of_again now s p s1 : progress_of now n s = (Ok p, s1) →
  progress_of now n s1 = (Ok p, set_progress (<[n := p]> (progress s1)) s1).
Proof.
  intros (b & ? & [Hb ->]%votable_proofs.on_banks_get & H)%bind_ok.
  apply bind_ok in H as (h & ? & [Hh ->]%votable_proofs.pure_ok & H).
  apply bind_ok in H as (? & ? & [= <- <-] & H). cbv zeta in H.
  apply bind_ok in H as ([] & ? & [= <-] & [= Hp <-]).
  unfold progress_of, the_bank, on_banks, get_bank, pure, modify_stage. unfold_monad. cbn.
  rewrite Hb. cbn. rewrite Hh. cbn. rewrite lookup_insert_eq. cbn. by rewrite Hp.
Qed.

Lemma attempt_replay now es' k s p s1 r s' : progress_of now n s = (Ok p, s1) →
  attempt (replay_entries_into_bank open_library gen_range sha256 clock par_order now n es' k) s1 = (Ok r, s') →
  ∃ r0 s2, attempt (verify_and_process_entries open_library gen_range sha256 clock par_order n es' (last_entry p))
      (set_progress (<[n := p]> (progress s1)) s1) = (Ok r0, s2) ∧
    s' = set_progress (<[n := mkProgress (last_hash (last_entry p) es')
      (wrap64 (num_blobs p + Z.of_nat k)) (started_ms p)]> (progress s2)) s2.
Proof.
  intros Hp%progress_of_again. unfold attempt at 1, replay_entries_into_bank.
  rewrite (bind_eval _ _ _ _ _ Hp). unfold mbind at 1, M_bind at 1.
  destruct (attempt _ _) as [[r0|e|] s2] eqn:Ha; [| |done].
  - unfold mbind, M_bind, modify_stage. intros H. exists r0, s2. split; [done|].
    destruct r0 as [e|[]]; by injection H as _ <-.
  - unfold attempt in Ha. by destruct (verify_and_process_entries _ _ _ _ _ _ _ _ _) as [[]].
Qed.

(** The result of a batch of entries. *)
Lemma batch_cases es h s r s' :
  attempt (verify_and_process_entries open_library gen_range sha256 clock par_order n es h) s = (Ok r, s') →
  EntrySlice_verify (E:=Empty_set) sha256 h es = Ok false ∧ s' = s ∨
  EntrySlice_verify (E:=Empty_set) sha256 h es = Ok true ∧
    ∃ x f, at_bank n (process_entries es) (st_forks s) = (x, f) ∧ s' = set_forks f s ∧
      (x = Ok tt ∨ ∃ e, x = Err e).
Proof.
  unfold attempt, verify_and_process_entries, pure, on_banks. unfold_monad.
  destruct (EntrySlice_verify _ _ _) as [[]|[]|]; cbn; [| |done].
  - destruct (at_bank _ _ _) as [[[]|e|] f]; cbn; [| |done]; intros [= <- <-]; right; (split; [done|]).
    + exists (Ok tt), f. split_and!; [done..|by left].
    + exists (Err e), f. split_and!; [done..|by eauto].
  - intros [= <- <-]. by left.
Qed.

End synced.
End slot.
End slot_proofs.
