(* ===== verification/ReplayStageDemo.v ===== *)
(** * A validator that replays and votes

    The theorems of ReplayStageProofs.v applied to a concrete validator, and a
    block that is voted for although its entries do not verify. *)

From S2P Require Import Prelude Interface Codec Float SystemProgram VoteState Message MessageProcessor StakingUtils EpochSchedule.
From S2P Require Import ForkSelection BankForks LeaderSchedule Entry Recorder BlockStore BlockhashQueue StatusCache Stake AppendVec AccountsDB Accounts Bank BankProofs BankStore.
From S2P Require Import Replay ReplayProofs ReplayChain ReplayDemo ReplayStage ReplayStageProofs.

Module stage_demo.
Import account_store append_vec append_vec_proofs accounts_db_proofs bank_store.
Import message transaction entry meta blocktree bank Bank.bank_forks blocktree_processor.
Import group_proofs replay_proofs entry_demo locktower poh_recorder replay_stage votable_proofs stage_proofs slot_proofs.
#[local] Existing Instances meta_ranged meta_layout meta_laws.
#[local] Existing Instances balance_ranged balance_layout balance_laws.
#[local] Existing Instances stake_proofs.StakeState_bincode vote_state.slot_hashes_bincode.
#[local] Existing Instances processor_proofs.demo_system_bincode processor_proofs.demo_loader_bincode.
#[local] Existing Instances vote_state.VoteState_bincode demo_transaction_bincode demo_entries_bincode.
#[local] Existing Instances vote_state.VoteInstruction_bincode signing_proofs.demo_message_bincode.
#[local] Existing Instance replay_demo.demo_store.

(** The ledger at the start: slot 0, with its two ticks. *)
Definition ledger0 : Database :=
  mkDatabase (list_to_map [(0, mkSlotMeta 0 1 1 0 0 [] true)])
    (list_to_map [((0, 0), replay_demo.blob_of [replay_demo.e0; replay_demo.e1])]) ∅ ∅ ∅ ∅.

Definition started :=
  process_blocktree (λ _, None) (λ _ _, 0%nat) (λ l, demo_sha (mjoin l)) (be_enc 32)
    (λ b, le_enc 8 b.(bal_difs)) (λ o, from_option (be_enc 32) [] o) demo_sha
    leader_schedule_demo.round_robin map_to_list (λ _ _, 0) replay_demo.in_order
    1 0 5 replay_demo.demo_genesis (accounts_db.new_with_file_size 100000) ledger0.

Definition demo_recorder : PohRecorder :=
  match PohRecorder_new (E:=unit) 1 replay_demo.e1.(entry_hash) 0 None 2 None with
  | Ok r => r
  | _ => mkRecorder (poh.mkPoh 0 0 0 0) 0 0 0 [] None None None 0 None 0 false [] [] 0
  end.

Definition demo_tower : Locktower :=
  Locktower_new (EpochStakes_new 0 {[7 := 1]} 7) VOTE_THRESHOLD_DEPTH VOTE_THRESHOLD_SIZE.

Definition stage_of (D : Database) (r : Replay (S:=accounts_db.AccountsDB)) : Stage :=
  mkStage D (forks r) {[0]} 0 0 (schedules r) demo_tower ∅ demo_recorder 2 [] [] true [] None.

Definition demo_turn (fuel : nat) :=
  turn (λ _, None) (λ _ _, 0%nat) (λ l, demo_sha (mjoin l)) (be_enc 32)
    (λ b, le_enc 8 b.(bal_difs)) (λ o, from_option (be_enc 32) [] o) demo_sha
    leader_schedule_demo.round_robin map_to_list (λ _ _, 0) replay_demo.in_order elements map_to_list
    (λ k : Z, k) (λ k _, replicate 64 k) 3 3 7 (Some 4) fuel 0.

(** Slot 1 arrives in two blobs. *)
Definition ledger1 (es : list Entry) : Database :=
  mkDatabase (list_to_map [(0, mkSlotMeta 0 1 1 0 0 [1] true); (1, mkSlotMeta 1 1 1 u64_max 0 [] true)])
    (list_to_map [((0, 0), replay_demo.blob_of [replay_demo.e0; replay_demo.e1]);
                  ((1, 0), replay_demo.blob_of es)]) ∅ ∅ ∅ ∅.
Definition ledger2 (es es' : list Entry) : Database :=
  mkDatabase (list_to_map [(0, mkSlotMeta 0 1 1 0 0 [1] true); (1, mkSlotMeta 1 2 2 1 0 [] true)])
    (list_to_map [((0, 0), replay_demo.blob_of [replay_demo.e0; replay_demo.e1]);
                  ((1, 0), replay_demo.blob_of es); ((1, 1), replay_demo.blob_of es')]) ∅ ∅ ∅ ∅.

(** The states of the validator: at its start, when the first blob of slot 1 is
    there; after a turn, when the second one is there; and after another turn. *)
Definition first_state (es : list Entry) : option (Stage (S:=accounts_db.AccountsDB)) :=
  match started with
  | Ok (_, _, _, r) => Some (stage_of (ledger1 es) r)
  | _ => None
  end.
Definition second_state (es es' : list Entry) : option (Stage (S:=accounts_db.AccountsDB)) :=
  s ← first_state es;
  match demo_turn 3 s with
  | (Ok _, s) => Some (set_ledger (ledger2 es es') s)
  | _ => None
  end.
Definition third_state (es es' : list Entry) : option (Stage (S:=accounts_db.AccountsDB)) :=
  s ← second_state es es';
  match demo_turn 3 s with
  | (Ok _, s) => Some s
  | _ => None
  end.

Definition voted (s : Stage (S:=accounts_db.AccountsDB)) : list Z :=
  vote_state.slot <$> vote_state.votes (lt_lockouts (st_locktower s)).

(** ** A block that does not verify *)

(** An entry whose hash is not the one of the clock, and entries that follow
    it. *)
Definition bad : Entry := mkEntry 1 12345 [].
Definition b1 : Entry := replay_demo.next_of 12345 [replay_demo.transfer 60 70 30 1].
Definition b2 : Entry := replay_demo.next_of b1.(entry_hash) [].
Definition b3 : Entry := replay_demo.next_of b2.(entry_hash) [].


(** ** The theorems on a block that does *)

Notation good1 := [replay_demo.e2].
Notation good2 := [replay_demo.e3; replay_demo.e4; replay_demo.e5; replay_demo.e6].

Definition places (s : Stage (S:=accounts_db.AccountsDB)) : list (Z * Z * option Z * list Z) :=
  (λ kb, (kb.1, slot (info kb.2), parent kb.2, elements (dom (ancestors (info kb.2)))))
    <$> map_to_list (banks (st_forks s)).

Lemma places_elem s n b : banks (st_forks s) !! n = Some b →
  (n, slot (info b), parent b, elements (dom (ancestors (info b)))) ∈ places s.
Proof.
  intros Hb. unfold places. apply list_elem_of_fmap. exists (n, b). split; [done|]. by apply elem_of_map_to_list.
Qed.

Lemma places_links s : places s = [(1, 1, Some 0, [1; 0]); (0, 0, None, [0])] → bank_links Z.lt s.
Proof.
  intros Hp n b p Hb%places_elem Hpar. rewrite Hp, Hpar in Hb.
  repeat (apply elem_of_cons in Hb as [[= -> _ -> _]|Hb]; [lia|]). apply elem_of_cons in Hb as [[=]|Hb].
  by apply elem_of_nil in Hb.
Qed.

Lemma places_sound s : places s = [(0, 0, None, [0])] → forks_sound Z.lt (st_forks s).
Proof.
  intros Hp n b Hb%places_elem. rewrite Hp in Hb. apply list_elem_of_singleton in Hb as [= -> Hs Hpar Ha].
  split; [done|congruence|]. intros a Hin. left. apply elem_of_elements in Hin. rewrite Ha in Hin.
  by apply list_elem_of_singleton in Hin.
Qed.

Lemma ledger_links es es' p c : links (ledger2 es es') p c ∨ links (ledger1 es) p c → p < c.
Proof.
  intros [(m & Hm & Hc)|(m & Hm & Hc)]; cbn in Hm; rewrite !lookup_insert_Some, lookup_empty in Hm;
    destruct Hm as [[<- <-]|[_ [[<- <-]|[_ [=]]]]];
    (by apply list_elem_of_singleton in Hc as ->) || by apply elem_of_nil in Hc.
Qed.

(** The validator before its second turn. *)
Lemma demo_second : ∃ s s', second_state good1 good2 = Some s ∧ demo_turn 3 s = (Ok tt, s') ∧
  running (λ _, None) (λ _ _, 0%nat) (λ l, demo_sha (mjoin l)) (be_enc 32)
    (λ b, le_enc 8 b.(bal_difs)) (λ o, from_option (be_enc 32) [] o) demo_sha
    leader_schedule_demo.round_robin map_to_list (λ _ _, 0) replay_demo.in_order elements map_to_list
    (λ k : Z, k) (λ k _, replicate 64 k) 3 3 7 (Some 4) Z.lt s ∧
  st_ledger s = ledger2 good1 good2 ∧ voted s' = [0; 1] ∧ length (pushed_votes s') = 2%nat.
Proof.
  assert (match first_state good1 with
          | Some s0 => places s0 = [(0, 0, None, [0])] ∧ st_locktower s0 = demo_tower ∧
              match demo_turn 3 s0 with
              | (Ok _, s1) => places s1 = [(1, 1, Some 0, [1; 0]); (0, 0, None, [0])] ∧
                  match demo_turn 3 (set_ledger (ledger2 good1 good2) s1) with
                  | (Ok _, s2) => voted s2 = [0; 1] ∧ length (pushed_votes s2) = 2%nat
                  | _ => False
                  end
              | _ => False
              end
          | None => False
          end) as H.
  { vm_compute. repeat split. }
  assert (∀ s0, first_state good1 = Some s0 → st_ledger s0 = ledger1 good1) as Hl.
  { intros s0. unfold first_state. generalize started. intros [[[[? ?] ?] r]| |] [= <-]. done. }
  unfold second_state. revert H Hl. generalize (first_state good1). intros [s0|]; [|done]. cbn.
  intros (Hp & Ht & H) Hl. specialize (Hl s0 eq_refl). revert H.
  destruct (demo_turn 3 s0) as [[[]| |] s1] eqn:H1; [|done..]. intros [Hp1 H].
  destruct (demo_turn 3 (set_ledger _ s1)) as [[[]| |] s2] eqn:H2; [|done..]. destruct H as [Hv Hn].
  exists (set_ledger (ledger2 good1 good2) s1), s2. split_and!; [done|done| |done..].
  eapply run_others with (s := s1); [|split; [reflexivity|by intros n b Hb; exists b]].
  eapply run_turn with (s := s0) (fuel := 3%nat) (now := 0).
  - apply run_start; [by apply places_sound|]. rewrite Ht. apply locktower_proofs.one_fork_default.
  - rewrite Hl. intros p c Hc. apply (ledger_links good1 good2). by right.
  - exact H1.
  - by apply places_links.
Qed.

Lemma stage_votes_one_fork_witness : ∃ s', voted s' = [0; 1] ∧
  ∀ u v, u ∈ vote_state.votes (lt_lockouts (st_locktower s')) →
    v ∈ vote_state.votes (lt_lockouts (st_locktower s')) →
    vote_state.slot u < vote_state.slot v → tc Z.lt (vote_state.slot u) (vote_state.slot v).
Proof.
  destruct demo_second as (s & s' & _ & Ht & Hr & Hl & Hv & _). exists s'. split; [exact Hv|].
  unfold demo_turn in Ht.
  destruct (stage_votes_one_fork (λ _, None) (λ _ _, 0%nat) (λ l, demo_sha (mjoin l)) (be_enc 32)
    (λ b, le_enc 8 b.(bal_difs)) (λ o, from_option (be_enc 32) [] o) demo_sha
    leader_schedule_demo.round_robin map_to_list (λ _ _, 0) replay_demo.in_order elements map_to_list
    (λ k : Z, k) (λ k _, replicate 64 k) 3 3 7 (Some 4) Z.lt (λ X, reflexivity _) (λ m, reflexivity _)
    3 0 s (Ok tt) s' Hr) as (H & _).
  - intros p c Hc. apply (ledger_links good1 good2). left. by rewrite <- Hl.
  - exact Ht.
  - exact H.
Defined.

Lemma votable_banks_spec_witness : ∃ s, first_state good1 = Some s ∧
  candidate map_to_list s 0 0 ∧ ∀ w n, candidate map_to_list s n w → w ≤ 0.
Proof.
  assert (match first_state good1 with
          | Some s => (generate_votable_banks map_to_list elements s).1 = Ok [(0, 0)]
          | None => False
          end) as H by (vm_compute; reflexivity).
  revert H. generalize (first_state good1). intros [s|] H; [|destruct H]. exists s. split; [reflexivity|].
  destruct (generate_votable_banks map_to_list elements s) as [x s'] eqn:Hg. cbn in H. subst x.
  destruct (votable_banks_spec map_to_list elements (λ X, reflexivity _) s [(0, 0)] s' Hg) as (_ & Hl & _).
  exact (Hl 0 0 eq_refl).
Defined.

(** Slot 1 after its first blob: the second one is replayed. *)
Definition demo_replay :=
  replay_blocktree_into_bank (S:=accounts_db.AccountsDB) (λ _, None) (λ _ _, 0%nat) demo_sha (λ _ _, 0)
    replay_demo.in_order 0 1.

Lemma demo_synced : ∃ s s', second_state good1 good2 = Some s ∧ st_ledger s = ledger2 good1 good2 ∧
  demo_replay s = (Ok tt, s') ∧ synced demo_sha 1 replay_demo.e1.(entry_hash) 1 s good1.
Proof.
  assert (match second_state good1 good2 with
          | Some s => (demo_replay s).1 = Ok tt ∧
              progress s !! 1 = Some (mkProgress (replay_demo.e2.(entry_hash)) 1 0) ∧
              bank.tick_height <$> banks (st_forks s) !! 1 = Some 1
          | None => False
          end) as H by (vm_compute; repeat split).
  destruct demo_second as (s & s' & Hs & _ & _ & Hl & _). rewrite Hs in H.
  destruct H as (Hr & Hp & Hb). destruct (demo_replay s) as [x s1] eqn:Hd. cbn in Hr. subst x.
  exists s, s1. split; [exact Hs|]. split; [exact Hl|]. split; [exact Hd|]. split.
  - vm_compute. reflexivity.
  - destruct (banks (st_forks s) !! 1) as [b|]; [|discriminate Hb]. injection Hb as Hb. exists b. split; [reflexivity|].
    rewrite Hb. vm_compute. reflexivity.
  - right. eexists _, [replay_demo.blob_of good1]. split; [exact Hp|]. split; [vm_compute; reflexivity|].
    split; [reflexivity|]. split; [vm_compute; reflexivity|]. intros i Hi. rewrite Hl.
    destruct i as [|i]; [vm_compute; reflexivity|cbn in Hi; lia].
Qed.

End stage_demo.
